(* ===== verification/_CoqProject ===== *)
-Q . S2P
Prelude.v
GoChan.v
CallSession.v
Jitter.v
AudioTransport.v
CallManager.v
CallEngine.v
CallProtocol.v
Iox.v
FriendsStore.v
Presence.v
GoStrings.v
Base64.v
Query.v
InviteCode.v
InviteUrl.v
InviteStore.v
Sealed.v
Identity.v
Discovery.v
InviteManager.v
AudioStats.v
AudioPipeline.v
Version.v
AudioDevices.v
AudioManager.v
AudioStreams.v
CallPipe.v
IpcServer.v
IpcClient.v
IpcMethods.v
IpcCalls.v
IpcInvites.v
Forward.v
TuiPanes.v
Tui.v
TuiProgram.v
TuiClient.v
P2p.v
Upgrade.v
IpcTransport.v
Config.v
Daemon.v
Cli.v
Notify.v
DaemonRun.v
Service.v
Duration.v
Init.v
Commands.v
Views.v
