(* ===== verification/Prelude.v ===== *)
(** * A verification library for opencom

    opencom is a peer-to-peer voice chat: a daemon keeps a list of friends,
    finds them over a DHT, places calls over libp2p streams and streams Opus
    audio; a command line and a terminal UI talk to the daemon over a local
    socket. This development models the daemon, the command line and the terminal
    UI in Gallina, definition by definition from the Go sources under
    [src/internal], and proves what each component promises.

    ** The program and the files

    Calls. A call is a [Session] with a four-state machine whose changes are
    broadcast to subscribers ([call/session.go], file [CallSession], on the
    channels of [GoChan]). [call/manager.go] (file [CallManager]) keeps the
    sessions by id, forwards their events to the daemon's subscribers through
    one goroutine per session, and forgets ended sessions. [call/streams.go] and
    [call/protocol.go] (file [CallEngine]) bind a session to a libp2p stream and
    run the INVITE / ACCEPT / DECLINE / HANGUP protocol on it; [CallProtocol]
    composes two such parties over a pair of streams.

    Audio. The manager's "connected" event starts an audio session. Captured
    frames go through [audio/pipeline.go], [codec.go] and [aec.go] (file
    [AudioPipeline]) into [audio/transport.go] (file [AudioTransport]), which
    sends each over QUIC datagrams or a framed stream; received frames pass the
    jitter buffer of [audio/jitter.go] (file [Jitter]) on their way to the
    decoder. [audio/stats.go] (file [AudioStats]) counts. [audio/devices.go]
    (file [AudioDevices]; the sample codec is in [AudioTransport]) runs the
    capture and playback devices; [audio/manager.go] and [session.go] (file
    [AudioManager]) open one session per connected call, close it when the call
    ends, and interleave with the pipeline's goroutine; the registry that hands
    inbound audio streams to the transports waiting for them is in
    [AudioStreams].

    Friends. [friends/store.go] (file [FriendsStore]) is the list of friends
    with its JSON file, written through [iox/atomicfile.go] (file [Iox]);
    [friends/presence.go] (file [Presence]) is who is online.

    Invites. An invite is a code ([invite/code.go], file [InviteCode]) kept in a
    store of issued codes ([invite/store.go], file [InviteStore]), handed over
    as a signed URL ([invite/url.go], file [InviteUrl], on Go's query syntax and
    base64 in [Query], [Base64] and [GoStrings]) or published as a sealed DHT
    record ([invite/record.go], file [Sealed]). [invite/manager.go] and
    [handshake.go] (file [InviteManager]) create, redeem and revoke invites; a
    redemption ends with both peers in each other's friends store.

    Discovery. Key pairs, exported identities and the keys a pair of friends
    share ([identity/*.go], [discovery/keys.go], file [Identity]) seal the
    address records ([discovery/record.go], file [Sealed]) that
    [discovery/publisher.go] publishes and [discovery/resolver.go] resolves
    through [discovery/cache.go] (file [Discovery]).

    The local socket. [ipc/protocol.go], [server.go], [conn.go] and [errors.go]
    (file [IpcServer]) answer JSON-RPC requests line by line, [ipc/client.go]
    (file [IpcClient]) matches replies and events to their callers. The methods
    of [ipc/methods] are handlers over the components above: friends, identity
    and daemon in [IpcMethods], calls in [IpcCalls], invites and the status
    summary in [IpcInvites]; [CallPipe] is the goroutine that forwards the
    events of a call to a client, and [Forward] the three goroutines that forward
    the events of a subscription. [ipc/transport.go] and [transport_unix.go]
    (file [IpcTransport]) are the Unix socket with the processes that listen.

    The daemon. [transport/p2p] (file [P2p]) is what the program adds to the
    libp2p host: its options, addresses, relays, the notifiee that makes
    connections into presence, and the peer store's file. [config] (file
    [Config]) is the configuration and the paths. [app/daemon.go] is what the
    daemon makes of them (file [Daemon]), the methods it registers ([TuiClient])
    and the order in which it acquires and releases everything ([DaemonRun]).
    [notify/calls.go] (file [Notify]) shows calls on the desktop;
    [cli/service.go] (file [Service]) runs the daemon under a service manager.

    The command line. The call commands ([cli/call.go], [daemon_ensure.go],
    file [Cli]) follow calls as a loop over what can happen; [cli/init.go] and
    [identity.go] (file [Init]) set up and show the identity; the other commands
    ([friends.go], [invite.go], [add.go], [status.go], [daemon.go], [root.go],
    file [Commands]) ask one thing and print it, durations by [Duration].

    The terminal UI ([cli/tui]). [TuiPanes] has the panes, the modals and the
    text helpers, [Tui] the model and its reducer [Update], [Views] what it
    shows, [TuiProgram] the Bubble Tea program with the commands in flight and
    [TuiClient] the client with its subscription adapter.

    Upgrades. [version/version.go], its IPC handler and the daemon's refresh
    loop are in [Version]; [cli/upgrade.go] is in [Upgrade].

    [Prelude] holds the notations, tactics, machine integers and list lemmas
    all files share.

    ** How the code is modelled

    Functions returning [(T, error)] are [result E T]; code that may panic or
    never return is an [option], [None] being that, so totality is always a
    theorem. Methods on shared objects take and return the object; goroutines
    that interleave are step relations ([sys_step], [recv_step], [send_step],
    [call_step], [fw_step], [TuiProgram.step]) or lists of operations, at the granularity of the code's
    critical sections, channel operations and atomics. Integers are [Z] with the
    wrap-around of their width written out; [float64] is executable binary64.
    Go's random map order, the clock, random numbers and the operating system's
    failures are arguments. Third-party code (libp2p and its keys, libopus,
    RTP, the DHT, AEAD, curves, JSON and YAML, HTTP) appears as parameters or
    type classes with the laws the code relies on, each instantiated by a
    concrete function where a theorem needs a witness.

    ** The theorems

    Safety under interleaving: no panic, no lost or late event, agreement of the
    two ends of a call and isolation of calls from each other ([CallProtocol],
    [CallEngine], [CallManager], [CallSession]); a code redeemed at most once
    ([InviteStore], [InviteManager]); bounded ordered queues ([AudioTransport],
    [AudioPipeline]). Refinement: the jitter buffer on 16-bit numbers against an
    unbounded stream, the friends store against a map. Liveness: in-order audio
    is played with a constant delay ([AudioPipeline]). Crash safety and
    durability of the files ([Iox], [FriendsStore], [InviteStore], [Version]).
    Round trips: framing, codes, URLs, records, identities. Functional
    correctness of whole flows: creating an invite and redeeming it, publishing
    and resolving an address, each request over the socket with its error code.
    Audio sessions have one owner each and closing completes ([AudioManager]); a
    stream is read once, by the peer's oldest waiting transport ([AudioStreams]);
    a client following a call is told its end ([CallPipe]); a subscriber gets
    every event once and in order ([Forward]), and the desktop a notification for
    each ([Notify]); a friend's presence is whether a connection to it is open
    ([P2p]). Order: the comparison of versions. Processes whose calls of [Listen]
    do not overlap listen one at a time ([IpcTransport]); a failing start
    releases what it acquired, in reverse ([DaemonRun]); an upgrade installs
    verified bytes only, whole ([Upgrade]). The commands: interrupting [opencom
    call] leaves the call up and its lines are those of the events ([Cli]),
    [opencom init] can be repeated and the exported identity befriends its owner
    ([Init]), a time to live written by the command is read back exactly for
    every int64 ([Duration], [Commands]). The terminal UI calls the friend it
    marks, quits only when asked ([Tui]) and draws without a panic ([Views]).
    Lemmas that are not among the properties state behaviours the code did not
    intend: an INVITE reusing a call's id takes its stream over, duplicated
    packets starve the player, a negative jitter cap makes [Push] diverge, a
    peer's own publication hides its friend's, a peer befriended over an open
    connection is shown offline, two processes whose calls of [Listen] overlap
    can both listen, and the service does not restart a daemon that ended.

    ** Fuel

    [Jitter.push_fuel] is 2: a buffer within its cap needs one eviction per
    push, and with a negative cap no fuel is enough. [GoStrings] recursions take
    the length of the string; decimal printing takes 20 digits, enough for an
    int64, and [ParseDuration] has a component per character at most
    ([duration_parts_fuel]). [Cli.poll] waits for the daemon with 32: its clock
    is past the deadline after 30 rounds ([Cli.poll_spec]). Loops over events
    take the list of events as their structure.

    ** Not modelled

    What third-party code does: libp2p's host, DHT and mDNS service, the codec
    and the devices' native callbacks, Lip Gloss's colours, boxes and joins, the
    clipboard, cobra's parsing of the command line, tabwriter's alignment and
    the service manager are parameters or absent. RFC 3339 texts of instants are
    kept as instants. The Windows pipe ([ipc/transport_windows.go]) is a
    library's. Spawning the daemon's process ([cli/daemon_spawn_*.go]) and
    starting the terminal program ([cli/tui_cmd.go]) are calls of the operating
    system and of Bubble Tea. [app/pidfile.go] has no caller in the program, and
    [log] constructs a logger. The test doubles ([FakeClient], [FakeClipboard])
    are left out. *)
From stdpp Require Export base tactics option list list_numbers gmap strings sorting.
From Stdlib Require Export ZArith Lia.

(** ** Fallible Go code

    A Go function returning [(T, error)] is a [result E T], the errors being
    the constructors of an error type of the component. Code that can panic
    returns an [option], [None] being the panic. *)

Inductive result (E A : Type) : Type :=
| Ok (a : A)
| Err (e : E).
Arguments Ok {E A} a.
Arguments Err {E A} e.

#[global] Instance result_ret {E} : MRet (result E) := fun A a => Ok a.
#[global] Instance result_bind {E} : MBind (result E) :=
  fun A B f r => match r with Ok a => f a | Err e => Err e end.
#[global] Instance result_fmap {E} : FMap (result E) :=
  fun A B f r => match r with Ok a => Ok (f a) | Err e => Err e end.

Definition is_ok {E A} (r : result E A) : bool :=
  match r with Ok _ => true | Err _ => false end.

(** [of_option e o] is Go's [v, ok := ...; if !ok { return e }]. *)
Definition of_option {E A} (e : E) (o : option A) : result E A :=
  match o with Some a => Ok a | None => Err e end.

(** [map_err f r] is Go's [fmt.Errorf("...: %w", err)] around a call. *)
Definition map_err {E F A} (f : E -> F) (r : result E A) : result F A :=
  match r with Ok a => Ok a | Err e => Err (f e) end.

#[global] Instance result_eq_dec {E A} `{EqDecision E, EqDecision A} :
  EqDecision (result E A).
Proof. solve_decision. Defined.

Lemma result_bind_Ok {E A B} (f : A -> result E B) a : (Ok a ≫= f) = f a.
Proof. done. Qed.

Lemma result_bind_Err {E A B} (f : A -> result E B) (e : E) : (Err e ≫= f) = Err e.
Proof. done. Qed.

Lemma result_bind_inv {E A B} (r : result E A) (f : A -> result E B) b :
  r ≫= f = Ok b -> ∃ a, r = Ok a ∧ f a = Ok b.
Proof. destruct r; simpl; intros; [eauto | discriminate]. Qed.

Lemma map_err_Ok {E F A} (f : E -> F) (r : result E A) a :
  map_err f r = Ok a <-> r = Ok a.
Proof. destruct r; simpl; split; congruence. Qed.

Lemma of_option_Ok {E A} (e : E) (o : option A) a : of_option e o = Ok a <-> o = Some a.
Proof. destruct o; simpl; split; congruence. Qed.

(** ** Machine integers *)

Definition wrap (w x : Z) : Z := (x mod 2 ^ w)%Z.

(** Two's complement reading of the low [w] bits, Go's [intW(x)]. *)
Definition swrap (w x : Z) : Z :=
  ((x + 2 ^ (w - 1)) mod 2 ^ w - 2 ^ (w - 1))%Z.

Lemma wrap_range w x : (0 < w)%Z -> (0 <= wrap w x < 2 ^ w)%Z.
Proof. intros. apply Z.mod_pos_bound, Z.pow_pos_nonneg; lia. Qed.

Lemma swrap_range w x : (0 < w)%Z -> (- 2 ^ (w - 1) <= swrap w x < 2 ^ (w - 1))%Z.
Proof.
  intros. unfold swrap.
  pose proof (Z.mod_pos_bound (x + 2 ^ (w - 1)) (2 ^ w) ltac:(lia)).
  replace (2 ^ w)%Z with (2 * 2 ^ (w - 1))%Z in *; [lia|].
  rewrite <- Z.pow_succ_r by lia. f_equal; lia.
Qed.

Lemma wrap_small w x : (0 <= x < 2 ^ w)%Z -> wrap w x = x.
Proof. intros. by apply Z.mod_small. Qed.

Lemma swrap_small w x : (0 < w)%Z -> (- 2 ^ (w - 1) <= x < 2 ^ (w - 1))%Z -> swrap w x = x.
Proof.
  intros. unfold swrap. rewrite Z.mod_small; [lia|].
  replace (2 ^ w)%Z with (2 * 2 ^ (w - 1))%Z; [lia|].
  rewrite <- Z.pow_succ_r by lia. f_equal; lia.
Qed.

(** Disjoint bit fields add up. *)
Lemma lor_shiftl_add x y k : (0 <= k)%Z -> (0 <= y < 2 ^ k)%Z -> Z.lor (Z.shiftl x k) y = (x * 2 ^ k + y)%Z.
Proof.
  intros Hk Hy.
  assert (Z.land (Z.shiftl x k) y = 0)%Z as Hl.
  { apply Z.bits_inj'. intros n Hn. rewrite Z.land_spec, Z.shiftl_spec, Z.bits_0 by lia.
    destruct (decide (n < k)%Z); [by rewrite Z.testbit_neg_r by lia|].
    rewrite <- (Z.mod_small y (2 ^ k)) by lia. rewrite Z.mod_pow2_bits_high by lia. apply andb_false_r. }
  by rewrite <- Z.shiftl_mul_pow2, Z.add_nocarry_lxor, Z.lxor_lor by lia.
Qed.

(** ** Automation *)

Create HintDb opencom.
Create Rewrite HintDb opencom.
#[export] Hint Constructors NoDup : opencom.
#[export] Hint Rewrite @result_bind_Ok @result_bind_Err : opencom.

(** Case on the scrutinee of the first [match] of the goal, keeping the equation. *)
Ltac case_goal :=
  match goal with
  | |- context [match ?x with _ => _ end] => destruct x eqn:?
  end.

(** Case on the scrutinee of the first [match] of a hypothesis. *)
Ltac case_hyp H :=
  match type of H with
  | context [match ?x with _ => _ end] => destruct x eqn:?
  end.

Ltac go_simpl := simplify_eq/=; autorewrite with opencom in *; simplify_eq/=.

(** Run the code by cases until no test is left in the goal. *)
Ltac go_cases := repeat (case_goal; go_simpl).

(** ** Lists *)

Lemma fst_map_to_list_dom {A} `{Countable K} (m : gmap K A) k :
  k ∈ (map_to_list m).*1 <-> is_Some (m !! k).
Proof.
  rewrite list_elem_of_fmap. split.
  - intros ([k' a] & -> & Hin). apply elem_of_map_to_list in Hin. by exists a.
  - intros [a Ha]. exists (k, a). split; [done|]. by apply elem_of_map_to_list.
Qed.

Lemma length_filter_lt {A} (P : A -> Prop) `{∀ x, Decision (P x)} (l : list A) x :
  x ∈ l -> ¬ P x -> length (filter P l) < length l.
Proof.
  induction l as [|y l IH]; [by rewrite elem_of_nil|].
  rewrite elem_of_cons. intros [->|Hin] Hn; rewrite filter_cons.
  - rewrite decide_False by done. simpl. pose proof (length_filter P l). lia.
  - case_decide; simpl; [specialize (IH Hin Hn); lia | pose proof (length_filter P l); lia].
Qed.

(** Updating a list at an index that is in range, or not. *)
Lemma alter_as_insert {A} (f : A -> A) (l : list A) i x : l !! i = Some x -> alter f i l = <[i := f x]> l.
Proof.
  intros Hl. apply list_eq. intros j. destruct (decide (i = j)) as [<-|Hne].
  - by rewrite list_lookup_alter_eq, Hl, list_lookup_insert_eq by (by eapply lookup_lt_Some).
  - by rewrite list_lookup_alter_ne, list_lookup_insert_ne.
Qed.

Lemma alter_missing {A} (f : A -> A) (l : list A) i : l !! i = None -> alter f i l = l.
Proof.
  intros Hl. apply list_eq. intros j. destruct (decide (i = j)) as [<-|Hne].
  - by rewrite list_lookup_alter_eq, Hl.
  - by rewrite list_lookup_alter_ne.
Qed.

(** Index of the first element satisfying a test: Go's [for i, x := range xs]
    with an early return. *)
Fixpoint find_index {A} (f : A -> bool) (l : list A) : option nat :=
  match l with
  | [] => None
  | x :: l => if f x then Some 0 else S <$> find_index f l
  end.

Lemma find_index_Some {A} (f : A -> bool) (l : list A) i :
  find_index f l = Some i <->
  (∃ x, l !! i = Some x ∧ f x = true) ∧ ∀ j y, j < i -> l !! j = Some y -> f y = false.
Proof.
  revert i. induction l as [|x l IH]; intros i; simpl.
  { split; [done|]. intros [(y & Hy & _) _]. by rewrite lookup_nil in Hy. }
  destruct (f x) eqn:Hf.
  - split.
    + intros [= <-]. split; [by exists x|]. lia.
    + intros [_ Hmin]. destruct i as [|i]; [done|].
      specialize (Hmin 0 x ltac:(lia) eq_refl). congruence.
  - rewrite fmap_Some. split.
    + intros (i' & Hi' & ->). apply IH in Hi' as [Hx Hmin].
      split; [done|]. intros [|j] y Hj; simpl; [congruence|]. apply Hmin. lia.
    + intros [(y & Hy & Hfy) Hmin]. destruct i as [|i]; [simpl in Hy; congruence|].
      exists i. split; [|done]. apply IH. split; [by exists y|].
      intros j z Hj Hz. apply (Hmin (S j) z); [lia|done].
Qed.

Lemma find_index_None {A} (f : A -> bool) (l : list A) :
  find_index f l = None <-> ∀ x, x ∈ l -> f x = false.
Proof.
  induction l as [|x l IH]; simpl.
  { split; [intros _ x Hx; by apply elem_of_nil in Hx | done]. }
  destruct (f x) eqn:Hf.
  - split; [done|]. intros Hall. specialize (Hall x (list_elem_of_here _ _)). congruence.
  - rewrite fmap_None, IH. split.
    + intros Hall y [->|Hy]%elem_of_cons; auto.
    + intros Hall y Hy. apply Hall. by right.
Qed.

Lemma sublist_delete_middle {A} (l1 l2 : list A) x : l1 ++ l2 `sublist_of` l1 ++ x :: l2.
Proof. apply sublist_app; [reflexivity|]. constructor. reflexivity. Qed.

(** Byte strings of the audio path: one [Z] per byte. *)
Notation bytes := (list Z) (only parsing).

Definition is_byte (b : Z) : Prop := (0 <= b < 256)%Z.

Lemma filter_all {A} (P : A -> Prop) `{∀ x, Decision (P x)} (l : list A) :
  Forall P l -> filter P l = l.
Proof. induction 1; [done|]. rewrite filter_cons_True by done. by f_equal. Qed.

Lemma filter_none {A} (P : A -> Prop) `{∀ x, Decision (P x)} (l : list A) :
  Forall (fun x => ¬ P x) l -> filter P l = [].
Proof. induction 1; [done|]. by rewrite filter_cons_False. Qed.

Lemma Forall_sublist {A} (P : A -> Prop) (l k : list A) :
  l `sublist_of` k -> Forall P k -> Forall P l.
Proof. rewrite !Forall_forall. intros Hs Hk x Hx. eapply Hk, elem_of_sublist; eauto. Qed.

(** ** Invariants of a step relation *)

Lemma rtc_invariant {A} (R : relation A) (I : A -> Prop) x y :
  (∀ a b, I a -> R a b -> I b) -> I x -> rtc R x y -> I y.
Proof. intros Hstep Hx. induction 1; eauto. Qed.

(** Removing the only occurrence of [x]. *)
Lemma filter_ne_middle {A} `{EqDecision A} (l1 l2 : list A) x :
  NoDup (l1 ++ x :: l2) -> filter (fun y => y ≠ x) (l1 ++ x :: l2) = l1 ++ l2.
Proof.
  intros (_ & Hdis & [Hx _]%NoDup_cons)%NoDup_app.
  rewrite filter_app, filter_cons_False by auto.
  rewrite !filter_all; [done| |]; apply Forall_forall.
  - intros y Hy ->. done.
  - intros y Hy ->. by eapply Hdis; [|apply list_elem_of_here].
Qed.

Lemma take_drop_middle {A} (l1 l2 : list A) x :
  take (length l1) (l1 ++ x :: l2) ++ drop (S (length l1)) (l1 ++ x :: l2) = l1 ++ l2.
Proof.
  rewrite take_app_length, cons_middle, app_assoc, drop_app_length'; [done|].
  rewrite length_app. simpl. lia.
Qed.

(** ** [sort.Slice] by a string key

    Go's sort is unstable and starts from an unspecified map order; with
    distinct keys the outcome does not depend on either. *)

Definition key_le {A} (a b : string * A) : Prop := String.le a.1 b.1.
#[export] Instance key_le_dec {A} (a b : string * A) : Decision (key_le a b).
Proof. unfold key_le. apply _. Defined.
#[export] Instance key_le_trans {A} : Transitive (@key_le A).
Proof. intros a b c. unfold key_le. apply (transitivity (R := String.le)). Qed.
#[export] Instance key_le_total {A} : Total (@key_le A).
Proof. intros a b. apply (total String.le). Qed.

Definition sort_by_key {A} (l : list (string * A)) : list (string * A) := merge_sort key_le l.

Lemma sort_by_key_sorted {A} (l : list (string * A)) : StronglySorted key_le (sort_by_key l).
Proof. apply StronglySorted_merge_sort; apply _. Qed.

Lemma sort_by_key_perm {A} (l : list (string * A)) : sort_by_key l ≡ₚ l.
Proof. apply merge_sort_Permutation. Qed.

Lemma NoDup_fst_unique {A B} (l : list (A * B)) x y :
  NoDup l.*1 -> x ∈ l -> y ∈ l -> x.1 = y.1 -> x = y.
Proof.
  intros Hnd (i & Hi)%list_elem_of_lookup (j & Hj)%list_elem_of_lookup Heq.
  assert (i = j) as ->; [|by simplify_eq].
  eapply NoDup_lookup; [exact Hnd| |]; rewrite list_lookup_fmap, fmap_Some; eauto.
Qed.

Lemma sort_by_key_unique {A} (l l' : list (string * A)) :
  NoDup l.*1 -> l' ≡ₚ l -> StronglySorted key_le l' -> l' = sort_by_key l.
Proof.
  intros Hnd Hp Hs. apply (StronglySorted_unique_strong key_le);
    [|done|apply sort_by_key_sorted|by rewrite sort_by_key_perm].
  intros x1 x2 H1 H2 H12 H21. rewrite sort_by_key_perm in H2. rewrite Hp in H1.
  eapply NoDup_fst_unique; eauto. by apply (anti_symm String.le).
Qed.

Lemma sort_by_key_sorted_fst {A} (l : list (string * A)) : StronglySorted String.le (sort_by_key l).*1.
Proof.
  induction (sort_by_key_sorted l) as [|a l' _ IH Hall]; simpl; constructor; [done|].
  by apply Forall_fmap.
Qed.

(** ** A concrete byte encoding of countable types

    Used to show that the laws assumed of a serialization library can hold:
    the bits of [encode] as ASCII digits, ended by any other byte. *)
Fixpoint pos_bytes (p : positive) : bytes :=
  match p with
  | xH => []
  | xO p => 48%Z :: pos_bytes p
  | xI p => 49%Z :: pos_bytes p
  end.

Fixpoint bytes_pos (b : bytes) : positive :=
  match b with
  | x :: b => if decide (x = 48%Z) then xO (bytes_pos b)
              else if decide (x = 49%Z) then xI (bytes_pos b) else xH
  | [] => xH
  end.

Definition encode_bytes {A} `{Countable A} (a : A) : bytes := pos_bytes (encode a).
Definition decode_bytes {A} `{Countable A} (b : bytes) : option A := decode (bytes_pos b).

Lemma bytes_pos_app p rest :
  bytes_pos rest = xH -> bytes_pos (pos_bytes p ++ rest) = p.
Proof. intros Hr. induction p; simpl; repeat case_decide; try done; by f_equal. Qed.

Lemma decode_encode_bytes {A} `{Countable A} (a : A) rest :
  bytes_pos rest = xH -> decode_bytes (encode_bytes a ++ rest) = Some a.
Proof. intros Hr. unfold decode_bytes, encode_bytes. by rewrite bytes_pos_app, decode_encode. Qed.
