(* ===== verification/GoChan.v ===== *)
(** * Go channels and subscriber sets

    Buffered channels with Go's rules for [close], the non-blocking send
    [select { case ch <- v: default: }] and the receive, and the two shapes of
    subscriber set the program keeps: a list of channels, and a map from
    subscription ids to channels ([Hub]). Channels live in a heap indexed by
    location, because the subscriber that was handed the channel keeps reading
    it after it left the set. *)
From S2P Require Import Prelude.

Record Chan (A : Type) := mkChan {
  ch_cap : nat;
  ch_buf : list A;
  ch_closed : bool }.
Arguments mkChan {A} ch_cap ch_buf ch_closed.
Arguments ch_cap {A} c.
Arguments ch_buf {A} c.
Arguments ch_closed {A} c.

Definition make_chan {A} (cap : nat) : Chan A := mkChan cap [] false.

(** The non-blocking send: appended when there is room, dropped when the
    buffer is full, a run-time panic when the channel is closed. *)
Definition try_send {A} (c : Chan A) (v : A) : option (Chan A) :=
  if ch_closed c then None
  else if decide (length (ch_buf c) < ch_cap c)
       then Some (mkChan (ch_cap c) (ch_buf c ++ [v]) false)
       else Some c.

Definition close_chan {A} (c : Chan A) : option (Chan A) :=
  if ch_closed c then None else Some (mkChan (ch_cap c) (ch_buf c) true).

(** A receive: a value, the zero value of a closed drained channel, or it blocks. *)
Inductive recv_result (A : Type) : Type :=
| RecvValue (v : A) (c : Chan A)
| RecvClosed
| RecvBlocks.
Arguments RecvValue {A} v c.
Arguments RecvClosed {A}.
Arguments RecvBlocks {A}.

Definition recv {A} (c : Chan A) : recv_result A :=
  match ch_buf c with
  | v :: buf => RecvValue v (mkChan (ch_cap c) buf (ch_closed c))
  | [] => if ch_closed c then RecvClosed else RecvBlocks
  end.

Definition chan_ok {A} (c : Chan A) : Prop := length (ch_buf c) <= ch_cap c.

(** ** Channels in a heap *)

Definition send_at {A} (heap : list (Chan A)) (l : nat) (v : A) : option (list (Chan A)) :=
  c ← heap !! l; c' ← try_send c v; Some (<[l := c']> heap).

Definition close_at {A} (heap : list (Chan A)) (l : nat) : option (list (Chan A)) :=
  c ← heap !! l; c' ← close_chan c; Some (<[l := c']> heap).

(** [for _, ch := range chans { select { case ch <- ev: default: } }] *)
Fixpoint send_all {A} (heap : list (Chan A)) (ls : list nat) (v : A) : option (list (Chan A)) :=
  match ls with
  | [] => Some heap
  | l :: ls => heap' ← send_at heap l v; send_all heap' ls v
  end.

(** The effect of one non-blocking send on an open channel. *)
Definition pushed {A} (v : A) (c : Chan A) : Chan A :=
  if decide (length (ch_buf c) < ch_cap c)
  then mkChan (ch_cap c) (ch_buf c ++ [v]) (ch_closed c) else c.

Definition open_at {A} (heap : list (Chan A)) (l : nat) : Prop :=
  ∃ c, heap !! l = Some c ∧ ch_closed c = false.

(** ** A map of subscribers *)

Record Hub (A : Type) := mkHub {
  subs : gmap nat nat;            (* subscription id -> channel *)
  nextID : nat;
  heap : list (Chan A) }.
Arguments mkHub {A} subs nextID heap.
Arguments subs {A} h.
Arguments nextID {A} h.
Arguments heap {A} h.

Definition hub_new {A} : Hub A := mkHub ∅ 0 [].

Definition hub_subscribe {A} (cap : nat) (h : Hub A) : Hub A * nat * nat :=
  let l := length (heap h) in
  (mkHub (<[nextID h := l]> (subs h)) (S (nextID h)) (heap h ++ [make_chan cap]),
   nextID h, l).

Definition hub_unsubscribe {A} (id : nat) (h : Hub A) : option (Hub A) :=
  match subs h !! id with
  | None => Some h
  | Some l =>
      heap' ← close_at (heap h) l;
      Some (mkHub (delete id (subs h)) (nextID h) heap')
  end.

(** Go ranges over the map in an unspecified order: the order is an argument. *)
Definition hub_broadcast_in {A} (order : list nat) (v : A) (h : Hub A) : option (Hub A) :=
  heap' ← send_all (heap h) order v;
  Some (mkHub (subs h) (nextID h) heap').

Definition hub_locs {A} (h : Hub A) : list nat := (map_to_list (subs h)).*2.

Definition hub_broadcast {A} (v : A) (h : Hub A) : option (Hub A) :=
  hub_broadcast_in (hub_locs h) v h.

(** Subscribed channels are open, pairwise distinct, and ids are fresh. *)
Record hub_ok {A} (h : Hub A) : Prop := {
  ho_open : ∀ id l, subs h !! id = Some l -> open_at (heap h) l;
  ho_inj : ∀ i j l, subs h !! i = Some l -> subs h !! j = Some l -> i = j;
  ho_fresh : ∀ id l, subs h !! id = Some l -> id < nextID h;
  ho_caps : Forall chan_ok (heap h) }.

(** ** Channel lemmas *)

Section chan.
Context {A : Type}.
Implicit Types (c : Chan A) (v : A) (heap : list (Chan A)).

Lemma try_send_open c v : ch_closed c = false -> try_send c v = Some (pushed v c).
Proof. unfold try_send, pushed. intros ->. by case_decide. Qed.

Lemma pushed_closed v c : ch_closed (pushed v c) = ch_closed c.
Proof. unfold pushed. by case_decide. Qed.

Lemma pushed_cap v c : ch_cap (pushed v c) = ch_cap c.
Proof. unfold pushed. by case_decide. Qed.

Lemma pushed_ok v c : chan_ok c -> chan_ok (pushed v c).
Proof. unfold chan_ok, pushed. case_decide; simpl; rewrite ?length_app; simpl; lia. Qed.

Lemma make_chan_ok cap : chan_ok (A:=A) (make_chan cap).
Proof. unfold chan_ok; simpl; lia. Qed.

Lemma recv_try_send c v c' :
  try_send c v = Some c' -> ch_buf c = [] -> 0 < ch_cap c ->
  recv c' = RecvValue v (mkChan (ch_cap c) [] false).
Proof.
  unfold try_send, recv. destruct (ch_closed c); [done|].
  intros Hs Hb Hc. rewrite Hb in Hs. simpl in Hs.
  rewrite decide_True in Hs by done. by simplify_eq.
Qed.

Lemma send_at_open heap l v c :
  heap !! l = Some c -> ch_closed c = false ->
  send_at heap l v = Some (<[l := pushed v c]> heap).
Proof. intros Hl Hc. unfold send_at. rewrite Hl. simpl. by rewrite try_send_open. Qed.

Lemma close_at_open heap l :
  open_at heap l ->
  ∃ c, heap !! l = Some c ∧
       close_at heap l = Some (<[l := mkChan (ch_cap c) (ch_buf c) true]> heap).
Proof.
  intros (c & Hl & Hc). exists c. split; [done|].
  unfold close_at, close_chan. rewrite Hl. simpl. by rewrite Hc.
Qed.

Lemma open_at_lt heap l : open_at heap l -> l < length heap.
Proof. intros (c & Hl & _). by apply lookup_lt_Some in Hl. Qed.

Lemma open_at_app heap heap' l : open_at heap l -> open_at (heap ++ heap') l.
Proof.
  intros (c & Hl & Hc). exists c. split; [|done]. by apply lookup_app_l_Some.
Qed.

Lemma open_at_insert_ne heap l l' c :
  l ≠ l' -> open_at heap l -> open_at (<[l' := c]> heap) l.
Proof. intros Hn (c' & Hl & Hc). exists c'. by rewrite list_lookup_insert_ne. Qed.

(** What a loop of non-blocking sends does, whatever the order of the
    (distinct, open) channels: each of them gets the event if it has room and
    nothing else changes. *)
Lemma send_all_spec heap ls v :
  NoDup ls -> (∀ l, l ∈ ls -> open_at heap l) ->
  ∃ heap', send_all heap ls v = Some heap' ∧ length heap' = length heap ∧
    (∀ l, l ∈ ls -> heap' !! l = pushed v <$> heap !! l) ∧
    (∀ l, l ∉ ls -> heap' !! l = heap !! l).
Proof.
  intros Hnd. revert heap. induction Hnd as [|l ls Hnin Hnd IH]; intros heap Hopen.
  { exists heap. repeat split; try done. intros l Hl. by apply elem_of_nil in Hl. }
  destruct (Hopen l (list_elem_of_here _ _)) as (c & Hl & Hc).
  assert (Hlt := lookup_lt_Some _ _ _ Hl).
  destruct (IH (<[l := pushed v c]> heap)) as (heap' & Hs & Hlen & Hin & Hout).
  { intros l' Hl'. apply open_at_insert_ne; [set_solver|].
    apply Hopen. by right. }
  exists heap'. simpl. rewrite (send_at_open _ _ _ _ Hl Hc). simpl.
  rewrite length_insert in Hlen. split; [done|]. split; [done|]. split.
  - intros l' [->|Hl']%elem_of_cons.
    + rewrite Hout by done. rewrite list_lookup_insert_eq by done. by rewrite Hl.
    + rewrite Hin by done. rewrite list_lookup_insert_ne by set_solver. done.
  - intros l' [Hne Hl']%not_elem_of_cons. rewrite Hout by done.
    by rewrite list_lookup_insert_ne.
Qed.

Lemma send_all_perm heap ls ls' v :
  NoDup ls -> (∀ l, l ∈ ls -> open_at heap l) -> ls ≡ₚ ls' ->
  send_all heap ls v = send_all heap ls' v.
Proof.
  intros Hnd Hopen Hp.
  destruct (send_all_spec heap ls v Hnd Hopen) as (h1 & -> & _ & Hin1 & Hout1).
  destruct (send_all_spec heap ls' v) as (h2 & -> & _ & Hin2 & Hout2).
  { by rewrite <- Hp. }
  { intros l. rewrite <- Hp. apply Hopen. }
  f_equal. apply list_eq. intros l. destruct (decide (l ∈ ls)) as [Hl|Hl].
  - rewrite Hin1, Hin2 by (by rewrite <- ?Hp). done.
  - rewrite Hout1, Hout2 by (by rewrite <- ?Hp). done.
Qed.

End chan.

(** ** Hub lemmas *)

Section hub.
Context {A : Type}.
Implicit Types (h : Hub A) (v : A).

Lemma elem_of_hub_locs h l : l ∈ hub_locs h <-> ∃ id, subs h !! id = Some l.
Proof.
  unfold hub_locs. rewrite list_elem_of_fmap. split.
  - intros ([id l'] & -> & Hin). apply elem_of_map_to_list in Hin. by exists id.
  - intros [id Hid]. exists (id, l). split; [done|]. by apply elem_of_map_to_list.
Qed.

Lemma NoDup_hub_locs h : hub_ok h -> NoDup (hub_locs h).
Proof.
  intros Hok. unfold hub_locs. apply NoDup_fmap_2_strong; [|apply NoDup_map_to_list].
  intros [i l] [j l'] Hi Hj ?. simpl in *. subst l'.
  apply elem_of_map_to_list in Hi, Hj. f_equal. by eapply ho_inj.
Qed.

Lemma hub_new_ok : hub_ok (A:=A) hub_new.
Proof. split; simpl; try (intros *; by rewrite lookup_empty). constructor. Qed.

Lemma hub_subscribe_ok cap h :
  hub_ok h -> hub_ok (hub_subscribe cap h).1.1.
Proof.
  intros [Ho Hi Hf Hc]. split; simpl.
  - intros id l. rewrite lookup_insert. case_decide; intros; simplify_eq.
    + exists (make_chan cap). split; [|done]. by rewrite lookup_app_r, Nat.sub_diag.
    + by eapply open_at_app, Ho.
  - intros i j l. rewrite !lookup_insert. repeat case_decide; intros; simplify_eq; eauto.
    + apply Ho, open_at_lt in H2. lia.
    + apply Ho, open_at_lt in H1. lia.
  - intros id l. rewrite lookup_insert. case_decide; intros; simplify_eq; [lia|].
    apply Hf in H0. lia.
  - apply Forall_app. split; [done|]. constructor; [apply make_chan_ok|constructor].
Qed.

Lemma hub_subscribe_lookup cap h :
  heap (hub_subscribe cap h).1.1 !! (hub_subscribe cap h).2 = Some (make_chan cap).
Proof. simpl. by rewrite lookup_app_r, Nat.sub_diag. Qed.

Lemma hub_unsubscribe_ok id h :
  hub_ok h -> ∃ h', hub_unsubscribe id h = Some h' ∧ hub_ok h' ∧ subs h' = delete id (subs h).
Proof.
  intros [Ho Hi Hf Hc]. unfold hub_unsubscribe.
  destruct (subs h !! id) as [l|] eqn:Hid; last first.
  { exists h. repeat split; auto. by rewrite delete_id. }
  destruct (close_at_open (heap h) l) as (c & Hl & Hcl); [eauto|].
  rewrite Hcl. simpl. eexists. split; [done|]. split; [|done]. split; simpl.
  - intros i l'. rewrite lookup_delete_Some. intros [Hne Hil].
    apply open_at_insert_ne; [|eauto]. intros ->. eauto.
  - intros i j l'. rewrite !lookup_delete_Some. naive_solver.
  - intros i l'. rewrite lookup_delete_Some. naive_solver.
  - apply Forall_insert; [done|].
    eapply Forall_lookup in Hl; [|exact Hc]. exact Hl.
Qed.

(** A broadcast never panics on a well-formed hub, does not depend on the
    order the map is ranged over, and delivers to exactly the subscribers
    that have room. *)
Lemma hub_broadcast_ok v h :
  hub_ok h ->
  ∃ h', hub_broadcast v h = Some h' ∧ hub_ok h' ∧
    subs h' = subs h ∧ nextID h' = nextID h ∧
    (∀ id l, subs h !! id = Some l -> heap h' !! l = pushed v <$> heap h !! l) ∧
    (∀ l, l ∉ hub_locs h -> heap h' !! l = heap h !! l).
Proof.
  intros Hok. assert (Hok' := Hok). destruct Hok' as [Ho Hi Hf Hc].
  destruct (send_all_spec (heap h) (hub_locs h) v) as (heap' & Hs & Hlen & Hin & Hout).
  { by apply NoDup_hub_locs. }
  { intros l. rewrite elem_of_hub_locs. naive_solver. }
  unfold hub_broadcast, hub_broadcast_in. rewrite Hs. simpl.
  eexists. split; [done|]. split; [|simpl].
  - split; simpl.
    + intros id l Hid. destruct (Ho id l Hid) as (c & Hl & Hcl).
      exists (pushed v c). rewrite Hin by (apply elem_of_hub_locs; eauto).
      rewrite Hl, pushed_closed. done.
    + eauto.
    + eauto.
    + apply Forall_lookup. intros l c Hl. destruct (decide (l ∈ hub_locs h)) as [Hm|Hm].
      * rewrite Hin in Hl by done. apply fmap_Some in Hl as (c0 & Hl & ->).
        apply pushed_ok. by eapply Forall_lookup in Hl.
      * rewrite Hout in Hl by done. by eapply Forall_lookup in Hl.
  - repeat split; try done. intros id l Hid. apply Hin, elem_of_hub_locs. eauto.
Qed.

Lemma hub_broadcast_perm order v h :
  hub_ok h -> order ≡ₚ hub_locs h -> hub_broadcast_in order v h = hub_broadcast v h.
Proof.
  intros Hok Hp. unfold hub_broadcast, hub_broadcast_in.
  rewrite (send_all_perm (heap h) order (hub_locs h)); [done| |  |done].
  - rewrite Hp. by apply NoDup_hub_locs.
  - intros l. rewrite Hp, elem_of_hub_locs. intros [id Hid]. by eapply ho_open.
Qed.

End hub.

#[export] Hint Resolve hub_new_ok hub_subscribe_ok make_chan_ok : opencom.
