(* ===== verification/CallSession.v ===== *)
(** * The call session state machine ([internal/call/session.go])

    [Session] is one call. Its mutex-protected critical sections are the
    functions [transition_commit] and [End_commit]; the broadcast to the
    session's subscribers is a second critical section, so two transitions can
    commit in one order and broadcast in the other. [sys_step] is that
    interleaving, with the events committed but not yet broadcast as part of
    the state. *)
From S2P Require Import Prelude GoChan.
#[local] Open Scope string_scope.

(** ** Data *)

Inductive State :=
| StateIdle
| StateRinging
| StateConnecting
| StateConnected
| StateEnded.

#[export] Instance State_eq_dec : EqDecision State.
Proof. solve_decision. Defined.

(** The [iota] values behind the constants. *)
Definition state_num (s : State) : nat :=
  match s with
  | StateIdle => 0
  | StateRinging => 1
  | StateConnecting => 2
  | StateConnected => 3
  | StateEnded => 4
  end.

Definition State_String (s : State) : string :=
  match s with
  | StateIdle => "idle"
  | StateRinging => "ringing"
  | StateConnecting => "connecting"
  | StateConnected => "connected"
  | StateEnded => "ended"
  end.

Inductive Direction :=
| Outbound
| Inbound.

#[export] Instance Direction_eq_dec : EqDecision Direction.
Proof. solve_decision. Defined.

Definition Direction_String (d : Direction) : string :=
  match d with
  | Outbound => "outbound"
  | Inbound => "inbound"
  end.

Record StateChange := mkStateChange {
  SessionID : string;
  ev_State : string;
  ev_Direction : string;
  ev_Remote : string;
  ev_Time : Z;
  ev_Reason : string }.

#[export] Instance StateChange_eq_dec : EqDecision StateChange.
Proof. solve_decision. Defined.

Record Session := mkSession {
  s_id : string;
  s_remote : string;
  s_direction : Direction;
  s_startedAt : Z;
  s_state : State;
  s_reason : string;
  s_hub : Hub StateChange }.

Inductive SessionErr :=
| EAlreadyEnded (id : string)
| EInvalidTransition (id : string) (current target : State).

#[export] Instance SessionErr_eq_dec : EqDecision SessionErr.
Proof. solve_decision. Defined.

(** ** Operations *)

Definition NewSession (id remote : string) (dir : Direction) (now : Z) : Session :=
  mkSession id remote dir now StateIdle "" hub_new.

Definition set_state (st : State) (reason : string) (s : Session) : Session :=
  mkSession (s_id s) (s_remote s) (s_direction s) (s_startedAt s) st reason (s_hub s).

Definition set_hub (h : Hub StateChange) (s : Session) : Session :=
  mkSession (s_id s) (s_remote s) (s_direction s) (s_startedAt s) (s_state s) (s_reason s) h.

Definition state_change (s : Session) (st : State) (now : Z) (reason : string) : StateChange :=
  mkStateChange (s_id s) (State_String st) (Direction_String (s_direction s)) (s_remote s) now reason.

(** [broadcast]: the subscriber loop under [subsMu]. *)
Definition broadcast (ev : StateChange) (s : Session) : option Session :=
  h ← hub_broadcast ev (s_hub s); Some (set_hub h s).

(** The critical section of [transition] and the event it then broadcasts. *)
Definition transition_commit (target : State) (reason : string) (now : Z) (s : Session)
    : result SessionErr (Session * StateChange) :=
  if decide (s_state s = StateEnded) then Err (EAlreadyEnded (s_id s))
  else if decide (state_num target = state_num (s_state s) + 1)
       then Ok (set_state target (s_reason s) s, state_change s target now reason)
       else Err (EInvalidTransition (s_id s) (s_state s) target).

Definition transition (target : State) (reason : string) (now : Z) (s : Session)
    : option (Session * result SessionErr ()) :=
  match transition_commit target reason now s with
  | Err e => Some (s, Err e)
  | Ok (s1, ev) => s2 ← broadcast ev s1; Some (s2, Ok tt)
  end.

Definition ToRinging := transition StateRinging "".
Definition ToConnecting := transition StateConnecting "".
Definition ToConnected := transition StateConnected "".

(** The critical section of [End]; [None] when the session has already ended. *)
Definition End_commit (reason : string) (now : Z) (s : Session) : option (Session * StateChange) :=
  if decide (s_state s = StateEnded) then None
  else Some (set_state StateEnded reason s, state_change s StateEnded now reason).

Definition End (reason : string) (now : Z) (s : Session) : option Session :=
  match End_commit reason now s with
  | None => Some s
  | Some (s1, ev) => broadcast ev s1
  end.

(** [Subscribe] returns the id and the channel (its location in the heap). *)
Definition Subscribe (s : Session) : Session * nat * nat :=
  let '(h, id, l) := hub_subscribe 16 (s_hub s) in (set_hub h s, id, l).

Definition Unsubscribe (id : nat) (s : Session) : option Session :=
  h ← hub_unsubscribe id (s_hub s); Some (set_hub h s).

(** The reader of channel [l] takes one event. *)
Definition session_recv (l : nat) (s : Session) : option (StateChange * Session) :=
  c ← heap (s_hub s) !! l;
  match recv c with
  | RecvValue v c' =>
      Some (v, set_hub (mkHub (subs (s_hub s)) (nextID (s_hub s)) (<[l := c']> (heap (s_hub s)))) s)
  | _ => None
  end.

(** ** A session shared by goroutines *)

Record Sys := mkSys {
  sys_sess : Session;
  sys_pending : list StateChange }.

Inductive sys_step : Sys -> Sys -> Prop :=
| step_transition target now s s' ev p :
    target ∈ [StateRinging; StateConnecting; StateConnected] ->
    transition_commit target "" now s = Ok (s', ev) ->
    sys_step (mkSys s p) (mkSys s' (ev :: p))
| step_end reason now s s' ev p :
    End_commit reason now s = Some (s', ev) ->
    sys_step (mkSys s p) (mkSys s' (ev :: p))
| step_broadcast s s' ev p1 p2 :
    broadcast ev s = Some s' ->
    sys_step (mkSys s (p1 ++ ev :: p2)) (mkSys s' (p1 ++ p2))
| step_subscribe s p :
    sys_step (mkSys s p) (mkSys (Subscribe s).1.1 p)
| step_unsubscribe id s s' p :
    Unsubscribe id s = Some s' ->
    sys_step (mkSys s p) (mkSys s' p)
| step_recv l v s s' p :
    session_recv l s = Some (v, s') ->
    sys_step (mkSys s p) (mkSys s' p).

Definition sys_init (id remote : string) (dir : Direction) (now : Z) : Sys :=
  mkSys (NewSession id remote dir now) [].

Definition session_ok (s : Session) : Prop := hub_ok (s_hub s).

(** The events of a channel together with the pending ones: distinct states,
    all of them already reached by the session. *)
Definition events_ok (s : Session) (evs : list StateChange) : Prop :=
  NoDup (ev_State <$> evs) ∧
  Forall (fun ev => ∃ st, ev_State ev = State_String st ∧
                          0 < state_num st <= state_num (s_state s)) evs.

Definition sys_ok (y : Sys) : Prop :=
  session_ok (sys_sess y) ∧ events_ok (sys_sess y) (sys_pending y) ∧
  (∀ l c, heap (s_hub (sys_sess y)) !! l = Some c ->
     events_ok (sys_sess y) (ch_buf c ++ sys_pending y) ∧ ch_cap c = 16).

(** ** Lemmas *)

#[export] Instance State_String_inj : Inj (=) (=) State_String.
Proof. intros [] []; simpl; congruence. Qed.

#[export] Instance state_num_inj : Inj (=) (=) state_num.
Proof. intros [] []; simpl; congruence. Qed.

Lemma transition_commit_Ok target reason now s s' ev :
  transition_commit target reason now s = Ok (s', ev) <->
  s_state s ≠ StateEnded ∧ state_num target = state_num (s_state s) + 1 ∧
  s' = set_state target (s_reason s) s ∧ ev = state_change s target now reason.
Proof. unfold transition_commit. repeat case_decide; naive_solver. Qed.

Lemma End_commit_Some reason now s s' ev :
  End_commit reason now s = Some (s', ev) <->
  s_state s ≠ StateEnded ∧ s' = set_state StateEnded reason s ∧
  ev = state_change s StateEnded now reason.
Proof. unfold End_commit. case_decide; naive_solver. Qed.

Lemma broadcast_ok ev s :
  session_ok s ->
  ∃ s', broadcast ev s = Some s' ∧ session_ok s' ∧
    s' = set_hub (s_hub s') s ∧ subs (s_hub s') = subs (s_hub s) ∧
    (∀ id l, subs (s_hub s) !! id = Some l ->
       heap (s_hub s') !! l = pushed ev <$> heap (s_hub s) !! l) ∧
    (∀ l, l ∉ hub_locs (s_hub s) -> heap (s_hub s') !! l = heap (s_hub s) !! l).
Proof.
  intros Hok. destruct (hub_broadcast_ok ev (s_hub s) Hok) as (h & Hb & Hh & Hsub & _ & Hin & Hout).
  unfold broadcast. rewrite Hb. simpl. eexists. split; [done|]. by destruct s.
Qed.

Lemma NewSession_ok id remote dir now : session_ok (NewSession id remote dir now).
Proof. apply hub_new_ok. Qed.

Lemma Subscribe_ok s : session_ok s -> session_ok (Subscribe s).1.1.
Proof. apply hub_subscribe_ok. Qed.

Lemma Unsubscribe_ok id s :
  session_ok s ->
  ∃ s', Unsubscribe id s = Some s' ∧ session_ok s' ∧ s' = set_hub (s_hub s') s.
Proof.
  intros Hok. destruct (hub_unsubscribe_ok id (s_hub s) Hok) as (h & Hu & Hh & _).
  unfold Unsubscribe. rewrite Hu. simpl. eexists. split; [done|]. by destruct s.
Qed.

Lemma transition_total target reason now s :
  session_ok s ->
  ∃ s' r, transition target reason now s = Some (s', r) ∧ session_ok s' ∧
    match transition_commit target reason now s with
    | Ok _ => r = Ok tt ∧ s_state s' = target ∧ s_reason s' = s_reason s ∧ s_id s' = s_id s
    | Err e => r = Err e ∧ s' = s
    end.
Proof.
  intros Hok. unfold transition.
  destruct (transition_commit target reason now s) as [[s1 ev]|e] eqn:Ht; [|eauto 6].
  apply transition_commit_Ok in Ht as (_ & _ & -> & ->).
  destruct (broadcast_ok (state_change s target now reason) (set_state target (s_reason s) s))
    as (s' & -> & Hok' & Heq & _); [exact Hok|].
  simpl. eexists _, _. split; [done|]. split; [done|]. rewrite Heq. done.
Qed.

Lemma End_total reason now s :
  session_ok s ->
  ∃ s', End reason now s = Some s' ∧ session_ok s' ∧ s_state s' = StateEnded ∧
        s_id s' = s_id s ∧ s_direction s' = s_direction s ∧ s_remote s' = s_remote s.
Proof.
  intros Hok. unfold End.
  destruct (End_commit reason now s) as [[s1 ev]|] eqn:He.
  - apply End_commit_Some in He as (_ & -> & ->).
    destruct (broadcast_ok (state_change s StateEnded now reason) (set_state StateEnded reason s))
      as (s' & -> & Hok' & Heq & _); [exact Hok|].
    eexists. split; [done|]. split; [done|]. rewrite Heq. done.
  - unfold End_commit in He. case_decide; [|done]. eauto 7.
Qed.

#[export] Hint Resolve NewSession_ok Subscribe_ok : opencom.

Lemma events_ok_cons s st now reason evs :
  events_ok s evs -> state_num (s_state s) < state_num st ->
  events_ok (set_state st reason s) (state_change s st now reason :: evs).
Proof.
  intros [Hnd Hall] Hlt. rewrite Forall_forall in Hall. split.
  - simpl. constructor; [|done]. rewrite list_elem_of_fmap.
    intros (ev & Heq & (st' & Heq' & Hst')%Hall).
    rewrite Heq' in Heq. apply State_String_inj in Heq. subst. lia.
  - apply Forall_forall. intros ev [->|(st' & ? & ?)%Hall]%elem_of_cons; simpl.
    + exists st. split; [done|lia].
    + exists st'. split; [done|lia].
Qed.

#[export] Instance events_ok_perm s : Proper ((≡ₚ) ==> iff) (events_ok s).
Proof. intros evs evs' Hp. unfold events_ok. by rewrite Hp. Qed.

Lemma events_ok_sublist s evs evs' : evs' `sublist_of` evs -> events_ok s evs -> events_ok s evs'.
Proof.
  intros Hsub [Hnd Hall]. split.
  - eapply sublist_NoDup; [exact Hnd|]. by apply fmap_sublist.
  - rewrite Forall_forall in Hall |- *. intros ev Hev. apply Hall.
    by eapply elem_of_sublist.
Qed.

(** At most one event per state after [StateIdle]: four events in all. *)
Lemma events_ok_length s evs : events_ok s evs -> length evs <= 4.
Proof.
  intros [Hnd Hall]. rewrite Forall_forall in Hall.
  rewrite <- (length_fmap ev_State).
  apply (submseteq_length _ ["ringing"; "connecting"; "connected"; "ended"]).
  apply NoDup_submseteq; [done|]. intros n (ev & -> & (st & -> & Hst)%Hall)%list_elem_of_fmap.
  destruct st; simpl in *; set_solver by lia.
Qed.

(** ** The interleaving keeps the invariant *)

Lemma sys_ok_commit s st now reason r p :
  sys_ok (mkSys s p) -> state_num (s_state s) < state_num st ->
  sys_ok (mkSys (set_state st r s) (state_change s st now reason :: p)).
Proof.
  intros (Hok & Hp & Hev) Hlt. simpl in *.
  split; [exact Hok|]. split; [by apply (events_ok_cons s st now reason)|].
  simpl. intros l c Hl. destruct (Hev l c Hl) as [He Hcap]. split; [|done].
  rewrite <- Permutation_middle. by apply (events_ok_cons s st now reason).
Qed.

Lemma sys_ok_broadcast s s' ev p1 p2 :
  sys_ok (mkSys s (p1 ++ ev :: p2)) -> broadcast ev s = Some s' -> sys_ok (mkSys s' (p1 ++ p2)).
Proof.
  intros (Hok & Hp & Hev) Hb.
  destruct (broadcast_ok ev s Hok) as (s1 & Hb1 & Hok1 & Heq & Hsub & Hin & Hout).
  simplify_eq. simpl in *. split; [done|]. split.
  { rewrite Heq. eapply events_ok_sublist; [|exact Hp].
    apply sublist_delete_middle. }
  simpl. intros l c Hl.
  assert (∃ c0, heap (s_hub s) !! l = Some c0 ∧ (c = c0 ∨ c = pushed ev c0)) as (c0 & Hl0 & Hc).
  { destruct (decide (l ∈ hub_locs (s_hub s))) as [(id & Hid)%elem_of_hub_locs|Hn].
    - rewrite (Hin id l Hid) in Hl. apply fmap_Some in Hl as (c0 & ? & ->). eauto.
    - rewrite (Hout l Hn) in Hl. eauto. }
  destruct (Hev l c0 Hl0) as [He Hcap].
  assert (events_ok s' (ch_buf c0 ++ p1 ++ ev :: p2)) as He' by (rewrite Heq; exact He).
  assert (events_ok s' (ch_buf c0 ++ p1 ++ p2)) as He''.
  { eapply events_ok_sublist; [|exact He'].
    rewrite !app_assoc. apply sublist_delete_middle. }
  destruct Hc as [->| ->]; [done|]. rewrite pushed_cap. split; [|done].
  unfold pushed. case_decide; [|done]. simpl.
  assert ((ch_buf c0 ++ [ev]) ++ p1 ++ p2 ≡ₚ ch_buf c0 ++ p1 ++ ev :: p2) as -> by solve_Permutation.
  done.
Qed.

Lemma sys_ok_subscribe s p : sys_ok (mkSys s p) -> sys_ok (mkSys (Subscribe s).1.1 p).
Proof.
  intros (Hok & Hp & Hev). split; [by apply Subscribe_ok|]. split; [exact Hp|].
  simpl in *. intros l c [Hl|[_ Hc]]%lookup_app_Some; [by apply Hev in Hl|].
  apply list_lookup_singleton_Some in Hc as [_ <-]. by split.
Qed.

Lemma sys_ok_unsubscribe id s s' p :
  sys_ok (mkSys s p) -> Unsubscribe id s = Some s' -> sys_ok (mkSys s' p).
Proof.
  intros (Hok & Hp & Hev) Hu. simpl in *.
  destruct (Unsubscribe_ok id s Hok) as (s1 & Hu1 & Hok1 & Heq). simplify_eq.
  split; [done|]. split; [by rewrite Heq|]. simpl. intros l c Hl.
  assert (∃ c0, heap (s_hub s) !! l = Some c0 ∧ ch_buf c = ch_buf c0 ∧ ch_cap c = ch_cap c0)
    as (c0 & Hl0 & Hb & Hc).
  { unfold Unsubscribe, hub_unsubscribe in Hu.
    destruct (subs (s_hub s) !! id) as [l0|] eqn:Hid; simpl in Hu; simplify_eq/=; [|eauto].
    destruct (close_at_open (heap (s_hub s)) l0) as (c0 & Hl0 & Hcl).
    { by eapply ho_open. }
    rewrite Hcl in Hu. simplify_eq/=. destruct (decide (l = l0)) as [->|Hne].
    - rewrite list_lookup_insert_eq in Hl by (by eapply lookup_lt_Some). simplify_eq/=. eauto.
    - rewrite list_lookup_insert_ne in Hl by done. eauto. }
  rewrite Hb, Hc, Heq. by apply (Hev l).
Qed.

Lemma session_recv_Some l s v s' :
  session_recv l s = Some (v, s') ->
  ∃ c buf, heap (s_hub s) !! l = Some c ∧ ch_buf c = v :: buf ∧
    s' = set_hub (mkHub (subs (s_hub s)) (nextID (s_hub s))
           (<[l := mkChan (ch_cap c) buf (ch_closed c)]> (heap (s_hub s)))) s.
Proof.
  unfold session_recv, recv. destruct (heap (s_hub s) !! l) as [c|]; [|done]. simpl.
  destruct (ch_buf c) as [|v' buf] eqn:Hb; [by destruct (ch_closed c)|].
  intros [= <- <-]. eauto.
Qed.

Lemma sys_ok_recv l v s s' p :
  sys_ok (mkSys s p) -> session_recv l s = Some (v, s') -> sys_ok (mkSys s' p).
Proof.
  intros (Hok & Hp & Hev) (c & buf & Hl & Hb & ->)%session_recv_Some. simpl in *.
  destruct Hok as [Ho Hi Hf Hc]. split; [|split; [exact Hp|]].
  - split; simpl; [|done|done|].
    + intros id l' Hid. destruct (Ho id l' Hid) as (c' & Hl' & Hcl).
      destruct (decide (l = l')) as [->|Hne].
      * simplify_eq. eexists. rewrite list_lookup_insert_eq by (by eapply lookup_lt_Some). done.
      * exists c'. by rewrite list_lookup_insert_ne.
    + apply Forall_insert; [done|]. eapply Forall_lookup in Hl; [|exact Hc].
      unfold chan_ok in *. rewrite Hb in Hl. simpl in *. lia.
  - simpl. intros l' c' Hl'. destruct (decide (l = l')) as [->|Hne].
    + rewrite list_lookup_insert_eq in Hl' by (by eapply lookup_lt_Some). simplify_eq/=.
      destruct (Hev _ _ Hl) as [He ?]. split; [|done]. rewrite Hb in He.
      eapply events_ok_sublist; [|exact He]. apply (sublist_delete_middle []).
    + rewrite list_lookup_insert_ne in Hl' by done. by apply Hev in Hl'.
Qed.

Lemma sys_step_ok y y' : sys_step y y' -> sys_ok y -> sys_ok y'.
Proof.
  intros [] Hok.
  - apply transition_commit_Ok in H0 as (_ & Hn & -> & ->). apply sys_ok_commit; [done|lia].
  - apply End_commit_Some in H as (Hne & -> & ->). apply sys_ok_commit; [done|].
    destruct (s_state s); simpl; try lia. done.
  - by eapply sys_ok_broadcast.
  - by apply sys_ok_subscribe.
  - by eapply sys_ok_unsubscribe.
  - by eapply sys_ok_recv.
Qed.

Lemma sys_init_ok id remote dir now : sys_ok (sys_init id remote dir now).
Proof.
  split; [apply NewSession_ok|]. split; [split; constructor|].
  simpl. intros l c Hl. by rewrite lookup_nil in Hl.
Qed.

Lemma sys_reachable_ok id remote dir now y :
  rtc sys_step (sys_init id remote dir now) y -> sys_ok y.
Proof.
  intros Hr. cut (sys_ok (sys_init id remote dir now)); [|apply sys_init_ok].
  induction Hr as [|y1 y2 y3 Hs _ IH]; [done|]. intros Hok. by apply IH, (sys_step_ok y1).
Qed.

Lemma sys_step_state y y' :
  sys_step y y' ->
  state_num (s_state (sys_sess y)) <= state_num (s_state (sys_sess y')) ∧
  (s_state (sys_sess y) = StateEnded ->
     s_state (sys_sess y') = StateEnded ∧ s_reason (sys_sess y') = s_reason (sys_sess y)) ∧
  s_id (sys_sess y') = s_id (sys_sess y) ∧ s_remote (sys_sess y') = s_remote (sys_sess y) ∧
  s_direction (sys_sess y') = s_direction (sys_sess y).
Proof.
  intros [target now s s' ev p _ Ht|reason now s s' ev p He|s s' ev p1 p2 Hb|s p|id s s' p Hu
         |l v s s' p Hr]; simpl.
  - apply transition_commit_Ok in Ht as (Hne & Hn & -> & ->). simpl. split_and!; try done. lia.
  - apply End_commit_Some in He as (Hne & -> & ->). simpl. split_and!; try done.
    destruct (s_state s); simpl; lia.
  - unfold broadcast in Hb. apply bind_Some in Hb as (h & _ & [= <-]). done.
  - done.
  - unfold Unsubscribe in Hu. apply bind_Some in Hu as (h & _ & [= <-]). done.
  - apply session_recv_Some in Hr as (c & buf & _ & _ & ->). done.
Qed.

(** ** Properties *)

(** In every interleaving of transitions, [End]s, subscriptions,
    unsubscriptions and receives on one session, broadcasting an event that is
    still pending never panics (no send on a closed channel), and every
    subscriber has room for it: the drop branch of [broadcast] is never taken,
    because a session emits at most one event per state. *)
Theorem session_broadcast_never_drops id remote dir now y ev :
  rtc sys_step (sys_init id remote dir now) y -> ev ∈ sys_pending y ->
  ∃ s', broadcast ev (sys_sess y) = Some s' ∧
    ∀ i l, subs (s_hub (sys_sess y)) !! i = Some l ->
      ∃ c, heap (s_hub (sys_sess y)) !! l = Some c ∧ length (ch_buf c) < 4 ∧
           heap (s_hub s') !! l = Some (mkChan 16 (ch_buf c ++ [ev]) false).
Proof.
  intros (Hok & Hp & Hev)%sys_reachable_ok Hin. destruct y as [s p]. simpl in *.
  destruct (broadcast_ok ev s Hok) as (s' & Hb & _ & _ & _ & Hdel & _).
  exists s'. split; [done|]. intros i l Hi.
  destruct (ho_open _ Hok i l Hi) as (c & Hl & Hcl). destruct (Hev l c Hl) as [He Hcap].
  exists c. split; [done|]. apply events_ok_length in He. rewrite length_app in He.
  assert (length p > 0) by (destruct p; [by apply elem_of_nil in Hin|simpl; lia]).
  split; [lia|]. rewrite (Hdel i l Hi), Hl. simpl. unfold pushed.
  rewrite decide_True by lia. by rewrite Hcap, Hcl.
Qed.

(** Along any interleaving the session's state only moves forward in the
    order idle, ringing, connecting, connected, ended; [StateEnded] is absorbing
    and keeps the first reason; id, peer and direction never change. *)
Theorem session_state_monotone y y' :
  rtc sys_step y y' ->
  state_num (s_state (sys_sess y)) <= state_num (s_state (sys_sess y')) ∧
  (s_state (sys_sess y) = StateEnded ->
     s_state (sys_sess y') = StateEnded ∧ s_reason (sys_sess y') = s_reason (sys_sess y)) ∧
  s_id (sys_sess y') = s_id (sys_sess y) ∧ s_remote (sys_sess y') = s_remote (sys_sess y) ∧
  s_direction (sys_sess y') = s_direction (sys_sess y).
Proof.
  induction 1 as [y|y1 y2 y3 Hs Hr IH]; [done|].
  destruct (sys_step_state _ _ Hs) as (? & Hend & ? & ? & ?).
  destruct IH as (? & Hend' & ? & ? & ?). split_and!; try congruence; [lia|].
  intros He. destruct (Hend He) as [He' Hr']. destruct (Hend' He'). split; congruence.
Qed.

(** A transition method never panics; it succeeds exactly when the target
    is the successor of the current state, then delivering the event, and
    otherwise reports the error and leaves the session unchanged. *)
Theorem transition_correct target reason now s :
  session_ok s ->
  ∃ s' r, transition target reason now s = Some (s', r) ∧ session_ok s' ∧
    (r = Ok tt <-> s_state s ≠ StateEnded ∧ state_num target = S (state_num (s_state s))) ∧
    (r = Ok tt -> s_state s' = target ∧ s_reason s' = s_reason s) ∧
    (s_state s = StateEnded -> r = Err (EAlreadyEnded (s_id s))) ∧
    (r ≠ Ok tt -> s' = s).
Proof.
  intros Hok. destruct (transition_total target reason now s Hok) as (s' & r & Ht & Hok' & Hm).
  exists s', r. split; [done|]. split; [done|].
  unfold transition_commit in Hm. repeat case_decide; destruct_and!; subst; naive_solver lia.
Qed.

(** [End] is idempotent: from any session it reaches [StateEnded] without
    panicking, and every later [End] is a no-op that keeps the first reason and
    broadcasts nothing. *)
Theorem End_idempotent reason now s :
  session_ok s ->
  ∃ s', End reason now s = Some s' ∧ s_state s' = StateEnded ∧
    (s_state s ≠ StateEnded -> s_reason s' = reason) ∧
    (∀ reason' now', End reason' now' s' = Some s') ∧
    (∀ target reason' now', transition target reason' now' s' = Some (s', Err (EAlreadyEnded (s_id s)))).
Proof.
  intros Hok. destruct (End_total reason now s Hok) as (s' & He & _ & Hst & Hid & _).
  exists s'. split; [done|]. split; [done|]. split; [|split].
  - intros Hne. unfold End in He. destruct (End_commit reason now s) as [[s1 ev]|] eqn:Hc.
    + apply End_commit_Some in Hc as (_ & -> & ->). unfold broadcast in He.
      by apply bind_Some in He as (h & _ & [= <-]).
    + unfold End_commit in Hc. by rewrite decide_False in Hc.
  - intros. unfold End, End_commit. by rewrite decide_True.
  - intros. unfold transition, transition_commit. rewrite decide_True by done. by rewrite Hid.
Qed.

(** ** Witnesses *)

Definition demo_session : Session := NewSession "c-1" "peerB" Outbound 0.

(** A session with one subscriber, an event committed but not yet broadcast. *)
Definition demo_pending : Sys :=
  mkSys (set_state StateRinging "" (Subscribe demo_session).1.1)
    [state_change demo_session StateRinging 1 ""].

Lemma demo_pending_reachable : rtc sys_step (sys_init "c-1" "peerB" Outbound 0) demo_pending.
Proof.
  eapply rtc_l; [apply step_subscribe|]. eapply rtc_l; [|apply rtc_refl].
  eapply (step_transition StateRinging 1); [apply list_elem_of_here|]. reflexivity.
Qed.

Lemma session_broadcast_never_drops_witness :
  ∃ s', broadcast (state_change demo_session StateRinging 1 "") (sys_sess demo_pending) = Some s' ∧
    ∀ i l, subs (s_hub (sys_sess demo_pending)) !! i = Some l ->
      ∃ c, heap (s_hub (sys_sess demo_pending)) !! l = Some c ∧ length (ch_buf c) < 4 ∧
           heap (s_hub s') !! l =
             Some (mkChan 16 (ch_buf c ++ [state_change demo_session StateRinging 1 ""]) false).
Proof.
  apply (session_broadcast_never_drops "c-1" "peerB" Outbound 0 demo_pending).
  - apply demo_pending_reachable.
  - apply list_elem_of_here.
Defined.

Lemma session_state_monotone_witness :
  state_num StateIdle <= state_num (s_state (sys_sess demo_pending)).
Proof. apply (session_state_monotone _ _ demo_pending_reachable). Defined.

Lemma transition_correct_witness :
  ∃ s' r, transition StateConnected "" 1 demo_session = Some (s', r) ∧ session_ok s' ∧
    (r = Ok tt <-> StateIdle ≠ StateEnded ∧ 3 = 1) ∧
    (r = Ok tt -> s_state s' = StateConnected ∧ s_reason s' = "") ∧
    (StateIdle = StateEnded -> r = Err (EAlreadyEnded "c-1")) ∧
    (r ≠ Ok tt -> s' = demo_session).
Proof. apply (transition_correct StateConnected "" 1 demo_session). apply NewSession_ok. Defined.

Lemma End_idempotent_witness :
  ∃ s', End "bye" 1 demo_session = Some s' ∧ s_state s' = StateEnded ∧
    (StateIdle ≠ StateEnded -> s_reason s' = "bye") ∧
    (∀ reason' now', End reason' now' s' = Some s') ∧
    (∀ target reason' now',
       transition target reason' now' s' = Some (s', Err (EAlreadyEnded "c-1"))).
Proof. apply (End_idempotent "bye" 1 demo_session). apply NewSession_ok. Defined.
