(* ===== verification/Jitter.v ===== *)
(** * The jitter buffer ([internal/audio/jitter.go])

    [JitterBuffer] with its [Push] and [Pop]. Sequence numbers are uint16 and
    compared through the signed 16-bit distance [seqDelta]. The eviction loop of
    [Push] runs on fuel ([enforce_cap], [None] when it has not finished):
    [push_fuel] is enough whenever the cap is not negative, and no fuel is
    enough when it is. [ABuf] is the abstract buffer the code implements: frames
    at absolute positions of an unbounded stream. *)
From S2P Require Import Prelude.
#[local] Open Scope Z_scope.

Definition FrameMs : Z := 20.

(** ** Data *)

Record JitterStats := mkJitterStats {
  Pushed : Z;
  Popped : Z;
  DroppedLate : Z;
  DroppedFull : Z;
  GapsFilled : Z }.

Record JitterBuffer := mkJB {
  targetFrames : Z;
  maxFrames : Z;
  frames : gmap Z bytes;
  nextOut : Z;
  hasNext : bool;
  primed : bool;
  stats : JitterStats }.

(** ** Operations *)

Definition inc64 (x : Z) : Z := wrap 64 (x + 1).
Definition inc16 (x : Z) : Z := wrap 16 (x + 1).

Definition count_pushed (st : JitterStats) :=
  mkJitterStats (inc64 (Pushed st)) (Popped st) (DroppedLate st) (DroppedFull st) (GapsFilled st).
Definition count_popped (st : JitterStats) :=
  mkJitterStats (Pushed st) (inc64 (Popped st)) (DroppedLate st) (DroppedFull st) (GapsFilled st).
Definition count_late (st : JitterStats) :=
  mkJitterStats (Pushed st) (Popped st) (inc64 (DroppedLate st)) (DroppedFull st) (GapsFilled st).
Definition count_full (st : JitterStats) :=
  mkJitterStats (Pushed st) (Popped st) (DroppedLate st) (inc64 (DroppedFull st)) (GapsFilled st).
Definition count_gap (st : JitterStats) :=
  mkJitterStats (Pushed st) (Popped st) (DroppedLate st) (DroppedFull st) (inc64 (GapsFilled st)).

(** Go's integer division truncates: [Z.quot]. *)
Definition NewJitterBuffer (targetMs maxMs : Z) : JitterBuffer :=
  mkJB (Z.quot targetMs FrameMs) (Z.quot maxMs FrameMs) ∅ 0 false false
    (mkJitterStats 0 0 0 0 0).

(** [int(int16(b - a))] on uint16 operands. *)
Definition seqDelta (a b : Z) : Z := swrap 16 (wrap 16 (b - a)).

(** The inner loop of the eviction: the frame nearest after [nextOut]. *)
Definition scan_step (next : Z) (best : Z * Z) (s : Z) : Z * Z :=
  let d := seqDelta next s in
  if (0 <=? d) && (d <? best.2) then (s, d) else best.

Definition scan_oldest (next : Z) (keys : list Z) : Z * Z :=
  foldl (scan_step next) (next, 0x7fff) keys.

(** One iteration of the eviction loop. *)
Definition evict (jb : JitterBuffer) : JitterBuffer :=
  let oldest := (scan_oldest (nextOut jb) (map_to_list (frames jb)).*1).1 in
  mkJB (targetFrames jb) (maxFrames jb) (delete oldest (frames jb))
    (if decide (oldest = nextOut jb) then inc16 (nextOut jb) else nextOut jb)
    (hasNext jb) (primed jb) (count_full (stats jb)).

Fixpoint enforce_cap (fuel : nat) (jb : JitterBuffer) : option JitterBuffer :=
  if decide (Z.of_nat (size (frames jb)) > maxFrames jb) then
    match fuel with
    | O => None
    | S fuel => enforce_cap fuel (evict jb)
    end
  else Some jb.

Definition push_fuel : nat := 2.

(** [Push]: [None] when the eviction loop is still running after [push_fuel]
    iterations, else whether the frame was accepted. *)
Definition Push_fuel (fuel : nat) (seq : Z) (pkt : bytes) (jb : JitterBuffer)
    : option (JitterBuffer * bool) :=
  let st := count_pushed (stats jb) in
  let insert_frame next :=
    jb' ← enforce_cap fuel
            (mkJB (targetFrames jb) (maxFrames jb) (<[seq := pkt]> (frames jb)) next true
               (primed jb) st);
    Some (jb', true) in
  if hasNext jb then
    if seqDelta (nextOut jb) seq <? 0 then
      Some (mkJB (targetFrames jb) (maxFrames jb) (frames jb) (nextOut jb) (hasNext jb)
              (primed jb) (count_late st), false)
    else insert_frame (nextOut jb)
  else insert_frame seq.

Definition Push := Push_fuel push_fuel.

(** [Pop]: [None] is Go's nil (pre-roll or a gap). *)
Definition Pop (jb : JitterBuffer) : JitterBuffer * option bytes :=
  if negb (hasNext jb) then (jb, None)
  else if negb (primed jb) && (Z.of_nat (size (frames jb)) <? targetFrames jb) then (jb, None)
  else
    match frames jb !! nextOut jb with
    | Some pkt =>
        (mkJB (targetFrames jb) (maxFrames jb) (delete (nextOut jb) (frames jb))
           (inc16 (nextOut jb)) true true (count_popped (stats jb)), Some pkt)
    | None =>
        (mkJB (targetFrames jb) (maxFrames jb) (frames jb) (inc16 (nextOut jb)) true true
           (count_gap (stats jb)), None)
    end.

(** ** The abstract buffer

    Frames at absolute positions; [a_next] is the position of the next frame to
    play. A sequence number denotes the position at signed distance
    [seqDelta] from [a_next]. *)
Record ABuf := mkABuf {
  a_frames : gmap Z bytes;
  a_next : Z;
  a_started : bool;
  a_primed : bool }.

Inductive jop :=
| JPush (seq : Z) (pkt : bytes)
| JPop.

Inductive jout :=
| OutPush (accepted : bool)
| OutPop (frame : option bytes).

Definition a_init : ABuf := mkABuf ∅ 0 false false.

(** The least position, if any. *)
Definition min_key (m : gmap Z bytes) : option Z :=
  match (map_to_list m).*1 with
  | [] => None
  | k :: ks => Some (foldr Z.min k ks)
  end.

Definition a_evict (a : ABuf) : ABuf :=
  match min_key (a_frames a) with
  | None => a
  | Some k => mkABuf (delete k (a_frames a))
                (if decide (k = a_next a) then a_next a + 1 else a_next a)
                (a_started a) (a_primed a)
  end.

Definition a_pos (a : ABuf) (seq : Z) : Z :=
  if a_started a then a_next a + seqDelta (wrap 16 (a_next a)) seq else seq.

Definition a_push (maxf : Z) (seq : Z) (pkt : bytes) (a : ABuf) : ABuf * bool :=
  let p := a_pos a seq in
  if a_started a && (p <? a_next a) then (a, false)
  else
    let a1 := mkABuf (<[p := pkt]> (a_frames a)) (if a_started a then a_next a else seq)
                true (a_primed a) in
    (if decide (Z.of_nat (size (a_frames a1)) > maxf) then a_evict a1 else a1, true).

Definition a_pop (target : Z) (a : ABuf) : ABuf * option bytes :=
  if negb (a_started a) then (a, None)
  else if negb (a_primed a) && (Z.of_nat (size (a_frames a)) <? target) then (a, None)
  else (mkABuf (delete (a_next a) (a_frames a)) (a_next a + 1) true true,
        a_frames a !! a_next a).

Definition a_step (target maxf : Z) (o : jop) (a : ABuf) : ABuf * jout :=
  match o with
  | JPush seq pkt => let '(a', b) := a_push maxf seq pkt a in (a', OutPush b)
  | JPop => let '(a', f) := a_pop target a in (a', OutPop f)
  end.

Fixpoint a_run (target maxf : Z) (os : list jop) (a : ABuf) : ABuf * list jout :=
  match os with
  | [] => (a, [])
  | o :: os => let '(a', x) := a_step target maxf o a in
               let '(a'', xs) := a_run target maxf os a' in (a'', x :: xs)
  end.

Definition j_step (o : jop) (jb : JitterBuffer) : option (JitterBuffer * jout) :=
  match o with
  | JPush seq pkt => '(jb', b) ← Push seq pkt jb; Some (jb', OutPush b)
  | JPop => let '(jb', f) := Pop jb in Some (jb', OutPop f)
  end.

Fixpoint j_run (os : list jop) (jb : JitterBuffer) : option (JitterBuffer * list jout) :=
  match os with
  | [] => Some (jb, [])
  | o :: os => '(jb', x) ← j_step o jb; '(jb'', xs) ← j_run os jb'; Some (jb'', x :: xs)
  end.

Definition uint16 (x : Z) : Prop := 0 <= x < 65536.

Definition jop_ok (o : jop) : Prop :=
  match o with JPush seq _ => uint16 seq | JPop => True end.

(** ** Sequence arithmetic *)

Lemma seqDelta_spec a b :
  uint16 a -> uint16 b ->
  -32768 <= seqDelta a b < 32768 ∧ wrap 16 (a + seqDelta a b) = b.
Proof.
  unfold uint16, seqDelta, swrap, wrap. intros Ha Hb. cbn [Z.sub Z.pow Z.pow_pos Pos.iter Z.mul Pos.mul].
  change (2 ^ 16) with 65536. change (2 ^ (16 - 1)) with 32768.
  Z.div_mod_to_equations. lia.
Qed.

Lemma seqDelta_unique a p :
  uint16 a -> -32768 <= p < 32768 -> seqDelta a (wrap 16 (a + p)) = p.
Proof.
  unfold uint16, seqDelta, swrap, wrap. intros Ha Hp.
  change (2 ^ 16) with 65536. change (2 ^ (16 - 1)) with 32768.
  Z.div_mod_to_equations. lia.
Qed.

Lemma wrap16_range x : uint16 (wrap 16 x).
Proof. unfold uint16. apply (wrap_range 16). lia. Qed.

Lemma wrap16_id x : uint16 x -> wrap 16 x = x.
Proof. intros. by apply wrap_small. Qed.

Lemma wrap16_add a p : wrap 16 (wrap 16 a + p) = wrap 16 (a + p).
Proof. unfold wrap. by rewrite Zplus_mod_idemp_l. Qed.

Lemma inc16_wrap a : inc16 (wrap 16 a) = wrap 16 (a + 1).
Proof. unfold inc16. apply wrap16_add. Qed.

(** Within the window of 2^15 positions from [a], positions are determined by
    their low 16 bits. *)
Lemma wrap16_inj a p q :
  a <= p < a + 32768 -> a <= q < a + 32768 -> wrap 16 p = wrap 16 q -> p = q.
Proof.
  unfold wrap. change (2 ^ 16) with 65536. intros Hp Hq Heq.
  Z.div_mod_to_equations. lia.
Qed.

Lemma seqDelta_window a p :
  a <= p < a + 32768 -> seqDelta (wrap 16 a) (wrap 16 p) = p - a.
Proof.
  intros Hp. replace p with (a + (p - a)) at 1 by lia.
  rewrite <- wrap16_add. apply seqDelta_unique; [apply wrap16_range|lia].
Qed.

(** ** The eviction scan *)

Lemma scan_step_cases next best s :
  (scan_step next best s = (s, seqDelta next s) ∧ 0 <= seqDelta next s < best.2) ∨
  (scan_step next best s = best ∧ (0 <= seqDelta next s -> best.2 <= seqDelta next s)).
Proof.
  unfold scan_step. destruct (Z.leb_spec 0 (seqDelta next s)), (Z.ltb_spec (seqDelta next s) best.2);
    simpl; (left; split; [done|lia]) || (right; split; [done|lia]).
Qed.

Lemma scan_oldest_spec_gen next keys best :
  0 <= best.2 ->
  let r := foldl (scan_step next) best keys in
  (r = best ∧ (∀ s, s ∈ keys -> 0 <= seqDelta next s -> best.2 <= seqDelta next s)) ∨
  (r.1 ∈ keys ∧ seqDelta next r.1 = r.2 ∧ 0 <= r.2 < best.2 ∧
   ∀ s, s ∈ keys -> 0 <= seqDelta next s -> r.2 <= seqDelta next s).
Proof.
  revert best. induction keys as [|k keys IH]; intros best Hd0; cbn [foldl].
  { left. split; [done|]. intros s Hs. by apply elem_of_nil in Hs. }
  destruct (scan_step_cases next best k) as [[-> Hk]|[-> Hk]].
  - right. destruct (IH (k, seqDelta next k)) as [[-> Hmin]|(Hin & Heq & Hlt & Hmin)];
      simpl in *; [lia|..].
    + split; [by left|]. split; [done|]. split; [lia|].
      intros s [->|Hs]%elem_of_cons ?; [lia|]. by apply Hmin.
    + split; [by right|]. split; [done|]. split; [lia|].
      intros s [->|Hs]%elem_of_cons ?; [lia|]. by apply Hmin.
  - destruct (IH best Hd0) as [[-> Hmin]|(Hin & Heq & Hlt & Hmin)]; [left|right].
    + split; [done|]. intros s [->|Hs]%elem_of_cons ?; [by apply Hk|]. by apply Hmin.
    + split; [by right|]. split; [done|]. split; [done|].
      intros s [->|Hs]%elem_of_cons ?; [specialize (Hk ltac:(done)); lia|]. by apply Hmin.
Qed.

Lemma scan_oldest_spec next keys :
  scan_oldest next keys = (next, 0x7fff) ∧
    (∀ s, s ∈ keys -> 0 <= seqDelta next s -> 0x7fff <= seqDelta next s) ∨
  (scan_oldest next keys).1 ∈ keys ∧
    0 <= seqDelta next (scan_oldest next keys).1 < 0x7fff ∧
    ∀ s, s ∈ keys -> 0 <= seqDelta next s ->
      seqDelta next (scan_oldest next keys).1 <= seqDelta next s.
Proof.
  destruct (scan_oldest_spec_gen next keys (next, 0x7fff)) as [H|(Hin & Heq & Hlt & Hmin)];
    [done|by left|right]. fold (scan_oldest next keys) in *.
  rewrite Heq. by split.
Qed.

Lemma min_key_Some m k :
  min_key m = Some k -> is_Some (m !! k) ∧ ∀ k', is_Some (m !! k') -> k <= k'.
Proof.
  unfold min_key. destruct ((map_to_list m).*1) as [|k0 ks] eqn:Hl; [done|].
  intros [= <-]. setoid_rewrite <- (fst_map_to_list_dom m). rewrite Hl. clear Hl.
  induction ks as [|k1 ks IH]; simpl.
  - split; [by left|]. intros k' [->|Hk]%elem_of_cons; [lia|]. by apply elem_of_nil in Hk.
  - destruct IH as [IHin IHmin]. split.
    + destruct (Z.min_spec k1 (foldr Z.min k0 ks)) as [[_ ->]|[_ ->]]; [set_solver|].
      apply elem_of_cons in IHin as [->|?]; set_solver.
    + intros k' Hk'. assert (k' = k1 ∨ k' ∈ k0 :: ks) as [->|Hk] by set_solver; [lia|].
      specialize (IHmin k' Hk). lia.
Qed.

Lemma min_key_None m : min_key m = None -> m = ∅.
Proof.
  unfold min_key. destruct ((map_to_list m).*1) as [|k0 ks] eqn:Hl; [|done].
  intros _. apply fmap_nil_inv in Hl. by apply map_to_list_empty_iff.
Qed.

(** ** The refinement relation *)

Definition in_window (a p : Z) : Prop := a <= p < a + 32768.

#[export] Instance in_window_dec a p : Decision (in_window a p).
Proof. unfold in_window. apply _. Defined.

Record sim (jb : JitterBuffer) (a : ABuf) : Prop := {
  sim_started : hasNext jb = a_started a;
  sim_primed : primed jb = a_primed a;
  sim_idle : a_started a = false -> frames jb = ∅ ∧ a_frames a = ∅;
  sim_next : a_started a = true -> nextOut jb = wrap 16 (a_next a);
  sim_window : ∀ p, is_Some (a_frames a !! p) -> in_window (a_next a) p;
  sim_lookup : ∀ p, in_window (a_next a) p -> frames jb !! wrap 16 p = a_frames a !! p;
  sim_dom : ∀ s, is_Some (frames jb !! s) -> ∃ p, in_window (a_next a) p ∧ s = wrap 16 p;
  sim_size : size (frames jb) = size (a_frames a) }.

Lemma size_insert_eq {A} (m1 m2 : gmap Z A) i j x y :
  size m1 = size m2 -> (is_Some (m1 !! i) <-> is_Some (m2 !! j)) ->
  size (<[i := x]> m1) = size (<[j := y]> m2).
Proof.
  intros Hs Hiff. rewrite !map_size_insert.
  destruct (m1 !! i) eqn:H1, (m2 !! j) eqn:H2; simpl; try lia.
  - by destruct (proj1 Hiff ltac:(eauto)).
  - by destruct (proj2 Hiff ltac:(eauto)).
Qed.

Lemma size_delete_eq {A} (m1 m2 : gmap Z A) i j :
  size m1 = size m2 -> (is_Some (m1 !! i) <-> is_Some (m2 !! j)) ->
  size (delete i m1) = size (delete j m2).
Proof.
  intros Hs Hiff. rewrite !map_size_delete.
  destruct (m1 !! i) eqn:H1, (m2 !! j) eqn:H2; simpl; try lia.
  - by destruct (proj1 Hiff ltac:(eauto)).
  - by destruct (proj2 Hiff ltac:(eauto)).
Qed.

(** Inserting corresponding frames keeps the maps related. *)
Definition maps_sim (base : Z) (m ma : gmap Z bytes) : Prop :=
  (∀ p, is_Some (ma !! p) -> in_window base p) ∧
  (∀ p, in_window base p -> m !! wrap 16 p = ma !! p) ∧
  (∀ s, is_Some (m !! s) -> ∃ p, in_window base p ∧ s = wrap 16 p) ∧
  size m = size ma.

Lemma maps_sim_insert base m ma p pkt :
  maps_sim base m ma -> in_window base p ->
  maps_sim base (<[wrap 16 p := pkt]> m) (<[p := pkt]> ma).
Proof.
  intros (Hw & Hl & Hd & Hs) Hp. split; [|split; [|split]].
  - intros q. rewrite lookup_insert_is_Some. intros [<-|[_ ?]]; auto.
  - intros q Hq. destruct (decide (p = q)) as [->|Hne].
    + by rewrite !lookup_insert_eq.
    + rewrite !lookup_insert_ne; [by apply Hl|done|].
      intros Heq. by apply Hne, (wrap16_inj base).
  - intros s. rewrite lookup_insert_is_Some. intros [<-|[_ ?]]; [by exists p|auto].
  - apply size_insert_eq; [done|]. by rewrite (Hl p Hp).
Qed.

Lemma maps_sim_delete base m ma p :
  maps_sim base m ma -> in_window base p ->
  maps_sim base (delete (wrap 16 p) m) (delete p ma).
Proof.
  intros (Hw & Hl & Hd & Hs) Hp. split; [|split; [|split]].
  - intros q. rewrite lookup_delete_is_Some. intros [_ ?]; auto.
  - intros q Hq. destruct (decide (p = q)) as [->|Hne].
    + by rewrite !lookup_delete_eq.
    + rewrite !lookup_delete_ne; [by apply Hl|done|].
      intros Heq. by apply Hne, (wrap16_inj base).
  - intros s. rewrite lookup_delete_is_Some. intros [_ ?]; auto.
  - apply size_delete_eq; [done|]. by rewrite (Hl p Hp).
Qed.

(** The window may move past a position that holds no frame. *)
Lemma maps_sim_advance base m ma :
  maps_sim base m ma -> ma !! base = None -> maps_sim (base + 1) m ma.
Proof.
  intros (Hw & Hl & Hd & Hs) Hn.
  assert (∀ p, is_Some (ma !! p) -> p ≠ base) as Hne.
  { intros p [x Hx] ->. congruence. }
  assert (m !! wrap 16 base = None) as Hmn.
  { rewrite Hl; [done|]. unfold in_window; lia. }
  split; [|split; [|split]].
  - intros p Hp. specialize (Hw p Hp). specialize (Hne p Hp). unfold in_window in *. lia.
  - intros p Hp. destruct (decide (in_window base p)) as [Hq|Hq]; [auto|].
    assert (p = base + 32768) as -> by (unfold in_window in *; lia).
    destruct (ma !! (base + 32768)) eqn:Hma.
    { specialize (Hw _ ltac:(eauto)). unfold in_window in *. lia. }
    destruct (m !! wrap 16 (base + 32768)) eqn:Hm; [|done].
    destruct (Hd _ ltac:(eauto)) as (q & Hq' & Heq). exfalso.
    unfold wrap, in_window in *. change (2 ^ 16) with 65536 in *.
    Z.div_mod_to_equations. lia.
  - intros s Hsm. destruct (Hd s Hsm) as (p & Hp & ->). exists p. split; [|done].
    assert (p ≠ base) by (intros ->; rewrite Hmn in Hsm; by destruct Hsm).
    unfold in_window in *. lia.
  - done.
Qed.

Lemma sim_maps jb a : sim jb a -> maps_sim (a_next a) (frames jb) (a_frames a).
Proof. intros []. by split_and!. Qed.



Lemma maps_sim_sim jb a :
  maps_sim (a_next a) (frames jb) (a_frames a) ->
  hasNext jb = true -> a_started a = true -> primed jb = a_primed a ->
  nextOut jb = wrap 16 (a_next a) -> sim jb a.
Proof.
  intros (Hw & Hl & Hd & Hs) Hn Ha Hp Hnx. split; try done.
  - by rewrite Hn.
  - by rewrite Ha.
Qed.

Lemma frame_key jb a k :
  sim jb a -> is_Some (a_frames a !! k) -> wrap 16 k ∈ (map_to_list (frames jb)).*1.
Proof.
  intros Hs Hk. apply fst_map_to_list_dom. by rewrite (sim_lookup _ _ Hs); [|apply (sim_window _ _ Hs)].
Qed.

(** With two frames or more the scan finds the frame of least position. *)
Lemma scan_finds_min jb a :
  sim jb a -> a_started a = true -> (2 <= size (a_frames a))%nat ->
  ∃ k, min_key (a_frames a) = Some k ∧
       (scan_oldest (nextOut jb) (map_to_list (frames jb)).*1).1 = wrap 16 k ∧
       in_window (a_next a) k.
Proof.
  intros Hs Hst Hsz.
  destruct (min_key (a_frames a)) as [k|] eqn:Hk; last first.
  { apply min_key_None in Hk. rewrite Hk, map_size_empty in Hsz. lia. }
  exists k. split; [done|]. apply min_key_Some in Hk as [Hk Hmin].
  assert (Hwk := sim_window _ _ Hs k Hk). split; [|done].
  assert (∃ k', k < k' ∧ is_Some (a_frames a !! k')) as (k' & Hlt & Hk').
  { destruct (map_choose (delete k (a_frames a))) as (k' & x & Hk').
    - rewrite <- map_size_empty_iff, map_size_delete. destruct Hk as [? ->]. simpl. lia.
    - apply lookup_delete_Some in Hk' as [Hne Hk']. exists k'.
      specialize (Hmin k' ltac:(eauto)). split; [lia|eauto]. }
  assert (Hwk' := sim_window _ _ Hs k' Hk'). unfold in_window in Hwk, Hwk'.
  assert (∀ p, in_window (a_next a) p -> seqDelta (nextOut jb) (wrap 16 p) = p - a_next a) as Hdelta.
  { intros p Hp. rewrite (sim_next _ _ Hs Hst). by apply seqDelta_window. }
  destruct (scan_oldest_spec (nextOut jb) (map_to_list (frames jb)).*1)
    as [[_ Hall]|(Hin & Hd & Hall)].
  - specialize (Hall _ (frame_key jb a k Hs Hk)). rewrite Hdelta in Hall by done. lia.
  - assert (Hsome := proj1 (fst_map_to_list_dom _ _) Hin).
    destruct (sim_dom _ _ Hs _ Hsome) as (p & Hp & Heq). rewrite Heq in Hsome |- *. f_equal.
    specialize (Hall _ (frame_key jb a k Hs Hk)).
    rewrite Heq, !Hdelta in Hall by done.
    assert (k <= p); [|lia]. apply Hmin. by rewrite <- (sim_lookup _ _ Hs p Hp).
Qed.

Lemma evict_sim jb a :
  sim jb a -> a_started a = true -> (2 <= size (a_frames a))%nat ->
  sim (evict jb) (a_evict a) ∧ maxFrames (evict jb) = maxFrames jb ∧
  targetFrames (evict jb) = targetFrames jb ∧
  size (frames (evict jb)) = pred (size (frames jb)).
Proof.
  intros Hs Hst Hsz. destruct (scan_finds_min jb a Hs Hst Hsz) as (k & Hk & Ho & Hw).
  assert (Hnx := sim_next _ _ Hs Hst).
  unfold evict, a_evict. rewrite Hk, Ho. simpl.
  apply min_key_Some in Hk as [Hk Hmin].
  assert (size (delete (wrap 16 k) (frames jb)) = pred (size (frames jb))) as Hsize.
  { rewrite map_size_delete. rewrite (sim_lookup _ _ Hs k Hw). by destruct Hk as [? ->]. }
  split; [|done].
  assert (Hms := maps_sim_delete _ _ _ k (sim_maps _ _ Hs) Hw).
  destruct (decide (k = a_next a)) as [->|Hne].
  - rewrite decide_True by done. apply maps_sim_sim; simpl; try done.
    + apply maps_sim_advance; [done|]. apply lookup_delete_eq.
    + by rewrite (sim_started _ _ Hs).
    + by rewrite (sim_primed _ _ Hs).
    + rewrite Hnx. apply inc16_wrap.
  - rewrite decide_False; last first.
    { intros Heq. apply Hne, (wrap16_inj (a_next a)); [done|unfold in_window in Hw; lia|].
      by rewrite Heq, Hnx. }
    apply maps_sim_sim; simpl; try done.
    + by rewrite (sim_started _ _ Hs).
    + by rewrite (sim_primed _ _ Hs).
Qed.

Lemma enforce_cap_S fuel jb :
  enforce_cap (S fuel) jb =
  if decide (Z.of_nat (size (frames jb)) > maxFrames jb) then enforce_cap fuel (evict jb) else Some jb.
Proof. done. Qed.

Lemma enforce_cap_done fuel jb :
  Z.of_nat (size (frames jb)) <= maxFrames jb -> enforce_cap fuel jb = Some jb.
Proof. intros. destruct fuel; simpl; by rewrite decide_False by lia. Qed.

#[local] Arguments enforce_cap : simpl never.

(** ** The refinement, one operation at a time *)

Lemma enforce_cap_sim jb a :
  sim jb a -> a_started a = true -> 1 <= maxFrames jb ->
  Z.of_nat (size (frames jb)) <= maxFrames jb + 1 ->
  ∃ jb', enforce_cap push_fuel jb = Some jb' ∧
    sim jb' (if decide (Z.of_nat (size (a_frames a)) > maxFrames jb) then a_evict a else a) ∧
    maxFrames jb' = maxFrames jb ∧ targetFrames jb' = targetFrames jb ∧
    Z.of_nat (size (frames jb')) <= maxFrames jb.
Proof.
  intros Hs Hst Hmax Hsz. unfold push_fuel. rewrite enforce_cap_S.
  rewrite <- (sim_size _ _ Hs). case_decide as Hc.
  - destruct (evict_sim jb a Hs Hst) as (He & Hm & Ht & Hsize).
    { rewrite <- (sim_size _ _ Hs). lia. }
    rewrite enforce_cap_done by (rewrite Hm, Hsize; lia).
    eexists. split; [done|]. split_and!; try done; rewrite Hsize; lia.
  - eexists. split; [done|]. split_and!; try done; lia.
Qed.

Lemma push_sim jb a seq pkt :
  sim jb a -> uint16 seq -> 1 <= maxFrames jb ->
  Z.of_nat (size (frames jb)) <= maxFrames jb ->
  ∃ jb', Push seq pkt jb = Some (jb', (a_push (maxFrames jb) seq pkt a).2) ∧
    sim jb' (a_push (maxFrames jb) seq pkt a).1 ∧
    maxFrames jb' = maxFrames jb ∧ targetFrames jb' = targetFrames jb ∧
    Z.of_nat (size (frames jb')) <= maxFrames jb.
Proof.
  intros Hs Hseq Hmax Hsz. unfold Push, Push_fuel, a_push, a_pos.
  assert (∀ p base, maps_sim base (frames jb) (a_frames a) -> in_window base p -> seq = wrap 16 p ->
    ∃ jb', enforce_cap push_fuel (mkJB (targetFrames jb) (maxFrames jb) (<[seq := pkt]> (frames jb))
              (wrap 16 base) true (primed jb) (count_pushed (stats jb))) = Some jb' ∧
      sim jb' (let a1 := mkABuf (<[p := pkt]> (a_frames a)) base true (a_primed a) in
               if decide (Z.of_nat (size (a_frames a1)) > maxFrames jb) then a_evict a1 else a1) ∧
      maxFrames jb' = maxFrames jb ∧ targetFrames jb' = targetFrames jb ∧
      Z.of_nat (size (frames jb')) <= maxFrames jb) as Hins.
  { intros p base Hms Hp ->.
    match goal with |- context [enforce_cap _ ?j] =>
      destruct (enforce_cap_sim j (mkABuf (<[p := pkt]> (a_frames a)) base true (a_primed a)))
        as (jb' & ? & ? & ? & ? & ?) end; [|done|done| |simpl in *; eauto 7].
    - apply maps_sim_sim; simpl; try done; [by apply maps_sim_insert|]. apply (sim_primed _ _ Hs).
    - simpl. rewrite map_size_insert. destruct (_ !! _); simpl; lia. }
  rewrite (sim_started _ _ Hs). destruct (a_started a) eqn:Hst.
  - assert (Hnx := sim_next _ _ Hs Hst). rewrite Hnx.
    destruct (seqDelta_spec (wrap 16 (a_next a)) seq (wrap16_range _) Hseq) as [Hd Hw].
    set (d := seqDelta (wrap 16 (a_next a)) seq) in *.
    destruct (Z.ltb_spec d 0).
    + replace (true && (a_next a + d <? a_next a)) with true by (symmetry; apply Z.ltb_lt; lia).
      eexists. split; [done|]. simpl. split; [|done].
      destruct Hs; split; simpl; first [done | intros; congruence].
    + replace (true && (a_next a + d <? a_next a)) with false by (symmetry; apply Z.ltb_ge; lia).
      destruct (Hins (a_next a + d) (a_next a)) as (jb' & -> & Hr).
      * by apply sim_maps.
      * unfold in_window; lia.
      * by rewrite <- wrap16_add, Hw.
      * simpl. eauto.
  - destruct (sim_idle _ _ Hs Hst) as [Hf Ha]. simpl.
    destruct (Hins seq seq) as (jb' & He & Hr).
    + rewrite Hf, Ha. split; [|split; [|split]]; try done; intros ?; rewrite ?lookup_empty; by intros [].
    + unfold in_window; lia.
    + by rewrite wrap16_id.
    + rewrite (wrap16_id seq Hseq) in He. rewrite He. simpl. eauto.
Qed.

Lemma pop_sim jb a :
  sim jb a ->
  sim (Pop jb).1 (a_pop (targetFrames jb) a).1 ∧
  (Pop jb).2 = (a_pop (targetFrames jb) a).2 ∧
  maxFrames (Pop jb).1 = maxFrames jb ∧ targetFrames (Pop jb).1 = targetFrames jb ∧
  (size (frames (Pop jb).1) <= size (frames jb))%nat.
Proof.
  intros Hs. unfold Pop, a_pop. rewrite (sim_started _ _ Hs), (sim_primed _ _ Hs), (sim_size _ _ Hs).
  destruct (a_started a) eqn:Hst; simpl; [|split_and!; try done; rewrite ?(sim_size _ _ Hs); lia].
  destruct (negb (a_primed a) && (Z.of_nat (size (a_frames a)) <? targetFrames jb)); [simpl; split_and!; try done; rewrite ?(sim_size _ _ Hs); lia|].
  assert (Hnx := sim_next _ _ Hs Hst). assert (Hms := sim_maps _ _ Hs).
  assert (frames jb !! nextOut jb = a_frames a !! a_next a) as Hl.
  { rewrite Hnx. apply (sim_lookup _ _ Hs). unfold in_window; lia. }
  rewrite Hl. destruct (a_frames a !! a_next a) as [pkt|] eqn:Ha; simpl.
  - split_and!; try done.
    + apply maps_sim_sim; simpl; try done; [|by rewrite Hnx, inc16_wrap].
      apply maps_sim_advance; [|apply lookup_delete_eq]. rewrite Hnx.
      apply maps_sim_delete; [done|]. unfold in_window; lia.
    + simpl. rewrite map_size_delete, Hl. simpl. rewrite (sim_size _ _ Hs). lia.
  - split_and!; try done; [|simpl; rewrite (sim_size _ _ Hs); lia].
    apply maps_sim_sim; simpl; try done; [|by rewrite Hnx, inc16_wrap].
    rewrite delete_id by done. by apply maps_sim_advance.
Qed.

Lemma NewJitterBuffer_sim targetMs maxMs : sim (NewJitterBuffer targetMs maxMs) a_init.
Proof. split; simpl; try done; intros ?; rewrite ?lookup_empty; try (by intros []); done. Qed.

Lemma j_run_sim os : ∀ jb a,
  sim jb a -> 1 <= maxFrames jb -> Z.of_nat (size (frames jb)) <= maxFrames jb -> Forall jop_ok os ->
  ∃ jb', j_run os jb = Some (jb', (a_run (targetFrames jb) (maxFrames jb) os a).2) ∧
    sim jb' (a_run (targetFrames jb) (maxFrames jb) os a).1 ∧
    Z.of_nat (size (frames jb')) <= maxFrames jb.
Proof.
  induction os as [|o os IH]; intros jb a Hs Hmax Hsz Hops; [simpl; eauto|].
  apply Forall_cons in Hops as [Ho Hops]. destruct o as [seq pkt|]; cbn [j_run j_step a_run a_step].
  - destruct (push_sim jb a seq pkt Hs Ho Hmax Hsz) as (jb1 & -> & Hs1 & Hm & Ht & Hsz1).
    destruct (a_push (maxFrames jb) seq pkt a) as [a1 b]. simpl in *.
    destruct (IH jb1 a1) as (jb' & Hr & Hs' & Hsz'); [done|lia|lia|done|].
    rewrite Hm, Ht in *. rewrite Hr. simpl.
    destruct (a_run (targetFrames jb) (maxFrames jb) os a1) as [a2 xs]. eauto.
  - destruct (pop_sim jb a Hs) as (Hs1 & Hf & Hm & Ht & Hsz1).
    destruct (Pop jb) as [jb1 f]. destruct (a_pop (targetFrames jb) a) as [a1 f']. simpl in *. subst f'.
    destruct (IH jb1 a1) as (jb' & Hr & Hs' & Hsz'); [done|lia|lia|done|].
    rewrite Hm, Ht in *. rewrite Hr. simpl.
    destruct (a_run (targetFrames jb) (maxFrames jb) os a1) as [a2 xs]. eauto.
Qed.

(** ** Deliveries of the abstract buffer *)

Definition delivered (outs : list jout) : list bytes :=
  omap (fun x => match x with OutPop (Some f) => Some f | _ => None end) outs.

(** Every buffered frame was pushed, under the low 16 bits of its position. *)
Definition a_hist (h : list jop) (a : ABuf) : Prop :=
  (∀ p f, a_frames a !! p = Some f -> JPush (wrap 16 p) f ∈ h) ∧
  (∀ p, is_Some (a_frames a !! p) -> a_next a <= p) ∧
  (a_started a = false -> a_next a = 0 ∧ a_frames a = ∅).

Lemma a_hist_mono h h' a : h ⊆ h' -> a_hist h a -> a_hist h' a.
Proof. intros Hsub (H1 & H2 & H3). split_and!; auto. Qed.

Lemma a_evict_hist h a : a_hist h a -> a_hist h (a_evict a) ∧ a_next a <= a_next (a_evict a).
Proof.
  intros (H1 & H2 & H3). unfold a_evict. destruct (min_key (a_frames a)) as [k|] eqn:Hk; [|split; [done|lia]].
  apply min_key_Some in Hk as [Hk Hmin]. simpl. split; [|case_decide; lia].
  split; [|split]; simpl.
  - intros p f [_ Hp]%lookup_delete_Some. auto.
  - intros p [Hne Hp]%lookup_delete_is_Some. specialize (H2 p Hp). specialize (Hmin p Hp).
    case_decide; lia.
  - intros Hst. destruct (H3 Hst) as [_ Hf]. rewrite Hf in Hk. by destruct Hk.
Qed.

Lemma a_push_hist h a maxf seq pkt :
  a_hist h a -> uint16 seq ->
  a_hist (h ++ [JPush seq pkt]) (a_push maxf seq pkt a).1 ∧
  a_next a <= a_next (a_push maxf seq pkt a).1.
Proof.
  intros Hh Hseq. assert (Hh' := a_hist_mono h (h ++ [JPush seq pkt]) a ltac:(set_solver) Hh).
  unfold a_push. destruct (a_started a && (a_pos a seq <? a_next a)) eqn:Hlate; [split; [done|simpl; lia]|].
  set (a1 := mkABuf _ _ _ _). simpl.
  assert (a_hist (h ++ [JPush seq pkt]) a1 ∧ a_next a <= a_next a1) as [Ha1 Hle].
  { destruct Hh' as (H1 & H2 & H3). unfold a1, a_pos in *. destruct (a_started a) eqn:Hst.
    - apply Z.ltb_ge in Hlate. split; [|simpl; lia]. split; [|split]; simpl; [| |done].
      + intros p f [[<- <-]|[_ Hp]]%lookup_insert_Some; [|auto].
        destruct (seqDelta_spec (wrap 16 (a_next a)) seq (wrap16_range _) Hseq) as [_ Hw].
        rewrite <- wrap16_add, Hw. set_solver.
      + intros p [<-|[_ Hp]]%lookup_insert_is_Some; [lia|auto].
    - destruct (H3 eq_refl) as [Hn Hf]. unfold uint16 in Hseq. split; [|simpl; lia].
      split; [|split]; simpl; rewrite ?Hf; [| |done].
      + intros p f [[<- <-]|[_ Hp]]%lookup_insert_Some; [|done].
        rewrite wrap16_id by done. set_solver.
      + intros p [<-|[_ Hp]]%lookup_insert_is_Some; [lia|by destruct Hp]. }
  case_decide; [|done]. destruct (a_evict_hist _ _ Ha1). split; [done|lia].
Qed.

Lemma a_pop_hist h a target :
  a_hist h a ->
  a_hist h (a_pop target a).1 ∧ a_next a <= a_next (a_pop target a).1 ∧
  (∀ f, (a_pop target a).2 = Some f ->
     JPush (wrap 16 (a_next a)) f ∈ h ∧ a_next a < a_next (a_pop target a).1).
Proof.
  intros Hh. assert (Hh' := Hh). destruct Hh' as (H1 & H2 & H3).
  unfold a_pop. destruct (a_started a) eqn:Hst; simpl; [|split; [done|split; [lia|done]]].
  case_match; [simpl; split; [done|split; [lia|done]]|]. simpl. split_and!; [split; [|split]; simpl|lia|].
  - intros p f [_ Hp]%lookup_delete_Some. auto.
  - intros p [Hne Hp]%lookup_delete_is_Some. specialize (H2 p Hp). lia.
  - done.
  - intros f Hf. split; [auto|lia].
Qed.

Lemma a_run_ordered target maxf os : ∀ h a,
  a_hist h a -> Forall jop_ok os ->
  ∃ ps, StronglySorted Z.lt ps ∧ Forall (Z.le (a_next a)) ps ∧
    Forall2 (fun p f => JPush (wrap 16 p) f ∈ h ++ os) ps (delivered (a_run target maxf os a).2).
Proof.
  induction os as [|o os IH]; intros h a Hh Hops.
  { exists []. split_and!; constructor. }
  apply Forall_cons in Hops as [Ho Hops]. destruct o as [seq pkt|]; cbn [a_run a_step].
  - destruct (a_push_hist h a maxf seq pkt Hh Ho) as [Hh1 Hle].
    destruct (a_push maxf seq pkt a) as [a1 b]. simpl in *.
    destruct (IH _ _ Hh1 Hops) as (ps & Hsort & Hge & Hf2). exists ps.
    destruct (a_run target maxf os a1) as [a2 xs]. simpl in *.
    split; [done|]. split; [eapply Forall_impl; [exact Hge|simpl; lia]|].
    by rewrite <- (app_assoc h) in Hf2.
  - destruct (a_pop_hist h a target Hh) as (Hh1 & Hle & Hdel).
    destruct (a_pop target a) as [a1 f]. simpl in *.
    destruct (IH _ _ (a_hist_mono h (h ++ [JPop]) a1 ltac:(set_solver) Hh1) Hops)
      as (ps & Hsort & Hge & Hf2).
    destruct (a_run target maxf os a1) as [a2 xs]. simpl in *.
    rewrite <- (app_assoc h) in Hf2. simpl in Hf2. destruct f as [f|].
    + destruct (Hdel f eq_refl) as [Hin Hlt]. exists (a_next a :: ps). split_and!.
      * constructor; [done|]. eapply Forall_impl; [exact Hge|simpl; lia].
      * constructor; [lia|]. eapply Forall_impl; [exact Hge|simpl; lia].
      * constructor; [set_solver|done].
    + exists ps. split; [done|]. split; [|done]. eapply Forall_impl; [exact Hge|simpl; lia].
Qed.

(** ** A negative cap *)

Lemma enforce_cap_negative fuel : ∀ jb, maxFrames jb < 0 -> enforce_cap fuel jb = None.
Proof.
  induction fuel as [|fuel IH]; intros jb Hneg.
  - unfold enforce_cap. by rewrite decide_True by lia.
  - rewrite enforce_cap_S, decide_True by lia. by apply IH.
Qed.

(** ** Properties *)

(** C9: from a fresh buffer whose cap holds at least one frame, any sequence of
    pushes and pops terminates (the eviction loop finishes), never holds more
    than [maxFrames] frames, and answers exactly as the abstract buffer over
    unbounded positions does: the uint16 wrap-around is transparent. *)
Theorem jitter_refines_stream targetMs maxMs os :
  20 <= maxMs -> Forall jop_ok os ->
  ∃ jb, j_run os (NewJitterBuffer targetMs maxMs) =
          Some (jb, (a_run (Z.quot targetMs 20) (Z.quot maxMs 20) os a_init).2) ∧
        Z.of_nat (size (frames jb)) <= Z.quot maxMs 20.
Proof.
  intros Hmax Hops.
  assert (1 <= Z.quot maxMs 20) by (rewrite Z.quot_div_nonneg by lia; Z.div_mod_to_equations; lia).
  destruct (j_run_sim os (NewJitterBuffer targetMs maxMs) a_init) as (jb & Hr & _ & Hsz).
  - apply NewJitterBuffer_sim.
  - done.
  - simpl. unfold FrameMs. rewrite map_size_empty. lia.
  - done.
  - eauto.
Qed.

(** The frames a fresh buffer delivers are pushed packets, delivered at
    strictly increasing stream positions whose low 16 bits are the packets'
    sequence numbers: playback is in order and a duplicate packet is never
    played twice. *)
Theorem jitter_delivers_in_order targetMs maxMs os jb outs :
  20 <= maxMs -> Forall jop_ok os ->
  j_run os (NewJitterBuffer targetMs maxMs) = Some (jb, outs) ->
  ∃ ps, StronglySorted Z.lt ps ∧
    Forall2 (fun p f => JPush (wrap 16 p) f ∈ os) ps (delivered outs).
Proof.
  intros Hmax Hops Hr.
  destruct (j_run_sim os (NewJitterBuffer targetMs maxMs) a_init) as (jb' & Hr' & _ & _).
  - apply NewJitterBuffer_sim.
  - simpl. unfold FrameMs. rewrite Z.quot_div_nonneg by lia. Z.div_mod_to_equations; lia.
  - simpl. unfold FrameMs. rewrite map_size_empty, Z.quot_div_nonneg by lia.
    Z.div_mod_to_equations; lia.
  - done.
  - rewrite Hr in Hr'. simplify_eq.
    destruct (a_run_ordered (Z.quot targetMs FrameMs) (Z.quot maxMs FrameMs) os [] a_init)
      as (ps & Hsort & _ & Hf2); [|done|eauto].
    split_and!; simpl; [done| |done]. intros p [? Hp]. done.
Qed.

(** With a negative cap ([jitter_max_ms] of -20 or less) [Push] never
    returns: no amount of fuel ends the eviction loop, which runs while the
    buffer's mutex is held. *)
Theorem Push_diverges_negative_cap targetMs maxMs seq pkt fuel :
  maxMs <= -20 -> Push_fuel fuel seq pkt (NewJitterBuffer targetMs maxMs) = None.
Proof.
  intros Hneg. unfold Push_fuel. simpl. rewrite enforce_cap_negative; [done|]. simpl.
  replace maxMs with (- (- maxMs)) by lia. rewrite Z.quot_opp_l by (unfold FrameMs; lia).
  unfold FrameMs. rewrite Z.quot_div_nonneg by lia. Z.div_mod_to_equations; lia.
Qed.

(** ** Witnesses *)

Definition demo_ops : list jop :=
  [JPush 65534 [1]; JPush 0 [3]; JPush 65535 [2]; JPop; JPush 65535 [2]; JPop; JPop; JPush 65534 [1]; JPop].

Example demo_run :
  (a_run 3 10 demo_ops a_init).2 =
  [OutPush true; OutPush true; OutPush true; OutPop (Some [1]); OutPush true; OutPop (Some [2]);
   OutPop (Some [3]); OutPush false; OutPop None].
Proof. vm_compute. reflexivity. Qed.

Lemma demo_ops_ok : Forall jop_ok demo_ops.
Proof. repeat constructor; vm_compute; congruence. Qed.

Lemma jitter_refines_stream_witness :
  ∃ jb, j_run demo_ops (NewJitterBuffer 60 200) = Some (jb, (a_run 3 10 demo_ops a_init).2) ∧
        Z.of_nat (size (frames jb)) <= 10.
Proof. apply (jitter_refines_stream 60 200 demo_ops); [lia|apply demo_ops_ok]. Defined.

Lemma jitter_delivers_in_order_witness :
  ∃ ps, StronglySorted Z.lt ps ∧
    Forall2 (fun p f => JPush (wrap 16 p) f ∈ demo_ops) ps [[1]; [2]; [3]].
Proof.
  destruct (j_run demo_ops (NewJitterBuffer 60 200)) as [[jb outs]|] eqn:Hr.
  - assert (delivered outs = [[1]; [2]; [3]]) as <-.
    { revert Hr. vm_compute. intros [= <- <-]. reflexivity. }
    apply (jitter_delivers_in_order 60 200 demo_ops jb outs); [lia|apply demo_ops_ok|exact Hr].
  - exfalso. revert Hr. vm_compute. discriminate.
Defined.

Lemma Push_diverges_negative_cap_witness :
  Push_fuel 1000 7 [1] (NewJitterBuffer 60 (-200)) = None.
Proof. apply Push_diverges_negative_cap. lia. Defined.
