(* ===== verification/AudioTransport.v ===== *)
(** * The audio transport ([internal/audio/transport.go], [devices.go])

    Framing of media on the reliable stream, the bounded send and receive
    queues, the datagram overlay and its single attachment, [Close], the
    registry of inbound streams, and the int16 little-endian sample codec.
    The underlying streams, QUIC connections and the JSON decoder are
    parameters; what the transport does with them is here. *)
From S2P Require Import Prelude.
#[local] Open Scope Z_scope.

(** ** Framing *)

Definition maxMediaFrameSize : Z := 1500.
Definition mediaSendCap : nat := 16.
Definition mediaRecvCap : nat := 16.

Inductive FrameErr :=
| EFrameTooLarge (n : Z)
| EEOF
| EUnexpectedEOF
| EWrite.

(** [binary.BigEndian.PutUint16] of a uint16. *)
Definition put_uint16_be (n : Z) : bytes := [Z.shiftr n 8; Z.land n 255].

Definition uint16_be (hi lo : Z) : Z := Z.lor (Z.shiftl hi 8) lo.

(** [io.ReadFull] of [n] bytes on a reader whose remaining content is [r]. *)
Definition read_full (n : nat) (r : bytes) : result FrameErr (bytes * bytes) :=
  if decide (n <= length r)%nat then Ok (take n r, drop n r)
  else if decide (r = []) then Err EEOF else Err EUnexpectedEOF.

Section writer.
Context {W : Type} (write : W -> bytes -> W * bool).

(** [writeFramedMedia]: the writer after the call and the error, if any. *)
Definition writeFramedMedia (w : W) (b : bytes) : W * option FrameErr :=
  if decide (Z.of_nat (length b) > maxMediaFrameSize)
  then (w, Some (EFrameTooLarge (Z.of_nat (length b))))
  else
    let '(w1, ok) := write w (put_uint16_be (wrap 16 (Z.of_nat (length b)))) in
    if negb ok then (w1, Some EWrite)
    else let '(w2, ok2) := write w1 b in
         (w2, if ok2 then None else Some EWrite).
End writer.

(** A writer that appends and never fails. *)
Definition append_writer (w b : bytes) : bytes * bool := (w ++ b, true).

Definition readFramedMedia (r : bytes) : result FrameErr (bytes * bytes) :=
  '(hdr, r1) ← read_full 2 r;
  match hdr with
  | [hi; lo] =>
      let n := uint16_be hi lo in
      if decide (n = 0) then Ok ([], r1)
      else if decide (n > maxMediaFrameSize) then Err (EFrameTooLarge n)
      else read_full (Z.to_nat n) r1
  | _ => Err EUnexpectedEOF
  end.

(** [recvPumpStream]: frames are read until the first error. *)
Fixpoint recvPumpStream (fuel : nat) (r : bytes) : list bytes * option FrameErr :=
  match fuel with
  | O => ([], None)
  | S fuel =>
      match readFramedMedia r with
      | Err e => ([], Some e)
      | Ok (b, r') => let '(bs, e) := recvPumpStream fuel r' in (b :: bs, e)
      end
  end.

(** ** The transport *)

Record libp2pTransport := mkTransport {
  t_sendCh : list bytes;
  t_recvCh : list bytes;
  t_dconn : option nat;          (* the attached QUIC connection *)
  t_outMedia : bool;             (* the outbound media stream is not nil *)
  t_pumps : list nat;            (* connections a recvPumpDatagram was started on *)
  t_closed : bool;               (* closeCtx is done *)
  t_closeOnce : bool;
  t_streams_closed : nat }.

Definition NewLibp2pTransport : libp2pTransport :=
  mkTransport [] [] None true [] false false 0.

Definition set_sendCh q t :=
  mkTransport q (t_recvCh t) (t_dconn t) (t_outMedia t) (t_pumps t) (t_closed t) (t_closeOnce t)
    (t_streams_closed t).
Definition set_recvCh q t :=
  mkTransport (t_sendCh t) q (t_dconn t) (t_outMedia t) (t_pumps t) (t_closed t) (t_closeOnce t)
    (t_streams_closed t).

(** [SendMedia]: [false] is [ErrMediaBackpressure]. *)
Definition SendMedia (b : bytes) (t : libp2pTransport) : libp2pTransport * bool :=
  if decide (length (t_sendCh t) < mediaSendCap)%nat
  then (set_sendCh (t_sendCh t ++ [b]) t, true) else (t, false).

Inductive MediaMode := ModeDatagram | ModeStream | ModeNone.

Definition mediaMode (t : libp2pTransport) : MediaMode :=
  match t_dconn t with
  | Some _ => ModeDatagram
  | None => if t_outMedia t then ModeStream else ModeNone
  end.

(** The select of [RecvMedia]: any ready case may be taken. *)
Inductive RecvResult := RecvFrame (b : bytes) | RecvCtxErr | RecvErrClosed.

Inductive RecvMedia (ctx_done : bool) : libp2pTransport -> RecvResult -> libp2pTransport -> Prop :=
| recv_frame b q t : t_recvCh t = b :: q -> RecvMedia ctx_done t (RecvFrame b) (set_recvCh q t)
| recv_ctx t : ctx_done = true -> RecvMedia ctx_done t RecvCtxErr t
| recv_closed t : t_closed t = true -> RecvMedia ctx_done t RecvErrClosed t.

(** One select with default on [recvCh]. *)
Definition try_push (b : bytes) (q : list bytes) : list bytes * bool :=
  if decide (length q < mediaRecvCap)%nat then (q ++ [b], true) else (q, false).

(** [deliverRecv]: push; when full, drop the oldest and push again. *)
Definition deliverRecv (b : bytes) (t : libp2pTransport) : libp2pTransport :=
  let '(q, sent) := try_push b (t_recvCh t) in
  if sent then set_recvCh q t
  else set_recvCh (try_push b (tail q)).1 t.

(** What one turn of [sendPump] does with the frame it took. *)
Inductive SendOut :=
| OutDatagram (conn : nat) (b : bytes)
| OutStream (b : bytes)
| OutDropped (b : bytes).

(** [sendPump]: the frame at the head goes to the datagram path when it is
    attached, to the stream otherwise; a frame the framing refuses is lost. *)
Definition sendPump_turn (t : libp2pTransport) : option (SendOut * libp2pTransport) :=
  if t_closed t then None
  else match t_sendCh t with
  | [] => None
  | b :: q =>
      Some (match t_dconn t with
            | Some c => OutDatagram c b
            | None => if t_outMedia t && bool_decide (Z.of_nat (length b) <= maxMediaFrameSize)
                      then OutStream b else OutDropped b
            end, set_sendCh q t)
  end.

(** [findDatagramConn]: the first connection [c.As(&qc)] accepts. *)
Definition findDatagramConn (conns : list (nat * bool)) : option nat :=
  fst <$> head (filter (fun c : nat * bool => c.2 = true) conns).

(** [tryAttachDatagram]; starting the pump is the push on [t_pumps]. *)
Definition tryAttachDatagram (conns : list (nat * bool)) (t : libp2pTransport) : libp2pTransport * bool :=
  match findDatagramConn conns with
  | None => (t, false)
  | Some dc =>
      match t_dconn t with
      | Some _ => (t, true)
      | None =>
          (mkTransport (t_sendCh t) (t_recvCh t) (Some dc) (t_outMedia t) (t_pumps t ++ [dc])
             (t_closed t) (t_closeOnce t) (t_streams_closed t), true)
      end
  end.

(** What a turn of [datagramWatcher]'s loops selects. *)
Inductive WatchEvent := WatchClosed | WatchTick (conns : list (nat * bool)).

(** [datagramWatcher]: one attempt at once, then one per tick until it
    succeeds or the transport closes; [None] when it still waits. *)
Fixpoint datagramWatcher_loop (evs : list WatchEvent) (t : libp2pTransport) : libp2pTransport * option bool :=
  match evs with
  | [] => (t, None)
  | WatchClosed :: _ => (t, Some false)
  | WatchTick conns :: evs =>
      let '(t, attached) := tryAttachDatagram conns t in
      if attached then (t, Some true) else datagramWatcher_loop evs t
  end.

Definition datagramWatcher (conns0 : list (nat * bool)) (evs : list WatchEvent) (t : libp2pTransport)
  : libp2pTransport * option bool :=
  datagramWatcher_loop (WatchTick conns0 :: evs) t.

(** [Close]: the two booleans say whether closing the control and the media
    stream fails; the result is the first error, [1] or [2]. *)
Definition Close (ctrl_fails media_fails : bool) (t : libp2pTransport) : libp2pTransport * option nat :=
  if t_closeOnce t then (t, None)
  else
    let firstErr := if ctrl_fails then Some 1%nat else None in
    let firstErr :=
      if t_outMedia t
      then match media_fails, firstErr with true, None => Some 2%nat | _, _ => firstErr end
      else firstErr in
    (mkTransport (t_sendCh t) (t_recvCh t) (t_dconn t) (t_outMedia t) (t_pumps t) true true
       (t_streams_closed t + if t_outMedia t then 2 else 1), firstErr).

(** [recvPumpDatagram]: the datagrams received, in order, until an error. *)
Fixpoint recvPumpDatagram (ins : list (option bytes)) (t : libp2pTransport) : libp2pTransport :=
  match ins with
  | Some b :: ins => recvPumpDatagram ins (deliverRecv b t)
  | _ => t
  end.

(** ** Opening the streams *)

Inductive OpenErr {E : Type} := EOpeningControl (e : E) | EOpeningMedia (e : E).
Arguments OpenErr : clear implicits.
Inductive OpenCall := OOpenControl | OOpenMedia | OCloseControl | OCancel | OStart.
#[export] Instance OpenCall_eq_dec : EqDecision OpenCall.
Proof. solve_decision. Defined.

(** [NewLibp2pTransport] with the answers of the two [NewStream]: what it does in
    order, [OStart] being the pumps and waiters, and the transport. *)
Definition open_transport {E} (ctrl media : option E) : result (OpenErr E) libp2pTransport * list OpenCall :=
  match ctrl with
  | Some e => (Err (EOpeningControl e), [OOpenControl; OCancel])
  | None =>
      match media with
      | Some e => (Err (EOpeningMedia e), [OOpenControl; OOpenMedia; OCloseControl; OCancel])
      | None => (Ok NewLibp2pTransport, [OOpenControl; OOpenMedia; OStart])
      end
  end.

(** ** The registry of inbound streams *)

Section registry.
Context {Host Proto Peer : Type} `{Countable Host, Countable Proto, Countable Peer}.

(** [registry] with the channels as locations and the next free location. *)
Record Registry := mkRegistry {
  rg_map : gmap Host (gmap Proto (gmap Peer nat));
  rg_next : nat }.

Definition inboundChan (h : Host) (p : Proto) (remote : Peer) (r : Registry) : Registry * nat :=
  let byProto := default ∅ (rg_map r !! h) in
  let byPeer := default ∅ (byProto !! p) in
  match byPeer !! remote with
  | Some ch => (mkRegistry (<[h := <[p := byPeer]> byProto]> (rg_map r)) (rg_next r), ch)
  | None =>
      let ch := rg_next r in
      (mkRegistry (<[h := <[p := <[remote := ch]> byPeer]> byProto]> (rg_map r)) (S ch), ch)
  end.

Definition reg_lookup (r : Registry) (h : Host) (p : Proto) (remote : Peer) : option nat :=
  m ← rg_map r !! h; m' ← m !! p; m' !! remote.
End registry.

(** ** The sample codec ([devices.go]) *)

Definition uint16_le (b0 b1 : Z) : Z := Z.lor b0 (Z.shiftl b1 8).

(** [bytesToInt16LE]: [len(b)/2] samples, an odd last byte is ignored. *)
Fixpoint bytesToInt16LE (b : bytes) : list Z :=
  match b with
  | b0 :: b1 :: b => swrap 16 (uint16_le b0 b1) :: bytesToInt16LE b
  | _ => []
  end.

Definition put_uint16_le (n : Z) : bytes := [Z.land n 255; Z.shiftr n 8].

Definition int16ToBytesLE (samples : list Z) : bytes :=
  samples ≫= (fun s => put_uint16_le (wrap 16 s)).

(** ** Interleavings of the receive path

    Two pumps run [deliverRecv] concurrently, the reader takes frames. Each
    of [deliverRecv]'s three selects is one atomic step on the channel. *)
Section deliver.
Context {A : Type}.

Inductive DeliverPC :=
| DIdle
| DFirst (b : A)    (* before the first select *)
| DEvict (b : A)    (* channel was full, before the pop *)
| DRetry (b : A).   (* before the last select *)

Definition pc_frame (pc : DeliverPC) : list A :=
  match pc with DIdle => [] | DFirst b | DEvict b | DRetry b => [b] end.

Definition deliver_select (pc : DeliverPC) (q : list A) : DeliverPC * list A :=
  match pc with
  | DIdle => (DIdle, q)
  | DFirst b =>
      if decide (length q < mediaRecvCap)%nat then (DIdle, q ++ [b]) else (DEvict b, q)
  | DEvict b => (DRetry b, tail q)
  | DRetry b =>
      if decide (length q < mediaRecvCap)%nat then (DIdle, q ++ [b]) else (DIdle, q)
  end.
End deliver.
Arguments DeliverPC : clear implicits.

(** The receive side: frames are tagged by the pump that received them. *)
Record RecvSys := mkRecvSys {
  rs_pc : bool -> DeliverPC (bool * bytes);   (* the datagram and the stream pump *)
  rs_q : list (bool * bytes);                 (* recvCh *)
  rs_in : list (bool * bytes);                (* what the pumps received, in order *)
  rs_out : list (bool * bytes) }.             (* what RecvMedia returned, in order *)

Definition set_pc (i : bool) (pc : DeliverPC (bool * bytes)) (f : bool -> DeliverPC (bool * bytes))
  : bool -> DeliverPC (bool * bytes) := fun j => if Bool.eqb i j then pc else f j.

Inductive recv_step : RecvSys -> RecvSys -> Prop :=
| rs_receive i b s : rs_pc s i = DIdle ->
    recv_step s (mkRecvSys (set_pc i (DFirst (i, b)) (rs_pc s)) (rs_q s) (rs_in s ++ [(i, b)]) (rs_out s))
| rs_select i pc' q' s : deliver_select (rs_pc s i) (rs_q s) = (pc', q') ->
    recv_step s (mkRecvSys (set_pc i pc' (rs_pc s)) q' (rs_in s) (rs_out s))
| rs_take f q s : rs_q s = f :: q ->
    recv_step s (mkRecvSys (rs_pc s) q (rs_in s) (rs_out s ++ [f])).

Definition recv_init : RecvSys := mkRecvSys (fun _ => DIdle) [] [] [].

(** ** Runs of the whole transport *)

(** The transport with what [SendMedia] accepted and what [sendPump] emitted. *)
Record SendSys := mkSendSys {
  ss_t : libp2pTransport;
  ss_accepted : list bytes;
  ss_out : list SendOut }.

Definition out_frame (o : SendOut) : bytes :=
  match o with OutDatagram _ b | OutStream b | OutDropped b => b end.

Inductive send_step : SendSys -> SendSys -> Prop :=
| ss_send b t acc out t' : SendMedia b t = (t', true) ->
    send_step (mkSendSys t acc out) (mkSendSys t' (acc ++ [b]) out)
| ss_backpressure b t acc out t' : SendMedia b t = (t', false) ->
    send_step (mkSendSys t acc out) (mkSendSys t' acc out)
| ss_pump t acc out o t' : sendPump_turn t = Some (o, t') ->
    send_step (mkSendSys t acc out) (mkSendSys t' acc (out ++ [o]))
| ss_attach conns t acc out t' a : tryAttachDatagram conns t = (t', a) ->
    send_step (mkSendSys t acc out) (mkSendSys t' acc out)
| ss_deliver b t acc out :
    send_step (mkSendSys t acc out) (mkSendSys (deliverRecv b t) acc out)
| ss_recv d r t acc out t' : RecvMedia d t r t' ->
    send_step (mkSendSys t acc out) (mkSendSys t' acc out)
| ss_close c m t acc out t' e : Close c m t = (t', e) ->
    send_step (mkSendSys t acc out) (mkSendSys t' acc out).

Definition send_init : SendSys := mkSendSys NewLibp2pTransport [] [].

(** A frame on the datagram path names the connection that is attached. *)
Definition out_conn (o : SendOut) : option nat :=
  match o with OutDatagram c _ => Some c | _ => None end.

(** ** Framing: lemmas *)

Definition frame_ok (b : bytes) : Prop := Z.of_nat (length b) <= maxMediaFrameSize.
#[global] Instance frame_ok_dec b : Decision (frame_ok b) := _.

(** The bytes of one frame on the wire. *)
Definition frame (b : bytes) : bytes :=
  put_uint16_be (wrap 16 (Z.of_nat (length b))) ++ b.
#[local] Arguments frame : simpl never.
#[local] Arguments readFramedMedia : simpl never.

(** Frames written one after the other, the errors ignored as [sendPump] does. *)
Definition write_frames (w : bytes) (bs : list bytes) : bytes :=
  foldl (fun w b => (writeFramedMedia append_writer w b).1) w bs.

Lemma put_uint16_be_inv n : 0 <= n < 2 ^ 16 ->
  exists hi lo, put_uint16_be n = [hi; lo] /\ uint16_be hi lo = n /\ is_byte hi /\ is_byte lo.
Proof.
  intros Hn. exists (Z.shiftr n 8), (Z.land n 255). split; [done|].
  change 255 with (Z.ones 8). rewrite Z.shiftr_div_pow2, Z.land_ones by lia.
  assert (0 <= n / 2 ^ 8 < 256).
  { split; [apply Z.div_pos; lia|]. apply Z.div_lt_upper_bound; lia. }
  pose proof (Z.mod_pos_bound n (2 ^ 8) ltac:(lia)).
  split; [|split; [done | unfold is_byte; lia]].
  unfold uint16_be. rewrite lor_shiftl_add by lia. pose proof (Z.div_mod n (2 ^ 8) ltac:(lia)). lia.
Qed.

Lemma write_frame_ok w b : frame_ok b ->
  writeFramedMedia append_writer w b = (w ++ frame b, None).
Proof.
  intros Hb. unfold writeFramedMedia. rewrite decide_False by (unfold frame_ok in Hb; lia).
  simpl. unfold frame. by rewrite app_assoc.
Qed.

Lemma write_frame_refused w b : ~ frame_ok b ->
  writeFramedMedia append_writer w b = (w, Some (EFrameTooLarge (Z.of_nat (length b)))).
Proof. intros Hb. unfold writeFramedMedia. rewrite decide_True by (unfold frame_ok in Hb; lia). done. Qed.

Lemma write_frames_app bs w : write_frames w bs = w ++ concat (frame <$> filter frame_ok bs).
Proof.
  revert w. induction bs as [|b bs IH]; intros w; simpl; [by rewrite app_nil_r|].
  rewrite filter_cons. unfold write_frames in IH. case_decide.
  - rewrite write_frame_ok by done. simpl. by rewrite IH, <- app_assoc.
  - rewrite write_frame_refused by done. simpl. by rewrite IH.
Qed.

Lemma read_full_app n (r r' : bytes) : length r = n -> read_full n (r ++ r') = Ok (r, r').
Proof.
  intros <-. unfold read_full. rewrite decide_True by (rewrite length_app; lia).
  by rewrite take_app_length, drop_app_length.
Qed.

Lemma read_frame b r : frame_ok b -> readFramedMedia (frame b ++ r) = Ok (b, r).
Proof.
  intros Hb. unfold readFramedMedia, frame. unfold frame_ok, maxMediaFrameSize in Hb.
  rewrite wrap_small by lia.
  destruct (put_uint16_be_inv (Z.of_nat (length b))) as (hi & lo & -> & Hn & _); [lia|].
  rewrite <- app_assoc, (read_full_app 2) by done. simpl. rewrite Hn. case_decide as H0.
  - destruct b; [done | simpl in H0; lia].
  - rewrite decide_False by (unfold maxMediaFrameSize; lia).
    apply read_full_app. lia.
Qed.

Lemma read_full_err n r e : read_full n r = Err e -> e = EEOF \/ e = EUnexpectedEOF.
Proof. unfold read_full. intros H. repeat case_decide; simplify_eq; auto. Qed.

(** A stream that ends inside a frame gives no frame. *)
Lemma read_frame_truncated b k : frame_ok b -> (k < length (frame b))%nat ->
  exists e, readFramedMedia (take k (frame b)) = Err e /\ (e = EEOF \/ e = EUnexpectedEOF).
Proof.
  unfold frame, frame_ok, maxMediaFrameSize. intros Hb.
  rewrite wrap_small by lia.
  destruct (put_uint16_be_inv (Z.of_nat (length b))) as (hi & lo & -> & Hn & _); [lia|].
  simpl. intros Hk. destruct k as [|[|k]]; [by eauto..|].
  change (take (S (S k)) (hi :: lo :: b)) with ([hi; lo] ++ take k b).
  unfold readFramedMedia. rewrite (read_full_app 2) by done. simpl. rewrite Hn.
  rewrite decide_False by lia. rewrite decide_False by (unfold maxMediaFrameSize; lia).
  unfold read_full. rewrite decide_False by (rewrite length_take; lia).
  case_decide; eauto.
Qed.

Lemma recvPump_frames fs r fuel : Forall frame_ok fs -> (length fs < fuel)%nat ->
  recvPumpStream fuel (concat (frame <$> fs) ++ r) =
  let '(bs, e) := recvPumpStream (fuel - length fs) r in (fs ++ bs, e).
Proof.
  revert fuel. induction fs as [|b fs IH]; intros fuel Hfs Hfuel.
  { simpl. rewrite Nat.sub_0_r. by destruct (recvPumpStream fuel r). }
  inversion Hfs as [|?? Hb Hfs']; subst. simpl in Hfuel. destruct fuel as [|fuel]; [lia|].
  rewrite fmap_cons. cbn [concat recvPumpStream length Nat.sub].
  rewrite <- app_assoc. rewrite (read_frame b) by done. rewrite IH by (done || lia).
  by destruct (recvPumpStream (fuel - length fs) r).
Qed.

(** A prefix of a stream of frames splits at a frame boundary. *)
Lemma take_frames fs k :
  exists n r, take k (concat (frame <$> fs)) = concat (frame <$> take n fs) ++ r /\
    (r = [] \/ exists b k', fs !! n = Some b /\ r = take k' (frame b) /\ (k' < length (frame b))%nat).
Proof.
  revert k. induction fs as [|b fs IH]; intros k.
  { exists 0%nat, []. split; [by destruct k | auto]. }
  rewrite fmap_cons. cbn [concat].
  destruct (decide (k < length (frame b))%nat).
  - exists 0%nat, (take k (frame b)). split; [by rewrite take_app_le by lia|].
    right. by exists b, k.
  - destruct (IH (k - length (frame b))%nat) as (n' & r & Hr & Hcase).
    exists (S n'), r. split; [|exact Hcase]. cbn [take]. rewrite fmap_cons. cbn [concat].
    rewrite take_app_ge by lia. by rewrite Hr, app_assoc.
Qed.

Lemma recvPump_err fuel r e : readFramedMedia r = Err e -> (0 < fuel)%nat ->
  recvPumpStream fuel r = ([], Some e).
Proof. intros He Hf. destruct fuel; [lia|]. simpl. by rewrite He. Qed.

Lemma Forall_frames bs : Forall frame_ok (filter frame_ok bs).
Proof. apply Forall_forall. by intros b [Hb _]%list_elem_of_filter. Qed.

(** Media framing: whatever frames [sendPump] writes on the reliable
    stream, the peer's [recvPumpStream] yields exactly those of at most 1500
    bytes, in order, and then the end of the stream; if the stream breaks off
    at any byte, what it yields is a prefix of them, never a partial or
    merged frame. *)
Theorem framing_faithful bs k fuel :
  (length bs < fuel)%nat ->
  recvPumpStream fuel (write_frames [] bs) = (filter frame_ok bs, Some EEOF) /\
  exists l e, recvPumpStream fuel (take k (write_frames [] bs)) = (l, Some e) /\
    l `prefix_of` filter frame_ok bs /\ (e = EEOF \/ e = EUnexpectedEOF).
Proof.
  intros Hfuel. rewrite write_frames_app, app_nil_l.
  pose proof (Forall_frames bs) as Hok. pose proof (length_filter frame_ok bs).
  split.
  - rewrite <- (app_nil_r (concat _)), recvPump_frames by (done || lia).
    rewrite (recvPump_err _ [] EEOF) by (done || lia). by rewrite app_nil_r.
  - destruct (take_frames (filter frame_ok bs) k) as (n & r & -> & Hr).
    assert (exists e, readFramedMedia r = Err e /\ (e = EEOF \/ e = EUnexpectedEOF)) as (e & He & Hee).
    { destruct Hr as [->|(b & k' & Hb & -> & Hk')]; [by eauto|].
      eapply read_frame_truncated; [|done]. by eapply Forall_lookup_1. }
    exists (take n (filter frame_ok bs)), e.
    rewrite recvPump_frames; [|by apply Forall_take | rewrite length_take; lia].
    rewrite (recvPump_err _ _ e); [|done | rewrite length_take; lia].
    rewrite app_nil_r. eauto using prefix_take.
Qed.

Lemma framing_faithful_witness :
  recvPumpStream 4 (take 6 (write_frames [] [[1; 2]; []; [7; 8; 9]])) = ([[1; 2]; []], Some EEOF) /\
  recvPumpStream 4 (write_frames [] [[1; 2]; []; [7; 8; 9]]) = ([[1; 2]; []; [7; 8; 9]], Some EEOF).
Proof.
  split; [reflexivity|].
  exact (proj1 (framing_faithful [[1; 2]; []; [7; 8; 9]] 6 4 ltac:(simpl; lia))).
Defined.

(** ** The receive queue *)

Lemma deliverRecv_spec b t : (length (t_recvCh t) <= mediaRecvCap)%nat ->
  deliverRecv b t =
    set_recvCh ((if decide (length (t_recvCh t) < mediaRecvCap)%nat then t_recvCh t
                 else tail (t_recvCh t)) ++ [b]) t.
Proof.
  unfold deliverRecv, try_push. intros Hlen. case_decide; [done|].
  rewrite decide_True; [done|].
  destruct (t_recvCh t); simpl in *; unfold mediaRecvCap in *; lia.
Qed.

(** [deliverRecv] is its three selects run without interruption. *)
(** While nobody reads, the queue holds the newest frames received. *)
Lemma recvPumpDatagram_newest bs rest t :
  (length (t_recvCh t) <= mediaRecvCap)%nat ->
  let all := t_recvCh t ++ bs in
  t_recvCh (recvPumpDatagram (map Some bs ++ None :: rest) t) = drop (length all - mediaRecvCap) all.
Proof.
  revert t. induction bs as [|b bs IH]; intros t Hcap all; subst all; simpl.
  - rewrite app_nil_r. by replace (length (t_recvCh t) - mediaRecvCap)%nat with 0%nat by lia.
  - assert (Hq : t_recvCh (deliverRecv b t) = (if decide (length (t_recvCh t) < mediaRecvCap)%nat then t_recvCh t else tail (t_recvCh t)) ++ [b])
      by (by rewrite deliverRecv_spec).
    destruct (decide _) as [Hroom|Hfull].
    + rewrite IH, Hq by (rewrite Hq, length_app; simpl; lia). by rewrite <- app_assoc.
    + destruct (t_recvCh t) as [|x q]; simpl in Hcap, Hfull; [unfold mediaRecvCap in Hfull; lia|].
      rewrite IH, Hq by (rewrite Hq, length_app; simpl; lia). cbn [tail]. rewrite <- app_assoc.
      assert (Hn : (length ((x :: q) ++ b :: bs) - mediaRecvCap = S (length (q ++ b :: bs) - mediaRecvCap))%nat).
      { rewrite !length_app, !length_cons. unfold mediaRecvCap in *. lia. }
      by rewrite Hn.
Qed.

(** A transport that could not be opened has no open stream and no goroutine. *)
Lemma open_transport_failed {E} (ctrl media : option E) e calls :
  open_transport ctrl media = (Err e, calls) ->
  OStart ∉ calls /\ OCancel ∈ calls /\ (ctrl = None -> OCloseControl ∈ calls).
Proof.
  unfold open_transport. destruct ctrl, media; intros [= <- <-]; split_and!; try done; apply (bool_decide_unpack _); by vm_compute.
Qed.

Lemma deliverRecv_selects b t :
  deliverRecv b t =
    let s1 := deliver_select (DFirst b) (t_recvCh t) in
    let s2 := deliver_select s1.1 s1.2 in
    let s3 := deliver_select s2.1 s2.2 in
    set_recvCh s3.2 t.
Proof.
  unfold deliverRecv, try_push. simpl. case_decide; simpl; [done|]. by case_decide.
Qed.

Definition recv_inv (s : RecvSys) : Prop :=
  (length (rs_q s) <= mediaRecvCap)%nat /\
  forall i, Forall (fun f : bool * bytes => f.1 = i) (pc_frame (rs_pc s i)) /\
    filter (fun f : bool * bytes => f.1 = i) (rs_out s ++ rs_q s) ++ pc_frame (rs_pc s i)
      `sublist_of` filter (fun f : bool * bytes => f.1 = i) (rs_in s).

Lemma set_pc_same i pc f : set_pc i pc f i = pc.
Proof. unfold set_pc. by rewrite Bool.eqb_reflx. Qed.

Lemma set_pc_other i j pc f : i <> j -> set_pc i pc f j = f j.
Proof. unfold set_pc. by destruct i, j. Qed.

Lemma deliver_select_length {A} (pc pc' : DeliverPC A) q q' :
  deliver_select pc q = (pc', q') -> (length q <= mediaRecvCap)%nat -> (length q' <= mediaRecvCap)%nat.
Proof.
  destruct pc; simpl; repeat case_decide; intros; simplify_eq; rewrite ?length_app; simpl; try lia.
  destruct q; simpl in *; lia.
Qed.

(** A select appends the pump's own frame, drops it, or pops the head. *)
Lemma deliver_select_cases {A} (pc pc' : DeliverPC A) q q' :
  deliver_select pc q = (pc', q') ->
  (q' = q ++ pc_frame pc /\ pc_frame pc' = []) \/
  (q' = q /\ pc_frame pc' `sublist_of` pc_frame pc) \/
  (q' = tail q /\ pc_frame pc' = pc_frame pc).
Proof.
  destruct pc; simpl; repeat case_decide; intros; simplify_eq/=; eauto 6 using sublist_nil_l.
Qed.

Lemma sublist_filter_tail {A} (P : A -> Prop) `{forall x, Decision (P x)} (l q : list A) :
  filter P (l ++ tail q) `sublist_of` filter P (l ++ q).
Proof.
  destruct q as [|x q]; [done|]. simpl. rewrite !filter_app, filter_cons.
  apply sublist_app; [done|]. case_decide; [by apply sublist_cons | done].
Qed.

Lemma recv_inv_step s s' : recv_inv s -> recv_step s s' -> recv_inv s'.
Proof.
  intros [Hlen Hinv] Hstep. destruct Hstep as [i b s Hi | i pc' q' s Hsel | f q s Hq]; split; simpl.
  - done.
  - intros j. destruct (Hinv j) as [Hj Hsub]. destruct (decide (i = j)) as [->|Hij].
    + rewrite set_pc_same. rewrite Hi, app_nil_r in Hsub. split; [by repeat constructor|].
      rewrite (filter_app _ (rs_in s)), filter_cons_True by done.
      by apply sublist_app.
    + rewrite set_pc_other by done. split; [done|].
      rewrite (filter_app _ (rs_in s)), filter_cons_False by done. by rewrite app_nil_r.
  - by eapply deliver_select_length.
  - intros j. destruct (Hinv j) as [Hj Hsub]. destruct (decide (i = j)) as [->|Hij].
    + rewrite set_pc_same. destruct (deliver_select_cases _ _ _ _ Hsel) as [[-> ->]|[[-> Hpc]|[-> ->]]].
      * split; [constructor|]. rewrite app_nil_r, app_assoc, (filter_app _ _ (pc_frame _)).
        by rewrite (filter_all _ (pc_frame (rs_pc s j))).
      * split; [eapply Forall_sublist; eauto|]. etrans; [|done]. by apply sublist_app.
      * split; [done|]. etrans; [|done]. apply sublist_app; [apply sublist_filter_tail | done].
    + rewrite set_pc_other by done. split; [done|]. etrans; [|done]. apply sublist_app; [|done].
      destruct (deliver_select_cases _ _ _ _ Hsel) as [[-> _]|[[-> _]|[-> _]]];
        [|done|apply sublist_filter_tail].
      rewrite app_assoc, (filter_app _ _ (pc_frame _)), (filter_none _ (pc_frame _)).
      { by rewrite app_nil_r. }
      destruct (Hinv i) as [Hi _]. eapply Forall_impl; [done|]. simpl. congruence.
  - rewrite Hq in Hlen. simpl in Hlen. lia.
  - intros j. destruct (Hinv j) as [Hj Hsub]. rewrite Hq in Hsub. by rewrite <- app_assoc.
Qed.

(** The receive queue under concurrency: with the datagram pump, the
    stream pump and the reader interleaving at the granularity of single
    selects, [recvCh] never holds more than 16 frames, and what the reader has
    taken from one pump, followed by what is still queued or in that pump's
    hands, is a subsequence in order of what the pump received: frames are
    dropped, never duplicated, reordered within a path or invented. *)
Theorem recv_queue_safe s :
  rtc recv_step recv_init s ->
  (length (rs_q s) <= 16)%nat /\
  forall i, filter (fun f : bool * bytes => f.1 = i) (rs_out s ++ rs_q s)
    `sublist_of` filter (fun f : bool * bytes => f.1 = i) (rs_in s).
Proof.
  intros Hrtc. assert (recv_inv s) as [Hlen Hinv].
  { eapply rtc_invariant; [exact recv_inv_step| |exact Hrtc].
    split; [simpl; lia|]. intros i. split; [constructor | done]. }
  split; [exact Hlen|]. intros i. destruct (Hinv i) as [_ Hsub]. etrans; [|exact Hsub].
  by apply sublist_inserts_r.
Qed.

(** Both pumps have delivered a frame and the reader took the first. *)
Lemma recv_queue_safe_witness :
  exists s, rs_out s = [(true, [1])] /\ rs_q s = [(false, [2])] /\ (length (rs_q s) <= 16)%nat.
Proof.
  assert (Hrun : rtc recv_step recv_init
    (mkRecvSys (set_pc false DIdle (set_pc true DIdle (set_pc false (DFirst (false, [2]))
      (set_pc true (DFirst (true, [1])) (fun _ => DIdle)))))
      [(false, [2])] [(true, [1]); (false, [2])] [(true, [1])])).
  { eapply rtc_l; [by apply (rs_receive true [1])|].
    eapply rtc_l; [by apply (rs_receive false [2])|].
    eapply rtc_l; [by eapply (rs_select true)|].
    eapply rtc_l; [by eapply (rs_select false)|].
    eapply rtc_l; [by eapply rs_take|]. reflexivity. }
  eexists. split; [|split]; [| |exact (proj1 (recv_queue_safe _ Hrun))]; reflexivity.
Defined.

(** ** The send path *)

Definition send_inv (s : SendSys) : Prop :=
  let t := ss_t s in
  (out_frame <$> ss_out s) ++ t_sendCh t = ss_accepted s /\
  (length (t_sendCh t) <= mediaSendCap)%nat /\
  t_pumps t = option_list (t_dconn t) /\
  (forall o c, o ∈ ss_out s -> out_conn o = Some c -> t_dconn t = Some c) /\
  t_outMedia t = true /\
  t_closed t = t_closeOnce t /\
  t_streams_closed t = (if t_closed t then 2 else 0)%nat.

Lemma sendPump_turn_frame t o t' : sendPump_turn t = Some (o, t') ->
  t_sendCh t = out_frame o :: t_sendCh t' /\ t' = set_sendCh (t_sendCh t') t /\
  forall c, out_conn o = Some c -> t_dconn t = Some c.
Proof.
  unfold sendPump_turn. destruct (t_closed t); [done|]. destruct (t_sendCh t); [done|].
  intros; simplify_eq/=. split; [|split; [done|]]; go_cases; intros; by simplify_eq/=.
Qed.

Lemma tryAttachDatagram_spec conns t t' a : tryAttachDatagram conns t = (t', a) ->
  (t' = t /\ (a = true -> is_Some (t_dconn t))) \/
  (t_dconn t = None /\ a = true /\ exists dc, findDatagramConn conns = Some dc /\
    t' = mkTransport (t_sendCh t) (t_recvCh t) (Some dc) (t_outMedia t) (t_pumps t ++ [dc])
             (t_closed t) (t_closeOnce t) (t_streams_closed t)).
Proof.
  unfold tryAttachDatagram. intros H. repeat case_match; simplify_eq; [left; by eauto | right; by eauto 10 | left; by split].
Qed.

Lemma send_inv_step s s' : send_inv s -> send_step s s' -> send_inv s'.
Proof.
  unfold send_inv. intros (Hacc & Hlen & Hp & Hc & Hm & Hcl & Hsc) Hstep.
  destruct Hstep as [b t acc out t' Hs|b t acc out t' Hs|t acc out o t' Hs|conns t acc out t' a Hs
    |b t acc out|d r t acc out t' Hs|c m t acc out t' e Hs]; simpl in *.
  - unfold SendMedia in Hs. case_decide; simplify_eq/=. split; [by rewrite app_assoc|].
    split; [rewrite length_app; simpl; lia|]. auto 10.
  - unfold SendMedia in Hs. case_decide; simplify_eq/=. auto 10.
  - apply sendPump_turn_frame in Hs as (Hq & -> & Ho). simpl. rewrite Hq in *. simpl in Hlen.
    split; [by rewrite fmap_app, <- app_assoc|]. split; [lia|]. split; [done|].
    split; [|done]. intros o' c [Ho'| ->%list_elem_of_singleton]%elem_of_app; eauto.
  - apply tryAttachDatagram_spec in Hs as [[-> _]|(Hd & _ & dc & _ & ->)]; [done|]; simpl.
    rewrite Hd in *. split; [done|]. split; [done|]. split; [by rewrite Hp|].
    split; [|done]. intros o' c Ho' Hoc. by specialize (Hc _ _ Ho' Hoc).
  - unfold deliverRecv. destruct (try_push b (t_recvCh t)) as [q []]; done.
  - destruct Hs; simpl; auto 10.
  - unfold Close in Hs. destruct (t_closeOnce t) eqn:Ho; simplify_eq/=; [by rewrite Ho in *; auto 10|].
    rewrite Hm, Hsc, Hcl. auto 10.
Qed.

Lemma send_inv_init : send_inv send_init.
Proof.
  unfold send_inv; simpl. split; [done|]. split; [lia|]. split; [done|]. split; [|done].
  intros o c Ho. by apply elem_of_nil in Ho.
Qed.

(** The send path in every run of the transport: each frame [SendMedia]
    accepted is handed to exactly one path, in order, or still queued (at most
    16 are); the datagram overlay is attached at most once — one datagram
    receive pump, and every datagram goes out on that connection — and the two
    outbound streams are closed exactly once however often [Close] runs. *)
Theorem send_path_correct s :
  rtc send_step send_init s ->
  (out_frame <$> ss_out s) ++ t_sendCh (ss_t s) = ss_accepted s /\
  (length (t_sendCh (ss_t s)) <= 16)%nat /\
  t_pumps (ss_t s) = option_list (t_dconn (ss_t s)) /\
  (forall o c, o ∈ ss_out s -> out_conn o = Some c -> t_dconn (ss_t s) = Some c) /\
  t_streams_closed (ss_t s) = (if t_closed (ss_t s) then 2 else 0)%nat.
Proof.
  intros Hrtc. assert (send_inv s) as (? & ? & ? & ? & ? & ? & ?).
  { eapply rtc_invariant; [exact send_inv_step | exact send_inv_init | exact Hrtc]. }
  auto 10.
Qed.

Lemma send_path_correct_witness :
  exists s, ss_out s = [OutStream [1]; OutDatagram 7 [2]] /\ ss_accepted s = [[1]; [2]] /\
    t_streams_closed (ss_t s) = 2%nat.
Proof.
  exists (mkSendSys (mkTransport [] [] (Some 7%nat) true [7%nat] true true 2)
    [[1]; [2]] [OutStream [1]; OutDatagram 7 [2]]).
  split; [reflexivity|]. split; [reflexivity|].
  refine (proj2 (proj2 (proj2 (proj2 (send_path_correct _ _))))).
  eapply rtc_l; [by apply (ss_send [1])|].
  eapply rtc_l; [by apply ss_pump|].
  eapply rtc_l; [by eapply (ss_attach [(3%nat, false); (7%nat, true)])|].
  eapply rtc_l; [by apply (ss_send [2])|].
  eapply rtc_l; [by apply ss_pump|].
  eapply rtc_l; [by eapply (ss_close false false)|].
  eapply rtc_l; [by eapply (ss_close false false)|]. reflexivity.
Defined.

(** The watcher stops with the overlay attached as soon as a tick sees a QUIC
    connection, and never starts a second pump. *)
Lemma datagramWatcher_attached conns evs t t' :
  datagramWatcher conns evs t = (t', Some true) -> is_Some (t_dconn t').
Proof.
  unfold datagramWatcher. generalize (WatchTick conns :: evs). clear conns evs. intros evs.
  revert t. induction evs as [|[|conns] evs IH]; intros t; simpl; try done.
  destruct (tryAttachDatagram conns t) as [t1 []] eqn:Ha; [|apply IH].
  intros; simplify_eq.
  apply tryAttachDatagram_spec in Ha as [[-> Hs]|(_ & _ & dc & _ & ->)]; eauto.
Qed.

(** ** The registry and the sample codec *)

Section registry_lemmas.
Context {Host Proto Peer : Type} `{Countable Host, Countable Proto, Countable Peer}.

Implicit Types (h : Host) (p : Proto) (q : Peer) (r : @Registry Host Proto Peer _ _ _ _ _ _).

Definition reg_ok r : Prop :=
  (forall h p q ch, reg_lookup r h p q = Some ch -> (ch < rg_next r)%nat) /\
  (forall h p q h' p' q' ch, reg_lookup r h p q = Some ch -> reg_lookup r h' p' q' = Some ch ->
    h = h' /\ p = p' /\ q = q').

(** Both branches write the same nested map. *)
Lemma inboundChan_map h p q r :
  rg_map (inboundChan h p q r).1 =
    <[h := <[p := <[q := (inboundChan h p q r).2]> (default ∅ (default ∅ (rg_map r !! h) !! p))]>
      (default ∅ (rg_map r !! h))]> (rg_map r).
Proof.
  unfold inboundChan.
  destruct (default ∅ (default ∅ (rg_map r !! h) !! p) !! q) eqn:Hl; simpl; [|done].
  by rewrite (insert_id _ q) by exact Hl.
Qed.

Lemma inboundChan_lookup h p q r h' p' q' :
  reg_lookup (inboundChan h p q r).1 h' p' q' =
    if decide (h = h' /\ p = p' /\ q = q') then Some (inboundChan h p q r).2
    else reg_lookup r h' p' q'.
Proof.
  unfold reg_lookup. rewrite inboundChan_map. generalize (inboundChan h p q r).2. intros ch.
  destruct (decide (h = h')) as [<-|Hh];
    [rewrite lookup_insert_eq; simpl | by rewrite lookup_insert_ne, decide_False by naive_solver].
  destruct (decide (p = p')) as [<-|Hp]; [rewrite lookup_insert_eq; simpl|].
  2: { rewrite lookup_insert_ne, decide_False by naive_solver.
       destruct (rg_map r !! h); simpl; [done | by rewrite lookup_empty]. }
  destruct (decide (q = q')) as [<-|Hq]; [by rewrite lookup_insert_eq, decide_True|].
  rewrite lookup_insert_ne, decide_False by naive_solver.
  destruct (rg_map r !! h) as [m|]; simpl; [|by rewrite !lookup_empty].
  destruct (m !! p); simpl; [done | by rewrite lookup_empty].
Qed.

Lemma inboundChan_next h p q r :
  ((inboundChan h p q r).2 < rg_next (inboundChan h p q r).1)%nat \/
  reg_lookup r h p q = Some (inboundChan h p q r).2.
Proof.
  unfold inboundChan, reg_lookup.
  destruct (default ∅ (default ∅ (rg_map r !! h) !! p) !! q) eqn:Hd; simpl; [right|left; lia].
  destruct (rg_map r !! h); simpl in *; [|by rewrite !lookup_empty in Hd].
  destruct (_ !! p); simpl in *; [done|by rewrite lookup_empty in Hd].
Qed.

Lemma inboundChan_fresh h p q r :
  (inboundChan h p q r).2 = rg_next r \/ reg_lookup r h p q = Some (inboundChan h p q r).2.
Proof.
  unfold inboundChan, reg_lookup.
  destruct (default ∅ (default ∅ (rg_map r !! h) !! p) !! q) eqn:Hd; simpl; [right|by left].
  destruct (rg_map r !! h); simpl in *; [|by rewrite !lookup_empty in Hd].
  destruct (_ !! p); simpl in *; [done|by rewrite lookup_empty in Hd].
Qed.

Lemma reg_lookup_empty n h p q : reg_lookup (mkRegistry (∅ : gmap Host (gmap Proto (gmap Peer nat))) n) h p q = None.
Proof. unfold reg_lookup. simpl. by rewrite lookup_empty. Qed.

Lemma inboundChan_ok h p q r : reg_ok r -> reg_ok (inboundChan h p q r).1.
Proof.
  intros [Hlt Hinj].
  assert (Hle : (rg_next r <= rg_next (inboundChan h p q r).1)%nat).
  { unfold inboundChan. case_match; simpl; lia. }
  assert (Hfresh : forall h' p' q', reg_lookup r h' p' q' = Some (inboundChan h p q r).2 ->
    h = h' /\ p = p' /\ q = q').
  { intros h' p' q' Hl. destruct (inboundChan_fresh h p q r) as [Hn|Hn]; [|eauto].
    apply Hlt in Hl. rewrite Hn in Hl. lia. }
  split.
  - intros h' p' q' ch. rewrite inboundChan_lookup. case_decide as Hd.
    + intros [= <-]. destruct (inboundChan_next h p q r) as [|Hl]; [done|].
      apply Hlt in Hl. lia.
    + intros Hl%Hlt. lia.
  - intros h1 p1 q1 h2 p2 q2 ch. rewrite !inboundChan_lookup.
    repeat case_decide; intros; simplify_eq; naive_solver.
Qed.

(** Any sequence of lookups by handlers and waiters. *)
Definition inbound_all (ks : list (Host * Proto * Peer)) r : Registry :=
  foldl (fun r '(h, p, q) => (inboundChan h p q r).1) r ks.

Lemma inbound_all_ok ks r : reg_ok r -> reg_ok (inbound_all ks r).
Proof.
  revert r. induction ks as [|[[h p] q] ks IH]; intros r Hr; [done|].
  simpl. by apply IH, inboundChan_ok.
Qed.

Lemma inbound_all_stable ks r h p q ch :
  reg_lookup r h p q = Some ch -> reg_lookup (inbound_all ks r) h p q = Some ch.
Proof.
  revert r. induction ks as [|[[h' p'] q'] ks IH]; intros r Hr; [done|].
  simpl. apply IH. rewrite inboundChan_lookup. case_decide as Hd; [|done].
  destruct Hd as (-> & -> & ->). rewrite <- Hr. unfold inboundChan, reg_lookup in *.
  destruct (rg_map r !! h); simpl in *; [|done]. destruct (_ !! p); simpl in *; [|done]. by rewrite Hr.
Qed.

Lemma inboundChan_inserted h p q r :
  reg_lookup (inboundChan h p q r).1 h p q = Some (inboundChan h p q r).2.
Proof. rewrite inboundChan_lookup. by rewrite decide_True. Qed.

Lemma inboundChan_existing h p q r ch :
  reg_lookup r h p q = Some ch -> (inboundChan h p q r).2 = ch.
Proof.
  unfold inboundChan, reg_lookup. intros Hl.
  destruct (rg_map r !! h); simpl in *; [|done]. destruct (_ !! p); simpl in *; [|done]. by rewrite Hl.
Qed.

(** Rendezvous of inbound streams: whatever lookups happened before and
    in between, the stream handler and the transport's wait loop get the same
    channel when they name the same host, protocol and peer, and different
    channels otherwise, in whichever order they come. *)
Theorem inboundChan_rendezvous ks1 ks2 h p q h' p' q' :
  let r1 := inboundChan h p q (inbound_all ks1 (mkRegistry ∅ 0)) in
  let r2 := inboundChan h' p' q' (inbound_all ks2 r1.1) in
  r1.2 = r2.2 <-> h = h' /\ p = p' /\ q = q'.
Proof.
  intros r1 r2.
  assert (Hok : reg_ok (inbound_all ks2 r1.1)).
  { apply inbound_all_ok, inboundChan_ok, inbound_all_ok.
    split; intros *; by rewrite reg_lookup_empty. }
  assert (Hl1 : reg_lookup (inbound_all ks2 r1.1) h p q = Some r1.2).
  { apply inbound_all_stable, inboundChan_inserted. }
  split.
  - intros Heq. apply inboundChan_ok with (h := h') (p := p') (q := q') in Hok as [_ Hinj].
    eapply Hinj; [|apply inboundChan_inserted]. rewrite inboundChan_lookup.
    case_decide; [done|]. rewrite Hl1. by f_equal.
  - intros (-> & -> & ->). symmetry. by apply inboundChan_existing.
Qed.

End registry_lemmas.

Definition is_int16 (s : Z) : Prop := - 2 ^ 15 <= s < 2 ^ 15.

Lemma uint16_le_put n : 0 <= n < 2 ^ 16 -> uint16_le (Z.land n 255) (Z.shiftr n 8) = n.
Proof.
  intros Hn. destruct (put_uint16_be_inv n Hn) as (hi & lo & Heq & Hv & _).
  injection Heq as <- <-. rewrite <- Hv at 3. apply Z.lor_comm.
Qed.

Lemma put_uint16_le_get b0 b1 : is_byte b0 -> is_byte b1 ->
  put_uint16_le (uint16_le b0 b1) = [b0; b1].
Proof.
  unfold is_byte, put_uint16_le, uint16_le. intros H0 H1.
  assert (Heq : Z.lor b0 (Z.shiftl b1 8) = b0 + b1 * 2 ^ 8).
  { rewrite Z.lor_comm, lor_shiftl_add by lia. lia. }
  rewrite Heq. change 255 with (Z.ones 8).
  rewrite Z.land_ones, Z.shiftr_div_pow2 by lia. change (2 ^ 8) with 256.
  rewrite Z.div_add, Z.mod_add, Z.div_small, Z.mod_small by lia. done.
Qed.

Lemma swrap_wrap w x : 0 < w -> swrap w (wrap w x) = swrap w x.
Proof. intros. unfold swrap, wrap. by rewrite Zplus_mod_idemp_l. Qed.

Lemma wrap_swrap w x : 0 < w -> wrap w (swrap w x) = wrap w x.
Proof.
  intros. unfold swrap, wrap. rewrite Zminus_mod_idemp_l. f_equal. lia.
Qed.

Lemma int16ToBytesLE_cons s l : int16ToBytesLE (s :: l) = put_uint16_le (wrap 16 s) ++ int16ToBytesLE l.
Proof. done. Qed.

Lemma int16ToBytesLE_nil : int16ToBytesLE [] = [].
Proof. done. Qed.
#[local] Opaque int16ToBytesLE.

(** The PCM sample codec is a bijection between int16 samples and byte
    strings of even length: decoding what was encoded gives the samples back
    (two bytes per sample), and encoding what was decoded gives the bytes. *)
Theorem int16LE_roundtrip samples b :
  Forall is_int16 samples -> Forall is_byte b -> Nat.even (length b) = true ->
  bytesToInt16LE (int16ToBytesLE samples) = samples /\
  length (int16ToBytesLE samples) = (2 * length samples)%nat /\
  int16ToBytesLE (bytesToInt16LE b) = b /\ Forall is_int16 (bytesToInt16LE b).
Proof.
  intros Hs Hb Heven.
  assert (forall n b, (length b <= n)%nat -> Forall is_byte b -> Nat.even (length b) = true ->
    int16ToBytesLE (bytesToInt16LE b) = b /\ Forall is_int16 (bytesToInt16LE b)) as Hdec.
  { clear. induction n as [|n IH]; intros [|b0 [|b1 b]] Hlen Hb Heven; simpl in *;
      try (split; [apply int16ToBytesLE_nil | constructor]); try done; try lia.
    inversion Hb as [|?? H0 Hb']; subst. inversion Hb' as [|?? H1 Hb'']; subst.
    destruct (IH b) as [IH1 IH2]; [lia|done|done|]. split.
    - rewrite int16ToBytesLE_cons, wrap_swrap, IH1 by lia.
      rewrite wrap_small; [by rewrite put_uint16_le_get|].
      assert (Hle := put_uint16_le_get b0 b1 H0 H1).
      unfold put_uint16_le in Hle. injection Hle as Hl Hh.
      rewrite Z.shiftr_div_pow2 in Hh by lia. unfold is_byte in *.
      pose proof (Z.div_mod (uint16_le b0 b1) (2 ^ 8) ltac:(lia)).
      pose proof (Z.mod_pos_bound (uint16_le b0 b1) (2 ^ 8) ltac:(lia)). lia.
    - constructor; [|done]. apply (swrap_range 16). lia. }
  split; [|split; [|by eapply Hdec]]; clear Hdec Hb Heven.
  - induction Hs as [|s l Hs' _ IH]; [by rewrite int16ToBytesLE_nil|]. rewrite int16ToBytesLE_cons. simpl.
    rewrite IH, uint16_le_put by (apply (wrap_range 16); lia).
    rewrite swrap_wrap, swrap_small by (unfold is_int16 in Hs'; lia). done.
  - clear Hs. induction samples as [|s l IH]; [by rewrite int16ToBytesLE_nil|].
    rewrite int16ToBytesLE_cons, length_app, IH. simpl. lia.
Qed.

#[local] Transparent int16ToBytesLE.

Lemma int16LE_roundtrip_witness :
  bytesToInt16LE (int16ToBytesLE [-32768; -1; 0; 32767]) = [-32768; -1; 0; 32767] /\
  int16ToBytesLE (bytesToInt16LE [0; 128; 255; 255]) = [0; 128; 255; 255].
Proof.
  assert (Hs : Forall is_int16 [-32768; -1; 0; 32767]) by (unfold is_int16; repeat constructor; lia).
  assert (Hb : Forall is_byte [0; 128; 255; 255]) by (unfold is_byte; repeat constructor; lia).
  destruct (int16LE_roundtrip _ _ Hs Hb eq_refl) as (H1 & _ & H2 & _).
  split; [exact H1 | exact H2].
Defined.
