(* ===== verification/CallManager.v ===== *)
(** * The call registry ([internal/call/manager.go])

    [Manager] maps call ids to session objects, publishes inbound sessions,
    and forwards every session's state changes to the manager-level
    subscribers through one goroutine per registered session. Session objects
    are shared (the engine, the IPC handlers and the forwarders hold the same
    pointer), so they live in a store indexed by location. [mop] lists the
    atomic steps the goroutines interleave. *)
From S2P Require Import Prelude GoChan CallSession.
#[local] Open Scope string_scope.

(** ** State *)

(** A goroutine spawned by [Register]. *)
Record Forwarder := mkForwarder {
  f_sess : nat;
  f_subID : nat;
  f_ch : nat }.

Record Manager := mkManager {
  m_sessions : gmap string nat;          (* id -> session object *)
  m_inbound : Chan nat;
  m_subs : list nat;                     (* subscriber channels, in order *)
  m_chans : list (Chan StateChange);     (* the heap of those channels *)
  m_store : list Session;                (* session objects, by pointer *)
  m_forwarders : list Forwarder;
  m_pending : list (nat * StateChange);  (* committed, not yet broadcast *)
  m_log : list (nat * nat * StateChange) (* forwarded events, by forwarder *) }.

Definition NewManager : Manager := mkManager ∅ (make_chan 16) [] [] [] [] [] [].

Definition set_sessions x m := mkManager x (m_inbound m) (m_subs m) (m_chans m) (m_store m)
  (m_forwarders m) (m_pending m) (m_log m).
Definition set_inbound x m := mkManager (m_sessions m) x (m_subs m) (m_chans m) (m_store m)
  (m_forwarders m) (m_pending m) (m_log m).
Definition set_subs x y m := mkManager (m_sessions m) (m_inbound m) x y (m_store m)
  (m_forwarders m) (m_pending m) (m_log m).
Definition set_store x m := mkManager (m_sessions m) (m_inbound m) (m_subs m) (m_chans m) x
  (m_forwarders m) (m_pending m) (m_log m).
Definition set_forwarders x m := mkManager (m_sessions m) (m_inbound m) (m_subs m) (m_chans m)
  (m_store m) x (m_pending m) (m_log m).
Definition set_pending x m := mkManager (m_sessions m) (m_inbound m) (m_subs m) (m_chans m)
  (m_store m) (m_forwarders m) x (m_log m).
Definition log_event x m := mkManager (m_sessions m) (m_inbound m) (m_subs m) (m_chans m)
  (m_store m) (m_forwarders m) (m_pending m) ((m_log m ++ [x])%list).

(** ** Operations; [None] is a panic *)

(** Allocation of a session object by [NewSession]. *)
Definition alloc_session (s : Session) (m : Manager) : Manager * nat :=
  (set_store (m_store m ++ [s]) m, length (m_store m)).

Definition Register (r : nat) (m : Manager) : option Manager :=
  s ← m_store m !! r;
  match m_sessions m !! s_id s with
  | Some _ => Some m
  | None =>
      let m := set_sessions (<[s_id s := r]> (m_sessions m)) m in
      let '(s', subID, ch) := Subscribe s in
      let m := set_store (<[r := s']> (m_store m)) m in
      let m := set_forwarders (m_forwarders m ++ [mkForwarder r subID ch]) m in
      match s_direction s with
      | Inbound => c ← try_send (m_inbound m) r; Some (set_inbound c m)
      | Outbound => Some m
      end
  end.

Definition Get (id : string) (m : Manager) : option nat := m_sessions m !! id.

(** [List]: the sessions, by [ID()], in map order and then sorted. *)
Definition sessions_by_ID (m : Manager) : list (string * nat) :=
  omap (fun '(_, r) => s ← m_store m !! r; Some (s_id s, r)) (map_to_list (m_sessions m)).

Definition List_ (m : Manager) : list (string * nat) := sort_by_key (sessions_by_ID m).

Definition Remove (id : string) (m : Manager) : Manager :=
  set_sessions (delete id (m_sessions m)) m.

Definition SubscribeStateChanges (m : Manager) : Manager * nat :=
  let l := length (m_chans m) in
  (set_subs (m_subs m ++ [l]) (m_chans m ++ [make_chan 32]) m, l).

Definition UnsubscribeStateChanges (ch : nat) (m : Manager) : option Manager :=
  match find_index (Nat.eqb ch) (m_subs m) with
  | None => Some m
  | Some i =>
      chans ← close_at (m_chans m) ch;
      Some (set_subs (take i (m_subs m) ++ drop (S i) (m_subs m)) chans m)
  end.

Definition fanout (ev : StateChange) (m : Manager) : option Manager :=
  chans ← send_all (m_chans m) (m_subs m) ev;
  Some (set_subs (m_subs m) chans m).

(** The forwarder's deferred [Unsubscribe] and its exit. *)
Definition forwarder_exit (i : nat) (f : Forwarder) (m : Manager) : option Manager :=
  s ← m_store m !! f_sess f;
  s' ← Unsubscribe (f_subID f) s;
  Some (set_forwarders (delete i (m_forwarders m)) (set_store (<[f_sess f := s']> (m_store m)) m)).

(** One turn of forwarder [i]'s [for ev := range ch]. *)
Definition forwarder_turn (i : nat) (m : Manager) : option Manager :=
  match m_forwarders m !! i with
  | None => Some m
  | Some f =>
      s ← m_store m !! f_sess f;
      c ← heap (s_hub s) !! f_ch f;
      match recv c with
      | RecvBlocks => Some m
      | RecvClosed => forwarder_exit i f m
      | RecvValue ev c' =>
          let h := s_hub s in
          let s' := set_hub (mkHub (subs h) (nextID h) (<[f_ch f := c']> (heap h))) s in
          let m := set_store (<[f_sess f := s']> (m_store m)) m in
          m ← fanout ev m;
          m ← (if String.eqb (ev_State ev) (State_String StateEnded)
               then forwarder_exit i f m else Some m);
          Some (log_event (f_sess f, f_subID f, ev) m)
      end
  end.

(** ** The interleaving *)

Inductive mop :=
| MNew (id remote : string) (dir : Direction) (now : Z)
| MRegister (r : nat)
| MRemove (id : string)
| MSubscribe
| MUnsubscribe (ch : nat)
| MTransition (r : nat) (target : State) (now : Z)
| MEnd (r : nat) (reason : string) (now : Z)
| MBroadcast (k : nat)                    (* one pending broadcast runs *)
| MForward (i : nat)
| MSessSubscribe (r : nat)                (* another subscriber of the session *)
| MSessUnsubscribe (r id : nat)
| MRecv (ch : nat)                        (* a manager-level subscriber reads *)
| MInbound.                               (* the consumer of Inbound() reads *)

(** Applies [f] to session object [r]; there is no step on a pointer that was
    never allocated. *)
Definition with_session (r : nat) (f : Session -> option Session) (m : Manager) : option Manager :=
  match m_store m !! r with
  | None => Some m
  | Some s => s' ← f s; Some (set_store (<[r := s']> (m_store m)) m)
  end.

Definition commit (r : nat) (o : option (Session * StateChange)) (m : Manager) : Manager :=
  match o with
  | None => m
  | Some (s', ev) => set_pending (m_pending m ++ [(r, ev)]) (set_store (<[r := s']> (m_store m)) m)
  end.

Definition result_option {E A} (r : result E A) : option A :=
  match r with Ok a => Some a | Err _ => None end.

Definition mgr_do (o : mop) (m : Manager) : option Manager :=
  match o with
  | MNew id remote dir now => Some (alloc_session (NewSession id remote dir now) m).1
  | MRegister r => if decide (r < length (m_store m)) then Register r m else Some m
  | MRemove id => Some (Remove id m)
  | MSubscribe => Some (SubscribeStateChanges m).1
  | MUnsubscribe ch => UnsubscribeStateChanges ch m
  | MTransition r target now =>
      match m_store m !! r with
      | None => Some m
      | Some s => Some (commit r (result_option (transition_commit target "" now s)) m)
      end
  | MEnd r reason now =>
      match m_store m !! r with
      | None => Some m
      | Some s => Some (commit r (End_commit reason now s) m)
      end
  | MBroadcast k =>
      match m_pending m !! k with
      | None => Some m
      | Some (r, ev) => with_session r (broadcast ev) (set_pending (delete k (m_pending m)) m)
      end
  | MForward i => forwarder_turn i m
  | MSessSubscribe r => with_session r (fun s => Some (Subscribe s).1.1) m
  | MSessUnsubscribe r id => with_session r (Unsubscribe id) m
  | MRecv ch =>
      match m_chans m !! ch with
      | None => Some m
      | Some c => match recv c with
                  | RecvValue _ c' => Some (set_subs (m_subs m) (<[ch := c']> (m_chans m)) m)
                  | _ => Some m
                  end
      end
  | MInbound => match recv (m_inbound m) with
                | RecvValue _ c' => Some (set_inbound c' m)
                | _ => Some m
                end
  end.

Fixpoint mgr_run (os : list mop) (m : Manager) : option Manager :=
  match os with
  | [] => Some m
  | o :: os => m ← mgr_do o m; mgr_run os m
  end.

(** ** Invariant *)

Definition fwd_key (f : Forwarder) : nat * nat := (f_sess f, f_subID f).
Definition is_ended (ev : StateChange) : Prop := ev_State ev = State_String StateEnded.

Record manager_ok (m : Manager) : Prop := {
  mo_store : Forall session_ok (m_store m);
  mo_sess : ∀ id r, m_sessions m !! id = Some r -> ∃ s, m_store m !! r = Some s ∧ s_id s = id;
  mo_subs : NoDup (m_subs m);
  mo_open : ∀ l, l ∈ m_subs m -> open_at (m_chans m) l;
  mo_caps : Forall chan_ok (m_chans m);
  mo_inbound : ch_closed (m_inbound m) = false ∧ chan_ok (m_inbound m) ∧ ch_cap (m_inbound m) = 16;
  mo_fwd : ∀ f, f ∈ m_forwarders m -> ∃ s, m_store m !! f_sess f = Some s ∧
             f_ch f < length (heap (s_hub s)) ∧ f_subID f < nextID (s_hub s);
  mo_keys : NoDup (fwd_key <$> m_forwarders m);
  mo_log : ∀ k ev, (k, ev) ∈ m_log m -> ∃ s, m_store m !! k.1 = Some s ∧ k.2 < nextID (s_hub s);
  mo_done : ∀ k ev, (k, ev) ∈ m_log m -> is_ended ev -> k ∉ fwd_key <$> m_forwarders m;
  mo_last : ∀ l1 l2 k ev ev', m_log m = (l1 ++ (k, ev) :: l2)%list -> is_ended ev -> (k, ev') ∉ l2 }.

(** What a step on a session object may change. *)
Definition sess_le (s s' : Session) : Prop :=
  session_ok s' ∧ s_id s' = s_id s ∧ (s_direction s' = s_direction s ∧ s_remote s' = s_remote s) ∧
  length (heap (s_hub s)) <= length (heap (s_hub s')) ∧ nextID (s_hub s) <= nextID (s_hub s').

Lemma manager_ok_store m r s s' :
  manager_ok m -> m_store m !! r = Some s -> sess_le s s' ->
  manager_ok (set_store (<[r := s']> (m_store m)) m).
Proof.
  intros [] Hr (Hok & Hid & _ & Hlen & Hnext).
  assert (Hlk : ∀ r0 s0, m_store m !! r0 = Some s0 ->
    ∃ s1, <[r:=s']> (m_store m) !! r0 = Some s1 ∧ s_id s1 = s_id s0 ∧
      length (heap (s_hub s0)) <= length (heap (s_hub s1)) ∧ nextID (s_hub s0) <= nextID (s_hub s1)).
  { intros r0 s0 Hr0. destruct (decide (r0 = r)) as [->|].
    - simplify_eq. exists s'. split; [|auto]. apply list_lookup_insert_eq. by eapply lookup_lt_Some.
    - exists s0. split; [by rewrite list_lookup_insert_ne|]. auto. }
  constructor; simpl; try done.
  - by apply Forall_insert.
  - intros id r0 (s0 & Hs0 & <-)%mo_sess0. destruct (Hlk _ _ Hs0) as (s1 & ? & ? & _). eauto.
  - intros f (s0 & Hs0 & ? & ?)%mo_fwd0. destruct (Hlk _ _ Hs0) as (s1 & ? & _ & ? & ?).
    exists s1. split; [done|]. lia.
  - intros k ev (s0 & Hs0 & ?)%mo_log0. destruct (Hlk _ _ Hs0) as (s1 & ? & _ & ? & ?).
    exists s1. split; [done|]. lia.
Qed.

(** *** The steps on one session object *)

Lemma close_at_length {A} (h h' : list (Chan A)) l : close_at h l = Some h' -> length h' = length h.
Proof.
  unfold close_at. intros (c & _ & (c' & _ & [= <-])%bind_Some)%bind_Some. apply length_insert.
Qed.

Lemma send_all_length {A} (h h' : list (Chan A)) ls v :
  send_all h ls v = Some h' -> length h' = length h.
Proof.
  revert h. induction ls as [|l ls IH]; simpl; intros h; [by intros [= <-]|].
  intros (h1 & Hs & ->%IH)%bind_Some. unfold send_at in Hs.
  apply bind_Some in Hs as (c & _ & (c' & _ & [= <-])%bind_Some). apply length_insert.
Qed.

Lemma broadcast_sess_le ev s :
  session_ok s -> ∃ s', broadcast ev s = Some s' ∧ sess_le s s'.
Proof.
  intros Hok. destruct (broadcast_ok ev s Hok) as (s' & Hb & Hok' & Heq & _).
  exists s'. split; [done|]. unfold broadcast, hub_broadcast, hub_broadcast_in in Hb.
  apply bind_Some in Hb as (h & (hs & Hs%send_all_length & [= <-])%bind_Some & [= <-]).
  split; [done|]. simpl. rewrite Hs. auto.
Qed.

Lemma Subscribe_sess_le s : session_ok s -> sess_le s (Subscribe s).1.1.
Proof.
  intros Hok. split; [by apply Subscribe_ok|]. simpl. rewrite length_app. simpl. repeat split; lia.
Qed.

Lemma Unsubscribe_sess_le id s :
  session_ok s -> ∃ s', Unsubscribe id s = Some s' ∧ sess_le s s'.
Proof.
  intros Hok. destruct (Unsubscribe_ok id s Hok) as (s' & Hu & Hok' & _).
  exists s'. split; [done|]. unfold Unsubscribe, hub_unsubscribe in Hu.
  apply bind_Some in Hu as (h & Hh & [= <-]). split; [done|]. simpl.
  case_match; simplify_eq; [|auto].
  apply bind_Some in Hh as (hs & Hs%close_at_length & [= <-]). simpl. rewrite Hs. auto.
Qed.

Lemma state_sess_le st reason s : session_ok s -> sess_le s (set_state st reason s).
Proof. intros Hok. split; [exact Hok|]. auto. Qed.

(** The forwarder's receive from its own channel. *)
Lemma recv_sess_le s l c c' v :
  session_ok s -> heap (s_hub s) !! l = Some c -> recv c = RecvValue v c' ->
  sess_le s (set_hub (mkHub (subs (s_hub s)) (nextID (s_hub s)) (<[l := c']> (heap (s_hub s)))) s).
Proof.
  intros [Hopen Hinj Hfresh Hcaps] Hl Hrecv. split; [|simpl; by rewrite length_insert].
  unfold recv in Hrecv. destruct (ch_buf c) as [|v' buf] eqn:Hb; [by destruct (ch_closed c)|].
  simplify_eq. constructor; simpl; try done.
  - intros id l' Hid. destruct (decide (l' = l)) as [->|].
    + destruct (Hopen _ _ Hid) as (c0 & ? & ?). simplify_eq.
      eexists. split; [apply list_lookup_insert_eq; by eapply lookup_lt_Some | done].
    + apply open_at_insert_ne; eauto.
  - apply Forall_insert; [done|]. eapply Forall_lookup_1 in Hcaps; [|done].
    unfold chan_ok in *. rewrite Hb in Hcaps. simpl in *. lia.
Qed.

(** *** The manager's own steps *)

Lemma with_session_ok r f m :
  manager_ok m -> (∀ s, session_ok s -> ∃ s', f s = Some s' ∧ sess_le s s') ->
  ∃ m', with_session r f m = Some m' ∧ manager_ok m'.
Proof.
  intros Hm Hf. unfold with_session. destruct (m_store m !! r) as [s|] eqn:Hr; [|eauto].
  assert (session_ok s) as Hs by (destruct Hm; by eapply Forall_lookup_1).
  destruct (Hf s Hs) as (s' & -> & Hle). eexists. split; [done|]. by eapply manager_ok_store.
Qed.

Lemma commit_ok r s o m :
  manager_ok m -> m_store m !! r = Some s ->
  (∀ s' ev, o = Some (s', ev) -> ∃ st reason, s' = set_state st reason s) ->
  manager_ok (commit r o m).
Proof.
  intros Hm Hr Ho. destruct o as [[s' ev]|]; [|done]. destruct (Ho s' ev eq_refl) as (st & reason & ->).
  assert (session_ok s) as Hs by (destruct Hm; by eapply Forall_lookup_1).
  destruct (manager_ok_store m r s _ Hm Hr (state_sess_le st reason s Hs)). by constructor.
Qed.

Lemma alloc_session_ok s m : manager_ok m -> session_ok s -> manager_ok (alloc_session s m).1.
Proof.
  intros [] Hs. constructor; simpl; try done.
  - apply Forall_app. split; [done|]. by apply Forall_singleton.
  - intros id r (s0 & Hs0 & ?)%mo_sess0. exists s0. split; [|done]. by apply lookup_app_l_Some.
  - intros f (s0 & Hs0 & ?)%mo_fwd0. exists s0. split; [|done]. by apply lookup_app_l_Some.
  - intros k ev (s0 & Hs0 & ?)%mo_log0. exists s0. split; [|done]. by apply lookup_app_l_Some.
Qed.

Lemma Remove_ok id m : manager_ok m -> manager_ok (Remove id m).
Proof.
  intros []. constructor; simpl; try done.
  intros id' r [_ Hr]%lookup_delete_Some. eauto.
Qed.

Lemma SubscribeStateChanges_ok m : manager_ok m -> manager_ok (SubscribeStateChanges m).1.
Proof.
  intros []. constructor; simpl; try done.
  - apply NoDup_app. split; [done|]. split; [|apply NoDup_singleton].
    intros l Hl ->%list_elem_of_singleton. apply mo_open0, open_at_lt in Hl. lia.
  - intros l [Hl| ->%list_elem_of_singleton]%elem_of_app; [by apply open_at_app, mo_open0|].
    eexists. split; [by apply list_lookup_middle|done].
  - apply Forall_app. split; [done|]. apply Forall_singleton, make_chan_ok.
Qed.

(** Removing the subscriber at the found index is filtering it out. *)
Lemma UnsubscribeStateChanges_spec ch m :
  manager_ok m ->
  ∃ m', UnsubscribeStateChanges ch m = Some m' ∧ manager_ok m' ∧
    m_subs m' = filter (fun l => l ≠ ch) (m_subs m).
Proof.
  intros Hm. unfold UnsubscribeStateChanges.
  destruct (find_index (Nat.eqb ch) (m_subs m)) as [i|] eqn:Hi.
  - apply find_index_Some in Hi as ((x & Hx & ->%Nat.eqb_eq) & _).
    apply list_elem_of_split_length in Hx as (l1 & l2 & Hl & ->).
    destruct Hm as [? ? Hnd Hopen Hcaps]. rewrite Hl in *.
    destruct (close_at_open (m_chans m) x) as (c & Hc & ->); [apply Hopen; set_solver|].
    simpl. eexists. split; [done|]. rewrite take_drop_middle, filter_ne_middle by done.
    split; [|done]. apply NoDup_app in Hnd as (Hnd1 & Hdis & [Hx2 Hnd2]%NoDup_cons).
    constructor; simpl; try done.
    + apply NoDup_app. split; [done|]. split; [|done]. set_solver.
    + intros l Hin. apply open_at_insert_ne; [|apply Hopen; set_solver].
      intros ->. apply elem_of_app in Hin as [?|?]; [|done]. eapply Hdis; [done|]. left.
    + apply Forall_insert; [done|]. apply (Forall_lookup_1 _ _ _ _ Hcaps Hc).
  - eexists. split; [done|]. split; [done|]. symmetry. apply filter_all, Forall_forall.
    intros l Hl ->. rewrite find_index_None in Hi. apply Hi in Hl.
    by rewrite Nat.eqb_refl in Hl.
Qed.

Lemma send_all_closed {A} (h h' : list (Chan A)) ls v l :
  send_all h ls v = Some h' -> open_at h l -> open_at h' l.
Proof.
  revert h. induction ls as [|l0 ls IH]; simpl; intros h; [by intros [= <-]|].
  intros (h1 & Hs & Hrest)%bind_Some Ho. eapply IH; [exact Hrest|].
  unfold send_at in Hs. apply bind_Some in Hs as (c & Hc & (c' & Ht & [= <-])%bind_Some).
  unfold try_send in Ht. destruct (decide (l = l0)) as [->|]; [|by apply open_at_insert_ne].
  destruct Ho as (c0 & ? & Hcl). simplify_eq. rewrite Hcl in Ht.
  eexists. split; [apply list_lookup_insert_eq; by eapply lookup_lt_Some|].
  by case_decide; simplify_eq.
Qed.

Lemma fanout_spec ev m :
  manager_ok m ->
  ∃ chans, fanout ev m = Some (set_subs (m_subs m) chans m) ∧
    manager_ok (set_subs (m_subs m) chans m) ∧
    (∀ l, l ∈ m_subs m -> chans !! l = pushed ev <$> m_chans m !! l) ∧
    (∀ l, l ∉ m_subs m -> chans !! l = m_chans m !! l).
Proof.
  intros Hm. unfold fanout.
  destruct (send_all_spec (m_chans m) (m_subs m) ev) as (chans & Hs & Hlen & Hin & Hout);
    [by destruct Hm..|].
  exists chans. rewrite Hs. split; [done|]. split; [|done].
  destruct Hm. constructor; simpl; try done.
  - intros l Hl. eapply send_all_closed; eauto.
  - apply Forall_lookup. intros l c Hl. destruct (decide (l ∈ m_subs m)) as [Hl'|Hl'].
    + rewrite Hin in Hl by done. apply fmap_Some in Hl as (c0 & Hc0 & ->).
      apply pushed_ok. by eapply (Forall_lookup_1 _ _ _ _ mo_caps0).
    + rewrite Hout in Hl by done. by eapply (Forall_lookup_1 _ _ _ _ mo_caps0).
Qed.

Lemma forwarder_exit_spec i f m :
  manager_ok m -> m_forwarders m !! i = Some f ->
  ∃ m', forwarder_exit i f m = Some m' ∧ manager_ok m' ∧
    m_forwarders m' = delete i (m_forwarders m) ∧ m_log m' = m_log m ∧
    m_subs m' = m_subs m ∧ m_chans m' = m_chans m ∧
    (∃ s, m_store m' !! f_sess f = Some s ∧ f_subID f < nextID (s_hub s)).
Proof.
  intros Hm Hi. unfold forwarder_exit.
  destruct (mo_fwd _ Hm f) as (s & Hs & _ & Hid); [by eapply list_elem_of_lookup_2|].
  rewrite Hs. simpl. assert (session_ok s) as Hok by (destruct Hm; by eapply Forall_lookup_1).
  destruct (Unsubscribe_sess_le (f_subID f) s Hok) as (s' & -> & Hle). simpl.
  eexists. split; [done|]. split.
  2: { repeat split. exists s'. simpl. split; [|destruct Hle as (_ & _ & _ & _ & ?); lia].
       apply list_lookup_insert_eq. by eapply lookup_lt_Some. }
  destruct (manager_ok_store _ _ _ _ Hm Hs Hle). constructor; simpl in *; try done.
  - intros f' Hf'. apply mo_fwd0. eapply elem_of_sublist; [exact Hf'|]. apply sublist_delete.
  - eapply sublist_NoDup; [exact mo_keys0|]. apply fmap_sublist, sublist_delete.
  - intros k ev Hk He Hin. eapply mo_done0; eauto. eapply elem_of_sublist; [exact Hin|].
    apply fmap_sublist, sublist_delete.
Qed.

Lemma not_active_after_delete i f fs :
  NoDup (fwd_key <$> fs) -> fs !! i = Some f -> fwd_key f ∉ fwd_key <$> delete i fs.
Proof.
  intros Hnd Hi. destruct (list_elem_of_split_length _ _ _ Hi) as (l1 & l2 & -> & ->).
  rewrite delete_middle. rewrite fmap_app, fmap_cons in Hnd.
  apply NoDup_app in Hnd as (_ & Hdis & [Hn _]%NoDup_cons).
  rewrite fmap_app, elem_of_app. intros [Hin|?]; [|done].
  eapply Hdis; [exact Hin|]. left.
Qed.

(** Logging an event of an active forwarder, and the ended event of one that
    has just left. *)
Lemma log_event_ok i f ev m :
  manager_ok m -> m_forwarders m !! i = Some f -> ¬ is_ended ev ->
  manager_ok (log_event (fwd_key f, ev) m).
Proof.
  intros [] Hi Hev. assert (f ∈ m_forwarders m) as Hf by (by eapply list_elem_of_lookup_2).
  constructor; simpl; try done.
  - intros k ev' [Hk|Hk%list_elem_of_singleton]%elem_of_app; [by eauto|]. simplify_eq.
    destruct (mo_fwd0 f Hf) as (s & ? & _ & ?). eauto.
  - intros k ev' [Hk|Hk%list_elem_of_singleton]%elem_of_app He; [by eauto|]. by simplify_eq.
  - intros l1 l2 k ev1 ev2 Hl He Hin. destruct l2 as [|x l2 _] using rev_ind; [by apply elem_of_nil in Hin|].
    rewrite app_comm_cons, app_assoc in Hl. apply app_inj_tail in Hl as [Hl <-].
    apply elem_of_app in Hin as [Hin|Hin%list_elem_of_singleton]; [by eapply mo_last0|].
    simplify_eq. eapply mo_done0; [|exact He|apply list_elem_of_fmap; eauto].
    rewrite Hl. set_solver.
Qed.

Lemma log_event_exit_ok i f ev m m' :
  manager_ok m -> manager_ok m' -> m_forwarders m !! i = Some f ->
  m_forwarders m' = delete i (m_forwarders m) -> m_log m' = m_log m ->
  (∃ s, m_store m' !! f_sess f = Some s ∧ f_subID f < nextID (s_hub s)) ->
  manager_ok (log_event (fwd_key f, ev) m').
Proof.
  intros [] [] Hi Hfw Hlog Hnew. constructor; simpl; try done.
  - rewrite Hlog. intros k ev' [Hk|Hk%list_elem_of_singleton]%elem_of_app; [|by simplify_eq].
    apply (mo_log1 k ev'). by rewrite Hlog.
  - rewrite Hlog, Hfw. intros k ev' [Hk|Hk%list_elem_of_singleton]%elem_of_app He.
    + intros Hin. eapply mo_done0; eauto. eapply elem_of_sublist; [exact Hin|].
      apply fmap_sublist, sublist_delete.
    + simplify_eq. by apply not_active_after_delete.
  - rewrite Hlog. intros l1 l2 k ev1 ev2 Hl He Hin.
    destruct l2 as [|x l2 _] using rev_ind; [by apply elem_of_nil in Hin|].
    rewrite app_comm_cons, app_assoc in Hl. apply app_inj_tail in Hl as [Hl <-].
    apply elem_of_app in Hin as [Hin|Hin%list_elem_of_singleton]; [by eapply mo_last0|].
    simplify_eq. eapply mo_done0; [|exact He|apply list_elem_of_fmap; exists f; split; [done|by eapply list_elem_of_lookup_2]].
    rewrite Hl. set_solver.
Qed.

(** What the subscribers' channels become when one event is fanned out. *)
Definition fanned (ev : StateChange) (m m' : Manager) : Prop :=
  m_subs m' = m_subs m ∧
  (∀ l, l ∈ m_subs m -> m_chans m' !! l = pushed ev <$> m_chans m !! l) ∧
  (∀ l, l ∉ m_subs m -> m_chans m' !! l = m_chans m !! l).

Lemma forwarder_turn_value i f s c ev c' m :
  manager_ok m -> m_forwarders m !! i = Some f -> m_store m !! f_sess f = Some s ->
  heap (s_hub s) !! f_ch f = Some c -> recv c = RecvValue ev c' ->
  ∃ m', forwarder_turn i m = Some m' ∧ manager_ok m' ∧ fanned ev m m' ∧
    m_log m' = (m_log m ++ [(fwd_key f, ev)])%list ∧
    (is_ended ev -> m_forwarders m' = delete i (m_forwarders m)) ∧
    (¬ is_ended ev -> m_forwarders m' = m_forwarders m ∧ ∃ s', m_store m' !! f_sess f = Some s' ∧
       heap (s_hub s') !! f_ch f = Some c').
Proof.
  intros Hm Hi Hs Hc Hr. unfold forwarder_turn. rewrite Hi, Hs. simpl. rewrite Hc. simpl. rewrite Hr.
  assert (session_ok s) as Hok by (destruct Hm; by eapply Forall_lookup_1).
  pose proof (manager_ok_store _ _ _ _ Hm Hs (recv_sess_le s _ _ _ _ Hok Hc Hr)) as Hm1.
  set (s' := set_hub _ s) in *.
  destruct (fanout_spec ev _ Hm1) as (chans & -> & Hm2 & Hin & Hout).
  cbn [mbind option_bind].
  destruct (String.eqb_spec (ev_State ev) "ended") as [He|He].
  - destruct (forwarder_exit_spec i f _ Hm2 Hi) as (m3 & -> & Hm3 & Hfw & Hlog & Hsub & Hch & Hnew).
    simpl. eexists. split; [done|]. split; [by apply (log_event_exit_ok i f ev _ _ Hm2 Hm3)|].
    split; [unfold fanned; simpl; rewrite Hsub, Hch; exact (conj eq_refl (conj Hin Hout))|].
    split; [simpl; by rewrite Hlog|]. split; [done|]. by intros [].
  - eexists. split; [done|]. split; [by apply (log_event_ok i f)|].
    split; [exact (conj eq_refl (conj Hin Hout))|].
    split; [done|]. split; [done|]. intros _. split; [done|]. simpl.
    exists s'. split; [apply list_lookup_insert_eq; by eapply lookup_lt_Some|].
    apply list_lookup_insert_eq. by eapply lookup_lt_Some.
Qed.

Lemma forwarder_turn_ok i m : manager_ok m -> ∃ m', forwarder_turn i m = Some m' ∧ manager_ok m'.
Proof.
  intros Hm. destruct (m_forwarders m !! i) as [f|] eqn:Hi; [|unfold forwarder_turn; rewrite Hi; eauto].
  destruct (mo_fwd _ Hm f) as (s & Hs & Hch & _); [by eapply list_elem_of_lookup_2|].
  apply lookup_lt_is_Some in Hch as [c Hc].
  destruct (recv c) as [ev c'| |] eqn:Hr.
  - destruct (forwarder_turn_value i f s c ev c' m) as (m' & ? & ? & _); eauto.
  - unfold forwarder_turn. rewrite Hi, Hs. simpl. rewrite Hc. simpl. rewrite Hr.
    destruct (forwarder_exit_spec i f m Hm Hi) as (m' & ? & ? & _); eauto.
  - unfold forwarder_turn. rewrite Hi, Hs. simpl. rewrite Hc. simpl. rewrite Hr. eauto.
Qed.

(** The forwarder's subscription is fresh: its channel is open and empty. *)
Lemma Register_new_ok r s m :
  manager_ok m -> m_store m !! r = Some s -> m_sessions m !! s_id s = None ->
  manager_ok (set_forwarders (m_forwarders m ++ [mkForwarder r (nextID (s_hub s)) (length (heap (s_hub s)))])
    (set_store (<[r := (Subscribe s).1.1]> (m_store m))
      (set_sessions (<[s_id s := r]> (m_sessions m)) m))).
Proof.
  intros Hm Hr Hid. assert (session_ok s) as Hok by (destruct Hm; by eapply Forall_lookup_1).
  pose proof (manager_ok_store _ _ _ _ Hm Hr (Subscribe_sess_le s Hok)) as Hm1.
  assert (m_store (set_store (<[r:=(Subscribe s).1.1]> (m_store m)) m) !! r = Some (Subscribe s).1.1) as Hr1.
  { apply list_lookup_insert_eq. by eapply lookup_lt_Some. }
  assert (∀ f, f ∈ m_forwarders m -> fwd_key f ≠ (r, nextID (s_hub s))) as Hfresh.
  { intros f (s0 & Hs0 & _ & Hlt)%(mo_fwd _ Hm) [= Hfr Hfi]. rewrite Hfr in Hs0. simplify_eq. lia. }
  destruct Hm1. constructor; simpl in *; try done.
  - intros id r0. rewrite lookup_insert_Some. intros [[<- <-]|[Hne Hr0]]; [|by eauto].
    eexists. split; [exact Hr1|done].
  - intros f [Hf| ->%list_elem_of_singleton]%elem_of_app; [by eauto|]. simpl.
    eexists. split; [exact Hr1|]. simpl. rewrite length_app. simpl. lia.
  - rewrite fmap_app. apply NoDup_app. split; [done|]. split; [|apply NoDup_singleton].
    intros k (f & -> & Hf)%list_elem_of_fmap Hin%list_elem_of_singleton. by eapply Hfresh.
  - intros k ev Hk He. rewrite fmap_app, elem_of_app. intros [Hin|Hin%list_elem_of_singleton].
    { by eapply mo_done0. }
    subst. destruct (mo_log _ Hm _ _ Hk) as (s0 & Hs0 & Hlt). simpl in *. simplify_eq. lia.
Qed.

Lemma Register_spec r s m :
  manager_ok m -> m_store m !! r = Some s ->
  ∃ m', Register r m = Some m' ∧ manager_ok m' ∧
    match m_sessions m !! s_id s with
    | Some _ => m' = m
    | None =>
        m_sessions m' = <[s_id s := r]> (m_sessions m) ∧
        m_forwarders m' =
          (m_forwarders m ++ [mkForwarder r (nextID (s_hub s)) (length (heap (s_hub s)))])%list ∧
        m_store m' = <[r := (Subscribe s).1.1]> (m_store m) ∧
        m_inbound m' = (if decide (s_direction s = Inbound) then pushed r (m_inbound m) else m_inbound m)
    end.
Proof.
  intros Hm Hr. unfold Register. rewrite Hr. simpl.
  destruct (m_sessions m !! s_id s) as [r'|] eqn:Hid; [eauto|].
  pose proof (Register_new_ok r s m Hm Hr Hid) as Hm'.
  destruct (mo_inbound _ Hm) as (Hopen & Hcap & Hc16).
  destruct (s_direction s) eqn:Hd; simpl.
  - eexists. split; [done|]. split; [exact Hm'|done].
  - rewrite try_send_open by done. simpl. eexists. split; [done|]. split; [|done].
    destruct Hm'. constructor; try done. simpl. rewrite pushed_closed, pushed_cap.
    split; [done|]. split; [by apply pushed_ok|done].
Qed.

Lemma recv_chan_ok {A} (c c' : Chan A) v :
  recv c = RecvValue v c' -> chan_ok c ->
  chan_ok c' ∧ ch_closed c' = ch_closed c ∧ ch_cap c' = ch_cap c.
Proof.
  unfold recv, chan_ok. destruct (ch_buf c) eqn:Hb; [by destruct (ch_closed c)|].
  intros [= <- <-]. simpl. split; [lia | done].
Qed.

(** Every step of every goroutine succeeds and keeps the invariant. *)
Lemma mgr_do_ok o m : manager_ok m -> ∃ m', mgr_do o m = Some m' ∧ manager_ok m'.
Proof.
  intros Hm. destruct o as [id remote dir now|r|id| |ch|r target now|r reason now|k|i|r|r id|ch|]; simpl.
  - eexists. split; [done|]. apply alloc_session_ok; [done|]. apply NewSession_ok.
  - case_decide as Hr; [|eauto]. apply lookup_lt_is_Some in Hr as [s Hs].
    destruct (Register_spec r s m Hm Hs) as (m' & ? & ? & _). eauto.
  - eexists. split; [done | by apply Remove_ok].
  - eexists. split; [done | by apply SubscribeStateChanges_ok].
  - destruct (UnsubscribeStateChanges_spec ch m Hm) as (m' & ? & ? & _). eauto.
  - destruct (m_store m !! r) as [s|] eqn:Hr; [|eauto]. eexists. split; [done|].
    eapply commit_ok; eauto. intros s' ev Ht.
    destruct (transition_commit target "" now s) as [[s1 ev1]|] eqn:Hc; simplify_eq/=.
    apply transition_commit_Ok in Hc as (_ & _ & -> & _). eauto.
  - destruct (m_store m !! r) as [s|] eqn:Hr; [|eauto]. eexists. split; [done|].
    eapply commit_ok; eauto. intros s' ev (_ & -> & _)%End_commit_Some. eauto.
  - destruct (m_pending m !! k) as [[r ev]|]; [|eauto].
    apply with_session_ok; [destruct Hm; by constructor|]. intros s Hs. by apply broadcast_sess_le.
  - by apply forwarder_turn_ok.
  - apply with_session_ok; [done|]. intros s Hs. eexists. split; [done | by apply Subscribe_sess_le].
  - apply with_session_ok; [done|]. intros s Hs. by apply Unsubscribe_sess_le.
  - destruct (m_chans m !! ch) as [c|] eqn:Hc; [|eauto].
    destruct (recv c) as [v c'| |] eqn:Hr; [|eauto..]. eexists. split; [done|].
    destruct Hm. assert (chan_ok c) as Hok by (by eapply Forall_lookup_1).
    destruct (recv_chan_ok c c' v Hr Hok) as (Hok' & Hcl & _).
    constructor; simpl; try done; [|by apply Forall_insert].
    intros l Hl. destruct (decide (l = ch)) as [->|]; [|by apply open_at_insert_ne; eauto].
    destruct (mo_open0 _ Hl) as (c0 & ? & ?). simplify_eq. exists c'.
    split; [|congruence]. apply list_lookup_insert_eq. by eapply lookup_lt_Some.
  - destruct (recv (m_inbound m)) as [v c'| |] eqn:Hr; [|eauto..]. eexists. split; [done|].
    destruct Hm as [? ? ? ? ? (Ho & Hok & Hc16)]. destruct (recv_chan_ok _ _ _ Hr Hok) as (? & ? & ?).
    constructor; simpl; try done. split; [congruence|]. split; [done|congruence].
Qed.

Lemma NewManager_ok : manager_ok NewManager.
Proof.
  constructor; simpl; try done; try (intros *; by rewrite ?lookup_empty, ?elem_of_nil).
  - constructor.
  - split; [done|]. split; [apply make_chan_ok|done].
  - constructor.
  - intros [] **; done.
Qed.

Lemma mgr_run_ok os m : manager_ok m -> ∃ m', mgr_run os m = Some m' ∧ manager_ok m'.
Proof.
  revert m. induction os as [|o os IH]; intros m Hm; [eauto|].
  destruct (mgr_do_ok o m Hm) as (m1 & Ho & Hm1). simpl. rewrite Ho. simpl. by apply IH.
Qed.

(** ** Properties *)

Lemma sessions_by_ID_eq m : manager_ok m -> sessions_by_ID m = map_to_list (m_sessions m).
Proof.
  intros Hm. unfold sessions_by_ID.
  assert (Hall : ∀ id r, (id, r) ∈ map_to_list (m_sessions m) ->
    ∃ s, m_store m !! r = Some s ∧ s_id s = id).
  { intros id r Hin%elem_of_map_to_list. by apply (mo_sess _ Hm). }
  induction (map_to_list (m_sessions m)) as [|[id r] l IH]; [done|]. simpl.
  destruct (Hall id r) as (s & -> & <-); [left|]. simpl. f_equal. apply IH.
  intros id' r' Hin. apply Hall. by right.
Qed.

(** C8: in every interleaving of the goroutines that use the registry no
    step panics (no send on, or second close of, a closed channel); the
    registry maps each id to a session with that id; and a forwarder is gone
    once it has forwarded the ended event, which is the last event the
    subscribers ever see from it. *)
Theorem manager_run_safe os :
  ∃ m, mgr_run os NewManager = Some m ∧
    (∀ id r, Get id m = Some r -> ∃ s, m_store m !! r = Some s ∧ s_id s = id) ∧
    (∀ l1 l2 k ev, m_log m = (l1 ++ (k, ev) :: l2)%list -> is_ended ev ->
       k ∉ fwd_key <$> m_forwarders m ∧ ∀ ev', (k, ev') ∉ l2).
Proof.
  destruct (mgr_run_ok os NewManager NewManager_ok) as (m & Hrun & Hm).
  exists m. split; [done|]. split; [apply (mo_sess _ Hm)|].
  intros l1 l2 k ev Hl He. split.
  - eapply (mo_done _ Hm); [|exact He]. rewrite Hl. set_solver.
  - intros ev'. by eapply (mo_last _ Hm).
Qed.

(** [List] gives the registered sessions sorted by id, each exactly once,
    whatever the order Go's map iteration produces them in. *)
Theorem List_sorted os m :
  mgr_run os NewManager = Some m ->
  StronglySorted String.le (List_ m).*1 ∧ NoDup (List_ m).*1 ∧
  (∀ id r, (id, r) ∈ List_ m <-> Get id m = Some r) ∧
  (∀ order, order ≡ₚ sessions_by_ID m -> sort_by_key order = List_ m).
Proof.
  intros Hrun. destruct (mgr_run_ok os NewManager NewManager_ok) as (m' & Hrun' & Hm). simplify_eq.
  assert (NoDup (sessions_by_ID m).*1) as Hnd.
  { rewrite sessions_by_ID_eq by done. apply NoDup_fst_map_to_list. }
  pose proof (sort_by_key_perm (sessions_by_ID m)) as Hp. split; [|split; [|split]].
  - apply sort_by_key_sorted_fst.
  - unfold List_. by rewrite Hp.
  - intros id r. unfold List_, Get. rewrite Hp, sessions_by_ID_eq by done. apply elem_of_map_to_list.
  - intros order Ho. apply sort_by_key_unique; [done| |apply sort_by_key_sorted].
    by rewrite sort_by_key_perm.
Qed.

Fixpoint forwarder_turns (n i : nat) (m : Manager) : option Manager :=
  match n with
  | 0 => Some m
  | S n => m ← forwarder_turn i m; forwarder_turns n i m
  end.

(** The effect of the non-blocking sends of [evs], in order, on a channel. *)
Definition pushes (evs : list StateChange) (c : Chan StateChange) : Chan StateChange :=
  foldl (fun c ev => pushed ev c) c evs.

Lemma pushes_room evs c :
  length (ch_buf c) + length evs <= ch_cap c ->
  pushes evs c = mkChan (ch_cap c) (ch_buf c ++ evs) (ch_closed c).
Proof.
  revert c. induction evs as [|ev evs IH]; intros c Hlen; simpl in *; [by rewrite app_nil_r; destruct c|].
  unfold pushed at 1. rewrite decide_True by lia. rewrite IH; simpl; [by rewrite <- app_assoc|].
  rewrite length_app. simpl. lia.
Qed.

Definition fanned_all (evs : list StateChange) (m m' : Manager) : Prop :=
  m_subs m' = m_subs m ∧
  (∀ l, l ∈ m_subs m -> m_chans m' !! l = pushes evs <$> m_chans m !! l) ∧
  (∀ l, l ∉ m_subs m -> m_chans m' !! l = m_chans m !! l).

Lemma fanned_all_cons ev evs m m1 m' :
  fanned ev m m1 -> fanned_all evs m1 m' -> fanned_all (ev :: evs) m m'.
Proof.
  intros (Hs1 & Hin1 & Hout1) (Hs & Hin & Hout). unfold fanned_all. rewrite Hs1 in *.
  split; [done|]. split; intros l Hl.
  - rewrite Hin, Hin1 by done. by destruct (m_chans m !! l).
  - by rewrite Hout, Hout1.
Qed.

(** A forwarder that finds the events [evs] and then the ended event in
    its session channel delivers them in that order to every manager-level
    subscriber — verbatim to one whose buffer has room, the overflow dropped
    otherwise — and exits after the ended event, whatever follows it. *)
Theorem forwarder_delivers i f s c evs ev_end rest m :
  manager_ok m -> m_forwarders m !! i = Some f -> m_store m !! f_sess f = Some s ->
  heap (s_hub s) !! f_ch f = Some c ->
  ch_buf c = (evs ++ ev_end :: rest)%list -> Forall (fun ev => ¬ is_ended ev) evs -> is_ended ev_end ->
  ∃ m', forwarder_turns (S (length evs)) i m = Some m' ∧
    m_forwarders m' = delete i (m_forwarders m) ∧
    ∀ l cl, l ∈ m_subs m -> m_chans m !! l = Some cl ->
      m_chans m' !! l = Some (pushes (evs ++ [ev_end])%list cl) ∧
      (length (ch_buf cl) + S (length evs) <= ch_cap cl ->
       ch_buf <$> m_chans m' !! l = Some (ch_buf cl ++ evs ++ [ev_end])%list).
Proof.
  intros Hm Hi Hs Hc Hbuf Hevs Hend.
  assert (∃ m', forwarder_turns (S (length evs)) i m = Some m' ∧
    m_forwarders m' = delete i (m_forwarders m) ∧ fanned_all (evs ++ [ev_end])%list m m')
    as (m' & Hrun & Hfw & _ & Hin & _).
  { revert m s c Hm Hi Hs Hc Hbuf. induction Hevs as [|ev evs Hev _ IH]; intros m s c Hm Hi Hs Hc Hbuf.
    - destruct (forwarder_turn_value i f s c ev_end (mkChan (ch_cap c) rest (ch_closed c)) m)
        as (m' & Ht & _ & Hf & _ & Hd & _); [done..| by unfold recv; rewrite Hbuf |].
      exists m'. cbn [forwarder_turns length]. rewrite Ht. split; [done|]. split; [by apply Hd|].
      destruct Hf as (? & ? & ?). done.
    - destruct (forwarder_turn_value i f s c ev (mkChan (ch_cap c) (evs ++ ev_end :: rest) (ch_closed c)) m)
        as (m1 & Ht & Hm1 & Hf & _ & _ & Hk); [done..| by unfold recv; rewrite Hbuf |].
      destruct (Hk Hev) as (Hfw & s' & Hs' & Hc'). rewrite <- Hfw in *.
      destruct (IH m1 s' _ Hm1 Hi Hs' Hc' eq_refl) as (m' & Hrun & Hd & Hfa).
      exists m'. cbn [length]. cbn [forwarder_turns]. rewrite Ht. cbn [mbind option_bind].
      split; [exact Hrun|]. split; [done|]. by eapply fanned_all_cons. }
  exists m'. split; [done|]. split; [done|]. intros l cl Hl Hcl.
  rewrite (Hin l Hl), Hcl. simpl. split; [done|]. intros Hroom.
  rewrite pushes_room; [done|]. rewrite length_app. simpl. lia.
Qed.

(** ** Witnesses *)

(** A call that was registered, connected and ended, all broadcasts done. *)
Definition demo_ops : list mop :=
  [MNew "c-2" "peerB" Outbound 0; MNew "c-1" "peerC" Inbound 0; MSubscribe; MRegister 0; MRegister 1;
   MTransition 0 StateRinging 1; MBroadcast 0; MEnd 0 "bye" 2; MBroadcast 0].

Definition demo_manager : Manager := default NewManager (mgr_run demo_ops NewManager).

Lemma demo_manager_run : mgr_run demo_ops NewManager = Some demo_manager.
Proof. vm_compute. reflexivity. Qed.

Lemma demo_manager_ok : manager_ok demo_manager.
Proof.
  destruct (mgr_run_ok demo_ops NewManager NewManager_ok) as (m & Hrun & Hm).
  rewrite demo_manager_run in Hrun. by injection Hrun as ->.
Qed.

Lemma List_sorted_witness :
  List_ demo_manager = [("c-1", 1); ("c-2", 0)] /\ NoDup (List_ demo_manager).*1.
Proof.
  split; [vm_compute; reflexivity|].
  exact (proj1 (proj2 (List_sorted demo_ops demo_manager demo_manager_run))).
Defined.

Lemma forwarder_delivers_witness :
  exists m', forwarder_turns 2 0 demo_manager = Some m' /\ length (m_forwarders m') = 1 /\
    (fun c => ev_State <$> ch_buf c) <$> m_chans m' !! 0 = Some ["ringing"; "ended"].
Proof.
  destruct (forwarder_delivers 0 (mkForwarder 0 0 0)
    (default (NewSession "" "" Inbound 0) (m_store demo_manager !! 0))
    (mkChan 16 [mkStateChange "c-2" "ringing" "outbound" "peerB" 1 "";
                mkStateChange "c-2" "ended" "outbound" "peerB" 2 "bye"] false)
    [mkStateChange "c-2" "ringing" "outbound" "peerB" 1 ""]
    (mkStateChange "c-2" "ended" "outbound" "peerB" 2 "bye") [] demo_manager demo_manager_ok)
    as (m' & Hrun & Hfw & Hch); [vm_compute; reflexivity..| | |].
  - repeat constructor. unfold is_ended. simpl. congruence.
  - reflexivity.
  - exists m'. split; [exact Hrun|]. split; [by rewrite Hfw; vm_compute|].
    destruct (Hch 0 (mkChan 32 [] false)) as [-> _]; [vm_compute; left|vm_compute; reflexivity|].
    reflexivity.
Defined.
