(* ===== verification/CallEngine.v ===== *)
(** * The call engine ([internal/call/streams.go], [protocol.go])

    The engine binds a control stream to each session, sends INVITE, ACCEPT
    and HANGUP, and runs one read loop per stream. Dialing, the resolver, the
    multiaddr library and the JSON decoder are parameters. A handler body is
    one step here, except the read loops, which interleave with everything
    else message by message. *)
From S2P Require Import Prelude GoChan CallSession CallManager.
#[local] Open Scope string_scope.
#[local] Open Scope list_scope.

(** ** Protocol *)

Definition MessageType := string.
Definition MsgInvite : MessageType := "invite".
Definition MsgAccept : MessageType := "accept".
Definition MsgDecline : MessageType := "decline".
Definition MsgHangup : MessageType := "hangup".

Record Message := mkMessage {
  msg_Type : MessageType;
  msg_CallID : string;
  msg_Reason : string;
  msg_Caller : string }.

#[export] Instance Message_eq_dec : EqDecision Message.
Proof. solve_decision. Defined.

(** ** State *)

(** A control stream: what was written on it, and whether this side closed or
    reset it. [st_broken] is the network's: writes fail from then on. *)
Record Stream := mkStream {
  st_remote : string;
  st_out : list Message;
  st_closed : bool;
  st_broken : bool }.

Record Engine := mkEngine {
  e_self : string;
  e_mgr : Manager;
  e_streams : gmap string nat;
  e_encs : gmap string nat;       (* the encoder of a stream is its location *)
  e_net : list Stream }.

Definition NewEngine (self : string) : Engine := mkEngine self NewManager ∅ ∅ [].

Definition set_mgr (m : Manager) (e : Engine) : Engine :=
  mkEngine (e_self e) m (e_streams e) (e_encs e) (e_net e).
Definition set_net (n : list Stream) (e : Engine) : Engine :=
  mkEngine (e_self e) (e_mgr e) (e_streams e) (e_encs e) n.

Definition close_stream (st : nat) (e : Engine) : Engine :=
  set_net (alter (fun s => mkStream (st_remote s) (st_out s) true (st_broken s)) st (e_net e)) e.

(** A stream [NewStream] returned, or one the stream handler was given. *)
Definition open_stream (remote : string) (e : Engine) : Engine * nat :=
  (set_net (e_net e ++ [mkStream remote [] false false]) e, length (e_net e)).

(** ** Binding streams to sessions *)

Definition bind_ (id : string) (st : nat) (e : Engine) : Engine :=
  mkEngine (e_self e) (e_mgr e) (<[id := st]> (e_streams e)) (<[id := st]> (e_encs e)) (e_net e).

Definition streamFor (id : string) (e : Engine) : option nat := e_streams e !! id.

Definition unbindAndClose (id : string) (e : Engine) : Engine :=
  let e' := mkEngine (e_self e) (e_mgr e) (delete id (e_streams e)) (delete id (e_encs e)) (e_net e) in
  match e_streams e !! id with
  | Some st => close_stream st e'
  | None => e'
  end.

Inductive WriteErr :=
| ENoStream (id : string)
| EEncode.

(** [write]: [enc.Encode(&m)] on the stream bound to the session's id. *)
Definition write (id : string) (msg : Message) (e : Engine) : Engine * result WriteErr () :=
  match e_encs e !! id with
  | None => (e, Err (ENoStream id))
  | Some st =>
      match e_net e !! st with
      | Some s =>
          if st_closed s || st_broken s then (e, Err EEncode)
          else (set_net (<[st := mkStream (st_remote s) (st_out s ++ [msg]) false false]> (e_net e)) e, Ok tt)
      | None => (e, Err EEncode)
      end
  end.

(** [Stop]: the maps are emptied and the streams they held are closed. *)
Definition Stop (e : Engine) : Engine :=
  foldr close_stream (mkEngine (e_self e) (e_mgr e) ∅ ∅ (e_net e)) (map_to_list (e_streams e)).*2.

(** ** Sessions of the engine *)

Definition session_of (r : nat) (e : Engine) : option Session := m_store (e_mgr e) !! r.

(** A method call on the session object [r] that does not fail. *)
Definition on_session (r : nat) (f : Session -> option Session) (e : Engine) : option Engine :=
  m ← with_session r f (e_mgr e); Some (set_mgr m e).

Definition drop_result {A B} (o : option (A * B)) : option A := fst <$> o.

(** The deferred cleanup of [runScanner] and the end of [Hangup]. *)
Definition teardown (id : string) (e : Engine) : Engine :=
  let e := unbindAndClose id e in set_mgr (Remove id (e_mgr e)) e.

Inductive AcceptErr :=
| ENotInbound (id : string)
| ESendAccept (err : WriteErr)
| EAcceptState (err : SessionErr).

Definition Accept (r : nat) (now : Z) (e : Engine) : option (Engine * result AcceptErr ()) :=
  s ← session_of r e;
  if decide (s_direction s ≠ Inbound) then Some (e, Err (ENotInbound (s_id s)))
  else
    match write (s_id s) (mkMessage MsgAccept (s_id s) "" "") e with
    | (e, Err err) => Some (e, Err (ESendAccept err))
    | (e, Ok _) =>
        '(s1, r1) ← ToConnecting now s;
        let e := set_mgr (set_store (<[r := s1]> (m_store (e_mgr e))) (e_mgr e)) e in
        match r1 with
        | Err err => Some (e, Err (EAcceptState err))
        | Ok _ =>
            '(s2, r2) ← ToConnected now s1;
            let e := set_mgr (set_store (<[r := s2]> (m_store (e_mgr e))) (e_mgr e)) e in
            match r2 with
            | Err err => Some (e, Err (EAcceptState err))
            | Ok _ => Some (e, Ok tt)
            end
        end
    end.

Definition Hangup (r : nat) (reason : string) (now : Z) (e : Engine) : option Engine :=
  s ← session_of r e;
  let '(e, _) := write (s_id s) (mkMessage MsgHangup (s_id s) reason "") e in
  e ← on_session r (End reason now) e;
  Some (teardown (s_id s) e).

(** ** The read loop *)

(** How the scanner of a stream ends. *)
Inductive ScanEnd := ScanEOF | ScanCanceled | ScanErr (msg : string).

Definition end_reason (x : ScanEnd) : string :=
  match x with
  | ScanErr msg => "stream error: " +:+ msg
  | _ => "remote disconnected"
  end.

(** The [switch] on the message type: the session and whether the loop returns. *)
Definition dispatch (msg : Message) (now : Z) (s : Session) : option (Session * bool) :=
  if decide (msg_CallID msg ≠ s_id s) then Some (s, false)
  else if decide (msg_Type msg = MsgAccept) then
    s1 ← drop_result (ToConnecting now s);
    s2 ← drop_result (ToConnected now s1);
    Some (s2, false)
  else if decide (msg_Type msg = MsgDecline) then
    s1 ← End ("declined: " +:+ msg_Reason msg) now s; Some (s1, true)
  else if decide (msg_Type msg = MsgHangup) then
    s1 ← End (msg_Reason msg) now s; Some (s1, true)
  else Some (s, false).

Section engine.
Context (unmarshal : bytes -> option Message).

(** One turn of the loop: the engine and whether the loop has returned. *)
Definition scanner_turn (r : nat) (line : bytes) (now : Z) (e : Engine) : option (Engine * bool) :=
  s ← session_of r e;
  match unmarshal line with
  | None => Some (e, false)
  | Some msg =>
      '(s', stop) ← dispatch msg now s;
      let e := set_mgr (set_store (<[r := s']> (m_store (e_mgr e))) (e_mgr e)) e in
      Some (if (stop : bool) then (teardown (s_id s) e, true) else (e, false))
  end.

(** The scanner stopped: the loop ends the session and cleans up. *)
Definition scanner_end (r : nat) (x : ScanEnd) (now : Z) (e : Engine) : option Engine :=
  s ← session_of r e;
  e ← on_session r (End (end_reason x) now) e;
  Some (teardown (s_id s) e).

Fixpoint runScanner (r : nat) (lines : list bytes) (x : ScanEnd) (now : Z) (e : Engine) : option Engine :=
  match lines with
  | [] => scanner_end r x now e
  | line :: lines =>
      '(e, stop) ← scanner_turn r line now e;
      if (stop : bool) then Some e else runScanner r lines x now e
  end.

(** ** Inbound calls *)

(** [handleStream] up to the read loop. [st] is the stream, [line] the first
    line if one arrives before the deadline; the result is the session whose
    read loop then runs on the stream, if the stream was not refused. *)
Definition handleStream (st : nat) (line : option bytes) (now : Z) (e : Engine)
  : option (Engine * option nat) :=
  str ← e_net e !! st;
  match line ≫= unmarshal with
  | None => Some (close_stream st e, None)
  | Some first =>
      if decide (msg_Type first ≠ MsgInvite ∨ msg_CallID first = "") then Some (close_stream st e, None)
      else if decide (msg_Caller first ≠ "" ∧ msg_Caller first ≠ st_remote str)
      then Some (close_stream st e, None)
      else
        let s := NewSession (msg_CallID first) (st_remote str) Inbound now in
        let '(m, r) := alloc_session s (e_mgr e) in
        let e := bind_ (msg_CallID first) st (set_mgr m e) in
        m ← Register r (e_mgr e);
        let e := set_mgr m e in
        s ← session_of r e;
        '(s', res) ← ToRinging now s;
        let e := set_mgr (set_store (<[r := s']> (m_store (e_mgr e))) (e_mgr e)) e in
        match res with
        | Err _ => Some (close_stream st e, None)
        | Ok _ => Some (e, Some r)
        end
  end.
End engine.

(** ** Outbound calls *)

Definition contains (sub s : string) : bool :=
  match String.index 0 sub s with Some _ => true | None => false end.

Inductive DialErr :=
| EDial (msg : string)
| ENoReservation (remote : string) (original : string).

Definition translateDialError (remote : string) (msg : string) : DialErr :=
  if contains "NO_RESERVATION" msg then ENoReservation remote msg else EDial msg.

Section dial.
Context {Addr : Type}.
(** The multiaddr library: parsing and encapsulation. *)
Context (newMultiaddr : string -> option Addr) (encapsulate : Addr -> Addr -> Addr).
(** The resolver, if installed, and [NewStream]: the result of the n-th call
    made during one [Place]. *)
Context (resolver : option (nat -> result string (list Addr))) (newStream : nat -> result string ()).
Context (relays : list (string * list Addr)).
(** The text of a write error. *)
Context (errorText : WriteErr -> string).

(** The calls [Place] makes on its environment, in order. *)
Inductive NetCall :=
| CInvalidate
| CResolve
| CAddAddrs (addrs : list Addr)
| CDial.

Definition populatePeerstoreFromResolver (n : nat) (forceFresh : bool) : list NetCall * bool :=
  match resolver with
  | None => ([], false)
  | Some resolve =>
      let pre := (if forceFresh then [CInvalidate] else []) ++ [CResolve] in
      match resolve n with
      | Err _ | Ok [] => (pre, false)
      | Ok addrs => (pre ++ [CAddAddrs addrs], true)
      end
  end.

Definition populatePeerstoreWithRelayFallback : list NetCall :=
  if decide (relays = []) then []
  else match newMultiaddr "/p2p-circuit" with
       | None => []
       | Some circuit =>
           relays ≫= fun '(id, addrs) =>
             match newMultiaddr ("/p2p/" +:+ id) with
             | None => []
             | Some relayP2P =>
                 (fun addr => CAddAddrs [encapsulate (encapsulate addr relayP2P) circuit]) <$> addrs
             end
       end.

(** The dialing part of [Place]: the calls made and whether a stream is open. *)
Definition Place_dial (remote : string) : list NetCall * result DialErr () :=
  let '(c1, _) := populatePeerstoreFromResolver 0 false in
  let c2 := populatePeerstoreWithRelayFallback in
  let calls := c1 ++ c2 ++ [CDial] in
  let '(calls, res) :=
    match newStream 0, resolver with
    | Err err, Some _ =>
        let '(c3, fresh) := populatePeerstoreFromResolver 1 true in
        if fresh then (calls ++ c3 ++ [CDial], newStream 1) else (calls ++ c3, Err err)
    | res, _ => (calls, res)
    end in
  match res with
  | Ok _ => (calls, Ok tt)
  | Err err =>
      (calls ++ (if resolver then [CInvalidate] else []), Err (translateDialError remote err))
  end.

Inductive PlaceErr :=
| EOpen (err : DialErr)
| ESendInvite (err : WriteErr)
| ERinging (err : SessionErr).

(** [Place] with the fresh call id [id]; [wbreaks] says the new stream fails
    before INVITE is written. *)
Definition Place (remote id : string) (wbreaks : bool) (now : Z) (e : Engine)
  : option (Engine * list NetCall * result PlaceErr nat) :=
  let '(calls, res) := Place_dial remote in
  match res with
  | Err err => Some (e, calls, Err (EOpen err))
  | Ok _ =>
      let '(e, st) := open_stream remote e in
      let e := if wbreaks
               then set_net (alter (fun s => mkStream (st_remote s) (st_out s) (st_closed s) true) st (e_net e)) e
               else e in
      let '(m, r) := alloc_session (NewSession id remote Outbound now) (e_mgr e) in
      let e := bind_ id st (set_mgr m e) in
      m ← Register r (e_mgr e);
      let e := set_mgr m e in
      match write id (mkMessage MsgInvite id "" (e_self e)) e with
      | (e, Err err) =>
          e ← on_session r (End ("failed to send INVITE: " +:+ errorText err) now) e;
          Some (teardown id e, calls, Err (ESendInvite err))
      | (e, Ok _) =>
          s ← session_of r e;
          '(s', res) ← ToRinging now s;
          let e := set_mgr (set_store (<[r := s']> (m_store (e_mgr e))) (e_mgr e)) e in
          match res with
          | Err err => Some (e, calls, Err (ERinging err))
          | Ok _ => Some (e, calls, Ok r)
          end
      end
  end.
End dial.
Arguments NetCall : clear implicits.

(** ** Invariants *)

Record eng_ok (e : Engine) : Prop := {
  eo_mgr : manager_ok (e_mgr e);
  eo_encs : e_encs e = e_streams e;
  eo_net : ∀ id st, e_streams e !! id = Some st -> st < length (e_net e) }.

(** A registered call is bound to a stream of its own peer. *)
Definition isolated (e : Engine) : Prop :=
  ∀ id r st, Get id (e_mgr e) = Some r -> e_streams e !! id = Some st ->
    ∃ s str, session_of r e = Some s ∧ e_net e !! st = Some str ∧ s_remote s = st_remote str.

(** [e'] is well formed, and isolated if [e] was. *)
Definition good (e e' : Engine) : Prop := eng_ok e' ∧ (isolated e -> isolated e').

Lemma good_trans e1 e2 e3 : good e1 e2 -> good e2 e3 -> good e1 e3.
Proof. unfold good. naive_solver. Qed.

Lemma good_refl e : eng_ok e -> good e e.
Proof. done. Qed.

(** A change of the streams that keeps their number and their peers. *)
Lemma good_net e net :
  eng_ok e -> (∀ st str, e_net e !! st = Some str -> ∃ str', net !! st = Some str' ∧ st_remote str' = st_remote str) ->
  good e (set_net net e).
Proof.
  intros [Hm He Hn] Hnet. split.
  - constructor; simpl; try done. intros id st Hst%Hn. apply lookup_lt_is_Some in Hst as [str Hstr].
    destruct (Hnet _ _ Hstr) as (str' & Hstr' & _). by eapply lookup_lt_Some.
  - intros Hiso id r st Hg Hst. destruct (Hiso id r st Hg Hst) as (s & str & Hs & Hstr & Hr).
    destruct (Hnet _ _ Hstr) as (str' & Hstr' & Hr'). exists s, str'. split; [done|]. split; [done|congruence].
Qed.

Lemma good_alter e st f :
  eng_ok e -> (∀ str, st_remote (f str) = st_remote str) -> good e (set_net (alter f st (e_net e)) e).
Proof.
  intros He Hf. apply good_net; [done|]. intros st' str Hstr.
  destruct (decide (st = st')) as [<-|].
  - rewrite list_lookup_alter_eq, Hstr. simpl. eauto.
  - rewrite list_lookup_alter_ne by done. eauto.
Qed.

Lemma good_close st e : eng_ok e -> good e (close_stream st e).
Proof. intros He. by apply good_alter. Qed.

Lemma write_spec id msg e :
  eng_ok e ->
  good e (write id msg e).1 ∧
  e_mgr (write id msg e).1 = e_mgr e ∧ e_streams (write id msg e).1 = e_streams e ∧
  length (e_net (write id msg e).1) = length (e_net e) ∧
  match (write id msg e).2 with
  | Ok _ => ∃ st str, e_streams e !! id = Some st ∧ e_net e !! st = Some str ∧ st_closed str = false ∧
      e_net (write id msg e).1 = <[st := mkStream (st_remote str) (st_out str ++ [msg]) false false]> (e_net e)
  | Err _ => (write id msg e).1 = e
  end.
Proof.
  intros He. unfold write. rewrite (eo_encs _ He).
  destruct (e_streams e !! id) as [st|] eqn:Hst; [|by auto using good_refl].
  destruct (e_net e !! st) as [str|] eqn:Hstr; [|by auto using good_refl].
  destruct (st_closed str || st_broken str) eqn:Hc; simpl; [by auto using good_refl|].
  apply orb_false_iff in Hc as [Hc _].
  split; [|rewrite length_insert; eauto 10]. apply good_net; [done|].
  intros st' str' Hstr'. destruct (decide (st = st')) as [<-|].
  - simplify_eq. eexists. split; [apply list_lookup_insert_eq; by eapply lookup_lt_Some|done].
  - rewrite list_lookup_insert_ne by done. eauto.
Qed.

Lemma good_open remote e :
  eng_ok e -> good e (open_stream remote e).1 ∧
  e_net (open_stream remote e).1 !! (open_stream remote e).2 = Some (mkStream remote [] false false).
Proof.
  intros He. split.
  - apply good_net; [done|]. intros st str Hstr. exists str.
    split; [|done]. by apply lookup_app_l_Some.
  - simpl. by apply list_lookup_middle.
Qed.

(** A step on a session object. *)
Lemma good_store e r s s' :
  eng_ok e -> session_of r e = Some s -> sess_le s s' ->
  good e (set_mgr (set_store (<[r := s']> (m_store (e_mgr e))) (e_mgr e)) e).
Proof.
  intros [Hm He Hn] Hs Hle. split.
  - constructor; simpl; try done. by eapply manager_ok_store.
  - intros Hiso id r0 st Hg Hst. destruct (Hiso id r0 st Hg Hst) as (s0 & str & Hs0 & Hstr & Hr).
    destruct (decide (r = r0)) as [<-|].
    + unfold session_of in *. simplify_eq. destruct Hle as (_ & _ & [_ Hrem] & _).
      exists s', str. split; [|split; [done|congruence]].
      apply list_lookup_insert_eq. by eapply lookup_lt_Some.
    + exists s0, str. split; [|done]. unfold session_of. simpl. by rewrite list_lookup_insert_ne.
Qed.

Lemma good_teardown id e : eng_ok e -> good e (teardown id e).
Proof.
  intros He.
  assert (good e (set_mgr (Remove id (e_mgr e))
    (mkEngine (e_self e) (e_mgr e) (delete id (e_streams e)) (delete id (e_encs e)) (e_net e)))) as Hg.
  { destruct He as [Hm He Hn]. split.
    - constructor; simpl; [by apply Remove_ok|by rewrite He|].
      intros id' st [_ Hst]%lookup_delete_Some. eauto.
    - intros Hiso id' r st Hg Hst. unfold Get in Hg. simpl in *. apply lookup_delete_Some in Hg as [_ Hg].
      apply lookup_delete_Some in Hst as [_ Hst]. eapply Hiso; eauto. }
  unfold teardown, unbindAndClose. destruct (e_streams e !! id) as [st|]; [|exact Hg].
  eapply good_trans; [exact Hg|]. apply (good_close st). apply Hg.
Qed.

Lemma good_stop e : eng_ok e -> good e (Stop e).
Proof.
  intros He. unfold Stop.
  assert (good e (mkEngine (e_self e) (e_mgr e) ∅ ∅ (e_net e))) as Hg.
  { destruct He as [Hm He Hn]. split; [by constructor|].
    intros _ id r st _ Hst. simpl in Hst. by rewrite lookup_empty in Hst. }
  induction ((map_to_list (e_streams e)).*2) as [|st l IH]; simpl; [done|].
  eapply good_trans; [exact IH|]. apply good_close, IH.
Qed.

(** *** Sessions *)

Lemma transition_sess_le target reason now s :
  session_ok s -> ∃ s' r, transition target reason now s = Some (s', r) ∧ sess_le s s' ∧
    (r = Ok tt -> s_state s' = target) ∧ (s_state s' = s_state s ∨ s_state s' = target) ∧
    (state_num target = S (state_num (s_state s)) -> s_state s ≠ StateEnded -> r = Ok tt).
Proof.
  intros Hok. unfold transition.
  destruct (transition_commit target reason now s) as [[s1 ev]|err] eqn:Ht.
  - apply transition_commit_Ok in Ht as (_ & _ & -> & ->).
    destruct (broadcast_sess_le (state_change s target now reason) (set_state target (s_reason s) s))
      as (s' & Hb & Hle); [exact Hok|]. rewrite Hb. simpl. eexists _, _. split; [done|].
    assert (s_state s' = target) as Hst.
    { unfold broadcast in Hb. by apply bind_Some in Hb as (h & _ & [= <-]). }
    split; [exact Hle|]. auto.
  - eexists _, _. split; [done|]. split; [by split; auto|]. split; [done|]. split; [by left|].
    intros Ht' Hne. unfold transition_commit in Ht. rewrite decide_False in Ht by done.
    case_decide; [done|lia].
Qed.

Lemma End_sess_le reason now s :
  session_ok s -> ∃ s', End reason now s = Some s' ∧ sess_le s s' ∧ s_state s' = StateEnded.
Proof.
  intros Hok. unfold End. destruct (End_commit reason now s) as [[s1 ev]|] eqn:He.
  - apply End_commit_Some in He as (_ & -> & ->).
    destruct (broadcast_sess_le (state_change s StateEnded now reason) (set_state StateEnded reason s))
      as (s' & Hb & Hle); [exact Hok|]. rewrite Hb. exists s'. split; [done|]. split; [exact Hle|].
    unfold broadcast in Hb. by apply bind_Some in Hb as (h & _ & [= <-]).
  - unfold End_commit in He. case_decide; [|done]. exists s. split; [done|]. split; [|done].
    split; [done|]. auto.
Qed.

Lemma sess_le_trans s1 s2 s3 : sess_le s1 s2 -> sess_le s2 s3 -> sess_le s1 s3.
Proof.
  intros (_ & ? & [? ?] & ? & ?) (Hok & ? & [? ?] & ? & ?).
  split; [exact Hok|]. split; [congruence|]. split; [split; congruence|]. lia.
Qed.

Lemma session_of_ok r s e : eng_ok e -> session_of r e = Some s -> session_ok s.
Proof. intros He Hs. eapply Forall_lookup_1; [apply (mo_store _ (eo_mgr _ He))|exact Hs]. Qed.

Lemma dispatch_sess_le msg now s :
  session_ok s -> ∃ s' stop, dispatch msg now s = Some (s', stop) ∧ sess_le s s' ∧
    (stop = true -> s_state s' = StateEnded).
Proof.
  intros Hok. unfold dispatch.
  assert (sess_le s s) as Hrefl by (split; [done|auto]).
  case_decide; [by eexists _, _|]. case_decide.
  { destruct (transition_sess_le StateConnecting "" now s Hok) as (s1 & r1 & Ht1 & Hle1 & _).
    destruct (transition_sess_le StateConnected "" now s1) as (s2 & r2 & Ht2 & Hle2 & _); [apply Hle1|].
    unfold ToConnecting, ToConnected. rewrite Ht1. simpl. rewrite Ht2. simpl.
    eexists _, _. split; [done|]. split; [by eapply sess_le_trans|done]. }
  case_decide; [|case_decide; [|by eexists _, _]].
  - destruct (End_sess_le ("declined: " +:+ msg_Reason msg) now s Hok) as (s1 & -> & Hle & Hst). simpl. eauto.
  - destruct (End_sess_le (msg_Reason msg) now s Hok) as (s1 & -> & Hle & Hst). simpl. eauto.
Qed.

(** *** Binding and registering a new session *)

Definition fresh_id (id : string) (e : Engine) : Prop :=
  e_streams e !! id = None ∧ Get id (e_mgr e) = None.

(** The common middle part of [handleStream] and [Place]. *)
Definition bind_register (id remote : string) (dir : Direction) (st : nat) (now : Z) (e : Engine)
  : option (Engine * nat) :=
  let '(m, r) := alloc_session (NewSession id remote dir now) (e_mgr e) in
  let e := bind_ id st (set_mgr m e) in
  m ← Register r (e_mgr e);
  Some (set_mgr m e, r).

Lemma bind_register_ok id dir st str now e :
  eng_ok e -> e_net e !! st = Some str ->
  ∃ e' r s', bind_register id (st_remote str) dir st now e = Some (e', r) ∧
    eng_ok e' ∧ (fresh_id id e -> isolated e -> isolated e') ∧
    r = length (m_store (e_mgr e)) ∧
    session_of r e' = Some s' ∧ sess_le (NewSession id (st_remote str) dir now) s' ∧
    s_state s' = StateIdle ∧
    e_streams e' = <[id := st]> (e_streams e) ∧ e_net e' = e_net e ∧ e_self e' = e_self e ∧
    (∀ r0 s0, session_of r0 e = Some s0 -> session_of r0 e' = Some s0) ∧
    m_sessions (e_mgr e') =
      match Get id (e_mgr e) with
      | Some _ => m_sessions (e_mgr e)
      | None => <[id := r]> (m_sessions (e_mgr e))
      end.
Proof.
  intros [Hm He Hn] Hstr. unfold bind_register. cbn [alloc_session fst snd].
  set (s := NewSession id (st_remote str) dir now). set (r := length (m_store (e_mgr e))).
  assert (session_ok s) as Hs by apply NewSession_ok.
  pose proof (alloc_session_ok s _ Hm Hs) as Hm1. simpl in Hm1.
  assert (m_store (set_store (m_store (e_mgr e) ++ [s]) (e_mgr e)) !! r = Some s) as Hr
    by (by apply list_lookup_middle).
  destruct (Register_spec r s _ Hm1 Hr) as (m' & Hreg & Hm' & Hspec).
  change (m_sessions (set_store (m_store (e_mgr e) ++ [s]) (e_mgr e)) !! s_id s)
    with (Get id (e_mgr e)) in Hspec.
  change (Register _ _) with (Register r (set_store (m_store (e_mgr e) ++ [s]) (e_mgr e))).
  rewrite Hreg. cbn [mbind option_bind].
  assert (∃ s', m_store m' !! r = Some s' ∧ sess_le s s' ∧ s_state s' = StateIdle ∧
    ∀ r0, r0 ≠ r -> m_store m' !! r0 = (m_store (e_mgr e) ++ [s]) !! r0) as (s' & Hs' & Hle & Hst & Hoth).
  { destruct (Get id (e_mgr e)) as [r'|].
    - subst m'. exists s. split; [done|]. split; [split; [done|by auto]|]. done.
    - destruct Hspec as (_ & _ & -> & _). exists (Subscribe s).1.1.
      split; [apply list_lookup_insert_eq; by eapply lookup_lt_Some|].
      split; [by apply Subscribe_sess_le|]. split; [done|].
      intros r0 Hne. by rewrite list_lookup_insert_ne. }
  assert (∀ r0 s0, session_of r0 e = Some s0 -> m_store m' !! r0 = Some s0) as Hold.
  { intros r0 s0 Hr0. rewrite Hoth; [by apply lookup_app_l_Some|].
    intros ->. apply lookup_lt_Some in Hr0. unfold r in Hr0. lia. }
  assert (m_sessions m' = match Get id (e_mgr e) with
      | Some _ => m_sessions (e_mgr e) | None => <[id := r]> (m_sessions (e_mgr e)) end) as Hsess.
  { destruct (Get id (e_mgr e)); [by subst|]. by destruct Hspec as (-> & _). }
  eexists _, r, s'. split; [done|]. split; [|split;
    [|exact (conj eq_refl (conj Hs' (conj Hle (conj Hst (conj eq_refl (conj eq_refl
        (conj eq_refl (conj Hold Hsess))))))))]].
  - constructor; simpl; [done|by rewrite He|]. intros id' st'.
    rewrite lookup_insert_Some. intros [[_ <-]|[_ Hst']]; [by eapply lookup_lt_Some|eauto].
  - intros [Hf1 Hf2] Hiso id' r' st' Hg Hst'. unfold Get in Hg. simpl in *. rewrite Hsess, Hf2 in Hg.
    apply lookup_insert_Some in Hg as [[<- <-]|[Hne Hg]].
    + rewrite lookup_insert_eq in Hst'. simplify_eq. exists s', str. split; [done|]. split; [done|].
      by destruct Hle as (_ & _ & [_ ->] & _).
    + rewrite lookup_insert_ne in Hst' by done.
      destruct (Hiso id' r' st' Hg Hst') as (s0 & str0 & ? & ? & ?). exists s0, str0.
      split; [by apply Hold|done].
Qed.

(** ** Steps *)

Section steps.
Context (unmarshal : bytes -> option Message).
Context {Addr : Type} (newMultiaddr : string -> option Addr) (encapsulate : Addr -> Addr -> Addr).
Context (relays : list (string * list Addr)) (errorText : WriteErr -> string).

(** The identifier of a stream's first message, if it parses. *)
Definition first_id (line : option bytes) : option string := msg_CallID <$> (line ≫= unmarshal).

(** The code of [handleStream] with its middle part named. *)
Lemma handleStream_eq st line now e :
  handleStream unmarshal st line now e =
  (str ← e_net e !! st;
   match line ≫= unmarshal with
   | None => Some (close_stream st e, None)
   | Some first =>
      if decide (msg_Type first ≠ MsgInvite ∨ msg_CallID first = "") then Some (close_stream st e, None)
      else if decide (msg_Caller first ≠ "" ∧ msg_Caller first ≠ st_remote str)
      then Some (close_stream st e, None)
      else
        '(e, r) ← bind_register (msg_CallID first) (st_remote str) Inbound st now e;
        s ← session_of r e;
        '(s', res) ← ToRinging now s;
        let e := set_mgr (set_store (<[r := s']> (m_store (e_mgr e))) (e_mgr e)) e in
        match res with
        | Err _ => Some (close_stream st e, None)
        | Ok _ => Some (e, Some r)
        end
   end).
Proof.
  unfold handleStream, bind_register. destruct (e_net e !! st); [|done]. simpl.
  destruct (line ≫= unmarshal) as [first|]; [|done]. do 2 (case_decide; [done|]).
  by destruct (Register _ _).
Qed.

(** A new session goes from idle to ringing. *)
Lemma ring_ok r s now e :
  eng_ok e -> session_of r e = Some s -> s_state s = StateIdle ->
  ∃ s', ToRinging now s = Some (s', Ok tt) ∧ s_state s' = StateRinging ∧ sess_le s s' ∧
    good e (set_mgr (set_store (<[r := s']> (m_store (e_mgr e))) (e_mgr e)) e).
Proof.
  intros He Hs Hst.
  destruct (transition_sess_le StateRinging "" now s (session_of_ok _ _ _ He Hs))
    as (s' & res & Ht & Hle & Hok & _ & Hsucc).
  rewrite Hst in Hsucc. rewrite (Hsucc eq_refl ltac:(done)) in *.
  exists s'. split; [exact Ht|]. split; [by apply Hok|]. split; [done|]. by eapply good_store.
Qed.

Lemma handleStream_ok st str line now e :
  eng_ok e -> e_net e !! st = Some str ->
  ∃ e' o, handleStream unmarshal st line now e = Some (e', o) ∧ eng_ok e' ∧
    ((∀ id, first_id line = Some id -> fresh_id id e) -> isolated e -> isolated e') ∧
    match o with
    | None => e' = close_stream st e
    | Some r => ∃ s id, first_id line = Some id ∧ session_of r e' = Some s ∧
        s_id s = id ∧ s_remote s = st_remote str ∧ s_state s = StateRinging ∧
        r = length (m_store (e_mgr e)) ∧
        e_streams e' = <[id := st]> (e_streams e) ∧ e_net e' = e_net e ∧
        m_sessions (e_mgr e') = match Get id (e_mgr e) with
                                | Some _ => m_sessions (e_mgr e)
                                | None => <[id := r]> (m_sessions (e_mgr e)) end
    end.
Proof.
  intros He Hstr. rewrite handleStream_eq, Hstr. simpl.
  pose proof (good_close st e He) as [Hc1 Hc2].
  destruct (line ≫= unmarshal) as [first|] eqn:Hl; [|by eexists _, None].
  do 2 (case_decide; [by eexists _, None|]).
  destruct (bind_register_ok (msg_CallID first) Inbound st str now e He Hstr)
    as (e1 & r & s1 & -> & He1 & Hiso & Hr & Hs1 & Hle1 & Hst1 & Hstreams & Hnet & _ & _ & Hsess).
  simpl. rewrite Hs1. simpl.
  destruct (ring_ok r s1 now e1 He1 Hs1 Hst1) as (s2 & -> & Hst2 & Hle2 & Hg1 & Hg2).
  simpl. eexists _, (Some r). split; [done|]. split; [done|]. split.
  { intros Hfresh Hi. apply Hg2, Hiso; [|done]. apply Hfresh. unfold first_id. by rewrite Hl. }
  destruct Hle1 as (_ & Hid1 & [_ Hrem1] & _). destruct Hle2 as (_ & Hid2 & [_ Hrem2] & _).
  exists s2, (msg_CallID first). unfold first_id. rewrite Hl. split; [done|].
  split; [apply list_lookup_insert_eq; by eapply lookup_lt_Some|].
  split; [by rewrite Hid2|]. split; [by rewrite Hrem2|]. auto 10.
Qed.

(** What a step may write: nothing, or one message on the stream bound to [id]. *)
Definition wrote (id : string) (e e' : Engine) : Prop :=
  ∀ st str str', e_net e !! st = Some str -> e_net e' !! st = Some str' ->
    st_out str' ≠ st_out str -> e_streams e !! id = Some st.

Lemma wrote_refl id e : wrote id e e.
Proof. intros st str str' ? ?. by simplify_eq. Qed.

Lemma wrote_write id msg e : eng_ok e -> wrote id e (write id msg e).1.
Proof.
  intros He. destruct (write_spec id msg e He) as (_ & _ & _ & _ & Hw).
  destruct ((write id msg e).2) as [|]; [|rewrite Hw; apply wrote_refl].
  destruct Hw as (st & str & Hst & Hstr & _ & Hnet). intros st' str1 str2 H1 H2 Hne.
  rewrite Hnet in H2. destruct (decide (st = st')) as [<-|]; [done|].
  rewrite list_lookup_insert_ne in H2 by done. simplify_eq.
Qed.

Lemma teardown_out id e st str :
  e_net e !! st = Some str -> ∃ str', e_net (teardown id e) !! st = Some str' ∧ st_out str' = st_out str.
Proof.
  intros Hst. unfold teardown, unbindAndClose. destruct (e_streams e !! id) as [st0|]; simpl; [|eauto].
  destruct (decide (st0 = st)) as [->|].
  - rewrite list_lookup_alter_eq, Hst. simpl. eauto.
  - rewrite list_lookup_alter_ne by done. eauto.
Qed.

Lemma Accept_ok r s now e :
  eng_ok e -> session_of r e = Some s ->
  ∃ e' res, Accept r now e = Some (e', res) ∧ good e e' ∧ wrote (s_id s) e e' ∧
    (res = Ok tt -> ∃ s', session_of r e' = Some s' ∧ s_state s' = StateConnected) ∧
    (s_direction s = Inbound -> s_state s = StateRinging ->
     (∃ err, res = Err (ESendAccept err)) ∨ res = Ok tt).
Proof.
  intros He Hs. unfold Accept. rewrite Hs. simpl.
  case_decide as Hd.
  { eexists _, _. split; [done|]. split; [done|]. split; [apply wrote_refl|]. split; [done|]. by intros Hi%Hd. }
  pose proof (wrote_write (s_id s) (mkMessage MsgAccept (s_id s) "" "") e He) as Hwr.
  destruct (write_spec (s_id s) (mkMessage MsgAccept (s_id s) "" "") e He) as (Hg0 & Hmgr & _).
  destruct (write _ _ e) as [e0 [[]|err]]; simpl in Hg0, Hmgr, Hwr.
  2: { eexists _, _. split; [done|]. split; [done|]. split; [done|]. split; [done|]. eauto. }
  assert (session_of r e0 = Some s) as Hs0 by (unfold session_of; by rewrite Hmgr).
  destruct (transition_sess_le StateConnecting "" now s (session_of_ok _ _ _ He Hs))
    as (s1 & r1 & Ht1 & Hle1 & Hst1 & _ & Hsucc1).
  unfold ToConnecting. rewrite Ht1. simpl.
  pose proof (good_store e0 r s s1 (proj1 Hg0) Hs0 Hle1) as Hg1.
  set (e1 := set_mgr _ e0) in *.
  assert (session_of r e1 = Some s1) as Hs1 by (apply list_lookup_insert_eq; by eapply lookup_lt_Some).
  destruct r1 as [[]|err].
  2: { eexists _, _. split; [done|]. split; [by eapply good_trans|]. split; [done|]. split; [done|].
       intros _ Hring. rewrite Hring in Hsucc1. by specialize (Hsucc1 eq_refl ltac:(done)). }
  destruct (transition_sess_le StateConnected "" now s1) as (s2 & r2 & Ht2 & Hle2 & Hst2 & _ & Hsucc2);
    [apply Hle1|].
  unfold ToConnected. rewrite Ht2. cbn [mbind option_bind].
  pose proof (good_store e1 r s1 s2 (proj1 Hg1) Hs1 Hle2) as Hg2.
  assert (r2 = Ok tt) as ->.
  { apply Hsucc2; rewrite Hst1 by done; done. }
  eexists _, _. split; [done|]. split; [eapply good_trans; [exact Hg0|by eapply good_trans]|].
  split; [done|]. split; [|eauto]. intros _. exists s2. split; [|by apply Hst2].
  apply list_lookup_insert_eq. by eapply lookup_lt_Some.
Qed.

Lemma on_session_ok r s f e :
  eng_ok e -> session_of r e = Some s -> (∃ s', f s = Some s' ∧ sess_le s s') ->
  ∃ e' s', on_session r f e = Some e' ∧ good e e' ∧ f s = Some s' ∧
    session_of r e' = Some s' ∧ e_net e' = e_net e ∧ e_streams e' = e_streams e ∧
    m_sessions (e_mgr e') = m_sessions (e_mgr e).
Proof.
  intros He Hs (s' & Hf & Hle). unfold on_session, with_session. unfold session_of in Hs. rewrite Hs, Hf.
  simpl. eexists _, s'. split; [done|]. split; [by eapply good_store|]. split; [done|].
  split; [|done]. apply list_lookup_insert_eq. by eapply lookup_lt_Some.
Qed.

Lemma teardown_session r id e : session_of r (teardown id e) = session_of r e.
Proof. unfold teardown, unbindAndClose. by destruct (e_streams e !! id). Qed.

Lemma teardown_unbound id e :
  e_streams (teardown id e) = delete id (e_streams e) ∧
  m_sessions (e_mgr (teardown id e)) = delete id (m_sessions (e_mgr e)).
Proof. unfold teardown, unbindAndClose. by destruct (e_streams e !! id). Qed.

Lemma Hangup_ok r s reason now e :
  eng_ok e -> session_of r e = Some s ->
  ∃ e' s', Hangup r reason now e = Some e' ∧ good e e' ∧ wrote (s_id s) e e' ∧
    session_of r e' = Some s' ∧ s_state s' = StateEnded ∧
    e_streams e' !! s_id s = None ∧ Get (s_id s) (e_mgr e') = None.
Proof.
  intros He Hs. unfold Hangup. rewrite Hs. simpl.
  pose proof (wrote_write (s_id s) (mkMessage MsgHangup (s_id s) reason "") e He) as Hwr.
  destruct (write_spec (s_id s) (mkMessage MsgHangup (s_id s) reason "") e He) as (Hg0 & Hmgr & _ & Hlen & _).
  destruct (write _ _ e) as [e0 w]; simpl in Hg0, Hmgr, Hwr, Hlen.
  assert (session_of r e0 = Some s) as Hs0 by (unfold session_of; by rewrite Hmgr).
  destruct (End_sess_le reason now s (session_of_ok _ _ _ He Hs)) as (s' & Hend & Hle & Hst).
  destruct (on_session_ok r s (End reason now) e0 (proj1 Hg0) Hs0) as (e1 & s'' & -> & Hg1 & Hf & Hs1 & Hnet & _);
    [eauto|]. simplify_eq. simpl.
  eexists _, s'. split; [done|].
  split; [eapply good_trans; [exact Hg0|eapply good_trans; [exact Hg1|apply good_teardown, Hg1]]|].
  destruct (teardown_unbound (s_id s) e1) as [Hu1 Hu2].
  split; [|rewrite teardown_session, Hu1; unfold Get; rewrite Hu2, !lookup_delete_eq; auto].
  intros st str str' H1 H2 Hne. assert (is_Some (e_net e0 !! st)) as [str0 H0].
  { apply lookup_lt_is_Some. rewrite Hlen. by eapply lookup_lt_Some. }
  rewrite <- Hnet in H0. destruct (teardown_out (s_id s) e1 st str0 H0) as (str1 & H3 & Hout). simplify_eq.
  rewrite Hnet in H0. eapply Hwr; [exact H1|exact H0|congruence].
Qed.

Lemma scanner_end_ok r s x now e :
  eng_ok e -> session_of r e = Some s ->
  ∃ e' s', scanner_end r x now e = Some e' ∧ good e e' ∧ session_of r e' = Some s' ∧
    s_state s' = StateEnded ∧ (s_state s ≠ StateEnded -> s_reason s' = end_reason x) ∧
    e_streams e' = delete (s_id s) (e_streams e) ∧
    m_sessions (e_mgr e') = delete (s_id s) (m_sessions (e_mgr e)).
Proof.
  intros He Hs. unfold scanner_end. rewrite Hs. simpl.
  destruct (End_sess_le (end_reason x) now s (session_of_ok _ _ _ He Hs)) as (s' & Hend & Hle & Hst).
  destruct (on_session_ok r s (End (end_reason x) now) e He Hs)
    as (e1 & s1 & -> & Hg1 & Hf & Hs1 & Hnet & Hstr & Hsess); [eauto|].
  assert (s1 = s') as -> by congruence. simpl.
  destruct (teardown_unbound (s_id s) e1) as [Hu1 Hu2].
  eexists _, s'. split; [done|]. split; [eapply good_trans; [exact Hg1|apply good_teardown, Hg1]|].
  rewrite teardown_session, Hu1, Hu2, Hstr, Hsess. split; [done|]. split; [done|]. split; [|done].
  intros Hne. unfold End in Hend. destruct (End_commit (end_reason x) now s) as [[s2 ev]|] eqn:Hc.
  - apply End_commit_Some in Hc as (_ & -> & _). unfold broadcast in Hend.
    by apply bind_Some in Hend as (h & _ & [= <-]).
  - unfold End_commit in Hc. by case_decide.
Qed.

Lemma scanner_turn_ok r s line now e :
  eng_ok e -> session_of r e = Some s ->
  ∃ e' stop s', scanner_turn unmarshal r line now e = Some (e', stop) ∧ good e e' ∧
    session_of r e' = Some s' ∧ s_id s' = s_id s ∧
    (stop = true -> s_state s' = StateEnded ∧ e_streams e' = delete (s_id s) (e_streams e) ∧
       m_sessions (e_mgr e') = delete (s_id s) (m_sessions (e_mgr e))).
Proof.
  intros He Hs. unfold scanner_turn. rewrite Hs. simpl.
  destruct (unmarshal line) as [msg|]; [|by eexists _, _, s].
  destruct (dispatch_sess_le msg now s (session_of_ok _ _ _ He Hs)) as (s' & stop & -> & Hle & Hst). simpl.
  pose proof (good_store e r s s' He Hs Hle) as Hg. set (e1 := set_mgr _ e) in *.
  assert (session_of r e1 = Some s') as Hs1 by (apply list_lookup_insert_eq; by eapply lookup_lt_Some).
  destruct stop.
  - eexists _, _, s'. split; [done|]. split; [eapply good_trans; [exact Hg|apply good_teardown, Hg]|].
    destruct (teardown_unbound (s_id s) e1) as [-> ->]. rewrite teardown_session. split; [done|].
    split; [apply Hle|]. auto.
  - eexists _, _, s'. split; [done|]. split; [done|]. split; [done|]. split; [apply Hle|done].
Qed.

Lemma runScanner_ok r s lines x now e :
  eng_ok e -> session_of r e = Some s ->
  ∃ e' s', runScanner unmarshal r lines x now e = Some e' ∧ good e e' ∧
    session_of r e' = Some s' ∧ s_state s' = StateEnded ∧
    e_streams e' !! s_id s = None ∧ Get (s_id s) (e_mgr e') = None.
Proof.
  revert s e. induction lines as [|line lines IH]; intros s e He Hs; simpl.
  - destruct (scanner_end_ok r s x now e He Hs) as (e' & s' & ? & ? & ? & ? & _ & Hst & Hm).
    exists e', s'. unfold Get. rewrite Hst, Hm, !lookup_delete_eq. auto 10.
  - destruct (scanner_turn_ok r s line now e He Hs) as (e1 & stop & s1 & -> & Hg1 & Hs1 & Hid & Hstop).
    simpl. destruct stop.
    + destruct (Hstop eq_refl) as (Hst & Hst' & Hm). exists e1, s1. unfold Get.
      rewrite Hst', Hm, !lookup_delete_eq. auto 10.
    + destruct (IH s1 e1 (proj1 Hg1) Hs1) as (e' & s' & ? & ? & ? & ? & ? & ?).
      rewrite Hid in *. exists e', s'. split; [done|]. split; [by eapply good_trans|]. auto 10.
Qed.

(** [Place] with its middle part named. *)
Lemma Place_eq resolver newStream remote id wbreaks now e :
  Place newMultiaddr encapsulate resolver newStream relays errorText remote id wbreaks now e =
  let '(calls, res) := Place_dial newMultiaddr encapsulate resolver newStream relays remote in
  match res with
  | Err err => Some (e, calls, Err (EOpen err))
  | Ok _ =>
      let '(e, st) := open_stream remote e in
      let e := if wbreaks
               then set_net (alter (fun s => mkStream (st_remote s) (st_out s) (st_closed s) true) st (e_net e)) e
               else e in
      '(e, r) ← bind_register id remote Outbound st now e;
      match write id (mkMessage MsgInvite id "" (e_self e)) e with
      | (e, Err err) =>
          e ← on_session r (End ("failed to send INVITE: " +:+ errorText err) now) e;
          Some (teardown id e, calls, Err (ESendInvite err))
      | (e, Ok _) =>
          s ← session_of r e;
          '(s', res) ← ToRinging now s;
          let e := set_mgr (set_store (<[r := s']> (m_store (e_mgr e))) (e_mgr e)) e in
          match res with
          | Err err => Some (e, calls, Err (ERinging err))
          | Ok _ => Some (e, calls, Ok r)
          end
      end
  end.
Proof.
  unfold Place, bind_register. destruct (Place_dial _ _ _ _ _ _) as [calls [u|err]]; [|done].
  destruct (open_stream remote e) as [e0 st]. simpl.
  destruct wbreaks; by destruct (Register _ _).
Qed.

Lemma Place_ok resolver newStream remote id wbreaks now e :
  eng_ok e ->
  ∃ e' calls res,
    Place newMultiaddr encapsulate resolver newStream relays errorText remote id wbreaks now e =
      Some (e', calls, res) ∧ eng_ok e' ∧
    (fresh_id id e -> isolated e -> isolated e') ∧
    match res with
    | Ok r => wbreaks = false ∧
        ∃ s st, session_of r e' = Some s ∧ s_id s = id ∧ s_remote s = remote ∧
          s_direction s = Outbound ∧ s_state s = StateRinging ∧ e_streams e' !! id = Some st ∧
          e_net e' !! st = Some (mkStream remote [mkMessage MsgInvite id "" (e_self e)] false false) ∧
          (Get id (e_mgr e) = None -> Get id (e_mgr e') = Some r)
    | Err (EOpen _) => e' = e
    | Err (ESendInvite _) => wbreaks = true ∧ e_streams e' !! id = None ∧ Get id (e_mgr e') = None
    | Err (ERinging _) => False
    end.
Proof.
  intros He. rewrite Place_eq.
  destruct (Place_dial _ _ _ _ _ _) as [calls [u|err]]; [|by eexists _, _, _].
  destruct (good_open remote e He) as [Hg0 Hst0].
  destruct (open_stream remote e) as [e0 st] eqn:Hopen. simpl in Hg0, Hst0.
  assert (e_mgr e0 = e_mgr e ∧ e_streams e0 = e_streams e ∧ e_self e0 = e_self e) as (Hm0 & Hstr0 & Hself0)
    by (injection Hopen as <- _; done).
  cbv beta iota zeta. set (e1 := if wbreaks then _ else e0).
  assert (good e e1 ∧ e_mgr e1 = e_mgr e ∧ e_streams e1 = e_streams e ∧ e_self e1 = e_self e ∧
    e_net e1 !! st = Some (mkStream remote [] false wbreaks)) as (Hg1 & Hm1 & Hs1 & Hself1 & Hst1).
  { subst e1. destruct wbreaks; simpl; [|done]. split; [|by rewrite list_lookup_alter_eq, Hst0].
    eapply good_trans; [exact Hg0|]. apply good_alter; [apply Hg0|done]. }
  clearbody e1. clear Hopen Hst0 Hg0 Hm0 Hstr0 Hself0 e0.
  destruct (bind_register_ok id Outbound st _ now e1 (proj1 Hg1) Hst1)
    as (e2 & r & s2 & Hbr & He2 & Hiso & _ & Hr2 & Hle2 & Hidle & Hstreams2 & Hnet2 & Hself2 & _ & Hsess2).
  simpl in Hbr, Hle2. rewrite Hbr. cbn [mbind option_bind].
  assert (fresh_id id e -> isolated e -> isolated e2) as Hiso2.
  { intros Hf Hi. apply Hiso; [|by apply Hg1]. unfold fresh_id. by rewrite Hm1, Hs1. }
  clear Hiso Hbr. unfold write. rewrite (eo_encs _ He2), Hstreams2, lookup_insert_eq, Hnet2, Hst1.
  cbn [st_closed st_broken orb]. destruct wbreaks.
  - destruct (End_sess_le ("failed to send INVITE: " +:+ errorText EEncode) now s2
      (session_of_ok _ _ _ He2 Hr2)) as (s' & Hend & Hle & Hst).
    destruct (on_session_ok r s2 (End ("failed to send INVITE: " +:+ errorText EEncode) now) e2 He2 Hr2)
      as (e3 & s'' & -> & Hg3 & _); [eauto|].
    simpl. eexists _, _, _. split; [done|].
    pose proof (good_teardown id e3 (proj1 Hg3)) as Hg4.
    split; [apply Hg4|]. split; [intros ? ?; by apply Hg4, Hg3, Hiso2|]. split; [done|].
    destruct (teardown_unbound id e3) as [-> Hu]. unfold Get. rewrite Hu, !lookup_delete_eq. done.
  - cbn [st_remote st_out app]. set (e3 := set_net _ e2).
    assert (good e2 e3) as Hg3.
    { apply good_net; [done|]. intros st' str Hstr'. destruct (decide (st = st')) as [<-|].
      - rewrite Hnet2, Hst1 in Hstr'. simplify_eq. eexists.
        split; [apply list_lookup_insert_eq; by eapply lookup_lt_Some|done].
      - rewrite list_lookup_insert_ne by done. rewrite Hnet2 in Hstr'. eauto. }
    change (session_of r e3) with (session_of r e2). rewrite Hr2. cbn [mbind option_bind].
    destruct (ring_ok r s2 now e3 (proj1 Hg3) Hr2 Hidle) as (s4 & -> & Hst4 & Hle4 & Hg4).
    cbn [mbind option_bind].
    eexists _, _, _. split; [done|]. split; [apply Hg4|].
    split; [intros ? ?; by apply Hg4, Hg3, Hiso2|]. split; [done|]. exists s4, st.
    destruct Hle2 as (_ & Hid2 & [Hd2 Hrem2] & _). destruct Hle4 as (_ & Hid4 & [Hd4 Hrem4] & _). simpl in *.
    split; [apply list_lookup_insert_eq; by eapply lookup_lt_Some|].
    split; [congruence|]. split; [congruence|]. split; [congruence|]. split; [done|].
    split; [by rewrite Hstreams2, lookup_insert_eq|]. split.
    + rewrite list_lookup_insert_eq by (by eapply lookup_lt_Some). by rewrite Hself2, Hself1.
    + unfold Get in *. simpl. rewrite Hsess2, Hm1. intros ->. by rewrite lookup_insert_eq.
Qed.

(** *** Steps of the registry alone *)

Definition same_calls (m m' : Manager) : Prop :=
  m_sessions m' = m_sessions m ∧
  ∀ r s, m_store m !! r = Some s -> ∃ s', m_store m' !! r = Some s' ∧ s_remote s' = s_remote s.

Lemma same_calls_refl m : same_calls m m.
Proof. split; eauto. Qed.

Lemma same_calls_eq m m' :
  m_sessions m' = m_sessions m -> m_store m' = m_store m -> same_calls m m'.
Proof. intros H1 H2. split; [done|]. rewrite H2. eauto. Qed.

Lemma same_calls_trans m1 m2 m3 : same_calls m1 m2 -> same_calls m2 m3 -> same_calls m1 m3.
Proof.
  intros [H1 H2] [H3 H4]. split; [congruence|]. intros r s (s' & Hs' & Hr)%H2.
  destruct (H4 r s' Hs') as (s'' & ? & ?). exists s''. split; [done|congruence].
Qed.

Lemma same_calls_store r s s' m :
  m_store m !! r = Some s -> s_remote s' = s_remote s ->
  same_calls m (set_store (<[r := s']> (m_store m)) m).
Proof.
  intros Hr Hrem. split; [done|]. intros r0 s0 Hr0. simpl. destruct (decide (r = r0)) as [<-|].
  - simplify_eq. exists s'. split; [|done]. apply list_lookup_insert_eq. by eapply lookup_lt_Some.
  - exists s0. by rewrite list_lookup_insert_ne.
Qed.

Lemma Unsubscribe_remote id s s' : Unsubscribe id s = Some s' -> s_remote s' = s_remote s.
Proof. unfold Unsubscribe. by intros (h & _ & [= <-])%bind_Some. Qed.

Lemma forwarder_turn_same i m m' : forwarder_turn i m = Some m' -> same_calls m m'.
Proof.
  assert (∀ f m m', forwarder_exit i f m = Some m' -> same_calls m m') as Hexit.
  { unfold forwarder_exit. intros f m0 m1 (s & Hs & (s' & Hu%Unsubscribe_remote & [= <-])%bind_Some)%bind_Some.
    by destruct (same_calls_store _ _ _ _ Hs Hu). }
  unfold forwarder_turn. destruct (m_forwarders m !! i) as [f|]; [|intros [= <-]; apply same_calls_refl].
  intros (s & Hs & (c & _ & Hrest)%bind_Some)%bind_Some.
  destruct (recv c) as [ev c'| |]; [|by eapply Hexit|injection Hrest as <-; apply same_calls_refl].
  set (s1 := set_hub _ s) in Hrest. cbv zeta in Hrest.
  pose proof (same_calls_store (f_sess f) s s1 m Hs eq_refl) as Hstep.
  apply bind_Some in Hrest as (m1 & Hf & (m2 & Hx & [= <-])%bind_Some).
  unfold fanout in Hf. apply bind_Some in Hf as (chans & _ & [= <-]).
  eapply same_calls_trans; [exact Hstep|].
  assert (same_calls (set_subs (m_subs m) chans (set_store (<[f_sess f:=s1]> (m_store m)) m)) m2) as H2.
  { destruct (String.eqb _ _); [by eapply Hexit|]. injection Hx as <-. apply same_calls_refl. }
  destruct H2. by split.
Qed.

(** The steps of the registry's own goroutines and of its readers. *)
Definition registry_op (o : mop) : bool :=
  match o with MNew _ _ _ _ | MRegister _ | MRemove _ => false | _ => true end.

Lemma registry_op_same o m m' :
  manager_ok m -> registry_op o = true -> mgr_do o m = Some m' -> same_calls m m'.
Proof.
  intros Hm Ho.
  assert (∀ r f m0 m0', m_store m0 = m_store m -> m_sessions m0 = m_sessions m ->
    (∀ s s', session_ok s -> f s = Some s' -> s_remote s' = s_remote s) ->
    with_session r f m0 = Some m0' -> same_calls m m0') as Hws.
  { intros r f m0 m0' Hst Hse Hf. unfold with_session. rewrite Hst.
    destruct (m_store m !! r) as [s|] eqn:Hr; [|intros [= <-]; split; [done|rewrite Hst; eauto]].
    intros (s' & Hs'%Hf & [= <-])%bind_Some; [|by eapply Forall_lookup_1; [apply (mo_store _ Hm)|]].
    destruct (same_calls_store _ _ _ _ Hr Hs'). split; [done|]. simpl. done. }
  assert (∀ r s o0, m_store m !! r = Some s -> (∀ s' ev, o0 = Some (s', ev) -> s_remote s' = s_remote s) ->
    same_calls m (commit r o0 m)) as Hcommit.
  { intros r s o0 Hr Ho0. destruct o0 as [[s' ev]|]; [|apply same_calls_refl].
    destruct (same_calls_store _ _ _ _ Hr (Ho0 s' ev eq_refl)). by split. }
  destruct o as [id remote dir now|r|id| |ch|r target now|r reason now|k|i|r|r id|ch|]; simpl in *; try done.
  - intros [= <-]. by apply same_calls_eq.
  - unfold UnsubscribeStateChanges. destruct (find_index _ _); [|intros [= <-]; apply same_calls_refl].
    intros (chans & _ & [= <-])%bind_Some. by apply same_calls_eq.
  - destruct (m_store m !! r) as [s|] eqn:Hr; [|intros [= <-]; apply same_calls_refl].
    intros [= <-]. eapply Hcommit; [done|]. intros s' ev Ht.
    destruct (transition_commit target "" now s) as [[s1 ev1]|] eqn:Hc; simplify_eq/=.
    by apply transition_commit_Ok in Hc as (_ & _ & -> & _).
  - destruct (m_store m !! r) as [s|] eqn:Hr; [|intros [= <-]; apply same_calls_refl].
    intros [= <-]. eapply Hcommit; [done|]. by intros s' ev (_ & -> & _)%End_commit_Some.
  - destruct (m_pending m !! k) as [[r ev]|]; [|intros [= <-]; apply same_calls_refl].
    apply Hws; [done..|]. intros s s' Hs Hb. destruct (broadcast_sess_le ev s Hs) as (s0 & Hb0 & Hle).
    simplify_eq. apply Hle.
  - apply forwarder_turn_same.
  - apply Hws; [done..|]. by intros s s' _ [= <-].
  - apply Hws; [done..|]. intros s s' _. apply Unsubscribe_remote.
  - destruct (m_chans m !! ch) as [c|]; [destruct (recv c)|]; intros [= <-]; by apply same_calls_eq.
  - destruct (recv (m_inbound m)); intros [= <-]; by apply same_calls_eq.
Qed.

Lemma good_registry o m e :
  eng_ok e -> registry_op o = true -> mgr_do o (e_mgr e) = Some m -> good e (set_mgr m e).
Proof.
  intros [Hm He Hn] Ho Hdo. destruct (registry_op_same _ _ _ Hm Ho Hdo) as [Hsess Hst].
  destruct (mgr_do_ok o _ Hm) as (m' & Hdo' & Hm'). simplify_eq. split; [by constructor|].
  intros Hiso id r st Hg Hstr. unfold Get in Hg. simpl in Hg, Hstr. rewrite Hsess in Hg.
  destruct (Hiso id r st Hg Hstr) as (s & str & Hs & Hnet & Hrem).
  destruct (Hst r s Hs) as (s' & Hs' & Hrem'). exists s', str. split; [done|]. split; [done|congruence].
Qed.

(** ** Runs of the engine *)

Inductive eop :=
| EStream (remote : string) (line : option bytes) (now : Z)   (* a peer opens a stream *)
| EPlace (resolver : option (nat -> result string (list Addr))) (newStream : nat -> result string ())
    (remote id : string) (wbreaks : bool) (now : Z)
| EAccept (id : string) (now : Z)
| EHangup (id reason : string) (now : Z)
| ETurn (r : nat) (line : bytes) (now : Z)                    (* a read loop, one message *)
| EEnd (r : nat) (x : ScanEnd) (now : Z)                      (* a read loop, end of stream *)
| EStop
| EBreak (st : nat)                                           (* the network loses a stream *)
| ERegistry (o : mop).                                        (* a goroutine of the registry *)

Definition on_existing {A} (o : option A) (f : A -> option Engine) (e : Engine) : option Engine :=
  match o with None => Some e | Some a => f a end.

Definition eng_do (o : eop) (e : Engine) : option Engine :=
  match o with
  | EStream remote line now =>
      let '(e, st) := open_stream remote e in drop_result (handleStream unmarshal st line now e)
  | EPlace resolver newStream remote id wbreaks now =>
      drop_result (drop_result
        (Place newMultiaddr encapsulate resolver newStream relays errorText remote id wbreaks now e))
  | EAccept id now => on_existing (Get id (e_mgr e)) (fun r => drop_result (Accept r now e)) e
  | EHangup id reason now => on_existing (Get id (e_mgr e)) (fun r => Hangup r reason now e) e
  | ETurn r line now =>
      on_existing (session_of r e) (fun _ => drop_result (scanner_turn unmarshal r line now e)) e
  | EEnd r x now => on_existing (session_of r e) (fun _ => scanner_end r x now e) e
  | EStop => Some (Stop e)
  | EBreak st =>
      Some (set_net (alter (fun s => mkStream (st_remote s) (st_out s) (st_closed s) true) st (e_net e)) e)
  | ERegistry o =>
      if registry_op o then m ← mgr_do o (e_mgr e); Some (set_mgr m e) else Some e
  end.

(** No INVITE, received or sent, reuses the id of a call in progress. *)
Definition eop_fresh (o : eop) (e : Engine) : Prop :=
  match o with
  | EStream _ line _ => ∀ id, first_id line = Some id -> fresh_id id e
  | EPlace _ _ _ id _ _ => fresh_id id e
  | _ => True
  end.

Lemma Get_session e id r : eng_ok e -> Get id (e_mgr e) = Some r ->
  ∃ s, session_of r e = Some s ∧ s_id s = id.
Proof. intros He. apply (mo_sess _ (eo_mgr _ He)). Qed.

Lemma eng_do_ok o e :
  eng_ok e -> ∃ e', eng_do o e = Some e' ∧ eng_ok e' ∧ (eop_fresh o e -> isolated e -> isolated e').
Proof.
  intros He. destruct o as [remote line now|resolver newStream remote id wbreaks now|id now|id reason now
    |r line now|r x now| |st|o]; cbn [eng_do eop_fresh].
  - destruct (good_open remote e He) as [Hg0 Hst0].
    destruct (open_stream remote e) as [e0 st] eqn:Ho. simpl in Hg0, Hst0.
    destruct (handleStream_ok st _ line now e0 (proj1 Hg0) Hst0) as (e' & o & -> & Hok & Hiso & _).
    exists e'. split; [done|]. split; [done|]. intros Hf Hi. apply Hiso; [|by apply Hg0].
    by injection Ho as <- _.
  - destruct (Place_ok resolver newStream remote id wbreaks now e He) as (e' & calls & res & -> & Hok & Hiso & _).
    eauto.
  - destruct (Get id (e_mgr e)) as [r|] eqn:Hg; simpl; [|by eauto].
    destruct (Get_session e id r He Hg) as (s & Hs & _).
    destruct (Accept_ok r s now e He Hs) as (e' & res & -> & [? ?] & _). simpl. eauto.
  - destruct (Get id (e_mgr e)) as [r|] eqn:Hg; simpl; [|by eauto].
    destruct (Get_session e id r He Hg) as (s & Hs & _).
    destruct (Hangup_ok r s reason now e He Hs) as (e' & s' & -> & [? ?] & _). eauto.
  - destruct (session_of r e) as [s|] eqn:Hs; simpl; [|by eauto].
    destruct (scanner_turn_ok r s line now e He Hs) as (e' & stop & s' & -> & [? ?] & _). simpl. eauto.
  - destruct (session_of r e) as [s|] eqn:Hs; simpl; [|by eauto].
    destruct (scanner_end_ok r s x now e He Hs) as (e' & s' & -> & [? ?] & _). eauto.
  - destruct (good_stop e He). eauto.
  - destruct (good_alter e st (fun s => mkStream (st_remote s) (st_out s) (st_closed s) true) He); [done|]. eauto.
  - destruct (registry_op o) eqn:Ho; [|by eauto].
    destruct (mgr_do_ok o _ (eo_mgr _ He)) as (m & Hdo & Hm). rewrite Hdo. simpl.
    destruct (good_registry o m e He Ho Hdo). eauto.
Qed.

Definition eng_step (e e' : Engine) : Prop := ∃ o, eop_fresh o e ∧ eng_do o e = Some e'.

Fixpoint eng_run (os : list eop) (e : Engine) : option Engine :=
  match os with
  | [] => Some e
  | o :: os => e ← eng_do o e; eng_run os e
  end.

Lemma NewEngine_ok self : eng_ok (NewEngine self).
Proof. constructor; simpl; [apply NewManager_ok|done|]. intros id st. by rewrite lookup_empty. Qed.

Lemma eng_run_ok os e : eng_ok e -> ∃ e', eng_run os e = Some e' ∧ eng_ok e'.
Proof.
  revert e. induction os as [|o os IH]; intros e He; [eauto|].
  destruct (eng_do_ok o e He) as (e1 & Ho & He1 & _). simpl. rewrite Ho. simpl. by apply IH.
Qed.

Lemma eng_steps_ok self e : rtc eng_step (NewEngine self) e -> eng_ok e ∧ isolated e.
Proof.
  apply (rtc_invariant eng_step (fun e => eng_ok e ∧ isolated e)).
  - intros e1 e2 [He Hi] (o & Hf & Hdo). destruct (eng_do_ok o e1 He) as (e' & Hdo' & He' & Hi').
    simplify_eq. auto.
  - split; [apply NewEngine_ok|]. intros id r st Hg. unfold Get in Hg. simpl in Hg. by rewrite lookup_empty in Hg.
Qed.

(** Between [e] and [e'] messages were written to streams of [peer] only. *)
Definition confined (peer : string) (e e' : Engine) : Prop :=
  ∀ st str str', e_net e !! st = Some str -> e_net e' !! st = Some str' ->
    st_out str' ≠ st_out str -> st_remote str = peer.

Lemma wrote_confined e e' id r s :
  isolated e -> Get id (e_mgr e) = Some r -> session_of r e = Some s -> s_id s = id ->
  wrote (s_id s) e e' -> confined (s_remote s) e e'.
Proof.
  intros Hiso Hg Hs Hid Hw st str str' H1 H2 Hne. specialize (Hw st str str' H1 H2 Hne).
  rewrite Hid in Hw. destruct (Hiso id r st Hg Hw) as (s0 & str0 & ? & ? & ?). by simplify_eq.
Qed.

(** C2: no handler of the call engine panics, whatever peers send, in any
    interleaving; and as long as no INVITE reuses the id of a call in
    progress, answering or hanging up a call writes on a stream of that
    call's own peer only, the answered call of a ringing session being
    connected afterwards, and the hung-up one ended, unbound and unregistered. *)
Theorem call_isolation os self e id r s reason now :
  (∃ e0, eng_run os (NewEngine self) = Some e0) ∧
  (rtc eng_step (NewEngine self) e -> Get id (e_mgr e) = Some r -> session_of r e = Some s ->
   (∃ e' res, Accept r now e = Some (e', res) ∧ confined (s_remote s) e e' ∧
      (res = Ok tt -> ∃ s', session_of r e' = Some s' ∧ s_state s' = StateConnected)) ∧
   (∃ e' s', Hangup r reason now e = Some e' ∧ confined (s_remote s) e e' ∧
      session_of r e' = Some s' ∧ s_state s' = StateEnded ∧
      e_streams e' !! id = None ∧ Get id (e_mgr e') = None)).
Proof.
  split.
  { destruct (eng_run_ok os (NewEngine self) (NewEngine_ok self)) as (e0 & ? & _). eauto. }
  intros [He Hiso]%eng_steps_ok Hg Hs.
  destruct (Get_session e id r He Hg) as (s0 & Hs0 & Hid). simplify_eq.
  split.
  - destruct (Accept_ok r s now e He Hs) as (e' & res & ? & _ & Hw & Hc & _).
    exists e', res. split; [done|]. split; [|done]. by eapply wrote_confined.
  - destruct (Hangup_ok r s reason now e He Hs) as (e' & s' & ? & _ & Hw & ? & ? & ? & ?).
    exists e', s'. split; [done|]. split; [by eapply wrote_confined|]. auto.
Qed.

(** An INVITE that reuses the id of a call in progress hijacks it: the
    victim stays registered under the id, but its control messages now go to
    the intruder's stream, and when the intruder disconnects the victim is
    dropped from the registry and can no longer reach its own peer. *)
Theorem duplicate_invite_hijacks e id r s st str line msg now x :
  eng_ok e -> Get id (e_mgr e) = Some r -> session_of r e = Some s ->
  e_net e !! st = Some str -> st_closed str = false -> st_broken str = false ->
  unmarshal line = Some msg -> msg = mkMessage MsgInvite id "" "" -> id ≠ "" ->
  ∃ e1 r1, handleStream unmarshal st (Some line) now e = Some (e1, Some r1) ∧ r1 ≠ r ∧
    Get id (e_mgr e1) = Some r ∧
    (∀ m, ∃ e2, write id m e1 = (e2, Ok tt) ∧
       st_out <$> e_net e2 !! st = Some (st_out str ++ [m])) ∧
    ∃ e3, scanner_end r1 x now e1 = Some e3 ∧ Get id (e_mgr e3) = None ∧
      ∀ m, write id m e3 = (e3, Err (ENoStream id)).
Proof.
  clear newMultiaddr encapsulate relays errorText.
  intros He Hg Hs Hstr Hcl Hbr Hun -> Hid.
  assert (first_id (Some line) = Some id) as Hfid by (unfold first_id; simpl; by rewrite Hun).
  destruct (handleStream_ok st str (Some line) now e He Hstr) as (e1 & o & Hh & He1 & _ & Ho).
  destruct o as [r1|].
  2: { exfalso. rewrite handleStream_eq, Hstr in Hh. cbn [mbind option_bind] in Hh.
       rewrite Hun, decide_False, decide_False in Hh by (simpl; naive_solver).
       cbn [msg_CallID] in Hh.
       destruct (bind_register_ok id Inbound st str now e He Hstr)
         as (e2 & r2 & s2 & Hb & He2 & _ & _ & Hs2 & Hle2 & Hst2 & _).
       rewrite Hb in Hh. simpl in Hh. rewrite Hs2 in Hh. simpl in Hh.
       destruct (ring_ok r2 s2 now e2 He2 Hs2 Hst2) as (s3 & Ht & _). rewrite Ht in Hh. by simplify_eq/=. }
  destruct Ho as (s1 & id1 & Hfid' & Hs1 & Hid1 & _ & _ & Hr1 & Hstreams & Hnet & Hsess).
  simplify_eq. rewrite Hg in Hsess.
  assert (r1' : length (m_store (e_mgr e)) ≠ r).
  { intros <-. unfold session_of in Hs. apply lookup_lt_Some in Hs. lia. }
  exists e1, (length (m_store (e_mgr e))). split; [done|]. split; [done|].
  split; [unfold Get in *; by rewrite Hsess|]. split.
  - intros m. unfold write. rewrite (eo_encs _ He1), Hstreams, lookup_insert_eq, Hnet, Hstr, Hcl, Hbr. simpl.
    eexists. split; [done|]. simpl. rewrite list_lookup_insert_eq by (by eapply lookup_lt_Some). done.
  - destruct (scanner_end_ok _ s1 x now e1 He1 Hs1) as (e3 & s3 & -> & [He3 _] & _ & _ & _ & Hstr3 & Hsess3).
    exists e3. split; [done|]. split; [unfold Get; by rewrite Hsess3, lookup_delete_eq|].
    intros m. unfold write. by rewrite (eo_encs _ He3), Hstr3, lookup_delete_eq.
Qed.

End steps.

(** ** Dialing *)

Definition is_dial {Addr} (c : NetCall Addr) : bool := match c with CDial => true | _ => false end.

Section dial_lemmas.
Context {Addr : Type} (newMultiaddr : string -> option Addr) (encapsulate : Addr -> Addr -> Addr).
Context (resolver : option (nat -> result string (list Addr))) (newStream : nat -> result string ()).
Context (relays : list (string * list Addr)).

#[local] Notation dial := (Place_dial newMultiaddr encapsulate resolver newStream relays).

Lemma relay_fallback_no_dial :
  filter is_dial (populatePeerstoreWithRelayFallback newMultiaddr encapsulate relays) = [].
Proof.
  unfold populatePeerstoreWithRelayFallback. case_decide; [done|].
  destruct (newMultiaddr _) as [circuit|]; [|done].
  clear. induction relays as [|[id addrs] l IH]; [done|]. rewrite bind_cons, filter_app, IH, app_nil_r.
  destruct (newMultiaddr _) as [p2p|]; [|done]. apply filter_none, Forall_fmap, Forall_forall.
  intros a _ [].
Qed.

Lemma resolver_no_dial n b :
  filter is_dial (populatePeerstoreFromResolver resolver n b).1 = [].
Proof.
  unfold populatePeerstoreFromResolver. destruct resolver as [resolve|]; [|done].
  by destruct b, (resolve n) as [[]|].
Qed.

Lemma resolver_fresh calls :
  populatePeerstoreFromResolver resolver 1 true = (calls, true) ->
  ∃ resolve addrs, resolver = Some resolve ∧ resolve 1 = Ok addrs ∧ addrs ≠ [] ∧
    calls = [CInvalidate; CResolve; CAddAddrs addrs].
Proof.
  unfold populatePeerstoreFromResolver. destruct resolver as [resolve|]; [|done].
  destruct (resolve 1) as [[|a addrs]|] eqn:Hr; intros [= <-]. eexists resolve, _. eauto.
Qed.

(** [Place] dials once, and a second time only when the first dial failed
    and a forced fresh lookup, right before, found addresses; when no stream
    could be opened it drops the resolver's cached entry last, and it succeeds
    exactly when one of those dials does. *)
Theorem Place_dial_bounded remote :
  let '(calls, res) := dial remote in
  (length (filter is_dial calls) = 1 ∨
   length (filter is_dial calls) = 2 ∧
   ∃ err resolve addrs pre post, newStream 0 = Err err ∧ resolver = Some resolve ∧ resolve 1 = Ok addrs ∧
     addrs ≠ [] ∧ calls = pre ++ [CInvalidate; CResolve; CAddAddrs addrs; CDial] ++ post) ∧
  (res = Ok tt <-> newStream 0 = Ok tt ∨ length (filter is_dial calls) = 2 ∧ newStream 1 = Ok tt) ∧
  (∀ e, res = Err e -> ∃ msg, e = translateDialError remote msg ∧
     (newStream 0 = Err msg ∨ newStream 1 = Err msg) ∧ (is_Some resolver -> last calls = Some CInvalidate)).
Proof.
  unfold Place_dial.
  pose proof (resolver_no_dial 0 false) as Hc1. destruct (populatePeerstoreFromResolver resolver 0 false) as [c1 b1].
  pose proof relay_fallback_no_dial as Hc2.
  set (c2 := populatePeerstoreWithRelayFallback _ _ _) in *. simpl in Hc1.
  assert (Hd : ∀ l, filter is_dial (c1 ++ c2 ++ [CDial] ++ l) = CDial :: filter is_dial l).
  { intros l. by rewrite !filter_app, Hc1, Hc2. }
  destruct (newStream 0) as [[]|err] eqn:H0.
  { rewrite <- (app_nil_r (c1 ++ c2 ++ [CDial])), <- !app_assoc, Hd. simpl.
    split; [by left|]. split; [split; eauto|done]. }
  destruct resolver as [resolve|] eqn:Hres.
  2: { rewrite app_nil_r. rewrite <- (app_nil_r (c1 ++ c2 ++ [CDial])), <- !app_assoc, Hd. simpl.
       split; [by left|]. split; [split; [done|]; intros [?|[? _]]; done|].
       intros e [= <-]. exists err. split; [done|]. split; [by left|]. by intros [? ?]. }
  pose proof (resolver_no_dial 1 true) as Hc3. pose proof resolver_fresh as Hfr. rewrite Hres in Hc3, Hfr.
  destruct (populatePeerstoreFromResolver (Some resolve) 1 true) as [c3 fresh]. simpl in Hc3.
  destruct fresh.
  - destruct (Hfr c3 eq_refl) as (resolve' & addrs & [= <-] & Hr1 & Hne & ->).
    destruct (newStream 1) as [[]|err1] eqn:H1.
    + rewrite <- !app_assoc, Hd. simpl. split.
      { right. split; [done|]. exists err, resolve, addrs, (c1 ++ c2 ++ [CDial]), []. rewrite <- !app_assoc. auto. }
      split; [split; auto|done].
    + rewrite <- !app_assoc, Hd. simpl. split.
      { right. split; [done|]. exists err, resolve, addrs, (c1 ++ c2 ++ [CDial]), [CInvalidate].
        rewrite <- !app_assoc. auto. }
      split; [split; [done|]; intros [?|[_ ?]]; done|].
      intros e [= <-]. exists err1. split; [done|]. split; [by right|]. intros _.
      by rewrite !last_app.
  - rewrite <- !app_assoc, Hd, filter_app, Hc3. simpl. split; [by left|].
    split; [split; [done|]; intros [?|[? _]]; done|].
    intros e [= <-]. exists err. split; [done|]. split; [by left|]. intros _.
    by rewrite !last_app, last_cons, last_app.
Qed.
End dial_lemmas.

(** ** Witnesses *)

Section witness.

(** Two messages of a toy encoding. *)
Definition demo_unmarshal (b : bytes) : option Message :=
  match b with
  | [105%Z] => Some (mkMessage MsgInvite "c-1" "" "")
  | [97%Z] => Some (mkMessage MsgAccept "c-1" "" "")
  | _ => None
  end.

Definition demo_steps : list (eop (Addr := string)) :=
  [EStream "peerA" (Some [105%Z]) 1; ERegistry MSubscribe].

#[local] Notation run := (eng_run demo_unmarshal Some String.append [] (fun _ => "err")).

Definition demo_engine : Engine := default (NewEngine "me") (run demo_steps (NewEngine "me")).

Lemma demo_engine_run : run demo_steps (NewEngine "me") = Some demo_engine.
Proof. vm_compute. reflexivity. Qed.

Lemma demo_engine_reachable :
  rtc (eng_step demo_unmarshal Some String.append [] (fun _ => "err")) (NewEngine "me") demo_engine.
Proof.
  eapply rtc_l.
  { exists (EStream "peerA" (Some [105%Z]) 1). split; [|vm_compute; reflexivity].
    intros id [= <-]. by split. }
  eapply rtc_l; [|reflexivity]. exists (ERegistry MSubscribe). split; [done|vm_compute; reflexivity].
Qed.

Definition demo_sess : Session := default (NewSession "" "" Inbound 0) (session_of 0 demo_engine).

Lemma call_isolation_witness :
  (∃ e', Accept 0 2 demo_engine = Some e') /\
  ∃ e' s', Hangup 0 "bye" 2 demo_engine = Some e' ∧ confined "peerA" demo_engine e' ∧
      session_of 0 e' = Some s' ∧ s_state s' = StateEnded ∧
      e_streams e' !! "c-1" = None ∧ Get "c-1" (e_mgr e') = None.
Proof.
  destruct (proj2 (call_isolation demo_unmarshal Some String.append [] (fun _ => "err") [] "me"
    demo_engine "c-1" 0 demo_sess "bye" 2) demo_engine_reachable eq_refl eq_refl)
    as [(e' & res & Ha & _) Hh].
  split; [by exists (e', res)|]. exact Hh.
Defined.

(** The intruder's stream, with the same call id. *)
Definition demo_attacked : Engine := (open_stream "mallory" demo_engine).1.

Lemma duplicate_invite_hijacks_witness :
  ∃ e1 r1, handleStream demo_unmarshal 1 (Some [105%Z]) 3 demo_attacked = Some (e1, Some r1) ∧ r1 ≠ 0 ∧
    Get "c-1" (e_mgr e1) = Some 0 ∧
    (∀ m, ∃ e2, write "c-1" m e1 = (e2, Ok tt) ∧ st_out <$> e_net e2 !! 1 = Some [m]) ∧
    ∃ e3, scanner_end r1 ScanEOF 3 e1 = Some e3 ∧ Get "c-1" (e_mgr e3) = None ∧
      ∀ m, write "c-1" m e3 = (e3, Err (ENoStream "c-1")).
Proof.
  assert (eng_ok demo_attacked) as He.
  { apply (good_open "mallory" demo_engine).
    exact (proj1 (eng_steps_ok demo_unmarshal Some String.append [] (fun _ => "err") "me" demo_engine
      demo_engine_reachable)). }
  exact (duplicate_invite_hijacks demo_unmarshal demo_attacked "c-1" 0 demo_sess 1
    (mkStream "mallory" [] false false) [105%Z] (mkMessage MsgInvite "c-1" "" "") 3 ScanEOF
    He eq_refl eq_refl eq_refl eq_refl eq_refl eq_refl eq_refl ltac:(done)).
Defined.

End witness.
