(* ===== verification/CallProtocol.v ===== *)
(** * The call control protocol between two peers

    The caller's and the callee's sessions of one call with the two control
    streams between them, driven by the engine's [dispatch], [End], [Accept]
    and [Hangup]. A party whose loop has stopped has closed its stream. *)
From S2P Require Import Prelude GoChan CallSession CallManager CallEngine.
#[local] Open Scope list_scope.

Record Call := mkCall {
  c_a : Session;             (* the caller's, outbound *)
  c_b : Session;             (* the callee's, inbound *)
  c_ab : list Message;       (* written by the caller, not yet read *)
  c_ba : list Message;
  c_arun : bool;             (* the caller's read loop runs, its stream is bound *)
  c_brun : bool }.

Definition accept_msg (id : string) : Message := mkMessage MsgAccept id "" "".
Definition hangup_msg (id reason : string) : Message := mkMessage MsgHangup id reason "".

Inductive call_step : Call -> Call -> Prop :=
| cs_accept now a b b1 r1 b2 ab ba arun :
    (* [Accept] on the callee: ACCEPT is written, then the two transitions *)
    ToConnecting now b = Some (b1, r1) ->
    (if is_ok r1 then drop_result (ToConnected now b1) else Some b1) = Some b2 ->
    call_step (mkCall a b ab ba arun true) (mkCall a b2 ab (ba ++ [accept_msg (s_id b)]) arun true)
| cs_hangup_a reason now a a' b ab ba brun :
    End reason now a = Some a' ->
    call_step (mkCall a b ab ba true brun) (mkCall a' b (ab ++ [hangup_msg (s_id a) reason]) ba false brun)
| cs_hangup_b reason now a b b' ab ba arun :
    End reason now b = Some b' ->
    call_step (mkCall a b ab ba arun true) (mkCall a b' ab (ba ++ [hangup_msg (s_id b) reason]) arun false)
| cs_read_a now m a a' stop b ab ba brun :
    dispatch m now a = Some (a', stop) ->
    call_step (mkCall a b ab (m :: ba) true brun) (mkCall a' b ab ba (negb stop) brun)
| cs_read_b now m a b b' stop ab ba arun :
    dispatch m now b = Some (b', stop) ->
    call_step (mkCall a b (m :: ab) ba arun true) (mkCall a b' ab ba arun (negb stop))
| cs_eof_a now a a' b ab :
    (* the callee closed its stream and everything on it was read *)
    End (end_reason ScanEOF) now a = Some a' ->
    call_step (mkCall a b ab [] true false) (mkCall a' b ab [] false false)
| cs_eof_b now a b b' ba :
    End (end_reason ScanEOF) now b = Some b' ->
    call_step (mkCall a b [] ba false true) (mkCall a b' [] ba false false).

(** After INVITE was sent and received: both sessions ring. *)
Definition call_init (id : string) (a b : Session) : Prop :=
  session_ok a ∧ session_ok b ∧ s_id a = id ∧ s_id b = id ∧
  s_state a = StateRinging ∧ s_state b = StateRinging.

(** ** Invariant *)

Record call_inv (id : string) (y : Call) : Prop := {
  ci_a : session_ok (c_a y) ∧ s_id (c_a y) = id;
  ci_b : session_ok (c_b y) ∧ s_id (c_b y) = id;
  ci_arun : if c_arun y then s_state (c_a y) = StateRinging ∨ s_state (c_a y) = StateConnected
            else s_state (c_a y) = StateEnded;
  ci_brun : if c_brun y then s_state (c_b y) = StateRinging ∨ s_state (c_b y) = StateConnected
            else s_state (c_b y) = StateEnded;
  ci_conn : s_state (c_a y) = StateConnected -> s_state (c_b y) ≠ StateRinging;
  ci_ba : c_arun y = true -> ∃ n,
    c_ba y = replicate n (accept_msg id) ++
      (if c_brun y then [] else [hangup_msg id (s_reason (c_b y))]) ∧
    (s_state (c_b y) = StateRinging -> n = 0) ∧
    (s_state (c_a y) = StateRinging -> s_state (c_b y) = StateConnected -> 0 < n);
  ci_ab : c_brun y = true ->
    c_ab y = if c_arun y then [] else [hangup_msg id (s_reason (c_a y))] }.

Lemma End_spec reason now s s' :
  session_ok s -> End reason now s = Some s' -> s_state s ≠ StateEnded ->
  session_ok s' ∧ s_id s' = s_id s ∧ s_state s' = StateEnded ∧ s_reason s' = reason.
Proof.
  intros Hok He Hne. destruct (End_sess_le reason now s Hok) as (s0 & He' & (Hok' & Hid & _) & Hst).
  simplify_eq. split; [done|]. split; [done|]. split; [done|].
  unfold End in He. destruct (End_commit reason now s) as [[s1 ev]|] eqn:Hc.
  - apply End_commit_Some in Hc as (_ & -> & _). unfold broadcast in He.
    by apply bind_Some in He as (h & _ & [= <-]).
  - unfold End_commit in Hc. by case_decide.
Qed.

(** A transition whose target is the successor of the state. *)
Lemma step_succ target now s :
  session_ok s -> s_state s ≠ StateEnded -> state_num target = S (state_num (s_state s)) ->
  ∃ s', transition target "" now s = Some (s', Ok tt) ∧ session_ok s' ∧ s_id s' = s_id s ∧
    s_state s' = target.
Proof.
  intros Hok Hne Hs.
  destruct (transition_sess_le target "" now s Hok) as (s' & r & Ht & (Hok' & Hid & _) & Hst & _ & Hr).
  rewrite (Hr Hs Hne) in *. eauto 6.
Qed.

(** A transition that is refused leaves the session as it is. *)
Lemma step_refused target now s s' r :
  transition target "" now s = Some (s', r) -> state_num target ≠ S (state_num (s_state s)) ->
  s' = s ∧ is_ok r = false.
Proof.
  unfold transition, transition_commit. intros Ht Hne.
  repeat case_decide; simplify_eq; try done. lia.
Qed.

(** ACCEPT takes a ringing session to connected and is ignored afterwards. *)
Lemma dispatch_accept id now s :
  session_ok s -> s_id s = id -> s_state s = StateRinging ∨ s_state s = StateConnected ->
  ∃ s', dispatch (accept_msg id) now s = Some (s', false) ∧ session_ok s' ∧ s_id s' = id ∧
    s_state s' = StateConnected.
Proof.
  intros Hok Hid Hst. unfold dispatch. rewrite decide_False by (simpl; congruence).
  rewrite decide_True by done. unfold ToConnecting, ToConnected. destruct Hst as [Hst|Hst].
  - destruct (step_succ StateConnecting now s) as (s1 & -> & Hok1 & Hid1 & Hst1); [done|by rewrite Hst..|].
    simpl. destruct (step_succ StateConnected now s1) as (s2 & -> & Hok2 & Hid2 & Hst2);
      [done|by rewrite Hst1..|].
    simpl. exists s2. split; [done|]. split; [done|]. split; [congruence|done].
  - destruct (transition_sess_le StateConnecting "" now s Hok) as (s1 & r1 & Ht1 & _).
    destruct (step_refused _ _ _ _ _ Ht1) as [-> _]; [by rewrite Hst|]. rewrite Ht1. simpl.
    destruct (transition_sess_le StateConnected "" now s Hok) as (s2 & r2 & Ht2 & _).
    destruct (step_refused _ _ _ _ _ Ht2) as [-> _]; [by rewrite Hst|]. rewrite Ht2. simpl. eauto.
Qed.

Lemma dispatch_hangup id reason now s s' stop :
  session_ok s -> s_id s = id -> s_state s ≠ StateEnded ->
  dispatch (hangup_msg id reason) now s = Some (s', stop) ->
  stop = true ∧ session_ok s' ∧ s_id s' = id ∧ s_state s' = StateEnded ∧ s_reason s' = reason.
Proof.
  intros Hok Hid Hst. unfold dispatch. rewrite decide_False by (simpl; congruence).
  rewrite !decide_False by done. rewrite decide_True by done. simpl.
  intros (s1 & He & [= <- <-])%bind_Some.
  destruct (End_spec reason now s s1 Hok He Hst) as (? & ? & ? & ?). subst. auto.
Qed.

(** The callee's [Accept], ringing or already connected. *)
Lemma accept_spec now b b1 r1 b2 :
  session_ok b -> s_state b = StateRinging ∨ s_state b = StateConnected ->
  ToConnecting now b = Some (b1, r1) ->
  (if is_ok r1 then drop_result (ToConnected now b1) else Some b1) = Some b2 ->
  session_ok b2 ∧ s_id b2 = s_id b ∧ s_state b2 = StateConnected.
Proof.
  intros Hok [Hst|Hst] H1 H2.
  - destruct (step_succ StateConnecting now b) as (s1 & Ht1 & Hok1 & Hid1 & Hst1); [done|by rewrite Hst..|].
    unfold ToConnecting in H1. simplify_eq. simpl in H2.
    destruct (step_succ StateConnected now b1) as (s2 & Ht2 & Hok2 & Hid2 & Hst2); [done|by rewrite Hst1..|].
    unfold ToConnected in H2. rewrite Ht2 in H2. simpl in H2. simplify_eq. split; [done|]. split; [congruence|done].
  - destruct (step_refused _ _ _ _ _ H1) as [-> Hr]; [by rewrite Hst|]. rewrite Hr in H2. by simplify_eq.
Qed.

Lemma call_inv_step id y y' : call_inv id y -> call_step y y' -> call_inv id y'.
Proof.
  intros [[Hoka Hida] [Hokb Hidb] Ha Hb Hconn Hba Hab] Hstep.
  destruct Hstep as [now a b b1 r1 b2 ab ba arun H1 H2|reason now a a' b ab ba brun He
    |reason now a b b' ab ba arun He|now m a a' stop b ab ba brun Hd|now m a b b' stop ab ba arun Hd
    |now a a' b ab He|now a b b' ba He]; simpl in *.
  - destruct (accept_spec now b b1 r1 b2 Hokb Hb H1 H2) as (Hok2 & Hid2 & Hst2).
    constructor; simpl; try done; [by rewrite Hid2|by right|by rewrite Hst2|].
    intros Harun. destruct (Hba Harun) as (n & -> & Hn1 & Hn2). exists (S n).
    rewrite app_nil_r, replicate_S_end, Hidb, Hst2. split; [by rewrite app_nil_r|]. split; [done|lia].
  - destruct (End_spec reason now a a' Hoka He) as (Hok' & Hid' & Hst' & Hr'); [by destruct Ha as [-> | ->]|].
    constructor; simpl; try done; [by rewrite Hid'|by rewrite Hst'|].
    intros Hbr. by rewrite (Hab Hbr), Hr', Hida.
  - destruct (End_spec reason now b b' Hokb He) as (Hok' & Hid' & Hst' & Hr'); [by destruct Hb as [-> | ->]|].
    constructor; simpl; try done; [by rewrite Hid'|by rewrite Hst'|].
    intros Harun. destruct (Hba Harun) as (n & -> & Hn1 & Hn2). exists n.
    rewrite Hr', Hst', Hidb, app_nil_r. done.
  - destruct (Hba eq_refl) as (n & Hmsgs & Hn1 & Hn2). destruct n as [|n]; simpl in Hmsgs.
    + destruct brun; [done|]. injection Hmsgs as -> ->.
      destruct (dispatch_hangup id (s_reason b) now a a' stop Hoka Hida) as (-> & ? & ? & Hst & Hr);
        [by destruct Ha as [-> | ->]|done|].
      constructor; simpl; try done. by rewrite Hst.
    + injection Hmsgs as -> ->.
      destruct (dispatch_accept id now a Hoka Hida Ha) as (a1 & Hd1 & ? & ? & Hst). simplify_eq.
      assert (s_state b ≠ StateRinging) as Hnr by (intros Hr; specialize (Hn1 Hr); lia).
      constructor; simpl; try done; [by right|].
      intros _. exists n. by rewrite Hst.
  - specialize (Hab eq_refl). destruct arun; [done|]. injection Hab as -> ->.
    destruct (dispatch_hangup id (s_reason a) now b b' stop Hokb Hidb) as (-> & ? & ? & Hst & Hr);
      [by destruct Hb as [-> | ->]|done|].
    constructor; simpl; try done. by rewrite Hst.
  - destruct (Hba eq_refl) as (n & Hmsgs & _). by destruct n.
  - by specialize (Hab eq_refl).
Qed.

Lemma call_init_inv id a b : call_init id a b -> call_inv id (mkCall a b [] [] true true).
Proof.
  intros (? & ? & ? & ? & Ha & Hb). constructor; simpl; try done; [by left..| |].
  - intros He. by rewrite Ha in He.
  - intros _. exists 0. by rewrite Ha, Hb.
Qed.

Lemma call_reachable_inv id a b y :
  call_init id a b -> rtc call_step (mkCall a b [] [] true true) y -> call_inv id y.
Proof.
  intros Hinit. apply (rtc_invariant call_step (call_inv id)); [|by apply call_init_inv].
  intros y1 y2 H1 H2. by eapply call_inv_step.
Qed.

(** The caller's loop reads what is left once the callee hung up. *)
Lemma drain_a id y :
  call_inv id y -> c_arun y = true -> c_brun y = false ->
  ∃ y', rtc call_step y y' ∧ s_state (c_a y') = StateEnded ∧ s_reason (c_a y') = s_reason (c_b y).
Proof.
  intros Hinv Har Hbr. destruct (ci_ba _ _ Hinv Har) as (n & Hmsgs & _). rewrite Hbr in Hmsgs.
  destruct y as [a b ab ba arun brun]. simpl in *. subst.
  revert a Hinv. induction n as [|n IH]; intros a Hinv.
  - destruct Hinv as [[Hoka Hida] _ Ha _ _ _ _]. simpl in *.
    destruct (dispatch_sess_le (hangup_msg id (s_reason b)) 0 a Hoka) as (a' & stop & Hd & _).
    destruct (dispatch_hangup id (s_reason b) 0 a a' stop Hoka Hida) as (-> & _ & _ & Hst & Hr);
      [by destruct Ha as [-> | ->]|done|].
    eexists. split; [apply rtc_once; by eapply cs_read_a|]. done.
  - destruct Hinv as [[Hoka Hida] HB Ha Hb Hc Hba Hab] eqn:Heq. simpl in *.
    destruct (dispatch_accept id 0 a Hoka Hida Ha) as (a1 & Hd1 & _).
    assert (call_step (mkCall a b ab (accept_msg id :: replicate n (accept_msg id) ++
        [hangup_msg id (s_reason b)]) true false)
      (mkCall a1 b ab (replicate n (accept_msg id) ++ [hangup_msg id (s_reason b)]) true false)) as Hs.
    { by apply (cs_read_a 0 (accept_msg id) a a1 false). }
    destruct (IH a1) as (y' & Hrtc & ?); [by eapply call_inv_step|].
    exists y'. split; [|done]. by eapply rtc_l.
Qed.


