(* ===== verification/Iox.v ===== *)
(** * Atomic file writes ([internal/iox/atomicfile.go])

    The stores persist through [AtomicWriteFile]. The file system is a map
    from paths to contents; the operating system's answers are an oracle that
    says at which call it fails. The model also gives the sequence of file
    system states the call goes through, which is what a crash can leave. *)
From S2P Require Import Prelude.
#[local] Open Scope list_scope.

Notation FS := (gmap string (list Z)) (only parsing).

(** The calls that can fail, in order. *)
Inductive FsCall := CMkdirAll | CCreateTemp | CChmod | CWrite | CClose | CRename.

#[export] Instance FsCall_eq_dec : EqDecision FsCall.
Proof. solve_decision. Defined.

(** What the operating system answers: the call that fails, if any, how much
    of the data a failing [Write] wrote, and the name [CreateTemp] picked. *)
Record Os := mkOs {
  os_fails : option FsCall;
  os_written : nat;
  os_tmp : string }.

Definition os_ok (tmp : string) : Os := mkOs None 0 tmp.

(** [CreateTemp] returns a name that did not exist. *)
Definition os_fresh (o : Os) (path : string) (fs : FS) : Prop :=
  fs !! os_tmp o = None ∧ os_tmp o ≠ path.

(** [AtomicWriteFile]: the states the file system goes through, ending with
    the state the call leaves, and the failed call if it returns an error. *)
Definition AtomicWriteFile (o : Os) (path : string) (data : bytes) (fs : FS) : list FS * option FsCall :=
  let fails c := bool_decide (os_fails o = Some c) in
  if fails CMkdirAll then ([fs], Some CMkdirAll)
  else if fails CCreateTemp then ([fs], Some CCreateTemp)
  else
    let tmp := os_tmp o in
    let fs1 := <[tmp := []]> fs in
    (* the deferred os.Remove(tmpName) runs on every return from here on *)
    if fails CChmod then ([fs1; delete tmp fs1], Some CChmod)
    else if fails CWrite then
      let fs2 := <[tmp := take (os_written o) data]> fs1 in
      ([fs1; fs2; delete tmp fs2], Some CWrite)
    else
      let fs2 := <[tmp := data]> fs1 in
      if fails CClose then ([fs1; fs2; delete tmp fs2], Some CClose)
      else if fails CRename then ([fs1; fs2; delete tmp fs2], Some CRename)
      else
        let fs3 := <[path := data]> (delete tmp fs2) in
        ([fs1; fs2; fs3; delete tmp fs3], None).

Definition awf_result (r : list FS * option FsCall) (fs : FS) : FS := default fs (last r.1).

Lemma awf_error o path data fs c : (AtomicWriteFile o path data fs).2 = Some c -> os_fails o = Some c.
Proof. unfold AtomicWriteFile. repeat case_bool_decide; simpl; congruence. Qed.

(** The states in between, and the last one. *)
Lemma awf_spec o path data (fs : FS) :
  os_fresh o path fs ->
  Forall (fun fs' : FS => (fs' !! path = fs !! path ∨ fs' !! path = Some data) ∧
     ∀ p, p ≠ path -> p ≠ os_tmp o -> fs' !! p = fs !! p) (AtomicWriteFile o path data fs).1 ∧
  awf_result (AtomicWriteFile o path data fs) fs =
    (if (AtomicWriteFile o path data fs).2 then fs else <[path := data]> fs).
Proof.
  intros [Hf Hne]. set (P := fun fs' : FS => _ ∧ _).
  assert (∀ b, delete (os_tmp o) (<[os_tmp o := b]> fs) = fs) as Hdel
    by (intros b; by apply delete_insert_id).
  assert (delete (os_tmp o) (<[path := data]> fs) = <[path := data]> fs) as Hclean.
  { apply delete_id. by rewrite lookup_insert_ne. }
  assert (P fs) as Hold by (split; [by left|done]).
  assert (∀ b, P (<[os_tmp o := b]> fs)) as Htmp.
  { intros b. split; [left|intros p _ Hp]; by rewrite lookup_insert_ne. }
  assert (P (<[path := data]> fs)) as Hnew.
  { split; [right; apply lookup_insert_eq|]. intros p Hp _. by rewrite lookup_insert_ne. }
  unfold AtomicWriteFile. rewrite !insert_insert_eq, !Hdel, Hclean.
  repeat case_bool_decide;
    (split; [repeat first [apply Forall_nil_2 | apply Forall_cons_2]; auto | done]).
Qed.

(** C21: an atomic write is all or nothing, even across a crash: at every
    moment of the call the target holds its old contents or the complete new
    ones, no other existing file is touched, the call reports success exactly
    when the new contents are in place, and no temporary file is left behind. *)
Theorem AtomicWriteFile_atomic o path data fs :
  os_fresh o path fs ->
  let r := AtomicWriteFile o path data fs in
  (∀ fs', fs' ∈ r.1 -> (fs' !! path = fs !! path ∨ fs' !! path = Some data) ∧
     ∀ p, p ≠ path -> p ≠ os_tmp o -> fs' !! p = fs !! p) ∧
  (r.2 = os_fails o) ∧
  awf_result r fs = (if r.2 then fs else <[path := data]> fs).
Proof.
  intros Hfresh r. destruct (awf_spec o path data fs Hfresh) as [Hall Hres].
  rewrite Forall_forall in Hall. split; [exact Hall|]. split; [|exact Hres].
  unfold r, AtomicWriteFile. destruct (os_fails o) as [[]|]; done.
Qed.

Lemma AtomicWriteFile_atomic_witness :
  awf_result (AtomicWriteFile (mkOs (Some CWrite) 2 "d/.tmp-1") "d/f" [1%Z; 2%Z; 3%Z] {[ "d/f" := [9%Z] ]})
    {[ "d/f" := [9%Z] ]} = {[ "d/f" := [9%Z] ]}.
Proof.
  exact (proj2 (proj2 (AtomicWriteFile_atomic (mkOs (Some CWrite) 2 "d/.tmp-1") "d/f" [1%Z; 2%Z; 3%Z]
    {[ "d/f" := [9%Z] ]} ltac:(split; [reflexivity|discriminate])))).
Defined.
