(* ===== verification/FriendsStore.v ===== *)
(** * The friends store ([internal/friends/store.go])

    The in-memory list of friends and its file. Every method takes the answers
    the operating system gives to the persisting write, so failed writes are
    part of the model. The JSON encoder and decoder are parameters. *)
From S2P Require Import Prelude Iox.
#[local] Open Scope string_scope.
#[local] Open Scope list_scope.

Record Friend := mkFriend {
  Name : string;
  PeerID : string;
  PublicKey : string;
  AddedAt : Z;
  RendezvousHint : string }.

#[export] Instance Friend_eq_dec : EqDecision Friend.
Proof. solve_decision. Defined.

Record Store := mkStore {
  path : string;
  friends : list Friend }.

Definition set_friends (fs : list Friend) (s : Store) : Store := mkStore (path s) fs.

Inductive StoreErr :=
| ErrFriendNotFound (name : string)
| ErrFriendNameTaken (name : string)
| ErrFriendPeerIDTaken (id name : string)
| EReading | EParsing
| EMarshal | EPersist (c : FsCall).

Section store.
Context (marshal : list Friend -> option bytes) (unmarshal : bytes -> option (list Friend)).

(** [persistLocked]: the file system afterwards and the error. *)
Definition persistLocked (o : Os) (s : Store) (fs : FS) : FS * option StoreErr :=
  match marshal (friends s) with
  | None => (fs, Some EMarshal)
  | Some data =>
      let r := AtomicWriteFile o (path s) (data ++ [10%Z]) fs in
      (awf_result r fs, EPersist <$> r.2)
  end.

(** The result of a method: the store, the file system and the error. *)
Definition Res : Type := Store * FS * option StoreErr.

Definition persisted (o : Os) (s : Store) (fs : FS) : Res :=
  let '(fs, e) := persistLocked o s fs in (s, fs, e).

(** [Open]; [readable] is false when reading fails for another reason than a
    missing file. *)
Definition Open (p : string) (readable : bool) (o : Os) (fs : FS) : FS * result StoreErr Store :=
  if negb readable then (fs, Err EReading)
  else match fs !! p with
  | None =>
      let r := AtomicWriteFile o p [91%Z; 93%Z; 10%Z] fs in
      (awf_result r fs, match r.2 with Some c => Err (EPersist c) | None => Ok (mkStore p []) end)
  | Some data =>
      (fs, match unmarshal data with None => Err EParsing | Some l => Ok (mkStore p l) end)
  end.

(** The loop of [Add] over the existing friends. *)
Fixpoint add_conflict (f : Friend) (l : list Friend) : option StoreErr :=
  match l with
  | [] => None
  | existing :: l =>
      if decide (Name existing = Name f) then Some (ErrFriendNameTaken (Name f))
      else if decide (PeerID existing = PeerID f)
      then Some (ErrFriendPeerIDTaken (PeerID f) (Name existing))
      else add_conflict f l
  end.

Definition Add (o : Os) (f : Friend) (s : Store) (fs : FS) : Res :=
  match add_conflict f (friends s) with
  | Some e => (s, fs, Some e)
  | None => persisted o (set_friends (friends s ++ [f]) s) fs
  end.

Definition List_ (s : Store) : list (string * Friend) :=
  sort_by_key ((fun f => (Name f, f)) <$> friends s).

Definition has_name (n : string) (f : Friend) : bool := String.eqb (Name f) n.
Definition has_id (id : string) (f : Friend) : bool := String.eqb (PeerID f) id.

Definition Get (n : string) (s : Store) : option Friend :=
  find_index (has_name n) (friends s) ≫= fun i => friends s !! i.

Definition GetByPeerID (id : string) (s : Store) : option Friend :=
  find_index (has_id id) (friends s) ≫= fun i => friends s !! i.

Definition Remove (o : Os) (n : string) (s : Store) (fs : FS) : Res :=
  match find_index (has_name n) (friends s) with
  | None => (s, fs, Some (ErrFriendNotFound n))
  | Some i => persisted o (set_friends (take i (friends s) ++ drop (S i) (friends s)) s) fs
  end.

(** The loop of [Rename]: the index to rename, or the early return. *)
Fixpoint rename_scan (old new : string) (i : nat) (idx : option nat) (l : list Friend)
  : result StoreErr (option nat) :=
  match l with
  | [] => Ok idx
  | f :: l =>
      let idx := if decide (Name f = old) then Some i else idx in
      if decide (Name f = new) then Err (ErrFriendNameTaken new)
      else rename_scan old new (S i) idx l
  end.

Definition with_name (n : string) (f : Friend) : Friend :=
  mkFriend n (PeerID f) (PublicKey f) (AddedAt f) (RendezvousHint f).

Definition Rename (o : Os) (old new : string) (s : Store) (fs : FS) : Res :=
  match rename_scan old new 0 None (friends s) with
  | Err e => (s, fs, Some e)
  | Ok None => (s, fs, Some (ErrFriendNotFound old))
  | Ok (Some i) => persisted o (set_friends (alter (with_name new) i (friends s)) s) fs
  end.

Definition PeerIDs (s : Store) : list string := PeerID <$> friends s.

(** The mutating methods as one type. *)
Inductive fop :=
| FAdd (f : Friend)
| FRemove (n : string)
| FRename (old new : string).

Definition fdo (o : Os) (op : fop) (s : Store) (fs : FS) : Res :=
  match op with
  | FAdd f => Add o f s fs
  | FRemove n => Remove o n s fs
  | FRename old new => Rename o old new s fs
  end.

(** ** Abstract specification

    The store is a map from names to friends in which peer ids are unique. *)
Definition abs (s : Store) : gmap string Friend :=
  list_to_map ((fun f => (Name f, f)) <$> friends s).

Definition spec_ok (op : fop) (m : gmap string Friend) : Prop :=
  match op with
  | FAdd f => m !! Name f = None ∧ ∀ n g, m !! n = Some g -> PeerID g ≠ PeerID f
  | FRemove n => is_Some (m !! n)
  | FRename old new => is_Some (m !! old) ∧ m !! new = None
  end.

Definition spec_do (op : fop) (m : gmap string Friend) : gmap string Friend :=
  match op with
  | FAdd f => <[Name f := f]> m
  | FRemove n => delete n m
  | FRename old new =>
      match m !! old with
      | Some f => <[new := with_name new f]> (delete old m)
      | None => m
      end
  end.

Definition store_ok (s : Store) : Prop :=
  NoDup (Name <$> friends s) ∧ NoDup (PeerID <$> friends s).

(** ** Lemmas *)

Lemma abs_fst l : ((fun f => (Name f, f)) <$> l).*1 = Name <$> l.
Proof. rewrite <- list_fmap_compose. done. Qed.

Lemma abs_lookup s n f :
  store_ok s -> abs s !! n = Some f <-> f ∈ friends s ∧ Name f = n.
Proof.
  intros [Hn _]. unfold abs. rewrite <- elem_of_list_to_map by (by rewrite abs_fst).
  rewrite list_elem_of_fmap. naive_solver.
Qed.

Lemma abs_lookup_None s n : abs s !! n = None <-> n ∉ Name <$> friends s.
Proof. unfold abs. by rewrite <- not_elem_of_list_to_map, abs_fst. Qed.

Lemma find_name l n :
  match find_index (has_name n) l with
  | Some i => ∃ l1 f l2, l = l1 ++ f :: l2 ∧ i = length l1 ∧ Name f = n ∧ n ∉ Name <$> l1
  | None => n ∉ Name <$> l
  end.
Proof.
  destruct (find_index (has_name n) l) as [i|] eqn:Hi.
  - apply find_index_Some in Hi as ((f & Hf & Hn%String.eqb_eq) & Hmin).
    destruct (list_elem_of_split_length l i f Hf) as (l1 & l2 & -> & ->).
    exists l1, f, l2. split; [done|]. split; [done|]. split; [done|].
    intros (g & Hg & (j & Hj)%list_elem_of_lookup)%list_elem_of_fmap.
    assert (j < length l1) by (by eapply lookup_lt_Some).
    specialize (Hmin j g H). rewrite lookup_app_l in Hmin by done. specialize (Hmin Hj).
    unfold has_name in Hmin. apply String.eqb_neq in Hmin. congruence.
  - rewrite find_index_None in Hi. intros (g & Hg & Hin)%list_elem_of_fmap.
    specialize (Hi g Hin). unfold has_name in Hi. apply String.eqb_neq in Hi. congruence.
Qed.

Lemma find_id l id :
  match find_index (has_id id) l with
  | Some i => ∃ f, l !! i = Some f ∧ PeerID f = id
  | None => id ∉ PeerID <$> l
  end.
Proof.
  destruct (find_index (has_id id) l) as [i|] eqn:Hi.
  - apply find_index_Some in Hi as ((f & Hf & Hn%String.eqb_eq) & _). eauto.
  - rewrite find_index_None in Hi. intros (g & Hg & Hin)%list_elem_of_fmap.
    specialize (Hi g Hin). unfold has_id in Hi. apply String.eqb_neq in Hi. congruence.
Qed.

Lemma add_conflict_None f l :
  add_conflict f l = None <-> Name f ∉ Name <$> l ∧ PeerID f ∉ PeerID <$> l.
Proof.
  induction l as [|g l IH]; simpl; [split; [intros _; split; apply not_elem_of_nil|done]|].
  rewrite !not_elem_of_cons. repeat case_decide; naive_solver.
Qed.

Lemma rename_scan_spec old new i idx l :
  match rename_scan old new i idx l with
  | Err _ => new ∈ Name <$> l
  | Ok j => new ∉ Name <$> l ∧
      (j = idx ∧ old ∉ Name <$> l ∨ ∃ k f, j = Some (i + k) ∧ l !! k = Some f ∧ Name f = old)
  end.
Proof.
  revert i idx. induction l as [|g l IH]; intros i idx; simpl.
  { split; [apply not_elem_of_nil|]. left. split; [done|apply not_elem_of_nil]. }
  destruct (decide (Name g = new)) as [<-|Hg]; [left|].
  specialize (IH (S i) (if decide (Name g = old) then Some i else idx)).
  destruct (rename_scan old new (S i) _ l) as [j|e]; [|by right].
  destruct IH as [Hn IH]. split; [by apply not_elem_of_cons|].
  destruct IH as [[-> Ho]|(k & f & -> & Hk & Hf)].
  - destruct (decide (Name g = old)) as [He|He].
    + right. exists 0, g. by rewrite Nat.add_0_r.
    + left. split; [done|]. by apply not_elem_of_cons.
  - right. exists (S k), f. split; [f_equal; lia|done].
Qed.

Lemma rename_scan_taken old new i idx l e : rename_scan old new i idx l = Err e -> e = ErrFriendNameTaken new.
Proof.
  revert i idx. induction l as [|g l IH]; intros i idx; simpl; [done|].
  destruct (decide (Name g = new)); [by intros [= <-]|apply IH].
Qed.

(** The rows of [List] carry the name they are sorted by. *)
Lemma List_names s : Name <$> (List_ s).*2 = (List_ s).*1.
Proof.
  rewrite <- list_fmap_compose. apply list_fmap_ext. intros i [n f] Hi%list_elem_of_lookup_2.
  unfold List_ in Hi. rewrite sort_by_key_perm in Hi. by apply list_elem_of_fmap in Hi as (g & [= -> ->] & _).
Qed.

(** ** What the methods leave in memory *)

Lemma persisted_store o s fs : (persisted o s fs).1.1 = s.
Proof. unfold persisted. by destruct (persistLocked o s fs). Qed.

Lemma NoDup_middle {A} (l1 l2 : list A) x :
  NoDup (l1 ++ x :: l2) <-> NoDup (l1 ++ l2) ∧ x ∉ l1 ++ l2.
Proof. rewrite <- Permutation_middle, NoDup_cons. naive_solver. Qed.

Lemma alter_middle {A} (g : A -> A) (l1 l2 : list A) x :
  alter g (length l1) (l1 ++ x :: l2) = l1 ++ g x :: l2.
Proof. induction l1; simpl; [done|]. by f_equal. Qed.

(** The in-memory effect: the specification's when it allows the operation,
    none otherwise. *)
Lemma fdo_store o op s fs :
  store_ok s ->
  store_ok (fdo o op s fs).1.1 ∧
  ((spec_ok op (abs s) ∧ abs (fdo o op s fs).1.1 = spec_do op (abs s) ∧
    fdo o op s fs = persisted o (fdo o op s fs).1.1 fs) ∨
   (¬ spec_ok op (abs s) ∧ ∃ e, fdo o op s fs = (s, fs, Some e) ∧ e ≠ EMarshal ∧ ∀ c, e ≠ EPersist c)).
Proof.
  intros Hok. pose proof Hok as [Hn Hp]. destruct op as [f|n|old new]; simpl.
  - unfold Add. destruct (add_conflict f (friends s)) as [e|] eqn:He.
    + split; [done|]. right. split.
      * intros [Hname Hid]. enough (add_conflict f (friends s) = None) by congruence.
        apply add_conflict_None. split; [by apply abs_lookup_None|].
        intros (g & Hg & Hin)%list_elem_of_fmap. apply (Hid (Name g) g); [|done]. by apply abs_lookup.
      * exists e. split; [done|]. clear -He. induction (friends s) as [|g l IH]; simpl in He; [done|].
        repeat case_decide; simplify_eq; [by split|by split|auto].
    + apply add_conflict_None in He as [Hname Hid]. rewrite persisted_store. simpl.
      assert (Hperm : friends s ++ [f] ≡ₚ f :: friends s) by (symmetry; apply Permutation_cons_append).
      assert (store_ok (set_friends (friends s ++ [f]) s)) as Hok'.
      { unfold store_ok; simpl. rewrite Hperm. simpl. by rewrite !NoDup_cons. }
      split; [done|]. left. split; [split; [by apply abs_lookup_None|]|split; [|done]].
      * intros n g Hg%abs_lookup Heq; [|done]. apply Hid. apply list_elem_of_fmap. exists g. naive_solver.
      * apply map_eq. intros n. apply option_eq. intros g.
        rewrite abs_lookup, lookup_insert_Some, abs_lookup by done. simpl. rewrite elem_of_app, list_elem_of_singleton.
        split; [|naive_solver]. intros [[Hin|Hin] Hname']; [right|naive_solver].
        split; [|done]. intros Heq. apply Hname. rewrite Heq, <- Hname'.
        apply list_elem_of_fmap. eauto.
  - unfold Remove. pose proof (find_name (friends s) n) as Hf.
    destruct (find_index (has_name n) (friends s)) as [i|].
    + destruct Hf as (l1 & f & l2 & Hl & -> & <- & Hn1). rewrite Hl, take_drop_middle, persisted_store. simpl.
      rewrite Hl in Hn, Hp. rewrite fmap_app, fmap_cons, NoDup_middle, <- fmap_app in Hn, Hp.
      assert (store_ok (set_friends (l1 ++ l2) s)) as Hok' by (split; [apply Hn|apply Hp]).
      split; [done|]. left. split; [|split; [|done]].
      { exists f. apply abs_lookup; [done|]. rewrite Hl. set_solver. }
      apply map_eq. intros n. apply option_eq. intros g.
      rewrite abs_lookup, lookup_delete_Some, abs_lookup by done. simpl. rewrite Hl. destruct Hn as [_ Hnn].
      split; [|set_solver]. intros [Hin Hg]. split; [|set_solver]. intros <-.
      apply Hnn. rewrite <- Hg. apply list_elem_of_fmap. eauto.
    + split; [done|]. right. split; [|by eexists].
      intros [f Hf'%abs_lookup]; [|done]. apply Hf, list_elem_of_fmap. naive_solver.
  - unfold Rename. pose proof (rename_scan_spec old new 0 None (friends s)) as Hs.
    destruct (rename_scan old new 0 None (friends s)) as [[i|]|e] eqn:He.
    + destruct Hs as [Hnew [[? _]|(k & f & [= ->] & Hk & <-)]]; [done|]. simpl.
      destruct (list_elem_of_split_length _ _ _ Hk) as (l1 & l2 & Hl & ->).
      rewrite Hl, alter_middle, persisted_store. simpl. rewrite Hl in Hnew, Hn, Hp.
      rewrite fmap_app, fmap_cons in Hnew, Hn, Hp. rewrite NoDup_middle in Hn.
      assert (store_ok (set_friends (l1 ++ with_name new f :: l2) s)) as Hok'.
      { split; simpl; rewrite fmap_app, fmap_cons; [|done]. rewrite NoDup_middle. simpl. set_solver. }
      assert (abs s !! Name f = Some f) as Hf by (apply abs_lookup; [done|]; rewrite Hl; set_solver).
      split; [done|]. left. split; [|split; [|done]].
      { split; [by eexists|]. apply abs_lookup_None. by rewrite Hl, fmap_app, fmap_cons. }
      rewrite Hf. apply map_eq. intros n. apply option_eq. intros g.
      rewrite abs_lookup, lookup_insert_Some, lookup_delete_Some, abs_lookup by done. simpl. rewrite Hl.
      rewrite !elem_of_app, !elem_of_cons. destruct Hn as [_ Hnn]. rewrite <- fmap_app in Hnn.
      assert (∀ g, g ∈ l1 ∨ g ∈ l2 -> Name g ≠ Name f ∧ Name g ≠ new) as Hd.
      { intros h Hh. split; [intros Heq; apply Hnn; rewrite <- Heq|intros Heq; apply Hnew; rewrite <- Heq];
          set_solver. }
      split.
      * intros [[Hin|[->|Hin]] <-]; [right|by left|right]; destruct (Hd g); naive_solver.
      * intros [[<- <-]|[Hne [Hne' [[Hin|[->|Hin]] <-]]]]; naive_solver.
    + destruct Hs as [Hnew [[_ Hold]|(? & ? & ? & _)]]; [|done]. split; [done|]. right. split; [|by eexists].
      intros [[f Hf'%abs_lookup] _]; [|done]. apply Hold, list_elem_of_fmap. naive_solver.
    + split; [done|]. right. split.
      * intros [_ Hnone%abs_lookup_None]. done.
      * exists e. split; [done|]. clear -He. revert He. generalize 0 (@None nat).
        induction (friends s) as [|g l IH]; simpl; intros i idx He; [done|].
        destruct (decide (Name g = new)); [by simplify_eq|]. by eapply IH.
Qed.

Lemma Get_abs n s : store_ok s -> Get n s = abs s !! n.
Proof.
  intros Hok. unfold Get. pose proof (find_name (friends s) n) as Hf.
  destruct (find_index (has_name n) (friends s)) as [i|]; simpl.
  - destruct Hf as (l1 & f & l2 & Hl & -> & <- & _). rewrite Hl at 1. rewrite list_lookup_middle by done.
    symmetry. apply abs_lookup; [done|]. rewrite Hl. set_solver.
  - symmetry. by apply abs_lookup_None.
Qed.

Lemma GetByPeerID_spec id s f :
  store_ok s -> GetByPeerID id s = Some f <-> f ∈ friends s ∧ PeerID f = id.
Proof.
  intros [_ Hp]. unfold GetByPeerID. pose proof (find_id (friends s) id) as Hf.
  destruct (find_index (has_id id) (friends s)) as [i|]; simpl.
  - destruct Hf as (g & Hg & <-). rewrite Hg. split.
    + intros [= <-]. split; [by eapply list_elem_of_lookup_2|done].
    + intros [(j & Hj)%list_elem_of_lookup Heq]. assert (i = j) as ->; [|congruence].
      eapply NoDup_lookup; [exact Hp| |]; rewrite list_lookup_fmap, fmap_Some; eauto.
  - split; [done|]. intros [Hin <-]. exfalso. apply Hf, list_elem_of_fmap. eauto.
Qed.

(** ** Properties *)

(** C19: the friends store refines a map from names to friends with unique peer
    ids: each method succeeds in memory exactly when the specification allows
    it and then has the specified effect, otherwise it reports the conflict
    and changes nothing; lookups by name and by peer id agree with the map,
    and [List] is its content sorted by name. *)
Theorem friends_refines_map o op s fs n id f :
  store_ok s ->
  let s' := (fdo o op s fs).1.1 in
  let e := (fdo o op s fs).2 in
  store_ok s' ∧
  (spec_ok op (abs s) -> abs s' = spec_do op (abs s) ∧ e = (persistLocked o s' fs).2) ∧
  (¬ spec_ok op (abs s) -> s' = s ∧ e ≠ None) ∧
  Get n s' = abs s' !! n ∧
  (GetByPeerID id s' = Some f <-> Get (Name f) s' = Some f ∧ PeerID f = id) ∧
  StronglySorted String.le (List_ s').*1 ∧ List_ s' ≡ₚ map_to_list (abs s').
Proof.
  intros Hok s' e. destruct (fdo_store o op s fs Hok) as [Hok' Hcase]. fold s' in Hok', Hcase.
  split; [done|]. split; [|split; [|split; [|split; [|split]]]].
  - intros Hs. destruct Hcase as [(_ & Habs & Heq)|[? _]]; [|done]. split; [done|].
    subst e. rewrite Heq. unfold persisted. by destruct (persistLocked o s' fs).
  - intros Hs. destruct Hcase as [[? _]|[_ (e' & Heq & _)]]; [done|]. subst s' e. by rewrite Heq.
  - by apply Get_abs.
  - rewrite GetByPeerID_spec, Get_abs, abs_lookup by done. naive_solver.
  - apply sort_by_key_sorted_fst.
  - unfold List_. rewrite sort_by_key_perm. unfold abs. symmetry. apply map_to_list_to_map.
    rewrite abs_fst. apply Hok'.
Qed.

(** What the JSON library promises: a list of friends can be encoded, and
    decoding the encoding followed by a newline gives it back. *)
Definition json_law : Prop :=
  ∀ l, ∃ d, marshal l = Some d ∧ unmarshal (d ++ [10%Z]) = Some l.

Lemma add_conflict_again f l :
  add_conflict f l = None -> add_conflict f (l ++ [f]) = Some (ErrFriendNameTaken (Name f)).
Proof.
  induction l as [|g l IH]; simpl; [by rewrite decide_True|].
  repeat case_decide; auto; done.
Qed.

(** C20: durability: when a mutation reports success, reopening the file gives
    exactly the list in memory; when the write fails the file is unchanged,
    so reopening gives what it gave before — but the mutation stays in
    memory, so repeating a failed [Add] reports the name as taken. *)
Theorem friends_durable o op s fs o' :
  json_law -> store_ok s -> os_fresh o (path s) fs ->
  match fdo o op s fs with
  | (s', fs', None) => Open (path s) true o' fs' = (fs', Ok s') ∧ spec_ok op (abs s)
  | (s', fs', Some (EPersist c)) =>
      fs' = fs ∧ os_fails o = Some c ∧ abs s' = spec_do op (abs s) ∧
      (∀ f, op = FAdd f -> ∀ o2, Add o2 f s' fs' = (s', fs', Some (ErrFriendNameTaken (Name f))))
  | (s', fs', Some _) => s' = s ∧ fs' = fs
  end.
Proof.
  intros Hjson Hok Hfresh. destruct (fdo_store o op s fs Hok) as [Hok' Hcase].
  assert (path (fdo o op s fs).1.1 = path s) as Hpath.
  { clear. destruct op as [f|n|old new]; simpl; unfold Add, Remove, Rename;
      repeat case_match; rewrite ?persisted_store; done. }
  destruct Hcase as [(Hspec & Habs & Heq)|[_ (e & Heq & He1 & He2)]].
  2: { rewrite Heq. destruct e; try done; by edestruct He2. }
  set (s' := (fdo o op s fs).1.1) in *. rewrite Heq. unfold persisted, persistLocked.
  destruct (Hjson (friends s')) as (d & Hd & Hun). rewrite Hd.
  rewrite <- Hpath in Hfresh.
  destruct (awf_spec o (path s') (d ++ [10%Z]) fs Hfresh) as [_ Hres]. rewrite Hres.
  destruct (AtomicWriteFile o (path s') (d ++ [10%Z]) fs).2 as [c|] eqn:Hc; simpl.
  - split; [done|]. split; [by eapply awf_error|]. split; [done|].
    intros f -> o2. unfold Add. simpl in Habs. clear Hpath Heq Hres Hc.
    enough (add_conflict f (friends s') = Some (ErrFriendNameTaken (Name f))) as -> by done.
    subst s'. simpl. unfold Add. destruct (add_conflict f (friends s)) as [e|] eqn:He.
    + destruct Hspec as [Hname Hid]. enough (add_conflict f (friends s) = None) by congruence.
      apply add_conflict_None. split; [by apply abs_lookup_None|].
      intros (g & Hg & Hin)%list_elem_of_fmap. apply (Hid (Name g) g); [|done]. by apply abs_lookup.
    + rewrite persisted_store. by apply add_conflict_again.
  - unfold Open. simpl. rewrite Hpath, lookup_insert_eq, Hun. split; [|done]. f_equal. f_equal.
    rewrite <- Hpath. by destruct s'.
Qed.
End store.

(** ** Witnesses *)

#[export] Instance Friend_countable : Countable Friend.
Proof.
  refine (inj_countable' (fun f => (Name f, PeerID f, PublicKey f, AddedAt f, RendezvousHint f))
    (fun '(n, i, k, t, h) => mkFriend n i k t h) _). by intros [].
Defined.

Definition demo_marshal (l : list Friend) : option bytes := Some (encode_bytes l).

Lemma demo_json_law : json_law demo_marshal decode_bytes.
Proof. intros l. eexists. split; [reflexivity|]. by apply decode_encode_bytes. Qed.

Definition alice : Friend := mkFriend "alice" "12D3A" "pkA" 1 "".
Definition bob : Friend := mkFriend "bob" "12D3B" "pkB" 2 "".
Definition demo_store : Store := mkStore "d/friends.json" [bob; alice].

Lemma demo_store_ok : store_ok demo_store.
Proof. split; simpl; repeat constructor; set_solver. Qed.

Lemma friends_refines_map_witness :
  store_ok (fdo demo_marshal (os_ok "d/.tmp-1") (FRename "bob" "rob") demo_store ∅).1.1 /\
  (List_ (fdo demo_marshal (os_ok "d/.tmp-1") (FRename "bob" "rob") demo_store ∅).1.1).*1 = ["alice"; "rob"].
Proof.
  split; [|vm_compute; reflexivity].
  exact (proj1 (friends_refines_map demo_marshal (os_ok "d/.tmp-1") (FRename "bob" "rob") demo_store ∅
    "rob" "12D3B" bob demo_store_ok)).
Defined.

Lemma friends_durable_witness :
  let '(s', fs', _) := fdo demo_marshal (mkOs (Some CRename) 0 "d/.tmp-1")
    (FAdd (mkFriend "eve" "12D3E" "pkE" 3 "")) demo_store ∅ in
  fs' = ∅ /\ length (friends s') = 3.
Proof.
  pose proof (friends_durable demo_marshal decode_bytes (mkOs (Some CRename) 0 "d/.tmp-1")
    (FAdd (mkFriend "eve" "12D3E" "pkE" 3 "")) demo_store ∅ (os_ok "d/.tmp-2")
    demo_json_law demo_store_ok ltac:(split; [reflexivity|discriminate])) as H.
  split; [exact (proj1 H)|reflexivity].
Defined.
