(* ===== verification/Presence.v ===== *)
(** * Presence ([internal/friends/presence.go])

    Online/offline state per peer and its broadcast. [transition] has two
    critical sections: the update of the maps, whose event is then pending,
    and the broadcast to the subscribers. *)
From S2P Require Import Prelude GoChan.
#[local] Open Scope list_scope.

Record PresenceEvent := mkPresenceEvent {
  pe_PeerID : string;
  pe_Online : bool;
  pe_Time : Z }.

Record Presence := mkPresence {
  p_online : gmap string bool;
  p_lastSeen : gmap string Z;
  p_hub : Hub PresenceEvent }.

Definition NewPresence : Presence := mkPresence ∅ ∅ hub_new.

(** The critical section of [transition], and its event if the state changed.
    Reading an unknown key of the Go map gives [false]. *)
Definition transition_commit (id : string) (online : bool) (now : Z) (p : Presence)
  : Presence * option PresenceEvent :=
  let prev := p_online p !! id in
  if decide (prev = None ∧ online = false) then (p, None)
  else
    (mkPresence (<[id := online]> (p_online p)) (<[id := now]> (p_lastSeen p)) (p_hub p),
     if Bool.eqb (default false prev) online then None else Some (mkPresenceEvent id online now)).

Definition broadcast (ev : PresenceEvent) (p : Presence) : option Presence :=
  h ← hub_broadcast ev (p_hub p); Some (mkPresence (p_online p) (p_lastSeen p) h).

Definition transition (id : string) (online : bool) (now : Z) (p : Presence) : option Presence :=
  match transition_commit id online now p with
  | (p, None) => Some p
  | (p, Some ev) => broadcast ev p
  end.

Definition MarkOnline (id : string) := transition id true.
Definition MarkOffline (id : string) := transition id false.

Definition IsOnline (id : string) (p : Presence) : bool := default false (p_online p !! id).

(** [None] is the zero time. *)
Definition LastSeen (id : string) (p : Presence) : option Z := p_lastSeen p !! id.

Definition Subscribe (p : Presence) : Presence * nat * nat :=
  let '(h, id, l) := hub_subscribe 16 (p_hub p) in (mkPresence (p_online p) (p_lastSeen p) h, id, l).

Definition Unsubscribe (id : nat) (p : Presence) : option Presence :=
  h ← hub_unsubscribe id (p_hub p); Some (mkPresence (p_online p) (p_lastSeen p) h).

(** ** Interleavings *)

Inductive pop :=
| PMark (id : string) (online : bool) (now : Z)   (* the critical section *)
| PBroadcast (k : nat)                            (* a pending broadcast *)
| PSubscribe
| PUnsubscribe (id : nat).

Record PSys := mkPSys {
  ps_p : Presence;
  ps_pending : list PresenceEvent;
  ps_log : list PresenceEvent;               (* all events, in commit order *)
  ps_calls : list (string * bool * Z) }.     (* all Mark calls, in commit order *)

Definition psys_do (o : pop) (y : PSys) : option PSys :=
  match o with
  | PMark id online now =>
      let '(p, ev) := transition_commit id online now (ps_p y) in
      Some (mkPSys p (ps_pending y ++ option_list ev) (ps_log y ++ option_list ev)
              (ps_calls y ++ [(id, online, now)]))
  | PBroadcast k =>
      match ps_pending y !! k with
      | None => Some y
      | Some ev => p ← broadcast ev (ps_p y);
                   Some (mkPSys p (delete k (ps_pending y)) (ps_log y) (ps_calls y))
      end
  | PSubscribe => Some (mkPSys (Subscribe (ps_p y)).1.1 (ps_pending y) (ps_log y) (ps_calls y))
  | PUnsubscribe id =>
      p ← Unsubscribe id (ps_p y); Some (mkPSys p (ps_pending y) (ps_log y) (ps_calls y))
  end.

Fixpoint psys_run (os : list pop) (y : PSys) : option PSys :=
  match os with
  | [] => Some y
  | o :: os => y ← psys_do o y; psys_run os y
  end.

Definition psys_init : PSys := mkPSys NewPresence [] [] [].

(** ** Specification: the history of one peer *)

Definition calls_of (id : string) (cs : list (string * bool * Z)) : list (bool * Z) :=
  omap (fun '(i, o, t) => if decide (i = id) then Some (o, t) else None) cs.

(** A peer's history counts from the first time it was marked online. *)
Fixpoint observed (cs : list (bool * Z)) : list (bool * Z) :=
  match cs with
  | (false, _) :: cs => observed cs
  | _ => cs
  end.

Definition events_of (id : string) (evs : list PresenceEvent) : list bool :=
  pe_Online <$> filter (fun ev => pe_PeerID ev = id) evs.

(** The transitions of a history: online and offline alternate. *)
Fixpoint changes (prev : bool) (os : list bool) : list bool :=
  match os with
  | [] => []
  | o :: os => if Bool.eqb prev o then changes prev os else o :: changes o os
  end.

Fixpoint alternates (first : bool) (os : list bool) : Prop :=
  match os with
  | [] => True
  | o :: os => o = first ∧ alternates (negb first) os
  end.

Lemma changes_alternate prev os : alternates (negb prev) (changes prev os).
Proof.
  revert prev. induction os as [|o os IH]; intros prev; simpl; [done|].
  destruct (Bool.eqb prev o) eqn:He; [apply IH|].
  by destruct prev, o.
Qed.

Lemma changes_snoc prev os o :
  changes prev (os ++ [o]) =
    changes prev os ++ (if Bool.eqb (default prev (last os)) o then [] else [o]).
Proof.
  revert prev. induction os as [|o1 os IH]; intros prev; simpl; [by destruct (Bool.eqb prev o)|].
  assert (∀ d, default d (last (o1 :: os)) = default o1 (last os)) as Hlast
    by (intros d; rewrite last_cons; by destruct (last os)).
  rewrite Hlast. destruct (Bool.eqb prev o1) eqn:He.
  - apply Bool.eqb_prop in He as ->. apply IH.
  - rewrite IH. done.
Qed.

Lemma observed_snoc cs o t :
  observed (cs ++ [(o, t)]) = if decide (observed cs = [] ∧ o = false) then [] else observed cs ++ [(o, t)].
Proof.
  induction cs as [|[[] t'] cs IH]; cbn [observed app]; [|by case_decide as Hd; [destruct Hd|]|done].
  case_decide as Hd; [by destruct Hd as [_ ->]|]. destruct o; [done|]. by destruct Hd.
Qed.

(** ** Invariant *)

Definition psys_inv (y : PSys) : Prop :=
  hub_ok (p_hub (ps_p y)) ∧
  ∀ id, let h := observed (calls_of id (ps_calls y)) in
    p_online (ps_p y) !! id = fst <$> last h ∧
    p_lastSeen (ps_p y) !! id = snd <$> last h ∧
    events_of id (ps_log y) = changes false h.*1.

Lemma calls_of_snoc id cs i o t :
  calls_of id (cs ++ [(i, o, t)]) = calls_of id cs ++ (if decide (i = id) then [(o, t)] else []).
Proof. unfold calls_of. rewrite omap_app. simpl. by case_decide. Qed.

Lemma events_of_snoc id evs ev :
  events_of id (evs ++ option_list ev) =
    events_of id evs ++ match ev with
                        | Some e => if decide (pe_PeerID e = id) then [pe_Online e] else []
                        | None => []
                        end.
Proof.
  unfold events_of. destruct ev as [e|]; simpl; [|by rewrite !app_nil_r].
  rewrite filter_app, fmap_app, filter_cons. by case_decide.
Qed.

Lemma psys_mark_inv i o t y p ev :
  psys_inv y -> transition_commit i o t (ps_p y) = (p, ev) ->
  psys_inv (mkPSys p (ps_pending y ++ option_list ev) (ps_log y ++ option_list ev)
    (ps_calls y ++ [(i, o, t)])).
Proof.
  intros [Hh Hinv] Hc. unfold transition_commit in Hc. split.
  { case_decide; simplify_eq/=; done. }
  intros id. simpl. rewrite calls_of_snoc, events_of_snoc. destruct (Hinv id) as (Ho & Hl & He).
  destruct (decide (i = id)) as [->|Hi].
  2: { rewrite app_nil_r, <- Ho, <- Hl, <- He. case_decide; simplify_eq/=; [by rewrite app_nil_r|].
       rewrite !lookup_insert_ne by done. split; [done|]. split; [done|].
       destruct (Bool.eqb _ _); simpl; [by rewrite app_nil_r|]. by rewrite decide_False, app_nil_r. }
  rewrite observed_snoc. set (h := observed (calls_of id (ps_calls y))) in *.
  assert (p_online (ps_p y) !! id = None <-> h = []) as Hnone.
  { rewrite Ho, fmap_None. split; [apply last_None|by intros ->]. }
  rewrite (decide_ext _ (h = [] ∧ o = false)) in Hc by naive_solver.
  case_decide as Hd; simplify_eq/=.
  - destruct Hd as [Hd _]. rewrite Hd in *. rewrite app_nil_r. auto.
  - rewrite last_snoc, fmap_app, fmap_cons, fmap_nil, changes_snoc, !lookup_insert_eq, He. split; [done|]. split; [done|].
    simpl. rewrite Ho, fmap_last. f_equal.
    destruct (Bool.eqb _ _); simpl; [done|]. by rewrite decide_True.
Qed.

Lemma psys_do_inv o y : psys_inv y -> ∃ y', psys_do o y = Some y' ∧ psys_inv y'.
Proof.
  intros Hinv. pose proof Hinv as [Hh Hi]. destruct o as [i on t|k| |id]; simpl.
  - destruct (transition_commit i on t (ps_p y)) as [p ev] eqn:Hc. eexists. split; [done|].
    by apply psys_mark_inv.
  - destruct (ps_pending y !! k) as [ev|]; [|eauto]. unfold broadcast.
    destruct (hub_broadcast_ok ev (p_hub (ps_p y)) Hh) as (h & -> & Hok & _). simpl.
    eexists. split; [done|]. by split.
  - eexists. split; [done|]. split; [by apply hub_subscribe_ok|done].
  - unfold Unsubscribe. destruct (hub_unsubscribe_ok id (p_hub (ps_p y)) Hh) as (h & -> & Hok & _). simpl.
    eexists. split; [done|]. by split.
Qed.

Lemma psys_run_inv os y : psys_inv y -> ∃ y', psys_run os y = Some y' ∧ psys_inv y'.
Proof.
  revert y. induction os as [|o os IH]; intros y Hy; [eauto|].
  destruct (psys_do_inv o y Hy) as (y1 & Ho & Hy1). simpl. rewrite Ho. simpl. by apply IH.
Qed.

Lemma psys_init_inv : psys_inv psys_init.
Proof. split; [apply hub_new_ok|]. intros id. simpl. by rewrite !lookup_empty. Qed.

(** Presence, for every interleaving of marks, broadcasts and
    subscriptions: nothing panics; [IsOnline] and [LastSeen] of a peer are
    those of the last mark since it was first seen online (never of a peer
    only ever marked offline); and the peer's events are exactly the changes
    of its state, strictly alternating and starting with online. *)
Theorem presence_correct os :
  ∃ y, psys_run os psys_init = Some y ∧
    ∀ id, let h := observed (calls_of id (ps_calls y)) in
      IsOnline id (ps_p y) = default false (fst <$> last h) ∧
      LastSeen id (ps_p y) = snd <$> last h ∧
      events_of id (ps_log y) = changes false h.*1 ∧
      alternates true (events_of id (ps_log y)).
Proof.
  destruct (psys_run_inv os psys_init psys_init_inv) as (y & Hrun & _ & Hinv).
  exists y. split; [done|]. intros id h. destruct (Hinv id) as (Ho & Hl & He). fold h in Ho, Hl, He.
  split; [unfold IsOnline; by rewrite Ho|]. split; [exact Hl|]. split; [exact He|].
  rewrite He. apply (changes_alternate false).
Qed.
