(* ===== verification/GoStrings.v ===== *)
(** * Go's string functions

    Go strings are byte strings, here [string] (one [ascii] per byte). The
    functions of the packages [strings] and [strconv] the program uses are
    defined on bytes; only the case mapping of non-ASCII text, which needs the
    Unicode tables, is left to a parameter where it is used. *)
From Stdlib Require Export Ascii.
From S2P Require Import Prelude.

(** ** Bytes *)

Definition chr (c : ascii) : Z := Z.of_N (N_of_ascii c).
Definition of_chr (z : Z) : ascii := ascii_of_N (Z.to_N z).

Lemma chr_range c : (0 <= chr c < 256)%Z.
Proof. unfold chr. pose proof (N_ascii_bounded c). lia. Qed.

Lemma of_chr_chr c : of_chr (chr c) = c.
Proof. unfold of_chr, chr. by rewrite N2Z.id, ascii_N_embedding. Qed.

Lemma chr_of_chr z : (0 <= z < 256)%Z -> chr (of_chr z) = z.
Proof. intros. unfold of_chr, chr. rewrite N_ascii_embedding; lia. Qed.

(** A statement about all bytes, decided by enumeration. *)
Lemma forall_ascii (P : ascii -> Prop) `{∀ c, Decision (P c)} :
  forallb (fun n => bool_decide (P (ascii_of_nat n))) (seq 0 256) = true -> ∀ c, P c.
Proof.
  rewrite forallb_forall. intros Hall c.
  assert (In (nat_of_ascii c) (seq 0 256)) as Hin.
  { apply in_seq. pose proof (nat_ascii_bounded c). lia. }
  specialize (Hall _ Hin). rewrite ascii_nat_embedding in Hall. by apply bool_decide_eq_true in Hall.
Qed.

Ltac by_ascii :=
  lazymatch goal with
  | |- ∀ c : ascii, @?P c => apply (forall_ascii P); vm_compute; reflexivity
  end.

(** ** Strings as sequences *)

Fixpoint str_map (f : ascii -> ascii) (s : string) : string :=
  match s with
  | EmptyString => EmptyString
  | String c s => String (f c) (str_map f s)
  end.

Fixpoint str_forall (f : ascii -> bool) (s : string) : bool :=
  match s with
  | EmptyString => true
  | String c s => f c && str_forall f s
  end.

Fixpoint str_filter (f : ascii -> bool) (s : string) : string :=
  match s with
  | EmptyString => EmptyString
  | String c s => if f c then String c (str_filter f s) else str_filter f s
  end.

Fixpoint str_rev_app (s acc : string) : string :=
  match s with
  | EmptyString => acc
  | String c s => str_rev_app s (String c acc)
  end.

Definition str_rev (s : string) : string := str_rev_app s EmptyString.

Definition is_char (c d : ascii) : bool := Ascii.eqb c d.
Definition no_char (c : ascii) (s : string) : bool := str_forall (fun d => negb (is_char c d)) s.

(** ** [strings] *)

Fixpoint HasPrefix (s prefix : string) : bool :=
  match prefix, s with
  | EmptyString, _ => true
  | String p prefix, String c s => is_char p c && HasPrefix s prefix
  | String _ _, EmptyString => false
  end.

Fixpoint str_drop (n : nat) (s : string) : string :=
  match n, s with
  | S n, String _ s => str_drop n s
  | _, _ => s
  end.

Definition TrimPrefix (s prefix : string) : string :=
  if HasPrefix s prefix then str_drop (String.length prefix) s else s.

(** [strings.IndexByte]. *)
Fixpoint IndexByte (s : string) (c : ascii) : option nat :=
  match s with
  | EmptyString => None
  | String d s => if is_char c d then Some 0 else S <$> IndexByte s c
  end.

(** [strings.Cut] at a byte. *)
Fixpoint Cut (s : string) (c : ascii) : string * string * bool :=
  match s with
  | EmptyString => (EmptyString, EmptyString, false)
  | String d s' =>
      if is_char c d then (EmptyString, s', true)
      else let '(b, a, f) := Cut s' c in (String d b, a, f)
  end.

(** [strings.Split] at a byte: at least one piece. *)
Fixpoint Split (s : string) (c : ascii) : list string :=
  match s with
  | EmptyString => [EmptyString]
  | String d s =>
      if is_char c d then EmptyString :: Split s c
      else match Split s c with
           | [] => [String d EmptyString]
           | p :: ps => String d p :: ps
           end
  end.

Fixpoint Join (l : list string) (sep : string) : string :=
  match l with
  | [] => EmptyString
  | [s] => s
  | s :: l => s +:+ sep +:+ Join l sep
  end.

(** Deleting a byte, [strings.ReplaceAll(s, "-", "")]. *)
Definition remove_char (c : ascii) (s : string) : string := str_filter (fun d => negb (is_char c d)) s.

Definition between (lo hi : Z) (c : ascii) : bool := (lo <=? chr c)%Z && (chr c <=? hi)%Z.

Definition is_ascii (c : ascii) : bool := (chr c <? 128)%Z.

Definition upper (c : ascii) : ascii := if between 97 122 c then of_chr (chr c - 32) else c.
Definition lower (c : ascii) : ascii := if between 65 90 c then of_chr (chr c + 32) else c.

(** [strings.ToUpper] and [strings.ToLower]; [unicode] is what they do on a
    string with non-ASCII bytes. *)
Definition ToUpper (unicode : string -> string) (s : string) : string :=
  if str_forall is_ascii s then str_map upper s else unicode s.
Definition ToLower (unicode : string -> string) (s : string) : string :=
  if str_forall is_ascii s then str_map lower s else unicode s.

(** The length of the white-space rune at the head of [s], 0 if there is
    none: ASCII, U+0085, U+00A0, U+1680, U+2000-200A, U+2028, U+2029, U+202F,
    U+205F and U+3000. *)
Definition space_len (s : string) : nat :=
  match chr <$> String.list_ascii_of_string s with
  | c :: l =>
      if (c =? 32)%Z || (9 <=? c)%Z && (c <=? 13)%Z then 1
      else match c, l with
           | 194%Z, d :: _ => if (d =? 133)%Z || (d =? 160)%Z then 2 else 0
           | 225%Z, 154%Z :: 128%Z :: _ => 3
           | 226%Z, 128%Z :: d :: _ =>
               if (128 <=? d)%Z && (d <=? 138)%Z || (d =? 168)%Z || (d =? 169)%Z || (d =? 175)%Z then 3 else 0
           | 226%Z, 129%Z :: 159%Z :: _ => 3
           | 227%Z, 128%Z :: 128%Z :: _ => 3
           | _, _ => 0
           end
  | [] => 0
  end.

(** The same at the end of a string, given reversed. *)
Definition space_len_rev (s : string) : nat :=
  match chr <$> String.list_ascii_of_string s with
  | c :: l =>
      if (c =? 32)%Z || (9 <=? c)%Z && (c <=? 13)%Z then 1
      else match l with
           | 194%Z :: _ => if (c =? 133)%Z || (c =? 160)%Z then 2 else 0
           | 154%Z :: 225%Z :: _ => if (c =? 128)%Z then 3 else 0
           | 128%Z :: 226%Z :: _ =>
               if (128 <=? c)%Z && (c <=? 138)%Z || (c =? 168)%Z || (c =? 169)%Z || (c =? 175)%Z then 3 else 0
           | 129%Z :: 226%Z :: _ => if (c =? 159)%Z then 3 else 0
           | 128%Z :: 227%Z :: _ => if (c =? 128)%Z then 3 else 0
           | _ => 0
           end
  | [] => 0
  end.

Fixpoint trim_with (len : string -> nat) (fuel : nat) (s : string) : string :=
  match fuel with
  | O => s
  | S fuel => match len s with O => s | n => trim_with len fuel (str_drop n s) end
  end.

(** [strings.TrimSpace]; every round removes a byte, so the length is enough fuel. *)
Definition TrimSpace (s : string) : string :=
  let s := trim_with space_len (String.length s) s in
  let r := str_rev s in
  str_rev (trim_with space_len_rev (String.length r) r).

(** ** [strconv] *)

Definition digit (n : Z) : ascii := of_chr (48 + n).

Fixpoint format_pos (fuel : nat) (n : Z) (acc : string) : string :=
  match fuel with
  | O => acc
  | S fuel =>
      let acc := String (digit (n mod 10)) acc in
      if decide (n / 10 = 0)%Z then acc else format_pos fuel (n / 10) acc
  end.

(** [strconv.FormatInt(n, 10)] of an int64: at most 19 digits. *)
Definition FormatInt (n : Z) : string :=
  if decide (n < 0)%Z then String "-" (format_pos 20 (- n) EmptyString) else format_pos 20 n EmptyString.

(** [ParseUint] in base 10 without a limit; no digits or another byte fail. *)
Fixpoint parse_digits (s : string) (acc : Z) : option Z :=
  match s with
  | EmptyString => Some acc
  | String c s => if between 48 57 c then parse_digits s (acc * 10 + (chr c - 48))%Z else None
  end.

Definition parse_uint (s : string) : option Z :=
  match s with EmptyString => None | _ => parse_digits s 0 end.

(** [strconv.ParseInt(s, 10, 64)]: an optional sign, digits, and the range. *)
Definition ParseInt (s : string) : option Z :=
  let '(neg, rest) :=
    match s with
    | String c s' => if is_char "+" c then (false, s') else if is_char "-" c then (true, s') else (false, s)
    | EmptyString => (false, s)
    end in
  n ← parse_uint rest;
  if (neg : bool) then (if decide (n <= 2 ^ 63)%Z then Some (- n)%Z else None)
  else (if decide (n < 2 ^ 63)%Z then Some n else None).

(** [strconv.Quote], the verb [%q]: bytes of non-ASCII text are kept, as Go keeps
    printable text; ASCII is exact. *)
Definition hex_digit (n : Z) : ascii := of_chr (if (n <? 10)%Z then 48 + n else 87 + n).

Definition quote_byte (c : ascii) (s : string) : string :=
  let n := chr c in
  let esc d := String "\" (String d s) in
  if (n =? 34)%Z || (n =? 92)%Z then esc c
  else match n with
  | 7%Z => esc "a"%char | 8%Z => esc "b"%char | 9%Z => esc "t"%char | 10%Z => esc "n"%char
  | 11%Z => esc "v"%char | 12%Z => esc "f"%char | 13%Z => esc "r"%char
  | _ =>
      if (n <? 32)%Z || (n =? 127)%Z
      then String "\" (String "x" (String (hex_digit (n / 16)) (String (hex_digit (n mod 16)) s)))
      else String c s
  end.

Fixpoint quote_bytes (s acc : string) : string :=
  match s with
  | EmptyString => acc
  | String c s => quote_byte c (quote_bytes s acc)
  end.

Definition Quote (s : string) : string := String "034" (quote_bytes s (String "034" EmptyString)).

(** ** Lemmas *)

Lemma is_char_true c d : is_char c d = true <-> c = d.
Proof. apply Ascii.eqb_eq. Qed.
Lemma is_char_false c d : is_char c d = false <-> c ≠ d.
Proof. apply Ascii.eqb_neq. Qed.
Lemma is_char_refl c : is_char c c = true.
Proof. by apply is_char_true. Qed.

Lemma app_cons c s t : String c s +:+ t = String c (s +:+ t).
Proof. done. Qed.
Lemma app_empty_l s : EmptyString +:+ s = s.
Proof. done. Qed.
Lemma app_empty_r s : s +:+ EmptyString = s.
Proof. induction s; simpl; [done|]. by rewrite app_cons, IHs. Qed.
Lemma app_assoc_str (s t u : string) : (s +:+ t) +:+ u = s +:+ t +:+ u.
Proof. induction s; [done|]. by rewrite !app_cons, IHs. Qed.

Lemma str_forall_app f s t : str_forall f (s +:+ t) = str_forall f s && str_forall f t.
Proof. induction s; [done|]. rewrite app_cons. simpl. by rewrite IHs, andb_assoc. Qed.

Lemma str_forall_impl (f g : ascii -> bool) s :
  (∀ c, f c = true -> g c = true) -> str_forall f s = true -> str_forall g s = true.
Proof.
  intros Hfg. induction s; simpl; [done|]. rewrite !andb_true_iff. intros [? ?]. auto.
Qed.

Lemma str_filter_app f s t : str_filter f (s +:+ t) = str_filter f s +:+ str_filter f t.
Proof. induction s; [done|]. rewrite app_cons. simpl. destruct (f a); by rewrite IHs. Qed.

Lemma str_filter_all f s : str_forall f s = true -> str_filter f s = s.
Proof. induction s; simpl; [done|]. intros [-> ?]%andb_true_iff. by f_equal; apply IHs. Qed.

Lemma remove_char_none c s : no_char c s = true -> remove_char c s = s.
Proof. apply str_filter_all. Qed.

Lemma no_char_app c s t : no_char c (s +:+ t) = no_char c s && no_char c t.
Proof. apply str_forall_app. Qed.

Lemma str_map_length f s : String.length (str_map f s) = String.length s.
Proof. induction s; simpl; auto. Qed.

Lemma length_app_str s t : String.length (s +:+ t) = String.length s + String.length t.
Proof. induction s; [done|]. rewrite app_cons. simpl. by rewrite IHs. Qed.

Lemma HasPrefix_app p s : HasPrefix (p +:+ s) p = true.
Proof. induction p; [by destruct s|]. rewrite app_cons. simpl. by rewrite is_char_refl. Qed.

Lemma str_drop_app p s : str_drop (String.length p) (p +:+ s) = s.
Proof. induction p; [by destruct s|]. by rewrite app_cons. Qed.

Lemma TrimPrefix_app p s : TrimPrefix (p +:+ s) p = s.
Proof. unfold TrimPrefix. by rewrite HasPrefix_app, str_drop_app. Qed.

Lemma HasPrefix_split s p : HasPrefix s p = true -> s = p +:+ str_drop (String.length p) s.
Proof.
  revert s. induction p as [|c p IH]; intros s; [by destruct s|]. destruct s as [|d s]; simpl; [done|].
  intros [->%is_char_true Hp]%andb_true_iff. rewrite app_cons. f_equal. by apply IH.
Qed.

Lemma Cut_app k v c : no_char c k = true -> Cut (k +:+ String c v) c = (k, v, true).
Proof.
  induction k as [|d k IH]; simpl; [by rewrite ?app_empty_l; simpl; rewrite is_char_refl|].
  intros [Hd Hk]%andb_true_iff. apply negb_true_iff in Hd. rewrite ?app_cons. simpl.
  by rewrite Hd, IH.
Qed.

Lemma Split_no_char s c : no_char c s = true -> Split s c = [s].
Proof.
  induction s as [|d s IH]; simpl; [done|]. intros [Hd Hs]%andb_true_iff. apply negb_true_iff in Hd.
  by rewrite Hd, IH.
Qed.

Lemma Split_app s t c : no_char c s = true -> Split (s +:+ String c t) c = s :: Split t c.
Proof.
  induction s as [|d s IH]; simpl; [by rewrite ?app_empty_l; simpl; rewrite is_char_refl|].
  intros [Hd Hs]%andb_true_iff. apply negb_true_iff in Hd. rewrite ?app_cons. simpl.
  by rewrite Hd, IH.
Qed.

Lemma Join_cons s l sep : l ≠ [] -> Join (s :: l) sep = s +:+ sep +:+ Join l sep.
Proof. by destruct l. Qed.

(** [Split] is the inverse of [Join] on pieces without the separator. *)
Lemma Split_Join l c :
  l ≠ [] -> Forall (fun s => no_char c s = true) l -> Split (Join l (String c EmptyString)) c = l.
Proof.
  intros Hne Hall. induction Hall as [|s l Hs Hl IH]; [done|].
  destruct (decide (l = [])) as [->|Hl'].
  - simpl. by apply Split_no_char.
  - rewrite Join_cons by done. rewrite app_cons, app_empty_l, Split_app by done. f_equal. auto.
Qed.

Lemma IndexByte_app s t c : no_char c s = true -> IndexByte (s +:+ String c t) c = Some (String.length s).
Proof.
  induction s as [|d s IH]; simpl; [by rewrite ?app_empty_l; simpl; rewrite is_char_refl|].
  intros [Hd Hs]%andb_true_iff. apply negb_true_iff in Hd. rewrite ?app_cons. simpl.
  by rewrite Hd, IH.
Qed.

(** *** Integers *)

Lemma chr_digit n : (0 <= n < 10)%Z -> chr (digit n) = (48 + n)%Z.
Proof. intros. unfold digit. apply chr_of_chr. lia. Qed.

Lemma digit_between n : (0 <= n < 10)%Z -> between 48 57 (digit n) = true.
Proof. intros. unfold between. rewrite chr_digit by done. apply andb_true_iff. split; apply Z.leb_le; lia. Qed.

Lemma parse_digits_app s t acc :
  parse_digits (s +:+ t) acc = parse_digits s acc ≫= parse_digits t.
Proof.
  revert acc. induction s as [|c s IH]; intros acc; [done|]. rewrite ?app_cons. simpl.
  by destruct (between 48 57 c).
Qed.

Lemma format_pos_parse fuel n acc :
  (0 <= n < 10 ^ Z.of_nat fuel)%Z -> 0 < fuel ->
  ∃ s, format_pos fuel n acc = s +:+ acc ∧ parse_digits s 0 = Some n ∧ s ≠ EmptyString ∧
       str_forall (between 48 57) s = true.
Proof.
  revert n acc. induction fuel as [|fuel IH]; intros n acc Hn Hf; [lia|].
  cbn [format_pos]. pose proof (Z.mod_pos_bound n 10 ltac:(lia)) as Hm.
  assert (∀ k, (0 <= k)%Z -> parse_digits (String (digit (n mod 10)) EmptyString) k = Some (k * 10 + n mod 10)%Z) as Hd.
  { intros k _. simpl. rewrite digit_between by done. rewrite chr_digit by done. f_equal. lia. }
  case_decide as Hz.
  - exists (String (digit (n mod 10)) EmptyString). split; [done|]. split; [|split; [done|]].
    + rewrite Hd by lia. f_equal. rewrite Z.mod_small; [lia|].
      pose proof (Z.div_mod n 10 ltac:(lia)). lia.
    + simpl. by rewrite digit_between.
  - destruct (IH (n / 10)%Z (String (digit (n mod 10)) acc)) as (s & Hs & Hp & Hne & Hdig).
    { split; [apply Z.div_pos; lia|]. apply Z.div_lt_upper_bound; [lia|].
      rewrite Nat2Z.inj_succ, Z.pow_succ_r in Hn by lia. lia. }
    { destruct fuel; [|lia]. exfalso. apply Hz. change (Z.of_nat 1) with 1%Z in Hn.
      apply Z.div_small. lia. }
    exists (s +:+ String (digit (n mod 10)) EmptyString). split; [|split; [|split]].
    + rewrite Hs, app_assoc_str, app_cons. done.
    + rewrite parse_digits_app, Hp. cbn [mbind option_bind]. rewrite Hd by (apply Z.div_pos; lia).
      f_equal. pose proof (Z.div_mod n 10 ltac:(lia)). lia.
    + by destruct s.
    + rewrite str_forall_app, Hdig. simpl. by rewrite digit_between.
Qed.

Definition int64 (n : Z) : Prop := (- 2 ^ 63 <= n < 2 ^ 63)%Z.

(** The sign is the only non-digit [FormatInt] writes. *)
Lemma FormatInt_digits n :
  int64 n -> ∃ s, parse_digits s 0 = Some (Z.abs n) ∧ s ≠ EmptyString ∧
    str_forall (between 48 57) s = true ∧ FormatInt n = (if decide (n < 0)%Z then String "-" s else s).
Proof.
  intros Hn. unfold FormatInt, int64 in *. assert (2 ^ 63 < 10 ^ Z.of_nat 20)%Z by (vm_compute; done).
  case_decide.
  - destruct (format_pos_parse 20 (- n) EmptyString) as (s & -> & Hp & Hne & Hd); [lia|lia|].
    exists s. rewrite app_empty_r. rewrite Z.abs_neq by lia. auto.
  - destruct (format_pos_parse 20 n EmptyString) as (s & -> & Hp & Hne & Hd); [lia|lia|].
    exists s. rewrite app_empty_r. rewrite Z.abs_eq by lia. auto.
Qed.

Lemma ParseInt_FormatInt n : int64 n -> ParseInt (FormatInt n) = Some n.
Proof.
  intros Hn. destruct (FormatInt_digits n Hn) as (s & Hp & Hne & Hd & ->). unfold int64 in Hn.
  assert (parse_uint s = Some (Z.abs n)) as Hu by (by destruct s).
  case_decide.
  - unfold ParseInt. simpl. rewrite Hu. simpl. rewrite Z.abs_neq by lia.
    rewrite decide_True by lia. f_equal. lia.
  - destruct s as [|c s]; [done|]. simpl in Hd. apply andb_true_iff in Hd as [Hc _].
    unfold ParseInt.
    assert (is_char "+" c = false ∧ is_char "-" c = false) as [-> ->].
    { split; apply is_char_false; intros <-; vm_compute in Hc; done. }
    rewrite Hu. simpl. rewrite Z.abs_eq by lia. by rewrite decide_True by lia.
Qed.

Lemma FormatInt_nonempty n : int64 n -> FormatInt n ≠ EmptyString.
Proof. intros Hn. destruct (FormatInt_digits n Hn) as (s & _ & Hne & _ & ->). by case_decide. Qed.

(** *** Trimming and reversal *)

Lemma str_rev_app_spec s acc : str_rev_app s acc = str_rev s +:+ acc.
Proof.
  unfold str_rev. revert acc. induction s as [|c s IH]; intros acc; [done|]. simpl.
  rewrite IH, (IH (String c EmptyString)), app_assoc_str. by rewrite app_cons, app_empty_l.
Qed.

Lemma str_rev_cons c s : str_rev (String c s) = str_rev s +:+ String c EmptyString.
Proof. unfold str_rev at 1. simpl. apply str_rev_app_spec. Qed.

Lemma str_rev_app_distr s t : str_rev (s +:+ t) = str_rev t +:+ str_rev s.
Proof.
  induction s as [|c s IH]; [by rewrite app_empty_l, app_empty_r|].
  by rewrite app_cons, !str_rev_cons, IH, app_assoc_str.
Qed.

Lemma str_rev_involutive s : str_rev (str_rev s) = s.
Proof. induction s as [|c s IH]; [done|]. by rewrite str_rev_cons, str_rev_app_distr, IH. Qed.

Lemma length_str_rev s : String.length (str_rev s) = String.length s.
Proof. induction s as [|c s IH]; [done|]. rewrite str_rev_cons, length_app_str, IH. simpl. lia. Qed.

Lemma str_forall_rev f s : str_forall f (str_rev s) = str_forall f s.
Proof.
  induction s as [|c s IH]; [done|]. rewrite str_rev_cons, str_forall_app, IH. simpl.
  by rewrite andb_true_r, andb_comm.
Qed.

Definition ascii_space (c : ascii) : bool := is_char " " c || between 9 13 c.

Lemma space_len_ascii c s : ascii_space c = true -> space_len (String c s) = 1 ∧ space_len_rev (String c s) = 1.
Proof.
  intros Hc.
  assert ((chr c =? 32)%Z || (9 <=? chr c)%Z && (chr c <=? 13)%Z = true) as H.
  { revert c Hc. by_ascii. }
  unfold space_len, space_len_rev. simpl. by rewrite H.
Qed.

(** An ASCII byte that is not white space starts no white-space rune. *)
Lemma space_len_stop c s :
  is_ascii c = true -> ascii_space c = false -> space_len (String c s) = 0 ∧ space_len_rev (String c s) = 0.
Proof.
  intros Ha Hc. unfold space_len, space_len_rev. simpl.
  assert (∀ P : Z -> bool, forallb (fun n => implb (is_ascii (ascii_of_nat n) && negb (ascii_space (ascii_of_nat n)))
    (P (chr (ascii_of_nat n)))) (seq 0 256) = true -> P (chr c) = true) as Hall.
  { intros P HP. rewrite forallb_forall in HP. specialize (HP (nat_of_ascii c)).
    rewrite ascii_nat_embedding, Ha, Hc in HP. apply HP, in_seq. pose proof (nat_ascii_bounded c). lia. }
  pose proof (Hall (fun x => negb ((x =? 32)%Z || (9 <=? x)%Z && (x <=? 13)%Z)) ltac:(vm_compute; reflexivity)) as H1.
  pose proof (Hall (fun x => (x <? 128)%Z) ltac:(vm_compute; reflexivity)) as H2.
  apply negb_true_iff in H1. apply Z.ltb_lt in H2. rewrite H1. pose proof (chr_range c).
  assert (∀ x, (128 <= x)%Z -> (chr c =? x)%Z = false) as Hne by (intros; apply Z.eqb_neq; lia).
  split.
  - destruct (chr c) as [|p|p] eqn:Hp; [done| |done]. 
    do 8 (destruct p as [p|p|]; try done; try lia).
  - rewrite !Hne by lia.
    assert ((128 <=? chr c)%Z = false) as -> by (apply Z.leb_gt; lia).
    simpl. repeat case_match; done.
Qed.

Lemma trim_with_stop len fuel s : len s = 0 -> trim_with len fuel s = s.
Proof. intros Hs. destruct fuel; [done|]. simpl. by rewrite Hs. Qed.

Lemma trim_with_spaces len fuel ws s :
  (∀ c t, ascii_space c = true -> len (String c t) = 1) ->
  str_forall ascii_space ws = true -> len s = 0 -> String.length ws <= fuel ->
  trim_with len fuel (ws +:+ s) = s.
Proof.
  intros Hlen. revert fuel. induction ws as [|c ws IH]; intros fuel Hws Hs Hf.
  { rewrite app_empty_l. by apply trim_with_stop. }
  simpl in Hws, Hf. apply andb_true_iff in Hws as [Hc Hws]. destruct fuel as [|fuel]; [lia|].
  rewrite app_cons. cbn [trim_with]. rewrite Hlen by done. cbn [str_drop]. apply IH; [done..|lia].
Qed.

(** White space around ASCII text that neither starts nor ends with white space. *)
Lemma TrimSpace_spaces ws1 ws2 s :
  str_forall ascii_space ws1 = true -> str_forall ascii_space ws2 = true ->
  s ≠ EmptyString -> str_forall (fun c => is_ascii c && negb (ascii_space c)) s = true ->
  TrimSpace (ws1 +:+ s +:+ ws2) = s.
Proof.
  intros H1 H2 Hne Hs. unfold TrimSpace.
  assert (∀ t, t ≠ EmptyString -> str_forall (fun c => is_ascii c && negb (ascii_space c)) t = true ->
    ∀ u, space_len (t +:+ u) = 0 ∧ space_len_rev (t +:+ u) = 0) as Hstop.
  { intros [|c t] Hne' Hall u; [done|]. simpl in Hall. apply andb_true_iff in Hall as [[Ha Hc]%andb_true_iff _].
    apply negb_true_iff in Hc. rewrite app_cons. by apply space_len_stop. }
  rewrite trim_with_spaces; [|by apply space_len_ascii|done|by apply Hstop|rewrite !length_app_str; lia].
  rewrite str_rev_app_distr, trim_with_spaces; [apply str_rev_involutive|by apply space_len_ascii| | |].
  - by rewrite str_forall_rev.
  - rewrite <- (app_empty_r (str_rev s)). apply Hstop; [|by rewrite str_forall_rev].
    intros He. apply Hne. by rewrite <- (str_rev_involutive s), He.
  - rewrite length_app_str. lia.
Qed.
