(* ===== verification/Base64.v ===== *)
(** * Go's [encoding/base64]

    The two encodings the program uses: [StdEncoding] (padded) and
    [RawURLEncoding] (unpadded). The decoder follows Go's: it skips carriage
    returns and line feeds anywhere, and does not check the unused low bits
    of the last symbol. *)
From S2P Require Import Prelude GoStrings.
#[local] Open Scope Z_scope.

Definition std_alphabet : string := "ABCDEFGHIJKLMNOPQRSTUVWXYZabcdefghijklmnopqrstuvwxyz0123456789+/".
Definition url_alphabet : string := "ABCDEFGHIJKLMNOPQRSTUVWXYZabcdefghijklmnopqrstuvwxyz0123456789-_".

Definition sym (alpha : string) (i : Z) : ascii := default "A"%char (String.get (Z.to_nat i) alpha).
Definition unsym (alpha : string) (c : ascii) : option Z := Z.of_nat <$> IndexByte alpha c.

(** The four sextets of three bytes, with Go's shifts on [val]. *)
Definition val3 (a b c : ascii) : Z := Z.lor (Z.lor (Z.shiftl (chr a) 16) (Z.shiftl (chr b) 8)) (chr c).
Definition sextet (v : Z) (k : Z) : Z := Z.land (Z.shiftr v k) 63.

Section enc.
Context (alpha : string) (pad : option ascii).

Definition pad_str (n : nat) : string :=
  match pad with
  | Some p => match n with 1%nat => String p EmptyString | _ => String p (String p EmptyString) end
  | None => EmptyString
  end.

Fixpoint EncodeToString (s : string) : string :=
  match s with
  | String a (String b (String c s)) =>
      let v := val3 a b c in
      String (sym alpha (sextet v 18)) (String (sym alpha (sextet v 12))
        (String (sym alpha (sextet v 6)) (String (sym alpha (sextet v 0)) (EncodeToString s))))
  | String a (String b EmptyString) =>
      let v := val3 a b "000" in
      String (sym alpha (sextet v 18)) (String (sym alpha (sextet v 12))
        (String (sym alpha (sextet v 6)) (pad_str 1)))
  | String a EmptyString =>
      let v := val3 a "000" "000" in
      String (sym alpha (sextet v 18)) (String (sym alpha (sextet v 12)) (pad_str 2))
  | EmptyString => EmptyString
  end.

(** The bytes of a quantum of two, three or four sextets. *)
Definition val4 (x y z w : Z) : Z :=
  Z.lor (Z.lor (Z.lor (Z.shiftl x 18) (Z.shiftl y 12)) (Z.shiftl z 6)) w.
Definition byte_at (v k : Z) : ascii := of_chr (Z.land (Z.shiftr v k) 255).

(** The end of the input, inside a quantum, of an unpadded encoding. *)
Definition short (o : option string) : option string :=
  match pad with None => o | Some _ => None end.

(** The tail after the two or three data symbols of a padded last quantum. *)
Definition padded (n : nat) (rest : string) (o : option string) : option string :=
  match pad with
  | Some p => if decide (rest = match n with 1%nat => String p EmptyString
                                       | _ => String p (String p EmptyString) end) then o else None
  | None => None
  end.

Fixpoint decode_quanta (s : string) : option string :=
  match s with
  | EmptyString => Some EmptyString
  | String a (String b (String c (String d s'))) =>
      x ← unsym alpha a; y ← unsym alpha b;
      match unsym alpha c, unsym alpha d with
      | Some z, Some w =>
          let v := val4 x y z w in
          r ← decode_quanta s';
          Some (String (byte_at v 16) (String (byte_at v 8) (String (byte_at v 0) r)))
      | Some z, None =>
          let v := val4 x y z 0 in
          padded 1 (String d s') (Some (String (byte_at v 16) (String (byte_at v 8) EmptyString)))
      | None, _ =>
          let v := val4 x y 0 0 in
          padded 2 (String c (String d s')) (Some (String (byte_at v 16) EmptyString))
      end
  | String a (String b (String c EmptyString)) =>
      x ← unsym alpha a; y ← unsym alpha b; z ← unsym alpha c;
      let v := val4 x y z 0 in
      short (Some (String (byte_at v 16) (String (byte_at v 8) EmptyString)))
  | String a (String b EmptyString) =>
      x ← unsym alpha a; y ← unsym alpha b;
      short (Some (String (byte_at (val4 x y 0 0) 16) EmptyString))
  | String _ EmptyString => None
  end.

Definition is_newline (c : ascii) : bool := is_char "010" c || is_char "013" c.

Definition DecodeString (s : string) : option string :=
  decode_quanta (str_filter (fun c => negb (is_newline c)) s).
End enc.

Definition StdEncode := EncodeToString std_alphabet (Some "="%char).
Definition StdDecode := DecodeString std_alphabet (Some "="%char).
Definition RawURLEncode := EncodeToString url_alphabet None.
Definition RawURLDecode := DecodeString url_alphabet None.

Example std_encode_man : StdEncode "Man!" = "TWFuIQ=="%string.
Proof. reflexivity. Qed.
Example std_decode_man : StdDecode "TWFuIQ=="%string = Some "Man!"%string.
Proof. reflexivity. Qed.
Example url_decode_junk : RawURLDecode "TWFuI"%string = None.
Proof. reflexivity. Qed.

(** ** Arithmetic of the quanta *)

Lemma val3_eq a b c : val3 a b c = chr a * 65536 + chr b * 256 + chr c.
Proof.
  pose proof (chr_range a). pose proof (chr_range b). pose proof (chr_range c).
  unfold val3. rewrite <- Z.lor_assoc. rewrite (lor_shiftl_add (chr b) (chr c) 8) by lia.
  rewrite lor_shiftl_add by lia. lia.
Qed.

Lemma sextet_eq v k : 0 <= k -> sextet v k = v / 2 ^ k mod 64.
Proof. intros. unfold sextet. change 63 with (Z.ones 6). by rewrite Z.land_ones, Z.shiftr_div_pow2 by lia. Qed.

Lemma val4_eq x y z w :
  0 <= y < 64 -> 0 <= z < 64 -> 0 <= w < 64 ->
  val4 x y z w = x * 262144 + y * 4096 + z * 64 + w.
Proof.
  intros. unfold val4. rewrite <- !Z.lor_assoc. rewrite (lor_shiftl_add z w 6) by lia.
  rewrite (lor_shiftl_add y _ 12) by lia. rewrite lor_shiftl_add by lia. lia.
Qed.

Lemma byte_at_eq v k : 0 <= k -> byte_at v k = of_chr (v / 2 ^ k mod 256).
Proof. intros. unfold byte_at. change 255 with (Z.ones 8). by rewrite Z.land_ones, Z.shiftr_div_pow2 by lia. Qed.

(** Decoding the four sextets of three bytes gives the bytes back. *)
Lemma quantum_inv a b c :
  let v := val3 a b c in
  let w := val4 (sextet v 18) (sextet v 12) (sextet v 6) (sextet v 0) in
  byte_at w 16 = a ∧ byte_at w 8 = b ∧ byte_at w 0 = c.
Proof.
  intros v w. pose proof (chr_range a). pose proof (chr_range b). pose proof (chr_range c).
  assert (w = v) as ->.
  { subst w. rewrite !sextet_eq by lia.
    rewrite val4_eq by (apply Z.mod_pos_bound; lia).
    subst v. rewrite val3_eq. change (2 ^ 18) with 262144. change (2 ^ 12) with 4096.
    change (2 ^ 6) with 64. change (2 ^ 0) with 1. Z.div_mod_to_equations. lia. }
  subst v. rewrite !byte_at_eq, val3_eq by lia.
  change (2 ^ 16) with 65536. change (2 ^ 8) with 256. change (2 ^ 0) with 1.
  set (n := chr a * 65536 + chr b * 256 + chr c).
  assert (n / 65536 mod 256 = chr a ∧ n / 256 mod 256 = chr b ∧ n / 1 mod 256 = chr c) as (-> & -> & ->).
  { subst n. split; [|split]; Z.div_mod_to_equations; lia. }
  by rewrite !of_chr_chr.
Qed.

Lemma quantum2_inv a b :
  let v := val3 a b "000" in
  let w := val4 (sextet v 18) (sextet v 12) (sextet v 6) 0 in
  byte_at w 16 = a ∧ byte_at w 8 = b.
Proof.
  intros v w. destruct (quantum_inv a b "000") as (H1 & H2 & _). fold v in H1, H2.
  assert (sextet v 0 = 0) as H0.
  { subst v. rewrite sextet_eq, val3_eq by lia. change (chr "000") with 0. change (2 ^ 0) with 1.
    Z.div_mod_to_equations. lia. }
  rewrite H0 in H1, H2. done.
Qed.

Lemma quantum1_inv a :
  let v := val3 a "000" "000" in
  byte_at (val4 (sextet v 18) (sextet v 12) 0 0) 16 = a.
Proof.
  intros v. destruct (quantum2_inv a "000") as [H1 _]. fold v in H1.
  assert (sextet v 6 = 0) as H0.
  { subst v. rewrite sextet_eq, val3_eq by lia. change (chr "000") with 0. change (2 ^ 6) with 64.
    Z.div_mod_to_equations. lia. }
  by rewrite H0 in H1.
Qed.

Lemma sextet_range v k : 0 <= k -> 0 <= sextet v k < 64.
Proof. intros. rewrite sextet_eq by done. apply Z.mod_pos_bound. lia. Qed.

(** ** Round trip *)

(** What an alphabet must satisfy; both of Go's do. *)
Class Alphabet (alpha : string) (pad : option ascii) : Prop := {
  unsym_sym i : 0 <= i < 64 -> unsym alpha (sym alpha i) = Some i;
  sym_newline i : 0 <= i < 64 -> is_newline (sym alpha i) = false;
  pad_ok p : pad = Some p -> unsym alpha p = None ∧ is_newline p = false }.

Lemma forall_sextet (P : Z -> bool) :
  forallb P (seqZ 0 64) = true -> ∀ i, 0 <= i < 64 -> P i = true.
Proof.
  rewrite forallb_forall. intros Hall i Hi. apply Hall. apply list_elem_of_In, elem_of_seqZ. lia.
Qed.

Ltac solve_alphabet :=
  constructor;
  [ intros i Hi; apply (bool_decide_eq_true (unsym _ _ = Some i));
    revert i Hi; apply forall_sextet; vm_compute; reflexivity
  | intros i Hi; apply negb_true_iff; revert i Hi; apply forall_sextet; vm_compute; reflexivity
  | intros p Hp; simplify_eq; split; vm_compute; reflexivity ].

#[export] Instance std_alphabet_ok : Alphabet std_alphabet (Some "="%char).
Proof. solve_alphabet. Qed.

#[export] Instance url_alphabet_ok : Alphabet url_alphabet None.
Proof. solve_alphabet. Qed.

Section roundtrip.
Context (alpha : string) (pad : option ascii) `{!Alphabet alpha pad}.

Lemma string_ind3 (P : string -> Prop) :
  P EmptyString -> (∀ a, P (String a EmptyString)) -> (∀ a b, P (String a (String b EmptyString))) ->
  (∀ a b c s, P s -> P (String a (String b (String c s)))) -> ∀ s, P s.
Proof.
  intros H0 H1 H2 H3.
  assert (∀ n s, (String.length s <= n)%nat -> P s) as H; [|by intros s; eapply H].
  induction n as [|n IH]; intros [|a [|b [|c s]]] Hlen; simpl in Hlen; try done; try lia.
  apply H3, IH. lia.
Qed.

Lemma unsym_sextet v k : 0 <= k -> unsym alpha (sym alpha (sextet v k)) = Some (sextet v k).
Proof. intros. by apply unsym_sym, sextet_range. Qed.

Lemma newline_sextet v k : 0 <= k -> is_newline (sym alpha (sextet v k)) = false.
Proof. intros. by eapply sym_newline, sextet_range. Qed.

Lemma decode_encode s : decode_quanta alpha pad (EncodeToString alpha pad s) = Some s.
Proof.
  pose proof unsym_sextet as Hu. pose proof (pad_ok (alpha := alpha) (pad := pad)) as Hpok.
  induction s as [|a|a b|a b c s IH] using string_ind3; [done|..].
  - cbn [EncodeToString]. set (v := val3 a _ _).
    pose proof (quantum1_inv a : byte_at (val4 (sextet v 18) (sextet v 12) 0 0) 16 = a) as H1. unfold pad_str. destruct pad as [p|] eqn:Hpad; cbn [decode_quanta].
    + destruct (Hpok p eq_refl) as [Hp _]. rewrite !Hu, Hp by lia.
      cbn [mbind option_bind]. unfold padded. rewrite decide_True by done.
      by rewrite H1.
    + rewrite !Hu by lia. cbn [mbind option_bind short]. by rewrite H1.
  - cbn [EncodeToString]. set (v := val3 a b _).
    destruct (quantum2_inv a b) as [H1 H2]. fold v in H1, H2.
    unfold pad_str. destruct pad as [p|] eqn:Hpad; cbn [decode_quanta].
    + destruct (Hpok p eq_refl) as [Hp _]. rewrite !Hu, Hp by lia.
      cbn [mbind option_bind]. unfold padded. rewrite decide_True by done. by rewrite H1, H2.
    + rewrite !Hu by lia. cbn [mbind option_bind short]. by rewrite H1, H2.
  - cbn [EncodeToString]. set (v := val3 a b c).
    destruct (quantum_inv a b c) as (H1 & H2 & H3). fold v in H1, H2, H3.
    cbn [decode_quanta]. rewrite !Hu by lia. cbn [mbind option_bind].
    rewrite IH. cbn [mbind option_bind]. by rewrite H1, H2, H3.
Qed.

Lemma encode_forall (f : ascii -> bool) s :
  (∀ i, 0 <= i < 64 -> f (sym alpha i) = true) -> (∀ p, pad = Some p -> f p = true) ->
  str_forall f (EncodeToString alpha pad s) = true.
Proof.
  intros Hsym Hpad.
  assert (∀ v k, 0 <= k -> f (sym alpha (sextet v k)) = true) as Hf
    by (intros; by apply Hsym, sextet_range).
  assert (∀ n, str_forall f (pad_str pad n) = true) as Hp.
  { intros n. unfold pad_str. destruct pad as [p|]; [|done].
    specialize (Hpad p eq_refl). destruct n as [|[|]]; simpl; by rewrite !Hpad. }
  induction s as [|a|a b|a b c s IH] using string_ind3; [done|..]; cbn [EncodeToString str_forall];
    rewrite !Hf, ?Hp, ?IH by lia; done.
Qed.

Lemma Decode_Encode s : DecodeString alpha pad (EncodeToString alpha pad s) = Some s.
Proof.
  unfold DecodeString. rewrite str_filter_all; [apply decode_encode|].
  apply encode_forall.
  - intros i Hi. by rewrite (sym_newline (alpha := alpha) (pad := pad)).
  - intros p Hp. by destruct (pad_ok p Hp) as [_ ->].
Qed.

Lemma Encode_inj s t : EncodeToString alpha pad s = EncodeToString alpha pad t -> s = t.
Proof. intros He. apply (f_equal (DecodeString alpha pad)) in He. rewrite !Decode_Encode in He. congruence. Qed.
End roundtrip.

(** The symbols of the encodings, as a check on the whole output. *)
Lemma RawURLEncode_forall (f : ascii -> bool) s :
  forallb (fun i => f (sym url_alphabet i)) (seqZ 0 64) = true -> str_forall f (RawURLEncode s) = true.
Proof. intros Hf. apply encode_forall; [apply _|by apply forall_sextet|done]. Qed.

Lemma StdEncode_forall (f : ascii -> bool) s :
  forallb (fun i => f (sym std_alphabet i)) (seqZ 0 64) = true -> f "="%char = true ->
  str_forall f (StdEncode s) = true.
Proof. intros Hf Hp. apply encode_forall; [apply _|by apply forall_sextet|by intros p [= <-]]. Qed.

Lemma RawURLEncode_empty s : RawURLEncode s = EmptyString <-> s = EmptyString.
Proof.
  split; [|by intros ->]. intros He. apply (Encode_inj url_alphabet None). exact He.
Qed.
