(* ===== verification/Query.v ===== *)
(** * Go's URL query encoding ([net/url])

    [QueryEscape], [QueryUnescape], [Values.Encode] and [ParseQuery], on the
    byte level. A [Values] here is an association list with one value per key,
    which is all the program builds; parsing keeps every pair in order, and
    [Get] returns the first. *)
From S2P Require Import Prelude GoStrings.

Definition unreserved (c : ascii) : bool :=
  between 97 122 c || between 65 90 c || between 48 57 c ||
  is_char "-" c || is_char "_" c || is_char "." c || is_char "~" c.

Definition hex_digit (n : Z) : ascii := if decide (n < 10)%Z then of_chr (48 + n) else of_chr (55 + n).

Definition unhex (c : ascii) : option Z :=
  if between 48 57 c then Some (chr c - 48)%Z
  else if between 97 102 c then Some (chr c - 87)%Z
  else if between 65 70 c then Some (chr c - 55)%Z
  else None.

Definition escape_char (c : ascii) : string :=
  if is_char " " c then "+"
  else if unreserved c then String c EmptyString
  else String "%" (String (hex_digit (chr c / 16)) (String (hex_digit (chr c mod 16)) EmptyString)).

Fixpoint QueryEscape (s : string) : string :=
  match s with
  | EmptyString => EmptyString
  | String c s => escape_char c +:+ QueryEscape s
  end.

Fixpoint QueryUnescape (s : string) : option string :=
  match s with
  | EmptyString => Some EmptyString
  | String c s' =>
      if is_char "%" c then
        match s' with
        | String a (String b s'') =>
            x ← unhex a; y ← unhex b; r ← QueryUnescape s'';
            Some (String (of_chr (x * 16 + y)) r)
        | _ => None
        end
      else r ← QueryUnescape s';
           Some (String (if is_char "+" c then " "%char else c) r)
  end.

Definition Values := list (string * string).

(** [Values.Get]: the first value of the key, or the empty string. *)
Definition ValuesGet (k : string) (v : Values) : string :=
  default EmptyString (snd <$> head (filter (fun p : string * string => p.1 = k) v)).

(** [Values.Encode]: sorted by key. *)
Definition Encode (v : Values) : string :=
  Join ((fun p => QueryEscape p.1 +:+ "=" +:+ QueryEscape p.2) <$> sort_by_key v) "&".

(** One [key=value] setting of [ParseQuery]; [None] is the first error. *)
Definition parse_setting (s : string) : option Values :=
  if negb (no_char ";" s) then None
  else if decide (s = EmptyString) then Some []
  else
    let '(k, v, _) := Cut s "=" in
    k ← QueryUnescape k; v ← QueryUnescape v; Some [(k, v)].

Definition ParseQuery (s : string) : option Values :=
  mjoin <$> mapM parse_setting (if decide (s = EmptyString) then [] else Split s "&").

Example escape_demo : QueryEscape "a b&c=é" = "a+b%26c%3D%C3%A9".
Proof. reflexivity. Qed.
Example parse_demo : ParseQuery "p=x%20y&&q=1&p=2" = Some [("p", "x y"); ("q", "1"); ("p", "2")].
Proof. reflexivity. Qed.

(** ** Lemmas *)

(** An escaped character decodes to itself, whatever follows. *)
Lemma unescape_escape_char c s :
  QueryUnescape (escape_char c +:+ s) = r ← QueryUnescape s; Some (String c r).
Proof.
  unfold escape_char. destruct (is_char " " c) eqn:Hsp.
  { apply is_char_true in Hsp as <-. done. }
  destruct (unreserved c) eqn:Hu.
  { assert (is_char "%" c = false ∧ is_char "+" c = false) as [H1 H2].
    { split; apply is_char_false; intros <-; vm_compute in Hu; done. }
    rewrite app_cons, app_empty_l. cbn [QueryUnescape]. by rewrite H1, H2. }
  assert (unhex (hex_digit (chr c / 16)) = Some (chr c / 16)%Z ∧
          unhex (hex_digit (chr c mod 16)) = Some (chr c mod 16)%Z ∧
          of_chr (chr c / 16 * 16 + chr c mod 16) = c) as (H1 & H2 & H3).
  { clear. revert c. by_ascii. }
  rewrite !app_cons, app_empty_l. cbn [QueryUnescape]. rewrite is_char_refl, H1, H2.
  cbn [mbind option_bind]. by rewrite H3.
Qed.

Lemma QueryUnescape_Escape s : QueryUnescape (QueryEscape s) = Some s.
Proof.
  induction s as [|c s IH]; [done|]. cbn [QueryEscape]. by rewrite unescape_escape_char, IH.
Qed.

(** What [QueryEscape] never writes. *)
Lemma QueryEscape_forall (f : ascii -> bool) s :
  forallb (fun n => str_forall f (escape_char (ascii_of_nat n))) (seq 0 256) = true ->
  str_forall f (QueryEscape s) = true.
Proof.
  intros Hf. induction s as [|c s IH]; [done|]. cbn [QueryEscape]. rewrite str_forall_app, IH, andb_true_r.
  revert c. apply (forall_ascii (fun c => str_forall f (escape_char c) = true)).
  rewrite forallb_forall in Hf |- *. intros n Hn. apply bool_decide_eq_true. by apply Hf.
Qed.

Lemma QueryEscape_no c s :
  bool_decide (c = "&"%char ∨ c = "="%char ∨ c = ";"%char ∨ c = "?"%char) = true ->
  no_char c (QueryEscape s) = true.
Proof.
  intros Hc%bool_decide_eq_true. apply QueryEscape_forall.
  destruct Hc as [->|[->|[->| ->]]]; vm_compute; reflexivity.
Qed.

Lemma QueryEscape_empty s : QueryEscape s = EmptyString -> s = EmptyString.
Proof. intros H. apply (f_equal QueryUnescape) in H. rewrite QueryUnescape_Escape in H. by simplify_eq/=. Qed.

Lemma parse_setting_format k v :
  k ≠ EmptyString -> parse_setting (QueryEscape k +:+ "=" +:+ QueryEscape v) = Some [(k, v)].
Proof.
  intros Hk. unfold parse_setting.
  assert (no_char ";" (QueryEscape k +:+ "=" +:+ QueryEscape v) = true) as ->.
  { by rewrite !no_char_app, !QueryEscape_no. }
  cbn [negb]. rewrite decide_False.
  - rewrite (app_cons "=" "" _), app_empty_l, Cut_app by (by apply QueryEscape_no).
    by rewrite !QueryUnescape_Escape.
  - destruct (QueryEscape k); [|done]. rewrite app_empty_l. by rewrite app_cons.
Qed.

(** Parsing what [Encode] wrote gives the pairs back, sorted by key. *)
Lemma ParseQuery_Encode v :
  v ≠ [] -> Forall (fun p => p.1 ≠ EmptyString) v -> ParseQuery (Encode v) = Some (sort_by_key v).
Proof.
  intros Hne Hkeys. unfold ParseQuery, Encode.
  assert (sort_by_key v ≠ []) as Hne'.
  { intros H. apply Hne, Permutation_nil_r. by rewrite <- (sort_by_key_perm v), H. }
  assert (Forall (fun p => p.1 ≠ EmptyString) (sort_by_key v)) as Hkeys' by (by rewrite sort_by_key_perm).
  clear Hne Hkeys. revert Hne' Hkeys'. generalize (sort_by_key v). clear v. intros v Hne Hkeys.
  set (f := fun p : string * string => QueryEscape p.1 +:+ "=" +:+ QueryEscape p.2).
  assert (Join (f <$> v) "&" ≠ EmptyString) as Hj.
  { destruct v as [|p v]; [done|]. inversion Hkeys as [|?? Hp _]; subst.
    assert (f p ≠ EmptyString).
    { unfold f. by destruct (QueryEscape p.1); rewrite ?app_empty_l, app_cons. }
    rewrite fmap_cons. cbn [Join]. destruct (f <$> v); [done|]. destruct (f p); [done|]. by rewrite app_cons. }
  rewrite decide_False by done. rewrite Split_Join.
  - clear Hne Hj. induction Hkeys as [|p v Hp _ IH]; [done|]. rewrite fmap_cons. cbn [mapM].
    assert (parse_setting (f p) = Some [p]) as ->.
    { unfold f. rewrite parse_setting_format by done. by destruct p. }
    cbn [mbind option_bind]. apply fmap_Some in IH as (l & Hl & ->). rewrite Hl. done.
  - by destruct v.
  - apply Forall_fmap, Forall_forall. intros p _. unfold f; simpl.
    by rewrite !no_char_app, !QueryEscape_no.
Qed.

Lemma ValuesGet_perm k v v' : NoDup v.*1 -> v ≡ₚ v' -> ValuesGet k v' = ValuesGet k v.
Proof.
  intros Hnd Hp. unfold ValuesGet.
  assert (∀ l : Values, NoDup l.*1 -> ∀ p, head (filter (fun p => p.1 = k) l) = Some p <-> p ∈ l ∧ p.1 = k) as Hh.
  { clear. intros l Hnd p. split.
    - intros Hp. assert (p ∈ filter (fun p : string * string => p.1 = k) l) as Hin.
      { destruct (filter _ l); simplify_eq/=. left. }
      apply list_elem_of_filter in Hin. naive_solver.
    - intros [Hin Hk]. assert (p ∈ filter (fun p : string * string => p.1 = k) l) as Hin'.
      { apply list_elem_of_filter. done. }
      destruct (filter _ l) as [|q ?] eqn:Hf; [by apply elem_of_nil in Hin'|]. simpl. f_equal.
      assert (q ∈ filter (fun p : string * string => p.1 = k) l) as Hq by (rewrite Hf; left).
      apply list_elem_of_filter in Hq as [Hqk Hq]. eapply NoDup_fst_unique; [exact Hnd|done..|congruence]. }
  f_equal. f_equal. apply option_eq. intros p.
  rewrite !Hh; [by rewrite Hp|done|by rewrite <- Hp].
Qed.
