(* ===== verification/InviteCode.v ===== *)
(** * Invite codes ([internal/invite/code.go])

    Generation from five random bytes, tolerant parsing of what a user types,
    and the printed form. [unicode_upper] is what [strings.ToUpper] does on a
    string with non-ASCII bytes. *)
From S2P Require Import Prelude GoStrings.

Definition codeLength : nat := 8.
Definition crockfordAlphabet : string := "0123456789ABCDEFGHJKMNPQRSTVWXYZ".

(** A canonical code is a string; see [canonical]. *)
Definition Code := string.

Definition crock (i : Z) : ascii := default "0"%char (String.get (Z.to_nat i) crockfordAlphabet).

(** [Generate] with the five bytes [rand.Read] delivered. *)
Definition code_bits (b0 b1 b2 b3 b4 : ascii) : Z :=
  Z.lor (Z.lor (Z.lor (Z.lor (Z.shiftl (chr b0) 32) (Z.shiftl (chr b1) 24)) (Z.shiftl (chr b2) 16))
    (Z.shiftl (chr b3) 8)) (chr b4).

Definition code_char (bits : Z) (i : nat) : ascii :=
  crock (Z.land (Z.shiftr bits (35 - 5 * Z.of_nat i)) 31).

Definition Generate (b0 b1 b2 b3 b4 : ascii) : Code :=
  String.string_of_list_ascii (code_char (code_bits b0 b1 b2 b3 b4) <$> seq 0 codeLength).

Inductive CodeErr :=
| EBadLength (n : nat)
| EContainsU
| EBadChar (c : ascii).

#[export] Instance CodeErr_eq_dec : EqDecision CodeErr.
Proof. solve_decision. Defined.

(** One rune of [Parse]'s loop; a non-ASCII rune is not in the alphabet. *)
Definition parse_char (r : ascii) : result CodeErr ascii :=
  if is_char "O" r then Ok "0"%char
  else if is_char "I" r || is_char "L" r then Ok "1"%char
  else if is_char "U" r then Err EContainsU
  else if IndexByte crockfordAlphabet r then Ok r else Err (EBadChar r).

Fixpoint parse_chars (s : string) : result CodeErr string :=
  match s with
  | EmptyString => Ok EmptyString
  | String r s => c ← parse_char r; out ← parse_chars s; Ok (String c out)
  end.

Section parse.
Context (unicode_upper : string -> string).

Definition Parse (input : string) : result CodeErr Code :=
  let s := ToUpper unicode_upper (TrimSpace input) in
  let s := TrimPrefix s "OPEN-" in
  let s := remove_char "-" s in
  if decide (String.length s ≠ codeLength) then Err (EBadLength (String.length s)) else parse_chars s.
End parse.

Definition Pretty (c : Code) : string :=
  if decide (String.length c ≠ codeLength) then c
  else "OPEN-" +:+ String.substring 0 4 c +:+ "-" +:+ str_drop 4 c.

Example generate_demo : Generate "000" "068" "050" "020" "199" = "01234567".
Proof. vm_compute. reflexivity. Qed.
Example code_parse_demo : Parse id " open-o1l4-abcd " = Ok "0114ABCD".
Proof. vm_compute. reflexivity. Qed.

(** ** Canonical codes *)

Definition crockford (c : ascii) : bool := bool_decide (is_Some (IndexByte crockfordAlphabet c)).

Definition canonical (c : Code) : Prop := String.length c = codeLength ∧ str_forall crockford c = true.

(** [x] is a way to type the code character [c]. *)
Definition types (x c : ascii) : Prop := parse_char (upper x) = Ok c.

Inductive types_all : string -> string -> Prop :=
| ty_nil : types_all EmptyString EmptyString
| ty_dash s c : types_all s c -> types_all (String "-" s) c
| ty_char x d s c : types x d -> is_ascii x = true -> types_all s c -> types_all (String x s) (String d c).

Lemma crock_crockford i : (0 <= i < 32)%Z -> crockford (crock i) = true.
Proof.
  intros Hi. assert (forallb (fun i => crockford (crock i)) (seqZ 0 32) = true) as Hall by (vm_compute; done).
  rewrite forallb_forall in Hall. apply Hall, list_elem_of_In, elem_of_seqZ. lia.
Qed.

Lemma crock_inj i j : (0 <= i < 32)%Z -> (0 <= j < 32)%Z -> crock i = crock j -> i = j.
Proof.
  intros Hi Hj He.
  assert (forallb (fun i => bool_decide (IndexByte crockfordAlphabet (crock i) = Some (Z.to_nat i)))
    (seqZ 0 32) = true) as Hall by (vm_compute; done).
  rewrite forallb_forall in Hall.
  assert (∀ k, (0 <= k < 32)%Z -> IndexByte crockfordAlphabet (crock k) = Some (Z.to_nat k)) as Hidx.
  { intros k Hk. specialize (Hall k). rewrite bool_decide_eq_true in Hall.
    apply Hall, list_elem_of_In, elem_of_seqZ. lia. }
  pose proof (Hidx i Hi) as H1. rewrite He, Hidx in H1 by done. simplify_eq. lia.
Qed.

(** The facts about single characters, by enumeration. *)
Lemma parse_char_ok r c : parse_char r = Ok c -> crockford c = true.
Proof.
  unfold parse_char. repeat case_match; intros; simplify_eq; try (vm_compute; reflexivity).
  unfold crockford. apply bool_decide_eq_true. eauto.
Qed.

Lemma parse_char_canonical c :
  crockford c = true -> parse_char c = Ok c ∧ upper c = c ∧ is_ascii c = true ∧
    ascii_space c = false ∧ is_char "-" c = false.
Proof.
  revert c. by_ascii.
Qed.

Lemma types_facts x d :
  types x d -> is_ascii x = true -> is_char "-" (upper x) = false ∧ ascii_space x = false.
Proof.
  unfold types. intros Ht _.
  assert (is_ok (parse_char (upper x)) = true) as Hok by (by rewrite Ht).
  clear Ht. revert x Hok. by_ascii.
Qed.

Lemma types_canonical c : crockford c = true -> types c c.
Proof. intros Hc. unfold types. by destruct (parse_char_canonical c Hc) as (? & -> & _). Qed.

Lemma types_all_canonical c : str_forall crockford c = true -> types_all c c.
Proof.
  induction c as [|x c IH]; simpl; [constructor|]. intros [Hx Hc]%andb_true_iff.
  constructor; [by apply types_canonical|by apply parse_char_canonical|auto].
Qed.

Lemma types_all_app s1 c1 s2 c2 : types_all s1 c1 -> types_all s2 c2 -> types_all (s1 +:+ s2) (c1 +:+ c2).
Proof. induction 1; intros; rewrite ?app_empty_l, ?app_cons; [done|constructor; auto..]. Qed.

Lemma types_all_spec s c :
  types_all s c ->
  parse_chars (remove_char "-" (str_map upper s)) = Ok c ∧
  String.length (remove_char "-" (str_map upper s)) = String.length c ∧
  str_forall (fun x => is_ascii x && negb (ascii_space x)) s = true ∧ str_forall crockford c = true.
Proof.
  induction 1 as [|s c _ (IH1 & IH2 & IH3 & IH4)|x d s c Ht Ha _ (IH1 & IH2 & IH3 & IH4)]; [done| |].
  - cbn [str_map str_forall]. unfold remove_char in *. change (upper "-") with "-"%char. cbn [str_filter].
    rewrite is_char_refl. cbn [negb]. rewrite IH3. auto.
  - destruct (types_facts x d Ht Ha) as [Hd Hsp]. cbn [str_map str_forall]. unfold remove_char in *.
    cbn [str_filter]. rewrite Hd. cbn [negb parse_chars String.length]. rewrite Ht, IH1, IH2, IH3, IH4, Ha, Hsp.
    split; [done|]. split; [done|]. split; [done|]. by rewrite (parse_char_ok _ _ Ht).
Qed.

Lemma parse_chars_ok s c :
  parse_chars s = Ok c -> str_forall crockford c = true ∧ String.length c = String.length s.
Proof.
  revert c. induction s as [|r s IH]; simpl; intros c; [by intros [= <-]|].
  intros (d & Hd & (out & Hout & [= <-])%result_bind_inv)%result_bind_inv.
  destruct (IH out Hout) as [IH1 IH2]. simpl. by rewrite IH1, IH2, (parse_char_ok _ _ Hd).
Qed.

(** ** Parsing *)

Lemma str_map_app f s t : str_map f (s +:+ t) = str_map f s +:+ str_map f t.
Proof. induction s; [done|]. rewrite !app_cons. simpl. by rewrite app_cons, IHs. Qed.

Lemma str_forall_and f g s :
  str_forall (fun c => f c && g c) s = str_forall f s && str_forall g s.
Proof. induction s as [|c s IH]; simpl; [done|]. rewrite IH. destruct (f c), (g c); by rewrite ?andb_false_r. Qed.

(** The upper-cased input after the prefix is removed. *)
Lemma Parse_stripped up ws1 ws2 pre body c :
  str_forall ascii_space ws1 = true -> str_forall ascii_space ws2 = true ->
  canonical c -> types_all body c ->
  str_map upper pre = "OPEN-" ∨ pre = EmptyString ∧ HasPrefix (str_map upper body) "OPEN-" = false ->
  Parse up (ws1 +:+ (pre +:+ body) +:+ ws2) = Ok c.
Proof.
  intros H1 H2 [Hlen _] Ht Hpre. destruct (types_all_spec body c Ht) as (Hp & Hl & Hasc & _).
  assert (str_forall (fun x => is_ascii x && negb (ascii_space x)) pre = true) as Hpasc.
  { destruct Hpre as [Hpre|[-> _]]; [|done].
    assert (str_forall (fun x => is_ascii x && negb (ascii_space x)) (str_map upper pre) = true) as Hu
      by (by rewrite Hpre).
    clear -Hu. induction pre as [|x pre IH]; [done|]. simpl in *.
    apply andb_true_iff in Hu as [Hx Hu]. rewrite IH, andb_true_r by done. revert x Hx. by_ascii. }
  unfold Parse. rewrite TrimSpace_spaces; [|done..| |by rewrite str_forall_app, Hpasc].
  - unfold ToUpper. assert (str_forall is_ascii (pre +:+ body) = true) as ->.
    { rewrite str_forall_app. rewrite !str_forall_and in Hasc, Hpasc.
      apply andb_true_iff in Hasc as [-> _]. by apply andb_true_iff in Hpasc as [-> _]. }
    rewrite str_map_app.
    assert (TrimPrefix (str_map upper pre +:+ str_map upper body) "OPEN-" = str_map upper body) as ->.
    { destruct Hpre as [->|[-> Hnp]]; [apply TrimPrefix_app|].
      simpl str_map. rewrite app_empty_l. unfold TrimPrefix. by rewrite Hnp. }
    rewrite Hl, decide_False by (intros Hn; exact (Hn Hlen)). done.
  - destruct body; [|by destruct pre]. inversion Ht; subst. simpl in Hlen. done.
Qed.

Lemma canonical_no_dash c : str_forall crockford c = true -> no_char "-" c = true.
Proof. apply str_forall_impl. by_ascii. Qed.

Lemma canonical_upper c : str_forall crockford c = true -> str_map upper c = c.
Proof.
  induction c as [|x c IH]; simpl; [done|]. intros [Hx Hc]%andb_true_iff.
  destruct (parse_char_canonical x Hx) as (_ & -> & _). by rewrite IH.
Qed.

(** A canonical code does not begin with the prefix, which contains a dash. *)
Lemma canonical_no_prefix c : str_forall crockford c = true -> HasPrefix c "OPEN-" = false.
Proof.
  intros Hc%canonical_no_dash. destruct (HasPrefix c "OPEN-") eqn:Hp; [|done].
  apply HasPrefix_split in Hp. rewrite Hp, no_char_app in Hc.
  by apply andb_true_iff in Hc as [Hc _].
Qed.

Lemma Pretty_canonical c : canonical c ->
  ∃ c1 c2, c = c1 +:+ c2 ∧ Pretty c = "OPEN-" +:+ c1 +:+ "-" +:+ c2.
Proof.
  intros [Hlen _]. unfold Pretty. rewrite decide_False by (intros Hn; exact (Hn Hlen)).
  exists (String.substring 0 4 c), (str_drop 4 c). split; [|done].
  do 8 (destruct c as [|? c]; [done|]). destruct c; done.
Qed.

Lemma Parse_Pretty up c : canonical c -> Parse up (Pretty c) = Ok c.
Proof.
  intros Hc. pose proof Hc as [_ Hcr]. destruct (Pretty_canonical c Hc) as (c1 & c2 & Heq & ->).
  assert (str_forall crockford c1 = true ∧ str_forall crockford c2 = true) as [Hc1 Hc2].
  { rewrite Heq, str_forall_app in Hcr. by apply andb_true_iff in Hcr. }
  rewrite <- (app_empty_r ("OPEN-" +:+ _)), <- (app_empty_l (_ +:+ "")).
  apply Parse_stripped; [done..| |by left]. rewrite Heq. apply types_all_app; [by apply types_all_canonical|].
  rewrite app_cons, app_empty_l. constructor. by apply types_all_canonical.
Qed.

Lemma Parse_self up c : canonical c -> Parse up c = Ok c.
Proof.
  intros Hc. pose proof Hc as [_ Hcr].
  rewrite <- (app_empty_r c), <- (app_empty_l (c +:+ "")), <- (app_empty_l c) at 1.
  apply Parse_stripped; [done..|by apply types_all_canonical|]. right. split; [done|].
  by rewrite canonical_upper, canonical_no_prefix.
Qed.

Lemma Parse_canonical up s c : Parse up s = Ok c -> canonical c.
Proof.
  unfold Parse. case_decide as Hlen; [done|]. intros [Hc Hl]%parse_chars_ok.
  split; [|done]. rewrite Hl. lia.
Qed.

(** Parsing accepts every form users type: surrounding white space, any
    case, dashes anywhere, the optional OPEN- prefix, and O, I, L for 0, 1, 1
    all give the same code; whatever is accepted is canonical, and is given
    back both by its printed form and by itself. *)
Theorem Parse_user_forms up ws1 ws2 pre body c s c' :
  (str_forall ascii_space ws1 = true -> str_forall ascii_space ws2 = true ->
   canonical c -> types_all body c ->
   str_map upper pre = "OPEN-" ∨ pre = EmptyString ∧ HasPrefix (str_map upper body) "OPEN-" = false ->
   Parse up (ws1 +:+ (pre +:+ body) +:+ ws2) = Ok c) ∧
  (Parse up s = Ok c' -> canonical c' ∧ Parse up (Pretty c') = Ok c' ∧ Parse up c' = Ok c').
Proof.
  split; [apply Parse_stripped|]. intros Hc%Parse_canonical. auto using Parse_Pretty, Parse_self.
Qed.

Lemma Parse_user_forms_witness :
  Parse id "  oPen-O1-i-LabcD " = Ok "0111ABCD" /\
  canonical "0111ABCD" /\ Parse id "OPEN-0111-ABCD" = Ok "0111ABCD".
Proof.
  destruct (proj2 (Parse_user_forms id "" "" "" "" "" "oPen-O1iL-abcd" "0111ABCD") ltac:(vm_compute; reflexivity))
    as (H1 & H2 & _).
  split; [|split; [exact H1|exact H2]].
  refine (proj1 (Parse_user_forms id "  " " " "oPen-" "O1-i-LabcD" "0111ABCD" "" "") eq_refl eq_refl H1 _
    (or_introl eq_refl)).
  repeat first [apply ty_nil | apply ty_dash | apply ty_char; [reflexivity|reflexivity|]].
Defined.

(** ** Generation *)

Lemma code_bits_eq b0 b1 b2 b3 b4 :
  code_bits b0 b1 b2 b3 b4 =
    (chr b0 * 4294967296 + chr b1 * 16777216 + chr b2 * 65536 + chr b3 * 256 + chr b4)%Z.
Proof.
  pose proof (chr_range b0). pose proof (chr_range b1). pose proof (chr_range b2).
  pose proof (chr_range b3). pose proof (chr_range b4).
  unfold code_bits. rewrite <- !Z.lor_assoc. rewrite (lor_shiftl_add (chr b3) (chr b4) 8) by lia.
  rewrite (lor_shiftl_add (chr b2) _ 16) by lia. rewrite (lor_shiftl_add (chr b1) _ 24) by lia.
  rewrite lor_shiftl_add by lia. lia.
Qed.

(** The [i]-th group of five bits. *)
Definition group (bits : Z) (i : nat) : Z := (bits / 2 ^ (35 - 5 * Z.of_nat i) mod 32)%Z.

Lemma code_char_group bits i : i < 8 -> code_char bits i = crock (group bits i).
Proof.
  intros Hi. unfold code_char, group. change 31%Z with (Z.ones 5).
  by rewrite Z.land_ones, Z.shiftr_div_pow2 by lia.
Qed.

Lemma group_range bits i : (0 <= group bits i < 32)%Z.
Proof. apply Z.mod_pos_bound. lia. Qed.

(** A number below 2^40 is its eight groups. *)
Lemma groups_eq v :
  (0 <= v < 2 ^ 40)%Z ->
  v = (((((((group v 0 * 32 + group v 1) * 32 + group v 2) * 32 + group v 3) * 32 + group v 4) * 32
         + group v 5) * 32 + group v 6) * 32 + group v 7)%Z.
Proof.
  intros Hv.
  change (group v 0) with (v / 2 ^ 35 mod 32)%Z.
  change (group v 1) with (v / 2 ^ 30 mod 32)%Z.
  change (group v 2) with (v / 2 ^ 25 mod 32)%Z.
  change (group v 3) with (v / 2 ^ 20 mod 32)%Z.
  change (group v 4) with (v / 2 ^ 15 mod 32)%Z.
  change (group v 5) with (v / 2 ^ 10 mod 32)%Z.
  change (group v 6) with (v / 2 ^ 5 mod 32)%Z.
  change (group v 7) with (v / 2 ^ 0 mod 32)%Z.
  assert (∀ k, (0 <= k)%Z -> (v / 2 ^ k = 32 * (v / 2 ^ (k + 5)) + v / 2 ^ k mod 32)%Z) as Hstep.
  { intros k Hk. rewrite Z.pow_add_r by lia. change (2 ^ 5)%Z with 32%Z.
    rewrite <- Z.div_div by lia. apply Z.div_mod. lia. }
  pose proof (Hstep 0%Z ltac:(lia) : (v / 2 ^ 0 = 32 * (v / 2 ^ 5) + v / 2 ^ 0 mod 32)%Z) as H0.
  pose proof (Hstep 5%Z ltac:(lia) : (v / 2 ^ 5 = 32 * (v / 2 ^ 10) + v / 2 ^ 5 mod 32)%Z) as H1.
  pose proof (Hstep 10%Z ltac:(lia) : (v / 2 ^ 10 = 32 * (v / 2 ^ 15) + v / 2 ^ 10 mod 32)%Z) as H2.
  pose proof (Hstep 15%Z ltac:(lia) : (v / 2 ^ 15 = 32 * (v / 2 ^ 20) + v / 2 ^ 15 mod 32)%Z) as H3.
  pose proof (Hstep 20%Z ltac:(lia) : (v / 2 ^ 20 = 32 * (v / 2 ^ 25) + v / 2 ^ 20 mod 32)%Z) as H4.
  pose proof (Hstep 25%Z ltac:(lia) : (v / 2 ^ 25 = 32 * (v / 2 ^ 30) + v / 2 ^ 25 mod 32)%Z) as H5.
  pose proof (Hstep 30%Z ltac:(lia) : (v / 2 ^ 30 = 32 * (v / 2 ^ 35) + v / 2 ^ 30 mod 32)%Z) as H6.
  assert (v / 2 ^ 0 = v)%Z as Hv0 by apply Z.div_1_r.
  assert (v / 2 ^ 35 mod 32 = v / 2 ^ 35)%Z as H7.
  { apply Z.mod_small. split; [apply Z.div_pos; lia|]. apply Z.div_lt_upper_bound; lia. }
  rewrite Hv0 in *. clear Hstep Hv. revert H0 H1 H2 H3 H4 H5 H6 H7.
  generalize (v / 2 ^ 5)%Z (v / 2 ^ 10)%Z (v / 2 ^ 15)%Z (v / 2 ^ 20)%Z (v / 2 ^ 25)%Z (v / 2 ^ 30)%Z
    (v / 2 ^ 35)%Z. intros. lia.
Qed.

Lemma string_of_list_ascii_inj l l' :
  String.string_of_list_ascii l = String.string_of_list_ascii l' -> l = l'.
Proof.
  intros H. apply (f_equal String.list_ascii_of_string) in H.
  by rewrite !String.list_ascii_of_string_of_list_ascii in H.
Qed.

Lemma code_bits_inj b0 b1 b2 b3 b4 c0 c1 c2 c3 c4 :
  code_bits b0 b1 b2 b3 b4 = code_bits c0 c1 c2 c3 c4 ->
  [b0; b1; b2; b3; b4] = [c0; c1; c2; c3; c4].
Proof.
  rewrite !code_bits_eq. intros H.
  rewrite <- (of_chr_chr b0), <- (of_chr_chr b1), <- (of_chr_chr b2), <- (of_chr_chr b3), <- (of_chr_chr b4).
  rewrite <- (of_chr_chr c0), <- (of_chr_chr c1), <- (of_chr_chr c2), <- (of_chr_chr c3), <- (of_chr_chr c4).
  pose proof (chr_range b0). pose proof (chr_range b1). pose proof (chr_range b2).
  pose proof (chr_range b3). pose proof (chr_range b4).
  pose proof (chr_range c0). pose proof (chr_range c1). pose proof (chr_range c2).
  pose proof (chr_range c3). pose proof (chr_range c4).
  assert (chr b0 = chr c0 ∧ chr b1 = chr c1 ∧ chr b2 = chr c2 ∧ chr b3 = chr c3 ∧ chr b4 = chr c4)
    as (-> & -> & -> & -> & ->) by lia.
  done.
Qed.

Lemma Generate_canonical b0 b1 b2 b3 b4 : canonical (Generate b0 b1 b2 b3 b4).
Proof.
  split; [done|]. unfold Generate. change (seq 0 codeLength) with [0; 1; 2; 3; 4; 5; 6; 7].
  cbn [fmap list_fmap String.string_of_list_ascii str_forall].
  rewrite !code_char_group, !crock_crockford by first [apply group_range | lia]. done.
Qed.

(** Every generated code is canonical, so it survives printing and
    parsing, and two different draws of five random bytes never give the same
    code: the eight characters carry all 40 bits. *)
Theorem Generate_injective b0 b1 b2 b3 b4 c0 c1 c2 c3 c4 up :
  canonical (Generate b0 b1 b2 b3 b4) ∧
  Parse up (Pretty (Generate b0 b1 b2 b3 b4)) = Ok (Generate b0 b1 b2 b3 b4) ∧
  (Generate b0 b1 b2 b3 b4 = Generate c0 c1 c2 c3 c4 ->
   [b0; b1; b2; b3; b4] = [c0; c1; c2; c3; c4]).
Proof.
  pose proof (Generate_canonical b0 b1 b2 b3 b4) as Hc.
  split; [done|]. split; [by apply Parse_Pretty|].
  unfold Generate. intros H%string_of_list_ascii_inj. apply code_bits_inj.
  assert (∀ x0 x1 x2 x3 x4, (0 <= code_bits x0 x1 x2 x3 x4 < 2 ^ 40)%Z) as Hb.
  { intros. rewrite code_bits_eq. pose proof (chr_range x0). pose proof (chr_range x1).
    pose proof (chr_range x2). pose proof (chr_range x3). pose proof (chr_range x4). lia. }
  rewrite (groups_eq (code_bits b0 b1 b2 b3 b4)), (groups_eq (code_bits c0 c1 c2 c3 c4)) by apply Hb.
  change (seq 0 codeLength) with [0; 1; 2; 3; 4; 5; 6; 7] in H. cbn [fmap list_fmap] in H.
  rewrite !code_char_group in H by lia. injection H as H0 H1 H2 H3 H4 H5 H6 H7.
  apply crock_inj in H0, H1, H2, H3, H4, H5, H6, H7; try apply group_range. congruence.
Qed.

Lemma Generate_injective_witness :
  Parse id (Pretty (Generate "000" "068" "050" "020" "199")) = Ok (Generate "000" "068" "050" "020" "199") /\
  ["000"; "068"; "050"; "020"; "199"]%char = ["000"; "068"; "050"; "020"; "199"]%char.
Proof.
  destruct (Generate_injective "000" "068" "050" "020" "199" "000" "068" "050" "020" "199" id) as (_ & H1 & H2).
  split; [exact H1|exact (H2 eq_refl)].
Defined.
