(* ===== verification/InviteUrl.v ===== *)
(** * Self-contained invite URLs ([internal/invite/url.go])

    Formatting, parsing, signing and verifying [opencom://join?...] URLs. The
    key algebra of libp2p (signatures, key marshalling, peer ids) is a
    parameter. *)
From S2P Require Import Prelude GoStrings Base64 Query InviteCode.

Definition URLPrefix : string := "opencom://join".
Definition urlSigDomain : string := "opencom-invite-url-v1".

Record URLPayload := mkPayload {
  PeerID : string;
  PublicKey : string;
  Addresses : list string;
  DisplayName : string;
  pl_Code : Code;
  ExpiresAt : Z;
  Signature : string }.

Definition set_signature (sig : string) (p : URLPayload) : URLPayload :=
  mkPayload (PeerID p) (PublicKey p) (Addresses p) (DisplayName p) (pl_Code p) (ExpiresAt p) sig.

Definition nl : string := String "010" EmptyString.

Definition encodeAddresses (addrs : list string) : string := RawURLEncode (Join addrs nl).

Definition decodeAddresses (enc : string) : option (list string) :=
  blob ← RawURLDecode enc;
  if decide (blob = EmptyString) then Some [] else Some (Split blob "010").

(** The [url.Values] [FormatURL] builds. *)
Definition url_values (p : URLPayload) : Values :=
  [("p", PeerID p); ("k", PublicKey p); ("a", encodeAddresses (Addresses p));
   ("n", DisplayName p); ("c", pl_Code p); ("e", FormatInt (ExpiresAt p))] ++
  (if decide (Signature p ≠ EmptyString) then [("s", Signature p)] else []).

Definition FormatURL (p : URLPayload) : string := URLPrefix +:+ "?" +:+ Encode (url_values p).

Inductive UrlErr :=
| ENotUrl | EMissingQuery | EParsingQuery | EMissingPeer | EMissingAddresses
| EDecodingAddresses | EParsingCode (err : CodeErr) | EParsingExpiry
| ErrURLSignatureInvalid | EDecodingPublicKey | EParsingPublicKey | EDerivingPeerID
| ErrURLPubkeyMismatch | EDecodingSignature | ESigning.

Section parse.
Context (unicode_upper unicode_lower : string -> string).

Definition ParseURL (s : string) : result UrlErr URLPayload :=
  if negb (HasPrefix (ToLower unicode_lower s) URLPrefix) then Err ENotUrl
  else match IndexByte s "?" with
  | None => Err EMissingQuery
  | Some idx =>
      values ← of_option EParsingQuery (ParseQuery (str_drop (idx + 1) s));
      let peer := ValuesGet "p" values in
      if decide (peer = EmptyString) then Err EMissingPeer
      else
        let pub := ValuesGet "k" values in
        let addrEnc := ValuesGet "a" values in
        if decide (addrEnc = EmptyString) then Err EMissingAddresses
        else
          addrs ← of_option EDecodingAddresses (decodeAddresses addrEnc);
          let name := ValuesGet "n" values in
          c ← map_err EParsingCode (Parse unicode_upper (ValuesGet "c" values));
          let exp := ValuesGet "e" values in
          e ← (if decide (exp ≠ EmptyString) then of_option EParsingExpiry (ParseInt exp) else Ok 0%Z);
          Ok (mkPayload peer pub addrs name c e (ValuesGet "s" values))
  end.
End parse.

(** [urlCanonicalBytes]: what the signature covers. *)
Definition urlCanonicalBytes (p : URLPayload) : string :=
  urlSigDomain +:+ nl +:+ "p=" +:+ PeerID p +:+ nl +:+ "k=" +:+ PublicKey p +:+ nl +:+
  "a=" +:+ encodeAddresses (Addresses p) +:+ nl +:+ "n=" +:+ DisplayName p +:+ nl +:+
  "c=" +:+ pl_Code p +:+ nl +:+ "e=" +:+ FormatInt (ExpiresAt p).

(** ** Signing *)

Section crypto.
Context {PrivKey PubKey : Type}.
(** [crypto.PrivKey.Sign], [crypto.PubKey.Verify] ([None] is its error),
    [crypto.UnmarshalPublicKey] and [peer.IDFromPublicKey(pub).String()]. *)
Context (Sign : PrivKey -> string -> option string).
Context (Verify : PubKey -> string -> string -> option bool).
Context (UnmarshalPublicKey : string -> option PubKey).
Context (IDFromPublicKey : PubKey -> option string).

Definition SignURL (p : URLPayload) (signer : PrivKey) : result UrlErr URLPayload :=
  sig ← of_option ESigning (Sign signer (urlCanonicalBytes p));
  Ok (set_signature (StdEncode sig) p).

Definition VerifyURL (p : URLPayload) : result UrlErr PubKey :=
  if decide (PublicKey p = EmptyString) then Err ErrURLSignatureInvalid
  else if decide (Signature p = EmptyString) then Err ErrURLSignatureInvalid
  else
    pubBytes ← of_option EDecodingPublicKey (StdDecode (PublicKey p));
    pub ← of_option EParsingPublicKey (UnmarshalPublicKey pubBytes);
    derivedID ← of_option EDerivingPeerID (IDFromPublicKey pub);
    if decide (derivedID ≠ PeerID p) then Err ErrURLPubkeyMismatch
    else
      sig ← of_option EDecodingSignature (StdDecode (Signature p));
      match Verify pub (urlCanonicalBytes p) sig with
      | Some true => Ok pub
      | _ => Err ErrURLSignatureInvalid
      end.
End crypto.

(** ** Round trip of the text form *)

(** What [Create] puts in a URL. *)
Record payload_ok (p : URLPayload) : Prop := {
  po_peer : PeerID p ≠ EmptyString;
  po_addrs : Addresses p ≠ [];
  po_join : Join (Addresses p) nl ≠ EmptyString;
  po_lines : Forall (fun a => no_char "010" a = true) (Addresses p);
  po_code : canonical (pl_Code p);
  po_exp : int64 (ExpiresAt p) }.

Lemma decode_encodeAddresses addrs :
  Join addrs nl ≠ EmptyString -> addrs ≠ [] -> Forall (fun a => no_char "010" a = true) addrs ->
  decodeAddresses (encodeAddresses addrs) = Some addrs.
Proof.
  intros Hj Hne Hall. unfold decodeAddresses, encodeAddresses, RawURLDecode, RawURLEncode.
  rewrite Decode_Encode by apply _. cbn [mbind option_bind]. rewrite decide_False by done.
  f_equal. by apply Split_Join.
Qed.

Lemma url_values_NoDup p : NoDup (url_values p).*1.
Proof.
  unfold url_values. rewrite fmap_app. simpl.
  case_decide; apply (bool_decide_unpack _); vm_compute; done.
Qed.

Lemma url_values_keys p : Forall (fun q => q.1 ≠ EmptyString) (url_values p).
Proof. unfold url_values. apply Forall_app. split; [|case_decide]; by repeat constructor. Qed.

Lemma Encode_ascii v : str_forall is_ascii (Encode v) = true.
Proof.
  unfold Encode. generalize (sort_by_key v). clear v. intros v.
  assert (∀ s, str_forall is_ascii (QueryEscape s) = true) as He.
  { intros s. apply QueryEscape_forall. vm_compute. reflexivity. }
  induction v as [|p v IH]; [done|]. rewrite fmap_cons.
  destruct (decide ((fun p => QueryEscape p.1 +:+ "=" +:+ QueryEscape p.2) <$> v = [])) as [Hn|Hn].
  - rewrite Hn. simpl. by rewrite !str_forall_app, !He.
  - rewrite Join_cons by done. by rewrite !str_forall_app, !He, IH.
Qed.

Lemma url_values_get p :
  ValuesGet "p" (sort_by_key (url_values p)) = PeerID p ∧
  ValuesGet "k" (sort_by_key (url_values p)) = PublicKey p ∧
  ValuesGet "a" (sort_by_key (url_values p)) = encodeAddresses (Addresses p) ∧
  ValuesGet "n" (sort_by_key (url_values p)) = DisplayName p ∧
  ValuesGet "c" (sort_by_key (url_values p)) = pl_Code p ∧
  ValuesGet "e" (sort_by_key (url_values p)) = FormatInt (ExpiresAt p) ∧
  ValuesGet "s" (sort_by_key (url_values p)) = Signature p.
Proof.
  assert (∀ k, ValuesGet k (sort_by_key (url_values p)) = ValuesGet k (url_values p)) as Hget.
  { intros k. apply ValuesGet_perm; [apply url_values_NoDup|]. by rewrite sort_by_key_perm. }
  rewrite !Hget. unfold url_values. destruct (decide (Signature p ≠ EmptyString)) as [|Hs]; [done|].
  assert (Signature p = EmptyString) as -> by (by apply dec_stable). done.
Qed.

(** The prefix test, the position of the query and its values. *)
Lemma FormatURL_query (up low : string -> string) p :
  HasPrefix (ToLower low (FormatURL p)) URLPrefix = true ∧
  IndexByte (FormatURL p) "?" = Some 14 ∧
  ParseQuery (str_drop (14 + 1) (FormatURL p)) = Some (sort_by_key (url_values p)).
Proof.
  unfold FormatURL.
  assert (ToLower low (URLPrefix +:+ "?" +:+ Encode (url_values p)) =
    URLPrefix +:+ "?" +:+ str_map lower (Encode (url_values p))) as ->.
  { unfold ToLower. rewrite !str_forall_app, Encode_ascii. simpl. by rewrite !str_map_app. }
  split; [apply HasPrefix_app|]. split.
  - rewrite (app_cons "?" "" _), app_empty_l. by rewrite IndexByte_app.
  - change (str_drop (14 + 1) (URLPrefix +:+ "?" +:+ Encode (url_values p))) with (Encode (url_values p)).
    apply ParseQuery_Encode; [by destruct p|apply url_values_keys].
Qed.

Lemma ParseURL_FormatURL up low p :
  payload_ok p -> ParseURL up low (FormatURL p) = Ok p.
Proof.
  intros [Hpeer Hne Hj Hlines Hcode Hexp]. unfold ParseURL.
  destruct (FormatURL_query up low p) as (-> & -> & ->). cbn [negb of_option mbind result_bind].
  destruct (url_values_get p) as (-> & -> & -> & -> & -> & -> & ->).
  rewrite decide_False by done.
  rewrite decide_False by (unfold encodeAddresses; by rewrite RawURLEncode_empty).
  rewrite decode_encodeAddresses by done. cbn [of_option mbind result_bind].
  rewrite Parse_self by done. cbn [map_err mbind result_bind].
  rewrite decide_True by (by apply FormatInt_nonempty).
  rewrite ParseInt_FormatInt by done. cbn [of_option mbind result_bind]. by destruct p.
Qed.

(** ** What the signature covers *)

Lemma line_split (a b x y : string) :
  no_char "010" a = true -> no_char "010" b = true ->
  a +:+ nl +:+ x = b +:+ nl +:+ y -> a = b ∧ x = y.
Proof.
  intros Ha Hb H. unfold nl in H. rewrite !app_cons, !app_empty_l in H.
  pose proof (Cut_app a x "010" Ha) as H1. pose proof (Cut_app b y "010" Hb) as H2.
  rewrite H in H1. rewrite H1 in H2. by simplify_eq.
Qed.

Lemma app_inj_l (p a b : string) : p +:+ a = p +:+ b -> a = b.
Proof. intros H. by rewrite <- (str_drop_app p a), H, str_drop_app. Qed.

Lemma str_rev_inj s t : str_rev s = str_rev t -> s = t.
Proof. intros H. by rewrite <- (str_rev_involutive s), H, str_rev_involutive. Qed.

(** The same cut from the right: what follows the last newline. *)
Lemma line_split_r (a b x y : string) :
  no_char "010" x = true -> no_char "010" y = true ->
  a +:+ nl +:+ x = b +:+ nl +:+ y -> a = b ∧ x = y.
Proof.
  intros Hx Hy H%(f_equal str_rev). rewrite !str_rev_app_distr, !app_assoc_str in H.
  apply line_split in H as [->%str_rev_inj ->%str_rev_inj]; [done| |];
    unfold no_char in *; by rewrite str_forall_rev.
Qed.

Lemma between_one_line s : str_forall (between 48 57) s = true -> no_char "010" s = true.
Proof.
  apply str_forall_impl. by_ascii.
Qed.

Lemma FormatInt_one_line n : int64 n -> no_char "010" (FormatInt n) = true.
Proof.
  intros Hn. destruct (FormatInt_digits n Hn) as (s & _ & _ & Hd & ->).
  case_decide; [|by apply between_one_line]. cbn. by apply between_one_line.
Qed.

Lemma canonical_one_line c : canonical c -> no_char "010" c = true.
Proof. intros [_ Hc]. revert Hc. apply str_forall_impl. by_ascii. Qed.

Lemma encodeAddresses_one_line l : no_char "010" (encodeAddresses l) = true.
Proof. by apply RawURLEncode_forall. Qed.

(** The part of a payload the signature is about. *)
Definition signed_fields (p : URLPayload) : string * string * string * string * Code * Z :=
  (PeerID p, PublicKey p, Join (Addresses p) nl, DisplayName p, pl_Code p, ExpiresAt p).

(** Payloads for which the signed bytes are read back in one way only. *)
Record lines_ok (p : URLPayload) : Prop := {
  lo_peer : no_char "010" (PeerID p) = true;
  lo_key : no_char "010" (PublicKey p) = true;
  lo_code : canonical (pl_Code p);
  lo_exp : int64 (ExpiresAt p) }.

Lemma urlCanonicalBytes_inj p q :
  lines_ok p -> lines_ok q -> urlCanonicalBytes p = urlCanonicalBytes q -> signed_fields p = signed_fields q.
Proof.
  intros [Hp1 Hk1 Hc1 He1] [Hp2 Hk2 Hc2 He2] H. unfold urlCanonicalBytes in H.
  apply app_inj_l, app_inj_l, app_inj_l in H.
  apply line_split in H as [HP H]; [|done|done]. apply app_inj_l in H.
  apply line_split in H as [HK H]; [|done|done]. apply app_inj_l in H.
  apply line_split in H as [HA H]; [|apply encodeAddresses_one_line..]. apply app_inj_l in H.
  assert (∀ r, DisplayName r +:+ nl +:+ "c=" +:+ pl_Code r +:+ nl +:+ "e=" +:+ FormatInt (ExpiresAt r) =
    (DisplayName r +:+ nl +:+ "c=" +:+ pl_Code r) +:+ nl +:+ "e=" +:+ FormatInt (ExpiresAt r)) as Hr.
  { intros r. by rewrite !app_assoc_str. }
  rewrite !Hr in H. apply line_split_r in H as [H HE];
    [|by rewrite no_char_app, FormatInt_one_line..].
  apply app_inj_l in HE. apply (f_equal ParseInt) in HE. rewrite !ParseInt_FormatInt in HE by done.
  apply line_split_r in H as [HN HC]; [|by rewrite no_char_app, (canonical_one_line (pl_Code _)).. ].
  apply app_inj_l in HC. apply (Encode_inj url_alphabet None) in HA.
  unfold signed_fields. congruence.
Qed.

(** Invite URLs round trip: what FormatURL writes for any payload Create
    can build, ParseURL reads back field by field whatever the display name
    holds, before and after signing; only a payload without addresses yields
    a URL that ParseURL refuses. *)
Theorem invite_url_roundtrip up low p sig :
  (payload_ok p ->
   ParseURL up low (FormatURL p) = Ok p ∧
   ParseURL up low (FormatURL (set_signature sig p)) = Ok (set_signature sig p)) ∧
  (PeerID p ≠ EmptyString -> Addresses p = [] -> ParseURL up low (FormatURL p) = Err EMissingAddresses).
Proof.
  split.
  - intros Hp. split; apply ParseURL_FormatURL; [done|]. by destruct Hp.
  - intros Hpeer Ha. unfold ParseURL. destruct (FormatURL_query up low p) as (-> & -> & Hq).
    rewrite Hq. cbn [negb of_option mbind result_bind].
    destruct (url_values_get p) as (Hp & _ & Haddr & _). rewrite Hp, Haddr, Ha.
    by rewrite decide_False by done.
Qed.

Definition sample_payload : URLPayload :=
  mkPayload "12D3" "a2V5" ["/ip4/10.0.0.1/tcp/4001"; "/dns4/r/tcp/1"] "Ann & Bob=?" "0111ABCD" 1700000000 "".

Lemma invite_url_roundtrip_witness :
  payload_ok sample_payload /\
  ParseURL id id (FormatURL (set_signature "c2ln" sample_payload)) = Ok (set_signature "c2ln" sample_payload) /\
  ParseURL id id (FormatURL (mkPayload "12D3" "a2V5" [] "" "0111ABCD" 0 "")) = Err EMissingAddresses.
Proof.
  assert (payload_ok sample_payload) as Hok.
  { constructor; first [done | by repeat constructor | split; vm_compute; done]. }
  split; [exact Hok|]. split.
  - exact (proj2 (proj1 (invite_url_roundtrip id id sample_payload "c2ln") Hok)).
  - apply (proj2 (invite_url_roundtrip id id (mkPayload "12D3" "a2V5" [] "" "0111ABCD" 0 "") "")); done.
Defined.

Section verify.
Context {PrivKey PubKey : Type} (Sign : PrivKey -> string -> option string)
    (Verify : PubKey -> string -> string -> option bool) (Unmarshal : string -> option PubKey)
    (ID : PubKey -> option string).

(** Verifying any payload that carries a valid signature by the key of [peer]. *)
Lemma VerifyURL_signed p sig pk pkb id :
  PublicKey p = StdEncode pkb -> pkb ≠ EmptyString -> sig ≠ EmptyString -> Signature p = StdEncode sig ->
  Unmarshal pkb = Some pk -> ID pk = Some id ->
  (id = PeerID p -> Verify pk (urlCanonicalBytes p) sig = Some true) ->
  VerifyURL Verify Unmarshal ID p = if decide (id ≠ PeerID p) then Err ErrURLPubkeyMismatch else Ok pk.
Proof.
  intros Hkey Hne Hsne Hsig Hunm HID Hver.
  assert (StdEncode pkb ≠ EmptyString ∧ StdEncode sig ≠ EmptyString) as [Hke Hse].
  { split; intros He; [apply Hne|apply Hsne]; by apply (Encode_inj std_alphabet (Some "="%char)). }
  assert (∀ s, StdDecode (StdEncode s) = Some s) as Hdec by (intros; by apply Decode_Encode, _).
  unfold VerifyURL. rewrite Hkey, Hsig, !(decide_False (P := _ = EmptyString)), !Hdec by done.
  cbn [of_option mbind result_bind]. rewrite Hunm. cbn [of_option mbind result_bind]. rewrite HID.
  cbn [of_option mbind result_bind]. case_decide as Hd; [done|]. by rewrite Hver by congruence.
Qed.

Lemma SignURL_verifies sk pk pkb p sig :
  Sign sk (urlCanonicalBytes p) = Some sig -> sig ≠ EmptyString -> Verify pk (urlCanonicalBytes p) sig = Some true ->
  Unmarshal pkb = Some pk -> pkb ≠ EmptyString -> PublicKey p = StdEncode pkb -> ID pk = Some (PeerID p) ->
  SignURL Sign p sk = Ok (set_signature (StdEncode sig) p) ∧
  VerifyURL Verify Unmarshal ID (set_signature (StdEncode sig) p) = Ok pk.
Proof.
  intros Hsig Hsne Hver Hunm Hne Hkey HID. unfold SignURL. rewrite Hsig. split; [done|].
  rewrite (VerifyURL_signed _ sig pk pkb (PeerID p)) by done. rewrite decide_False; [done|]. by intros Hn.
Qed.

Lemma payload_ok_signed sig p : payload_ok p -> payload_ok (set_signature sig p).
Proof. by intros []. Qed.
End verify.

(** A signed URL verifies at its receiver with the signer's key, and
    verification is sound: success means the public key hashes to the claimed
    peer id and the signature is by that key over exactly the fields shown
    (no other payload with one-line ids has the same signed bytes); a
    different peer id under the same key, an unsigned URL and a rejected
    signature are all refused. *)
Theorem signed_invite_sound {PrivKey PubKey : Type} (Sign : PrivKey -> string -> option string)
    (Verify : PubKey -> string -> string -> option bool) (Unmarshal : string -> option PubKey)
    (ID : PubKey -> option string) (sk : PrivKey) (pk : PubKey) (pkb : string) up low p q :
  (∀ msg sig, Sign sk msg = Some sig -> sig ≠ EmptyString ∧ Verify pk msg sig = Some true) ->
  Unmarshal pkb = Some pk -> pkb ≠ EmptyString ->
  (payload_ok p -> PublicKey p = StdEncode pkb -> ID pk = Some (PeerID p) ->
   is_Some (Sign sk (urlCanonicalBytes p)) ->
   ∃ p', SignURL Sign p sk = Ok p' ∧ ParseURL up low (FormatURL p') = Ok p' ∧
     VerifyURL Verify Unmarshal ID p' = Ok pk ∧
     (∀ peer, peer ≠ PeerID p ->
      VerifyURL Verify Unmarshal ID
        (mkPayload peer (PublicKey p') (Addresses p') (DisplayName p') (pl_Code p') (ExpiresAt p') (Signature p'))
        = Err ErrURLPubkeyMismatch)) ∧
  (∀ pk', VerifyURL Verify Unmarshal ID q = Ok pk' ->
   ID pk' = Some (PeerID q) ∧
   ∃ sig, StdDecode (Signature q) = Some sig ∧ Verify pk' (urlCanonicalBytes q) sig = Some true) ∧
  (lines_ok p -> lines_ok q -> signed_fields p ≠ signed_fields q -> urlCanonicalBytes p ≠ urlCanonicalBytes q).
Proof.
  intros Hsound Hunm Hne. split_and!.
  - intros Hok Hkey HID [sig Hsig]. destruct (Hsound _ _ Hsig) as [Hsne Hver].
    destruct (SignURL_verifies Sign Verify Unmarshal ID sk pk pkb p sig) as [Hs Hv]; [done..|].
    exists (set_signature (StdEncode sig) p). split_and!; [done|apply ParseURL_FormatURL, payload_ok_signed, Hok|done|].
    intros peer Hpeer. erewrite VerifyURL_signed; [|exact Hkey|done|exact Hsne|reflexivity|done|done|].
    + rewrite decide_True; [done|]. intros Heq. by apply Hpeer.
    + intros Heq. by destruct Hpeer.
  - intros pk' Hv. unfold VerifyURL in Hv. repeat case_decide; try done.
    destruct (StdDecode (PublicKey q)) as [kb|]; [|done]. cbn [of_option mbind result_bind] in Hv.
    destruct (Unmarshal kb) as [k|]; [|done]. cbn [of_option mbind result_bind] in Hv.
    destruct (ID k) as [d|] eqn:Hid; [|done]. cbn [of_option mbind result_bind] in Hv.
    case_decide as Hd; [done|]. subst d.
    destruct (StdDecode (Signature q)) as [sig|]; [|done]. cbn [of_option mbind result_bind] in Hv.
    destruct (Verify k (urlCanonicalBytes q) sig) as [[]|] eqn:Hver; simplify_eq. eauto.
  - intros Hp Hq Hneq Heq. by apply Hneq, urlCanonicalBytes_inj.
Qed.

(** A toy signature scheme: a key is its own peer id, a signature is the
    message between a mark and the key. *)
Definition toy_sign (k msg : string) : option string := Some ("sig:" +:+ msg +:+ k).
Definition toy_verify (k msg sig : string) : option bool := Some (bool_decide (sig = "sig:" +:+ msg +:+ k)).

Definition signed_sample : URLPayload :=
  mkPayload "key" "a2V5" ["/ip4/10.0.0.1/tcp/4001"] "Ann" "0111ABCD" 1700000000 "".

Lemma signed_invite_sound_witness :
  (∃ p', SignURL toy_sign signed_sample "key" = Ok p' ∧ ParseURL id id (FormatURL p') = Ok p' ∧
     VerifyURL toy_verify Some Some p' = Ok "key") /\
  urlCanonicalBytes signed_sample ≠ urlCanonicalBytes (mkPayload "key" "a2V5" [] "Ann" "0111ABCD" 1700000000 "").
Proof.
  assert (∀ msg sig, toy_sign "key" msg = Some sig -> sig ≠ EmptyString ∧ toy_verify "key" msg sig = Some true) as Hs.
  { intros msg sig [= <-]. split; [done|]. unfold toy_verify. by rewrite bool_decide_true. }
  destruct (signed_invite_sound toy_sign toy_verify Some Some "key" "key" "key" id id signed_sample
    (mkPayload "key" "a2V5" [] "Ann" "0111ABCD" 1700000000 "") Hs eq_refl ltac:(done)) as (H1 & _ & H3).
  split.
  - destruct H1 as (p' & Ha & Hb & Hc & _); [|vm_compute; reflexivity|reflexivity|by eexists|by exists p'].
    constructor; first [done | by repeat constructor | split; vm_compute; done].
  - apply H3; [constructor|constructor|]; try done; split; vm_compute; done.
Defined.
