(* ===== verification/InviteStore.v ===== *)
(** * The store of issued invites ([internal/invite/store.go])

    The in-memory map of entries, its methods, and the interleaving of the
    methods' two halves: the change of the map under [mu] and the flush under
    [flushMu]. Go's map iteration order is an argument wherever the code
    ranges over the map; the JSON library is a parameter. *)
From S2P Require Import Prelude Iox InviteCode.
#[local] Open Scope string_scope.
#[local] Open Scope list_scope.

Record Entry := mkEntry {
  e_Code : Code;
  ExpiresAt : Z;
  Consumed : bool;
  ConsumedBy : string;
  CreatedAt : Z }.

#[export] Instance Entry_eq_dec : EqDecision Entry.
Proof. solve_decision. Defined.

Record Store := mkStore {
  path : string;
  entries : gmap Code Entry }.

Definition set_entries (m : gmap Code Entry) (s : Store) : Store := mkStore (path s) m.

(** The order in which a [range] over the map yields its values. *)
Definition ranges (s : Store) (order : list Entry) : Prop := order ≡ₚ (map_to_list (entries s)).*2.

Definition storeVersion : Z := 1.

(** ** The changes made under [mu]

    Each gives the new store and whether the method goes on to flush. *)

Definition Add_commit (e : Entry) (s : Store) : Store := set_entries (<[e_Code e := e]> (entries s)) s.

Definition consume (byPeerID : string) (e : Entry) : Entry :=
  mkEntry (e_Code e) (ExpiresAt e) true byPeerID (CreatedAt e).
Definition unconsume (e : Entry) : Entry :=
  mkEntry (e_Code e) (ExpiresAt e) false "" (CreatedAt e).

Definition MarkConsumed_commit (now : Z) (c : Code) (byPeerID : string) (s : Store) : Store * bool :=
  match entries s !! c with
  | None => (s, false)
  | Some e =>
      if Consumed e || (ExpiresAt e <? now)%Z then (s, false)
      else (set_entries (<[c := consume byPeerID e]> (entries s)) s, true)
  end.

Definition UnmarkConsumed_commit (c : Code) (s : Store) : Store * bool :=
  match entries s !! c with
  | None => (s, false)
  | Some e =>
      if negb (Consumed e) then (s, false)
      else (set_entries (<[c := unconsume e]> (entries s)) s, true)
  end.

Definition Remove_commit (c : Code) (s : Store) : Store * bool :=
  match entries s !! c with
  | None => (s, false)
  | Some _ => (set_entries (delete c (entries s)) s, true)
  end.

(** ** Reading *)

Definition Get (c : Code) (s : Store) : option Entry := entries s !! c.

Definition active (now : Z) (e : Entry) : bool := negb (Consumed e) && (now <? ExpiresAt e)%Z.

Definition ActiveList (now : Z) (order : list Entry) : list Entry := filter (fun e => active now e = true) order.

Definition AllList (order : list Entry) : list Entry := order.

(** ** The file *)

Section file.
(** [json.MarshalIndent] and [json.Unmarshal] on a [storeFile]: the version
    and the entries. *)
Context (marshal : Z -> list Entry -> option bytes) (unmarshal : bytes -> option (Z * list Entry)).

(** [flush] from its snapshot on; the outcome of the write is dropped. *)
Definition flush_write (o : Os) (p : string) (snapshot : list Entry) (fs : FS) : FS :=
  match marshal storeVersion snapshot with
  | None => fs
  | Some data => awf_result (AtomicWriteFile o p (data ++ [10%Z]) fs) fs
  end.

(** [OpenStore]; [readable] is false when reading an existing file fails. *)
Definition OpenStore (p : string) (readable : bool) (fs : FS) : result unit Store :=
  match fs !! p with
  | None => Ok (mkStore p ∅)
  | Some data =>
      if negb readable then Err tt
      else match unmarshal data with
      | None => Ok (mkStore p ∅)
      | Some (v, es) =>
          if negb (v =? storeVersion)%Z then Ok (mkStore p ∅)
          else Ok (mkStore p (foldl (fun m e => <[e_Code e := e]> m) ∅ es))
      end
  end.

(** ** The methods, run by one goroutine alone *)

Definition flushed (o : Os) (order : list Entry) (r : Store * bool) (fs : FS) : Store * FS * bool :=
  (r.1, if r.2 then flush_write o (path r.1) order fs else fs, r.2).

Definition Add (o : Os) (order : list Entry) (e : Entry) (s : Store) (fs : FS) : Store * FS :=
  (flushed o order (Add_commit e s, true) fs).1.
Definition MarkConsumed (o : Os) (order : list Entry) (now : Z) (c : Code) (by_ : string) (s : Store) (fs : FS)
  : Store * FS * bool := flushed o order (MarkConsumed_commit now c by_ s) fs.
Definition UnmarkConsumed (o : Os) (order : list Entry) (c : Code) (s : Store) (fs : FS) : Store * FS :=
  (flushed o order (UnmarkConsumed_commit c s) fs).1.
Definition Remove (o : Os) (order : list Entry) (c : Code) (s : Store) (fs : FS) : Store * FS * bool :=
  flushed o order (Remove_commit c s) fs.

(** ** Interleavings *)

Inductive sop :=
| OAdd (e : Entry)
| OMark (now : Z) (c : Code) (by_ : string)
| OUnmark (c : Code)
| ORemove (c : Code)
| OSnapshot (order : list Entry)
| OWrite (o : Os).

(** Any number of goroutines: [y_pending] of them have changed the map and
    not yet taken [flushMu], [y_holder] is the snapshot of the one that holds
    it. The log (newest first) records each change and its answer;
    [y_lost] says whether the last write failed. *)
Record Sys := mkSys {
  y_store : Store;
  y_pending : nat;
  y_holder : option (list Entry);
  y_fs : FS;
  y_lost : bool;
  y_log : list (sop * bool) }.

Definition committed (o : sop) (r : Store * bool) (y : Sys) : Sys :=
  mkSys r.1 (if r.2 then S (y_pending y) else y_pending y) (y_holder y) (y_fs y) (y_lost y)
    ((o, r.2) :: y_log y).

Inductive sys_step : relation Sys :=
| step_add e y : sys_step y (committed (OAdd e) (Add_commit e (y_store y), true) y)
| step_mark now c b y :
    sys_step y (committed (OMark now c b) (MarkConsumed_commit now c b (y_store y)) y)
| step_unmark c y : sys_step y (committed (OUnmark c) (UnmarkConsumed_commit c (y_store y)) y)
| step_remove c y : sys_step y (committed (ORemove c) (Remove_commit c (y_store y)) y)
| step_snapshot order s n fs l log :
    ranges s order ->
    sys_step (mkSys s (S n) None fs l log) (mkSys s n (Some order) fs l log)
| step_write o s n order fs l log :
    os_fresh o (path s) fs ->
    sys_step (mkSys s n (Some order) fs l log)
      (mkSys s n None (flush_write o (path s) order fs) (bool_decide (is_Some (os_fails o))) log).

Definition sys_init (s : Store) (fs : FS) : Sys := mkSys s 0 None fs false [].

(** The changes that can make a consumed code redeemable again. *)
Definition reopens (c : Code) (o : sop) : Prop :=
  match o with OAdd e => e_Code e = c | OUnmark c' => c' = c | _ => False end.

#[export] Instance reopens_dec c o : Decision (reopens c o).
Proof. destruct o; simpl; apply _. Defined.

(** ** Lemmas *)

Definition keyed (s : Store) : Prop := ∀ c e, entries s !! c = Some e -> e_Code e = c.

(** What the JSON library promises. *)
Definition json_law : Prop :=
  ∀ v l, ∃ d, marshal v l = Some d ∧ unmarshal (d ++ [10%Z]) = Some (v, l).

Lemma commits_keyed o (r : Store * bool) s :
  (∃ e, r = (Add_commit e s, o)) ∨ (∃ now c b, r = MarkConsumed_commit now c b s) ∨
  (∃ c, r = UnmarkConsumed_commit c s) ∨ (∃ c, r = Remove_commit c s) ->
  keyed s -> keyed r.1 ∧ path r.1 = path s ∧ (r.2 = false -> o = true -> r.1 = s).
Proof.
  intros Hr Hk.
  unfold keyed in *.
  destruct Hr as [(e & ->)|[(now & c & b & ->)|[(c & ->)|(c & ->)]]]; simpl;
    unfold MarkConsumed_commit, UnmarkConsumed_commit, Remove_commit; repeat case_match;
    (split_and!; [|done|intros; simplify_eq; done]); try exact Hk; simpl; intros c' e';
    rewrite ?lookup_insert_Some, ?lookup_delete_Some.
  - intros [[<- <-]|[_ ?]]; eauto.
  - intros [[<- <-]|[_ ?]]; [simpl; eauto|eauto].
  - intros [[<- <-]|[_ ?]]; [simpl; eauto|eauto].
  - intros [_ ?]. eauto.
Qed.

(** Loading a range of the map gives the map. *)
Lemma foldl_insert_range (l : list Entry) (m : gmap Code Entry) :
  NoDup (e_Code <$> l) -> (∀ e, e ∈ l -> m !! e_Code e = None) ->
  ∀ c e, foldl (fun m e => <[e_Code e := e]> m) m l !! c = Some e <->
    (m !! c = Some e ∨ e ∈ l ∧ e_Code e = c).
Proof.
  revert m. induction l as [|a l IH]; intros m Hnd Hm c e; simpl; [set_solver|].
  apply NoDup_cons in Hnd as [Ha Hnd]. rewrite IH; [|done|].
  - rewrite lookup_insert_Some, elem_of_cons. split.
    + intros [[[<- <-]|[_ ?]]|[? ?]]; auto.
    + intros [Hmc|[[->|Hin] Hc]]; auto.
      left. right. split; [|done]. intros <-. rewrite Hm in Hmc; [done|by left].
  - intros e' He'. rewrite lookup_insert_ne; [apply Hm; by right|].
    intros Heq. apply Ha. rewrite Heq. by apply list_elem_of_fmap_2.
Qed.

Lemma load_range s order :
  keyed s -> ranges s order -> foldl (fun m e => <[e_Code e := e]> m) ∅ order = entries s.
Proof.
  intros Hk Hr. apply map_eq. intros c. apply option_eq. intros e.
  assert (∀ e', e' ∈ order <-> entries s !! e_Code e' = Some e') as Hin.
  { intros e'. unfold ranges in Hr. rewrite Hr, list_elem_of_fmap. split.
    - intros ([c' e''] & -> & H). apply elem_of_map_to_list in H. simpl in *. by rewrite (Hk _ _ H).
    - intros H. exists (e_Code e', e'). by rewrite elem_of_map_to_list. }
  rewrite foldl_insert_range.
  - rewrite lookup_empty, Hin. split; [intros [|[H <-]]; done|].
    intros H. right. split; [|by apply Hk]. by rewrite (Hk _ _ H).
  - unfold ranges in Hr. rewrite Hr.
    enough (e_Code <$> (map_to_list (entries s)).*2 = (map_to_list (entries s)).*1) as ->
      by apply NoDup_fst_map_to_list.
    rewrite <- list_fmap_compose. apply list_fmap_ext. intros i [c' e'] H.
    apply Hk. apply elem_of_map_to_list. by eapply list_elem_of_lookup_2.
  - intros. apply lookup_empty.
Qed.

(** *** The log *)

(** A redemption that has not been undone is still recorded. *)
Definition redeemed_kept (y : Sys) : Prop :=
  ∀ c b now l1 l2, y_log y = l2 ++ (OMark now c b, true) :: l1 -> Forall (fun o => ¬ reopens c o) l2.*1 ->
  ∀ e, entries (y_store y) !! c = Some e -> Consumed e = true ∧ ConsumedBy e = b.

(** Between two redemptions of a code something reopened it. *)
Definition redeemed_once (y : Sys) : Prop :=
  ∀ c b b' now now' l1 l2 l3,
    y_log y = l3 ++ (OMark now' c b', true) :: l2 ++ (OMark now c b, true) :: l1 ->
    Exists (reopens c) l2.*1.

(** A change of the map either leaves an entry alone, or removes it, or is one
    that reopens its code, or consumes it while it was open. *)
Definition keeps (o : sop) (r : Store * bool) (s : Store) (c : Code) : Prop :=
  entries r.1 !! c = entries s !! c ∨ entries r.1 !! c = None ∨ reopens c o ∨
  (∃ now b e, o = OMark now c b ∧ entries s !! c = Some e ∧ Consumed e = false ∧
    r.2 = true ∧ entries r.1 !! c = Some (consume b e)).

Lemma MarkConsumed_spec now c b s :
  MarkConsumed_commit now c b s =
    (match entries s !! c with
     | Some e => if decide (Consumed e = false ∧ (now <= ExpiresAt e)%Z)
                 then (set_entries (<[c := consume b e]> (entries s)) s, true) else (s, false)
     | None => (s, false) end).
Proof.
  clear marshal unmarshal. unfold MarkConsumed_commit. destruct (entries s !! c) as [e|]; [|done].
  destruct (decide (Consumed e = false ∧ (now <= ExpiresAt e)%Z)) as [[Hc He]|Hn].
  - rewrite Hc. cbn [orb]. by destruct (Z.ltb_spec (ExpiresAt e) now); [lia|].
  - destruct (Consumed e); [done|]. cbn [orb]. destruct (Z.ltb_spec (ExpiresAt e) now); [done|]. naive_solver.
Qed.

Lemma keeps_mark now c b c' s : keeps (OMark now c b) (MarkConsumed_commit now c b s) s c'.
Proof.
  rewrite MarkConsumed_spec. destruct (entries s !! c) as [e|] eqn:He; [|by left].
  case_decide as Hd; [|by left]. destruct Hd as [Hc _].
  destruct (decide (c = c')) as [<-|Hne]; [|left; simpl; by apply lookup_insert_ne].
  right; right; right. exists now, b, e. split_and!; try done. simpl. apply lookup_insert_eq.
Qed.

Lemma keeps_other o r s c' :
  (∃ e, o = OAdd e ∧ r = (Add_commit e s, true)) ∨ (∃ c, o = OUnmark c ∧ r = UnmarkConsumed_commit c s) ∨
  (∃ c, o = ORemove c ∧ r = Remove_commit c s) -> keeps o r s c'.
Proof.
  intros [(e & -> & ->)|[(c & -> & ->)|(c & -> & ->)]].
  - destruct (decide (e_Code e = c')) as [<-|Hne]; [by right; right; left|].
    left. simpl. by apply lookup_insert_ne.
  - destruct (decide (c = c')) as [<-|Hne]; [by right; right; left|]. left.
    unfold UnmarkConsumed_commit. repeat case_match; try done. by apply lookup_insert_ne.
  - unfold Remove_commit. destruct (entries s !! c) as [e|] eqn:He; [|by left].
    destruct (decide (c = c')) as [<-|Hne].
    + right; left. simpl. apply lookup_delete_eq.
    + left. simpl. by apply lookup_delete_ne.
Qed.

Lemma log_inv_commit o r y :
  (∀ c, keeps o r (y_store y) c) ->
  (∀ now c b, o = OMark now c b -> r.2 = true ->
     ∃ e, entries (y_store y) !! c = Some e ∧ Consumed e = false ∧ entries r.1 !! c = Some (consume b e)) ->
  redeemed_kept y ∧ redeemed_once y -> redeemed_kept (committed o r y) ∧ redeemed_once (committed o r y).
Proof.
  intros Hk Hm [HA HB]. split.
  - intros c b now l1 [|x l2]; simpl.
    + intros [= -> Hr Hl] _ e He. destruct (Hm now c b) as (e0 & _ & _ & He0); [done..|]. by simplify_eq.
    + intros [= <- Hl]. rewrite Forall_cons. intros [Hx Hl2] e He. simpl in Hx.
      destruct (Hk c) as [H|[H|[H|(? & ? & e0 & -> & H1 & H2 & _)]]]; [|congruence|done|].
      * rewrite H in He. by apply (HA c b now l1 l2 Hl Hl2).
      * destruct (HA c b now l1 l2 Hl Hl2 e0 H1). congruence.
  - intros c b b' now now' l1 l2 [|x l3]; simpl; [|intros [= _ Hl]; by eapply HB].
    intros [= -> Hr Hl]. destruct (Hm now' c b') as (e & He & Hc & _); [done..|].
    destruct (decide (Exists (reopens c) l2.*1)) as [|Hn]; [done|].
    rewrite <- Forall_Exists_neg in Hn. destruct (HA _ _ _ _ _ Hl Hn e He). congruence.
Qed.

Lemma log_inv_step y y' :
  sys_step y y' -> redeemed_kept y ∧ redeemed_once y -> redeemed_kept y' ∧ redeemed_once y'.
Proof.
  intros Hstep Hinv. destruct Hstep; try exact Hinv; apply log_inv_commit; try exact Hinv.
  all: try (intros; by apply keeps_mark); try (intros; apply keeps_other; naive_solver); try done.
  intros now' c' b' [= -> -> ->]. rewrite MarkConsumed_spec. repeat case_match; try done.
  intros _. eexists. split_and!; [done|naive_solver|]. simpl. apply lookup_insert_eq.
Qed.

(** *** The file *)

Definition file_ok (y : Sys) : Prop := OpenStore (path (y_store y)) true (y_fs y) = Ok (y_store y).

Definition file_inv (y : Sys) : Prop :=
  keyed (y_store y) ∧
  (y_pending y ≠ 0 ∨ (∃ order, y_holder y = Some order ∧ ranges (y_store y) order) ∨
   y_holder y = None ∧ (y_lost y = true ∨ file_ok y)).

Lemma file_inv_commit o r y :
  keyed r.1 -> path r.1 = path (y_store y) -> (r.2 = false -> r.1 = y_store y) ->
  file_inv y -> file_inv (committed o r y).
Proof.
  intros Hk Hp Hsame [_ Hcase]. split; [done|]. simpl. destruct r as [s' []]; simpl in *; [by left|].
  rewrite (Hsame eq_refl) in *. exact Hcase.
Qed.

Lemma flush_write_ok o s order fs :
  json_law -> keyed s -> ranges s order -> os_fresh o (path s) fs -> os_fails o = None ->
  OpenStore (path s) true (flush_write o (path s) order fs) = Ok s.
Proof.
  intros Hj Hk Hr Hf Ho. unfold flush_write.
  destruct (Hj storeVersion order) as (d & -> & Hd). destruct (awf_spec o (path s) (d ++ [10%Z]) fs Hf) as [_ ->].
  destruct (AtomicWriteFile o (path s) (d ++ [10%Z]) fs).2 as [c|] eqn:Hc.
  { apply awf_error in Hc. congruence. }
  unfold OpenStore. rewrite lookup_insert_eq, Hd. simpl. rewrite (load_range s) by done. by destruct s.
Qed.

Lemma file_inv_step y y' : json_law -> sys_step y y' -> file_inv y -> file_inv y'.
Proof.
  intros Hj Hstep Hinv. destruct Hstep as [e y|now c b y|c y|c y|order s n fs l log Hr|o s n order fs l log Hf].
  1-4: edestruct (commits_keyed true) as (? & ? & ?); [|exact (proj1 Hinv)|apply file_inv_commit; eauto];
    eauto 8.
  - split; [apply Hinv|]. right; left. by exists order.
  - destruct Hinv as [Hk Hcase]. split; [done|]. simpl in *.
    destruct Hcase as [?|[(order' & [= <-] & Hr)|[? _]]]; [by left| |done].
    right; right. split; [done|]. destruct (os_fails o) eqn:Ho; [by left|]. right. by apply flush_write_ok.
Qed.

(** C7: the store of issued invites, under any interleaving of its methods by
    any number of goroutines: a code is redeemed at most once, and only before
    it expires — between two successful MarkConsumed of one code it was added
    again or explicitly unmarked — and the redeemer recorded is the one whose
    call succeeded; a rollback by UnmarkConsumed restores the entry; once
    every flush has been made and the last write did not fail, reopening the
    file gives exactly the entries in memory, although flushes of different
    goroutines overlap with changes. *)
Theorem invite_store_correct s fs y now c b e :
  json_law -> keyed s -> OpenStore (path s) true fs = Ok s -> rtc sys_step (sys_init s fs) y ->
  redeemed_once y ∧ redeemed_kept y ∧
  ((MarkConsumed_commit now c b (y_store y)).2 = true <->
   ∃ e, Get c (y_store y) = Some e ∧ Consumed e = false ∧ (now <= ExpiresAt e)%Z) ∧
  (Get c (y_store y) = Some e -> Consumed e = false -> ConsumedBy e = "" -> (now <= ExpiresAt e)%Z ->
   UnmarkConsumed_commit c (MarkConsumed_commit now c b (y_store y)).1 = (y_store y, true)) ∧
  (y_pending y = 0 -> y_holder y = None -> y_lost y = false ->
   OpenStore (path (y_store y)) true (y_fs y) = Ok (y_store y)).
Proof.
  intros Hj Hk Ho Hrun.
  assert (redeemed_kept y ∧ redeemed_once y) as [HA HB].
  { apply (rtc_invariant sys_step (fun y => redeemed_kept y ∧ redeemed_once y) _ y (fun a b Ha H => log_inv_step a b H Ha))
      with (2 := Hrun).
    split; intros ? **; [by destruct l2|]. by destruct l3. }
  assert (file_inv y) as [_ Hfile].
  { apply (rtc_invariant sys_step file_inv _ y (fun a b Ha H => file_inv_step a b Hj H Ha)) with (2 := Hrun).
    split; [done|]. right; right. split; [done|]. by right. }
  split; [done|]. split; [done|]. rewrite MarkConsumed_spec. unfold Get. split_and!.
  - destruct (entries (y_store y) !! c) as [e0|]; [|naive_solver]. case_decide; naive_solver.
  - intros He Hc Hby Hexp. rewrite He, decide_True by done. unfold UnmarkConsumed_commit. simpl.
    rewrite lookup_insert_eq. simpl. rewrite insert_insert_eq. f_equal. unfold set_entries. simpl.
    rewrite insert_id; [by destruct (y_store y)|]. rewrite He. destruct e; simpl in *. by subst.
  - intros Hp Hh Hl. destruct Hfile as [?|[(? & ? & _)|[_ [?|?]]]]; congruence.
Qed.
End file.

(** ** Witness *)

#[export] Instance Entry_countable : Countable Entry.
Proof.
  refine (inj_countable' (fun e => (e_Code e, ExpiresAt e, Consumed e, ConsumedBy e, CreatedAt e))
    (fun '(c, x, u, b, t) => mkEntry c x u b t) _). by intros [].
Defined.

Definition demo_marshal (v : Z) (l : list Entry) : option bytes := Some (encode_bytes (v, l)).

Lemma demo_invites_law : json_law demo_marshal decode_bytes.
Proof. intros v l. eexists. split; [reflexivity|]. by apply decode_encode_bytes. Qed.

Definition demo_entry : Entry := mkEntry "0111ABCD" 100 false "" 1.
Definition demo_init : Sys := sys_init (mkStore "d/invites.json" ∅) ∅.

(** Two goroutines redeem the same code: the second finds it consumed. *)
Definition demo_final : Sys :=
  let y1 := committed (OAdd demo_entry) (Add_commit demo_entry (y_store demo_init), true) demo_init in
  let y2 := committed (OMark 5 "0111ABCD" "bob") (MarkConsumed_commit 5 "0111ABCD" "bob" (y_store y1)) y1 in
  committed (OMark 6 "0111ABCD" "eve") (MarkConsumed_commit 6 "0111ABCD" "eve" (y_store y2)) y2.

Lemma keyed_empty p : keyed (mkStore p ∅).
Proof. unfold keyed. cbn [entries]. intros c e H. by apply lookup_empty_Some in H. Qed.

Lemma OpenStore_missing um p (fs : gmap string bytes) : fs !! p = None -> OpenStore um p true fs = Ok (mkStore p ∅).
Proof. intros H. unfold OpenStore. by rewrite H. Qed.

Lemma invite_store_correct_witness :
  (y_log demo_final).*2 = [false; true; true] /\ redeemed_once demo_final /\
  (MarkConsumed_commit 7 "0111ABCD" "eve" (y_store demo_final)).2 = false.
Proof.
  assert (rtc (sys_step demo_marshal) demo_init demo_final) as Hrun.
  { eapply rtc_l; [apply (step_add demo_marshal)|]. eapply rtc_l; [apply (step_mark demo_marshal)|].
    eapply rtc_once. apply (step_mark demo_marshal). }
  destruct (invite_store_correct demo_marshal decode_bytes (mkStore "d/invites.json" ∅) ∅ demo_final 7 "0111ABCD"
    "eve" demo_entry demo_invites_law (keyed_empty _) (OpenStore_missing _ _ _ (lookup_empty _)) Hrun)
    as (H1 & _ & _ & _ & _).
  split; [vm_compute; reflexivity|]. split; [exact H1|vm_compute; reflexivity].
Defined.
