(* ===== verification/Sealed.v ===== *)
(** * Sealed records ([internal/invite/record.go], [internal/discovery/record.go])

    Both packages put signed and encrypted JSON records on the DHT:
    signature (64 bytes), nonce (24 bytes), XChaCha20-Poly1305 ciphertext. The
    cryptography is an interface with its documented laws; the two codecs are
    the Modules [InviteRecord] and [DiscoveryRecord]. *)
From S2P Require Import Prelude.
#[local] Open Scope list_scope.

(** ** The cryptographic interface *)

Class Crypto := {
  PrivKey : Type;
  PubKey : Type;
  GetPublic : PrivKey -> PubKey;
  Sign : PrivKey -> bytes -> option bytes;
  Verify : PubKey -> bytes -> bytes -> option bool;
  (* XChaCha20-Poly1305 under a key and a nonce, without associated data *)
  AeadSeal : bytes -> bytes -> bytes -> bytes;
  AeadOpen : bytes -> bytes -> bytes -> option bytes }.

Class CryptoLaws (C : Crypto) : Prop := {
  sign_verify sk m s : Sign sk m = Some s -> Verify (GetPublic sk) m s = Some true;
  open_seal k n p : AeadOpen k n (AeadSeal k n p) = Some p;
  seal_length k n p : length (AeadSeal k n p) = length p + 16;
  open_sealed k n c p : AeadOpen k n c = Some p -> c = AeadSeal k n p }.

Definition signatureLen : nat := 64.
Definition nonceLen : nat := 24.
Definition keyLen : nat := 32.
Definition minBlobLen : nat := signatureLen + nonceLen + 16.

Inductive RecordErr :=
| ErrSignatureInvalid
| ErrUnsupportedVersion (got : Z)
| ErrExpired
| ErrStale
| ErrMalformedRecord
| EMarshal | EAead | ENonce | ESigning | ESigLength.

Section blob.
Context `{CryptoLaws}.

(** The common shape of both [Encode] functions, after [json.Marshal]. *)
Definition seal (nonce : option bytes) (plaintext encKey : bytes) (signer : PrivKey) : result RecordErr bytes :=
  if negb (length encKey =? keyLen) then Err EAead
  else
    nonce ← of_option ENonce nonce;
    let ct := AeadSeal encKey nonce plaintext in
    let signed := nonce ++ ct in
    sig ← of_option ESigning (Sign signer signed);
    if negb (length sig =? signatureLen) then Err ESigLength
    else Ok (sig ++ signed).

Definition signed_part (blob : bytes) : bytes := drop signatureLen blob.

(** The decryption of both [Decode] functions. *)
Definition unseal (blob encKey : bytes) : result RecordErr bytes :=
  let signed := signed_part blob in
  let nonce := take nonceLen signed in
  let ct := drop nonceLen signed in
  if negb (length encKey =? keyLen) then Err EAead
  else of_option ErrSignatureInvalid (AeadOpen encKey nonce ct).

Definition signature_ok (blob : bytes) (signerPub : PubKey) : bool :=
  match Verify signerPub (signed_part blob) (take signatureLen blob) with Some true => true | _ => false end.

Lemma seal_spec nonce pt k sk :
  length nonce = nonceLen -> length k = keyLen ->
  match seal (Some nonce) pt k sk with
  | Ok blob =>
      length blob = minBlobLen + length pt ∧ signature_ok blob (GetPublic sk) = true ∧ unseal blob k = Ok pt ∧
      signed_part blob = nonce ++ AeadSeal k nonce pt
  | Err ESigning => Sign sk (nonce ++ AeadSeal k nonce pt) = None
  | Err ESigLength => ∃ sig, Sign sk (nonce ++ AeadSeal k nonce pt) = Some sig ∧ length sig ≠ signatureLen
  | Err _ => False
  end.
Proof.
  intros Hn Hk. unfold seal. rewrite Hk. cbn [Nat.eqb negb keyLen of_option mbind result_bind].
  destruct (Sign sk (nonce ++ AeadSeal k nonce pt)) as [sig|] eqn:Hs; simpl; [|done].
  destruct (Nat.eqb_spec (length sig) signatureLen) as [Hl|Hl]; simpl; [|eauto].
  assert (signed_part (sig ++ nonce ++ AeadSeal k nonce pt) = nonce ++ AeadSeal k nonce pt) as Hsp.
  { unfold signed_part. rewrite <- Hl. apply drop_app_length. }
  split_and!; [..|done].
  - rewrite !length_app, seal_length, Hl, Hn. unfold minBlobLen. rewrite ?Hl, ?Hn. unfold signatureLen, nonceLen in *. lia.
  - unfold signature_ok. rewrite Hsp. rewrite <- Hl, take_app_length.
    by rewrite (sign_verify _ _ _ Hs).
  - unfold unseal. rewrite Hsp, Hk. simpl. rewrite <- Hn, take_app_length, drop_app_length. by rewrite open_seal.
Qed.

(** What a blob that passes both tests looks like. *)
Lemma unseal_sound blob k pk pt :
  minBlobLen <= length blob -> signature_ok blob pk = true -> unseal blob k = Ok pt ->
  ∃ sig nonce, blob = sig ++ nonce ++ AeadSeal k nonce pt ∧ length sig = signatureLen ∧
    length nonce = nonceLen ∧ Verify pk (nonce ++ AeadSeal k nonce pt) sig = Some true.
Proof.
  intros Hl Hs Hu. unfold unseal in Hu. case_match; [done|].
  apply of_option_Ok, open_sealed in Hu.
  assert (signed_part blob = take nonceLen (signed_part blob) ++ AeadSeal k (take nonceLen (signed_part blob)) pt)
    as Hsp by (rewrite <- Hu; symmetry; apply take_drop).
  exists (take signatureLen blob), (take nonceLen (signed_part blob)).
  unfold minBlobLen, signatureLen, nonceLen in *. split_and!.
  - rewrite <- Hsp. symmetry. apply take_drop.
  - rewrite length_take. lia.
  - unfold signed_part, signatureLen. rewrite length_take, length_drop. lia.
  - rewrite <- Hsp. unfold signature_ok in Hs. unfold signatureLen in *. by repeat case_match.
Qed.
End blob.

(** ** Invite records *)
Module InviteRecord.

Definition RecordVersion : Z := 1.

Record Record_ := mkRecord {
  Version : Z;
  PeerID : string;
  PublicKey : string;
  Addresses : list string;
  DisplayName : string;
  ExpiresAt : Z }.

Section codec.
Context `{CryptoLaws} (marshal : Record_ -> option bytes) (unmarshal : bytes -> option Record_).

Definition Encode (nonce : option bytes) (r : Record_) (encKey : bytes) (signer : PrivKey)
  : result RecordErr bytes :=
  plaintext ← of_option EMarshal (marshal r);
  seal nonce plaintext encKey signer.

(** [now] is [time.Now().Unix()]. *)
Definition Decode (now : Z) (blob encKey : bytes) (signerPub : PubKey) : result RecordErr Record_ :=
  if length blob <? minBlobLen then Err ErrMalformedRecord
  else if negb (signature_ok blob signerPub) then Err ErrSignatureInvalid
  else
    plaintext ← unseal blob encKey;
    rec ← of_option ErrMalformedRecord (unmarshal plaintext);
    if negb (Version rec =? RecordVersion)%Z then Err (ErrUnsupportedVersion (Version rec))
    else if (ExpiresAt rec <? now)%Z then Err ErrExpired
    else Ok rec.

Definition DecodeUnverified (blob encKey : bytes) : result RecordErr Record_ :=
  if length blob <? minBlobLen then Err ErrMalformedRecord
  else
    plaintext ← unseal blob encKey;
    of_option ErrMalformedRecord (unmarshal plaintext).

(** What the JSON library promises of a record. *)
Definition json_law : Prop := ∀ r, ∃ d, marshal r = Some d ∧ unmarshal d = Some r.

Lemma Decode_sound now blob k pk r :
  Decode now blob k pk = Ok r ->
  DecodeUnverified blob k = Ok r ∧ Version r = RecordVersion ∧ (now <= ExpiresAt r)%Z ∧
  ∃ sig nonce pt, blob = sig ++ nonce ++ AeadSeal k nonce pt ∧ length sig = signatureLen ∧
    length nonce = nonceLen ∧ Verify pk (nonce ++ AeadSeal k nonce pt) sig = Some true ∧ unmarshal pt = Some r.
Proof.
  unfold Decode, DecodeUnverified. destruct (Nat.ltb_spec (length blob) minBlobLen) as [|Hl]; [done|].
  destruct (signature_ok blob pk) eqn:Hs; [|done]. cbn [negb].
  intros (pt & Hu & Hd)%result_bind_inv. rewrite Hu. cbn [mbind result_bind].
  apply result_bind_inv in Hd as (rec & Hun & Hd). apply of_option_Ok in Hun. rewrite Hun.
  destruct (Z.eqb_spec (Version rec) RecordVersion); [|done].
  destruct (Z.ltb_spec (ExpiresAt rec) now); [done|]. simpl in Hd. simplify_eq.
  destruct (unseal_sound blob k pk pt) as (sig & nonce & ? & ? & ? & ?); [done..|].
  split_and!; [done..|]. exists sig, nonce, pt. done.
Qed.

Lemma invite_Decode_Encode now nonce r k sk :
  json_law -> length nonce = nonceLen -> length k = keyLen ->
  match Encode (Some nonce) r k sk with
  | Ok blob =>
      DecodeUnverified blob k = Ok r ∧
      Decode now blob k (GetPublic sk) =
        (if decide (Version r ≠ RecordVersion) then Err (ErrUnsupportedVersion (Version r))
         else if decide (ExpiresAt r < now)%Z then Err ErrExpired else Ok r)
  | Err e => ∃ d, marshal r = Some d ∧ (e = ESigning ∨ e = ESigLength)
  end.
Proof.
  intros Hj Hn Hk. unfold Encode. destruct (Hj r) as (d & Hd & Hu). rewrite Hd.
  cbn [of_option mbind result_bind].
  pose proof (seal_spec nonce d k sk Hn Hk) as Hs. destruct (seal (Some nonce) d k sk) as [blob|e].
  - destruct Hs as (Hl & Hsig & Hopen & _).
    assert (length blob <? minBlobLen = false) as Hlt by (apply Nat.ltb_ge; lia).
    unfold DecodeUnverified, Decode. rewrite Hlt, Hsig, Hopen. cbn [negb mbind result_bind]. rewrite Hu.
    cbn [of_option mbind result_bind]. split; [done|].
    destruct (Z.eqb_spec (Version r) RecordVersion); [rewrite decide_False by auto|by rewrite decide_True].
    destruct (Z.ltb_spec (ExpiresAt r) now); [by rewrite decide_True|by rewrite decide_False by lia].
  - exists d. split; [done|]. destruct e; try done; auto.
Qed.
End codec.
End InviteRecord.

(** ** Discovery records *)
Module DiscoveryRecord.

Definition RecordVersion : Z := 1.

Record Record_ := mkRecord {
  Version : Z;
  Addresses : list string;
  Timestamp : Z }.

(** [time.Since(time.Unix(ts, 0))] in nanoseconds, [now] being nanoseconds
    since the Unix epoch: seconds are kept in an int64 counted from year 1,
    and the difference saturates. *)
Definition unixToInternal : Z := 62135596800.
Definition Since (now ts : Z) : Z :=
  let d := (now + unixToInternal * 10 ^ 9 - swrap 64 (ts + unixToInternal) * 10 ^ 9)%Z in
  Z.max (- 2 ^ 63) (Z.min (2 ^ 63 - 1) d).

Section codec.
Context `{CryptoLaws} (marshal : Record_ -> option bytes) (unmarshal : bytes -> option Record_).

Definition Encode (nonce : option bytes) (r : Record_) (encKey : bytes) (signer : PrivKey)
  : result RecordErr bytes :=
  plaintext ← of_option EMarshal (marshal r);
  seal nonce plaintext encKey signer.

Definition Decode (now : Z) (blob encKey : bytes) (signerPub : PubKey) (maxAge : Z) : result RecordErr Record_ :=
  if length blob <? minBlobLen then Err ErrMalformedRecord
  else if negb (signature_ok blob signerPub) then Err ErrSignatureInvalid
  else
    plaintext ← unseal blob encKey;
    rec ← of_option ErrMalformedRecord (unmarshal plaintext);
    if negb (Version rec =? RecordVersion)%Z then Err (ErrUnsupportedVersion (Version rec))
    else if (maxAge <? Since now (Timestamp rec))%Z then Err ErrStale
    else Ok rec.

Definition json_law : Prop := ∀ r, ∃ d, marshal r = Some d ∧ unmarshal d = Some r.

Lemma discovery_Decode_Encode now maxAge nonce r k sk blob :
  json_law -> length nonce = nonceLen -> length k = keyLen -> Encode (Some nonce) r k sk = Ok blob ->
  Decode now blob k (GetPublic sk) maxAge =
    (if decide (Version r ≠ RecordVersion) then Err (ErrUnsupportedVersion (Version r))
     else if decide (maxAge < Since now (Timestamp r))%Z then Err ErrStale else Ok r).
Proof.
  intros Hj Hn Hk. unfold Encode. destruct (Hj r) as (d & Hd & Hu). rewrite Hd.
  cbn [of_option mbind result_bind].
  pose proof (seal_spec nonce d k sk Hn Hk) as Hs. intros Heq. rewrite Heq in Hs.
  destruct Hs as (Hl & Hsig & Hopen & _).
  assert (length blob <? minBlobLen = false) as Hlt by (apply Nat.ltb_ge; lia).
  unfold Decode. rewrite Hlt, Hsig, Hopen. cbn [negb mbind result_bind]. rewrite Hu.
  cbn [of_option mbind result_bind].
  destruct (Z.eqb_spec (Version r) RecordVersion); [rewrite decide_False by auto|by rewrite decide_True].
  destruct (Z.ltb_spec maxAge (Since now (Timestamp r))); [by rewrite decide_True|by rewrite decide_False by lia].
Qed.

(** A record another key signed is refused. *)
Lemma Decode_other_signer now maxAge nonce r k sk pk blob :
  (∀ m s, Sign sk m = Some s -> Verify pk m s ≠ Some true) -> length nonce = nonceLen -> length k = keyLen ->
  Encode (Some nonce) r k sk = Ok blob ->
  Decode now blob k pk maxAge = Err ErrSignatureInvalid.
Proof.
  intros Hforge Hn Hk (d & _ & Hs)%result_bind_inv. unfold seal in Hs.
  rewrite Hk in Hs. cbn [Nat.eqb keyLen negb of_option mbind result_bind] in Hs.
  apply result_bind_inv in Hs as (sig & Hsig%of_option_Ok & Hs).
  destruct (Nat.eqb_spec (length sig) signatureLen) as [Hl|]; [|done]. simpl in Hs. simplify_eq.
  unfold Decode. destruct (Nat.ltb_spec (length (sig ++ nonce ++ AeadSeal k nonce d)) minBlobLen) as [Hlt|_].
  { rewrite !length_app, seal_length in Hlt. unfold minBlobLen in Hlt. lia. }
  assert (signature_ok (sig ++ nonce ++ AeadSeal k nonce d) pk = false) as ->; [|done].
  unfold signature_ok, signed_part. rewrite <- Hl, drop_app_length, take_app_length.
  pose proof (Hforge _ _ Hsig). repeat case_match; congruence.
Qed.
End codec.
End DiscoveryRecord.

(** ** The property of invite records *)


(** A toy instance of the interface: keys sign by prefixing themselves, the
    tag is the key's first bytes. *)
Definition toy_pad (n : nat) (b : bytes) : bytes := take n (b ++ repeat 0%Z n).

#[export] Instance toy_crypto : Crypto := {|
  PrivKey := bytes; PubKey := bytes; GetPublic := id;
  Sign sk m := Some (toy_pad 64 (sk ++ m));
  Verify pk m s := Some (bool_decide (s = toy_pad 64 (pk ++ m)));
  AeadSeal k n p := p ++ toy_pad 16 k;
  AeadOpen k n c :=
    let p := take (length c - 16) c in if decide (c = p ++ toy_pad 16 k) then Some p else None |}.

Lemma toy_pad_length n b : length (toy_pad n b) = n.
Proof. unfold toy_pad. rewrite length_take, length_app, repeat_length. lia. Qed.

#[export] Instance toy_crypto_laws : CryptoLaws toy_crypto.
Proof.
  split; simpl.
  - intros sk m s [= <-]. by rewrite bool_decide_true.
  - intros k n p. rewrite length_app, toy_pad_length. replace (length p + 16 - 16) with (length p) by lia.
    rewrite take_app_length. by rewrite decide_True.
  - intros k n p. by rewrite length_app, toy_pad_length.
  - intros k n c p Hc. case_decide; by simplify_eq.
Qed.

#[export] Instance InviteRecord_eq_dec : EqDecision InviteRecord.Record_.
Proof. solve_decision. Defined.
#[export] Instance InviteRecord_countable : Countable InviteRecord.Record_.
Proof.
  refine (inj_countable' (fun r => (InviteRecord.Version r, InviteRecord.PeerID r, InviteRecord.PublicKey r,
    InviteRecord.Addresses r, InviteRecord.DisplayName r, InviteRecord.ExpiresAt r))
    (fun '(v, p, k, a, d, e) => InviteRecord.mkRecord v p k a d e) _). by intros [].
Defined.

Definition invite_marshal (r : InviteRecord.Record_) : option bytes := Some (encode_bytes r).

Lemma invite_json_law : InviteRecord.json_law invite_marshal decode_bytes.
Proof.
  intros r. eexists. split; [reflexivity|]. rewrite <- (app_nil_r (encode_bytes r)). by apply decode_encode_bytes.
Qed.

Definition demo_record : InviteRecord.Record_ :=
  InviteRecord.mkRecord 1 "12D3" "a2V5" ["/ip4/10.0.0.1/tcp/1"] "Ann" 100.

