(* ===== verification/Identity.v ===== *)
(** * Identity keys ([internal/identity], [internal/discovery/keys.go])

    The libp2p key operations, the conversion of ed25519 keys to X25519, the
    shared secret of two friends and the keys derived from it, and the files a
    key pair and a public identity are kept in. *)
From S2P Require Import Prelude GoStrings Base64 Iox Sealed.
#[local] Open Scope list_scope.

(** ** The key library

    [github.com/libp2p/go-libp2p/core/{crypto,peer}], the hash functions,
    [edwards25519] ([PointMontgomery] is [SetBytes] followed by
    [BytesMontgomery]) and [curve25519]. Marshalled keys and peer ids are
    byte strings. *)
Class Keys (C : Crypto) := {
  PubIsEd25519 : PubKey -> bool;
  PubRaw : PubKey -> option bytes;
  PrivIsEd25519 : PrivKey -> bool;
  PrivRaw : PrivKey -> option bytes;
  MarshalPublicKey : PubKey -> option string;
  UnmarshalPublicKey : string -> option PubKey;
  MarshalPrivateKey : PrivKey -> option bytes;
  UnmarshalPrivateKey : bytes -> option PrivKey;
  IDFromPublicKey : PubKey -> option string;
  ID_String : string -> string;
  sha256 : bytes -> bytes;
  sha512 : bytes -> bytes;
  hkdf : bytes -> bytes -> bytes;
  PointMontgomery : bytes -> option bytes;
  X25519 : bytes -> bytes -> option bytes;
  X25519_base : bytes -> bytes }.

Inductive KeyErr :=
| ELocalKey | ERemoteKey | ESelf | EConvertPriv | EConvertPub | EX25519 | ERawLocal | ERawRemote
| ENotEd25519 | ERawKey | EKeySize | EPoint | EMontgomerySize
| EEmptyPublicKey | EDecodeBase64 | EUnmarshalPub.

Section keys.
Context `{Keys}.

(** ** [x25519.go] *)

Definition ToX25519Public (ed25519Pub : bytes) : result KeyErr bytes :=
  if decide (length ed25519Pub ≠ 32) then Err EKeySize
  else
    mont ← of_option EPoint (PointMontgomery ed25519Pub);
    if decide (length mont ≠ 32) then Err EMontgomerySize else Ok mont.

(** The three masks written over the first and the last byte. *)
Definition clamp (out : bytes) : bytes :=
  let out := alter (fun b => Z.land b 248) 0 out in
  let out := alter (fun b => Z.land b 127) 31 out in
  alter (fun b => Z.lor b 64) 31 out.

Definition ToX25519Private (priv : bytes) : result KeyErr bytes :=
  if decide (length priv ≠ 64) then Err EKeySize
  else
    let seed := take 32 priv in
    let h := sha512 seed in
    Ok (clamp (take 32 h)).

(** ** [keys.go] *)

Definition edPrivFromLibp2p (k : PrivKey) : result KeyErr bytes :=
  if negb (PrivIsEd25519 k) then Err ENotEd25519
  else
    raw ← of_option ERawKey (PrivRaw k);
    if decide (length raw ≠ 64) then Err EKeySize else Ok raw.

Definition edPubFromLibp2p (k : PubKey) : result KeyErr bytes :=
  if negb (PubIsEd25519 k) then Err ENotEd25519
  else
    raw ← of_option ERawKey (PubRaw k);
    if decide (length raw ≠ 32) then Err EKeySize else Ok raw.

(** Go's [copy] into a zeroed array of 32 bytes. *)
Definition copy32 (b : bytes) : bytes := take 32 (b ++ repeat 0%Z 32).

Definition DeriveSharedSecret (myPriv : PrivKey) (theirPub : PubKey) : result KeyErr bytes :=
  myEdPriv ← map_err (fun _ => ELocalKey) (edPrivFromLibp2p myPriv);
  theirEdPub ← map_err (fun _ => ERemoteKey) (edPubFromLibp2p theirPub);
  if bool_decide (PubRaw (GetPublic myPriv) = Some theirEdPub) then Err ESelf
  else
    myXPriv ← map_err (fun _ => EConvertPriv) (ToX25519Private myEdPriv);
    theirXPub ← map_err (fun _ => EConvertPub) (ToX25519Public theirEdPub);
    shared ← of_option EX25519 (X25519 myXPriv theirXPub);
    Ok (copy32 shared).

(** [bytes.Compare(a, b) < 0]. *)
Fixpoint bytes_lt (a b : bytes) : bool :=
  match a, b with
  | [], [] => false
  | [], _ :: _ => true
  | _ :: _, [] => false
  | x :: a, y :: b => (x <? y)%Z || ((x =? y)%Z && bytes_lt a b)
  end.

Definition canonicalOrder (a b : bytes) : bytes * bytes := if bytes_lt a b then (a, b) else (b, a).

(** [hex.EncodeToString]. *)
Definition hex_char (n : Z) : ascii := if (n <? 10)%Z then of_chr (48 + n) else of_chr (87 + n).
Fixpoint hex_encode (b : bytes) : string :=
  match b with
  | [] => EmptyString
  | x :: b => String (hex_char (Z.shiftr x 4)) (String (hex_char (Z.land x 15)) (hex_encode b))
  end.

Definition str_bytes (s : string) : bytes := chr <$> String.list_ascii_of_string s.

Definition dhtKeyPrefix : string := "/opencom-discovery/v1/".
Definition dhtKeyDomain : string := "opencom-discovery-v1".
Definition recordKeyInfo : string := "opencom-record-v1".

Definition DeriveDHTKey (s : bytes) (myPub theirPub : PubKey) : result KeyErr string :=
  myRaw ← of_option ERawLocal (PubRaw myPub);
  theirRaw ← of_option ERawRemote (PubRaw theirPub);
  let '(a, b) := canonicalOrder myRaw theirRaw in
  Ok (dhtKeyPrefix +:+ hex_encode (sha256 (str_bytes dhtKeyDomain ++ s ++ a ++ b))).

(** Reading 32 bytes from HKDF; the reader's failure would panic. *)
Definition DeriveEncryptionKey (s : bytes) : bytes := take 32 (hkdf s (str_bytes recordKeyInfo)).

(** [publisher.go]'s [unmarshalFriendPubKey]. *)
Definition unmarshalFriendPubKey (s : string) : result KeyErr PubKey :=
  if decide (s = EmptyString) then Err EEmptyPublicKey
  else
    raw ← of_option EDecodeBase64 (StdDecode s);
    of_option EUnmarshalPub (UnmarshalPublicKey raw).
End keys.

(** ** The laws of the key library *)

Class KeyLaws (C : Crypto) (K : Keys C) : Prop := {
  (* ed25519 keys have their sizes, and a peer's raw public key identifies it *)
  raw_sizes sk raw : PrivRaw sk = Some raw -> PrivIsEd25519 sk = true -> length raw = 64;
  pub_sizes pk raw : PubRaw pk = Some raw -> PubIsEd25519 pk = true -> length raw = 32;
  ed_public sk : PrivIsEd25519 sk = true ->
    PubIsEd25519 (GetPublic sk) = true ∧ is_Some (PrivRaw sk) ∧ is_Some (PubRaw (GetPublic sk));
  sha512_size b : length (sha512 b) = 64;
  hkdf_size s i : 32 <= length (hkdf s i);
  (* the X25519 public key of a scalar, RFC 7748; the Montgomery form of an
     ed25519 public key is that of the clamped hash of its seed, RFC 8032 *)
  base_size k : length (X25519_base k) = 32;
  montgomery_public sk raw pub : PrivRaw sk = Some raw -> PubRaw (GetPublic sk) = Some pub ->
    PrivIsEd25519 sk = true -> PointMontgomery pub = Some (X25519_base (clamp (take 32 (sha512 (take 32 raw)))));
  X25519_agree k j : X25519 k (X25519_base j) = X25519 j (X25519_base k);
  unmarshal_marshal pk s : MarshalPublicKey pk = Some s -> s ≠ EmptyString ∧ UnmarshalPublicKey s = Some pk }.

Section laws.
Context `{KeyLaws}.

Lemma bytes_lt_antisym a b : bytes_lt a b = false -> bytes_lt b a = false -> a = b.
Proof.
  clear. revert b. induction a as [|x a IH]; intros [|y b]; simpl; try done.
  rewrite !orb_false_iff, !andb_false_iff, !Z.ltb_ge, !Z.eqb_neq.
  intros [? [?|?]] [? [?|?]]; try lia. assert (x = y) as -> by lia. f_equal. auto.
Qed.

Lemma bytes_lt_asym a b : bytes_lt a b = true -> bytes_lt b a = false.
Proof.
  clear. revert b. induction a as [|x a IH]; intros [|y b]; simpl; try done.
  rewrite orb_true_iff, andb_true_iff, orb_false_iff, andb_false_iff, Z.ltb_lt, Z.ltb_ge, Z.eqb_eq, Z.eqb_neq.
  intros [Hlt|[-> Hlt]]; [lia|]. split; [lia|]. right. auto.
Qed.

Lemma canonicalOrder_comm a b : canonicalOrder a b = canonicalOrder b a.
Proof.
  clear. unfold canonicalOrder. destruct (bytes_lt a b) eqn:Hab, (bytes_lt b a) eqn:Hba; try done.
  - apply bytes_lt_asym in Hab. congruence.
  - by rewrite (bytes_lt_antisym a b).
Qed.

Lemma DeriveDHTKey_comm s p q : is_Some (PubRaw p) -> is_Some (PubRaw q) -> DeriveDHTKey s p q = DeriveDHTKey s q p.
Proof.
  intros [a Ha] [b Hb]. unfold DeriveDHTKey. rewrite Ha, Hb. cbn [of_option mbind result_bind].
  by rewrite canonicalOrder_comm.
Qed.

Lemma clamp_length b : length (clamp b) = length b.
Proof. clear. unfold clamp. by rewrite !length_alter. Qed.

(** Both directions of the exchange, for keys of this key type. *)
Lemma DeriveSharedSecret_eq sk tk raw traw pub tpub :
  PrivIsEd25519 sk = true -> PrivIsEd25519 tk = true -> PrivRaw sk = Some raw -> PrivRaw tk = Some traw ->
  PubRaw (GetPublic sk) = Some pub -> PubRaw (GetPublic tk) = Some tpub -> pub ≠ tpub ->
  let x r := clamp (take 32 (sha512 (take 32 r))) in
  DeriveSharedSecret sk (GetPublic tk) =
    match X25519 (x raw) (X25519_base (x traw)) with Some s => Ok (copy32 s) | None => Err EX25519 end.
Proof.
  intros Hs Ht Hraw Htraw Hpub Htpub Hne x. subst x. cbv beta.
  destruct (ed_public tk Ht) as (Htp & _ & _).
  unfold DeriveSharedSecret, edPrivFromLibp2p, edPubFromLibp2p. rewrite Hs, Htp. cbn [negb].
  rewrite Hraw, Htpub. cbn [of_option mbind result_bind].
  rewrite (raw_sizes sk raw), (pub_sizes (GetPublic tk) tpub) by done.
  rewrite !decide_False by lia. cbn [map_err mbind result_bind]. rewrite Hpub, bool_decide_false by congruence.
  unfold ToX25519Private, ToX25519Public. rewrite (raw_sizes sk raw), (pub_sizes (GetPublic tk) tpub) by done.
  rewrite !decide_False by lia. cbn [map_err mbind result_bind].
  rewrite (montgomery_public tk traw tpub) by done. cbn [of_option mbind result_bind].
  rewrite decide_False by (rewrite base_size; lia). cbn [map_err mbind result_bind].
  by destruct (X25519 _ _).
Qed.

Lemma DeriveSharedSecret_comm sk tk :
  PrivIsEd25519 sk = true -> PrivIsEd25519 tk = true -> PubRaw (GetPublic sk) ≠ PubRaw (GetPublic tk) ->
  DeriveSharedSecret sk (GetPublic tk) = DeriveSharedSecret tk (GetPublic sk).
Proof.
  intros Hs Ht Hne. destruct (ed_public sk Hs) as (_ & [raw Hraw] & [pub Hpub]).
  destruct (ed_public tk Ht) as (_ & [traw Htraw] & [tpub Htpub]).
  rewrite (DeriveSharedSecret_eq sk tk raw traw pub tpub) by congruence.
  rewrite (DeriveSharedSecret_eq tk sk traw raw tpub pub) by congruence.
  by rewrite X25519_agree.
Qed.

Lemma DeriveSharedSecret_self sk :
  PrivIsEd25519 sk = true -> DeriveSharedSecret sk (GetPublic sk) = Err ESelf.
Proof.
  intros Hs. destruct (ed_public sk Hs) as (Hp & [raw Hraw] & [pub Hpub]).
  unfold DeriveSharedSecret, edPrivFromLibp2p, edPubFromLibp2p. rewrite Hs, Hp. cbn [negb].
  rewrite Hraw, Hpub. cbn [of_option mbind result_bind].
  rewrite (raw_sizes sk raw), (pub_sizes (GetPublic sk) pub) by done.
  rewrite !decide_False by lia. cbn [map_err mbind result_bind]. by rewrite bool_decide_true.
Qed.

Lemma DeriveEncryptionKey_length s : length (DeriveEncryptionKey s) = keyLen.
Proof. unfold DeriveEncryptionKey. rewrite length_take. pose proof (hkdf_size s (str_bytes recordKeyInfo)).
  unfold keyLen. lia. Qed.

Lemma unmarshalFriendPubKey_encode pk s :
  MarshalPublicKey pk = Some s -> unmarshalFriendPubKey (StdEncode s) = Ok pk.
Proof.
  intros Hs. destruct (unmarshal_marshal pk s Hs) as [Hne Hu]. unfold unmarshalFriendPubKey.
  rewrite decide_False; [|intros He; apply Hne; by apply (Encode_inj std_alphabet (Some "="%char))].
  unfold StdDecode, StdEncode. rewrite Decode_Encode by apply _. cbn [of_option mbind result_bind].
  by rewrite Hu.
Qed.
End laws.

(** ** [keypair.go] and [export.go] *)

Record Keypair `{Crypto} := mkKeypair { Priv : PrivKey; Pub : PubKey; kp_PeerID : string }.
Arguments mkKeypair {H} _ _ _.

Record PublicIdentity := mkPublicIdentity {
  pi_Version : Z;
  pi_Name : string;
  pi_PeerID : string;
  pi_PublicKey : string;
  pi_RendezvousHint : string }.

Inductive IdentityErr :=
| EGenerate | EDerivePeerID | EMarshalPriv | ESave (c : FsCall)
| EStat | EMode (mode : Z) | EReadKey | EUnmarshalPriv | EKeyType
| EMarshalPub | EMarshalYaml | EReadExport | EParseExport | EExportVersion (v : Z)
| EExportBase64 | EExportKey | EPeerIDMismatch (derived : string).

(** A file as [os.Stat] and [os.ReadFile] see it. *)
Record File := mkFile { f_mode : Z; f_data : option bytes }.

Section files.
Context `{Keys} (yaml_marshal : PublicIdentity -> option bytes) (yaml_unmarshal : bytes -> option PublicIdentity).

(** [Generate]; the key pair is what the random source gives. *)
Definition Generate (fresh : option PrivKey) : result IdentityErr Keypair :=
  priv ← of_option EGenerate fresh;
  id ← of_option EDerivePeerID (IDFromPublicKey (GetPublic priv));
  Ok (mkKeypair priv (GetPublic priv) id).

Definition Save (o : Os) (path : string) (kp : Keypair) (fs : gmap string bytes)
  : gmap string bytes * option IdentityErr :=
  match MarshalPrivateKey (Priv kp) with
  | None => (fs, Some EMarshalPriv)
  | Some data =>
      let r := AtomicWriteFile o path data fs in (awf_result r fs, ESave <$> r.2)
  end.

Definition Load (windows : bool) (stat : option File) : result IdentityErr Keypair :=
  info ← of_option EStat stat;
  if negb windows && negb (Z.land (f_mode info) 63 =? 0)%Z then Err (EMode (f_mode info))
  else
    data ← of_option EReadKey (f_data info);
    priv ← of_option EUnmarshalPriv (UnmarshalPrivateKey data);
    if negb (PrivIsEd25519 priv) then Err EKeyType
    else
      id ← of_option EDerivePeerID (IDFromPublicKey (GetPublic priv));
      Ok (mkKeypair priv (GetPublic priv) id).

Definition Export (kp : Keypair) (name : string) : result IdentityErr PublicIdentity :=
  pubBytes ← of_option EMarshalPub (MarshalPublicKey (Pub kp));
  Ok (mkPublicIdentity 1 name (ID_String (kp_PeerID kp)) (StdEncode pubBytes) "").

Definition WriteExport (o : Os) (path : string) (ident : PublicIdentity) (fs : gmap string bytes)
  : gmap string bytes * option IdentityErr :=
  match yaml_marshal ident with
  | None => (fs, Some EMarshalYaml)
  | Some data =>
      let r := AtomicWriteFile o path data fs in (awf_result r fs, ESave <$> r.2)
  end.

(** [PublicIdentity.PubKey]. *)
Definition PublicIdentity_PubKey (p : PublicIdentity) : result IdentityErr PubKey :=
  raw ← of_option EExportBase64 (StdDecode (pi_PublicKey p));
  of_option EExportKey (UnmarshalPublicKey raw).

Definition ReadExport (path : string) (fs : gmap string bytes) : result IdentityErr PublicIdentity :=
  data ← of_option EReadExport (fs !! path);
  ident ← of_option EParseExport (yaml_unmarshal data);
  if negb (pi_Version ident =? 1)%Z then Err (EExportVersion (pi_Version ident))
  else
    pub ← PublicIdentity_PubKey ident;
    derivedID ← of_option EDerivePeerID (IDFromPublicKey pub);
    if decide (ID_String derivedID ≠ pi_PeerID ident) then Err (EPeerIDMismatch (ID_String derivedID))
    else Ok ident.

(** What [ReadExport] accepts names the peer id of its own key. *)
Lemma ReadExport_inv path fs ident : ReadExport path fs = Ok ident ->
  ∃ pub id, PublicIdentity_PubKey ident = Ok pub ∧ IDFromPublicKey pub = Some id ∧ pi_PeerID ident = ID_String id.
Proof.
  unfold ReadExport. destruct (fs !! path) as [d|]; [|done]. cbn [of_option mbind result_bind].
  destruct (yaml_unmarshal d) as [i|]; [|done]. cbn [of_option mbind result_bind].
  destruct (negb _); [done|]. intros (pub & Hpk & Hr)%result_bind_inv.
  apply result_bind_inv in Hr as (id & Hi%of_option_Ok & Hr). case_decide as Hd; [done|]. simplify_eq.
  exists pub, id. done.
Qed.

(** What Save's and WriteExport's encoders promise. *)
Definition yaml_law : Prop := ∀ p, ∃ d, yaml_marshal p = Some d ∧ yaml_unmarshal d = Some p.
Definition priv_law : Prop := ∀ sk, ∃ d, MarshalPrivateKey sk = Some d ∧ UnmarshalPrivateKey d = Some sk.

(** Identities survive their files: a key pair that Save reports written is
    what Load reads back from the private file, and Load refuses any file
    readable or writable by group or others (except on Windows); an exported
    identity that WriteExport reports written is read back and accepted, and
    whatever ReadExport accepts names the peer id derived from its own key. *)
Theorem identity_files `{!KeyLaws _ _} o path fresh name kp fs fs' fs'' ident ident' (mode : Z) windows file :
  yaml_law -> priv_law -> os_fresh o path fs ->
  Generate fresh = Ok kp -> PrivIsEd25519 (Priv kp) = true -> Z.land mode 63 = 0%Z ->
  (Save o path kp fs = (fs', None) -> Load windows (Some (mkFile mode (fs' !! path))) = Ok kp) ∧
  (Z.land (f_mode file) 63 ≠ 0%Z -> Load false (Some file) = Err (EMode (f_mode file))) ∧
  (Export kp name = Ok ident -> WriteExport o path ident fs = (fs'', None) -> ReadExport path fs'' = Ok ident) ∧
  (ReadExport path fs = Ok ident' ->
   ∃ pub id, PublicIdentity_PubKey ident' = Ok pub ∧ IDFromPublicKey pub = Some id ∧ pi_PeerID ident' = ID_String id).
Proof.
  intros Hy Hp Hf Hg Hed Hmode.
  assert (IDFromPublicKey (GetPublic (Priv kp)) = Some (kp_PeerID kp) ∧ Pub kp = GetPublic (Priv kp)) as [Hid Hpub].
  { unfold Generate in Hg. destruct fresh as [sk|]; [|done]. simpl in Hg.
    destruct (IDFromPublicKey (GetPublic sk)) eqn:Hi; [|done]. simpl in Hg. by simplify_eq. }
  assert (∀ data fs', (awf_result (AtomicWriteFile o path data fs) fs, ESave <$> (AtomicWriteFile o path data fs).2)
    = (fs', None) -> fs' !! path = Some data) as Hwrite.
  { intros data fs0. destruct (awf_spec o path data fs Hf) as [_ ->].
    destruct (AtomicWriteFile o path data fs).2; simpl; [done|]. intros [= <-]. apply lookup_insert_eq. }
  split_and!.
  - unfold Save. destruct (Hp (Priv kp)) as (d & -> & Hd). intros Hfs%Hwrite. rewrite Hfs.
    unfold Load. cbn [of_option mbind result_bind f_mode f_data]. rewrite Hmode, andb_false_r, Hd.
    cbn [of_option mbind result_bind]. rewrite Hed. cbn [negb]. rewrite Hid. simpl. f_equal. rewrite <- Hpub.
    by destruct kp.
  - intros Hm. unfold Load. cbn [of_option mbind result_bind]. by rewrite (proj2 (Z.eqb_neq _ _) Hm).
  - unfold Export. destruct (MarshalPublicKey (Pub kp)) as [pb|] eqn:Hm; [|done]. simpl. intros [= <-].
    unfold WriteExport. destruct (Hy (mkPublicIdentity 1 name (ID_String (kp_PeerID kp)) (StdEncode pb) "")) as (d & -> & Hd).
    intros Hfs%Hwrite. unfold ReadExport. rewrite Hfs. cbn [of_option mbind result_bind]. rewrite Hd.
    cbn [of_option mbind result_bind pi_Version Z.eqb Pos.eqb negb]. unfold PublicIdentity_PubKey. cbn [pi_PublicKey].
    unfold StdDecode, StdEncode. rewrite Decode_Encode by apply _. cbn [of_option mbind result_bind].
    destruct (unmarshal_marshal (Pub kp) pb Hm) as [_ ->]. cbn [of_option mbind result_bind].
    rewrite Hpub, Hid. cbn [of_option mbind result_bind]. by rewrite decide_False by auto.
  - by apply ReadExport_inv.
Qed.
End files.

(** The key agreement of two friends: each side derives the same shared
    secret from its own private key and the other's public key, hence the same
    DHT key and the same 32-byte record key; a peer cannot be paired with
    itself; and the public key stored for a friend decodes to that friend's. *)
Theorem friend_keys_agree `{KeyLaws} sk tk s pb :
  PrivIsEd25519 sk = true -> PrivIsEd25519 tk = true -> PubRaw (GetPublic sk) ≠ PubRaw (GetPublic tk) ->
  MarshalPublicKey (GetPublic tk) = Some pb ->
  DeriveSharedSecret sk (GetPublic tk) = DeriveSharedSecret tk (GetPublic sk) ∧
  (DeriveSharedSecret sk (GetPublic tk) = Ok s ->
   DeriveDHTKey s (GetPublic sk) (GetPublic tk) = DeriveDHTKey s (GetPublic tk) (GetPublic sk) ∧
   is_ok (DeriveDHTKey s (GetPublic sk) (GetPublic tk)) = true ∧ length (DeriveEncryptionKey s) = 32) ∧
  DeriveSharedSecret sk (GetPublic sk) = Err ESelf ∧
  unmarshalFriendPubKey (StdEncode pb) = Ok (GetPublic tk).
Proof.
  intros Hs Ht Hne Hm. destruct (ed_public sk Hs) as (_ & _ & Hp). destruct (ed_public tk Ht) as (_ & _ & Hq).
  split_and!.
  - by apply DeriveSharedSecret_comm.
  - intros _. split_and!; [by apply DeriveDHTKey_comm| |apply DeriveEncryptionKey_length].
    unfold DeriveDHTKey. destruct Hp as [a ->], Hq as [b ->]. cbn [of_option mbind result_bind].
    by destruct (canonicalOrder a b).
  - by apply DeriveSharedSecret_self.
  - by apply unmarshalFriendPubKey_encode.
Qed.

(** ** Witnesses *)

(** Toy keys over the toy cryptography: an ed25519 key is any 64 bytes, its
    public half the first 32, and Diffie-Hellman adds byte by byte. *)
Definition toy_key_string (k : bytes) : string :=
  String "k" (String.string_of_list_ascii (of_chr <$> (pos_bytes (encode k)))).
Definition toy_string_key (s : string) : option bytes :=
  match s with
  | EmptyString => None
  | String _ s => decode (bytes_pos (chr <$> String.list_ascii_of_string s))
  end.

#[export] Instance toy_keys : Keys toy_crypto := {|
  PubIsEd25519 k := bool_decide (length (k : bytes) = 64);
  PubRaw k := Some (take 32 (k : bytes));
  PrivIsEd25519 k := bool_decide (length (k : bytes) = 64);
  PrivRaw k := Some (k : bytes);
  MarshalPublicKey k := Some (toy_key_string k);
  UnmarshalPublicKey := toy_string_key;
  MarshalPrivateKey k := Some (k : bytes);
  UnmarshalPrivateKey b := Some b;
  IDFromPublicKey k := Some (toy_key_string k);
  ID_String := id;
  sha256 := id;
  sha512 := toy_pad 64;
  hkdf s i := toy_pad 32 s;
  PointMontgomery b := Some (toy_pad 32 (clamp (take 32 (toy_pad 64 (take 32 b)))));
  X25519 k p := Some (zip_with Z.add (toy_pad 32 k) p);
  X25519_base := toy_pad 32 |}.

Lemma pos_bytes_chr p : chr <$> (of_chr <$> pos_bytes p) = pos_bytes p.
Proof.
  induction p as [p IH|p IH|]; cbn [pos_bytes]; [rewrite !fmap_cons, IH; by rewrite chr_of_chr..|done].
Qed.

Lemma toy_string_key_inv k : toy_string_key (toy_key_string k) = Some k.
Proof.
  unfold toy_string_key, toy_key_string.
  rewrite String.list_ascii_of_string_of_list_ascii, pos_bytes_chr.
  rewrite <- (app_nil_r (pos_bytes _)), bytes_pos_app by done. apply countable.decode_encode.
Qed.

Lemma zip_with_add_comm (l k : list Z) : zip_with Z.add l k = zip_with Z.add k l.
Proof. revert k. induction l; intros []; simpl; f_equal; auto using Z.add_comm. Qed.

#[export] Instance toy_key_laws : KeyLaws toy_crypto toy_keys.
Proof.
  split; simpl.
  - intros sk raw [= <-] Hl. by apply bool_decide_eq_true in Hl.
  - intros pk raw [= <-] Hl%bool_decide_eq_true. rewrite length_take. lia.
  - intros sk Hl. split; [done|]. split; by eexists.
  - intros b. apply toy_pad_length.
  - intros s i. rewrite toy_pad_length. lia.
  - intros k. apply toy_pad_length.
  - intros sk raw pub [= <-] [= <-] _. unfold id. by rewrite take_take.
  - intros k j. f_equal. apply zip_with_add_comm.
  - intros pk s [= <-]. split; [done|]. apply toy_string_key_inv.
Qed.

Definition ann_key : bytes := repeat 3%Z 64.
Definition bob_key : bytes := repeat 5%Z 64.

Lemma friend_keys_agree_witness :
  DeriveSharedSecret (H := toy_keys) ann_key bob_key = DeriveSharedSecret (H := toy_keys) bob_key ann_key /\
  DeriveSharedSecret (H := toy_keys) ann_key ann_key = Err ESelf.
Proof.
  destruct (friend_keys_agree (K := toy_keys) ann_key bob_key [] (toy_key_string bob_key)
    eq_refl eq_refl ltac:(vm_compute; discriminate) eq_refl) as (H1 & _ & H3 & _).
  split; [exact H1|exact H3].
Defined.

#[export] Instance PublicIdentity_eq_dec : EqDecision PublicIdentity.
Proof. solve_decision. Defined.
#[export] Instance PublicIdentity_countable : Countable PublicIdentity.
Proof.
  refine (inj_countable' (fun p => (pi_Version p, pi_Name p, pi_PeerID p, pi_PublicKey p, pi_RendezvousHint p))
    (fun '(v, n, i, k, h) => mkPublicIdentity v n i k h) _). by intros [].
Defined.

Definition demo_yaml (p : PublicIdentity) : option bytes := Some (encode_bytes p).

Lemma demo_yaml_law : yaml_law demo_yaml decode_bytes.
Proof.
  intros p. eexists. split; [reflexivity|]. rewrite <- (app_nil_r (encode_bytes p)). by apply decode_encode_bytes.
Qed.

Definition ann_pair : Keypair := mkKeypair (H := toy_crypto) ann_key ann_key (toy_key_string ann_key).

Lemma toy_priv_law : priv_law (H := toy_keys).
Proof. intros sk. by exists sk. Qed.

Lemma identity_files_witness :
  Load (H := toy_keys) false (Some (mkFile 384 (Some ann_key))) = Ok ann_pair /\
  Load (H := toy_keys) false (Some (mkFile 420 (Some ann_key))) = Err (EMode 420).
Proof.
  destruct (identity_files (H := toy_keys) demo_yaml decode_bytes (os_ok "d/.tmp-1") "d/key" (Some ann_key) "Ann"
    ann_pair ∅ {[ "d/key" := ann_key ]} ∅ (mkPublicIdentity 1 "" "" "" "") (mkPublicIdentity 1 "" "" "" "")
    384 false (mkFile 420 (Some ann_key)) demo_yaml_law toy_priv_law ltac:(split; [reflexivity|discriminate])
    ltac:(vm_compute; reflexivity) eq_refl eq_refl) as (H1 & H2 & _).
  split; [|apply H2; vm_compute; discriminate].
  refine (H1 _). vm_compute. reflexivity.
Defined.
