(* ===== verification/Discovery.v ===== *)
(** * Discovery of friends' addresses ([internal/discovery])

    The publisher puts one sealed record per friend on the DHT; the resolver
    looks a friend up in its disk cache, then on the DHT. The DHT is an
    interface with its law; friends, records, keys and the cache file are the
    other files' models. *)
From S2P Require Import Prelude GoStrings Base64 Iox FriendsStore Sealed Identity.
Import DiscoveryRecord.
#[local] Open Scope list_scope.

Notation Friend := FriendsStore.Friend.

(** [github.com/multiformats/go-multiaddr] and the interface [DHT] of
    [dht.go]: a value put under a key is what the next lookup of that key
    finds; other keys are not affected. *)
Class Dht := {
  DhtState : Type;
  PutValue : string -> bytes -> DhtState -> DhtState * bool;
  GetValue : string -> DhtState -> option bytes }.

Class DhtLaws (D : Dht) : Prop := {
  put_get k v d d' : PutValue k v d = (d', true) -> GetValue k d' = Some v;
  put_other k k' v d : k ≠ k' -> GetValue k' (PutValue k v d).1 = GetValue k' d }.

(** ** The cache ([cache.go]) *)

Record CacheEntry := mkCacheEntry { ce_Addresses : list string; FetchedAt : Z }.

Record Cache := mkCache { c_path : string; c_entries : gmap string CacheEntry }.

Definition cacheVersion : Z := 1.

Section cache.
(** [json.MarshalIndent] and [json.Unmarshal] on a [cacheFile]; encoding a map
    sorts its keys, decoding gives the pairs to range over in some order. *)
Context (marshal : Z -> gmap string CacheEntry -> option bytes)
        (unmarshal : bytes -> option (Z * list (string * CacheEntry))).

(** The loop of [OpenCache] over the decoded entries. *)
Definition load_entry (m : gmap string CacheEntry) (kv : string * CacheEntry) : gmap string CacheEntry :=
  match StdDecode kv.1 with
  | None => m
  | Some raw => <[raw := kv.2]> m
  end.

Definition OpenCache (path : string) (readable : bool) (fs : gmap string bytes) : result unit Cache :=
  match fs !! path with
  | None => Ok (mkCache path ∅)
  | Some data =>
      if negb readable then Err tt
      else match unmarshal data with
      | None => Ok (mkCache path ∅)
      | Some (v, es) =>
          if negb (v =? cacheVersion)%Z then Ok (mkCache path ∅)
          else Ok (mkCache path (foldl load_entry ∅ es))
      end
  end.

Definition CacheGet (p : string) (c : Cache) : option CacheEntry := c_entries c !! p.

(** [flush]: the snapshot re-keyed by base64, written atomically. *)
Definition flush (o : Os) (c : Cache) (fs : gmap string bytes) : gmap string bytes :=
  match marshal cacheVersion (kmap StdEncode (c_entries c)) with
  | None => fs
  | Some data => awf_result (AtomicWriteFile o (c_path c) (data ++ [10%Z]) fs) fs
  end.

Definition Set_ (o : Os) (now : Z) (p : string) (addrs : list string) (c : Cache) (fs : gmap string bytes)
  : Cache * gmap string bytes :=
  let c := mkCache (c_path c) (<[p := mkCacheEntry addrs now]> (c_entries c)) in (c, flush o c fs).

Definition Invalidate (o : Os) (p : string) (c : Cache) (fs : gmap string bytes) : Cache * gmap string bytes :=
  let c := mkCache (c_path c) (delete p (c_entries c)) in (c, flush o c fs).

(** What the JSON library promises. *)
Definition cache_json_law : Prop :=
  ∀ v m, ∃ d es, marshal v m = Some d ∧ unmarshal (d ++ [10%Z]) = Some (v, es) ∧ es ≡ₚ map_to_list m.

#[local] Instance StdEncode_inj : Inj (=) (=) StdEncode.
Proof. clear. intros s t. apply (Encode_inj std_alphabet (Some "="%char)). Qed.

Lemma load_entries_spec es m p e :
  NoDup es.*1 -> (∀ kv, kv ∈ es -> ∃ raw, kv.1 = StdEncode raw) ->
  foldl load_entry m es !! p = Some e <->
    (StdEncode p, e) ∈ es ∨ (StdEncode p ∉ es.*1 ∧ m !! p = Some e).
Proof.
  clear. revert m. induction es as [|[k v] es IH]; intros m Hnd Henc; simpl; [set_solver|].
  apply NoDup_cons in Hnd as [Hk Hnd]. destruct (Henc (k, v)) as [raw Hraw]; [by left|]. simpl in Hraw. subst k.
  rewrite IH; [|done|intros kv Hkv; apply Henc; by right].
  assert (load_entry m (StdEncode raw, v) = <[raw := v]> m) as ->.
  { unfold load_entry. simpl. unfold StdDecode, StdEncode. by rewrite Decode_Encode by apply _. }
  rewrite elem_of_cons, not_elem_of_cons, lookup_insert_Some. split.
  - intros [?|[Hp [[<- <-]|[Hne Hm]]]]; [by left; right|by left; left|].
    right. split_and!; [|done|done]. intros Heq%(inj StdEncode). done.
  - intros [[[= Hp ->]|?]|[[Hne Hp] Hm]]; [|by left|].
    + apply (inj StdEncode) in Hp as ->. right. split; [done|]. by left.
    + right. split; [done|]. right. split; [|done]. by intros ->.
Qed.

Lemma reopen_flushed o c fs :
  cache_json_law -> os_fresh o (c_path c) fs -> os_fails o = None -> OpenCache (c_path c) true (flush o c fs) = Ok c.
Proof.
  intros Hj Hf Ho. unfold flush. destruct (Hj cacheVersion (kmap StdEncode (c_entries c))) as (d & es & -> & Hd & Hp).
  destruct (awf_spec o (c_path c) (d ++ [10%Z]) fs Hf) as [_ ->].
  destruct (AtomicWriteFile o (c_path c) (d ++ [10%Z]) fs).2 as [x|] eqn:Hx; [apply awf_error in Hx; congruence|].
  unfold OpenCache. rewrite lookup_insert_eq, Hd. cbn [negb]. simpl.
  enough (foldl load_entry ∅ es = c_entries c) as -> by by destruct c.
  assert (∀ k v, (k, v) ∈ es <-> ∃ p, k = StdEncode p ∧ c_entries c !! p = Some v) as Hes.
  { intros k v. rewrite Hp, elem_of_map_to_list. apply lookup_kmap_Some. apply _. }
  apply map_eq. intros p. apply option_eq. intros e. rewrite load_entries_spec.
  - rewrite Hes, lookup_empty. split; [intros [(q & Hq%(inj StdEncode) & Hl)|[_ ?]]; [by subst|done]|]. eauto.
  - rewrite Hp. apply NoDup_fst_map_to_list.
  - intros [k v] (p0 & -> & _)%Hes. by exists p0.
Qed.
End cache.

(** ** Resolver and publisher *)

Inductive ResolveErr :=
| EOptDHT | EOptFriends | EOptKeys | EOptAddressProvider
| ErrNotFriend | EFriendPubkey (e : KeyErr) | EShared (e : KeyErr) | EDHTKey (e : KeyErr)
| ErrLookupFailed.

(** [friends.Store.List] as both use it. *)
Definition findFriend (fs : list Friend) (target : string) : option Friend :=
  snd <$> list_find (fun f => FriendsStore.PeerID f = target) fs.

Definition hour : Z := 3600 * 10 ^ 9.
Definition DefaultLookupTTL : Z := 24 * hour.
Definition DefaultLookupTimeout : Z := 10 * 10 ^ 9.
Definition DefaultRefreshInterval : Z := 4 * hour.

(** [time.Since] of two wall-clock instants. *)
Definition Elapsed (now t : Z) : Z := Z.max (- 2 ^ 63) (Z.min (2 ^ 63 - 1) (now - t)).

Section peers.
Context `{Crypto, !Keys _, Dht}.
Context (rec_marshal : Record_ -> option bytes) (rec_unmarshal : bytes -> option Record_).
Context (cache_marshal : Z -> gmap string CacheEntry -> option bytes).
(** [ma.NewMultiaddr]. *)
Context {Multiaddr : Type} (NewMultiaddr : string -> option Multiaddr) (MultiaddrString : Multiaddr -> string).

Definition parseMultiaddrs (strs : list string) : list Multiaddr := omap NewMultiaddr strs.

Record ResolverOptions := mkResolverOptions {
  ro_DHT : bool;
  ro_Friends : bool;
  ro_Cache : bool;
  ro_MyPriv : option PrivKey;
  ro_MyPub : option PubKey;
  ro_LookupTTL : Z;
  ro_Timeout : Z }.

Record Resolver := mkResolver {
  r_hasCache : bool;
  r_myPriv : PrivKey;
  r_myPub : PubKey;
  r_ttl : Z;
  r_timeout : Z }.

Definition NewResolver (opts : ResolverOptions) : result ResolveErr Resolver :=
  if negb (ro_DHT opts) then Err EOptDHT
  else if negb (ro_Friends opts) then Err EOptFriends
  else match ro_MyPriv opts, ro_MyPub opts with
  | Some priv, Some pub =>
      Ok (mkResolver (ro_Cache opts) priv pub
        (if decide (ro_LookupTTL opts = 0%Z) then DefaultLookupTTL else ro_LookupTTL opts)
        (if decide (ro_Timeout opts = 0%Z) then DefaultLookupTimeout else ro_Timeout opts))
  | _, _ => Err EOptKeys
  end.

(** The keys both sides compute for a friend: secret and DHT key. *)
Definition friend_keys (priv : PrivKey) (pub friendPub : PubKey) : result ResolveErr (bytes * string) :=
  secret ← map_err EShared (DeriveSharedSecret priv friendPub);
  key ← map_err EDHTKey (DeriveDHTKey secret pub friendPub);
  Ok (secret, key).

(** [Resolve] below its cache lookup: the record's addresses. *)
Definition Lookup (r : Resolver) (now : Z) (friends : list Friend) (target : string) (d : DhtState)
  : result ResolveErr (list string) :=
  friend ← of_option ErrNotFriend (findFriend friends target);
  friendPub ← map_err EFriendPubkey (unmarshalFriendPubKey (FriendsStore.PublicKey friend));
  '(secret, key) ← friend_keys (r_myPriv r) (r_myPub r) friendPub;
  blob ← of_option ErrLookupFailed (GetValue key d);
  let encKey := DeriveEncryptionKey secret in
  rec ← map_err (fun _ => ErrLookupFailed) (Decode rec_unmarshal now blob encKey friendPub (r_ttl r));
  Ok (Addresses rec).

Definition Resolve (o : Os) (r : Resolver) (now : Z) (friends : list Friend) (target : string) (d : DhtState)
    (c : Cache) (fs : gmap string bytes) : Cache * gmap string bytes * result ResolveErr (list Multiaddr) :=
  match (if r_hasCache r then CacheGet target c else None) with
  | Some entry =>
      if (Elapsed now (FetchedAt entry) <? r_ttl r)%Z then (c, fs, Ok (parseMultiaddrs (ce_Addresses entry)))
      else
        match Lookup r now friends target d with
        | Ok addrs =>
            let '(c, fs) := if r_hasCache r then Set_ cache_marshal o now target addrs c fs else (c, fs) in
            (c, fs, Ok (parseMultiaddrs addrs))
        | Err e => (c, fs, Err e)
        end
  | None =>
      match Lookup r now friends target d with
      | Ok addrs =>
          let '(c, fs) := if r_hasCache r then Set_ cache_marshal o now target addrs c fs else (c, fs) in
          (c, fs, Ok (parseMultiaddrs addrs))
      | Err e => (c, fs, Err e)
      end
  end.

Definition InvalidateCache (o : Os) (r : Resolver) (target : string) (c : Cache) (fs : gmap string bytes)
  : Cache * gmap string bytes :=
  if r_hasCache r then Invalidate cache_marshal o target c fs else (c, fs).

Record PublisherOptions := mkPublisherOptions {
  po_DHT : bool;
  po_Friends : bool;
  po_Signer : option PrivKey;
  po_SignerPub : option PubKey;
  po_AddressProvider : bool;
  po_RefreshInterval : Z }.

Record Publisher := mkPublisher {
  p_signer : PrivKey;
  p_signerPub : PubKey;
  p_interval : Z }.

Definition NewPublisher (opts : PublisherOptions) : result ResolveErr Publisher :=
  if negb (po_DHT opts) then Err EOptDHT
  else if negb (po_Friends opts) then Err EOptFriends
  else match po_Signer opts, po_SignerPub opts with
  | Some signer, Some pub =>
      if negb (po_AddressProvider opts) then Err EOptAddressProvider
      else Ok (mkPublisher signer pub
        (if decide (po_RefreshInterval opts = 0%Z) then DefaultRefreshInterval else po_RefreshInterval opts))
  | _, _ => Err EOptKeys
  end.

(** One turn of [PublishOnce]'s loop: every error skips the friend. [nonce]
    is what the random source gives for this record. *)
Definition publish_friend (p : Publisher) (rec : Record_) (nonce : option bytes) (f : Friend) (d : DhtState)
  : DhtState :=
  match unmarshalFriendPubKey (FriendsStore.PublicKey f) with
  | Err _ => d
  | Ok friendPub =>
      match friend_keys (p_signer p) (p_signerPub p) friendPub with
      | Err _ => d
      | Ok (secret, key) =>
          match Encode rec_marshal nonce rec (DeriveEncryptionKey secret) (p_signer p) with
          | Err _ => d
          | Ok blob => (PutValue key blob d).1
          end
      end
  end.

(** [PublishOnce]; [now] in seconds, [nonces] for the successive records. *)
Definition PublishOnce (p : Publisher) (now : Z) (addrs : list Multiaddr) (nonces : nat -> option bytes)
    (all : list Friend) (d : DhtState) : DhtState :=
  if decide (all = []) then d
  else
    let rec := mkRecord RecordVersion (MultiaddrString <$> addrs) now in
    snd (foldl (fun '(n, d) f => (S n, publish_friend p rec (nonces n) f d)) (0, d) all).

(** What [Run]'s select receives, and what a round reads when it runs. *)
Record Round := mkRound {
  rd_now : Z; rd_addrs : list Multiaddr; rd_nonces : nat -> option bytes; rd_friends : list Friend }.

Inductive RunEvent := RunDone | RunTick (rd : Round).

Definition run_round (p : Publisher) (rd : Round) (d : DhtState) : DhtState :=
  PublishOnce p (rd_now rd) (rd_addrs rd) (rd_nonces rd) (rd_friends rd) d.

Fixpoint run_loop (p : Publisher) (evs : list RunEvent) (d : DhtState) : DhtState :=
  match evs with
  | [] | RunDone :: _ => d
  | RunTick rd :: evs => run_loop p evs (run_round p rd d)
  end.

Definition Run (p : Publisher) (first : Round) (evs : list RunEvent) (d : DhtState) : DhtState :=
  run_loop p evs (run_round p first d).
End peers.

(** ** Lemmas *)

Section lemmas.
Context `{CL : CryptoLaws, K : !Keys _, KL : !KeyLaws _ _, D : Dht, DL : !DhtLaws _}.
Context (rec_marshal : Record_ -> option bytes) (rec_unmarshal : bytes -> option Record_)
        (rec_law : json_law rec_marshal rec_unmarshal).
Context (cache_marshal : Z -> gmap string CacheEntry -> option bytes).
Context {Multiaddr : Type} (NewMultiaddr : string -> option Multiaddr) (MultiaddrString : Multiaddr -> string).

(** The DHT key under which a publisher puts a friend's record. *)
Definition key_of (p : Publisher) (f : Friend) : option string :=
  match unmarshalFriendPubKey (FriendsStore.PublicKey f) with
  | Err _ => None
  | Ok pub => match friend_keys (p_signer p) (p_signerPub p) pub with Ok (_, key) => Some key | Err _ => None end
  end.

Lemma publish_friend_other p rec nonce f d key :
  key_of p f ≠ Some key -> GetValue key (publish_friend rec_marshal p rec nonce f d) = GetValue key d.
Proof.
  clear CL KL rec_law. unfold key_of, publish_friend.
  destruct (unmarshalFriendPubKey _) as [pub|]; [|done].
  destruct (friend_keys _ _ _) as [[secret k]|]; [|done]. intros Hk.
  destruct (Encode _ _ _ _ _); [|done]. apply put_other. congruence.
Qed.

Definition publish_fold (p : Publisher) (rec : Record_) (nonces : nat -> option bytes) (nd : nat * DhtState)
    (l : list Friend) : nat * DhtState :=
  foldl (fun '(n, d) f => (S n, publish_friend rec_marshal p rec (nonces n) f d)) nd l.

Lemma publish_fold_other p rec nonces l n d key :
  Forall (fun f => key_of p f ≠ Some key) l ->
  GetValue key (publish_fold p rec nonces (n, d) l).2 = GetValue key d.
Proof.
  clear CL KL rec_law. revert n d. induction l as [|f l IH]; intros n d; [done|].
  intros [Hf Hl]%Forall_cons.
  change (publish_fold p rec nonces (n, d) (f :: l))
    with (publish_fold p rec nonces (S n, publish_friend rec_marshal p rec (nonces n) f d) l).
  rewrite IH by done. by apply publish_friend_other.
Qed.

(** After a round the friend's key holds the record put for that friend. *)
Lemma PublishOnce_puts p now addrs nonces l1 f l2 d pub secret key :
  unmarshalFriendPubKey (FriendsStore.PublicKey f) = Ok pub ->
  friend_keys (p_signer p) (p_signerPub p) pub = Ok (secret, key) ->
  Forall (fun f => key_of p f ≠ Some key) l2 ->
  (∀ v d, (PutValue key v d).2 = true) ->
  ∀ blob, Encode rec_marshal (nonces (length l1)) (mkRecord RecordVersion (MultiaddrString <$> addrs) now)
    (DeriveEncryptionKey secret) (p_signer p) = Ok blob ->
  GetValue key (PublishOnce rec_marshal MultiaddrString p now addrs nonces (l1 ++ f :: l2) d) = Some blob.
Proof.
  clear CL KL rec_law. intros Hpub Hkey Hl2 Hput blob Hb. unfold PublishOnce.
  rewrite decide_False by (by destruct l1).
  set (rec := mkRecord _ _ _) in *. change (foldl _ (0, d) (l1 ++ f :: l2)) with (publish_fold p rec nonces (0, d) (l1 ++ f :: l2)).
  assert (∀ n d, (publish_fold p rec nonces (n, d) l1).1 = n + length l1) as Hn.
  { clear. induction l1 as [|g l IH]; intros n d; simpl; [lia|]. rewrite IH. lia. }
  unfold publish_fold. rewrite foldl_app. fold (publish_fold p rec nonces (0, d) l1).
  specialize (Hn 0 d). destruct (publish_fold p rec nonces (0, d) l1) as [n d1]. simpl in Hn. subst n.
  cbn [foldl]. fold (publish_fold p rec nonces (S (length l1), publish_friend rec_marshal p rec (nonces (length l1)) f d1) l2).
  rewrite publish_fold_other by done. unfold publish_friend. rewrite Hpub, Hkey, Hb.
  apply put_get with (d := d1). specialize (Hput blob d1). by destruct (PutValue key blob d1) as [? ?]; simpl in *; subst.
Qed.

(** Two friends: their keys and how each has stored the other. *)
Record paired (sa sb : PrivKey) (secret : bytes) : Prop := {
  pa_ed : PrivIsEd25519 sa = true;
  pb_ed : PrivIsEd25519 sb = true;
  pa_ne : PubRaw (GetPublic sa) ≠ PubRaw (GetPublic sb);
  pa_secret : DeriveSharedSecret sa (GetPublic sb) = Ok secret }.

Lemma paired_keys sa sb secret :
  paired sa sb secret -> ∃ key, friend_keys sa (GetPublic sa) (GetPublic sb) = Ok (secret, key) ∧
    friend_keys sb (GetPublic sb) (GetPublic sa) = Ok (secret, key).
Proof.
  clear rec_law. intros [Ha Hb Hne Hs]. unfold friend_keys. rewrite <- (DeriveSharedSecret_comm sa sb) by done. rewrite Hs.
  cbn [map_err mbind result_bind].
  destruct (ed_public sa Ha) as (_ & _ & Hpa). destruct (ed_public sb Hb) as (_ & _ & Hpb).
  rewrite (DeriveDHTKey_comm secret (GetPublic sb)) by done.
  destruct Hpa as [a Hpa], Hpb as [b Hpb]. unfold DeriveDHTKey. rewrite Hpa, Hpb.
  cbn [of_option mbind result_bind]. destruct (canonicalOrder a b). by eexists.
Qed.

Definition stored (f : Friend) (pk : PubKey) : Prop :=
  ∃ pb, MarshalPublicKey pk = Some pb ∧ FriendsStore.PublicKey f = StdEncode pb.

Lemma stored_unmarshal f pk : stored f pk -> unmarshalFriendPubKey (FriendsStore.PublicKey f) = Ok pk.
Proof. clear rec_law. intros (pb & Hpb & ->). by apply unmarshalFriendPubKey_encode. Qed.

(** A key that signs: 64-byte signatures. *)
Definition signs (sk : PrivKey) : Prop := ∀ m, ∃ s, Sign sk m = Some s ∧ length s = signatureLen.

Lemma Encode_signs nonce r k sk :
  signs sk -> length nonce = nonceLen -> length k = keyLen -> ∃ blob, Encode rec_marshal (Some nonce) r k sk = Ok blob.
Proof.
  intros Hs Hn Hk. unfold Encode. destruct (rec_law r) as (d & -> & _). cbn [of_option mbind result_bind].
  pose proof (seal_spec nonce d k sk Hn Hk) as H. destruct (seal (Some nonce) d k sk) as [b|e]; [by exists b|].
  destruct (Hs (nonce ++ AeadSeal k nonce d)) as (s & Hsg & Hl).
  destruct e; try done; [congruence|]. destruct H as (s' & ? & ?). congruence.
Qed.

(** Looking a friend up right after the friend's round. *)
Lemma Lookup_published ra sa sb secret key friends target fb blob now ts addrs d nonce :
  r_myPriv ra = sa -> r_myPub ra = GetPublic sa -> friend_keys sa (GetPublic sa) (GetPublic sb) = Ok (secret, key) ->
  findFriend friends target = Some fb -> stored fb (GetPublic sb) -> length nonce = nonceLen ->
  Encode rec_marshal (Some nonce) (mkRecord RecordVersion addrs ts) (DeriveEncryptionKey secret) sb = Ok blob ->
  GetValue key d = Some blob ->
  Lookup rec_unmarshal ra now friends target d =
    if decide (r_ttl ra < Since now ts)%Z then Err ErrLookupFailed else Ok addrs.
Proof.
  intros <- Hpub Hk Hf Hst Hn Hb Hg. unfold Lookup. rewrite Hf. cbn [of_option mbind result_bind].
  rewrite (stored_unmarshal _ _ Hst). cbn [map_err mbind result_bind]. rewrite Hpub, Hk.
  cbn [mbind result_bind]. rewrite Hg. cbn [of_option mbind result_bind].
  rewrite (discovery_Decode_Encode rec_marshal rec_unmarshal now (r_ttl ra) nonce _ _ sb blob)
    by first [done | apply DeriveEncryptionKey_length].
  rewrite decide_False by auto. simpl. by case_decide.
Qed.

(** Looking a friend up when the key holds the caller's own record. *)
Lemma Lookup_own ra sa sb secret key friends target fb blob now rec d nonce :
  r_myPriv ra = sa -> r_myPub ra = GetPublic sa -> friend_keys sa (GetPublic sa) (GetPublic sb) = Ok (secret, key) ->
  findFriend friends target = Some fb -> stored fb (GetPublic sb) -> length nonce = nonceLen ->
  (∀ m s, Sign sa m = Some s -> Verify (GetPublic sb) m s ≠ Some true) ->
  Encode rec_marshal (Some nonce) rec (DeriveEncryptionKey secret) sa = Ok blob ->
  GetValue key d = Some blob ->
  Lookup rec_unmarshal ra now friends target d = Err ErrLookupFailed.
Proof.
  intros <- Hpub Hk Hf Hst Hn Hforge Hb Hg. unfold Lookup. rewrite Hf. cbn [of_option mbind result_bind].
  rewrite (stored_unmarshal _ _ Hst). cbn [map_err mbind result_bind]. rewrite Hpub, Hk.
  cbn [mbind result_bind]. rewrite Hg. cbn [of_option mbind result_bind].
  by rewrite (Decode_other_signer rec_marshal rec_unmarshal now (r_ttl ra) nonce rec (DeriveEncryptionKey secret)
    (r_myPriv ra) (GetPublic sb) blob) by first [done | apply DeriveEncryptionKey_length].
Qed.

Lemma Resolve_cold o ra now friends target d c fs :
  r_hasCache ra = true -> CacheGet target c = None ->
  Resolve rec_unmarshal cache_marshal NewMultiaddr o ra now friends target d c fs =
    match Lookup rec_unmarshal ra now friends target d with
    | Ok addrs => (Set_ cache_marshal o now target addrs c fs, Ok (parseMultiaddrs NewMultiaddr addrs))
    | Err e => (c, fs, Err e)
    end.
Proof.
  clear. intros Hc Hg. unfold Resolve. rewrite Hc, Hg.
  destruct (Lookup _ _ _ _ _ _) as [addrs|]; [|done]. by destruct (Set_ _ _ _ _ _ _ _).
Qed.

Lemma Resolve_cached o ra now friends target d c fs e :
  r_hasCache ra = true -> CacheGet target c = Some e -> (Elapsed now (FetchedAt e) < r_ttl ra)%Z ->
  Resolve rec_unmarshal cache_marshal NewMultiaddr o ra now friends target d c fs =
    (c, fs, Ok (parseMultiaddrs NewMultiaddr (ce_Addresses e))).
Proof.
  clear. intros Hc Hg Ht. unfold Resolve. rewrite Hc, Hg. by rewrite (proj2 (Z.ltb_lt _ _) Ht).
Qed.
End lemmas.

(** ** Properties *)

Section properties.
Context `{CL : CryptoLaws, K : !Keys _, KL : !KeyLaws _ _, D : Dht, DL : !DhtLaws _}.
Context (rec_marshal : Record_ -> option bytes) (rec_unmarshal : bytes -> option Record_)
        (rec_law : json_law rec_marshal rec_unmarshal).
Context (cache_marshal : Z -> gmap string CacheEntry -> option bytes)
        (cache_unmarshal : bytes -> option (Z * list (string * CacheEntry)))
        (cache_law : cache_json_law cache_marshal cache_unmarshal).
Context {Multiaddr : Type} (NewMultiaddr : string -> option Multiaddr) (MultiaddrString : Multiaddr -> string)
        (maddr_law : ∀ a, NewMultiaddr (MultiaddrString a) = Some a).
Context (put_ok : ∀ k v d, (PutValue k v d).2 = true).

(** A peer [sa] with its resolver [ra] and its friend [sb], who is known to it
    as [target] and knows it as [fa]. *)
Context (sa sb : PrivKey) (secret : bytes) (pair : paired sa sb secret).
Context (ra : Resolver) (ra_priv : r_myPriv ra = sa) (ra_pub : r_myPub ra = GetPublic sa)
        (ra_cache : r_hasCache ra = true).
Context (friends : list Friend) (target : string) (fb fa : Friend)
        (known_b : findFriend friends target = Some fb) (stored_b : stored fb (GetPublic sb))
        (stored_a : stored fa (GetPublic sa)).
Context (nonces : nat -> option bytes) (nonces_ok : ∀ n, ∃ b, nonces n = Some b ∧ length b = nonceLen).

Lemma parse_MultiaddrString addrs : parseMultiaddrs NewMultiaddr (MultiaddrString <$> addrs) = addrs.
Proof.
  clear - maddr_law. unfold parseMultiaddrs. induction addrs as [|a l IH]; [done|]. rewrite fmap_cons. cbn.
  rewrite maddr_law. by f_equal.
Qed.

Lemma key_of_pair p f pk s key :
  stored f pk -> friend_keys (p_signer p) (p_signerPub p) pk = Ok (s, key) -> key_of p f = Some key.
Proof. clear - KL. intros Hs Hk. unfold key_of. by rewrite (stored_unmarshal _ _ Hs), Hk. Qed.


(** The two friends of a pair share one DHT key, and each puts its own
    record under it: after a peer's own publishing round has served its friend,
    resolving that friend fails, although the friend had published before —
    the record found is the peer's own, which the friend's key does not
    verify — until the friend publishes again. *)
Theorem own_round_hides_friend pa l1 l2 d ts addrs o now c fs :
  signs sa -> p_signer pa = sa -> p_signerPub pa = GetPublic sa ->
  Forall (fun f => key_of pa f ≠ key_of pa fb) l2 -> CacheGet target c = None ->
  (∀ m s, Sign sa m = Some s -> Verify (GetPublic sb) m s ≠ Some true) ->
  Resolve rec_unmarshal cache_marshal NewMultiaddr o ra now friends target
    (PublishOnce rec_marshal MultiaddrString pa ts addrs nonces (l1 ++ fb :: l2) d) c fs
  = (c, fs, Err ErrLookupFailed).
Proof.
  intros Hsig Hpa Hpap Hl2 Hcold Hforge.
  destruct (paired_keys sa sb secret pair) as (key & Hka & Hkb).
  destruct (nonces_ok (length l1)) as (nonce & Hnonce & Hn).
  destruct (Encode_signs rec_marshal rec_unmarshal rec_law nonce (mkRecord RecordVersion (MultiaddrString <$> addrs) ts)
    (DeriveEncryptionKey secret) sa Hsig Hn (DeriveEncryptionKey_length secret)) as [blob Hb].
  assert (key_of pa fb = Some key) as Hkey by (eapply key_of_pair; [exact stored_b|]; by rewrite Hpa, Hpap).
  set (d' := PublishOnce _ _ _ _ _ _ _ _).
  assert (GetValue key d' = Some blob) as Hg.
  { subst d'. eapply PublishOnce_puts; [by apply stored_unmarshal|by rewrite Hpa, Hpap|by rewrite <- Hkey|auto|].
    by rewrite Hnonce, Hpa. }
  rewrite Resolve_cold by done.
  erewrite (Lookup_own rec_marshal); [done|eauto..].
Qed.
End properties.

(** ** Witnesses *)

#[export] Instance toy_dht : Dht := {|
  DhtState := gmap string bytes;
  PutValue k v d := (<[k := v]> d, true);
  GetValue k d := d !! k |}.

#[export] Instance toy_dht_laws : DhtLaws toy_dht.
Proof.
  split; simpl.
  - intros k v d d' [= <-]. apply lookup_insert_eq.
  - intros k k' v d Hne. by rewrite lookup_insert_ne.
Qed.

#[export] Instance DRecord_eq_dec : EqDecision Record_.
Proof. solve_decision. Defined.
#[export] Instance DRecord_countable : Countable Record_.
Proof.
  refine (inj_countable' (fun r => (Version r, Addresses r, Timestamp r)) (fun '(v, a, t) => mkRecord v a t) _).
  by intros [].
Defined.
#[export] Instance CacheEntry_eq_dec : EqDecision CacheEntry.
Proof. solve_decision. Defined.
#[export] Instance CacheEntry_countable : Countable CacheEntry.
Proof.
  refine (inj_countable' (fun e => (ce_Addresses e, FetchedAt e)) (fun '(a, t) => mkCacheEntry a t) _). by intros [].
Defined.

Definition demo_rec_marshal (r : Record_) : option bytes := Some (encode_bytes r).
Definition demo_cache_marshal (v : Z) (m : gmap string CacheEntry) : option bytes :=
  Some (encode_bytes (v, map_to_list m)).

Lemma demo_rec_law : json_law demo_rec_marshal decode_bytes.
Proof.
  intros r. eexists. split; [reflexivity|]. rewrite <- (app_nil_r (encode_bytes r)). by apply decode_encode_bytes.
Qed.
Lemma demo_cache_law : cache_json_law demo_cache_marshal decode_bytes.
Proof. intros v m. eexists _, _. split; [reflexivity|]. split; [by apply decode_encode_bytes|done]. Qed.

Definition demo_secret : bytes :=
  match DeriveSharedSecret (H := toy_keys) ann_key bob_key with Ok s => s | Err _ => [] end.

Lemma demo_paired : paired (C := toy_crypto) (K := toy_keys) ann_key bob_key demo_secret.
Proof. split; [reflexivity|reflexivity|vm_compute; discriminate|vm_compute; reflexivity]. Qed.

Definition friend_of (name : string) (k : bytes) : Friend :=
  FriendsStore.mkFriend name (toy_key_string k) (StdEncode (toy_key_string k)) 0 "".

Lemma friend_of_stored name k : stored (C := toy_crypto) (K := toy_keys) (friend_of name k) k.
Proof. by eexists. Qed.

Lemma toy_signs k : signs (C := toy_crypto) k.
Proof. intros m. eexists. split; [reflexivity|]. apply toy_pad_length. Qed.

Definition ann_resolver : Resolver := mkResolver (H := toy_crypto) true ann_key ann_key (24 * hour) 0.
Definition bob_publisher : Publisher := mkPublisher (H := toy_crypto) bob_key bob_key (4 * hour).
Definition ann_publisher : Publisher := mkPublisher (H := toy_crypto) ann_key ann_key (4 * hour).
Definition demo_nonces (n : nat) : option bytes := Some (repeat (Z.of_nat n) 24).

Lemma demo_nonces_ok n : ∃ b, demo_nonces n = Some b ∧ length b = nonceLen.
Proof. eexists. split; [reflexivity|]. apply repeat_length. Qed.

Lemma ann_knows_bob : findFriend [friend_of "bob" bob_key] (toy_key_string bob_key) = Some (friend_of "bob" bob_key).
Proof. unfold findFriend. cbn. by rewrite decide_True. Qed.

Definition ann_resolves (now : Z) (d : gmap string bytes) :=
  Resolve (H := toy_crypto) (H0 := toy_dht) decode_bytes demo_cache_marshal (@Some string) (os_ok "d/.tmp-1") ann_resolver now
    [friend_of "bob" bob_key] (toy_key_string bob_key) d (mkCache "d/peers.json" ∅) ∅.
Definition bob_round (ts : Z) : gmap string bytes :=
  PublishOnce (H := toy_crypto) (H0 := toy_dht) demo_rec_marshal id bob_publisher ts ["/ip4/10.0.0.2/tcp/1"] demo_nonces
    ([] ++ friend_of "ann" ann_key :: []) ∅.


Lemma own_round_hides_friend_witness :
  ann_resolves (5 * 10 ^ 9)
    (PublishOnce (H := toy_crypto) (H0 := toy_dht) demo_rec_marshal id ann_publisher 5 ["/ip4/10.0.0.1/tcp/1"] demo_nonces
      ([] ++ friend_of "bob" bob_key :: []) (bob_round 4))
  = (mkCache "d/peers.json" ∅, ∅, Err ErrLookupFailed).
Proof.
  apply (own_round_hides_friend (C := toy_crypto) (K := toy_keys) (D := toy_dht) demo_rec_marshal
    decode_bytes demo_rec_law demo_cache_marshal Some id
    (fun _ _ _ => eq_refl) ann_key bob_key demo_secret demo_paired ann_resolver eq_refl eq_refl eq_refl
    [friend_of "bob" bob_key] (toy_key_string bob_key) (friend_of "bob" bob_key)
    ann_knows_bob (friend_of_stored "bob" bob_key) demo_nonces demo_nonces_ok
    ann_publisher [] [] (bob_round 4) 5 ["/ip4/10.0.0.1/tcp/1"] (os_ok "d/.tmp-1") (5 * 10 ^ 9) (mkCache "d/peers.json" ∅) ∅
    (toy_signs ann_key) eq_refl eq_refl (Forall_nil_2 _) (lookup_empty _)).
  intros m s [= <-].
  change (Some (bool_decide (toy_pad 64 (ann_key ++ m) = toy_pad 64 (bob_key ++ m))) ≠ Some true).
  rewrite bool_decide_false; [done|]. unfold toy_pad, ann_key, bob_key.
  rewrite <- !app_assoc, !take_app_le by (rewrite repeat_length; lia). vm_compute. discriminate.
Defined.
