(* ===== verification/InviteManager.v ===== *)
(** * Creating and redeeming invites ([internal/invite/manager.go], [handshake.go])

    The inviter's side (Create, the stream handler, redemption subscribers) and
    the redeemer's side (Redeem, RedeemURL, the dial and handshake), on top of
    the invite store, the friends store, the URL and record codecs. The stream
    handler is a sequence of atomic phases, so that any number of handlers
    interleave between its calls into the stores. *)
From S2P Require Import Prelude GoChan GoStrings Base64 Iox InviteCode InviteUrl.
From S2P Require FriendsStore InviteStore.
From S2P Require Import Sealed Identity Discovery.
#[local] Open Scope string_scope.
#[local] Open Scope list_scope.

Notation Entry := InviteStore.Entry.

Definition ProtocolID : string := "/opencom/invite/1.0.0".
Definition minute : Z := 60 * 10 ^ 9.
Definition MaxTTL : Z := 30 * minute.

(** ** Handshake messages ([handshake.go]) *)

Definition TypeRedeem : string := "invite_redeem".
Definition TypeAccept : string := "invite_accept".
Definition TypeReject : string := "invite_reject".

Record Hello := mkHello {
  h_Type : string;
  h_Code : Code;
  h_PeerID : string;
  h_PublicKey : string;
  h_Addresses : list string;
  h_DisplayName : string }.

Record Response := mkResponse {
  r_Type : string;
  r_PeerID : string;
  r_PublicKey : string;
  r_DisplayName : string;
  r_Reason : string }.

Definition Reject (reason : string) : Response := mkResponse TypeReject "" "" "" reason.

Inductive HandshakeErr := EWriting | EReading | EClosed | EUnmarshal.

(** [bufio.Scanner] with a buffer limit, reading its first line from what the
    peer wrote before closing. *)
Definition maxLine : Z := 2 ^ 20.

Fixpoint first_line (b : bytes) : bytes * bool :=
  match b with
  | [] => ([], false)
  | x :: b => if decide (x = 10%Z) then ([], true) else let '(l, found) := first_line b in (x :: l, found)
  end.

Definition drop_cr (l : bytes) : bytes :=
  if decide (last l = Some 13%Z) then take (length l - 1) l else l.

Definition scan_line (b : bytes) : result HandshakeErr bytes :=
  let '(l, found) := first_line b in
  if decide (b = []) then Err EClosed
  else if (maxLine <=? Z.of_nat (length l))%Z then Err EReading
  else Ok (drop_cr l).

Section messages.
(** [json.Encoder] and [json.Unmarshal] on a message. *)
Context {M : Type} (marshal : M -> option bytes) (unmarshal : bytes -> option M).

(** The bytes [Encode] writes: the JSON and a newline. *)
Definition send_message (m : M) : result HandshakeErr bytes :=
  d ← of_option EWriting (marshal m); Ok (d ++ [10%Z]).

Definition read_message (b : bytes) : result HandshakeErr M :=
  l ← scan_line b; of_option EUnmarshal (unmarshal l).

(** A message the peer reads as it was sent: JSON without newlines inside, of
    at most the scanner's size. *)
Definition travels (m : M) : Prop :=
  ∃ d, marshal m = Some d ∧ unmarshal d = Some m ∧ 10%Z ∉ d ∧ last d ≠ Some 13%Z ∧ (Z.of_nat (length d) < maxLine)%Z.

Lemma first_line_app d rest : 10%Z ∉ d -> first_line (d ++ 10%Z :: rest) = (d, true).
Proof.
  clear. induction d as [|x d IH]; simpl; [done|]. rewrite not_elem_of_cons. intros [Hx Hd].
  rewrite decide_False by congruence. by rewrite IH.
Qed.

Lemma read_send m : travels m -> ∃ b, send_message m = Ok b ∧ read_message b = Ok m.
Proof.
  intros (d & Hd & Hu & Hnl & Hcr & Hl). unfold send_message. rewrite Hd. eexists. split; [reflexivity|].
  unfold read_message, scan_line. rewrite first_line_app by done. rewrite decide_False by (by destruct d).
  rewrite (proj2 (Z.leb_gt _ _) Hl). unfold drop_cr. rewrite decide_False by done.
  cbn [mbind result_bind]. by rewrite Hu.
Qed.
End messages.

Section handshake.
Context (hello_marshal : Hello -> option bytes) (hello_unmarshal : bytes -> option Hello).
Context (resp_marshal : Response -> option bytes) (resp_unmarshal : bytes -> option Response).

Definition SendHello (h : Hello) : result HandshakeErr bytes :=
  send_message hello_marshal
    (if decide (h_Type h = "")
     then mkHello TypeRedeem (h_Code h) (h_PeerID h) (h_PublicKey h) (h_Addresses h) (h_DisplayName h) else h).
Definition ReadHello (b : bytes) : result HandshakeErr Hello := read_message hello_unmarshal b.
Definition SendResponse (r : Response) : result HandshakeErr bytes := send_message resp_marshal r.
Definition ReadResponse (b : bytes) : result HandshakeErr Response := read_message resp_unmarshal b.
End handshake.

(** ** The manager *)

Record RedemptionEvent := mkRedemption { re_Code : string; re_RedeemedBy : string; re_RedeemedAt : Z }.

Inductive InvErr :=
| EOptHost | EOptDHT | EOptFriends | EOptStore | EOptIdentity
| EGenerating | EMarshalOwnKey | ESigningURL (e : UrlErr)
| EFetching | EDecoding (e : RecordErr) | EDecodingKey | EParsingKey | EVerifying (e : RecordErr)
| EDerivingID | ERecordPeerID
| EParsingURL (e : UrlErr) | ErrExpired | EVerifyingURL (e : UrlErr)
| EOpeningStream | ESendingHello (e : HandshakeErr) | EReadingResponse (e : HandshakeErr)
| ERejected (reason : string) | EUnexpectedType (t : string) | EAddingFriend (e : FriendsStore.StoreErr).

(** Why a record could not be published. *)
Inductive DHTErr := EEncodingRecord (e : RecordErr) | EPublishing.

(** The mutable parts behind a manager: its store, the friends store, their
    files, and the redemption subscribers per code. *)
Record State := mkState {
  st_store : InviteStore.Store;
  st_friends : FriendsStore.Store;
  st_fs : gmap string bytes;
  st_subs : gmap string (list nat);
  st_chans : list (Chan RedemptionEvent) }.

(** What the surroundings answer to one step: the clock (nanoseconds), the
    writes of the two stores and the order in which the flush ranges. *)
Record Env := mkEnv {
  ev_now : Z;
  ev_store_os : Os;
  ev_order : list Entry;
  ev_friends_os : Os }.

Section manager.
Context `{Crypto, !Keys _, Dht}.
Context (unicode_upper unicode_lower : string -> string).
Context (rec_marshal : InviteRecord.Record_ -> option bytes) (rec_unmarshal : bytes -> option InviteRecord.Record_).
Context (store_marshal : Z -> list Entry -> option bytes) (friends_marshal : list Friend -> option bytes).
Context (hello_marshal : Hello -> option bytes) (hello_unmarshal : bytes -> option Hello).
Context (resp_marshal : Response -> option bytes) (resp_unmarshal : bytes -> option Response).
Context {Multiaddr : Type} (NewMultiaddr : string -> option Multiaddr) (MultiaddrString : Multiaddr -> string).

Record ManagerOptions := mkManagerOptions {
  o_Host : option string;
  o_DHT : bool;
  o_Friends : bool;
  o_Store : bool;
  o_Identity : option PrivKey;
  o_IdentityPub : option PubKey;
  o_DisplayName : string;
  o_AddressProvider : bool }.

(** The host is known by its peer id; [mg_hostAddrs] says that addresses come
    from the host itself. *)
Record Manager := mkManager {
  mg_ID : string;
  mg_priv : PrivKey;
  mg_pub : PubKey;
  mg_displayName : string;
  mg_hostAddrs : bool }.

Definition NewManager (opts : ManagerOptions) : result InvErr Manager :=
  match o_Host opts with
  | None => Err EOptHost
  | Some id =>
      if negb (o_DHT opts) then Err EOptDHT
      else if negb (o_Friends opts) then Err EOptFriends
      else if negb (o_Store opts) then Err EOptStore
      else match o_Identity opts, o_IdentityPub opts with
      | Some priv, Some pub => Ok (mkManager id priv pub (o_DisplayName opts) (negb (o_AddressProvider opts)))
      | _, _ => Err EOptIdentity
      end
  end.

(** [invite/record.go]'s derived keys. *)
Definition inviteKeyPrefix : string := "/opencom-invite/v1/".
Definition inviteKeyDomain : string := "opencom-invite-v1".
Definition inviteKeyInfo : string := "opencom-invite-record-v1".
Definition DeriveDHTKey (c : Code) : string :=
  inviteKeyPrefix +:+ hex_encode (sha256 (str_bytes inviteKeyDomain ++ str_bytes c)).
Definition DeriveEncryptionKey (c : Code) : bytes := take 32 (hkdf (str_bytes c) (str_bytes inviteKeyInfo)).

(** The key operations as [url.go] uses them, on strings of bytes. *)
Definition bytes_str (b : bytes) : string := String.string_of_list_ascii (of_chr <$> b).
Definition url_sign (sk : PrivKey) (msg : string) : option string := bytes_str <$> Sign sk (str_bytes msg).
Definition url_verify (pk : PubKey) (msg sig : string) : option bool := Verify pk (str_bytes msg) (str_bytes sig).
Definition url_id (pk : PubKey) : option string := ID_String <$> IDFromPublicKey pk.

Definition addrStrings (ms : list Multiaddr) : list string := MultiaddrString <$> ms.
Definition parseAddrs (strs : list string) : list Multiaddr := omap NewMultiaddr strs.

Record CreateResult := mkCreateResult {
  cr_Code : Code;
  cr_URL : string;
  cr_ExpiresAt : Z;
  cr_DHTPublishErr : option DHTErr }.

Definition capTTL (ttl : Z) : Z := if decide (ttl <= 0 ∨ MaxTTL < ttl)%Z then MaxTTL else ttl.

(** [Unix] of an instant in nanoseconds. *)
Definition Unix (t : Z) : Z := (t / 10 ^ 9)%Z.

Definition store_add (e : Env) (en : Entry) (st : State) : State :=
  let '(s, fs) := InviteStore.Add store_marshal (ev_store_os e) (ev_order e) en (st_store st) (st_fs st) in
  mkState s (st_friends st) fs (st_subs st) (st_chans st).

(** [Create]; [rnd] is what the random source gives for the code, [created]
    the clock when the entry is stamped. *)
Definition Create (mg : Manager) (e : Env) (created ttl : Z) (rnd : option (ascii * ascii * ascii * ascii * ascii))
    (nonce : option bytes) (inviteAddrs : list Multiaddr) (d : DhtState) (st : State)
  : State * DhtState * result InvErr CreateResult :=
  let ttl := capTTL ttl in
  match rnd with
  | None => (st, d, Err EGenerating)
  | Some (b0, b1, b2, b3, b4) =>
      let code := InviteCode.Generate b0 b1 b2 b3 b4 in
      let expires := (ev_now e + ttl)%Z in
      match MarshalPublicKey (mg_pub mg) with
      | None => (st, d, Err EMarshalOwnKey)
      | Some pubBytes =>
          let pubB64 := StdEncode pubBytes in
          let addrs := addrStrings inviteAddrs in
          let urlPayload := mkPayload (ID_String (mg_ID mg)) pubB64 addrs (mg_displayName mg) code (Unix expires) "" in
          match SignURL url_sign urlPayload (mg_priv mg) with
          | Err er => (st, d, Err (ESigningURL er))
          | Ok signedURL =>
              let st := store_add e (InviteStore.mkEntry code expires false "" created) st in
              let rec := InviteRecord.mkRecord InviteRecord.RecordVersion (PeerID urlPayload) pubB64 addrs
                           (mg_displayName mg) (Unix expires) in
              let '(d, dhtErr) :=
                match InviteRecord.Encode rec_marshal nonce rec (DeriveEncryptionKey code) (mg_priv mg) with
                | Err er => (d, Some (EEncodingRecord er))
                | Ok blob =>
                    let '(d, ok) := PutValue (DeriveDHTKey code) blob d in
                    (d, if ok then None else Some EPublishing)
                end in
              (st, d, Ok (mkCreateResult code (FormatURL signedURL) expires dhtErr))
          end
      end
  end.

Definition Revoke (e : Env) (c : Code) (st : State) : State * bool :=
  let '(s, fs, b) := InviteStore.Remove store_marshal (ev_store_os e) (ev_order e) c (st_store st) (st_fs st) in
  (mkState s (st_friends st) fs (st_subs st) (st_chans st), b).

(** ** Redemption subscribers *)

Definition SubscribeRedemption (code : string) (st : State) : State * nat :=
  let l := length (st_chans st) in
  (mkState (st_store st) (st_friends st) (st_fs st)
     (<[code := default [] (st_subs st !! code) ++ [l]]> (st_subs st)) (st_chans st ++ [make_chan 4]), l).

Definition UnsubscribeRedemption (code : string) (ch : nat) (st : State) : State :=
  let subs := default [] (st_subs st !! code) in
  match find_index (Nat.eqb ch) subs with
  | None => st
  | Some i =>
      mkState (st_store st) (st_friends st) (st_fs st)
        (<[code := take i subs ++ drop (S i) subs]> (st_subs st)) (st_chans st)
  end.

(** [None] would be a send on a closed channel. *)
Definition fanoutRedemption (ev : RedemptionEvent) (st : State) : option State :=
  chans ← send_all (st_chans st) (default [] (st_subs st !! re_Code ev)) ev;
  Some (mkState (st_store st) (st_friends st) (st_fs st) (st_subs st) chans).

(** ** The inviter's stream handler *)

(** Between the phases other handlers and requests run. *)
Inductive Phase :=
| PhRead
| PhMark (h : Hello)
| PhAdd (h : Hello)
| PhRollback (h : Hello)
| PhReply (h : Hello)
| PhFanout (h : Hello)
| PhDone.

(** A handler: the authenticated remote peer, what reading the hello gives,
    where it stands, and what it has sent. *)
Record Handler := mkHandler {
  hd_remote : string;
  hd_input : result HandshakeErr Hello;
  hd_phase : Phase;
  hd_sent : option Response }.

Definition new_handler (remote : string) (input : result HandshakeErr Hello) : Handler :=
  mkHandler remote input PhRead None.

Definition goto (p : Phase) (hd : Handler) : Handler := mkHandler (hd_remote hd) (hd_input hd) p (hd_sent hd).
Definition send (r : Response) (p : Phase) (hd : Handler) : Handler :=
  mkHandler (hd_remote hd) (hd_input hd) p (Some r).

(** The tests before the code is consumed: the reason of the refusal. *)
Definition refuse (now : Z) (remote : string) (h : Hello) (s : InviteStore.Store) : option string :=
  match InviteStore.Get (h_Code h) s with
  | None => Some "unknown code"
  | Some entry =>
      if InviteStore.Consumed entry then Some "code already consumed"
      else if (InviteStore.ExpiresAt entry <? now)%Z then Some "code expired"
      else match StdDecode (h_PublicKey h) with
      | None => Some "invalid public key encoding"
      | Some inviteePubBytes =>
          match UnmarshalPublicKey inviteePubBytes with
          | None => Some "invalid public key"
          | Some inviteePub =>
              match IDFromPublicKey inviteePub with
              | None => Some "cannot derive peer id"
              | Some derivedID =>
                  if decide (derivedID ≠ remote) then Some "peer id / public key mismatch" else None
              end
          end
      end
  end.

Definition invitee (now : Z) (remote : string) (h : Hello) : Friend :=
  FriendsStore.mkFriend (h_DisplayName h) remote (h_PublicKey h) now "".

(** One phase of [handleStream]. *)
Definition handle_step (mg : Manager) (e : Env) (hd : Handler) (st : State) : option (Handler * State) :=
  let remote := hd_remote hd in
  match hd_phase hd with
  | PhRead =>
      match hd_input hd with
      | Err _ => Some (goto PhDone hd, st)
      | Ok hello =>
          if decide (h_Type hello ≠ TypeRedeem) then Some (send (Reject "unexpected hello type") PhDone hd, st)
          else match refuse (ev_now e) remote hello (st_store st) with
          | Some reason => Some (send (Reject reason) PhDone hd, st)
          | None => Some (goto (PhMark hello) hd, st)
          end
      end
  | PhMark hello =>
      let '(s, fs, ok) := InviteStore.MarkConsumed store_marshal (ev_store_os e) (ev_order e) (ev_now e)
        (h_Code hello) (ID_String remote) (st_store st) (st_fs st) in
      let st' := mkState s (st_friends st) fs (st_subs st) (st_chans st) in
      if negb ok then Some (send (Reject "code already consumed") PhDone hd, st')
      else Some (goto (PhAdd hello) hd, st')
  | PhAdd hello =>
      let '(fr, fs, err) := FriendsStore.Add friends_marshal (ev_friends_os e) (invitee (ev_now e) remote hello)
        (st_friends st) (st_fs st) in
      let st' := mkState (st_store st) fr fs (st_subs st) (st_chans st) in
      Some (goto (if err then PhRollback hello else PhReply hello) hd, st')
  | PhRollback hello =>
      let '(s, fs) := InviteStore.UnmarkConsumed store_marshal (ev_store_os e) (ev_order e) (h_Code hello)
        (st_store st) (st_fs st) in
      Some (send (Reject "failed to add invitee") PhDone hd, mkState s (st_friends st) fs (st_subs st) (st_chans st))
  | PhReply hello =>
      match MarshalPublicKey (mg_pub mg) with
      | None => Some (send (Reject "internal error") PhDone hd, st)
      | Some ourPubBytes =>
          Some (send (mkResponse TypeAccept (ID_String (mg_ID mg)) (StdEncode ourPubBytes) (mg_displayName mg) "")
            (PhFanout hello) hd, st)
      end
  | PhFanout hello =>
      st ← fanoutRedemption (mkRedemption (h_Code hello) (ID_String remote) (ev_now e)) st;
      Some (goto PhDone hd, st)
  | PhDone => Some (hd, st)
  end.

(** The longest path through the phases. *)
Definition handler_phases : nat := 5.

Fixpoint run_handler (fuel : nat) (mg : Manager) (env : nat -> Env) (hd : Handler) (st : State)
  : option (Handler * State) :=
  match fuel with
  | 0 => Some (hd, st)
  | S fuel =>
      '(hd, st) ← handle_step mg (env fuel) hd st;
      run_handler fuel mg env hd st
  end.

(** [handleStream] with nothing else running: the response it sends, if any. *)
Definition handleStream (mg : Manager) (env : nat -> Env) (remote : string) (input : bytes) (st : State)
  : option (option Response * State) :=
  '(hd, st) ← run_handler handler_phases mg env (new_handler remote (ReadHello hello_unmarshal input)) st;
  Some (hd_sent hd, st).

(** ** The redeemer's side *)

(** What [NewStream] and the stream give: no stream, a stream that cannot be
    written, or one on which the peer answers the bytes it was sent. *)
Inductive Conn := NoStream | WriteFails | Answers (serve : bytes -> bytes).

Definition redeem_hello (mg : Manager) (ourPubBytes : string) (c : Code) (inviteAddrs : list Multiaddr) : Hello :=
  mkHello TypeRedeem c (ID_String (mg_ID mg)) (StdEncode ourPubBytes) (addrStrings inviteAddrs) (mg_displayName mg).

(** [dial] is given the addresses put in the peer store for the inviter. *)
Definition dialAndHandshake (mg : Manager) (e : Env) (dial : list Multiaddr -> string -> Conn)
    (inviteAddrs : list Multiaddr) (c : Code) (inviterID : string) (inviterAddrs : list string)
    (inviterPubKeyB64 : string) (st : State) : State * result InvErr Friend :=
  match dial (parseAddrs inviterAddrs) inviterID with
  | NoStream => (st, Err EOpeningStream)
  | conn =>
      match MarshalPublicKey (mg_pub mg) with
      | None => (st, Err EMarshalOwnKey)
      | Some ourPubBytes =>
          match SendHello hello_marshal (redeem_hello mg ourPubBytes c inviteAddrs), conn with
          | Err er, _ => (st, Err (ESendingHello er))
          | Ok _, (NoStream | WriteFails) => (st, Err (ESendingHello EWriting))
          | Ok request, Answers serve =>
              match ReadResponse resp_unmarshal (serve request) with
              | Err er => (st, Err (EReadingResponse er))
              | Ok resp =>
                  if decide (r_Type resp = TypeReject) then (st, Err (ERejected (r_Reason resp)))
                  else if decide (r_Type resp ≠ TypeAccept) then (st, Err (EUnexpectedType (r_Type resp)))
                  else
                    let added := FriendsStore.mkFriend (r_DisplayName resp) inviterID inviterPubKeyB64 (ev_now e) "" in
                    let '(fr, fs, err) := FriendsStore.Add friends_marshal (ev_friends_os e) added
                      (st_friends st) (st_fs st) in
                    (mkState (st_store st) fr fs (st_subs st) (st_chans st),
                     match err with Some er => Err (EAddingFriend er) | None => Ok added end)
              end
          end
      end
  end.

Definition decodePubKey (b64 : string) : result InvErr PubKey :=
  pubBytes ← of_option EDecodingKey (StdDecode b64);
  of_option EParsingKey (UnmarshalPublicKey pubBytes).

(** The checks of [Redeem]: the inviter's id and the verified record. *)
Definition redeem_record (now : Z) (c : Code) (d : DhtState) : result InvErr (string * InviteRecord.Record_) :=
  let encKey := DeriveEncryptionKey c in
  blob ← of_option EFetching (GetValue (DeriveDHTKey c) d);
  rawRec ← map_err EDecoding (InviteRecord.DecodeUnverified rec_unmarshal blob encKey);
  inviterPub ← decodePubKey (InviteRecord.PublicKey rawRec);
  rec ← map_err EVerifying (InviteRecord.Decode rec_unmarshal now blob encKey inviterPub);
  inviterID ← of_option EDerivingID (IDFromPublicKey inviterPub);
  if decide (InviteRecord.PeerID rec ≠ ID_String inviterID) then Err ERecordPeerID
  else Ok (inviterID, rec).

Definition Redeem (mg : Manager) (e : Env) (dial : list Multiaddr -> string -> Conn) (inviteAddrs : list Multiaddr)
    (c : Code) (d : DhtState) (st : State) : State * result InvErr Friend :=
  match redeem_record (Unix (ev_now e)) c d with
  | Err er => (st, Err er)
  | Ok (inviterID, rec) =>
      dialAndHandshake mg e dial inviteAddrs c inviterID (InviteRecord.Addresses rec) (InviteRecord.PublicKey rec) st
  end.

(** The checks of [RedeemURL]: the inviter's id and the payload. *)
Definition redeem_payload (now : Z) (urlStr : string) : result InvErr (string * URLPayload) :=
  payload ← map_err EParsingURL (ParseURL unicode_upper unicode_lower urlStr);
  if decide (0 < ExpiresAt payload ∧ ExpiresAt payload < now)%Z then Err ErrExpired
  else
    inviterPub ← map_err EVerifyingURL (VerifyURL url_verify UnmarshalPublicKey url_id payload);
    inviterID ← of_option EDerivingID (IDFromPublicKey inviterPub);
    Ok (inviterID, payload).

Definition RedeemURL (mg : Manager) (e : Env) (dial : list Multiaddr -> string -> Conn)
    (inviteAddrs : list Multiaddr) (urlStr : string) (st : State) : State * result InvErr Friend :=
  match redeem_payload (Unix (ev_now e)) urlStr with
  | Err er => (st, Err er)
  | Ok (inviterID, payload) =>
      dialAndHandshake mg e dial inviteAddrs (pl_Code payload) inviterID (Addresses payload) (PublicKey payload) st
  end.

(** ** Interleavings on the inviter's side *)

Record Sys := mkSys {
  y_st : State;
  y_handlers : list Handler;
  y_used : list Code }.

Inductive sys_step (mg : Manager) : relation Sys :=
| step_connect remote input y :
    sys_step mg y (mkSys (y_st y) (y_handlers y ++ [new_handler remote input]) (y_used y))
| step_handler i e hd hd' st' y :
    y_handlers y !! i = Some hd -> handle_step mg e hd (y_st y) = Some (hd', st') ->
    sys_step mg y (mkSys st' (<[i := hd']> (y_handlers y)) (y_used y))
| step_create e en y :
    (* a code drawn for the first time *)
    InviteStore.e_Code en ∉ y_used y -> InviteStore.Consumed en = false ->
    sys_step mg y (mkSys (store_add e en (y_st y)) (y_handlers y) (InviteStore.e_Code en :: y_used y))
| step_revoke e c y : sys_step mg y (mkSys (Revoke e c (y_st y)).1 (y_handlers y) (y_used y))
| step_subscribe code y :
    sys_step mg y (mkSys (SubscribeRedemption code (y_st y)).1 (y_handlers y) (y_used y))
| step_unsubscribe code ch y :
    sys_step mg y (mkSys (UnsubscribeRedemption code ch (y_st y)) (y_handlers y) (y_used y)).

(** [used]: the codes the store already knows. *)
Definition sys_init (st : State) (used : list Code) : Sys := mkSys st [] used.

Definition accepted (hd : Handler) : Prop := ∃ r, hd_sent hd = Some r ∧ r_Type r = TypeAccept.

Definition code_of (hd : Handler) : option Code :=
  match hd_input hd with Ok h => Some (h_Code h) | Err _ => None end.

(** A handler that has consumed its code and not given it back. *)
Definition holds (c : Code) (hd : Handler) : Prop :=
  code_of hd = Some c ∧
  (accepted hd ∨ match hd_phase hd with PhAdd _ | PhRollback _ | PhReply _ => True | _ => False end).

(** ** Lemmas *)

(** The invitee's key belongs to the authenticated peer. *)
Definition valid_key (remote : string) (h : Hello) : Prop :=
  ∃ pb pub, StdDecode (h_PublicKey h) = Some pb ∧ UnmarshalPublicKey pb = Some pub ∧ IDFromPublicKey pub = Some remote.

Definition befriended (st : State) (remote : string) (h : Hello) : Prop :=
  ∃ now, invitee now remote h ∈ FriendsStore.friends (st_friends st).

Definition subs_ok (st : State) : Prop :=
  ∀ code l, l ∈ default [] (st_subs st !! code) -> open_at (st_chans st) l.

Definition handler_ok (st : State) (hd : Handler) : Prop :=
  match hd_phase hd with
  | PhRead => hd_sent hd = None
  | PhMark h | PhAdd h | PhRollback h => hd_sent hd = None ∧ hd_input hd = Ok h ∧ valid_key (hd_remote hd) h
  | PhReply h =>
      hd_sent hd = None ∧ hd_input hd = Ok h ∧ valid_key (hd_remote hd) h ∧ befriended st (hd_remote hd) h
  | PhFanout h => hd_input hd = Ok h ∧ valid_key (hd_remote hd) h ∧ befriended st (hd_remote hd) h
  | PhDone => accepted hd -> ∃ h, hd_input hd = Ok h ∧ valid_key (hd_remote hd) h ∧ befriended st (hd_remote hd) h
  end.

Lemma refuse_None now remote h s :
  refuse now remote h s = None ->
  (∃ e, InviteStore.Get (h_Code h) s = Some e ∧ InviteStore.Consumed e = false ∧ (now <= InviteStore.ExpiresAt e)%Z) ∧
  valid_key remote h.
Proof.
  unfold refuse. destruct (InviteStore.Get (h_Code h) s) as [e|]; [|done].
  destruct (InviteStore.Consumed e) eqn:Hc; [done|]. destruct (Z.ltb_spec (InviteStore.ExpiresAt e) now); [done|].
  destruct (StdDecode (h_PublicKey h)) as [pb|] eqn:Hpb; [|done].
  destruct (UnmarshalPublicKey pb) as [pub|] eqn:Hpub; [|done].
  destruct (IDFromPublicKey pub) as [id|] eqn:Hid; [|done]. case_decide as Hd; [done|]. intros _.
  split; [by exists e|]. exists pb, pub. split_and!; [done|done|]. congruence.
Qed.

(** The friends store only grows. *)
Definition friends_le (st st' : State) : Prop :=
  FriendsStore.friends (st_friends st) ⊆ FriendsStore.friends (st_friends st').

Lemma befriended_le st st' remote h : friends_le st st' -> befriended st remote h -> befriended st' remote h.
Proof. intros Hle [now Hin]. exists now. by apply Hle. Qed.

Lemma handler_ok_le st st' hd : friends_le st st' -> handler_ok st hd -> handler_ok st' hd.
Proof.
  clear hello_marshal hello_unmarshal resp_marshal resp_unmarshal rec_marshal rec_unmarshal.
  intros Hle. unfold handler_ok. destruct (hd_phase hd); naive_solver eauto using befriended_le.
Qed.

Lemma friends_Add_spec o f fr fs :
  let r := FriendsStore.Add friends_marshal o f fr fs in
  FriendsStore.friends fr ⊆ FriendsStore.friends r.1.1 ∧ (r.2 = None -> f ∈ FriendsStore.friends r.1.1).
Proof.
  unfold FriendsStore.Add. destruct (FriendsStore.add_conflict f (FriendsStore.friends fr)) as [e|]; simpl; [done|].
  rewrite FriendsStore.persisted_store. simpl. split; [set_solver|]. intros _. set_solver.
Qed.

(** What one phase does to the entries and to the handler's hold on its code. *)
Inductive entries_step (hd hd' : Handler) (m m' : gmap Code Entry) : Prop :=
| es_same : m' = m -> (∀ c, holds c hd' -> holds c hd) -> entries_step hd hd' m m'
| es_mark c e b : code_of hd = Some c -> m !! c = Some e -> InviteStore.Consumed e = false ->
    m' = <[c := InviteStore.consume b e]> m -> entries_step hd hd' m m'
| es_rollback c e : holds c hd -> (∀ c', ¬ holds c' hd') -> m !! c = Some e ->
    m' = <[c := InviteStore.unconsume e]> m -> entries_step hd hd' m m'.

Definition entries_of (st : State) : gmap Code Entry := InviteStore.entries (st_store st).

Lemma not_accepted hd : hd_sent hd = None -> ¬ accepted hd.
Proof. intros H1 (r & H2 & _). congruence. Qed.

Lemma holds_done c reason hd : ¬ holds c (send (Reject reason) PhDone hd).
Proof. intros [_ [(r & [= <-] & Ht)|[]]]. done. Qed.

Lemma done_ok st reason hd : handler_ok st (send (Reject reason) PhDone hd).
Proof. unfold handler_ok. simpl. intros (r & [= <-] & Ht). done. Qed.

Lemma fanout_ok ev st : subs_ok st -> ∃ chans, fanoutRedemption ev st =
  Some (mkState (st_store st) (st_friends st) (st_fs st) (st_subs st) chans) ∧
  ∀ l, open_at (st_chans st) l -> open_at chans l.
Proof.
  intros Hok. unfold fanoutRedemption.
  assert (∀ ls heap, (∀ l, l ∈ ls -> open_at heap l) -> ∃ heap', send_all heap ls ev = Some heap' ∧
    ∀ l, open_at heap l -> open_at heap' l) as Hsend.
  { induction ls as [|l ls IH]; intros heap Hl; simpl; [by eexists|].
    destruct (Hl l (list_elem_of_here _ _)) as (c & Hc & Hcl). unfold send_at. rewrite Hc. simpl.
    rewrite try_send_open by done. simpl.
    assert (∀ k, open_at heap k -> open_at (<[l := pushed ev c]> heap) k) as Hkeep.
    { intros k (ck & Hk & Hck). destruct (decide (k = l)) as [->|Hne].
      - exists (pushed ev c). rewrite pushed_closed. split; [|done].
        apply list_lookup_insert_eq. by eapply lookup_lt_Some.
      - exists ck. split; [|done]. by rewrite list_lookup_insert_ne. }
    destruct (IH (<[l := pushed ev c]> heap)) as (heap' & -> & Hh).
    { intros k Hk. apply Hkeep, Hl. by right. }
    exists heap'. split; [done|]. auto. }
  destruct (Hsend (default [] (st_subs st !! re_Code ev)) (st_chans st)) as (chans & -> & Hc); [apply Hok|].
  exists chans. done.
Qed.

(** The outcome of one phase, whatever happens around it. *)
Definition step_ok (hd : Handler) (st : State) (hd' : Handler) (st' : State) : Prop :=
  handler_ok st' hd' ∧ subs_ok st' ∧ friends_le st st' ∧ code_of hd' = code_of hd ∧
  entries_step hd hd' (entries_of st) (entries_of st').

Lemma friends_le_same st st' : st_friends st = st_friends st' -> friends_le st st'.
Proof. unfold friends_le. by intros ->. Qed.

Ltac split_step := split; [|split; [|split; [|split]]].

Lemma step_ok_send hd st reason :
  subs_ok st -> step_ok hd st (send (Reject reason) PhDone hd) st.
Proof.
  intros Hs. split; [apply done_ok|]. split_and!; [done|by apply friends_le_same|done|].
  apply es_same; [done|]. by intros c ?%holds_done.
Qed.

Lemma handle_read_ok mg e hd st :
  hd_phase hd = PhRead -> handler_ok st hd -> subs_ok st ->
  ∃ hd' st', handle_step mg e hd st = Some (hd', st') ∧ step_ok hd st hd' st'.
Proof.
  intros Hph Hok Hs. unfold handler_ok in Hok. unfold handle_step. rewrite Hph in *.
  destruct (hd_input hd) as [h|] eqn:Hin.
  - case_decide; [eexists _, _; split; [done|by apply step_ok_send]|].
    destruct (refuse (ev_now e) (hd_remote hd) h (st_store st)) as [reason|] eqn:Hr;
      (eexists _, _; split; [done|]); [by apply step_ok_send|].
    apply refuse_None in Hr as [_ Hv].
    split_step; [by split_and!|done|by apply friends_le_same|done|]. apply es_same; [done|].
    intros c [Hc [Ha|Hp]]; [by apply not_accepted in Ha|done].
  - eexists _, _; split; [done|]. split_and!; [|done|by apply friends_le_same|done|].
    + intros Ha. by apply not_accepted in Ha.
    + apply es_same; [done|]. intros c [Hc [Ha|Hp]]; [by apply not_accepted in Ha|done].
Qed.

Lemma handle_mark_ok mg e hd st h :
  hd_phase hd = PhMark h -> handler_ok st hd -> subs_ok st ->
  ∃ hd' st', handle_step mg e hd st = Some (hd', st') ∧ step_ok hd st hd' st'.
Proof.
  intros Hph Hok Hs. unfold handler_ok in Hok. unfold handle_step. rewrite Hph in *.
  destruct Hok as (Hsent & Hin & Hv). unfold InviteStore.MarkConsumed, InviteStore.flushed.
  rewrite InviteStore.MarkConsumed_spec.
  destruct (InviteStore.entries (st_store st) !! h_Code h) as [en|] eqn:He; [case_decide as Hd|]; simpl.
  - eexists _, _; split; [done|]. split_step; [by split_and!|done|by apply friends_le_same|done|].
    apply (es_mark _ _ _ _ (h_Code h) en (ID_String (hd_remote hd)));
      [unfold code_of; by rewrite Hin|done|apply Hd|done].
  - eexists _, _; split; [done|]. destruct st. by apply step_ok_send.
  - eexists _, _; split; [done|]. destruct st. by apply step_ok_send.
Qed.

Lemma handle_add_ok mg e hd st h :
  hd_phase hd = PhAdd h -> handler_ok st hd -> subs_ok st ->
  ∃ hd' st', handle_step mg e hd st = Some (hd', st') ∧ step_ok hd st hd' st'.
Proof.
  intros Hph Hok Hs. unfold handler_ok in Hok. unfold handle_step. rewrite Hph in *.
  destruct Hok as (Hsent & Hin & Hv).
  pose proof (friends_Add_spec (ev_friends_os e) (invitee (ev_now e) (hd_remote hd) h) (st_friends st) (st_fs st))
    as [Hle Hadd].
  destruct (FriendsStore.Add _ _ _ _ _) as [[fr fs] err]. simpl in *.
  assert (∀ p, (match p with PhAdd _ | PhRollback _ | PhReply _ => True | _ => False end) ->
    ∀ c, holds c (goto p hd) -> holds c hd) as Hhold.
  { intros p Hp c [Hc _]. split; [done|]. right. by rewrite Hph. }
  eexists _, _; split; [done|]. destruct err as [er|]; (split_step; [|done|exact Hle|done|apply es_same; [done|by apply Hhold]]).
  - by split_and!.
  - unfold handler_ok. simpl. split_and!; [done..|]. exists (ev_now e). by apply Hadd.
Qed.

Lemma handle_rollback_ok mg e hd st h :
  hd_phase hd = PhRollback h -> handler_ok st hd -> subs_ok st ->
  ∃ hd' st', handle_step mg e hd st = Some (hd', st') ∧ step_ok hd st hd' st'.
Proof.
  intros Hph Hok Hs. unfold handler_ok in Hok. unfold handle_step. rewrite Hph in *.
  destruct Hok as (Hsent & Hin & Hv). unfold InviteStore.UnmarkConsumed, InviteStore.flushed.
  unfold InviteStore.UnmarkConsumed_commit.
  destruct (InviteStore.entries (st_store st) !! h_Code h) as [en|] eqn:He; [destruct (InviteStore.Consumed en)|]; simpl;
    (eexists _, _; split; [done|]); [|destruct st; by apply step_ok_send..].
  split_step; [apply done_ok|done|by apply friends_le_same|done|].
  apply (es_rollback _ _ _ _ (h_Code h) en); [|by intros c' ?%holds_done|done|done].
  split; [unfold code_of; by rewrite Hin|]. right. by rewrite Hph.
Qed.

Lemma handle_reply_ok mg e hd st h :
  hd_phase hd = PhReply h -> handler_ok st hd -> subs_ok st ->
  ∃ hd' st', handle_step mg e hd st = Some (hd', st') ∧ step_ok hd st hd' st'.
Proof.
  intros Hph Hok Hs. unfold handler_ok in Hok. unfold handle_step. rewrite Hph in *.
  destruct Hok as (Hsent & Hin & Hv & Hb).
  destruct (MarshalPublicKey (mg_pub mg)); (eexists _, _; split; [done|]); [|by apply step_ok_send].
  split_step; [by split_and!|done|by apply friends_le_same|done|]. apply es_same; [done|].
  intros c [Hc _]. split; [done|]. right. by rewrite Hph.
Qed.

Lemma handle_fanout_ok mg e hd st h :
  hd_phase hd = PhFanout h -> handler_ok st hd -> subs_ok st ->
  ∃ hd' st', handle_step mg e hd st = Some (hd', st') ∧ step_ok hd st hd' st'.
Proof.
  intros Hph Hok Hs. unfold handler_ok in Hok. unfold handle_step. rewrite Hph in *.
  destruct (fanout_ok (mkRedemption (h_Code h) (ID_String (hd_remote hd)) (ev_now e)) st Hs) as (chans & -> & Hc).
  cbn [mbind option_bind]. eexists _, _; split; [done|]. split_step; [|intros code l Hl; by apply Hc, (Hs code)|by apply friends_le_same|done|].
  - intros _. by exists h.
  - apply es_same; [done|]. intros c [Hcode [Ha|[]]]. split; [done|by left].
Qed.

Lemma handle_step_ok mg e hd st :
  handler_ok st hd -> subs_ok st ->
  ∃ hd' st', handle_step mg e hd st = Some (hd', st') ∧ step_ok hd st hd' st'.
Proof.
  intros Hok Hs. destruct (hd_phase hd) as [|h|h|h|h|h|] eqn:Hph;
    eauto using handle_read_ok, handle_mark_ok, handle_add_ok, handle_rollback_ok, handle_reply_ok, handle_fanout_ok.
  unfold handle_step. rewrite Hph. eexists _, _; split; [done|]. split_step; try done; [by apply friends_le_same|by apply es_same].
Qed.

Record inv (y : Sys) : Prop := {
  inv_uniq : ∀ i j hi hj c, y_handlers y !! i = Some hi -> y_handlers y !! j = Some hj ->
    holds c hi -> holds c hj -> i = j;
  inv_cons : ∀ i hd c e, y_handlers y !! i = Some hd -> holds c hd -> entries_of (y_st y) !! c = Some e ->
    InviteStore.Consumed e = true;
  inv_used : ∀ c, is_Some (entries_of (y_st y) !! c) ∨
      (∃ i hd, y_handlers y !! i = Some hd ∧ holds c hd) -> c ∈ y_used y;
  inv_valid : ∀ i hd, y_handlers y !! i = Some hd -> handler_ok (y_st y) hd;
  inv_subs : subs_ok (y_st y) }.

(** Steps that change neither handlers nor entries, or only drop entries. *)
Lemma inv_drop st' y :
  (∀ c e, entries_of st' !! c = Some e -> entries_of (y_st y) !! c = Some e) ->
  st_friends st' = st_friends (y_st y) -> subs_ok st' ->
  inv y -> inv (mkSys st' (y_handlers y) (y_used y)).
Proof.
  intros Hent Hfr Hsubs [Huniq Hcons Hused Hvalid _]. split; simpl; [done| | | |done].
  - eauto.
  - intros c [[e He]|Hh]; apply Hused; [left; eauto|by right].
  - intros i hd Hi. eapply handler_ok_le; [|by eapply Hvalid]. by apply friends_le_same.
Qed.

Lemma inv_connect remote input y :
  inv y -> inv (mkSys (y_st y) (y_handlers y ++ [new_handler remote input]) (y_used y)).
Proof.
  intros [Huniq Hcons Hused Hvalid Hsubs].
  assert (∀ i hd, (y_handlers y ++ [new_handler remote input]) !! i = Some hd ->
    y_handlers y !! i = Some hd ∨ hd = new_handler remote input) as Hl.
  { intros i hd [?|[_ Hx]]%lookup_app_Some; [by left|right].
    apply list_lookup_singleton_Some in Hx as [_ <-]. done. }
  assert (∀ c, ¬ holds c (new_handler remote input)) as Hn.
  { intros c [_ [(r & Hr & _)|[]]]. done. }
  split; simpl; [| | | |done].
  - intros i j hi hj c [Hi| ->]%Hl [Hj| ->]%Hl Hci Hcj; try (by edestruct Hn). eauto.
  - intros i hd c e [Hi| ->]%Hl Hc; [eauto|by edestruct Hn].
  - intros c [He|(i & hd & [Hi| ->]%Hl & Hc)]; apply Hused; [by left|right; eauto|by edestruct Hn].
  - intros i hd [Hi| ->]%Hl; [eauto|done].
Qed.

Lemma inv_handler i hd hd' st' y :
  y_handlers y !! i = Some hd -> step_ok hd (y_st y) hd' st' ->
  inv y -> inv (mkSys st' (<[i := hd']> (y_handlers y)) (y_used y)).
Proof.
  intros Hi (Hok & Hsubs & Hle & Hcode & Hes) [Huniq Hcons Hused Hvalid _].
  assert (∀ j hj, <[i := hd']> (y_handlers y) !! j = Some hj ->
    (j = i ∧ hj = hd') ∨ (j ≠ i ∧ y_handlers y !! j = Some hj)) as Hl.
  { intros j hj Hj. destruct (decide (j = i)) as [->|Hne].
    - left. rewrite list_lookup_insert_eq in Hj by (by eapply lookup_lt_Some). by simplify_eq.
    - right. by rewrite list_lookup_insert_ne in Hj. }
  (* what the handler holds afterwards it held before, or nobody did *)
  assert (∀ c, holds c hd' -> holds c hd ∨ (∀ j hj, y_handlers y !! j = Some hj -> ¬ holds c hj) ∧
    is_Some (entries_of (y_st y) !! c)) as Hhold.
  { intros c Hc. destruct Hes as [_ Hsame|c0 e b Hc0 He Hcons0 _|c0 e _ Hno _ _]; [left; auto| |by edestruct Hno].
    destruct Hc as [Hcc _]. rewrite Hcode, Hc0 in Hcc. simplify_eq. right. split; [|by eexists].
    intros j hj Hj Hh. specialize (Hcons _ _ _ _ Hj Hh He). congruence. }
  assert (∀ c e, entries_of st' !! c = Some e ->
    entries_of (y_st y) !! c = Some e ∨ (is_Some (entries_of (y_st y) !! c) ∧
      (InviteStore.Consumed e = true ∨ (∀ c', ¬ holds c' hd') ∧ holds c hd))) as Hent.
  { intros c e He. destruct Hes as [Heq _|c0 e0 b Hc0 He0 Hcons0 Heq|c0 e0 Hh Hno He0 Heq]; rewrite Heq in He; [by left|..];
      (apply lookup_insert_Some in He as [[<- <-]|[_ He]]; [right|by left]); (split; [by eexists|]);
      [by left|by right]. }
  split; simpl; [| | | |done].
  - intros j k hj hk c [[-> ->]|[Hj1 Hj2]]%Hl [[-> ->]|[Hk1 Hk2]]%Hl Hcj Hck; [done| | |eauto].
    + exfalso. destruct (Hhold c Hcj) as [Hh|[Hno _]]; [|by eapply Hno]. eapply Hk1. by eapply Huniq.
    + exfalso. destruct (Hhold c Hck) as [Hh|[Hno _]]; [|by eapply Hno]. eapply Hj1. by eapply Huniq.
  - intros j hj c e [[-> ->]|[Hj1 Hj2]]%Hl Hc He; destruct (Hent c e He) as [He'|[_ [?|[Hno Hh]]]]; try done.
    + destruct (Hhold c Hc) as [Hh|[Hno _]]; [eauto|].
      destruct Hes as [Heq Hsame|c0 e0 b Hc0 He0 Hcons0 Heq|c0 e0 _ Hno' _ _]; [eauto| |by edestruct Hno'].
      destruct Hc as [Hcc _]. rewrite Hcode, Hc0 in Hcc. simplify_eq. rewrite Heq, lookup_insert_eq in He.
      apply (f_equal (fmap InviteStore.Consumed)) in He. simpl in He. congruence.
    + by edestruct Hno.
    + eauto.
    + exfalso. eapply Hj1. by eapply Huniq.
  - intros c [[e He]|(j & hj & [[-> ->]|[Hj1 Hj2]]%Hl & Hc)]; apply Hused.
    + left. destruct (Hent c e He) as [?|[? _]]; [by eexists|done].
    + destruct (Hhold c Hc) as [Hh|[_ He]]; [right; eauto|by left].
    + right. eauto.
  - intros j hj [[-> ->]|[Hj1 Hj2]]%Hl; [done|]. eapply handler_ok_le; [done|eauto].
Qed.

Lemma inv_create e en y :
  InviteStore.e_Code en ∉ y_used y ->
  inv y -> inv (mkSys (store_add e en (y_st y)) (y_handlers y) (InviteStore.e_Code en :: y_used y)).
Proof.
  intros Hnew [Huniq Hcons Hused Hvalid Hsubs].
  assert (entries_of (store_add e en (y_st y)) = <[InviteStore.e_Code en := en]> (entries_of (y_st y))) as Hent by done.
  split; simpl; [done| | | |done].
  - intros i hd c en' Hi Hc. rewrite Hent, lookup_insert_Some. intros [[<- <-]|[_ He]]; [|eauto].
    exfalso. apply Hnew, Hused. right. eauto.
  - intros c [[en' He]|Hh]; [|right; by apply Hused; right].
    rewrite Hent, lookup_insert_Some in He. destruct He as [[<- _]|[_ He]]; [by left|].
    right. apply Hused. left. by eexists.
  - intros i hd Hi. eapply handler_ok_le; [|by eapply Hvalid]. by apply friends_le_same.
Qed.

Lemma subs_ok_subscribe code st : subs_ok st -> subs_ok (SubscribeRedemption code st).1.
Proof.
  intros Hok code' l. simpl. destruct (decide (code' = code)) as [->|Hne].
  - rewrite lookup_insert_eq. simpl. rewrite elem_of_app, list_elem_of_singleton. intros [Hl| ->].
    + destruct (Hok code l Hl) as (c & Hc & Hcl). exists c. split; [by apply lookup_app_l_Some|done].
    + exists (make_chan 4). split; [|done]. by rewrite lookup_app_r, Nat.sub_diag.
  - rewrite lookup_insert_ne by done. intros Hl. destruct (Hok code' l Hl) as (c & Hc & Hcl).
    exists c. split; [by apply lookup_app_l_Some|done].
Qed.

Lemma subs_ok_unsubscribe code ch st : subs_ok st -> subs_ok (UnsubscribeRedemption code ch st).
Proof.
  intros Hok. unfold UnsubscribeRedemption.
  destruct (find_index (Nat.eqb ch) (default [] (st_subs st !! code))) as [i|]; [|done].
  intros code' l. simpl. destruct (decide (code' = code)) as [->|Hne].
  - rewrite lookup_insert_eq. simpl. intros Hl. apply (Hok code).
    apply elem_of_app in Hl as [Hl|Hl]; [by eapply subseteq_take|by eapply subseteq_drop].
  - rewrite lookup_insert_ne by done. apply Hok.
Qed.

Lemma inv_step mg y y' : sys_step mg y y' -> inv y -> inv y'.
Proof.
  intros Hstep Hinv. destruct Hstep as [remote input y|i e hd hd' st' y Hi Hs|e en y Hnew Hc|e c y|code y|code ch y].
  - by apply inv_connect.
  - destruct (handle_step_ok mg e hd (y_st y)) as (hd0 & st0 & Heq & Hok);
      [by eapply inv_valid|by apply inv_subs|]. rewrite Hs in Heq. simplify_eq. by eapply inv_handler.
  - by apply inv_create.
  - apply inv_drop; [|done|apply Hinv|done]. intros c0 e0. unfold Revoke, InviteStore.Remove, InviteStore.flushed.
    unfold InviteStore.Remove_commit, entries_of. destruct (_ !! c); simpl; [|done]. by intros [_ ?]%lookup_delete_Some.
  - apply inv_drop; [done|done|apply subs_ok_subscribe, Hinv|done].
  - apply inv_drop; [|..|apply subs_ok_unsubscribe, Hinv|done];
      unfold UnsubscribeRedemption; by destruct (find_index _ _).
Qed.

(** ** One redemption from end to end *)

Definition accept_response (mg : Manager) (pb : string) : Response :=
  mkResponse TypeAccept (ID_String (mg_ID mg)) (StdEncode pb) (mg_displayName mg) "".

(** A handler that meets no obstacle. *)
Lemma handleStream_accepts mg env remote input st h en pb :
  ReadHello hello_unmarshal input = Ok h -> h_Type h = TypeRedeem ->
  refuse (ev_now (env 4)) remote h (st_store st) = None -> entries_of st !! h_Code h = Some en ->
  (ev_now (env 3%nat) <= InviteStore.ExpiresAt en)%Z ->
  (∀ fs, (FriendsStore.Add friends_marshal (ev_friends_os (env 2)) (invitee (ev_now (env 2)) remote h)
           (st_friends st) fs).2 = None) ->
  MarshalPublicKey (mg_pub mg) = Some pb -> subs_ok st ->
  ∃ st', handleStream mg env remote input st = Some (Some (accept_response mg pb), st') ∧
    befriended st' remote h ∧
    InviteStore.Get (h_Code h) (st_store st') = Some (InviteStore.consume (ID_String remote) en).
Proof.
  intros Hin Hty Href Hen Hexp Hadd Hpb Hsubs. unfold handleStream, handler_phases, new_handler. rewrite Hin.
  pose proof (refuse_None _ _ _ _ Href) as [(en' & Hen' & Hcons & _) _].
  change (InviteStore.entries (st_store st) !! h_Code h = Some en') in Hen'. unfold entries_of in Hen. simplify_eq.
  set (at_ p sent := mkHandler remote (Ok h) p sent).
  assert (handle_step mg (env 4) (at_ PhRead None) st = Some (at_ (PhMark h) None, st)) as E4.
  { unfold handle_step. cbn. rewrite decide_False by (intros Hn; by apply Hn). by rewrite Href. }
  set (st3 := mkState (InviteStore.set_entries
    (<[h_Code h := InviteStore.consume (ID_String remote) en]> (InviteStore.entries (st_store st))) (st_store st))
    (st_friends st) (InviteStore.flush_write store_marshal (ev_store_os (env 3)) (InviteStore.path (st_store st))
    (ev_order (env 3)) (st_fs st)) (st_subs st) (st_chans st)).
  assert (handle_step mg (env 3) (at_ (PhMark h) None) st = Some (at_ (PhAdd h) None, st3)) as E3.
  { unfold handle_step. cbn [at_ hd_phase hd_remote]. unfold InviteStore.MarkConsumed, InviteStore.flushed.
    by rewrite InviteStore.MarkConsumed_spec, Hen, decide_True. }
  specialize (Hadd (st_fs st3)).
  pose proof (friends_Add_spec (ev_friends_os (env 2)) (invitee (ev_now (env 2)) remote h) (st_friends st) (st_fs st3))
    as [_ Hfr].
  destruct (FriendsStore.Add friends_marshal (ev_friends_os (env 2)) (invitee (ev_now (env 2)) remote h)
    (st_friends st) (st_fs st3)) as [[fr fs] err] eqn:Hfa. cbn [fst snd] in *. subst err.
  set (st2 := mkState (st_store st3) fr fs (st_subs st) (st_chans st)).
  assert (handle_step mg (env 2) (at_ (PhAdd h) None) st3 = Some (at_ (PhReply h) None, st2)) as E2.
  { unfold handle_step. cbn [at_ hd_phase hd_remote]. change (st_friends st3) with (st_friends st). by rewrite Hfa. }
  assert (handle_step mg (env 1) (at_ (PhReply h) None) st2 =
    Some (at_ (PhFanout h) (Some (accept_response mg pb)), st2)) as E1.
  { unfold handle_step. cbn [at_ hd_phase]. by rewrite Hpb. }
  destruct (fanout_ok (mkRedemption (h_Code h) (ID_String remote) (ev_now (env 0))) st2) as (chans & Hf & _); [exact Hsubs|].
  cbn [run_handler]. fold (at_ PhRead None). rewrite E4. cbn [mbind option_bind]. rewrite E3.
  cbn [mbind option_bind]. rewrite E2. cbn [mbind option_bind]. rewrite E1. cbn [mbind option_bind].
  unfold handle_step. cbn [at_ hd_phase hd_remote]. rewrite Hf. cbn [mbind option_bind goto hd_sent].
  eexists. split; [reflexivity|]. split.
  - exists (ev_now (env 2)). by apply Hfr.
  - unfold InviteStore.Get. cbn [st2 st3 st_store InviteStore.entries InviteStore.set_entries]. apply lookup_insert_eq.
Qed.

(** The redeemer once the inviter has accepted. *)
Lemma dial_accepted mg e dial inviteAddrs c inviterID inviterAddrs key st serve pb pba mga resp request :
  dial (parseAddrs inviterAddrs) inviterID = Answers serve -> MarshalPublicKey (mg_pub mg) = Some pb ->
  SendHello hello_marshal (redeem_hello mg pb c inviteAddrs) = Ok request ->
  ReadResponse resp_unmarshal (serve request) = Ok resp -> resp = accept_response mga pba ->
  (∀ fs, (FriendsStore.Add friends_marshal (ev_friends_os e)
     (FriendsStore.mkFriend (mg_displayName mga) inviterID key (ev_now e) "") (st_friends st) fs).2 = None) ->
  ∃ st', dialAndHandshake mg e dial inviteAddrs c inviterID inviterAddrs key st =
    (st', Ok (FriendsStore.mkFriend (mg_displayName mga) inviterID key (ev_now e) "")) ∧
    FriendsStore.mkFriend (mg_displayName mga) inviterID key (ev_now e) "" ∈ FriendsStore.friends (st_friends st').
Proof.
  intros Hd Hpb Hreq Hresp -> Hadd. unfold dialAndHandshake. rewrite Hd, Hpb, Hreq, Hresp.
  cbn [r_Type accept_response]. rewrite decide_False by done. rewrite decide_False by (intros Hn; by apply Hn).
  cbn [r_DisplayName].
  pose proof (friends_Add_spec (ev_friends_os e) (FriendsStore.mkFriend (mg_displayName mga) inviterID key (ev_now e) "")
    (st_friends st) (st_fs st)) as [_ Hin].
  specialize (Hadd (st_fs st)). destruct (FriendsStore.Add _ _ _ _ _) as [[fr fs] err]. simpl in *. subst err.
  eexists. split; [reflexivity|]. by apply Hin.
Qed.

(** A handler running on while the others wait. *)
Lemma run_handler_steps mg i env fuel hd hd' st' y :
  y_handlers y !! i = Some hd -> run_handler fuel mg env hd (y_st y) = Some (hd', st') ->
  rtc (sys_step mg) y (mkSys st' (<[i := hd']> (y_handlers y)) (y_used y)).
Proof.
  revert hd y. induction fuel as [|n IH]; intros hd y Hi Hrun; simpl in Hrun.
  - injection Hrun as <- <-. rewrite list_insert_id by done. destruct y. apply rtc_refl.
  - destruct (handle_step mg (env n) hd (y_st y)) as [[hd1 st1]|] eqn:Hs; [|done]. simpl in Hrun.
    eapply rtc_l; [by eapply step_handler|].
    specialize (IH hd1 (mkSys st1 (<[i := hd1]> (y_handlers y)) (y_used y))). simpl in IH.
    rewrite list_insert_insert_eq in IH. apply IH; [|done].
    apply list_lookup_insert_eq. by eapply lookup_lt_Some.
Qed.

(** C5: an invite makes at most one friend, under any interleaving of any
    number of redeeming peers with creations, revocations and subscriptions:
    of all handlers for one code at most one ever answers accept; its code
    stays consumed or deleted, its remote peer is the owner of the public key
    it sent, and that peer is in the friends store under that key; and no
    handler ever panics. *)
Theorem single_redeemer mg st used y :
  (∀ c, is_Some (entries_of st !! c) -> c ∈ used) -> subs_ok st -> rtc (sys_step mg) (sys_init st used) y ->
  (∀ i j hi hj c, y_handlers y !! i = Some hi -> y_handlers y !! j = Some hj -> accepted hi -> accepted hj ->
     code_of hi = Some c -> code_of hj = Some c -> i = j) ∧
  (∀ i hd, y_handlers y !! i = Some hd -> accepted hd ->
     ∃ h, hd_input hd = Ok h ∧ valid_key (hd_remote hd) h ∧ befriended (y_st y) (hd_remote hd) h ∧
       ∀ e, InviteStore.Get (h_Code h) (st_store (y_st y)) = Some e -> InviteStore.Consumed e = true) ∧
  (∀ i hd e, y_handlers y !! i = Some hd -> is_Some (handle_step mg e hd (y_st y))).
Proof.
  intros Hused Hsubs Hrun.
  assert (inv y) as Hinv.
  { apply (rtc_invariant (sys_step mg) inv _ y (fun a b Ha H => inv_step mg a b H Ha)) with (2 := Hrun).
    split; simpl; [done..| |done|done]. intros c [He|(i & hd & Hi & _)]; [auto|done]. }
  split_and!.
  - intros i j hi hj c Hi Hj Ha Hb Hci Hcj. eapply (inv_uniq y Hinv); [done|done|split; [done|by left]..].
  - intros i hd Hi Ha. pose proof (inv_valid y Hinv i hd Hi) as Hok.
    assert (∃ h, hd_input hd = Ok h ∧ valid_key (hd_remote hd) h ∧ befriended (y_st y) (hd_remote hd) h)
      as (h & Hin & Hv & Hb).
    { unfold handler_ok in Hok. destruct (hd_phase hd) as [|h|h|h|h|h|]; [by apply not_accepted in Ha| | | | | |auto].
      1-4: destruct Hok as [Hns _]; by apply not_accepted in Ha.
      by exists h. }
    exists h. split_and!; [done..|]. intros e. apply (inv_cons y Hinv i hd (h_Code h)); [done|].
    split; [unfold code_of; by rewrite Hin|by left].
  - intros i hd e Hi. destruct (handle_step_ok mg e hd (y_st y)) as (hd' & st' & -> & _);
      [by eapply inv_valid|by apply inv_subs|by eexists].
Qed.
End manager.

(** *** The redeemer against the inviter *)

Section end_to_end.
Context `{CL : CryptoLaws, K : !Keys _, KL : !KeyLaws _ _, D : Dht, DL : !DhtLaws _}.
Context (unicode_upper unicode_lower : string -> string).
Context (rec_marshal : InviteRecord.Record_ -> option bytes) (rec_unmarshal : bytes -> option InviteRecord.Record_)
        (rec_law : InviteRecord.json_law rec_marshal rec_unmarshal).
Context (store_marshal : Z -> list Entry -> option bytes) (friends_marshal : list Friend -> option bytes).
Context (hello_marshal : Hello -> option bytes) (hello_unmarshal : bytes -> option Hello).
Context (resp_marshal : Response -> option bytes) (resp_unmarshal : bytes -> option Response).
Context {Multiaddr : Type} (NewMultiaddr : string -> option Multiaddr) (MultiaddrString : Multiaddr -> string).

(** A peer: its keys and id fit together. *)
Record party (mg : Manager) (id : string) (pb : string) : Prop := {
  pt_pub : mg_pub mg = GetPublic (mg_priv mg);
  pt_id : mg_ID mg = id;
  pt_derived : IDFromPublicKey (mg_pub mg) = Some id;
  pt_marshal : MarshalPublicKey (mg_pub mg) = Some pb }.

(** A key that signs, with signatures made of bytes. *)
Definition signs_bytes (sk : PrivKey) : Prop :=
  ∀ m, Forall is_byte m -> ∃ s, Sign sk m = Some s ∧ s ≠ [] ∧ Forall is_byte s.

(** Addresses a URL can carry: at least one, each on one line. *)
Definition addrs_ok (addrs : list Multiaddr) : Prop :=
  Join (addrStrings MultiaddrString addrs) nl ≠ "" ∧
  Forall (fun a => no_char "010" (MultiaddrString a) = true) addrs.

Lemma str_bytes_str b : Forall is_byte b -> str_bytes (bytes_str b) = b.
Proof.
  clear. intros Hb. unfold str_bytes, bytes_str. rewrite String.list_ascii_of_string_of_list_ascii.
  induction Hb as [|x b Hx _ IH]; [done|]. rewrite !fmap_cons, IH. by rewrite chr_of_chr.
Qed.

Lemma url_sign_ok sk msg : signs_bytes sk -> ∃ sig, url_sign sk msg = Some sig ∧ sig ≠ "" ∧
  url_verify (GetPublic sk) msg sig = Some true.
Proof.
  clear - CL. intros Hs.
  assert (Forall is_byte (str_bytes msg)) as Hm.
  { unfold str_bytes. apply Forall_fmap, Forall_forall. intros c _. apply chr_range. }
  destruct (Hs _ Hm) as (s & Hsg & Hne & Hb). unfold url_sign. rewrite Hsg.
  eexists. split; [reflexivity|]. split; [by destruct s|]. unfold url_verify. rewrite str_bytes_str by done.
  by eapply sign_verify.
Qed.

Definition invite_payload (mg : Manager) (pb : string) (addrs : list Multiaddr) (code : Code) (expires : Z) : URLPayload :=
  mkPayload (ID_String (mg_ID mg)) (StdEncode pb) (addrStrings MultiaddrString addrs) (mg_displayName mg) code (Unix expires) "".

Definition invite_record (mg : Manager) (pb : string) (addrs : list Multiaddr) (expires : Z) : InviteRecord.Record_ :=
  InviteRecord.mkRecord InviteRecord.RecordVersion (ID_String (mg_ID mg)) (StdEncode pb)
    (addrStrings MultiaddrString addrs) (mg_displayName mg) (Unix expires).

(** What a successful [Create] leaves behind. *)
Lemma Create_spec mg e created ttl rnd nonce addrs d st st' d' cr id pb :
  party mg id pb -> signs_bytes (mg_priv mg) ->
  Create rec_marshal store_marshal MultiaddrString mg e created ttl rnd nonce addrs d st = (st', d', Ok cr) ->
  canonical (cr_Code cr) ∧ cr_ExpiresAt cr = (ev_now e + capTTL ttl)%Z ∧
  entries_of st' !! cr_Code cr = Some (InviteStore.mkEntry (cr_Code cr) (cr_ExpiresAt cr) false "" created) ∧
  st_friends st' = st_friends st ∧ st_subs st' = st_subs st ∧ st_chans st' = st_chans st ∧
  (∃ sig, sig ≠ "" ∧ cr_URL cr = FormatURL (set_signature (StdEncode sig) (invite_payload mg pb addrs (cr_Code cr) (cr_ExpiresAt cr))) ∧
     url_sign (mg_priv mg) (urlCanonicalBytes (invite_payload mg pb addrs (cr_Code cr) (cr_ExpiresAt cr))) = Some sig ∧
     url_verify (mg_pub mg) (urlCanonicalBytes (invite_payload mg pb addrs (cr_Code cr) (cr_ExpiresAt cr))) sig = Some true) ∧
  (cr_DHTPublishErr cr = None -> ∃ blob,
     InviteRecord.Encode rec_marshal nonce (invite_record mg pb addrs (cr_ExpiresAt cr)) (DeriveEncryptionKey (cr_Code cr)) (mg_priv mg)
       = Ok blob ∧ GetValue (DeriveDHTKey (cr_Code cr)) d' = Some blob).
Proof.
  intros [Hpub Hid Hder Hmar] Hsign Hcr. unfold Create in Hcr.
  destruct rnd as [[[[[b0 b1] b2] b3] b4]|]; [|done]. rewrite Hmar in Hcr.
  set (code := InviteCode.Generate b0 b1 b2 b3 b4) in *. set (expires := (ev_now e + capTTL ttl)%Z) in *.
  fold (invite_payload mg pb addrs code expires) in Hcr.
  destruct (url_sign_ok (mg_priv mg) (urlCanonicalBytes (invite_payload mg pb addrs code expires)) Hsign) as (sig & Hsig & Hne & Hver).
  unfold SignURL in Hcr. rewrite Hsig in Hcr. cbn [of_option mbind result_bind] in Hcr.
  change (InviteRecord.mkRecord _ _ _ _ _ _) with (invite_record mg pb addrs expires) in Hcr.
  destruct (match InviteRecord.Encode _ _ _ _ _ with Ok _ => _ | Err _ => _ end) as [d2 derr] eqn:Hd.
  injection Hcr as <- <- <-. cbn [cr_Code cr_ExpiresAt cr_URL cr_DHTPublishErr].
  split; [apply Generate_canonical|]. split; [done|]. split; [apply lookup_insert_eq|].
  split_and!; [done..| |].
  - exists sig. rewrite Hpub. split_and!; done.
  - intros ->. destruct (InviteRecord.Encode _ _ _ _ _) as [blob|]; [|done]. exists blob. split; [done|].
    destruct (PutValue (DeriveDHTKey code) blob d) as [d3 []] eqn:Hput; [|done]. simplify_eq. by eapply put_get.
Qed.

Lemma invite_payload_ok mg pb addrs code expires :
  ID_String (mg_ID mg) ≠ "" -> addrs_ok addrs -> canonical code -> int64 (Unix expires) ->
  payload_ok (invite_payload mg pb addrs code expires).
Proof.
  clear. intros Hid [Hj Hl] Hc He. split; try done; simpl.
  - intros Hn. by rewrite Hn in Hj.
  - by apply Forall_fmap.
Qed.

(** Both ways of checking an invite lead to the inviter. *)
Lemma redeem_payload_ok mg id pb addrs code expires sig now :
  party mg id pb -> ID_String id ≠ "" -> addrs_ok addrs -> canonical code -> int64 (Unix expires) -> sig ≠ "" ->
  url_sign (mg_priv mg) (urlCanonicalBytes (invite_payload mg pb addrs code expires)) = Some sig ->
  url_verify (mg_pub mg) (urlCanonicalBytes (invite_payload mg pb addrs code expires)) sig = Some true ->
  (now <= Unix expires)%Z ->
  redeem_payload unicode_upper unicode_lower now
    (FormatURL (set_signature (StdEncode sig) (invite_payload mg pb addrs code expires)))
  = Ok (id, set_signature (StdEncode sig) (invite_payload mg pb addrs code expires)).
Proof.
  clear rec_law. intros Hp Hid Ha Hc He Hne Hsig Hver Hnow. pose proof Hp as [Hpub Hmid Hder Hmar]. unfold redeem_payload.
  rewrite ParseURL_FormatURL by (apply payload_ok_signed, invite_payload_ok; by rewrite ?Hmid).
  cbn [map_err mbind result_bind ExpiresAt set_signature invite_payload]. rewrite decide_False by lia.
  fold (set_signature (StdEncode sig) (invite_payload mg pb addrs code expires)).
  destruct (unmarshal_marshal _ _ Hmar) as [Hpne Hun].
  destruct (SignURL_verifies url_sign url_verify UnmarshalPublicKey url_id (mg_priv mg) (mg_pub mg) pb
    (invite_payload mg pb addrs code expires) sig) as [_ Hv]; try done.
  { unfold url_id. rewrite Hder. simpl. by rewrite Hmid. }
  change (mkPayload _ _ _ _ _ _ _) with (set_signature (StdEncode sig) (invite_payload mg pb addrs code expires)).
  rewrite Hv. cbn [map_err mbind result_bind]. by rewrite Hder.
Qed.

Lemma redeem_record_ok mg id pb addrs code expires nonce blob d now :
  party mg id pb -> length nonce = nonceLen ->
  InviteRecord.Encode rec_marshal (Some nonce) (invite_record mg pb addrs expires) (DeriveEncryptionKey code) (mg_priv mg) = Ok blob ->
  GetValue (DeriveDHTKey code) d = Some blob -> (now <= Unix expires)%Z ->
  redeem_record rec_unmarshal now code d = Ok (id, invite_record mg pb addrs expires).
Proof.
  intros [Hpub Hmid Hder Hmar] Hn He Hg Hnow. unfold redeem_record. rewrite Hg. cbn [of_option mbind result_bind].
  assert (length (DeriveEncryptionKey code) = keyLen) as Hk.
  { unfold DeriveEncryptionKey. rewrite length_take. pose proof (hkdf_size (str_bytes code) (str_bytes inviteKeyInfo)).
    unfold keyLen. lia. }
  pose proof (InviteRecord.invite_Decode_Encode rec_marshal rec_unmarshal now nonce (invite_record mg pb addrs expires)
    (DeriveEncryptionKey code) (mg_priv mg) rec_law Hn Hk) as Hde.
  rewrite He in Hde. destruct Hde as [-> Hdec]. cbn [map_err mbind result_bind].
  destruct (unmarshal_marshal _ _ Hmar) as [Hpne Hun]. unfold decodePubKey. cbn [invite_record InviteRecord.PublicKey].
  unfold StdDecode, StdEncode. rewrite Decode_Encode by apply _. cbn [of_option mbind result_bind]. rewrite Hun.
  cbn [of_option mbind result_bind]. rewrite <- Hpub in Hdec. rewrite Hdec.
  cbn [InviteRecord.Version invite_record InviteRecord.ExpiresAt].
  rewrite decide_False by (intros Hn'; by apply Hn'). rewrite decide_False by lia. cbn [map_err mbind result_bind].
  rewrite Hder. cbn [of_option mbind result_bind]. rewrite decide_False; [done|]. simpl. rewrite Hmid. intros Hn'. by apply Hn'.
Qed.

(** The inviter's host: a dial of its id reaches its stream handler, which
    sees the dialer's id; any other id cannot be dialed. *)
Definition inviter_serves (mga : Manager) (enva : nat -> Env) (idb : string) (st : State) (request : bytes) : bytes :=
  match handleStream store_marshal friends_marshal hello_unmarshal mga enva idb request st with
  | Some (Some r, _) => match SendResponse resp_marshal r with Ok b => b | Err _ => [] end
  | _ => []
  end.

Definition inviter_host (mga : Manager) (ida : string) (enva : nat -> Env) (idb : string) (st : State)
    (addrs : list Multiaddr) (id : string) : Conn :=
  if decide (id = ida) then Answers (inviter_serves mga enva idb st) else NoStream.

Definition can_add (os : Os) (f : Friend) (fr : FriendsStore.Store) : Prop :=
  ∀ fs, (FriendsStore.Add friends_marshal os f fr fs).2 = None.

(** C6: invites work end to end: after Create, a peer that is given the URL —
    or only the code, when the record was published — and redeems it before it
    expires adds the inviter under the inviter's own name, id and key; the
    inviter's handler has added the redeemer under its authenticated id and
    key, and has consumed the code for it, so that whoever presents the code
    next is refused. *)
Theorem invite_makes_friends mga mgb ida idb pba pbb ea eb enva created ttl rnd nonce addrsa addrsb d sta sta' d' cr stb :
  party mga ida pba -> party mgb idb pbb -> signs_bytes (mg_priv mga) -> ID_String ida ≠ "" -> addrs_ok addrsa ->
  int64 (Unix (ev_now ea + capTTL ttl)) -> length nonce = nonceLen -> subs_ok sta ->
  Create rec_marshal store_marshal MultiaddrString mga ea created ttl rnd (Some nonce) addrsa d sta = (sta', d', Ok cr) ->
  let h := redeem_hello MultiaddrString mgb pbb (cr_Code cr) addrsb in
  let friend := FriendsStore.mkFriend (mg_displayName mga) ida (StdEncode pba) (ev_now eb) "" in
  let host := inviter_host mga ida enva idb sta' in
  travels hello_marshal hello_unmarshal h -> travels resp_marshal resp_unmarshal (accept_response mga pba) ->
  (∀ n, ev_now (enva n) <= cr_ExpiresAt cr)%Z -> (Unix (ev_now eb) <= Unix (cr_ExpiresAt cr))%Z ->
  can_add (ev_friends_os (enva 2)) (invitee (ev_now (enva 2)) idb h) (st_friends sta) ->
  can_add (ev_friends_os eb) friend (st_friends stb) ->
  (∃ stb', RedeemURL unicode_upper unicode_lower friends_marshal hello_marshal resp_unmarshal NewMultiaddr MultiaddrString
       mgb eb host addrsb (cr_URL cr) stb = (stb', Ok friend) ∧ friend ∈ FriendsStore.friends (st_friends stb')) ∧
  (cr_DHTPublishErr cr = None ->
   ∃ stb', Redeem rec_unmarshal friends_marshal hello_marshal resp_unmarshal NewMultiaddr MultiaddrString
       mgb eb host addrsb (cr_Code cr) d' stb = (stb', Ok friend) ∧ friend ∈ FriendsStore.friends (st_friends stb')) ∧
  (∃ request sta2, SendHello hello_marshal h = Ok request ∧
     handleStream store_marshal friends_marshal hello_unmarshal mga enva idb request sta'
       = Some (Some (accept_response mga pba), sta2) ∧ befriended sta2 idb h ∧
     ∀ now remote h', h_Code h' = cr_Code cr ->
       refuse now remote h' (st_store sta2) = Some "code already consumed").
Proof.
  intros Hpa Hpb Hsign Hid Haddrs Hexp Hn Hsubs Hcr h friend host Htr Htr' Hta Htb Hadda Haddb.
  destruct (Create_spec _ _ _ _ _ _ _ _ _ _ _ _ _ _ Hpa Hsign Hcr) as (Hcan & Hexpires & Hent & Hfr & Hs1 & Hs2 & Hurl & Hdht).
  assert (subs_ok sta') as Hsubs' by (intros code l; rewrite Hs1, Hs2; apply Hsubs).
  destruct (read_send hello_marshal hello_unmarshal h Htr) as (request & Hreq & Hread).
  assert (SendHello hello_marshal h = Ok request) as Hsend by (unfold SendHello; by rewrite decide_False).
  destruct (read_send resp_marshal resp_unmarshal _ Htr') as (reply & Hrep & Hread').
  destruct (unmarshal_marshal _ _ (pt_marshal _ _ _ Hpb)) as [_ Hunb].
  destruct (handleStream_accepts store_marshal friends_marshal hello_unmarshal mga enva idb request sta' h
    (InviteStore.mkEntry (cr_Code cr) (cr_ExpiresAt cr) false "" created) pba) as (sta2 & Hhs & Hbef & Hget);
    [exact Hread|done| |exact Hent|apply Hta|by rewrite Hfr|apply Hpa|done|].
  { unfold refuse, InviteStore.Get. unfold entries_of in Hent. cbn [h redeem_hello h_Code h_PublicKey]. rewrite Hent.
    cbn [InviteStore.Consumed InviteStore.ExpiresAt]. rewrite (proj2 (Z.ltb_ge _ _)) by apply Hta.
    unfold StdDecode, StdEncode. rewrite Decode_Encode by apply _. rewrite Hunb, (pt_derived _ _ _ Hpb).
    rewrite decide_False; [done|]. intros Hne. by apply Hne. }
  assert (∀ a, host a ida = Answers (inviter_serves mga enva idb sta')) as Hhost
    by (intros a; unfold host, inviter_host; by rewrite decide_True).
  assert (ReadResponse resp_unmarshal (inviter_serves mga enva idb sta' request) = Ok (accept_response mga pba)) as Hserve.
  { unfold inviter_serves. rewrite Hhs. unfold SendResponse. by rewrite Hrep. }
  assert (∀ addrs, ∃ stb', dialAndHandshake friends_marshal hello_marshal resp_unmarshal NewMultiaddr MultiaddrString
    mgb eb host addrsb (cr_Code cr) ida addrs (StdEncode pba) stb = (stb', Ok friend) ∧
    friend ∈ FriendsStore.friends (st_friends stb')) as Hdial.
  { intros addrs. eapply dial_accepted; [apply Hhost|apply Hpb|exact Hsend|exact Hserve|done|exact Haddb]. }
  split_and!.
  - destruct Hurl as (sig & Hsne & -> & Hsig & Hver). unfold RedeemURL.
    rewrite (redeem_payload_ok mga ida pba) by first [done | by rewrite Hexpires]. apply Hdial.
  - intros Hnone. destruct (Hdht Hnone) as (blob & Henc & Hg). unfold Redeem.
    rewrite (redeem_record_ok mga ida pba addrsa _ (cr_ExpiresAt cr) nonce blob) by done. apply Hdial.
  - exists request, sta2. split_and!; [done..|]. intros now remote h' Hc. unfold refuse. rewrite Hc.
    change (h_Code h) with (cr_Code cr) in Hget. rewrite Hget. done.
Qed.
End end_to_end.

(** ** Witnesses *)

Definition short_key (n : Z) : bytes := [n].
Definition ann : Manager := mkManager (H := toy_crypto) (toy_key_string (short_key 3)) (short_key 3) (short_key 3) "Ann" true.
Definition bob : Manager := mkManager (H := toy_crypto) (toy_key_string (short_key 5)) (short_key 5) (short_key 5) "Bob" true.

Definition plain_env (now : Z) : Env := mkEnv now (os_ok "d/.tmp-1") [] (os_ok "d/.tmp-2").
Definition empty_state (p : string) : State :=
  mkState (InviteStore.mkStore p ∅) (FriendsStore.mkStore "d/friends.json" []) ∅ ∅ [].
Definition no_marshal (v : Z) (l : list Entry) : option bytes := None.
Definition any_marshal (l : list Friend) : option bytes := Some [].

Definition demo_hello (who : Manager) : Hello :=
  mkHello TypeRedeem "0111ABCD" (mg_ID (H := toy_crypto) who) (StdEncode (mg_ID (H := toy_crypto) who)) [] (mg_displayName who).
Definition demo_entry : Entry := InviteStore.mkEntry "0111ABCD" 100 false "" 1.

(** Two peers race for one code, both having passed the first checks. *)
Definition race_start : Sys :=
  mkSys (store_add no_marshal (plain_env 1) demo_entry (empty_state "d/invites.json"))
    [new_handler (mg_ID bob) (Ok (demo_hello bob)); new_handler "eve" (Ok (demo_hello bob));
     new_handler (mg_ID bob) (Ok (demo_hello bob))] ["0111ABCD"].
Definition race_run (i n : nat) (y : Sys) : Sys :=
  match y_handlers y !! i with
  | Some hd =>
      match run_handler (H := toy_crypto) no_marshal any_marshal n ann (fun _ => plain_env 2) hd (y_st y) with
      | Some (hd', st') => mkSys st' (<[i := hd']> (y_handlers y)) (y_used y)
      | None => y
      end
  | None => y
  end.
Definition race_end : Sys := race_run 2 1 (race_run 1 5 (race_run 0 5 (race_run 2 1 race_start))).

Lemma empty_known p (used : list Code) (c : Code) : is_Some (entries_of (empty_state p) !! c) -> c ∈ used.
Proof.
  intros [e He]. unfold entries_of, empty_state in He. cbn [st_store InviteStore.entries] in He.
  by apply lookup_empty_Some in He.
Qed.

Lemma empty_subs p : subs_ok (empty_state p).
Proof.
  intros code l Hl. unfold empty_state in Hl. cbn [st_subs] in Hl. rewrite lookup_empty in Hl.
  by apply elem_of_nil in Hl.
Qed.

Lemma race_run_steps i n y :
  rtc (sys_step (H := toy_crypto) no_marshal any_marshal ann) y (race_run i n y).
Proof.
  unfold race_run. destruct (y_handlers y !! i) as [hd|] eqn:Hi; [|apply rtc_refl].
  destruct (run_handler _ _ _ _ _ _ _) as [[hd' st']|] eqn:Hr; [|apply rtc_refl].
  by eapply run_handler_steps.
Qed.

Lemma single_redeemer_witness :
  (hd_sent <$> y_handlers race_end) =
    [Some (accept_response ann (mg_ID ann)); Some (Reject "code already consumed"); Some (Reject "code already consumed")] /\
  (∀ i j hi hj c, y_handlers race_end !! i = Some hi -> y_handlers race_end !! j = Some hj -> accepted hi ->
     accepted hj -> code_of hi = Some c -> code_of hj = Some c -> i = j).
Proof.
  split; [vm_compute; reflexivity|].
  assert (rtc (sys_step (H := toy_crypto) no_marshal any_marshal ann)
    (sys_init (empty_state "d/invites.json") []) race_end) as Hrun.
  { eapply rtc_l; [apply (step_create _ _ _ (plain_env 1) demo_entry); [apply not_elem_of_nil|done]|].
    do 3 (eapply rtc_l; [apply step_connect|]).
    unfold race_end. repeat (etrans; [|apply race_run_steps]). apply rtc_refl. }
  exact (proj1 (single_redeemer (H := toy_crypto) no_marshal any_marshal ann (empty_state "d/invites.json") [] race_end
    (empty_known _ _) (empty_subs _) Hrun)).
Defined.

Definition one_message {M} `{EqDecision M} (m : M) (m' : M) : option bytes := if decide (m' = m) then Some [1%Z] else None.
Definition one_reading {M} (m : M) (b : bytes) : option M := if decide (b = [1%Z]) then Some m else None.

Lemma one_travels {M} `{EqDecision M} (m : M) : travels (one_message m) (one_reading m) m.
Proof.
  exists [1%Z]. unfold one_message, one_reading. rewrite !decide_True by done.
  split_and!; [done|done|set_solver|done|done].
Qed.

#[export] Instance Hello_eq_dec : EqDecision Hello.
Proof. solve_decision. Defined.
#[export] Instance Response_eq_dec : EqDecision Response.
Proof. solve_decision. Defined.

Definition ann_create := Create (H := toy_crypto) (H0 := toy_dht) invite_marshal no_marshal id ann (plain_env (10 ^ 12)) 0 0
  (Some ("000"%char, "068"%char, "050"%char, "020"%char, "199"%char)) (Some (repeat 7%Z 24)) ["/ip4/10.0.0.1/tcp/1"] ∅
  (empty_state "d/invites.json").
Definition ann_invite : CreateResult :=
  match ann_create.2 with Ok cr => cr | Err _ => mkCreateResult "" "" 0 None end.
Definition bob_hello : Hello := redeem_hello (Multiaddr := string) id bob (mg_ID bob) (cr_Code ann_invite) [].

Lemma short_key_signs n : is_byte n -> signs_bytes (C := toy_crypto) (short_key n).
Proof.
  intros Hb m Hm. eexists. split; [reflexivity|]. split.
  - intros Hn. pose proof (toy_pad_length 64 (short_key n ++ m)) as Hl. rewrite Hn in Hl. done.
  - unfold toy_pad. apply Forall_take. rewrite <- app_assoc. apply Forall_app. split; [by constructor|].
    apply Forall_app. split; [done|]. by repeat constructor.
Qed.

Lemma can_add_any fr f : FriendsStore.add_conflict f (FriendsStore.friends fr) = None -> can_add any_marshal (os_ok "d/.tmp-2") f fr.
Proof.
  intros Hc fs. unfold FriendsStore.Add. rewrite Hc. done.
Qed.

Lemma invite_makes_friends_witness :
  (∃ stb, (RedeemURL (H := toy_crypto) id id any_marshal (one_message bob_hello) (one_reading (accept_response ann (mg_ID ann)))
    (@Some string) id bob (plain_env (2 * 10 ^ 12)) (inviter_host no_marshal any_marshal (one_reading bob_hello)
      (one_message (accept_response ann (mg_ID ann))) ann (mg_ID ann) (fun _ => plain_env (2 * 10 ^ 12)) (mg_ID bob) ann_create.1.1)
    [] (cr_URL ann_invite) (empty_state "d/invites.json")) =
    (stb, Ok (FriendsStore.mkFriend "Ann" (mg_ID ann) (StdEncode (mg_ID ann)) (2 * 10 ^ 12) ""))).
Proof.
  assert (ann_create = (ann_create.1.1, ann_create.1.2, Ok ann_invite)) as Hc.
  { rewrite (surjective_pairing ann_create) at 1. rewrite (surjective_pairing ann_create.1) at 1. f_equal. }
  assert (party (C := toy_crypto) ann (mg_ID ann) (mg_ID ann)) as Hpa by (split; reflexivity).
  assert (party (C := toy_crypto) bob (mg_ID bob) (mg_ID bob)) as Hpb by (split; reflexivity).
  assert (ID_String (Keys := toy_keys) (mg_ID ann) ≠ "") as Hid by discriminate.
  assert (addrs_ok (Multiaddr := string) id ["/ip4/10.0.0.1/tcp/1"]) as Ha by (split; [discriminate|by repeat constructor]).
  assert (int64 (Unix (10 ^ 12 + capTTL 0))) as Hexp by (split; vm_compute; [discriminate|reflexivity]).
  pose proof (invite_makes_friends (C := toy_crypto) (D := toy_dht) id id invite_marshal decode_bytes invite_json_law
    no_marshal any_marshal (one_message bob_hello) (one_reading bob_hello) (one_message (accept_response ann (mg_ID ann)))
    (one_reading (accept_response ann (mg_ID ann))) (@Some string) id ann bob (mg_ID ann) (mg_ID bob) (mg_ID ann) (mg_ID bob)
    (plain_env (10 ^ 12)) (plain_env (2 * 10 ^ 12)) (fun _ => plain_env (2 * 10 ^ 12)) 0 0
    (Some ("000"%char, "068"%char, "050"%char, "020"%char, "199"%char)) (repeat 7%Z 24) ["/ip4/10.0.0.1/tcp/1"] [] ∅
    (empty_state "d/invites.json") ann_create.1.1 ann_create.1.2 ann_invite (empty_state "d/invites.json")
    Hpa Hpb (short_key_signs 3 ltac:(done)) Hid Ha Hexp eq_refl (empty_subs _) Hc) as Ht.
  cbv zeta in Ht.
  pose proof (Ht (one_travels bob_hello) (one_travels _)) as Ht2.
  assert (∀ n : nat, (ev_now (plain_env (2 * 10 ^ 12)) <= cr_ExpiresAt ann_invite)%Z) as Hta
    by (intros _; vm_compute; discriminate).
  assert (Unix (ev_now (plain_env (2 * 10 ^ 12))) <= Unix (cr_ExpiresAt ann_invite))%Z as Htb by (vm_compute; discriminate).
  destruct (Ht2 Hta Htb (can_add_any (st_friends (empty_state _)) _ eq_refl) (can_add_any (st_friends (empty_state _)) _ eq_refl)) as ((stb & Hr & _) & _ & _).
  exists stb. exact Hr.
Defined.
