(* ===== verification/AudioStats.v ===== *)
(** * The counters of one call ([internal/audio/stats.go])

    [statsCore] is shared by the capture callback, the receive loop, the
    session's ticker and the IPC handlers. Every atomic add and every section
    under [mu] is one [stat_op], so a list of [stat_op]s is any interleaving of
    the callers; [ObserveTx] and [ObserveRx] are two of them each.

    [float64] arithmetic is the Standard Library's executable binary64
    ([SpecFloat]); each operation rounds, as on the platforms whose compiler
    does not fuse a multiplication with an addition. [peakDBFS] rounds
    [20 * log10 (peak / 32767)] to an integer; the model compares the 40th
    powers exactly. No peak of a frame is closer than 1e-6 dB to a rounding
    boundary, far above the error of [math.Log10]. *)
From S2P Require Import Prelude Jitter.
From Stdlib Require Import SpecFloat.
#[local] Open Scope Z_scope.

(** ** Data *)

Definition float64 : Type := spec_float.
Definition f64_zero : float64 := S754_zero false.
Definition f64_add : float64 -> float64 -> float64 := SFadd 53 1024.
Definition f64_mul : float64 -> float64 -> float64 := SFmul 53 1024.
(** The constants [0.8] and [0.2] as float64. *)
Definition f64_0_8 : float64 := S754_finite false 7205759403792794 (-53).
Definition f64_0_2 : float64 := S754_finite false 7205759403792794 (-55).

Record Stats := mkStats {
  TxPackets : Z;
  TxDropped : Z;
  TxPeakDBFS : Z;
  RxPackets : Z;
  RxDropped : Z;
  RxPeakDBFS : Z;
  JitterMsEWMA : float64;
  EncoderBitrate : Z;
  Muted : bool;
  PeerMuted : bool;
  StatsMediaMode : string }.

Record statsCore := mkStatsCore {
  txPackets : Z;
  txDropped : Z;
  rxPackets : Z;
  rxDropped : Z;
  txPeak : Z;
  rxPeak : Z;
  jitterEWMA : float64;
  bitrate : Z;
  sc_muted : bool;
  peerMuted : bool;
  sc_mediaMode : string }.

Definition NewStatsCore : statsCore :=
  mkStatsCore 0 0 0 0 (-100) (-100) f64_zero 0 false false "".

(** ** Peak levels *)

Definition peak_step (peak s : Z) : Z :=
  let v := if s <? 0 then - s else s in
  if peak <? v then v else peak.

Definition peak_of (pcm : list Z) : Z := foldl peak_step 0 pcm.

(** [20 * log10 (peak / 32767) < 1/2 - j], in 40th powers. *)
Definition below_dbfs (peak j : Z) : bool := peak ^ 40 * 10 ^ (2 * j - 1) <? 32767 ^ 40.

(** The number of boundaries [-1/2, -3/2, ...] the level is below, at most 100. *)
Definition dbfs (peak : Z) : Z :=
  - Z.of_nat (length (filter (fun j => below_dbfs peak j = true) (seqZ 1 100))).

Definition peakDBFS (pcm : list Z) : Z :=
  let peak := peak_of pcm in
  if peak =? 0 then -100 else dbfs peak.

(** ** Operations *)

Inductive stat_op :=
| OTxAdd
| OTxPeak (pcm : list Z)
| OTxDrop
| ORxAdd
| ORxPeak (pcm : list Z)
| ORxDrop
| OJitter (ms : float64)
| OBitrate (b : Z)
| OMuted (b : bool)
| OPeerMuted (b : bool)
| OMediaMode (m : string)
| OSnapshot.

Definition Snapshot (s : statsCore) : statsCore * Stats :=
  (mkStatsCore (txPackets s) (txDropped s) (rxPackets s) (rxDropped s) (-100) (-100)
     (jitterEWMA s) (bitrate s) (sc_muted s) (peerMuted s) (sc_mediaMode s),
   mkStats (txPackets s) (txDropped s) (txPeak s) (rxPackets s) (rxDropped s) (rxPeak s)
     (jitterEWMA s) (bitrate s) (sc_muted s) (peerMuted s) (sc_mediaMode s)).

Definition stat_step (s : statsCore) (o : stat_op) : statsCore :=
  let 'mkStatsCore tp td rp rd tk rk jw br mu pm mm := s in
  match o with
  | OTxAdd => mkStatsCore (inc64 tp) td rp rd tk rk jw br mu pm mm
  | OTxPeak pcm =>
      let peak := peakDBFS pcm in
      mkStatsCore tp td rp rd (if tk <? peak then peak else tk) rk jw br mu pm mm
  | OTxDrop => mkStatsCore tp (inc64 td) rp rd tk rk jw br mu pm mm
  | ORxAdd => mkStatsCore tp td (inc64 rp) rd tk rk jw br mu pm mm
  | ORxPeak pcm =>
      let peak := peakDBFS pcm in
      mkStatsCore tp td rp rd tk (if rk <? peak then peak else rk) jw br mu pm mm
  | ORxDrop => mkStatsCore tp td rp (inc64 rd) tk rk jw br mu pm mm
  | OJitter ms =>
      mkStatsCore tp td rp rd tk rk (f64_add (f64_mul f64_0_8 jw) (f64_mul f64_0_2 ms)) br mu pm mm
  | OBitrate b => mkStatsCore tp td rp rd tk rk jw b mu pm mm
  | OMuted b => mkStatsCore tp td rp rd tk rk jw br b pm mm
  | OPeerMuted b => mkStatsCore tp td rp rd tk rk jw br mu b mm
  | OMediaMode m => mkStatsCore tp td rp rd tk rk jw br mu pm m
  | OSnapshot => (Snapshot s).1
  end.

Definition stat_run (os : list stat_op) (s : statsCore) : statsCore := foldl stat_step s os.

(** The methods. *)
Definition ObserveTx (pcm : list Z) : statsCore -> statsCore := stat_run [OTxAdd; OTxPeak pcm].
Definition ObserveTxDropped : statsCore -> statsCore := stat_run [OTxDrop].
Definition ObserveRx (pcm : list Z) : statsCore -> statsCore := stat_run [ORxAdd; ORxPeak pcm].
Definition ObserveRxDropped : statsCore -> statsCore := stat_run [ORxDrop].
Definition ObserveJitter (ms : float64) : statsCore -> statsCore := stat_run [OJitter ms].
Definition SetEncoderBitrate (b : Z) : statsCore -> statsCore := stat_run [OBitrate b].
Definition StatsSetMuted (b : bool) : statsCore -> statsCore := stat_run [OMuted b].
Definition SetPeerMuted (b : bool) : statsCore -> statsCore := stat_run [OPeerMuted b].
Definition SetMediaMode (m : string) : statsCore -> statsCore := stat_run [OMediaMode m].

(** ** What a snapshot means *)

Definition is_sample (s : Z) : Prop := - 2 ^ 15 <= s < 2 ^ 15.

(** [k] is the level of a peak: the exact value lies within half a decibel. *)
Definition rounds_dbfs (peak k : Z) : Prop :=
  32767 ^ 40 <= peak ^ 40 * 10 ^ (1 - 2 * k) ∧
  (k = 0 ∨ peak ^ 40 * 10 ^ (- 2 * k - 1) < 32767 ^ 40).

Definition op_count (o : stat_op) (os : list stat_op) : Z :=
  Z.of_nat (length (filter (fun x => match o, x with
    | OTxAdd, OTxAdd | OTxDrop, OTxDrop | ORxAdd, ORxAdd | ORxDrop, ORxDrop => true
    | _, _ => false end = true) os)).

(** The frames observed since the last snapshot, latest first. *)
Fixpoint since_snapshot (f : stat_op -> option (list Z)) (rev_os : list stat_op) : list (list Z) :=
  match rev_os with
  | [] => []
  | OSnapshot :: _ => []
  | o :: os => match f o with
               | Some pcm => pcm :: since_snapshot f os
               | None => since_snapshot f os
               end
  end.

Definition tx_frame (o : stat_op) : option (list Z) :=
  match o with OTxPeak pcm => Some pcm | _ => None end.
Definition rx_frame (o : stat_op) : option (list Z) :=
  match o with ORxPeak pcm => Some pcm | _ => None end.

(** The value the last operation [f] selects has set, [d] if there is none. *)
Fixpoint last_set {A} (f : stat_op -> option A) (rev_os : list stat_op) (d : A) : A :=
  match rev_os with
  | [] => d
  | o :: os => match f o with Some a => a | None => last_set f os d end
  end.

Definition max_level (frames : list (list Z)) : Z :=
  foldr Z.max (-100) (peakDBFS <$> frames).

Definition op_samples_ok (o : stat_op) : Prop :=
  match o with OTxPeak pcm | ORxPeak pcm => Forall is_sample pcm | _ => True end.

(** ** Levels: lemmas *)

Lemma peak_step_max peak s : peak_step peak s = Z.max peak (Z.abs s).
Proof. unfold peak_step. repeat case_match; lia. Qed.

Lemma peak_of_spec pcm : ∀ acc, 0 <= acc ->
  let m := foldl peak_step acc pcm in
  acc <= m ∧ Forall (fun s => Z.abs s <= m) pcm ∧ (m = acc ∨ ∃ s, s ∈ pcm ∧ m = Z.abs s).
Proof.
  induction pcm as [|s pcm IH]; intros acc Hacc; simpl; [split_and!; [lia|done|by left]|].
  rewrite peak_step_max.
  destruct (IH (Z.max acc (Z.abs s)) ltac:(lia)) as (Hle & Hall & Hm). split_and!; [lia| |].
  - constructor; [lia|done].
  - destruct Hm as [Hm|(s' & Hin & Hm)].
    + destruct (decide (Z.abs s <= acc)); [left; lia|right; exists s].
      split; [apply list_elem_of_here|lia].
    + right. exists s'. split; [by apply list_elem_of_further|done].
Qed.

Lemma peak_of_range pcm : Forall is_sample pcm -> 0 <= peak_of pcm <= 2 ^ 15.
Proof.
  intros Hs. destruct (peak_of_spec pcm 0 ltac:(lia)) as (Hle & _ & Hm). unfold peak_of in *.
  split; [done|]. destruct Hm as [->|(s & Hin & ->)]; [lia|].
  rewrite Forall_forall in Hs. specialize (Hs s Hin). unfold is_sample in Hs. lia.
Qed.

Lemma peak_of_zero pcm : peak_of pcm = 0 <-> Forall (fun s => s = 0) pcm.
Proof.
  destruct (peak_of_spec pcm 0 ltac:(lia)) as (_ & Hall & Hm). unfold peak_of in *. split.
  - intros H0. rewrite H0 in Hall. eapply Forall_impl; [exact Hall|]. simpl. lia.
  - intros H0. rewrite Forall_forall in H0. destruct Hm as [->|(s & Hin & ->)]; [done|].
    by rewrite (H0 s Hin).
Qed.

Lemma below_dbfs_anti peak j j' : 0 <= peak -> 1 <= j <= j' ->
  below_dbfs peak j' = true -> below_dbfs peak j = true.
Proof.
  unfold below_dbfs. rewrite !Z.ltb_lt. intros Hp Hj H.
  eapply Z.le_lt_trans; [|exact H]. apply Z.mul_le_mono_nonneg_l; [apply Z.pow_nonneg; lia|].
  apply Z.pow_le_mono_r; lia.
Qed.

(** A test that holds on an initial segment is counted by its length. *)
Lemma length_filter_prefix (P : Z -> bool) (n : nat) : ∀ a,
  (∀ i j, a <= i <= j -> P j = true -> P i = true) ->
  ∃ k, (k <= n)%nat ∧ length (filter (fun j => P j = true) (seqZ a (Z.of_nat n))) = k ∧
    (k = 0%nat ∨ P (a + Z.of_nat k - 1) = true) ∧ (k = n ∨ P (a + Z.of_nat k) = false).
Proof.
  induction n as [|n IH]; intros a Hmono.
  - exists 0%nat. split_and!; auto.
  - rewrite seqZ_cons by lia. rewrite filter_cons.
    replace (Z.pred (Z.of_nat (S n))) with (Z.of_nat n) by lia.
    destruct (P a) eqn:HPa; simpl.
    + destruct (IH (Z.succ a)) as (k & Hk & Hlen & Hlo & Hhi).
      { intros i j Hij. apply Hmono. lia. }
      exists (S k). split_and!; [lia|by rewrite Hlen| |].
      * right. destruct Hlo as [->|Hlo]; [by replace (a + Z.of_nat 1 - 1) with a by lia|].
        by replace (a + Z.of_nat (S k) - 1) with (Z.succ a + Z.of_nat k - 1) by lia.
      * destruct Hhi as [->|Hhi]; [by left|right].
        by replace (a + Z.of_nat (S k)) with (Z.succ a + Z.of_nat k) by lia.
    + exists 0%nat. split_and!; [lia| |by left|right; by rewrite Z.add_0_r].
      clear IH.
      destruct (filter _ _) as [|x l] eqn:E; [done|].
      assert (x ∈ filter (λ j, P j = true) (seqZ (Z.succ a) (Z.of_nat n))) as Hx by (rewrite E; apply list_elem_of_here).
      apply list_elem_of_filter in Hx as [HPx Hx]. apply elem_of_seqZ in Hx.
      rewrite (Hmono a x) in HPa; [done|lia|done].
Qed.

Lemma one_not_below : below_dbfs 1 91 = false.
Proof. vm_compute. reflexivity. Qed.

Lemma below_dbfs_mono peak peak' j : 0 <= peak <= peak' -> 1 <= j ->
  below_dbfs peak' j = true -> below_dbfs peak j = true.
Proof.
  unfold below_dbfs. rewrite !Z.ltb_lt. intros Hp Hj H.
  eapply Z.le_lt_trans; [|exact H]. apply Z.mul_le_mono_nonneg_r; [apply Z.pow_nonneg; lia|].
  apply Z.pow_le_mono_l; lia.
Qed.

(** Up to [1 <= j] the boundaries a level is below form an initial segment. *)
Lemma dbfs_spec peak : 1 <= peak -> -90 <= dbfs peak <= 0 ∧ rounds_dbfs peak (dbfs peak).
Proof.
  intros Hp. unfold dbfs.
  set (P := below_dbfs peak).
  assert (∀ i j, 1 <= i <= j -> P j = true -> P i = true) as Hmono.
  { intros i j Hij. apply below_dbfs_anti; lia. }
  destruct (length_filter_prefix P 100 1 Hmono) as (k & Hk & Hlen & Hlo & Hhi).
  change (seqZ 1 (Z.of_nat 100)) with (seqZ 1 100) in Hlen. rewrite Hlen.
  assert (∀ j, 91 <= j -> P j = false) as Hfar.
  { intros j Hj. destruct (P j) eqn:HPj; [|done]. exfalso.
    pose proof one_not_below as H91.
    rewrite (below_dbfs_mono 1 peak 91) in H91; [done|lia|lia|].
    by apply (below_dbfs_anti peak 91 j); [lia|lia|]. }
  assert (k <= 90)%nat as Hk90.
  { destruct (decide (k <= 90)%nat); [done|]. destruct Hlo as [->|Hlo]; [lia|].
    rewrite Hfar in Hlo; [done|lia]. }
  split; [lia|]. unfold rounds_dbfs. split.
  - destruct Hhi as [->|Hhi]; [lia|]. revert Hhi. unfold P, below_dbfs. rewrite Z.ltb_ge.
    by replace (1 - 2 * - Z.of_nat k) with (2 * (1 + Z.of_nat k) - 1) by lia.
  - destruct (decide (k = 0%nat)) as [->|Hk0]; [by left|right].
    destruct Hlo as [->|Hlo]; [done|]. revert Hlo. unfold P, below_dbfs. rewrite Z.ltb_lt.
    by replace (-2 * - Z.of_nat k - 1) with (2 * (1 + Z.of_nat k - 1) - 1) by lia.
Qed.

Lemma peakDBFS_spec pcm : Forall is_sample pcm ->
  (peakDBFS pcm = -100 <-> Forall (fun s => s = 0) pcm) ∧
  (peakDBFS pcm ≠ -100 ->
     -90 <= peakDBFS pcm <= 0 ∧ rounds_dbfs (peak_of pcm) (peakDBFS pcm)).
Proof.
  intros Hs. rewrite <- peak_of_zero. unfold peakDBFS.
  pose proof (peak_of_range pcm Hs). destruct (Z.eqb_spec (peak_of pcm) 0) as [E|E].
  - rewrite E. split; [done|]. intros Hn. by destruct Hn.
  - destruct (dbfs_spec (peak_of pcm) ltac:(lia)) as [Hr Hd]. split; [|done].
    split; intros; [lia|done].
Qed.

(** ** Runs: lemmas *)

Lemma stat_run_snoc os o s : stat_run (os ++ [o]) s = stat_step (stat_run os s) o.
Proof. unfold stat_run. by rewrite foldl_app. Qed.

Lemma op_count_snoc o os x :
  op_count o (os ++ [x]) = op_count o os + op_count o [x].
Proof. unfold op_count. rewrite filter_app, length_app. lia. Qed.

Lemma inc64_wrap n : inc64 (wrap 64 n) = wrap 64 (n + 1).
Proof. unfold inc64, wrap. by rewrite Zplus_mod_idemp_l. Qed.

Lemma max_level_cons pcm fs : max_level (pcm :: fs) = Z.max (peakDBFS pcm) (max_level fs).
Proof. done. Qed.

Lemma if_max a b : (if a <? b then b else a) = Z.max b a.
Proof. case_match; lia. Qed.

Lemma max_level_range fs : Forall (Forall is_sample) fs ->
  max_level fs = -100 ∨ -90 <= max_level fs <= 0.
Proof.
  induction 1 as [|pcm fs Hp _ IH]; [by left|]. rewrite max_level_cons.
  destruct (peakDBFS_spec pcm Hp) as [_ Hr].
  destruct (decide (peakDBFS pcm = -100)) as [->|Hn]; [lia|]. specialize (Hr Hn). lia.
Qed.

(** The state after a run, field by field. *)
Definition run_spec (os : list stat_op) (s : statsCore) : Prop :=
  txPackets s = wrap 64 (op_count OTxAdd os) ∧ txDropped s = wrap 64 (op_count OTxDrop os) ∧
  rxPackets s = wrap 64 (op_count ORxAdd os) ∧ rxDropped s = wrap 64 (op_count ORxDrop os) ∧
  txPeak s = max_level (since_snapshot tx_frame (rev os)) ∧
  rxPeak s = max_level (since_snapshot rx_frame (rev os)) ∧
  bitrate s = last_set (fun o => match o with OBitrate b => Some b | _ => None end) (rev os) 0 ∧
  sc_muted s = last_set (fun o => match o with OMuted b => Some b | _ => None end) (rev os) false ∧
  peerMuted s = last_set (fun o => match o with OPeerMuted b => Some b | _ => None end) (rev os) false ∧
  sc_mediaMode s = last_set (fun o => match o with OMediaMode m => Some m | _ => None end) (rev os) "".

Lemma stat_run_spec os : run_spec os (stat_run os NewStatsCore).
Proof.
  induction os as [|o os IH] using rev_ind; [done|].
  rewrite stat_run_snoc. destruct (stat_run os NewStatsCore) as [tp td rp rd tk rk jw br mu pm mm].
  unfold run_spec in *. simpl in IH. destruct IH as (-> & -> & -> & -> & -> & -> & -> & -> & -> & ->).
  rewrite rev_app_distr, !op_count_snoc.
  destruct o; simpl; rewrite ?inc64_wrap, ?if_max, ?max_level_cons;
    unfold op_count at 2 4 6 8; simpl; rewrite ?Z.add_0_r; split_and!; done.
Qed.

Lemma since_snapshot_ok f os :
  (∀ o pcm, op_samples_ok o -> f o = Some pcm -> Forall is_sample pcm) ->
  Forall op_samples_ok os -> Forall (Forall is_sample) (since_snapshot f (rev os)).
Proof.
  intros Hf Hos. apply Forall_rev in Hos. induction Hos as [|o os' Ho Hos IH]; [constructor|].
  simpl. destruct o; try exact IH; try constructor; destruct (f _) eqn:E; try done;
    constructor; eauto.
Qed.

Lemma jitterEWMA_zero os s : (∀ ms, OJitter ms ∉ os) ->
  jitterEWMA (stat_run os s) = jitterEWMA s.
Proof.
  induction os as [|o os IH] using rev_ind; intros Hn; [done|].
  rewrite stat_run_snoc, <- IH by (intros ms Hin; apply (Hn ms), elem_of_app; by left).
  destruct (stat_run os s), o; try done.
  destruct (Hn ms). apply elem_of_app. right. apply list_elem_of_here.
Qed.

(** ** Property *)

(** Whatever the interleaving of the observers, a snapshot holds the number
    of packets of each kind modulo 2^64, the loudest level observed since the
    previous snapshot (-100 when every frame since was silent, else between -90
    and 0 dBFS and within half a decibel of the exact level), and the last
    values set; the jitter average stays 0 as long as nobody observes jitter. *)
Theorem stats_snapshot_correct os :
  Forall op_samples_ok os ->
  let s := (Snapshot (stat_run os NewStatsCore)).2 in
  let tx := since_snapshot tx_frame (rev os) in
  let rx := since_snapshot rx_frame (rev os) in
  TxPackets s = wrap 64 (op_count OTxAdd os) ∧ TxDropped s = wrap 64 (op_count OTxDrop os) ∧
  RxPackets s = wrap 64 (op_count ORxAdd os) ∧ RxDropped s = wrap 64 (op_count ORxDrop os) ∧
  TxPeakDBFS s = max_level tx ∧ RxPeakDBFS s = max_level rx ∧
  (TxPeakDBFS s = -100 ∨ -90 <= TxPeakDBFS s <= 0) ∧
  (RxPeakDBFS s = -100 ∨ -90 <= RxPeakDBFS s <= 0) ∧
  (∀ pcm, pcm ∈ tx ++ rx ->
     (peakDBFS pcm = -100 <-> Forall (fun x => x = 0) pcm) ∧
     (peakDBFS pcm ≠ -100 -> rounds_dbfs (peak_of pcm) (peakDBFS pcm))) ∧
  Muted s = last_set (fun o => match o with OMuted b => Some b | _ => None end) (rev os) false ∧
  PeerMuted s = last_set (fun o => match o with OPeerMuted b => Some b | _ => None end) (rev os) false ∧
  ((∀ ms, OJitter ms ∉ os) -> JitterMsEWMA s = f64_zero).
Proof.
  intros Hos. cbv zeta.
  assert (Forall (Forall is_sample) (since_snapshot tx_frame (rev os))) as Htx.
  { apply since_snapshot_ok; [|done]. intros [] ? ? ?; simplify_eq/=; done. }
  assert (Forall (Forall is_sample) (since_snapshot rx_frame (rev os))) as Hrx.
  { apply since_snapshot_ok; [|done]. intros [] ? ? ?; simplify_eq/=; done. }
  destruct (stat_run_spec os) as (H1 & H2 & H3 & H4 & H5 & H6 & _ & H8 & H9 & _).
  cbn [Snapshot snd TxPackets TxDropped RxPackets RxDropped TxPeakDBFS RxPeakDBFS Muted PeerMuted
       JitterMsEWMA]. rewrite H1, H2, H3, H4, H5, H6, H8, H9.
  do 6 (split; [done|]). split; [by apply max_level_range|]. split; [by apply max_level_range|].
  split.
  - intros pcm Hin.
    assert (Forall is_sample pcm) as Hp.
    { rewrite Forall_forall in Htx, Hrx. apply elem_of_app in Hin as [?|?]; auto. }
    destruct (peakDBFS_spec pcm Hp) as [Hz Hr]. split; [done|]. intros Hn. by apply Hr.
  - split; [done|]. split; [done|]. intros Hj. by rewrite jitterEWMA_zero.
Qed.

Definition demo_stats : list stat_op :=
  [OTxAdd; OTxPeak [100; -32768]; OSnapshot; OTxAdd; OTxPeak [0; 3277; -200]].

Lemma stats_snapshot_correct_witness :
  TxPeakDBFS (Snapshot (stat_run demo_stats NewStatsCore)).2 = -20.
Proof.
  assert (Forall op_samples_ok demo_stats) as Hok.
  { repeat (constructor; simpl; unfold is_sample; try lia). }
  destruct (stats_snapshot_correct demo_stats Hok) as (_ & _ & _ & _ & -> & _).
  vm_compute. reflexivity.
Defined.
