(* ===== verification/AudioPipeline.v ===== *)
(** * The audio pipeline ([internal/audio/pipeline.go], [codec.go], [aec.go])

    [Pipeline] with its three callbacks, each a function on the pipeline and the
    objects its configuration points to ([Shared]: the counters and the
    transport). [onCapture] runs on the capture thread, [recvLoop] on its own
    goroutine and [onPull] on the playback thread; they touch disjoint fields
    apart from [pullQ] (under [pullMu]), the atomics and the counters, so a run
    is a list of callbacks. libopus ([Opus]) and the RTP codec ([RtpCodec]) are
    interfaces. [None] is a call that never returns ([JitterBuffer.Push] with a
    negative cap). *)
From S2P Require Import Prelude Jitter AudioTransport AudioStats.
#[local] Open Scope Z_scope.

(** ** Constants *)

Definition SampleRate : Z := 48000.
Definition Channels : Z := 1.
Definition FrameSize : Z := Z.quot (SampleRate * FrameMs) 1000.
Definition rtpOpusPayloadType : Z := 111.
Definition pullCap : nat := 4.

(** ** Interfaces *)

(** What the code calls of [gopkg.in/hraban/opus.v2]: the encoder and decoder
    are stateful; a fallible setter returns [None]. [opus_Decode] gives the
    number of samples and the output buffer it has filled, whose length a
    callee cannot change. *)
Class Opus := {
  OEnc : Type;
  ODec : Type;
  opus_NewEncoder : Z -> Z -> option OEnc;
  opus_SetBitrate : Z -> OEnc -> option OEnc;
  opus_SetInBandFEC : bool -> OEnc -> option OEnc;
  opus_SetDTX : bool -> OEnc -> option OEnc;
  opus_SetComplexity : Z -> OEnc -> option OEnc;
  opus_Encode : list Z -> OEnc -> OEnc * option bytes;
  opus_NewDecoder : Z -> Z -> option ODec;
  opus_Decode : bytes -> list Z -> ODec -> ODec * option Z * list Z;
  opus_DecodePLC : list Z -> ODec -> ODec * bool * list Z;
  opus_Decode_length pkt out d : length (opus_Decode pkt out d).2 = length out;
  opus_DecodePLC_length out d : length (opus_DecodePLC out d).2 = length out }.

(** The fields of [rtp.Packet] the pipeline sets. *)
Record RtpPacket := mkRtp {
  rtp_Version : Z;
  rtp_PayloadType : Z;
  rtp_SequenceNumber : Z;
  rtp_Timestamp : Z;
  rtp_SSRC : Z;
  rtp_Payload : bytes }.

(** A version 2 packet with fields of their widths. *)
Definition rtp_ok (p : RtpPacket) : Prop :=
  rtp_Version p = 2 ∧ 0 <= rtp_PayloadType p < 2 ^ 7 ∧ uint16 (rtp_SequenceNumber p) ∧
  0 <= rtp_Timestamp p < 2 ^ 32 ∧ 0 <= rtp_SSRC p < 2 ^ 32.

(** [github.com/pion/rtp]: parsing inverts serialisation. *)
Class RtpCodec := {
  rtp_Marshal : RtpPacket -> option bytes;
  rtp_Unmarshal : bytes -> option RtpPacket;
  rtp_roundtrip p b : rtp_ok p -> rtp_Marshal p = Some b -> rtp_Unmarshal b = Some p;
  rtp_seq_range b p : rtp_Unmarshal b = Some p -> uint16 (rtp_SequenceNumber p) }.

(** What the pipeline needs of a [Transport]: a send that may refuse. *)
Class MediaTransport (T : Type) := { transport_SendMedia : bytes -> T -> T * bool }.

#[export] Instance libp2p_media : MediaTransport libp2pTransport := {| transport_SendMedia := SendMedia |}.

(** A control message, without the peer's statistics, which nothing reads. *)
Record ControlMessage := mkControl { cm_Type : string; cm_Value : bool }.

(** ** The echo canceller: the identity *)

Record AEC := mkAEC { aec_enabled : bool }.
Definition NewAEC (enabled : bool) : AEC := mkAEC enabled.
Definition ProcessCapture (a : AEC) (pcm : list Z) : list Z := pcm.
Definition ProcessRender (a : AEC) (pcm : list Z) : AEC := a.

(** ** The codec wrappers *)

Inductive CodecErr :=
| ErrEncoderInit | ErrSetBitrate | ErrSetFEC | ErrSetDTX | ErrSetComplexity
| ErrFrameLength | ErrEncode | ErrDecoderInit | ErrPLC | ErrDecode | ErrSampleCount.

Section codec.
Context `{Opus}.

Definition NewOpusEncoder (bitrate : Z) : result CodecErr OEnc :=
  e ← of_option ErrEncoderInit (opus_NewEncoder SampleRate Channels);
  e ← of_option ErrSetBitrate (opus_SetBitrate bitrate e);
  e ← of_option ErrSetFEC (opus_SetInBandFEC true e);
  e ← of_option ErrSetDTX (opus_SetDTX true e);
  of_option ErrSetComplexity (opus_SetComplexity 10 e).

Definition Encode (pcm : list Z) (e : OEnc) : OEnc * result CodecErr bytes :=
  if decide (Z.of_nat (length pcm) ≠ FrameSize) then (e, Err ErrFrameLength)
  else let '(e, out) := opus_Encode pcm e in (e, of_option ErrEncode out).

Definition NewOpusDecoder : result CodecErr ODec :=
  of_option ErrDecoderInit (opus_NewDecoder SampleRate Channels).

Definition silence : list Z := replicate (Z.to_nat FrameSize) 0.

(** A nil packet asks for concealment. *)
Definition Decode (pkt : option bytes) (d : ODec) : ODec * result CodecErr (list Z) :=
  match pkt with
  | None =>
      let '(d, ok, out) := opus_DecodePLC silence d in
      (d, if ok then Ok out else Err ErrPLC)
  | Some pkt =>
      let '(d, n, out) := opus_Decode pkt silence d in
      (d, match n with
          | None => Err ErrDecode
          | Some n => if decide (n ≠ FrameSize) then Err ErrSampleCount else Ok out
          end)
  end.
End codec.

(** ** The pipeline *)

Section pipeline.
Context `{Opus, RtpCodec} {T : Type} `{MediaTransport T}.

(** Interface and pointer fields may be nil. *)
Record PipelineConfig := mkPipelineConfig {
  cfg_Source : bool;
  cfg_Sink : bool;
  cfg_Transport : bool;
  cfg_AEC : option AEC;
  cfg_Stats : bool;
  cfg_Bitrate : Z;
  cfg_JitterTargetMs : Z;
  cfg_JitterMaxMs : Z }.

Record Pipeline := mkPipeline {
  p_aec : AEC;
  p_enc : OEnc;
  p_dec : ODec;
  p_jb : JitterBuffer;
  p_muted : bool;
  p_txSeq : Z;
  p_txTs : Z;
  p_ssrc : Z;
  p_pullQ : list (list Z) }.

(** The objects the configuration points to. *)
Record Shared := mkShared { sh_stats : statsCore; sh_transport : T }.

Definition with_stats (f : statsCore -> statsCore) (sh : Shared) : Shared :=
  mkShared (f (sh_stats sh)) (sh_transport sh).

Inductive PipelineErr := ErrMissingDependency | ErrEncoder (e : CodecErr) | ErrDecoder (e : CodecErr).

(** A zero setting takes its default. *)
Definition default_setting (v d : Z) : Z := if decide (v = 0) then d else v.

(** [ssrc] is the random number drawn. *)
Definition NewPipeline (cfg : PipelineConfig) (ssrc : Z) (sh : Shared) : result PipelineErr (Pipeline * Shared) :=
  match cfg_AEC cfg with
  | None => Err ErrMissingDependency
  | Some aec =>
      if negb (cfg_Source cfg) || negb (cfg_Sink cfg) || negb (cfg_Transport cfg) || negb (cfg_Stats cfg)
      then Err ErrMissingDependency
      else
        let bitrate := default_setting (cfg_Bitrate cfg) 48000 in
        let target := default_setting (cfg_JitterTargetMs cfg) 60 in
        let maxms := default_setting (cfg_JitterMaxMs cfg) 200 in
        enc ← map_err ErrEncoder (NewOpusEncoder bitrate);
        dec ← map_err ErrDecoder NewOpusDecoder;
        Ok (mkPipeline aec enc dec (NewJitterBuffer target maxms) false 0 0 ssrc [],
            with_stats (SetEncoderBitrate bitrate) sh)
  end.

Definition SetMuted (muted : bool) (p : Pipeline) (sh : Shared) : Pipeline * Shared :=
  (mkPipeline (p_aec p) (p_enc p) (p_dec p) (p_jb p) muted (p_txSeq p) (p_txTs p) (p_ssrc p) (p_pullQ p),
   with_stats (StatsSetMuted muted) sh).

(** The packet built around the encoded frame; the counters advance first. *)
Definition next_packet (p : Pipeline) (payload : bytes) : RtpPacket :=
  mkRtp 2 rtpOpusPayloadType (wrap 16 (wrap 32 (p_txSeq p + 1))) (wrap 32 (p_txTs p + FrameSize))
    (p_ssrc p) payload.

(** [onCapture]; the third component is the datagram the transport accepted. *)
Definition onCapture (pcm : list Z) (p : Pipeline) (sh : Shared) : Pipeline * Shared * option bytes :=
  let cleaned := ProcessCapture (p_aec p) pcm in
  if p_muted p then (p, sh, None)
  else
    let '(enc, r) := Encode cleaned (p_enc p) in
    match r with
    | Err _ =>
        (mkPipeline (p_aec p) enc (p_dec p) (p_jb p) (p_muted p) (p_txSeq p) (p_txTs p) (p_ssrc p)
           (p_pullQ p), sh, None)
    | Ok pkt =>
        let rtpPkt := next_packet p pkt in
        let p := mkPipeline (p_aec p) enc (p_dec p) (p_jb p) (p_muted p) (wrap 32 (p_txSeq p + 1))
                   (wrap 32 (p_txTs p + FrameSize)) (p_ssrc p) (p_pullQ p) in
        match rtp_Marshal rtpPkt with
        | None => (p, with_stats ObserveTxDropped sh, None)
        | Some b =>
            let '(t, sent) := transport_SendMedia b (sh_transport sh) in
            if sent then (p, mkShared (ObserveTx cleaned (sh_stats sh)) t, Some b)
            else (p, mkShared (ObserveTxDropped (sh_stats sh)) t, None)
        end
    end.

(** The queue of decoded frames drops its oldest at four. *)
Definition enqueue_frame (f : list Z) (q : list (list Z)) : list (list Z) :=
  (if decide (pullCap <= length q)%nat then tail q else q) ++ [f].

Definition drain_control (ctl : option ControlMessage) (sh : Shared) : Shared :=
  match ctl with
  | Some msg => if decide (cm_Type msg = "mute") then with_stats (SetPeerMuted (cm_Value msg)) sh else sh
  | None => sh
  end.

(** One turn of [recvLoop] with the datagram received and the control message
    its select finds, if any. The third component is what [Decode] was given,
    [None] when the turn ends before it. *)
Definition recv_turn (dg : bytes) (ctl : option ControlMessage) (p : Pipeline) (sh : Shared)
    : option (Pipeline * Shared * option (option bytes)) :=
  match rtp_Unmarshal dg with
  | None => Some (p, with_stats ObserveRxDropped sh, None)
  | Some pkt =>
      '(jb, _) ← Push (rtp_SequenceNumber pkt) (rtp_Payload pkt) (p_jb p);
      let '(jb, opusFrame) := Pop jb in
      let '(dec, r) := Decode opusFrame (p_dec p) in
      match r with
      | Err _ =>
          Some (mkPipeline (p_aec p) (p_enc p) dec jb (p_muted p) (p_txSeq p) (p_txTs p) (p_ssrc p)
                  (p_pullQ p), with_stats ObserveRxDropped sh, Some opusFrame)
      | Ok decoded =>
          Some (mkPipeline (ProcessRender (p_aec p) decoded) (p_enc p) dec jb (p_muted p) (p_txSeq p)
                  (p_txTs p) (p_ssrc p) (enqueue_frame decoded (p_pullQ p)),
                drain_control ctl (with_stats (ObserveRx decoded) sh), Some opusFrame)
      end
  end.

Definition onPull (p : Pipeline) : Pipeline * list Z :=
  match p_pullQ p with
  | [] => (p, silence)
  | f :: q =>
      (mkPipeline (p_aec p) (p_enc p) (p_dec p) (p_jb p) (p_muted p) (p_txSeq p) (p_txTs p) (p_ssrc p) q, f)
  end.

(** *** [Start]: what it does until it returns, in order *)

Inductive StartAct :=
| SourceStart | SourceStop | SinkStart | SinkStop | GoRecvLoop | WaitDone | DecClose | EncClose.

Inductive StartErr := ErrSourceStart | ErrSinkStart.

Definition Start (source_ok sink_ok : bool) : list StartAct * option StartErr :=
  if negb source_ok then ([SourceStart; DecClose; EncClose], Some ErrSourceStart)
  else if negb sink_ok
  then ([SourceStart; GoRecvLoop; SinkStart; SourceStop; DecClose; EncClose], Some ErrSinkStart)
  else ([SourceStart; GoRecvLoop; SinkStart; WaitDone; SinkStop; SourceStop; DecClose; EncClose], None).

(** *** Runs: any interleaving of the callbacks *)

Inductive pevent :=
| PCapture (pcm : list Z)
| PRecv (dg : bytes) (ctl : option ControlMessage)
| PPull
| PSetMuted (b : bool).

Inductive pout :=
| OutSent (b : bytes)
| OutDecoder (frame : option bytes)
| OutPulled (pcm : list Z).

Definition pstep (e : pevent) (p : Pipeline) (sh : Shared) : option (Pipeline * Shared * list pout) :=
  match e with
  | PCapture pcm =>
      let '(p, sh, o) := onCapture pcm p sh in
      Some (p, sh, match o with Some b => [OutSent b] | None => [] end)
  | PRecv dg ctl =>
      '(p, sh, o) ← recv_turn dg ctl p sh;
      Some (p, sh, match o with Some f => [OutDecoder f] | None => [] end)
  | PPull => let '(p, f) := onPull p in Some (p, sh, [OutPulled f])
  | PSetMuted b => let '(p, sh) := SetMuted b p sh in Some (p, sh, [])
  end.

Fixpoint prun (es : list pevent) (p : Pipeline) (sh : Shared) : option (Pipeline * Shared * list pout) :=
  match es with
  | [] => Some (p, sh, [])
  | e :: es =>
      '(p, sh, o) ← pstep e p sh;
      '(p, sh, os) ← prun es p sh;
      Some (p, sh, o ++ os)
  end.
End pipeline.
Arguments Shared T : clear implicits.
Arguments mkShared {T}.

(** ** The reference player

    A queue that starts playing once it holds [target] frames and then plays
    one frame per arrival. *)

Fixpoint q_run (target : Z) (started : bool) (pend : list bytes) (arrivals : list bytes)
    : list (option bytes) :=
  match arrivals with
  | [] => []
  | x :: xs =>
      let pend' := pend ++ [x] in
      if started || bool_decide (target <= Z.of_nat (length pend'))
      then head pend' :: q_run target true (tail pend') xs
      else None :: q_run target false pend' xs
  end.

(** The stream delayed by [d] frames. *)
Definition delayed (d : nat) (l : list bytes) : list (option bytes) :=
  take (length l) (replicate d None ++ (Some <$> l)).

(** The jitter buffer's operations for one packet of [recvLoop]. *)
Definition turn_ops (x : Z * bytes) : list jop := [JPush x.1 x.2; JPop].

Definition pops (outs : list jout) : list (option bytes) :=
  omap (fun x => match x with OutPop f => Some f | OutPush _ => None end) outs.

(** Consecutive sequence numbers from position [s]. *)
Fixpoint stream (s : Z) (xs : list bytes) : list (Z * bytes) :=
  match xs with
  | [] => []
  | x :: xs => (wrap 16 s, x) :: stream (s + 1) xs
  end.

(** ** The jitter buffer under one pop per packet *)

Lemma a_run_cons target maxf o os a :
  a_run target maxf (o :: os) a =
  ((a_run target maxf os (a_step target maxf o a).1).1,
   (a_step target maxf o a).2 :: (a_run target maxf os (a_step target maxf o a).1).2).
Proof.
  cbn [a_run]. destruct (a_step target maxf o a) as [a1 x]. simpl.
  by destruct (a_run target maxf os a1).
Qed.

Lemma a_run_app target maxf os1 : ∀ os2 a,
  a_run target maxf (os1 ++ os2) a =
  ((a_run target maxf os2 (a_run target maxf os1 a).1).1,
   (a_run target maxf os1 a).2 ++ (a_run target maxf os2 (a_run target maxf os1 a).1).2).
Proof.
  induction os1 as [|o os1 IH]; intros os2 a; [simpl; by destruct (a_run target maxf os2 a)|].
  rewrite <- app_comm_cons, !a_run_cons, IH. done.
Qed.

Lemma pops_app o1 o2 : pops (o1 ++ o2) = pops o1 ++ pops o2.
Proof. apply omap_app. Qed.

(** The state and the frames given to the decoder after the packets [xs]. *)
Definition turns (target maxf : Z) (xs : list (Z * bytes)) (a : ABuf) : ABuf * list (option bytes) :=
  let r := a_run target maxf (xs ≫= turn_ops) a in (r.1, pops r.2).

Lemma turns_cons target maxf x xs a :
  turns target maxf (x :: xs) a =
  let r := a_pop target (a_push maxf x.1 x.2 a).1 in
  ((turns target maxf xs r.1).1, r.2 :: (turns target maxf xs r.1).2).
Proof.
  unfold turns. change ((x :: xs) ≫= turn_ops) with (JPush x.1 x.2 :: JPop :: (xs ≫= turn_ops)).
  rewrite !a_run_cons. cbn [a_step]. destruct (a_push maxf x.1 x.2 a) as [a1 b].
  cbn [fst snd]. by destruct (a_pop target a1) as [a2 f].
Qed.

Lemma turns_app target maxf xs ys a :
  turns target maxf (xs ++ ys) a =
  ((turns target maxf ys (turns target maxf xs a).1).1,
   (turns target maxf xs a).2 ++ (turns target maxf ys (turns target maxf xs a).1).2).
Proof. unfold turns. rewrite bind_app, a_run_app. simpl. by rewrite pops_app. Qed.

(** The abstract buffer holding the frames [l] from position [lo] on. *)
Definition holds (lo : Z) (l : list bytes) (started : bool) (a : ABuf) : Prop :=
  a = mkABuf (map_seqZ lo l) lo true started.

Lemma size_map_seqZ (lo : Z) (l : list bytes) : size (map_seqZ lo l : gmap Z bytes) = length l.
Proof.
  revert lo. induction l as [|x l IH]; intros lo; [apply map_size_empty|].
  rewrite map_seqZ_cons, map_size_insert_None, IH; [done|].
  apply lookup_map_seqZ_None. left. lia.
Qed.

Lemma delete_map_seqZ (lo : Z) x (l : list bytes) :
  delete lo (map_seqZ lo (x :: l) : gmap Z bytes) = map_seqZ (lo + 1) l.
Proof.
  rewrite map_seqZ_cons, delete_insert_id; [by replace (lo + 1) with (Z.succ lo) by lia|].
  apply lookup_map_seqZ_None. left. lia.
Qed.

Lemma pos_of_wrap a p :
  a_started a = true -> a_next a - 32768 <= p < a_next a + 32768 -> a_pos a (wrap 16 p) = p.
Proof.
  intros Hst Hp. unfold a_pos. rewrite Hst.
  replace p with (a_next a + (p - a_next a)) at 1 by lia.
  rewrite <- wrap16_add, seqDelta_unique; [lia|apply wrap16_range|lia].
Qed.

Lemma a_push_next maxf lo l st x :
  Z.of_nat (length l) < maxf -> Z.of_nat (length l) < 32768 ->
  a_push maxf (wrap 16 (lo + Z.of_nat (length l))) x (mkABuf (map_seqZ lo l) lo true st) =
  (mkABuf (map_seqZ lo (l ++ [x])) lo true st, true).
Proof.
  intros Hmax Hlen. unfold a_push. rewrite pos_of_wrap by (simpl; lia). cbn [a_started a_next a_frames a_primed].
  rewrite (proj2 (Z.ltb_ge _ _)) by lia. cbn [andb]. rewrite <- map_seqZ_snoc.
  rewrite size_map_seqZ, length_app, decide_False by (simpl; lia). done.
Qed.

Lemma a_pop_holds target lo l st :
  l ≠ [] ->
  a_pop target (mkABuf (map_seqZ lo l) lo true st) =
  if st || bool_decide (target <= Z.of_nat (length l))
  then (mkABuf (map_seqZ (lo + 1) (tail l)) (lo + 1) true true, head l)
  else (mkABuf (map_seqZ lo l) lo true st, None).
Proof.
  intros Hl. unfold a_pop. cbn [a_started a_next a_frames a_primed negb].
  rewrite size_map_seqZ.
  replace (negb st && (Z.of_nat (length l) <? target))
    with (negb (st || bool_decide (target <= Z.of_nat (length l)))).
  2:{ destruct st; [done|]. simpl. case_bool_decide; simpl; symmetry; [apply Z.ltb_ge|apply Z.ltb_lt]; lia. }
  destruct (st || _); [|done]. cbn [negb]. destruct l as [|x l]; [done|].
  rewrite delete_map_seqZ. simpl. by rewrite lookup_insert_eq.
Qed.

Lemma stream_shift s xs : stream (wrap 16 s) xs = stream s xs.
Proof.
  revert s. induction xs as [|x xs IH]; intros s; [done|]. simpl. f_equal.
  - f_equal. apply wrap16_id, wrap16_range.
  - rewrite <- IH, wrap16_add, IH. done.
Qed.

Lemma stream_app s xs ys :
  stream s (xs ++ ys) = stream s xs ++ stream (s + Z.of_nat (length xs)) ys.
Proof.
  revert s. induction xs as [|x xs IH]; intros s; simpl; [by rewrite Z.add_0_r|].
  f_equal. rewrite IH. do 2 f_equal. lia.
Qed.

(** The state of the reference player after [arrivals]. *)
Fixpoint q_state (target : Z) (started : bool) (pend : list bytes) (lo : Z) (arrivals : list bytes)
    : bool * list bytes * Z :=
  match arrivals with
  | [] => (started, pend, lo)
  | x :: xs =>
      let pend' := pend ++ [x] in
      if started || bool_decide (target <= Z.of_nat (length pend'))
      then q_state target true (tail pend') (lo + 1) xs
      else q_state target false pend' lo xs
  end.

(** In-order packets: the buffer is the reference player. *)
Lemma turns_in_order target maxf xs : ∀ lo l st,
  1 <= maxf -> target <= maxf -> target < 32768 ->
  Z.of_nat (length l) < Z.max 1 target ->
  turns target maxf (stream (lo + Z.of_nat (length l)) xs) (mkABuf (map_seqZ lo l) lo true st) =
  (let '(st', l', lo') := q_state target st l lo xs in mkABuf (map_seqZ lo' l') lo' true st',
   q_run target st l xs).
Proof.
  induction xs as [|x xs IH]; intros lo l st Hmax Htm Ht Hl; [done|].
  simpl stream. rewrite turns_cons. cbn [fst snd].
  rewrite a_push_next by lia. cbn [fst]. rewrite a_pop_holds by (by destruct l).
  cbn [q_run q_state]. rewrite length_app. simpl length.
  destruct (st || bool_decide (target <= Z.of_nat (length l + 1))) eqn:Hst; cbn [fst snd].
  - assert (length (tail (l ++ [x])) = length l) as Hlen.
    { destruct l; [done|]. simpl. rewrite length_app. simpl. lia. }
    replace (lo + Z.of_nat (length l) + 1) with (lo + 1 + Z.of_nat (length (tail (l ++ [x])))) by lia.
    rewrite IH by lia. cbn [fst snd]. done.
  - apply orb_false_iff in Hst as [-> Hb%bool_decide_eq_false].
    replace (lo + Z.of_nat (length l) + 1) with (lo + Z.of_nat (length (l ++ [x])))
      by (rewrite length_app; simpl; lia).
    rewrite IH; [done|lia|lia|lia|rewrite length_app; simpl; lia].
Qed.

(** A fresh buffer behaves as one that waits for the first packet. *)
Lemma turns_init target maxf s xs : 1 <= maxf -> xs ≠ [] ->
  turns target maxf (stream s xs) a_init =
  turns target maxf (stream s xs) (mkABuf (map_seqZ (wrap 16 s) []) (wrap 16 s) true false).
Proof.
  intros Hmax Hxs. destruct xs as [|x xs]; [done|]. simpl stream. rewrite !turns_cons. cbn [fst snd].
  enough (a_push maxf (wrap 16 s) x a_init =
    a_push maxf (wrap 16 s) x (mkABuf (map_seqZ (wrap 16 s) []) (wrap 16 s) true false)) as -> by done.
  pose proof (a_push_next maxf (wrap 16 s) [] false x) as Hn.
  cbn [length Z.of_nat] in Hn.
  rewrite Z.add_0_r, (wrap16_id (wrap 16 s)) in Hn by apply wrap16_range. rewrite Hn by (simpl; lia).
  unfold a_push, a_init. cbn [a_started andb a_frames a_primed a_pos].
  rewrite decide_False; [done|].
  rewrite map_size_insert_None, map_size_empty by apply lookup_empty. lia.
Qed.

Definition tgt (target : Z) : nat := Z.to_nat (Z.max 1 target).

Lemma q_run_started target xs : ∀ pend,
  q_run target true pend xs = take (length xs) (Some <$> (pend ++ xs)).
Proof.
  induction xs as [|x xs IH]; intros pend; [done|]. cbn [q_run orb]. rewrite IH.
  destruct pend as [|y pend]; [done|]. simpl. do 3 f_equal. by rewrite <- app_assoc.
Qed.

Lemma q_run_waiting target xs : ∀ pend,
  (length pend < tgt target)%nat ->
  q_run target false pend xs =
  take (length xs) (replicate (tgt target - 1 - length pend) None ++ (Some <$> (pend ++ xs))).
Proof.
  induction xs as [|x xs IH]; intros pend Hp; [done|]. cbn [q_run orb].
  unfold tgt in *. case_bool_decide as Hb; rewrite length_app in Hb; simpl in Hb.
  - replace (Z.to_nat (Z.max 1 target) - 1 - length pend)%nat with 0%nat by lia.
    rewrite q_run_started. destruct pend as [|y pend]; [done|].
    simpl. do 3 f_equal. by rewrite <- app_assoc.
  - rewrite IH by (rewrite length_app; simpl; lia). rewrite length_app. simpl length.
    replace (Z.to_nat (Z.max 1 target) - 1 - length pend)%nat
      with (S (Z.to_nat (Z.max 1 target) - 1 - (length pend + 1)))%nat by lia.
    simpl. do 3 f_equal. by rewrite <- app_assoc.
Qed.

Lemma q_run_delayed target xs : q_run target false [] xs = delayed (tgt target - 1) xs.
Proof. rewrite q_run_waiting by (unfold tgt; simpl; lia). simpl. by rewrite Nat.sub_0_r. Qed.

(** Once playing, the player holds the last [target - 1] arrivals. *)
Lemma q_state_started target xs : ∀ pend lo,
  q_state target true pend lo xs =
  (true, drop (length xs) (pend ++ xs), lo + Z.of_nat (length xs)).
Proof.
  induction xs as [|x xs IH]; intros pend lo; simpl.
  - by rewrite app_nil_r, Z.add_0_r.
  - rewrite IH. f_equal; [|lia]. f_equal.
    replace (pend ++ x :: xs) with ((pend ++ [x]) ++ xs) by by rewrite <- app_assoc.
    destruct pend; done.
Qed.

Lemma q_state_playing target xs : ∀ pend lo,
  (length pend < tgt target)%nat -> (tgt target <= length pend + length xs)%nat ->
  q_state target false pend lo xs =
  (true, drop (length pend + length xs - (tgt target - 1)) (pend ++ xs),
   lo + Z.of_nat (length pend + length xs - (tgt target - 1))).
Proof.
  induction xs as [|x xs IH]; intros pend lo Hp Hx; simpl in Hx; [lia|]. cbn [q_state orb].
  unfold tgt in *. replace (pend ++ x :: xs) with ((pend ++ [x]) ++ xs) by by rewrite <- app_assoc.
  case_bool_decide as Hb; rewrite length_app in Hb; simpl in Hb.
  - rewrite q_state_started. simpl length.
    replace (length pend + S (length xs) - (Z.to_nat (Z.max 1 target) - 1))%nat
      with (S (length xs)) by lia.
    f_equal; [|lia]. f_equal. destruct pend; done.
  - rewrite IH by (rewrite length_app; simpl; lia). rewrite length_app. simpl length.
    do 2 f_equal; [do 2 f_equal|f_equal]; lia.
Qed.

(** Copies of the newest packet are played as if they were new ... *)
Lemma turns_drain target maxf y l : ∀ lo,
  Z.of_nat (length l) <= maxf -> Z.of_nat (length l) < 32768 ->
  last l = Some y ->
  turns target maxf (replicate (length l) (wrap 16 (lo + Z.of_nat (length l) - 1), y))
    (mkABuf (map_seqZ lo l) lo true true) =
  (mkABuf ∅ (lo + Z.of_nat (length l)) true true, Some <$> l).
Proof.
  induction l as [|x l IH]; intros lo Hmax Hlen Hlast; [done|].
  simpl replicate. rewrite turns_cons. cbn [fst snd]. simpl length in *.
  set (p := lo + Z.of_nat (S (length l)) - 1).
  assert (a_push maxf (wrap 16 p) y (mkABuf (map_seqZ lo (x :: l)) lo true true) =
    (mkABuf (map_seqZ lo (x :: l)) lo true true, true)) as ->.
  { unfold a_push. rewrite pos_of_wrap by (simpl; lia). cbn [a_started a_next a_frames a_primed].
    rewrite (proj2 (Z.ltb_ge _ _)) by lia. cbn [andb].
    rewrite insert_id.
    - rewrite size_map_seqZ, decide_False by (simpl; lia). done.
    - rewrite lookup_map_seqZ. rewrite option_guard_True by lia.
      replace (Z.to_nat (p - lo)) with (length l) by lia.
      rewrite last_lookup in Hlast. exact Hlast. }
  cbn [fst]. rewrite a_pop_holds by done. cbn [orb fst snd tail head].
  destruct l as [|x' l].
  - done.
  - replace p with (lo + 1 + Z.of_nat (length (x' :: l)) - 1) by lia.
    rewrite IH; [|simpl; simpl in Hmax; lia|simpl; simpl in Hlen; lia|done].
    cbn [fst snd]. do 2 f_equal. lia.
Qed.

(** ... and once the buffer is empty and the next position has been skipped,
    every packet of the stream is late. *)
Lemma turns_starved target maxf xs : ∀ pos nx,
  pos < nx <= pos + 32768 ->
  turns target maxf (stream pos xs) (mkABuf ∅ nx true true) =
  (mkABuf ∅ (nx + Z.of_nat (length xs)) true true, replicate (length xs) None).
Proof.
  induction xs as [|x xs IH]; intros pos nx Hp.
  - simpl. by rewrite Z.add_0_r.
  - simpl stream. rewrite turns_cons. cbn [fst snd].
    assert (a_push maxf (wrap 16 pos) x (mkABuf ∅ nx true true) = (mkABuf ∅ nx true true, false)) as ->.
    { unfold a_push. rewrite pos_of_wrap by (simpl; lia). cbn [a_started a_next].
      by rewrite (proj2 (Z.ltb_lt _ _)) by lia. }
    cbn [fst]. unfold a_pop. cbn [a_started a_primed negb andb a_frames a_next fst snd].
    rewrite delete_empty, lookup_empty, IH by lia. simpl. do 2 f_equal. lia.
Qed.

(** The packets [xs] and [y] in order, copies of the last, and the stream again. *)
Lemma turns_duplicates target maxf s xs y ys :
  1 <= maxf -> target <= maxf -> target < 32768 ->
  (tgt target <= length (xs ++ [y]))%nat ->
  (turns target maxf (stream s (xs ++ [y]) ++
      replicate (tgt target) (wrap 16 (s + Z.of_nat (length xs)), y) ++
      stream (s + Z.of_nat (length (xs ++ [y]))) ys) a_init).2 =
  delayed (tgt target - 1) (xs ++ [y]) ++
    (Some <$> drop (length (xs ++ [y]) - (tgt target - 1)) (xs ++ [y])) ++
    None :: replicate (length ys) None.
Proof.
  intros HM Htm Ht Hlen.
  rewrite turns_app, turns_init by (try done; by destruct xs). cbn [snd].
  pose proof (turns_in_order target maxf (xs ++ [y]) (wrap 16 s) [] false) as Hq.
  cbn [length Z.of_nat] in Hq. rewrite Z.add_0_r, stream_shift in Hq.
  rewrite Hq by lia. cbn [fst snd]. clear Hq. rewrite q_run_delayed. f_equal.
  rewrite q_state_playing by (simpl; unfold tgt in *; lia). cbn [length app].
  replace (0 + length (xs ++ [y]) - (tgt target - 1))%nat
    with (length (xs ++ [y]) - (tgt target - 1))%nat by lia.
  set (k := (length (xs ++ [y]) - (tgt target - 1))%nat).
  set (l := drop k (xs ++ [y])).
  assert (length l = tgt target - 1)%nat as Hll by (unfold l, k; rewrite length_drop; lia).
  assert (wrap 16 (s + Z.of_nat (length xs)) =
    wrap 16 (wrap 16 s + Z.of_nat k + Z.of_nat (length l) - 1)) as Hnew.
  { replace (wrap 16 s + Z.of_nat k + Z.of_nat (length l) - 1)
      with (wrap 16 s + Z.of_nat (length xs)); [by rewrite wrap16_add|].
    rewrite Hll. unfold k. rewrite length_app in *. simpl in *. unfold tgt in *. lia. }
  replace (tgt target) with (length l + 1)%nat by (unfold tgt in *; lia).
  rewrite replicate_add, <- app_assoc, turns_app. cbn [snd].
  set (lo := wrap 16 s + Z.of_nat k) in *.
  assert (turns target maxf (replicate (length l) (wrap 16 (s + Z.of_nat (length xs)), y))
    (mkABuf (map_seqZ lo l) lo true true) = (mkABuf ∅ (lo + Z.of_nat (length l)) true true, Some <$> l)) as ->.
  { destruct (decide (l = [])) as [->|Hne]; [simpl; by rewrite Z.add_0_r|].
    rewrite Hnew. apply turns_drain; [rewrite Hll; unfold tgt; lia|rewrite Hll; unfold tgt; lia|].
    unfold l in *. destruct (decide (k <= length xs)%nat) as [Hk|Hk].
    - by rewrite drop_app_le, last_snoc by done.
    - destruct Hne. apply drop_ge. rewrite length_app. simpl. lia. }
  cbn [fst snd]. f_equal.
  assert (replicate 1 (wrap 16 (s + Z.of_nat (length xs)), y) ++
      stream (s + Z.of_nat (length (xs ++ [y]))) ys =
    stream (lo + Z.of_nat (length l) - 1) (y :: ys)) as ->.
  { cbn [replicate app stream]. rewrite Hnew. f_equal.
    rewrite <- (stream_shift (lo + _ - 1 + 1)), <- (stream_shift (s + _)). f_equal.
    replace (lo + Z.of_nat (length l) - 1 + 1) with (lo + Z.of_nat (length l) - 1 + 1) by lia.
    rewrite <- (wrap16_add (lo + Z.of_nat (length l) - 1) 1), <- Hnew, wrap16_add, length_app.
    f_equal. simpl. lia. }
  rewrite turns_starved by lia. done.
Qed.

(** ** The pipeline's callbacks: lemmas *)

Section pipeline_lemmas.
Context `{Opus, RtpCodec} {T : Type} `{MediaTransport T}.
Implicit Types (p : Pipeline) (sh : Shared T).

(** A datagram that parses to a packet with this sequence number and payload. *)
Definition carries (d : bytes) (x : Z * bytes) : Prop :=
  ∃ pkt, rtp_Unmarshal d = Some pkt ∧ rtp_SequenceNumber pkt = x.1 ∧ rtp_Payload pkt = x.2.

Definition cfg_target (cfg : PipelineConfig) : Z :=
  Z.quot (default_setting (cfg_JitterTargetMs cfg) 60) FrameMs.
Definition cfg_max (cfg : PipelineConfig) : Z :=
  Z.quot (default_setting (cfg_JitterMaxMs cfg) 200) FrameMs.

Lemma NewPipeline_Ok cfg ssrc sh p sh' :
  NewPipeline cfg ssrc sh = Ok (p, sh') ->
  p_jb p = NewJitterBuffer (default_setting (cfg_JitterTargetMs cfg) 60)
             (default_setting (cfg_JitterMaxMs cfg) 200) ∧
  p_muted p = false ∧ p_txSeq p = 0 ∧ p_txTs p = 0 ∧ p_ssrc p = ssrc ∧ p_pullQ p = [] ∧
  sh_stats sh' = SetEncoderBitrate (default_setting (cfg_Bitrate cfg) 48000) (sh_stats sh).
Proof.
  unfold NewPipeline. destruct (cfg_AEC cfg); [|done]. destruct (_ || _); [done|].
  intros Hn. apply result_bind_inv in Hn as (e & _ & Hn). apply result_bind_inv in Hn as (d & _ & Hn).
  by simplify_eq/=.
Qed.

Lemma Decode_length pkt d out : (Decode pkt d).2 = Ok out -> length out = Z.to_nat FrameSize.
Proof.
  unfold Decode. destruct pkt as [pkt|].
  - pose proof (opus_Decode_length pkt silence d) as Hl. destruct (opus_Decode pkt silence d) as [[d' n] o].
    intros Hd. destruct n as [n|]; [|done]. simpl in *. case_decide; simplify_eq. by rewrite Hl.
  - pose proof (opus_DecodePLC_length silence d) as Hl. destruct (opus_DecodePLC silence d) as [[d' ok] o].
    intros Hd. simpl in *. destruct ok; simplify_eq. by rewrite Hl.
Qed.

Lemma enqueue_frame_ok f q :
  (length q <= pullCap)%nat -> Forall (fun f => length f = Z.to_nat FrameSize) q ->
  length f = Z.to_nat FrameSize ->
  (length (enqueue_frame f q) <= pullCap)%nat ∧
  Forall (fun f => length f = Z.to_nat FrameSize) (enqueue_frame f q).
Proof.
  intros Hlen Hq Hf. unfold enqueue_frame. rewrite length_app. split.
  - case_decide; [destruct q|]; simpl in *; unfold pullCap in *; lia.
  - apply Forall_app. split; [|by repeat constructor]. case_decide; [|done]. by apply Forall_tail.
Qed.

Lemma wrap16_wrap32 n : wrap 16 (wrap 32 n) = wrap 16 n.
Proof. unfold wrap. symmetry. apply Znumtheory.Zmod_div_mod; [lia|lia|]. by exists (2 ^ 16). Qed.

Lemma wrap32_add n k : wrap 32 (wrap 32 n + k) = wrap 32 (n + k).
Proof. unfold wrap. by rewrite Zplus_mod_idemp_l. Qed.

(** What a callback leaves of the pipeline [p] with [n] frames encoded. *)
Definition packet_no (ssrc n : Z) (b : bytes) : Prop :=
  ∃ payload, rtp_Marshal
    (mkRtp 2 rtpOpusPayloadType (wrap 16 n) (wrap 32 (FrameSize * n)) ssrc payload) = Some b.

Record pinv (M ssrc n : Z) (ewma : float64) p sh : Prop := {
  pi_sim : ∃ a, sim (p_jb p) a;
  pi_size : Z.of_nat (size (frames (p_jb p))) <= M;
  pi_max : maxFrames (p_jb p) = M;
  pi_M : 1 <= M;
  pi_q : (length (p_pullQ p) <= pullCap)%nat;
  pi_frames : Forall (fun f => length f = Z.to_nat FrameSize) (p_pullQ p);
  pi_seq : p_txSeq p = wrap 32 n;
  pi_ts : p_txTs p = wrap 32 (FrameSize * n);
  pi_ssrc : p_ssrc p = ssrc;
  pi_ewma : jitterEWMA (sh_stats sh) = ewma }.

Lemma silence_length : length silence = Z.to_nat FrameSize.
Proof. apply length_replicate. Qed.

(** [onCapture] consumes a number per encoded frame and sends at most one packet, that one. *)
Lemma onCapture_inv M ssrc n ewma pcm p sh :
  pinv M ssrc n ewma p sh ->
  let r := onCapture pcm p sh in
  ∃ n', (n' = n ∨ (n' = n + 1 ∧ p_muted p = false)) ∧ pinv M ssrc n' ewma r.1.1 r.1.2 ∧
    p_muted r.1.1 = p_muted p ∧
    match r.2 with Some b => n' = n + 1 ∧ packet_no ssrc n' b | None => True end.
Proof.
  intros Hi. unfold onCapture, ProcessCapture. destruct (p_muted p) eqn:Hm.
  { simpl. exists n. eauto. }
  destruct (Encode pcm (p_enc p)) as [enc [pkt|e]].
  2:{ simpl. exists n. split; [by left|]. split; [|done]. by destruct Hi. }
  destruct Hi as [? ? ? ? ? ? Hsq Hts Hss ?].
  assert (wrap 32 (p_txTs p + FrameSize) = wrap 32 (FrameSize * (n + 1))) as Hts'.
  { rewrite Hts, wrap32_add. f_equal. lia. }
  assert (wrap 32 (p_txSeq p + 1) = wrap 32 (n + 1)) as Hsq' by by rewrite Hsq, wrap32_add.
  exists (n + 1). split; [by right|].
  destruct (rtp_Marshal (next_packet p pkt)) as [b|] eqn:Hma.
  - destruct (transport_SendMedia b (sh_transport sh)) as [t []].
    + split; [|split; [done|]]. { split; try done. simpl in *. by destruct (sh_stats sh). }
      simpl. split; [done|]. exists pkt. rewrite <- Hma. f_equal. unfold next_packet. f_equal; [|done|done].
      by rewrite Hsq', wrap16_wrap32.
    + split; [|done]. split; try done. simpl in *. by destruct (sh_stats sh).
  - split; [|done]. split; try done. simpl in *. by destruct (sh_stats sh).
Qed.

(** A turn of the receive loop always finishes. *)
Lemma recv_turn_inv M ssrc n ewma dg ctl p sh :
  pinv M ssrc n ewma p sh ->
  ∃ p' sh' o, recv_turn dg ctl p sh = Some (p', sh', o) ∧ pinv M ssrc n ewma p' sh' ∧
    p_muted p' = p_muted p.
Proof.
  intros Hi. unfold recv_turn. destruct (rtp_Unmarshal dg) as [pkt|] eqn:Hu.
  2:{ eexists _, _, _. split; [done|]. split; [|done]. destruct Hi. split; try done.
      simpl in *. by destruct (sh_stats sh). }
  pose proof (rtp_seq_range _ _ Hu) as Hseq.
  destruct Hi as [[a Hs] Hsz Hmax HM Hq Hf Hsq Hts Hss Hew].
  destruct (push_sim (p_jb p) a _ (rtp_Payload pkt) Hs Hseq) as (jb1 & -> & Hs1 & Hm1 & _ & Hsz1);
    [lia|lia|]. simpl.
  destruct (pop_sim jb1 _ Hs1) as (Hs2 & _ & Hm2 & _ & Hsz2).
  destruct (Pop jb1) as [jb2 fr]. cbn [fst snd] in *.
  pose proof (Decode_length fr (p_dec p)) as Hdl.
  destruct (Decode fr (p_dec p)) as [dec [out|e]]; eexists _, _, _; (split; [done|]); (split; [|done]).
  - destruct (enqueue_frame_ok out (p_pullQ p) Hq Hf (Hdl _ eq_refl)) as [Hq' Hf'].
    split; simpl; try done; try lia; eauto.
    destruct ctl as [msg|]; simpl; [case_decide|]; simpl in *; by destruct (sh_stats sh).
  - split; simpl; try done; try lia; eauto. simpl in *. by destruct (sh_stats sh).
Qed.

Definition sents (outs : list pout) : list bytes :=
  omap (fun o => match o with OutSent b => Some b | _ => None end) outs.

(** The frames captured while not muted. *)
Fixpoint unmuted_captures (es : list pevent) (muted : bool) : Z :=
  match es with
  | [] => 0
  | PCapture _ :: es => (if muted then 0 else 1) + unmuted_captures es muted
  | PSetMuted b :: es => unmuted_captures es b
  | _ :: es => unmuted_captures es muted
  end.

(** Increasing positions after [lo] and up to [hi]. *)
Fixpoint increasing (lo hi : Z) (ns : list Z) : Prop :=
  match ns with
  | [] => lo <= hi
  | n :: ns => lo < n ∧ increasing n hi ns
  end.

Lemma increasing_mono lo lo' hi hi' ns :
  increasing lo hi ns -> lo' <= lo -> hi <= hi' -> increasing lo' hi' ns.
Proof.
  revert lo lo'. induction ns as [|n ns IH]; simpl; intros lo lo' Hi Hlo Hhi; [lia|].
  destruct Hi as [? Hi]. split; [lia|]. by apply (IH n n); [|lia|].
Qed.

Lemma pinv_new cfg ssrc sh0 p sh :
  NewPipeline cfg ssrc sh0 = Ok (p, sh) -> 1 <= cfg_max cfg ->
  pinv (cfg_max cfg) ssrc 0 (jitterEWMA (sh_stats sh0)) p sh.
Proof.
  intros (Hjb & _ & Hsq & Hts & Hss & Hq & Hst)%NewPipeline_Ok HM. split; rewrite ?Hjb, ?Hq, ?Hsq, ?Hts, ?Hst.
  - eexists. apply NewJitterBuffer_sim.
  - unfold NewJitterBuffer. cbn [frames]. rewrite map_size_empty. lia.
  - done.
  - done.
  - simpl. lia.
  - constructor.
  - done.
  - done.
  - done.
  - by destruct (sh_stats sh0).
Qed.

Lemma prun_inv M ssrc ewma es : ∀ n p sh,
  pinv M ssrc n ewma p sh ->
  ∃ p' sh' outs n' ns, prun es p sh = Some (p', sh', outs) ∧ pinv M ssrc n' ewma p' sh' ∧
    Forall2 (packet_no ssrc) ns (sents outs) ∧
    increasing n (n + unmuted_captures es (p_muted p)) ns ∧
    (∀ f, OutPulled f ∈ outs -> length f = Z.to_nat FrameSize).
Proof.
  induction es as [|e es IH]; intros n p sh Hi.
  { exists p, sh, [], n, []. simpl. split_and!; try done; [lia|]. intros f. by rewrite elem_of_nil. }
  destruct e as [pcm|dg ctl| |b]; cbn [prun pstep unmuted_captures].
  - pose proof (onCapture_inv _ _ _ _ pcm _ _ Hi) as Hc. cbv zeta in Hc.
    destruct (onCapture pcm p sh) as [[p1 sh1] o]. cbn [fst snd] in Hc.
    destruct Hc as (n1 & Hn1 & Hi1 & Hm1 & Ho).
    destruct (IH n1 p1 sh1 Hi1) as (p' & sh' & outs & n' & ns & Hr & Hi' & Hf & Hinc & Hp).
    simpl. rewrite Hr. simpl. rewrite Hm1 in Hinc.
    assert (n1 + unmuted_captures es (p_muted p) <=
      n + ((if p_muted p then 0 else 1) + unmuted_captures es (p_muted p))) as Hle.
    { destruct Hn1 as [->|[-> ->]]; [destruct (p_muted p); lia|simpl; lia]. }
    destruct o as [b|].
    + destruct Ho as [-> Hb]. exists p', sh', (OutSent b :: outs), n', ((n + 1) :: ns). simpl.
      split; [done|]. split; [done|]. split; [by constructor|].
      split; [split; [lia|by eapply increasing_mono]|].
      intros f [?|?]%elem_of_cons; [done|auto].
    + exists p', sh', outs, n', ns. split_and!; try done.
      eapply increasing_mono; [done| |done]. destruct Hn1 as [->|[-> _]]; lia.
  - destruct (recv_turn_inv _ _ _ _ dg ctl _ _ Hi) as (p1 & sh1 & o & -> & Hi1 & Hm1).
    destruct (IH n p1 sh1 Hi1) as (p' & sh' & outs & n' & ns & Hr & Hi' & Hf & Hinc & Hp).
    simpl. rewrite Hr. simpl. rewrite Hm1 in Hinc. eexists _, _, _, n', ns.
    split; [done|]. split; [done|]. split; [by destruct o|]. split; [done|].
    intros f. destruct o; [intros [?|?]%elem_of_cons; [done|auto]|auto].
  - assert (pinv M ssrc n ewma (onPull p).1 sh ∧ p_muted (onPull p).1 = p_muted p ∧
      length (onPull p).2 = Z.to_nat FrameSize) as (Hi1 & Hm1 & Hl).
    { unfold onPull. destruct Hi as [? ? ? ? Hq Hf ? ? ?]. destruct (p_pullQ p) as [|f q] eqn:Eq.
      - split; [split; simpl; rewrite ?Eq; done|]. split; [done|apply silence_length].
      - apply Forall_cons in Hf as [Hf Hf']. simpl in Hq. split; [split; simpl; try done; lia|done]. }
    destruct (onPull p) as [p1 f1]. cbn [fst snd] in *.
    destruct (IH n p1 sh Hi1) as (p' & sh' & outs & n' & ns & Hr & Hi' & Hf & Hinc & Hp).
    simpl. rewrite Hr. simpl. rewrite Hm1 in Hinc. eexists _, _, _, n', ns.
    split; [done|]. split; [done|]. split; [done|]. split; [done|].
    intros f [?|?]%elem_of_cons; [by simplify_eq|auto].
  - destruct (IH n (SetMuted b p sh).1 (SetMuted b p sh).2) as (p' & sh' & outs & n' & ns & Hr & Hi' & Hf & Hinc & Hp).
    { destruct Hi. split; try done. simpl in *. by destruct (sh_stats sh). }
    unfold SetMuted in *. simpl in *. rewrite Hr. simpl. by exists p', sh', outs, n', ns.
Qed.

(** C40: every interleaving of the callbacks of a new pipeline runs to its end
    when the jitter buffer may hold a frame; the playback callback always gets
    960 samples and at most four frames wait for it; the packets sent are
    numbered consecutively per encoded frame, the sequence number modulo 2^16
    and the timestamp (960 per frame) modulo 2^32, so none is repeated, none is
    sent for a muted frame; and the jitter average is never updated. *)
Theorem pipeline_bounds cfg ssrc sh0 p sh es :
  NewPipeline cfg ssrc sh0 = Ok (p, sh) -> 1 <= cfg_max cfg ->
  ∃ p' sh' outs ns,
    prun es p sh = Some (p', sh', outs) ∧
    (length (p_pullQ p') <= 4)%nat ∧
    (∀ f, OutPulled f ∈ outs -> length f = 960%nat) ∧
    Forall2 (packet_no ssrc) ns (sents outs) ∧
    increasing 0 (unmuted_captures es false) ns ∧
    jitterEWMA (sh_stats sh') = jitterEWMA (sh_stats sh0).
Proof.
  intros Hn HM. pose proof (NewPipeline_Ok _ _ _ _ _ Hn) as (_ & Hm & _).
  destruct (prun_inv _ _ _ es _ _ _ (pinv_new _ _ _ _ _ Hn HM))
    as (p' & sh' & outs & n' & ns & Hr & Hi & Hf & Hinc & Hp). rewrite Hm in Hinc.
  exists p', sh', outs, ns. destruct Hi. by split_and!.
Qed.

(** *** The receive loop as operations of the jitter buffer *)

Lemma recv_run_jitter ds : ∀ xs ctls p sh jb' outs,
  Forall2 carries ds xs -> length ctls = length ds ->
  j_run (xs ≫= turn_ops) (p_jb p) = Some (jb', outs) ->
  ∃ p' sh', prun (zip_with PRecv ds ctls) p sh = Some (p', sh', OutDecoder <$> pops outs) ∧
    p_jb p' = jb'.
Proof.
  induction ds as [|d ds IH]; intros xs ctls p sh jb' outs Hc Hl Hj.
  { apply Forall2_nil_inv_l in Hc as ->. simpl in Hj. simplify_eq. by exists p, sh. }
  apply Forall2_cons_inv_l in Hc as (x & xs' & (pkt & Hu & Hsq & Hpl) & Hc & ->).
  destruct ctls as [|c ctls]; [done|]. simpl in Hl.
  change ((x :: xs') ≫= turn_ops) with (JPush x.1 x.2 :: JPop :: (xs' ≫= turn_ops)) in Hj.
  cbn [j_run j_step] in Hj. cbn [zip_with prun pstep]. unfold recv_turn. rewrite Hu, Hsq, Hpl.
  destruct (Push x.1 x.2 (p_jb p)) as [[jb1 acc]|]; [|done]. simpl in Hj |- *.
  destruct (Pop jb1) as [jb2 f]. simpl in Hj |- *.
  destruct (j_run (xs' ≫= turn_ops) jb2) as [[jb3 outs']|] eqn:Hj'; [|done]. simpl in Hj. simplify_eq.
  destruct (Decode f (p_dec p)) as [dec [out|e]]; simpl;
    match goal with |- context [prun _ ?q ?s] =>
      destruct (IH xs' ctls q s _ _ Hc ltac:(lia) Hj') as (p' & sh' & -> & Hjb) end;
    simpl; by exists p', sh'.
Qed.

(** A new pipeline's receive loop is the jitter buffer under one pop per packet. *)
Lemma recv_turns cfg ssrc sh0 p sh ds xs ctls :
  NewPipeline cfg ssrc sh0 = Ok (p, sh) -> 1 <= cfg_max cfg ->
  Forall2 carries ds xs -> length ctls = length ds ->
  Forall (fun x => uint16 x.1) xs ->
  ∃ p' sh', prun (zip_with PRecv ds ctls) p sh =
    Some (p', sh', OutDecoder <$> (turns (cfg_target cfg) (cfg_max cfg) xs a_init).2).
Proof.
  intros (Hjb & _)%NewPipeline_Ok HM Hc Hl Hx.
  destruct (j_run_sim (xs ≫= turn_ops) (p_jb p) a_init) as (jb' & Hj & _ & _).
  - rewrite Hjb. apply NewJitterBuffer_sim.
  - by rewrite Hjb.
  - rewrite Hjb. unfold NewJitterBuffer. cbn [frames maxFrames]. rewrite map_size_empty.
    unfold cfg_max in HM. lia.
  - clear -Hx. induction Hx as [|x xs Hx _ IH]; [constructor|].
    change ((x :: xs) ≫= turn_ops) with (JPush x.1 x.2 :: JPop :: (xs ≫= turn_ops)).
    constructor; [exact Hx|]. constructor; [exact I|exact IH].
  - destruct (recv_run_jitter ds xs ctls p sh _ _ Hc Hl Hj) as (p' & sh' & Hr & _).
    exists p', sh'. rewrite Hr. unfold turns. by rewrite Hjb.
Qed.

Lemma stream_uint16 s xs : Forall (fun x : Z * bytes => uint16 x.1) (stream s xs).
Proof.
  revert s. induction xs as [|x xs IH]; intros s; simpl; constructor; [apply wrap16_range|apply IH].
Qed.

(** *** The sender *)

Fixpoint encode_all (pcms : list (list Z)) (e : OEnc) : list bytes :=
  match pcms with
  | [] => []
  | pcm :: pcms =>
      let '(e, r) := Encode pcm e in
      match r with Ok b => b :: encode_all pcms e | Err _ => encode_all pcms e end
  end.

Lemma capture_run pcms : ∀ n p sh p' sh' outs,
  p_muted p = false -> p_txSeq p = wrap 32 n -> 0 <= p_ssrc p < 2 ^ 32 ->
  prun (PCapture <$> pcms) p sh = Some (p', sh', outs) -> length outs = length pcms ->
  ∃ ds, outs = OutSent <$> ds ∧
    Forall2 carries ds (stream (n + 1) (encode_all pcms (p_enc p))).
Proof.
  assert (∀ pcms p sh p' sh' outs, prun (PCapture <$> pcms) p sh = Some (p', sh', outs) ->
    (length outs <= length pcms)%nat) as Hle.
  { clear pcms. induction pcms as [|pcm pcms IH]; intros p sh p' sh' outs Hr; [by simplify_eq/=|].
    cbn [fmap list_fmap prun pstep] in Hr. destruct (onCapture pcm p sh) as [[p1 sh1] o]. simpl in Hr.
    destruct (prun _ p1 sh1) as [[[p2 sh2] os]|] eqn:Hr2; [|done]. simpl in Hr. simplify_eq.
    apply IH in Hr2. rewrite length_app. destruct o; simpl; lia. }
  induction pcms as [|pcm pcms IH]; intros n p sh p' sh' outs Hm Hsq Hss Hr Hl.
  { simplify_eq/=. exists []. by split. }
  cbn [fmap list_fmap prun pstep] in Hr. unfold onCapture, ProcessCapture in Hr. rewrite Hm in Hr.
  cbn [encode_all]. destruct (Encode pcm (p_enc p)) as [enc [pkt|e]].
  2:{ simpl in Hr. destruct (prun _ _ _) as [[[p2 sh2] os]|] eqn:Hr2; [|done]. simpl in Hr. simplify_eq.
      apply Hle in Hr2. simpl in Hl. lia. }
  assert (wrap 32 (p_txSeq p + 1) = wrap 32 (n + 1)) as Hsq' by by rewrite Hsq, wrap32_add.
  destruct (rtp_Marshal (next_packet p pkt)) as [b|] eqn:Hma.
  2:{ simpl in Hr. destruct (prun _ _ _) as [[[p2 sh2] os]|] eqn:Hr2; [|done]. simpl in Hr. simplify_eq.
      apply Hle in Hr2. simpl in Hl. lia. }
  destruct (transport_SendMedia b (sh_transport sh)) as [t []].
  2:{ simpl in Hr. destruct (prun _ _ _) as [[[p2 sh2] os]|] eqn:Hr2; [|done]. simpl in Hr. simplify_eq.
      apply Hle in Hr2. simpl in Hl. lia. }
  simpl in Hr. destruct (prun _ _ _) as [[[p2 sh2] os]|] eqn:Hr2; [|done]. simpl in Hr. simplify_eq.
  simpl in Hl. eapply IH in Hr2 as (ds & -> & Hds); [|done|exact Hsq'|done|lia].
  exists (b :: ds). split; [done|]. constructor; [|exact Hds].
  exists (next_packet p pkt). split; [|split; [|done]].
  - apply (rtp_roundtrip (next_packet p pkt)); [|done].
    unfold rtp_ok, next_packet. simpl. unfold rtpOpusPayloadType.
    split; [done|]. split; [lia|]. split; [apply wrap16_range|]. split; [by apply wrap_range|done].
  - simpl. by rewrite Hsq', wrap16_wrap32.
Qed.

(** C10: the datagrams of a sender, every one of them sent, arrive in order: the
    receiver gives its decoder exactly the encoded frames, in order and delayed
    by one frame less than the jitter target, concealment before that, for ever
    (across the wrap-around of the sequence numbers), whatever control messages
    arrive in between. *)
Theorem pipeline_playout cfg_s ssrc_s sh_s ps shs cfg_r ssrc_r sh_r pr shr pcms ps' shs' outs :
  NewPipeline cfg_s ssrc_s sh_s = Ok (ps, shs) -> 0 <= ssrc_s < 2 ^ 32 ->
  NewPipeline cfg_r ssrc_r sh_r = Ok (pr, shr) ->
  1 <= cfg_max cfg_r -> cfg_target cfg_r <= cfg_max cfg_r -> cfg_target cfg_r < 32768 ->
  prun (PCapture <$> pcms) ps shs = Some (ps', shs', outs) -> length outs = length pcms ->
  ∃ ds, outs = OutSent <$> ds ∧
    ∀ ctls, length ctls = length ds ->
      ∃ pr' shr', prun (zip_with PRecv ds ctls) pr shr =
        Some (pr', shr',
          OutDecoder <$> delayed (tgt (cfg_target cfg_r) - 1) (encode_all pcms (p_enc ps))).
Proof.
  intros Hs Hss Hr HM Htm Ht Hrun Hl.
  pose proof (NewPipeline_Ok _ _ _ _ _ Hs) as (_ & Hm & Hsq & _ & Hsr & _).
  destruct (capture_run pcms 0 ps shs ps' shs' outs) as (ds & -> & Hc); [done|done|by rewrite Hsr|done|done|].
  exists ds. split; [done|]. intros ctls Hctl.
  destruct (recv_turns _ _ _ _ _ _ _ _ Hr HM Hc Hctl (stream_uint16 _ _)) as (pr' & shr' & Hrr).
  exists pr', shr'. rewrite Hrr. do 2 f_equal.
  generalize (encode_all pcms (p_enc ps)). intros xs. destruct xs as [|x xs]; [done|].
  rewrite turns_init by done.
  pose proof (turns_in_order (cfg_target cfg_r) (cfg_max cfg_r) (x :: xs) (wrap 16 (0 + 1)) [] false) as Hq.
  cbn [length Z.of_nat] in Hq. rewrite Z.add_0_r, stream_shift in Hq.
  rewrite Hq by lia. cbn [snd]. by rewrite q_run_delayed.
Qed.

(** When, after [n] packets in order, the newest packet arrives again as
    many times as the jitter target has frames (three with the default
    settings), every packet that then follows in order is dropped as late: the
    decoder gets nothing but concealment for the rest of the stream. *)
Theorem duplicates_starve cfg ssrc sh0 p sh s xs y dup ds1 ds2 ys ctls :
  NewPipeline cfg ssrc sh0 = Ok (p, sh) ->
  1 <= cfg_max cfg -> cfg_target cfg <= cfg_max cfg -> cfg_target cfg < 32768 ->
  (tgt (cfg_target cfg) <= length (xs ++ [y]))%nat ->
  Forall2 carries ds1 (stream s (xs ++ [y])) ->
  carries dup (wrap 16 (s + Z.of_nat (length xs)), y) ->
  Forall2 carries ds2 (stream (s + Z.of_nat (length (xs ++ [y]))) ys) ->
  length ctls = length (ds1 ++ replicate (tgt (cfg_target cfg)) dup ++ ds2) ->
  ∃ p' sh', prun (zip_with PRecv (ds1 ++ replicate (tgt (cfg_target cfg)) dup ++ ds2) ctls) p sh =
    Some (p', sh', OutDecoder <$>
      (delayed (tgt (cfg_target cfg) - 1) (xs ++ [y]) ++
       (Some <$> drop (length (xs ++ [y]) - (tgt (cfg_target cfg) - 1)) (xs ++ [y])) ++
       None :: replicate (length ys) None)).
Proof.
  intros Hn HM Htm Ht Hlen Hc1 Hcd Hc2 Hl. set (target := cfg_target cfg) in *.
  set (st := stream s (xs ++ [y]) ++
    replicate (tgt target) (wrap 16 (s + Z.of_nat (length xs)), y) ++
    stream (s + Z.of_nat (length (xs ++ [y]))) ys).
  assert (Forall2 carries (ds1 ++ replicate (tgt target) dup ++ ds2) st) as Hc.
  { apply Forall2_app; [done|]. apply Forall2_app; [|done]. by apply Forall2_replicate. }
  destruct (recv_turns _ _ _ _ _ _ st ctls Hn HM Hc Hl) as (p' & sh' & Hr).
  { repeat (apply Forall_app; split); try apply stream_uint16. apply Forall_replicate, wrap16_range. }
  exists p', sh'. rewrite Hr. do 3 f_equal. by apply turns_duplicates.
Qed.
End pipeline_lemmas.

(** ** Witnesses *)

(** A codec that keeps the first sample of a frame. *)
#[local] Instance demo_opus : Opus := {|
  OEnc := unit;
  ODec := unit;
  opus_NewEncoder _ _ := Some tt;
  opus_SetBitrate _ e := Some e;
  opus_SetInBandFEC _ e := Some e;
  opus_SetDTX _ e := Some e;
  opus_SetComplexity _ e := Some e;
  opus_Encode pcm e := (e, Some (take 1 pcm));
  opus_NewDecoder _ _ := Some tt;
  opus_Decode pkt out d := (d, Some FrameSize, (fun _ => hd 0 pkt) <$> out);
  opus_DecodePLC out d := (d, true, out);
  opus_Decode_length _ out _ := length_fmap _ out;
  opus_DecodePLC_length _ _ := eq_refl |}.

Definition demo_marshal (p : RtpPacket) : option bytes :=
  Some ([rtp_Version p; rtp_PayloadType p; rtp_SequenceNumber p; rtp_Timestamp p; rtp_SSRC p] ++ rtp_Payload p).

Definition demo_unmarshal (b : bytes) : option RtpPacket :=
  match b with
  | v :: pt :: sq :: ts :: ssrc :: pl =>
      if decide (0 <= sq < 65536) then Some (mkRtp v pt sq ts ssrc pl) else None
  | _ => None
  end.

#[local] Instance demo_rtp : RtpCodec.
Proof.
  refine {| rtp_Marshal := demo_marshal; rtp_Unmarshal := demo_unmarshal |}.
  - intros [] b (_ & _ & Hs & _) [= <-]. simpl in *. by rewrite decide_True.
  - intros b p. unfold demo_unmarshal. repeat case_match; intros; simplify_eq. done.
Defined.

Definition demo_cfg : PipelineConfig := mkPipelineConfig true true true (Some (NewAEC true)) true 0 0 0.
Definition demo_p : Pipeline :=
  mkPipeline (mkAEC true) tt tt (NewJitterBuffer 60 200) false 0 0 7 [].
Definition demo_sh : Shared libp2pTransport := mkShared NewStatsCore NewLibp2pTransport.
Definition demo_sh' : Shared libp2pTransport :=
  mkShared (SetEncoderBitrate 48000 NewStatsCore) NewLibp2pTransport.

Lemma demo_new : NewPipeline demo_cfg 7 demo_sh = Ok (demo_p, demo_sh').
Proof. reflexivity. Qed.

Definition demo_pcm (v : Z) : list Z := replicate 960 v.
Definition demo_pcms : list (list Z) := demo_pcm <$> [11; 12; 13; 14; 15].
Definition demo_run : option (Pipeline * Shared libp2pTransport * list pout) :=
  prun (PCapture <$> demo_pcms) demo_p demo_sh'.

Definition demo_dg (n v : Z) : bytes := [2; 111; n; FrameSize * n; 7; v].

Lemma demo_outs : snd <$> demo_run = Some (OutSent <$>
  [demo_dg 1 11; demo_dg 2 12; demo_dg 3 13; demo_dg 4 14; demo_dg 5 15]).
Proof. vm_compute. reflexivity. Qed.

Lemma pipeline_bounds_witness :
  ∃ p' sh' outs ns,
    prun [PCapture (demo_pcm 5); PSetMuted true; PCapture (demo_pcm 6); PRecv (demo_dg 9 1) None; PPull]
      demo_p demo_sh' = Some (p', sh', outs) ∧ increasing 0 1 ns ∧ Forall2 (packet_no 7) ns (sents outs).
Proof.
  destruct (pipeline_bounds demo_cfg 7 demo_sh demo_p demo_sh'
    [PCapture (demo_pcm 5); PSetMuted true; PCapture (demo_pcm 6); PRecv (demo_dg 9 1) None; PPull]
    demo_new ltac:(vm_compute; discriminate))
    as (p' & sh' & outs & ns & Hr & _ & _ & Hf & Hi & _).
  exists p', sh', outs, ns. split; [exact Hr|]. split; [exact Hi|exact Hf].
Defined.

Lemma pipeline_playout_witness :
  ∃ pr' shr',
    prun (zip_with PRecv [demo_dg 1 11; demo_dg 2 12; demo_dg 3 13; demo_dg 4 14; demo_dg 5 15]
            [None; Some (mkControl "mute" true); None; None; None]) demo_p demo_sh' =
    Some (pr', shr', OutDecoder <$> [None; None; Some [11]; Some [12]; Some [13]]).
Proof.
  pose proof demo_outs as Ho. unfold demo_run in Ho.
  destruct (prun (PCapture <$> demo_pcms) demo_p demo_sh') as [[[ps' shs'] outs]|] eqn:Hr;
    [|discriminate Ho].
  simpl in Ho. injection Ho as Ho.
  destruct (pipeline_playout demo_cfg 7 demo_sh demo_p demo_sh' demo_cfg 7 demo_sh demo_p demo_sh'
    demo_pcms ps' shs' outs demo_new ltac:(lia) demo_new ltac:(vm_compute; discriminate)
    ltac:(vm_compute; discriminate) ltac:(vm_compute; reflexivity) Hr ltac:(by rewrite Ho))
    as (ds & Hds & Hall).
  rewrite Ho in Hds. destruct ds as [|d1 [|d2 [|d3 [|d4 [|d5 [|? ?]]]]]]; try discriminate Hds.
  injection Hds as -> -> -> -> ->.
  destruct (Hall [None; Some (mkControl "mute" true); None; None; None] eq_refl) as (pr' & shr' & Hrr).
  exists pr', shr'. exact Hrr.
Defined.

Lemma duplicates_starve_witness :
  ∃ p' sh',
    prun (zip_with PRecv ([demo_dg 1 11; demo_dg 2 12; demo_dg 3 13] ++
            replicate 3 (demo_dg 3 13) ++ [demo_dg 4 14; demo_dg 5 15]) (replicate 8 None)) demo_p demo_sh' =
    Some (p', sh', OutDecoder <$>
      [None; None; Some [11]; Some [12]; Some [13]; None; None; None]).
Proof.
  destruct (duplicates_starve demo_cfg 7 demo_sh demo_p demo_sh' 1 [[11]; [12]] [13] (demo_dg 3 13)
    [demo_dg 1 11; demo_dg 2 12; demo_dg 3 13] [demo_dg 4 14; demo_dg 5 15] [[14]; [15]] (replicate 8 None)
    demo_new ltac:(vm_compute; discriminate) ltac:(vm_compute; discriminate) ltac:(vm_compute; reflexivity)
    ltac:(vm_compute; lia)
    ltac:(repeat constructor; (eexists; split; [vm_compute; reflexivity|by split]))
    ltac:(eexists; split; [vm_compute; reflexivity|by split])
    ltac:(repeat constructor; (eexists; split; [vm_compute; reflexivity|by split])) eq_refl)
    as (p' & sh' & Hr).
  exists p', sh'. exact Hr.
Defined.
