(* ===== verification/Version.v ===== *)
(** * The upgrade check ([internal/version/version.go], [ipc/methods/version.go])

    [Refresh] asks GitHub for the latest tag and writes it to a cache file;
    [ReadCache] and [Compare] answer [version.check] from that file. The HTTP
    exchange and the JSON codec are parameters; the order of versions, with
    [fmt.Sscanf]'s reading of integers, is modelled as the code has it. *)
From S2P Require Import Prelude Iox GoStrings.
#[local] Open Scope list_scope.

Definition DefaultRepo : string := "Noah-Wilderom/opencom".
Definition CacheFileName : string := "latest-release.json".

Record Cache := mkCache { Latest : string; FetchedAt : Z; Repo : string }.

(** Go's zero [Cache]; the zero time is [0] here. *)
Definition zeroCache : Cache := mkCache "" 0 "".

Record Result := mkResult {
  r_Current : string;
  r_Latest : string;
  r_UpgradeAvailable : bool;
  r_FetchedAt : Z }.

Record Checker := mkChecker { ck_CachePath : string; ck_Repo : string }.

(** [joined] is [filepath.Join(stateDir, CacheFileName)]. *)
Definition New (joined : string) : Checker := mkChecker joined DefaultRepo.

(** ** Reading version numbers *)

(** [SkipSpace] of [Sscanf]: a newline is an error ([None]). *)
Fixpoint skip_space (fuel : nat) (s : string) : option string :=
  match fuel, s with
  | S fuel, String c _ =>
      if is_char "010" c then None
      else match space_len s with
           | O => Some s
           | n => skip_space fuel (str_drop n s)
           end
  | _, _ => Some s
  end.

Fixpoint take_digits (s : string) : string :=
  match s with
  | String c s => if between 48 57 c then String c (take_digits s) else EmptyString
  | EmptyString => EmptyString
  end.

(** [fmt.Sscanf(p, "%d", &n)] with [n] zero before: what [n] holds after. *)
Definition Sscanf_d (p : string) : Z :=
  match skip_space (String.length p) p with
  | None => 0
  | Some s =>
      let '(sign, rest) :=
        match s with
        | String c s' => if is_char "+" c || is_char "-" c then (String c EmptyString, s') else (EmptyString, s)
        | EmptyString => (EmptyString, s)
        end in
      let digits := take_digits rest in
      if decide (digits = EmptyString) then 0%Z else default 0%Z (ParseInt (sign +:+ digits))
  end.

(** [strings.SplitN(v, c, 2)[0]]. *)
Definition before (v : string) (c : ascii) : string := (Cut v c).1.1.

Definition splitVersion (v : string) : list Z :=
  let v := before v "-" in
  let v := before v "+" in
  Sscanf_d <$> Split v ".".

(** The loop of [isNewer] from index [i] on, [n] rounds left. *)
Fixpoint newer_loop (n i : nat) (l m : list Z) : bool :=
  match n with
  | O => false
  | S n =>
      let av := default 0%Z (l !! i) in
      let bv := default 0%Z (m !! i) in
      if decide (av ≠ bv) then (bv <? av)%Z else newer_loop n (S i) l m
  end.

Definition isNewer (a b : string) : bool :=
  let l := splitVersion a in
  let m := splitVersion b in
  newer_loop (Nat.max (length l) (length m)) 0 l m.

Definition Compare (currentVersion : string) (cache : Cache) : Result :=
  let current := TrimPrefix currentVersion "v" in
  if decide (current = "" ∨ current = "dev" ∨ Latest cache = "")
  then mkResult current (Latest cache) false (FetchedAt cache)
  else mkResult current (Latest cache) (isNewer (Latest cache) current) (FetchedAt cache).

(** ** The cache file *)

Section cache.
Context (marshal : Cache -> option bytes) (unmarshal : bytes -> option Cache).

Inductive ReadErr := EReadFile.

(** [readable] is false when reading fails for another reason than a missing file. *)
Definition ReadCache (readable : bool) (c : Checker) (fs : FS) : result ReadErr Cache :=
  if negb readable then Err EReadFile
  else match fs !! ck_CachePath c with
       | None => Ok zeroCache
       | Some b => Ok (default zeroCache (unmarshal b))
       end.

Inductive WriteCacheErr := EMkdir | EMarshal | EWriteTmp | ERename.

#[export] Instance WriteCacheErr_eq_dec : EqDecision WriteCacheErr.
Proof. solve_decision. Defined.

(** What the system answers: the call that fails, if any, and how much of the
    temporary file a failing write has written ([None]: it was not created). *)
Record WriteOs := mkWriteOs { w_fails : option WriteCacheErr; w_written : option nat }.

Definition tmp_of (path : string) : string := path +:+ ".tmp".

(** [writeCacheAtomic]: the states the file system goes through and the error. *)
Definition writeCacheAtomic (o : WriteOs) (path : string) (entry : Cache) (fs : FS)
    : list FS * option WriteCacheErr :=
  let fails c := bool_decide (w_fails o = Some c) in
  if fails EMkdir then ([fs], Some EMkdir)
  else match marshal entry with
  | None => ([fs], Some EMarshal)
  | Some b =>
      if fails EWriteTmp then
        match w_written o with
        | None => ([fs], Some EWriteTmp)
        | Some n => ([<[tmp_of path := []]> fs; <[tmp_of path := take n b]> fs], Some EWriteTmp)
        end
      else
        let fs1 := <[tmp_of path := b]> fs in
        if fails ERename then ([<[tmp_of path := []]> fs; fs1], Some ERename)
        else ([<[tmp_of path := []]> fs; fs1; <[path := b]> (delete (tmp_of path) fs1)], None)
  end.

Inductive RefreshErr :=
| ERequest | EFetch | EStatus (code : Z) | EDecode | EWriteCache (e : WriteCacheErr).

(** What the exchange with the server at the URL gives: a status code and, when
    it decodes, the [tag_name] of the body. *)
Definition Fetch := string -> result RefreshErr (Z * option string).

Definition releases_url (repo : string) : string :=
  "https://api.github.com/repos/" +:+ repo +:+ "/releases/latest".

Definition Refresh (fetch : Fetch) (now : Z) (o : WriteOs) (c : Checker) (fs : FS)
    : list FS * result RefreshErr Cache :=
  match fetch (releases_url (ck_Repo c)) with
  | Err e => ([fs], Err e)
  | Ok (code, tag) =>
      if decide (code ≠ 200%Z) then ([fs], Err (EStatus code))
      else match tag with
      | None => ([fs], Err EDecode)
      | Some tag =>
          let entry := mkCache (TrimPrefix tag "v") now (ck_Repo c) in
          let '(states, e) := writeCacheAtomic o (ck_CachePath c) entry fs in
          (states, match e with None => Ok entry | Some e => Err (EWriteCache e) end)
      end
  end.

Definition after (states : list FS) (fs : FS) : FS := default fs (last states).

(** [runVersionChecker]: one refresh at startup and one per tick. *)
Fixpoint runVersionChecker (c : Checker) (turns : list (Fetch * Z * WriteOs)) (fs : FS) : FS :=
  match turns with
  | [] => fs
  | (fetch, now, o) :: turns => runVersionChecker c turns (after (Refresh fetch now o c fs).1 fs)
  end.

(** The [version.check] handler; [None] is a nil checker. *)
Definition VersionCheck (currentVersion : string) (checker : option (Checker * bool)) (fs : FS) : Result :=
  let cache :=
    match checker with
    | None => zeroCache
    | Some (c, readable) => match ReadCache readable c fs with Ok cache => cache | Err _ => zeroCache end
    end in
  Compare currentVersion cache.
End cache.

(** ** The reference order: versions as sequences padded with zeros *)

Definition component (l : list Z) (k : nat) : Z := default 0%Z (l !! k).

(** [m] precedes [l]: at the first component where they differ, [l]'s is larger. *)
Definition vlt (m l : list Z) : Prop :=
  ∃ k, (∀ j, j < k -> component l j = component m j) ∧ (component m k < component l k)%Z.

(** A release tag. *)
Definition release (ns : list Z) : string := Join (FormatInt <$> ns) ".".

Definition release_ok (ns : list Z) : Prop := ns ≠ [] ∧ Forall (fun n => 0 <= n < 2 ^ 63)%Z ns.

(** ** Lemmas *)

Lemma component_beyond l k : length l <= k -> component l k = 0%Z.
Proof. intros. unfold component. by rewrite lookup_ge_None_2. Qed.

Lemma newer_loop_spec n : ∀ i l m,
  newer_loop n i l m = true <->
  ∃ k, i <= k < i + n ∧ (∀ j, i <= j < k -> component l j = component m j) ∧
    (component m k < component l k)%Z.
Proof.
  induction n as [|n IH]; intros i l m; cbn [newer_loop].
  { split; [done|]. intros (k & ? & _). lia. }
  fold (component l i) (component m i). case_decide as Hd.
  - rewrite Z.ltb_lt. split.
    + intros. exists i. split; [lia|]. split; [intros; lia|done].
    + intros (k & Hk & Heq & Hlt). destruct (decide (k = i)) as [->|]; [done|].
      destruct Hd. apply Heq. lia.
  - rewrite IH. split; intros (k & Hk & Heq & Hlt); exists k.
    + split; [lia|]. split; [|done]. intros j Hj. destruct (decide (j = i)) as [->|]; [done|apply Heq; lia].
    + destruct (decide (k = i)) as [->|]; [lia|].
      split; [lia|]. split; [|done]. intros j Hj. apply Heq. lia.
Qed.

Lemma isNewer_vlt a b : isNewer a b = true <-> vlt (splitVersion b) (splitVersion a).
Proof.
  unfold isNewer, vlt. rewrite newer_loop_spec. split; intros (k & Hk); exists k.
  - destruct Hk as (_ & Heq & Hlt). split; [|done]. intros j Hj. apply Heq. lia.
  - destruct Hk as (Heq & Hlt). split; [|split; [intros j Hj; apply Heq; lia|done]].
    split; [lia|]. destruct (decide (k < 0 + Nat.max (length (splitVersion a)) (length (splitVersion b)))); [done|].
    rewrite !component_beyond in Hlt by lia. lia.
Qed.

Lemma vlt_irrefl l : ¬ vlt l l.
Proof. intros (k & _ & ?). lia. Qed.

Lemma vlt_trans l m n : vlt l m -> vlt m n -> vlt l n.
Proof.
  intros (k & Heq & Hlt) (k' & Heq' & Hlt').
  exists (Nat.min k k'). split.
  - intros j Hj. rewrite Heq', Heq by lia. done.
  - destruct (lt_eq_lt_dec k k') as [[Hk| ->]|Hk].
    + rewrite Nat.min_l, Heq' by lia. done.
    + rewrite Nat.min_l by lia. lia.
    + rewrite Nat.min_r, <- Heq by lia. done.
Qed.

(** The first difference within a bound. *)
Lemma first_difference l m n :
  (∀ j, j < n -> component l j = component m j) ∨
  ∃ k, k < n ∧ (∀ j, j < k -> component l j = component m j) ∧ component l k ≠ component m k.
Proof.
  induction n as [|n [IH|(k & Hk & Heq & Hne)]].
  - left. lia.
  - destruct (decide (component l n = component m n)).
    + left. intros j Hj. destruct (decide (j = n)) as [->|]; [done|]. apply IH. lia.
    + right. exists n. split; [lia|done].
  - right. exists k. split; [lia|done].
Qed.

Lemma vlt_trichotomy l m : vlt l m ∨ vlt m l ∨ ∀ k, component l k = component m k.
Proof.
  destruct (first_difference l m (Nat.max (length l) (length m))) as [Heq|(k & _ & Heq & Hne)].
  - right; right. intros k. destruct (decide (k < Nat.max (length l) (length m))); [auto|].
    rewrite !component_beyond by lia. done.
  - destruct (decide (component l k < component m k)%Z).
    + left. exists k. split; [|done]. intros j Hj. by rewrite Heq.
    + right; left. exists k. split; [done|lia].
Qed.

(** *** Release tags *)

Lemma take_digits_all s : str_forall (between 48 57) s = true -> take_digits s = s.
Proof.
  induction s as [|c s IH]; [done|]. simpl. intros [Hc Hs]%andb_true_iff. by rewrite Hc, IH.
Qed.

(** Facts about the digits, by enumeration. *)
Lemma digit_facts c : between 48 57 c = true ->
  is_char "010" c = false ∧ is_char "+" c = false ∧ is_char "-" c = false ∧
  is_char "." c = false ∧ (∀ s, space_len (String c s) = 0).
Proof.
  intros Hc. assert (∀ d, between 48 57 d = false -> is_char d c = false) as Hne.
  { intros d Hd. apply is_char_false. intros ->. congruence. }
  do 4 (split; [by apply Hne|]). intros s. unfold between in Hc.
  apply andb_true_iff in Hc as [H1%Z.leb_le H2%Z.leb_le]. unfold space_len. simpl.
  assert (chr c = 48 ∨ chr c = 49 ∨ chr c = 50 ∨ chr c = 51 ∨ chr c = 52 ∨ chr c = 53 ∨
          chr c = 54 ∨ chr c = 55 ∨ chr c = 56 ∨ chr c = 57)%Z as Hcs by lia.
  by destruct Hcs as [->|[->|[->|[->|[->|[->|[->|[->|[->| ->]]]]]]]]].
Qed.

Lemma FormatInt_release n : (0 <= n < 2 ^ 63)%Z ->
  str_forall (between 48 57) (FormatInt n) = true ∧ FormatInt n ≠ EmptyString.
Proof.
  intros Hn. assert (int64 n) as Hi by (unfold int64; lia).
  destruct (FormatInt_digits n Hi) as (s & _ & Hne & Hd & ->).
  by rewrite decide_False by lia.
Qed.

Lemma Sscanf_FormatInt n : (0 <= n < 2 ^ 63)%Z -> Sscanf_d (FormatInt n) = n.
Proof.
  intros Hn. destruct (FormatInt_release n Hn) as [Hd Hne].
  assert (ParseInt (FormatInt n) = Some n) as Hp by (apply ParseInt_FormatInt; unfold int64; lia).
  revert Hd Hne Hp. generalize (FormatInt n). intros s Hd Hne Hp. unfold Sscanf_d.
  destruct s as [|c s]; [done|]. pose proof Hd as Hd'. simpl in Hd.
  apply andb_true_iff in Hd as [Hc Hs]. destruct (digit_facts c Hc) as (Hn1 & Hp1 & Hm1 & _ & Hsp).
  cbn [String.length skip_space]. rewrite Hn1, Hsp, Hp1, Hm1. cbn [orb].
  rewrite take_digits_all by done. rewrite decide_False by done. by rewrite app_empty_l, Hp.
Qed.

Lemma before_app s c t : no_char c s = true -> before (s +:+ String c t) c = s.
Proof. intros. unfold before. by rewrite Cut_app. Qed.

Lemma before_none s c : no_char c s = true -> before s c = s.
Proof.
  unfold before. induction s as [|d s IH]; [done|]. unfold no_char in *. cbn [str_forall Cut].
  intros [Hd Hs]%andb_true_iff. apply negb_true_iff in Hd. rewrite Hd. specialize (IH Hs).
  destruct (Cut s c) as [[b a] f]. simpl in *. by rewrite IH.
Qed.

Lemma digits_no_char c s : between 48 57 c = false -> str_forall (between 48 57) s = true -> no_char c s = true.
Proof.
  intros Hc. apply str_forall_impl. intros d Hd. apply negb_true_iff, is_char_false. congruence.
Qed.

Lemma release_no_char c ns : between 48 57 c = false -> c ≠ "."%char -> release_ok ns ->
  no_char c (release ns) = true.
Proof.
  intros Hc Hdot [_ Hns]. unfold release.
  induction Hns as [|n ns Hn Hns IH]; [done|].
  destruct (FormatInt_release n Hn) as [Hd _]. rewrite fmap_cons.
  destruct (decide (ns = [])) as [->|Hne]; [by apply digits_no_char|].
  rewrite Join_cons by (by destruct ns). rewrite !no_char_app, IH, (digits_no_char c) by done.
  assert (is_char c "." = false) as Hdot' by (by apply is_char_false).
  unfold no_char. simpl. by rewrite Hdot'.
Qed.

(** A release tag reads back as its components, with or without a suffix. *)
Lemma splitVersion_release ns suffix : release_ok ns ->
  (suffix = EmptyString ∨ ∃ t, suffix = String "-" t ∨ suffix = String "+" t) ->
  splitVersion (release ns +:+ suffix) = ns.
Proof.
  intros Hns Hsuf. unfold splitVersion.
  assert (no_char "-" (release ns) = true) as Hm by (by apply release_no_char).
  assert (no_char "+" (release ns) = true) as Hp by (by apply release_no_char).
  assert (before (before (release ns +:+ suffix) "-") "+" = release ns) as ->.
  { destruct Hsuf as [->|(t & [->| ->])].
    - rewrite app_empty_r, (before_none _ "-"), before_none; done.
    - rewrite (before_app _ "-"), before_none; done.
    - destruct (decide (no_char "-" t = true)) as [Ht|Ht].
      + rewrite (before_none _ "-"), before_app; [done..|]. rewrite no_char_app, Hm. exact Ht.
      + assert (∀ s, no_char "-" s = false -> ∃ a b, s = a +:+ String "-" b ∧ no_char "-" a = true) as Hsplit.
        { clear. unfold no_char. induction s as [|c s IH]; [done|]. cbn [str_forall].
          destruct (is_char "-" c) eqn:E; cbn [negb andb]; intros Hs.
          - apply is_char_true in E as <-. by exists EmptyString, s.
          - destruct (IH Hs) as (a & b & -> & Ha). exists (String c a), b. split; [done|].
            cbn [str_forall]. by rewrite E, Ha. }
        apply not_true_is_false in Ht. destruct (Hsplit t Ht) as (a & b & -> & Ha).
        replace (release ns +:+ String "+" (a +:+ String "-" b))
          with ((release ns +:+ String "+" a) +:+ String "-" b) by (by rewrite app_assoc_str, app_cons).
        rewrite (before_app _ "-"), before_app; [done|done|]. rewrite no_char_app, Hm. exact Ha. }
  destruct Hns as [Hne Hall]. unfold release. rewrite Split_Join.
  - clear Hm Hp Hne. induction Hall as [|n ns Hn _ IH]; [done|]. rewrite !fmap_cons, IH.
    by rewrite Sscanf_FormatInt.
  - by destruct ns.
  - apply Forall_fmap. eapply Forall_impl; [exact Hall|]. intros n Hn.
    by apply digits_no_char, FormatInt_release.
Qed.

(** A pre-release or build suffix, or none. *)
Definition suffix_ok (suffix : string) : Prop :=
  suffix = EmptyString ∨ ∃ t, suffix = String "-" t ∨ suffix = String "+" t.

Lemma release_head ns : release_ok ns -> ∃ c s, release ns = String c s ∧ between 48 57 c = true.
Proof.
  intros [Hne Hall]. destruct ns as [|n ns]; [done|]. apply Forall_cons in Hall as [Hn _].
  destruct (FormatInt_release n Hn) as [Hd Hnil]. unfold release. rewrite fmap_cons.
  destruct (FormatInt n) as [|c s]; [done|]. simpl in Hd. apply andb_true_iff in Hd as [Hc _].
  cbn [Join]. destruct (FormatInt <$> ns); [by exists c, s|]. rewrite app_cons. eauto.
Qed.

Lemma TrimPrefix_digit c s : between 48 57 c = true -> TrimPrefix (String c s) "v" = String c s.
Proof.
  intros Hc. unfold TrimPrefix. cbn [HasPrefix].
  assert (is_char "v" c = false) as -> by (apply is_char_false; intros <-; vm_compute in Hc; done).
  done.
Qed.

(** A release is compared as it stands, with or without the leading [v]. *)
Lemma Compare_release ms sm cache (v : bool) :
  release_ok ms -> Latest cache ≠ "" ->
  r_UpgradeAvailable (Compare ((if v then "v" else "") +:+ (release ms +:+ sm)) cache) =
  isNewer (Latest cache) (release ms +:+ sm).
Proof.
  intros Hms Hl. destruct (release_head ms Hms) as (c & s & Hr & Hc).
  unfold Compare. assert (TrimPrefix ((if v then "v" else "") +:+ (release ms +:+ sm)) "v" =
    release ms +:+ sm) as ->.
  { destruct v; [apply TrimPrefix_app|]. rewrite app_empty_l, Hr, app_cons. by apply TrimPrefix_digit. }
  rewrite decide_False; [done|]. rewrite Hr, app_cons. intros [?|[Hdev|?]]; try done.
  injection Hdev as -> _. vm_compute in Hc. done.
Qed.

(** ** The cache file: lemmas *)

Lemma length_app_string s t : String.length (s +:+ t) = String.length s + String.length t.
Proof. apply length_app_str. Qed.

Lemma tmp_of_ne path : tmp_of path ≠ path.
Proof.
  intros H. apply (f_equal String.length) in H. unfold tmp_of in H.
  rewrite length_app_string in H. simpl in H. lia.
Qed.

Section cache_lemmas.
Context (marshal : Cache -> option bytes) (unmarshal : bytes -> option Cache).

(** What the code relies on of [encoding/json] for this type. *)
Definition json_law : Prop := ∀ e, ∃ b, marshal e = Some b ∧ unmarshal b = Some e.

Lemma writeCacheAtomic_spec o path entry (fs : FS) :
  let r := writeCacheAtomic marshal o path entry fs in
  (∀ fs', fs' ∈ r.1 -> fs' !! path = fs !! path ∨ r.2 = None ∧ fs' !! path = marshal entry) ∧
  (r.2 = None -> after r.1 fs !! path = marshal entry) ∧
  (r.2 ≠ None -> after r.1 fs !! path = fs !! path).
Proof.
  pose proof (tmp_of_ne path) as Hne. unfold writeCacheAtomic, after.
  assert (∀ fs : FS, ∀ v, <[tmp_of path := v]> fs !! path = fs !! path) as Hins
    by (intros; by rewrite lookup_insert_ne).
  repeat case_bool_decide; repeat case_match; simpl; (split; [|split; intros; try done]);
    rewrite ?Hins, ?lookup_insert_eq; try done;
    intros fs' Hin; repeat apply elem_of_cons in Hin as [->|Hin];
    rewrite ?Hins, ?lookup_insert_eq; try (by left); try (by right); by apply elem_of_nil in Hin.
Qed.
End cache_lemmas.

(** ** Properties *)

(** C23: [isNewer] is the lexicographic order on the numeric components padded
    with zeros: a strict weak order whose ties are the versions with the same
    components. On release tags, whatever pre-release or build suffix and
    leading [v] they carry, an upgrade is offered exactly when the release
    numbers are larger, so never between a release and its pre-releases; and
    nothing is offered to a development build or without a cached tag. *)
Theorem upgrade_order a b c ms ns sm sn fetched repo v cur cache :
  release_ok ms -> release_ok ns -> suffix_ok sm -> suffix_ok sn ->
  (isNewer a b = true <-> vlt (splitVersion b) (splitVersion a)) ∧
  isNewer a a = false ∧
  (isNewer a b = true -> isNewer b c = true -> isNewer a c = true) ∧
  (isNewer a b = false -> isNewer b a = false ->
     ∀ k, component (splitVersion a) k = component (splitVersion b) k) ∧
  (r_UpgradeAvailable (Compare ((if v : bool then "v" else "") +:+ (release ms +:+ sm))
     (mkCache (release ns +:+ sn) fetched repo)) = true <-> vlt ms ns) ∧
  (TrimPrefix cur "v" = "dev" ∨ TrimPrefix cur "v" = "" ∨ Latest cache = "" ->
     r_UpgradeAvailable (Compare cur cache) = false).
Proof.
  intros Hms Hns Hsm Hsn. split; [apply isNewer_vlt|]. split.
  { apply not_true_is_false. rewrite isNewer_vlt. apply vlt_irrefl. }
  split. { rewrite !isNewer_vlt. intros. by eapply vlt_trans. }
  split.
  { intros Hab Hba k. destruct (vlt_trichotomy (splitVersion a) (splitVersion b)) as [H|[H|H]]; [| |done];
      apply isNewer_vlt in H; congruence. }
  split.
  - rewrite Compare_release; [|done|].
    + cbn [Latest]. by rewrite isNewer_vlt, !splitVersion_release.
    + cbn [Latest]. destruct (release_head ns Hns) as (d & s & -> & _). by rewrite app_cons.
  - intros H. unfold Compare. rewrite decide_True by tauto. done.
Qed.

Lemma upgrade_order_witness :
  r_UpgradeAvailable (Compare "v0.1.2" (mkCache "0.1.10-rc1" 5 DefaultRepo)) = true ∧
  isNewer "0.1.10" "0.1.10-rc1" = false.
Proof.
  split; [|reflexivity].
  apply (upgrade_order "" "" "" [0; 1; 2]%Z [0; 1; 10]%Z "" "-rc1" 5 DefaultRepo true "dev" zeroCache).
  - split; [done|]. repeat (constructor; [lia|]). constructor.
  - split; [done|]. repeat (constructor; [lia|]). constructor.
  - by left.
  - right. eexists. by left.
  - exists 2. split; [|reflexivity]. intros [|[|j]] Hj; [reflexivity|reflexivity|lia].
Defined.

(** At every point of a refresh, a crash included, the cache file reads as
    before or as the entry the refresh returns; a successful refresh needs a
    200 answer with a decodable tag and is what [ReadCache] and [version.check]
    answer from then on, a failed one changes no answer; a missing or corrupt
    cache reads as empty and offers no upgrade. *)
Theorem version_cache marshal unmarshal fetch now o c (fs fs' : FS) cur :
  json_law marshal unmarshal ->
  let r := Refresh marshal fetch now o c fs in
  let read := ReadCache unmarshal true c in
  (fs' ∈ r.1 -> read fs' = read fs ∨ ∃ e, r.2 = Ok e ∧ read fs' = Ok e) ∧
  (∀ e, r.2 = Ok e ->
     read (after r.1 fs) = Ok e ∧
     VersionCheck unmarshal cur (Some (c, true)) (after r.1 fs) = Compare cur e ∧
     ∃ tag, fetch (releases_url (ck_Repo c)) = Ok (200%Z, Some tag) ∧
       e = mkCache (TrimPrefix tag "v") now (ck_Repo c)) ∧
  (∀ x, r.2 = Err x -> read (after r.1 fs) = read fs) ∧
  ((fs !! ck_CachePath c) ≫= unmarshal = None ->
     read fs = Ok zeroCache ∧
     r_UpgradeAvailable (VersionCheck unmarshal cur (Some (c, true)) fs) = false).
Proof.
  intros Hjson. cbv zeta.
  assert (∀ f g : FS, f !! ck_CachePath c = g !! ck_CachePath c ->
    ReadCache unmarshal true c f = ReadCache unmarshal true c g) as Hsame
    by (intros f g Hfg; unfold ReadCache; by rewrite Hfg).
  assert (∀ (f : FS) e, f !! ck_CachePath c = marshal e -> ReadCache unmarshal true c f = Ok e) as Hread.
  { intros f e Hf. unfold ReadCache. rewrite Hf. destruct (Hjson e) as (b & -> & Hb). simpl. by rewrite Hb. }
  split; [|split; [|split]].
  - unfold Refresh. destruct (fetch _) as [[code tag]|]; [case_decide; [|destruct tag as [tag|]]|];
      try (intros ->%list_elem_of_singleton; by left).
    match goal with |- context [writeCacheAtomic _ _ _ ?e _] => set (entry := e) end.
    pose proof (writeCacheAtomic_spec marshal o (ck_CachePath c) entry fs) as (Hs & _).
    destruct (writeCacheAtomic _ _ _ _ _) as [states err]. simpl in *. intros Hin.
    destruct (Hs fs' Hin) as [Hp|[-> Hp]]; [left; by apply Hsame|right; exists entry; eauto].
  - unfold Refresh. destruct (fetch _) as [[code tag]|] eqn:Hf; [case_decide; [|destruct tag as [tag|]]|]; try done.
    match goal with |- context [writeCacheAtomic _ _ _ ?e _] => set (entry := e) end.
    pose proof (writeCacheAtomic_spec marshal o (ck_CachePath c) entry fs) as (_ & Hok & _).
    destruct (writeCacheAtomic _ _ _ _ _) as [states err]. simpl in *. intros e He.
    destruct err; [done|]. injection He as <-. specialize (Hread _ _ (Hok eq_refl)).
    split; [done|]. split; [unfold VersionCheck; by rewrite Hread|].
    exists tag. split; [|done]. congruence.
  - unfold Refresh. destruct (fetch _) as [[code tag]|]; [case_decide; [|destruct tag as [tag|]]|]; try done.
    match goal with |- context [writeCacheAtomic _ _ _ ?e _] => set (entry := e) end.
    pose proof (writeCacheAtomic_spec marshal o (ck_CachePath c) entry fs) as (_ & _ & Herr).
    destruct (writeCacheAtomic _ _ _ _ _) as [states err]. simpl in *. intros x Hx.
    destruct err; [|done]. apply Hsame, Herr. done.
  - intros Hnone. assert (ReadCache unmarshal true c fs = Ok zeroCache) as Hz.
    { unfold ReadCache. simpl. destruct (fs !! ck_CachePath c); simpl in Hnone |- *; by rewrite ?Hnone. }
    split; [done|]. unfold VersionCheck. rewrite Hz. unfold Compare. by rewrite decide_True by (right; by right).
Qed.

(** A codec for the witness: the tag's bytes, its length, the time and the repository. *)
Definition demo_marshal_cache (e : Cache) : option bytes :=
  Some (FetchedAt e :: Z.of_nat (String.length (Latest e)) ::
        (chr <$> String.list_ascii_of_string (Latest e)) ++ (chr <$> String.list_ascii_of_string (Repo e))).
Definition demo_unmarshal_cache (b : bytes) : option Cache :=
  match b with
  | t :: n :: b =>
      Some (mkCache (String.string_of_list_ascii (of_chr <$> take (Z.to_nat n) b)) t
              (String.string_of_list_ascii (of_chr <$> drop (Z.to_nat n) b)))
  | _ => None
  end.

Lemma cache_json_law : json_law demo_marshal_cache demo_unmarshal_cache.
Proof.
  intros [l t r]. eexists. split; [done|]. unfold demo_unmarshal_cache. cbn [Latest FetchedAt Repo].
  assert (∀ s, of_chr <$> (chr <$> String.list_ascii_of_string s) = String.list_ascii_of_string s) as Hc.
  { intros s. induction s as [|x s IH]; [done|].
    cbn [String.list_ascii_of_string]. by rewrite !fmap_cons, of_chr_chr, IH. }
  assert (length (chr <$> String.list_ascii_of_string l) = String.length l) as Hl.
  { rewrite length_fmap. induction l; simpl; auto. }
  rewrite Nat2Z.id, <- Hl, take_app_length, drop_app_length, !Hc.
  by rewrite !String.string_of_list_ascii_of_string.
Qed.

Definition demo_checker : Checker := New "/state/latest-release.json".
Definition demo_fetch : Fetch := fun url => Ok (200%Z, Some "v9.9.9").

Lemma version_cache_witness :
  VersionCheck demo_unmarshal_cache "0.1.0" (Some (demo_checker, true))
    (after (Refresh demo_marshal_cache demo_fetch 7 (mkWriteOs None None) demo_checker ∅).1 ∅) =
  mkResult "0.1.0" "9.9.9" true 7.
Proof.
  destruct (version_cache demo_marshal_cache demo_unmarshal_cache demo_fetch 7 (mkWriteOs None None)
    demo_checker ∅ ∅ "0.1.0" cache_json_law) as (_ & Hok & _).
  destruct (Hok (mkCache "9.9.9" 7 DefaultRepo) eq_refl) as (_ & -> & _).
  vm_compute. reflexivity.
Defined.
