(* ===== verification/AudioDevices.v ===== *)
(** * The audio devices ([internal/audio/devices.go])

    A capturer or a player owns at most one native device of malgo. [Device]
    keeps every native device it has initialised, so that a leaked or a doubly
    released one shows. Whether malgo's calls succeed is an input of the
    operations; [sharedMalgoCtx] is the process-wide context behind a
    [sync.Once]. The data callbacks work on the sample codec of
    [AudioTransport]. *)
From S2P Require Import Prelude AudioTransport AudioPipeline.
#[local] Open Scope list_scope.

Inductive DeviceErr :=
| ENamedDevice (name : string) | EMalgoInit | EAlreadyStarted | EInitDevice | EDeviceStart.

(** [malgoCtxOnce]: what the first [InitContext] returned, kept for good. *)
Definition sharedMalgoCtx (init : bool) (ctx : option bool) : option bool * bool :=
  match ctx with
  | Some ok => (ctx, ok)
  | None => (Some init, init)
  end.

Inductive NativeDevice := NRunning | NUninit.

Record Device := mkDevice {
  d_device : option nat;                 (* the field [device]: an index in [d_native] *)
  d_native : list NativeDevice }.        (* every device [InitDevice] has returned *)

Definition new_device : Device := mkDevice None [].

(** [NewMalgoCapturer] and [NewMalgoPlayer]. *)
Definition NewMalgoCapturer (init : bool) (deviceName : string) (ctx : option bool)
  : option bool * result DeviceErr Device :=
  if decide (deviceName ≠ "" ∧ deviceName ≠ "auto") then (ctx, Err (ENamedDevice deviceName))
  else let '(ctx, ok) := sharedMalgoCtx init ctx in
       (ctx, if ok then Ok new_device else Err EMalgoInit).

Definition NewMalgoPlayer (init : bool) (deviceName : string) (ctx : option bool)
  : option bool * result DeviceErr Device :=
  if decide (deviceName ≠ "" ∧ deviceName ≠ "auto") then (ctx, Err (ENamedDevice deviceName))
  else let '(ctx, ok) := sharedMalgoCtx init ctx in
       (ctx, if ok then Ok new_device else Err EMalgoInit).

(** Whether the context, [InitDevice] and the native [Start] succeed. *)
Record DeviceOut := mkDeviceOut { do_ctx : bool; do_init : bool; do_start : bool }.

Definition device_ok (o : DeviceOut) : bool := do_ctx o && do_init o && do_start o.

(** [malgoCapturer.Start]; a device that does not start
    is uninitialised again. *)
Definition device_Start (o : DeviceOut) (d : Device) : Device * result DeviceErr () :=
  match d_device d with
  | Some _ => (d, Err EAlreadyStarted)
  | None =>
      if negb (do_ctx o) then (d, Err EMalgoInit)
      else if negb (do_init o) then (d, Err EInitDevice)
      else if negb (do_start o) then (mkDevice None (d_native d ++ [NUninit]), Err EDeviceStart)
      else (mkDevice (Some (length (d_native d))) (d_native d ++ [NRunning]), Ok tt)
  end.

(** [malgoCapturer.Stop]. *)
Definition device_Stop (d : Device) : Device :=
  match d_device d with
  | None => d
  | Some n => mkDevice None (<[n := NUninit]> (d_native d))
  end.

(** [malgoPlayer.Start] and [malgoPlayer.Stop] run the same code on the playback side. *)
Definition player_Start (o : DeviceOut) (d : Device) : Device * result DeviceErr () := device_Start o d.
Definition player_Stop (d : Device) : Device := device_Stop d.

(** The capture callback: the frame handed to [onFrame], if any. *)
Definition capture_data (framecount : Z) (pInput : bytes) : option (list Z) :=
  if decide (framecount ≠ FrameSize) then None else Some (bytesToInt16LE pInput).

(** [copy(dst, src)]. *)
Definition go_copy (dst src : bytes) : bytes := take (length dst) src ++ drop (length src) dst.

(** The playback callback: the output buffer after it; [pcm] is what [pull]
    returned, [None] for nil. *)
Definition playback_data (pcm : option (list Z)) (framecount : Z) (pOutput : bytes) : bytes :=
  match pcm with
  | None => replicate (length pOutput) 0%Z
  | Some pcm =>
      if decide (Z.of_nat (length pcm) ≠ framecount * Channels)%Z then replicate (length pOutput) 0%Z
      else go_copy pOutput (int16ToBytesLE pcm)
  end.

(** ** Runs of a device *)

Inductive dop := DStart (o : DeviceOut) | DStop.

Definition device_do (o : dop) (d : Device) : Device :=
  match o with DStart out => (device_Start out d).1 | DStop => device_Stop d end.

Definition device_run (os : list dop) (d : Device) : Device := foldl (fun d o => device_do o d) d os.

(** The native device of the field is the one that runs. *)
Definition device_inv (d : Device) : Prop := ∀ n, d_native d !! n = Some NRunning <-> d_device d = Some n.

Definition running (d : Device) : Prop := is_Some (d_device d).

#[export] Instance running_dec d : Decision (running d).
Proof. unfold running. apply _. Defined.

Lemma device_do_inv o d : device_inv d -> device_inv (device_do o d).
Proof.
  intros Hd. destruct o as [out|]; simpl.
  - unfold device_Start. destruct (d_device d) as [n|] eqn:Hdev; [done|].
    assert (∀ n, d_native d !! n ≠ Some NRunning) as Hnone by (intros n Hn%Hd; congruence).
    repeat case_match; simpl; try done; intros n; simpl; rewrite lookup_app_Some, list_lookup_singleton_Some.
    + split; [intros [Hn|[_ [_ ?]]]; [by destruct (Hnone n)|done]|done].
    + split.
      * intros [Hn|[Hle [Heq _]]]; [by destruct (Hnone n)|]. f_equal. lia.
      * intros [= <-]. right. split; [lia|]. split; [lia|done].
  - unfold device_Stop. destruct (d_device d) as [n|] eqn:Hdev; [|done].
    intros k. simpl. split; [|done]. intros Hk. destruct (decide (n = k)) as [<-|Hne].
    + apply list_lookup_insert_Some in Hk. destruct_or!; destruct_and!; congruence.
    + rewrite list_lookup_insert_ne in Hk by done. apply Hd in Hk. congruence.
Qed.

Lemma new_device_inv : device_inv new_device.
Proof. intros n. simpl. by rewrite lookup_nil. Qed.

Lemma device_run_inv os : ∀ d, device_inv d -> device_inv (device_run os d).
Proof. induction os as [|o os IH]; intros d Hd; [done|]. by apply IH, device_do_inv. Qed.

Lemma device_Start_idle o d : ¬ running d ->
  (is_ok (device_Start o d).2 = device_ok o) ∧ (running (device_Start o d).1 <-> device_ok o = true).
Proof.
  unfold running, device_Start, device_ok. intros Hd. destruct (d_device d) eqn:E; [by destruct Hd|].
  destruct o as [[] [] []]; simpl; rewrite ?E; split; try done; split; intros; try done; by destruct H.
Qed.

Lemma device_Stop_idle d : ¬ running (device_Stop d).
Proof. unfold running, device_Stop. destruct (d_device d) eqn:E; simpl; rewrite ?E; by intros []. Qed.

Lemma device_Stop_native d : device_inv d -> Forall (eq NUninit) (d_native (device_Stop d)).
Proof.
  intros Hd. assert (device_inv (device_Stop d)) as Hs by apply (device_do_inv DStop d Hd).
  apply Forall_lookup_2. intros n x Hx. destruct x; [|done]. apply Hs in Hx.
  destruct (device_Stop_idle d). by exists n.
Qed.

Lemma bytesToInt16LE_length n : ∀ b, length b = (2 * n)%nat -> length (bytesToInt16LE b) = n.
Proof.
  induction n as [|n IH]; intros [|b0 [|b1 b]] Hlen; simpl in *; try done; try lia.
  f_equal. apply IH. lia.
Qed.

Lemma int16ToBytesLE_length pcm : length (int16ToBytesLE pcm) = (2 * length pcm)%nat.
Proof.
  induction pcm as [|s pcm IH]; [done|]. change (length (int16ToBytesLE (s :: pcm)))
    with (2 + length (int16ToBytesLE pcm))%nat. rewrite IH. simpl. lia.
Qed.

Lemma go_copy_full dst src : length src = length dst -> go_copy dst src = src.
Proof. intros Hl. unfold go_copy. rewrite <- Hl, firstn_all, drop_ge by lia. apply app_nil_r. Qed.

Lemma int16_frame b : Forall is_byte b -> Nat.even (length b) = true -> Forall is_int16 (bytesToInt16LE b).
Proof. intros Hb He. by destruct (int16LE_roundtrip [] b) as (_ & _ & _ & ?). Qed.

(** Whatever sequence of starts and stops with whatever outcomes of the
    library, a capturer or player holds at most one running native device, the
    one of its field, every other one is released; starting a running device
    fails and changes nothing, an idle one starts exactly when the library
    succeeds, and stopping releases everything. The callbacks hand out exactly
    960 int16 samples per full capture period and nothing for another length,
    and fill the whole playback buffer: with the encoded frame when it has the
    right length, with silence otherwise. *)
Theorem devices_correct os out inp pcm fc buf :
  Forall is_byte inp -> length inp = (2 * fc)%nat -> length buf = (2 * fc)%nat ->
  let d := device_run os new_device in
  (∀ n, d_native d !! n = Some NRunning <-> d_device d = Some n) ∧
  (running d -> device_Start out d = (d, Err EAlreadyStarted)) ∧
  (¬ running d -> is_ok (device_Start out d).2 = device_ok out ∧
                  (running (device_Start out d).1 <-> device_ok out = true)) ∧
  Forall (eq NUninit) (d_native (device_Stop d)) ∧
  (if decide (Z.of_nat fc = FrameSize)
   then ∃ frame, capture_data (Z.of_nat fc) inp = Some frame ∧ length frame = 960 ∧ Forall is_int16 frame
   else capture_data (Z.of_nat fc) inp = None) ∧
  playback_data pcm (Z.of_nat fc) buf =
    match pcm with
    | Some pcm => if decide (length pcm = fc) then int16ToBytesLE pcm else replicate (2 * fc) 0%Z
    | None => replicate (2 * fc) 0%Z
    end.
Proof.
  intros Hinp Hlen Hbuf d. pose proof (device_run_inv os new_device new_device_inv) as Hinv. fold d in Hinv.
  split; [done|]. split; [intros [n Hn]; unfold device_Start; by rewrite Hn|].
  split; [apply device_Start_idle|]. split; [by apply device_Stop_native|]. split.
  - unfold capture_data. destruct (decide (Z.of_nat fc = FrameSize)) as [He|He].
    + rewrite decide_False by (intros Hn; by apply Hn). exists (bytesToInt16LE inp). split; [done|]. split.
      * rewrite (bytesToInt16LE_length fc) by done. by apply (inj Z.of_nat).
      * apply int16_frame; [done|]. rewrite Hlen. apply Nat.even_spec. by exists fc.
    + by rewrite decide_True.
  - unfold playback_data. destruct pcm as [pcm|]; rewrite Hbuf; [|done]. unfold Channels.
    destruct (decide (length pcm = fc)) as [He|He].
    + rewrite decide_False by lia. apply go_copy_full. rewrite int16ToBytesLE_length. lia.
    + by rewrite decide_True by lia.
Qed.

Lemma devices_correct_witness :
  d_native (device_run [DStart (mkDeviceOut true true true); DStart (mkDeviceOut true true true)] new_device)
    !! 0 = Some NRunning ∧
  playback_data (Some [1; -1]%Z) 2 [7; 7; 7; 7]%Z = [1; 0; 255; 255]%Z.
Proof.
  destruct (devices_correct [DStart (mkDeviceOut true true true); DStart (mkDeviceOut true true true)]
              (mkDeviceOut true true true) [1; 2; 3; 4]%Z (Some [1; -1]%Z) 2 [7; 7; 7; 7]%Z)
    as (Hinv & _ & _ & _ & _ & Hplay); [|done|done|].
  - repeat constructor; unfold is_byte; lia.
  - split; [by apply Hinv|exact Hplay].
Defined.
