(* ===== verification/AudioManager.v ===== *)
(** * Audio sessions and their manager ([internal/audio/session.go], [manager.go])

    A [Session] is one call's audio: two devices, a transport, a pipeline whose
    [Start] runs in a goroutine of its own, and a ticker. The [Manager] keeps a
    map from call ids to sessions. Sessions are locations in a heap, since the
    map, the event loop, [Stop] and the callers of [SetMuted] share them. [mop]
    interleaves the manager's event loop ([Start]), any number of [Stop], of
    [SetMuted] and [Stats] calls and the goroutines of every session; each
    critical section and each blocking point is a step. [None] is a panic.
    The audio callbacks themselves are the steps of [AudioPipeline]. *)
From S2P Require Import Prelude CallSession AudioTransport AudioStats AudioPipeline AudioDevices.
#[local] Open Scope list_scope.

(** ** Sessions *)

Record ManagerConfig := mkManagerConfig {
  mc_InputDevice : string;
  mc_OutputDevice : string;
  mc_Bitrate : Z;
  mc_JitterTargetMs : Z;
  mc_JitterMaxMs : Z;
  mc_AECEnabled : bool }.

Definition MediaMode_String (m : MediaMode) : string :=
  match m with ModeDatagram => "datagram" | ModeStream => "stream" | ModeNone => "none" end.

#[export] Instance StartAct_eq_dec : EqDecision StartAct.
Proof. solve_decision. Defined.

Section session.
Context `{Opus}.

(** A session with a pipeline. [rn_todo] is what its [Start] still has to do,
    [rn_done] that [pipelineDone] is closed, [rn_cancelled] that [cancel] was
    called; [rn_control] are the messages written to the control stream. *)
Record Running := mkRunning {
  rn_pipeline : Pipeline;
  rn_transport : libp2pTransport;
  rn_source : Device;
  rn_sink : Device;
  rn_sourceOut : DeviceOut;
  rn_sinkOut : DeviceOut;
  rn_todo : list StartAct;
  rn_done : bool;
  rn_cancelled : bool;
  rn_ticker : bool;
  rn_control : list (ControlMessage * option Stats) }.

(** [se_run] is [None] for the placeholder of a manager without a host, whose
    other fields are nil. *)
Record Session := mkSession { se_stats : statsCore; se_run : option Running }.

Definition set_pipeline p r := mkRunning p (rn_transport r) (rn_source r) (rn_sink r) (rn_sourceOut r)
  (rn_sinkOut r) (rn_todo r) (rn_done r) (rn_cancelled r) (rn_ticker r) (rn_control r).
Definition set_transport t r := mkRunning (rn_pipeline r) t (rn_source r) (rn_sink r) (rn_sourceOut r)
  (rn_sinkOut r) (rn_todo r) (rn_done r) (rn_cancelled r) (rn_ticker r) (rn_control r).
Definition set_devices x r := mkRunning (rn_pipeline r) (rn_transport r) x.1 x.2 (rn_sourceOut r)
  (rn_sinkOut r) (rn_todo r) (rn_done r) (rn_cancelled r) (rn_ticker r) (rn_control r).
Definition set_todo t r := mkRunning (rn_pipeline r) (rn_transport r) (rn_source r) (rn_sink r)
  (rn_sourceOut r) (rn_sinkOut r) t (rn_done r) (rn_cancelled r) (rn_ticker r) (rn_control r).
Definition set_done r := mkRunning (rn_pipeline r) (rn_transport r) (rn_source r) (rn_sink r)
  (rn_sourceOut r) (rn_sinkOut r) (rn_todo r) true (rn_cancelled r) (rn_ticker r) (rn_control r).
Definition set_cancelled r := mkRunning (rn_pipeline r) (rn_transport r) (rn_source r) (rn_sink r)
  (rn_sourceOut r) (rn_sinkOut r) (rn_todo r) (rn_done r) true (rn_ticker r) (rn_control r).
Definition stop_ticker r := mkRunning (rn_pipeline r) (rn_transport r) (rn_source r) (rn_sink r)
  (rn_sourceOut r) (rn_sinkOut r) (rn_todo r) (rn_done r) (rn_cancelled r) false (rn_control r).
Definition send_control c r := mkRunning (rn_pipeline r) (rn_transport r) (rn_source r) (rn_sink r)
  (rn_sourceOut r) (rn_sinkOut r) (rn_todo r) (rn_done r) (rn_cancelled r) (rn_ticker r) (rn_control r ++ [c]).

(** *** Construction *)

Inductive NewSessionErr :=
| ECapturer (e : DeviceErr) | EPlayer (e : DeviceErr) | ETransport | EPipeline (e : PipelineErr).

(** An error with what had been opened, after the cleanup. *)
Record Failed := mkFailed {
  fl_err : NewSessionErr;
  fl_devices : list Device;
  fl_transport : option libp2pTransport }.

(** What the libraries will answer: whether the transport's streams open, the
    device library at both starts, and the random SSRC. *)
Record Outcome := mkOutcome {
  oc_transport : bool; oc_source : DeviceOut; oc_sink : DeviceOut; oc_ssrc : Z }.

Definition NewSessionWithDeps (cfg : ManagerConfig) (o : Outcome) (src sink : Device) (t : libp2pTransport)
  : result Failed Session :=
  let aec := NewAEC (mc_AECEnabled cfg) in
  let stats := NewStatsCore in
  match NewPipeline (mkPipelineConfig true true true (Some aec) true (mc_Bitrate cfg) (mc_JitterTargetMs cfg)
          (mc_JitterMaxMs cfg)) (oc_ssrc o) (mkShared stats t) with
  | Err e => Err (mkFailed (EPipeline e) [device_Stop src; player_Stop sink] (Some (Close false false t).1))
  | Ok (p, sh) =>
      Ok (mkSession (sh_stats sh) (Some (mkRunning p (sh_transport sh) src sink (oc_source o) (oc_sink o)
            (Start (device_ok (oc_source o)) (device_ok (oc_sink o))).1 false false true [])))
  end.

(** [init] is what malgo's [InitContext] answers the first time. *)
Definition NewSession (init : bool) (cfg : ManagerConfig) (o : Outcome) (ctx : option bool)
  : option bool * result Failed Session :=
  let '(ctx, src) := NewMalgoCapturer init (mc_InputDevice cfg) ctx in
  match src with
  | Err e => (ctx, Err (mkFailed (ECapturer e) [] None))
  | Ok src =>
      let '(ctx, sink) := NewMalgoPlayer init (mc_OutputDevice cfg) ctx in
      match sink with
      | Err e => (ctx, Err (mkFailed (EPlayer e) [device_Stop src] None))
      | Ok sink =>
          (ctx, if oc_transport o then NewSessionWithDeps cfg o src sink NewLibp2pTransport
                else Err (mkFailed ETransport [device_Stop src; player_Stop sink] None))
      end
  end.

(** *** The goroutines *)

(** What an act of [Pipeline.Start] does to the devices; closing the codecs does
    nothing, and the receive loop is a goroutine of its own. *)
Definition act_devices (so ko : DeviceOut) (x : Device * Device) (a : StartAct) : Device * Device :=
  match a with
  | SourceStart => ((device_Start so x.1).1, x.2)
  | SourceStop => (device_Stop x.1, x.2)
  | SinkStart => (x.1, (player_Start ko x.2).1)
  | SinkStop => (x.1, player_Stop x.2)
  | GoRecvLoop | WaitDone | DecClose | EncClose => x
  end.

(** The next act of the pipeline goroutine; the wait needs the session's context
    to be done, and [pipelineDone] is closed at the end. [ctx] is the manager's. *)
Definition pipe_step (ctx : bool) (r : Running) : Running :=
  match rn_todo r with
  | [] => set_done r
  | a :: todo =>
      if bool_decide (a = WaitDone) && negb (rn_cancelled r || ctx) then r
      else set_todo todo (set_devices
             (act_devices (rn_sourceOut r) (rn_sinkOut r) (rn_source r, rn_sink r) a) r)
  end.

(** One round of [statsTicker]: a tick, or its end once the context is done. *)
Definition ticker_tick (s : Session) : Session :=
  match se_run s with
  | Some r =>
      if rn_ticker r then
        let '(stats, snap) := Snapshot (SetMediaMode (MediaMode_String (mediaMode (rn_transport r))) (se_stats s)) in
        mkSession stats (Some (send_control (mkControl "stats" false, Some snap) r))
      else s
  | None => s
  end.

Definition ticker_end (ctx : bool) (r : Running) : Running :=
  if rn_cancelled r || ctx then stop_ticker r else r.

(** *** Methods *)

(** [Session.SetMuted]; a placeholder has no pipeline to call. *)
Definition session_SetMuted (b : bool) (s : Session) : option Session :=
  match se_run s with
  | None => None
  | Some r =>
      let '(p, sh) := SetMuted b (rn_pipeline r) (mkShared (se_stats s) (rn_transport r)) in
      Some (mkSession (sh_stats sh) (Some (send_control (mkControl "mute" b, None) (set_pipeline p r))))
  end.

Definition session_Stats (s : Session) : Session * Stats :=
  let '(stats, snap) := Snapshot (se_stats s) in (mkSession stats (se_run s), snap).

(** [Session.Close] stands before its cancel, at the wait, before closing the
    transport, or has returned. *)
Inductive ClosePC := PcCancel | PcWait | PcTransport | PcReturned.

Definition close_step (pc : ClosePC) (s : Session) : Session * ClosePC :=
  match se_run s with
  | None => (s, PcReturned)
  | Some r =>
      match pc with
      | PcCancel => (mkSession (se_stats s) (Some (set_cancelled r)), PcWait)
      | PcWait => (s, if rn_done r then PcTransport else PcWait)
      | PcTransport =>
          (mkSession (se_stats s) (Some (set_transport (Close false false (rn_transport r)).1 r)), PcReturned)
      | PcReturned => (s, PcReturned)
      end
  end.
End session.

(** ** The manager *)

(** Where [Start]'s goroutine stands. *)
Inductive LoopPC :=
| LOff
| LSelect
| LOpening (ev : StateChange)       (* startSession, past the check of the map *)
| LInsert (id : string) (k : nat)   (* startSession, before the insertion *)
| LClosing (k : nat) (pc : ClosePC) (* stopSession, in the session's Close *)
| LReturned.

(** A caller of [SetMuted] or [Stats] that has looked its session up. *)
Inductive Use := UMute (b : bool) | UStats.

(** What the event loop has done with an event. *)
Inductive Handled := HConnected (id : string) (started : bool) | HEnded (id : string).

Section manager.
Context `{Opus}.

Record Manager := mkManager {
  mg_malgo : option bool;
  mg_heap : list Session;
  mg_sessions : gmap string nat;
  mg_cancel : bool;                      (* m.cancel is set *)
  mg_ctx : bool;                         (* innerCtx is done *)
  mg_loop : LoopPC;
  mg_stops : list (ClosePC * list nat);  (* each [Stop] with the sessions it has left *)
  mg_uses : list (nat * Use);
  mg_log : list Handled }.

Definition NewManager : Manager := mkManager None [] ∅ false false LOff [] [] [].

Definition set_heap h m := mkManager (mg_malgo m) h (mg_sessions m) (mg_cancel m) (mg_ctx m) (mg_loop m)
  (mg_stops m) (mg_uses m) (mg_log m).
Definition set_sessions s m := mkManager (mg_malgo m) (mg_heap m) s (mg_cancel m) (mg_ctx m) (mg_loop m)
  (mg_stops m) (mg_uses m) (mg_log m).
Definition set_ctx c m := mkManager (mg_malgo m) (mg_heap m) (mg_sessions m) (mg_cancel m) c (mg_loop m)
  (mg_stops m) (mg_uses m) (mg_log m).
Definition set_loop l m := mkManager (mg_malgo m) (mg_heap m) (mg_sessions m) (mg_cancel m) (mg_ctx m) l
  (mg_stops m) (mg_uses m) (mg_log m).
Definition set_stops s m := mkManager (mg_malgo m) (mg_heap m) (mg_sessions m) (mg_cancel m) (mg_ctx m)
  (mg_loop m) s (mg_uses m) (mg_log m).
Definition set_uses u m := mkManager (mg_malgo m) (mg_heap m) (mg_sessions m) (mg_cancel m) (mg_ctx m)
  (mg_loop m) (mg_stops m) u (mg_log m).
Definition handled x m := mkManager (mg_malgo m) (mg_heap m) (mg_sessions m) (mg_cancel m) (mg_ctx m)
  (mg_loop m) (mg_stops m) (mg_uses m) (mg_log m ++ [x]).
Definition set_malgo c m := mkManager c (mg_heap m) (mg_sessions m) (mg_cancel m) (mg_ctx m) (mg_loop m)
  (mg_stops m) (mg_uses m) (mg_log m).

Definition on_run (f : Running -> Running) (s : Session) : Session :=
  mkSession (se_stats s) (f <$> se_run s).

Context (has_host : bool) (init : bool) (cfg : ManagerConfig).

(** [Start]: it registers its cancel function and subscribes. *)
Definition do_start (m : Manager) : Manager :=
  match mg_loop m with
  | LOff => mkManager (mg_malgo m) (mg_heap m) (mg_sessions m) true (mg_ctx m) LSelect (mg_stops m)
              (mg_uses m) (mg_log m)
  | _ => m
  end.

(** The select: the context, or an event with the first section of its handler. *)
Definition do_exit (m : Manager) : Manager :=
  match mg_loop m with
  | LSelect => if mg_ctx m then set_loop LReturned m else m
  | _ => m
  end.

Definition stopSession_take (id : string) (m : Manager) : Manager :=
  match mg_sessions m !! id with
  | None => m
  | Some k => set_loop (LClosing k PcCancel) (set_sessions (delete id (mg_sessions m)) m)
  end.

Definition startSession_check (ev : StateChange) (m : Manager) : Manager :=
  match mg_sessions m !! SessionID ev with
  | Some _ => handled (HConnected (SessionID ev) false) m
  | None => set_loop (LOpening ev) m
  end.

Definition do_event (ev : StateChange) (m : Manager) : Manager :=
  match mg_loop m with
  | LSelect =>
      if decide (ev_State ev = "connected") then startSession_check ev m
      else if decide (ev_State ev = "ended")
      then handled (HEnded (SessionID ev)) (stopSession_take (SessionID ev) m)
      else m
  | _ => m
  end.

(** [startSession]: the session is made, then inserted under the lock. *)
Definition do_new (o : Outcome) (m : Manager) : Manager :=
  match mg_loop m with
  | LOpening ev =>
      if has_host then
        let '(malgo, r) := NewSession init cfg o (mg_malgo m) in
        match r with
        | Err _ => handled (HConnected (SessionID ev) false) (set_loop LSelect (set_malgo malgo m))
        | Ok s => set_loop (LInsert (SessionID ev) (length (mg_heap m)))
                    (set_heap (mg_heap m ++ [s]) (set_malgo malgo m))
        end
      else set_loop (LInsert (SessionID ev) (length (mg_heap m)))
             (set_heap (mg_heap m ++ [mkSession NewStatsCore None]) m)
  | _ => m
  end.

Definition do_insert (m : Manager) : Manager :=
  match mg_loop m with
  | LInsert id k =>
      handled (HConnected id true) (set_loop LSelect (set_sessions (<[id := k]> (mg_sessions m)) m))
  | _ => m
  end.

(** One step of a [Close] of session [k]. *)
Definition close_at_heap (pc : ClosePC) (k : nat) (m : Manager) : Manager * ClosePC :=
  match mg_heap m !! k with
  | None => (m, pc)
  | Some s => let '(s, pc) := close_step pc s in (set_heap (<[k := s]> (mg_heap m)) m, pc)
  end.

Definition do_close (m : Manager) : Manager :=
  match mg_loop m with
  | LClosing k pc =>
      let '(m, pc) := close_at_heap pc k m in
      set_loop (match pc with PcReturned => LSelect | _ => LClosing k pc end) m
  | _ => m
  end.

(** [Stop]: the locked section, then one session after the other in the order of
    the map's iteration. *)
Definition do_stop (order : list nat) (m : Manager) : Manager :=
  let ks := (map_to_list (mg_sessions m)).*2 in
  let ks := if decide (order ≡ₚ ks) then order else ks in
  set_stops (mg_stops m ++ [(PcCancel, ks)])
    (set_sessions ∅ (set_ctx (mg_ctx m || mg_cancel m) m)).

Definition do_stop_close (i : nat) (m : Manager) : Manager :=
  match mg_stops m !! i with
  | Some (pc, k :: ks) =>
      let '(m, pc) := close_at_heap pc k m in
      set_stops (<[i := match pc with PcReturned => (PcCancel, ks) | _ => (pc, k :: ks) end]> (mg_stops m)) m
  | _ => m
  end.

(** [SetMuted] and [Stats]: the locked lookup, and the call on the session. *)
Definition do_lookup (id : string) (u : Use) (m : Manager) : Manager * bool :=
  match mg_sessions m !! id with
  | None => (m, false)
  | Some k => (set_uses (mg_uses m ++ [(k, u)]) m, true)
  end.

Definition use_session (u : Use) (s : Session) : option Session :=
  match u with UMute b => session_SetMuted b s | UStats => Some (session_Stats s).1 end.

Definition do_use (i : nat) (m : Manager) : option Manager :=
  match mg_uses m !! i with
  | None => Some m
  | Some (k, u) =>
      s ← mg_heap m !! k;
      s ← use_session u s;
      Some (set_uses (delete i (mg_uses m)) (set_heap (<[k := s]> (mg_heap m)) m))
  end.

Definition on_heap (k : nat) (f : Session -> Session) (m : Manager) : Manager :=
  set_heap (alter f k (mg_heap m)) m.

Inductive mop :=
| MStart | MParentDone | MExit | MEventsClosed | MEvent (ev : StateChange) | MNew (o : Outcome) | MInsert
| MClose | MStop (order : list nat) | MStopClose (i : nat) | MLookup (id : string) (u : Use) | MUse (i : nat)
| MPipe (k : nat) | MTick (k : nat) | MTickerEnd (k : nat).

Definition mgr_do (o : mop) (m : Manager) : option Manager :=
  match o with
  | MStart => Some (do_start m)
  | MParentDone => Some (set_ctx true m)
  | MExit => Some (do_exit m)
  | MEventsClosed => Some (match mg_loop m with LSelect => set_loop LReturned m | _ => m end)
  | MEvent ev => Some (do_event ev m)
  | MNew o => Some (do_new o m)
  | MInsert => Some (do_insert m)
  | MClose => Some (do_close m)
  | MStop order => Some (do_stop order m)
  | MStopClose i => Some (do_stop_close i m)
  | MLookup id u => Some (do_lookup id u m).1
  | MUse i => do_use i m
  | MPipe k => Some (on_heap k (on_run (pipe_step (mg_ctx m))) m)
  | MTick k => Some (on_heap k ticker_tick m)
  | MTickerEnd k => Some (on_heap k (on_run (ticker_end (mg_ctx m))) m)
  end.

Fixpoint mgr_run (os : list mop) (m : Manager) : option Manager :=
  match os with
  | [] => Some m
  | o :: os => m ← mgr_do o m; mgr_run os m
  end.
End manager.

(** ** One session: lemmas *)

Section session_lemmas.
Context `{Opus}.
Implicit Types (r : Running) (s : Session).

Definition closed_transport : libp2pTransport := (Close false false NewLibp2pTransport).1.

Definition acts r : list StartAct := (Start (device_ok (rn_sourceOut r)) (device_ok (rn_sinkOut r))).1.

Definition devices_after r (l : list StartAct) : Device * Device :=
  foldl (act_devices (rn_sourceOut r) (rn_sinkOut r)) (new_device, new_device) l.

Record run_ok r : Prop := {
  ro_progress : ∃ n, n <= length (acts r) ∧ rn_todo r = drop n (acts r) ∧
                  (rn_source r, rn_sink r) = devices_after r (take n (acts r));
  ro_done : rn_done r = true -> rn_todo r = [];
  ro_transport : rn_transport r = NewLibp2pTransport ∨
                 (rn_transport r = closed_transport ∧ rn_done r = true ∧ rn_cancelled r = true) }.

(** Closed: the goroutine has returned and the transport is shut. *)
Definition closed r : Prop := rn_done r = true ∧ rn_transport r = closed_transport.

(** What a step of anybody but a closer does to a session. *)
Record benign r r' : Prop := {
  bn_ok : run_ok r';
  bn_cancelled : rn_cancelled r' = rn_cancelled r;
  bn_transport : rn_transport r' = rn_transport r;
  bn_done : rn_done r = true -> rn_done r' = true }.

(** What holds of a session where a [Close] stands. *)
Definition pc_ok (pc : ClosePC) r : Prop :=
  match pc with
  | PcCancel => True
  | PcWait => rn_cancelled r = true
  | PcTransport => rn_cancelled r = true ∧ rn_done r = true
  | PcReturned => False
  end.

Lemma run_ok_same r r' :
  run_ok r -> rn_sourceOut r' = rn_sourceOut r -> rn_sinkOut r' = rn_sinkOut r -> rn_todo r' = rn_todo r ->
  rn_source r' = rn_source r -> rn_sink r' = rn_sink r -> rn_done r' = rn_done r ->
  rn_transport r' = rn_transport r -> rn_cancelled r' = rn_cancelled r -> benign r r'.
Proof.
  intros [Hp Hd Ht] Ho1 Ho2 Htd Hs Hk Hdn Htr Hc. split; [split|done|done|by rewrite Hdn].
  - unfold acts, devices_after in *. rewrite Ho1, Ho2, Htd, Hs, Hk. done.
  - by rewrite Hdn, Htd.
  - by rewrite Hdn, Htr, Hc.
Qed.

Lemma pipe_step_benign ctx r : run_ok r -> benign r (pipe_step ctx r).
Proof.
  intros Hok. pose proof Hok as [(n & Hn & Htd & Hdev) Hd Ht]. unfold pipe_step.
  destruct (rn_todo r) as [|a todo] eqn:Htodo.
  { split; [split|done|done|done].
    - exists n. simpl. by rewrite Htodo.
    - simpl. by rewrite Htodo.
    - simpl. destruct Ht as [?|(? & ? & ?)]; [by left|by right]. }
  destruct (bool_decide (a = WaitDone) && negb (rn_cancelled r || ctx)).
  { by apply run_ok_same. }
  assert (acts r !! n = Some a) as Ha by (by rewrite <- (Nat.add_0_r n), <- lookup_drop, <- Htd).
  assert (rn_done r = false) as Hnd by (destruct (rn_done r); [by specialize (Hd eq_refl)|done]).
  split; [split|done|done|by rewrite Hnd].
  - exists (S n). pose proof (lookup_lt_Some _ _ _ Ha). split; [done|]. split.
    + simpl. rewrite (drop_S _ a) in Htd by done. by injection Htd.
    + unfold acts, devices_after in *. cbn [rn_source rn_sink rn_sourceOut rn_sinkOut set_todo set_devices].
      rewrite (take_S_r _ _ a), foldl_app by done. cbn [foldl]. rewrite <- Hdev. by destruct act_devices.
  - simpl. by rewrite Hnd.
  - simpl. destruct Ht as [?|(? & ? & ?)]; [by left|by right].
Qed.

Lemma SetMuted_shared (b : bool) p (sh : Shared libp2pTransport) : sh_transport (SetMuted b p sh).2 = sh_transport sh.
Proof. done. Qed.

Lemma use_session_benign u s r : se_run s = Some r -> run_ok r ->
  ∃ s' r', use_session u s = Some s' ∧ se_run s' = Some r' ∧ benign r r'.
Proof.
  intros Hr Hok. destruct u as [b|]; simpl.
  - unfold session_SetMuted. rewrite Hr. eexists _, _. split; [done|]. split; [done|]. by apply run_ok_same.
  - exists (session_Stats s).1, r. split; [done|]. split; [done|]. by apply run_ok_same.
Qed.

Lemma ticker_tick_benign s r : se_run s = Some r -> run_ok r ->
  ∃ r', se_run (ticker_tick s) = Some r' ∧ benign r r'.
Proof.
  intros Hr Hok. unfold ticker_tick. rewrite Hr. destruct (rn_ticker r).
  - eexists. split; [done|]. by apply run_ok_same.
  - exists r. split; [done|]. by apply run_ok_same.
Qed.

Lemma ticker_end_benign ctx r : run_ok r -> benign r (ticker_end ctx r).
Proof. intros Hok. unfold ticker_end. destruct (rn_cancelled r || ctx); by apply run_ok_same. Qed.

Lemma closed_benign r r' : benign r r' -> closed r -> closed r'.
Proof. intros [_ _ Ht Hd] [Hdn Htr]. split; [by apply Hd|by rewrite Ht]. Qed.

Lemma pc_ok_benign pc r r' : benign r r' -> pc_ok pc r -> pc_ok pc r'.
Proof. intros [_ Hc _ Hd]. destruct pc; simpl; rewrite ?Hc; naive_solver. Qed.

(** A finished goroutine has stopped both devices. *)
Lemma done_devices r : run_ok r -> rn_todo r = [] -> ¬ running (rn_source r) ∧ ¬ running (rn_sink r) ∧
  Forall (eq NUninit) (d_native (rn_source r)) ∧ Forall (eq NUninit) (d_native (rn_sink r)).
Proof.
  intros [(n & Hn & Htd & Hdev) _ _] Hnil. rewrite Hnil in Htd.
  assert (n = length (acts r)) as ->.
  { assert (length (drop n (acts r)) = 0) as Hl by (by rewrite <- Htd). rewrite length_drop in Hl. lia. }
  rewrite firstn_all in Hdev. unfold devices_after, acts in Hdev. unfold running.
  destruct (rn_sourceOut r) as [[] [] []], (rn_sinkOut r) as [[] [] []]; cbn in Hdev;
    injection Hdev as -> ->; cbn; (split; [by intros []|]); (split; [by intros []|]);
    split; repeat constructor.
Qed.

Lemma close_step_ok pc s r : se_run s = Some r -> run_ok r -> pc_ok pc r ->
  ∃ r', se_run (close_step pc s).1 = Some r' ∧ run_ok r' ∧ (closed r -> closed r') ∧
    (rn_cancelled r = true -> rn_cancelled r' = true) ∧ (rn_done r = true -> rn_done r' = true) ∧
    ((close_step pc s).2 = PcReturned -> closed r') ∧
    ((close_step pc s).2 ≠ PcReturned -> pc_ok (close_step pc s).2 r').
Proof.
  intros Hr Hok Hpc. unfold close_step. rewrite Hr. pose proof Hok as [Hp Hd Ht].
  destruct pc; simpl in Hpc; [| | |done]; cbn [fst snd se_run].
  - exists (set_cancelled r). split; [done|]. split; [|by split_and!].
    split; [done|done|]. simpl. destruct Ht as [?|(? & ? & ?)]; [by left|by right].
  - exists r. split; [done|]. split; [done|]. split; [done|]. split; [done|]. split; [done|].
    destruct (rn_done r) eqn:Hdn; simpl; by rewrite ?Hdn.
  - destruct Hpc as [Hc Hdn].
    assert ((Close false false (rn_transport r)).1 = closed_transport) as Hct
      by (destruct Ht as [->|(-> & _)]; done).
    rewrite Hct. exists (set_transport closed_transport r). split; [done|].
    split; [|by split_and!]. split; [done|done|]. simpl. by right.
Qed.
End session_lemmas.

(** ** The manager: ownership *)

Section manager_lemmas.
Context `{Opus} (init : bool) (cfg : ManagerConfig).
Implicit Types (m : Manager).

Definition loop_owned (l : LoopPC) : list nat :=
  match l with LInsert _ k | LClosing k _ => [k] | _ => [] end.

(** Who will close a session: the loop, a [Stop], or whoever takes it out of the map. *)
Definition owned m : list nat :=
  loop_owned (mg_loop m) ++ mjoin (snd <$> mg_stops m) ++ (map_to_list (mg_sessions m)).*2.

Definition running_at m k r : Prop := ∃ s, mg_heap m !! k = Some s ∧ se_run s = Some r.

Definition fresh m k : Prop := ∀ r, running_at m k r -> rn_cancelled r = false ∧ rn_transport r = NewLibp2pTransport.

Definition closing m k pc : Prop :=
  mg_loop m = LClosing k pc ∨ ∃ i ks, mg_stops m !! i = Some (pc, k :: ks).

Definition key_ok m : Prop :=
  match mg_loop m with
  | LOpening ev => mg_sessions m !! SessionID ev = None
  | LInsert id _ => mg_sessions m !! id = None
  | _ => True
  end.

Record minv m : Prop := {
  mi_owned : NoDup (owned m);
  mi_range : ∀ k, k ∈ owned m -> k < length (mg_heap m);
  mi_sess : ∀ k s, mg_heap m !! k = Some s ->
              ∃ r, se_run s = Some r ∧ run_ok r ∧ (k ∈ owned m ∨ closed r);
  mi_key : key_ok m;
  mi_map : ∀ id k, mg_sessions m !! id = Some k -> fresh m k;
  mi_insert : ∀ id k, mg_loop m = LInsert id k -> fresh m k;
  mi_pc : ∀ k pc r, closing m k pc -> running_at m k r -> pc_ok pc r;
  mi_uses : ∀ k u, (k, u) ∈ mg_uses m -> k < length (mg_heap m) }.

Lemma closing_owned m k pc : closing m k pc -> k ∈ owned m.
Proof.
  unfold owned. intros [->|(i & ks & Hi)]; [by left|]. apply elem_of_app. right. apply elem_of_app. left.
  apply list_elem_of_join. exists (k :: ks). split; [by left|].
  apply list_elem_of_fmap. exists (pc, k :: ks). split; [done|]. by eapply list_elem_of_lookup_2.
Qed.

Lemma mapped_owned m id k : mg_sessions m !! id = Some k -> k ∈ (map_to_list (mg_sessions m)).*2.
Proof.
  intros Hk. apply list_elem_of_fmap. exists (id, k). split; [done|]. by apply elem_of_map_to_list.
Qed.

(** A session being closed is in neither of the other places. *)
Lemma closing_not_mapped m k pc id : minv m -> closing m k pc ->
  mg_sessions m !! id ≠ Some k ∧ ∀ id', mg_loop m ≠ LInsert id' k.
Proof.
  intros Hm Hc. pose proof (mi_owned _ Hm) as Hnd. unfold owned in Hnd.
  apply NoDup_app in Hnd as (Hl & Hd1 & Hnd). apply NoDup_app in Hnd as (_ & Hd2 & _).
  assert (∀ i ks, mg_stops m !! i = Some (pc, k :: ks) -> k ∈ mjoin (snd <$> mg_stops m)) as Hstop.
  { intros i ks Hi. apply list_elem_of_join. exists (k :: ks). split; [by left|].
    apply list_elem_of_fmap. exists (pc, k :: ks). split; [done|]. by eapply list_elem_of_lookup_2. }
  split.
  - intros Hk%mapped_owned. destruct Hc as [Hc|(i & ks & Hi)].
    + rewrite Hc in Hd1. eapply (Hd1 k); [by left|]. apply elem_of_app. by right.
    + eapply Hd2; [by eapply Hstop|done].
  - intros id' Hl'. destruct Hc as [Hc|(i & ks & Hi)]; [congruence|].
    rewrite Hl' in Hd1. eapply (Hd1 k); [by left|]. apply elem_of_app. left. by eapply Hstop.
Qed.

Lemma running_at_insert m k s s' r k' :
  mg_heap m !! k = Some s -> running_at (set_heap (<[k := s']> (mg_heap m)) m) k' r ->
  (k' = k ∧ se_run s' = Some r) ∨ (k' ≠ k ∧ running_at m k' r).
Proof.
  intros Hk (s0 & Hs0 & Hr). cbn [mg_heap set_heap] in Hs0. destruct (decide (k' = k)) as [->|Hne].
  - rewrite list_lookup_insert_eq in Hs0 by (by eapply lookup_lt_Some). left. by injection Hs0 as <-.
  - rewrite list_lookup_insert_ne in Hs0 by done. right. split; [done|]. by exists s0.
Qed.

(** A benign step of one session. *)
Lemma minv_benign m k s s' r r' :
  minv m -> mg_heap m !! k = Some s -> se_run s = Some r -> se_run s' = Some r' -> benign r r' ->
  minv (set_heap (<[k := s']> (mg_heap m)) m).
Proof.
  intros Hm Hk Hr Hr' Hb. pose proof (running_at_insert m k s s') as Hat.
  assert (running_at m k r) as Hrun by (by exists s).
  assert (∀ k', fresh m k' -> fresh (set_heap (<[k := s']> (mg_heap m)) m) k') as Hfresh.
  { intros k' Hf r0 [[-> Hr0]|[_ Hr0]]%Hat; [|by apply Hf|done].
    assert (r0 = r') as -> by congruence. rewrite (bn_cancelled _ _ Hb), (bn_transport _ _ Hb). by apply Hf. }
  split.
  - apply (mi_owned _ Hm).
  - intros k'. cbn. rewrite length_insert. apply (mi_range _ Hm).
  - intros k' s0. cbn. intros Hk'. destruct (decide (k' = k)) as [->|Hne].
    + rewrite list_lookup_insert_eq in Hk' by (by eapply lookup_lt_Some). injection Hk' as <-.
      destruct (mi_sess _ Hm _ _ Hk) as (r1 & Hr1 & _ & Hc). assert (r1 = r) as -> by congruence.
      exists r'. split; [done|]. split; [apply Hb|]. destruct Hc; [by left|right]. by eapply closed_benign.
    + rewrite list_lookup_insert_ne in Hk' by done. by apply (mi_sess _ Hm).
  - apply (mi_key _ Hm).
  - intros id k' Hid. eapply Hfresh, (mi_map _ Hm), Hid.
  - intros id k' Hl. eapply Hfresh, (mi_insert _ Hm), Hl.
  - intros k' pc r0 Hc [[-> Hr0]|[_ Hr0]]%Hat; [|by eapply (mi_pc _ Hm)|done].
    assert (r0 = r') as -> by congruence. eapply pc_ok_benign; [done|]. by apply (mi_pc _ Hm k pc r).
  - intros k' u Hu. cbn. rewrite length_insert. by eapply (mi_uses _ Hm).
Qed.

(** A step of a [Close] of [k]: the session advances, everything else stays. *)
Lemma close_at_heap_ok m k pc : minv m -> closing m k pc ->
  ∃ s r r', mg_heap m !! k = Some s ∧ se_run s = Some r ∧ se_run (close_step pc s).1 = Some r' ∧
    close_at_heap pc k m = (set_heap (<[k := (close_step pc s).1]> (mg_heap m)) m, (close_step pc s).2) ∧
    run_ok r' ∧ (∀ pc', pc_ok pc' r -> pc_ok pc' r') ∧
    ((close_step pc s).2 = PcReturned -> closed r') ∧
    ((close_step pc s).2 ≠ PcReturned -> pc_ok (close_step pc s).2 r').
Proof.
  intros Hm Hc. assert (k < length (mg_heap m)) as Hlt by (eapply (mi_range _ Hm), closing_owned, Hc).
  apply lookup_lt_is_Some_2 in Hlt as [s Hs]. destruct (mi_sess _ Hm _ _ Hs) as (r & Hr & Hok & _).
  assert (pc_ok pc r) as Hpc by (eapply (mi_pc _ Hm); [done|by exists s]).
  destruct (close_step_ok pc s r Hr Hok Hpc) as (r' & Hr' & Hok' & _ & Hcan & Hdn & Hret & Hpc').
  exists s, r, r'. split_and!; try done.
  - unfold close_at_heap. rewrite Hs. by destruct (close_step pc s).
  - intros [| | |]; simpl; naive_solver.
Qed.

Lemma mjoin_insert_pop (ls : list (list nat)) i k ks : ls !! i = Some (k :: ks) ->
  mjoin ls ≡ₚ k :: mjoin (<[i := ks]> ls).
Proof.
  revert i. induction ls as [|l ls IH]; intros [|i] Hi; simpl in Hi; try done.
  - by injection Hi as ->.
  - change (l ++ mjoin ls ≡ₚ k :: l ++ mjoin (<[i:=ks]> ls)). rewrite (IH i Hi). by rewrite Permutation_middle.
Qed.

(** Nothing but the list of events changed hands. *)
Lemma minv_same m m2 :
  minv m -> mg_heap m2 = mg_heap m -> owned m2 ≡ₚ owned m -> mg_uses m2 = mg_uses m -> key_ok m2 ->
  (∀ id k, mg_sessions m2 !! id = Some k -> mg_sessions m !! id = Some k ∨ mg_loop m = LInsert id k) ->
  (∀ id k, mg_loop m2 = LInsert id k -> mg_loop m = LInsert id k) ->
  (∀ k pc, closing m2 k pc -> closing m k pc ∨ pc = PcCancel) ->
  minv m2.
Proof.
  intros [Hnd Hrg Hse Hkey Hmap Hins Hpc Hus] Hh Ho Hu Hk Hm Hi Hc.
  assert (∀ k r, running_at m2 k r <-> running_at m k r) as Hrun by (intros; unfold running_at; by rewrite Hh).
  assert (∀ k, fresh m k -> fresh m2 k) as Hfr by (intros k Hf r Hr; by apply Hf, Hrun).
  split; rewrite ?Hh, ?Hu; try done.
  - by rewrite Ho.
  - intros k. rewrite Ho. apply Hrg.
  - intros k s Hs. destruct (Hse k s Hs) as (r & Hr & Hok & Hor). exists r. by rewrite Ho.
  - intros id k [Hid|Hid]%Hm; apply Hfr; eauto.
  - intros id k Hid%Hi. apply Hfr. eauto.
  - intros k pc r [Hcl| ->]%Hc Hr; [|done]. by eapply Hpc; [|apply Hrun].
Qed.

Lemma minv_close m k pc m2 :
  minv m -> closing m k pc ->
  mg_heap m2 = mg_heap (close_at_heap pc k m).1 -> mg_sessions m2 = mg_sessions m -> mg_uses m2 = mg_uses m ->
  key_ok m2 -> (∀ id k', mg_loop m2 = LInsert id k' -> mg_loop m = LInsert id k') ->
  (let pc' := (close_at_heap pc k m).2 in
   (pc' = PcReturned ∧ owned m ≡ₚ k :: owned m2 ∨ pc' ≠ PcReturned ∧ owned m2 ≡ₚ owned m) ∧
   ∀ k' pc'', closing m2 k' pc'' ->
     closing m k' pc'' ∨ pc'' = PcCancel ∨ (k' = k ∧ pc'' = pc' ∧ pc' ≠ PcReturned)) ->
  minv m2.
Proof.
  intros Hm Hc Hh Hs Hu Hkey Hl [Ho Hcl].
  destruct (close_at_heap_ok m k pc Hm Hc) as (s & r & r' & Hks & Hr & Hr' & Hca & Hok & Hmono & Hret & Hnret).
  rewrite Hca in Hh, Ho, Hcl. cbn [fst snd mg_heap set_heap] in Hh, Ho, Hcl.
  assert (∀ k' r0, running_at m2 k' r0 -> (k' = k ∧ r0 = r') ∨ (k' ≠ k ∧ running_at m k' r0)) as Hat.
  { intros k' r0 (s0 & Hs0 & Hr0). rewrite Hh in Hs0.
    destruct (running_at_insert m k s (close_step pc s).1 r0 k' Hks) as [[-> ?]|?]; [by exists s0| |by right].
    left. split; [done|]. congruence. }
  destruct (closing_not_mapped m k pc "" Hm Hc) as [_ Hnl].
  assert (∀ id, mg_sessions m !! id ≠ Some k) as Hnm by (intros id; by eapply closing_not_mapped).
  assert (∀ k', k' ≠ k -> fresh m k' -> fresh m2 k') as Hfresh.
  { intros k' Hne Hf r0 [[-> _]|[_ Hr0]]%Hat; [done|by apply Hf]. }
  assert (∀ k', k' ≠ k -> k' ∈ owned m -> k' ∈ owned m2) as Hstay.
  { intros k' Hne. destruct Ho as [[_ ->]|[_ ->]]; [|done]. intros [?|?]%elem_of_cons; [by destruct Hne|done]. }
  split.
  - pose proof (mi_owned _ Hm) as Hnd. destruct Ho as [[_ Ho]|[_ ->]]; [|done].
    rewrite Ho in Hnd. by apply NoDup_cons in Hnd as [_ ?].
  - intros k' Hk'. rewrite Hh, length_insert. apply (mi_range _ Hm).
    destruct Ho as [[_ ->]|[_ <-]]; [by right|done].
  - intros k' s0. rewrite Hh. intros Hk'. destruct (decide (k' = k)) as [->|Hne].
    + rewrite list_lookup_insert_eq in Hk' by (by eapply lookup_lt_Some). injection Hk' as <-.
      exists r'. split; [done|]. split; [done|]. destruct Ho as [[Hx _]|[_ ->]]; [right; by apply Hret|left].
      by eapply closing_owned.
    + rewrite list_lookup_insert_ne in Hk' by done. destruct (mi_sess _ Hm _ _ Hk') as (r0 & Hr0 & Hok0 & Hor).
      exists r0. split; [done|]. split; [done|]. destruct Hor; [left; by apply Hstay|by right].
  - done.
  - intros id k' Hid. rewrite Hs in Hid. apply Hfresh; [intros ->; by eapply Hnm|by eapply (mi_map _ Hm)].
  - intros id k' Hid%Hl. apply Hfresh; [intros ->; by eapply Hnl|by eapply (mi_insert _ Hm)].
  - intros k' pc'' r0 Hc' Hr0. destruct (Hcl _ _ Hc') as [Hold|[->|(-> & -> & Hne)]]; [|done|].
    + destruct (Hat _ _ Hr0) as [[-> ->]|[_ Hr0']]; [|by eapply (mi_pc _ Hm)].
      apply Hmono. eapply (mi_pc _ Hm); [done|]. by exists s.
    + destruct (Hat _ _ Hr0) as [[_ ->]|[? _]]; [by apply Hnret|done].
  - intros k' u. rewrite Hu, Hh, length_insert. apply (mi_uses _ Hm).
Qed.

Lemma init_minv : minv NewManager.
Proof.
  assert (∀ k pc, ¬ closing NewManager k pc) as Hc.
  { intros k pc [Hl|(i & ks & Hi)]; [done|]. cbn in Hi. by rewrite lookup_nil in Hi. }
  assert (owned NewManager = []) as Ho by done.
  split; try done.
  - rewrite Ho. constructor.
  - intros k. rewrite Ho. by intros Hk%elem_of_nil.
  - intros k pc r Hcl. by destruct (Hc k pc).
  - intros k u Hk. cbn in Hk. by apply elem_of_nil in Hk.
Qed.

Ltac same m := apply (minv_same m); try done; cbn;
  try (intros; unfold closing in *; naive_solver).

Lemma do_start_minv m : minv m -> minv (do_start m).
Proof.
  intros Hm. unfold do_start. destruct (mg_loop m) eqn:Hl; try done.
  same m. unfold owned. cbn. by rewrite Hl.
Qed.

Lemma set_ctx_minv b m : minv m -> minv (set_ctx b m).
Proof. intros Hm. pose proof (mi_key _ Hm). same m. Qed.

Lemma do_exit_minv m : minv m -> mg_loop m = LSelect -> minv (set_loop LReturned m).
Proof. intros Hm Hl. same m. unfold owned. cbn. by rewrite Hl. Qed.

Lemma handled_minv x m : minv m -> minv (handled x m).
Proof. intros Hm. pose proof (mi_key _ Hm). same m. Qed.

Lemma set_malgo_minv c m : minv m -> minv (set_malgo c m).
Proof. intros Hm. pose proof (mi_key _ Hm). same m. Qed.

Lemma owned_delete (sessions : gmap string nat) id k : sessions !! id = Some k ->
  (map_to_list sessions).*2 ≡ₚ k :: (map_to_list (delete id sessions)).*2.
Proof. intros Hk. by rewrite <- (map_to_list_delete sessions id k Hk). Qed.

Lemma do_event_minv ev m : minv m -> minv (do_event ev m).
Proof.
  intros Hm. unfold do_event. destruct (mg_loop m) eqn:Hl; try done.
  destruct (decide (ev_State ev = "connected")); [|destruct (decide (ev_State ev = "ended")); [|done]].
  - unfold startSession_check. destruct (mg_sessions m !! SessionID ev) eqn:Hs; [by apply handled_minv|].
    same m. unfold owned. cbn. by rewrite Hl.
  - apply handled_minv. unfold stopSession_take. destruct (mg_sessions m !! SessionID ev) as [k|] eqn:Hs; [|done].
    same m.
    + unfold owned. cbn. rewrite Hl. cbn. rewrite (owned_delete _ _ _ Hs).
      by rewrite <- Permutation_middle.
    + intros id k' [? ?]%lookup_delete_Some. by left.
Qed.

Lemma NewSessionWithDeps_ok o t s : NewSessionWithDeps cfg o new_device new_device t = Ok s -> t = NewLibp2pTransport ->
  ∃ r, se_run s = Some r ∧ run_ok r ∧ rn_cancelled r = false ∧ rn_transport r = NewLibp2pTransport.
Proof.
  unfold NewSessionWithDeps, NewPipeline. cbn. intros Hs ->.
  destruct (map_err ErrEncoder _) as [enc|e]; cbn in Hs; [|done].
  destruct (map_err ErrDecoder _) as [dec|e]; cbn in Hs; [|done].
  injection Hs as <-. eexists. split; [done|]. split; [|done]. split; [|done|by left].
  exists 0. split; [cbn; lia|]. by rewrite drop_0.
Qed.

Lemma audio_NewSession_ok o c s : (NewSession init cfg o c).2 = Ok s ->
  ∃ r, se_run s = Some r ∧ run_ok r ∧ rn_cancelled r = false ∧ rn_transport r = NewLibp2pTransport.
Proof.
  unfold NewSession, NewMalgoCapturer, NewMalgoPlayer.
  destruct (decide _); [done|]. destruct (sharedMalgoCtx init c) as [c1 []]; [|done].
  destruct (decide _); [done|]. destruct (sharedMalgoCtx init c1) as [c2 []]; [|done].
  destruct (oc_transport o); [|done]. intros Hs. by eapply NewSessionWithDeps_ok.
Qed.

Lemma do_new_minv o m : minv m -> minv (do_new true init cfg o m).
Proof.
  intros Hm. unfold do_new. destruct (mg_loop m) as [| |ev| | |] eqn:Hl; try done.
  destruct (NewSession init cfg o (mg_malgo m)) as [malgo [s|e]] eqn:Hn; cycle 1.
  { apply handled_minv. same m. unfold owned. cbn. by rewrite Hl. }
  destruct (audio_NewSession_ok o (mg_malgo m) s) as (r & Hr & Hok & Hfc & Hft); [by rewrite Hn|].
  set (n := length (mg_heap m)). set (m2 := set_loop _ _).
  assert (owned m2 = n :: owned m) as Ho by (unfold owned; cbn; by rewrite Hl).
  assert (∀ k r0, running_at m2 k r0 -> (k = n ∧ r0 = r) ∨ running_at m k r0) as Hat.
  { intros k r0 (s0 & Hs0 & Hr0). cbn in Hs0. apply lookup_app_Some in Hs0 as [Hs0|[Hge Hs0]]; [right; by exists s0|].
    apply list_lookup_singleton_Some in Hs0 as [Hk ->]. left. split; [unfold n; lia|]. congruence. }
  assert (∀ k, fresh m k -> fresh m2 k) as Hfresh by (intros k Hf r0 [[_ ->]|Hr0]%Hat; [done|by apply Hf]).
  split.
  - rewrite Ho. apply NoDup_cons. split; [|apply (mi_owned _ Hm)]. intros Hin%(mi_range _ Hm). unfold n in Hin. lia.
  - intros k. rewrite Ho. cbn. rewrite length_app. cbn. intros [->|Hk%(mi_range _ Hm)]%elem_of_cons; unfold n; lia.
  - intros k s0 Hs0. cbn in Hs0. apply lookup_app_Some in Hs0 as [Hs0|[Hge Hs0]].
    + destruct (mi_sess _ Hm _ _ Hs0) as (r0 & ? & ? & Hor). exists r0. split; [done|]. split; [done|].
      rewrite Ho. destruct Hor; [left; by right|by right].
    + apply list_lookup_singleton_Some in Hs0 as [Hk ->]. exists r. split; [done|]. split; [done|]. left. rewrite Ho.
      apply elem_of_cons. left. unfold n. lia.
  - pose proof (mi_key _ Hm) as Hkey. unfold key_ok in *. cbn. by rewrite Hl in Hkey.
  - intros id k Hid. eapply Hfresh, (mi_map _ Hm), Hid.
  - intros id k [= <- <-] r0 [[_ ->]|(s0 & Hs0 & _)]%Hat; [done|]. apply lookup_lt_Some in Hs0. unfold n in Hs0. lia.
  - intros k pc r0 [Hc|(i & ks & Hi)] Hr0; [done|]. assert (closing m k pc) as Hc by (right; by exists i, ks).
    destruct (Hat _ _ Hr0) as [[-> _]|Hr0']; [|by eapply (mi_pc _ Hm)].
    apply closing_owned, (mi_range _ Hm) in Hc. unfold n in Hc. lia.
  - intros k u Hu%(mi_uses _ Hm). cbn. rewrite length_app. lia.
Qed.

Lemma do_insert_minv m : minv m -> minv (do_insert m).
Proof.
  intros Hm. unfold do_insert. destruct (mg_loop m) as [| | |id k| |] eqn:Hl; try done.
  pose proof (mi_key _ Hm) as Hkey. unfold key_ok in Hkey. rewrite Hl in Hkey.
  apply handled_minv. same m.
  - unfold owned. cbn. rewrite Hl, map_to_list_insert by done. cbn. by rewrite <- Permutation_middle.
  - intros id' k'. rewrite lookup_insert_Some. naive_solver.
Qed.

Lemma closing_of_loop m k pc : mg_loop m = LClosing k pc -> closing m k pc.
Proof. by left. Qed.

Lemma close_at_heap_other pc k m :
  mg_loop (close_at_heap pc k m).1 = mg_loop m ∧ mg_stops (close_at_heap pc k m).1 = mg_stops m ∧
  mg_sessions (close_at_heap pc k m).1 = mg_sessions m ∧ mg_uses (close_at_heap pc k m).1 = mg_uses m.
Proof. unfold close_at_heap. destruct (mg_heap m !! k); [|done]. by destruct (close_step pc s). Qed.

Lemma do_close_minv m : minv m -> minv (do_close m).
Proof.
  intros Hm. unfold do_close. destruct (mg_loop m) as [| | | |k pc|] eqn:Hl; try done.
  destruct (close_at_heap_other pc k m) as (H1 & H2 & H3 & H4).
  destruct (close_at_heap pc k m) as [m1 pc'] eqn:Hca. cbn in H1, H2, H3, H4.
  apply (minv_close m k pc); [done|by left|by rewrite Hca|done|done| | |].
  - unfold key_ok. by destruct pc'.
  - intros id k'. by destruct pc'.
  - rewrite Hca. cbn [snd]. split.
    + unfold owned. cbn. rewrite H2, H3, Hl. destruct pc'; cbn; [right..|left]; by split.
    + intros k' pc'' [Hc|(i & ks & Hi)]; cbn in *; [|left; right; exists i, ks; by rewrite <- H2].
      right. right. destruct pc'; naive_solver.
Qed.

Lemma do_stop_close_minv i m : minv m -> minv (do_stop_close i m).
Proof.
  intros Hm. unfold do_stop_close. destruct (mg_stops m !! i) as [[pc [|k ks]]|] eqn:Hi; try done.
  destruct (close_at_heap_other pc k m) as (H1 & H2 & H3 & H4).
  destruct (close_at_heap pc k m) as [m1 pc'] eqn:Hca. cbn in H1, H2, H3, H4.
  set (x := match pc' with PcReturned => _ | _ => _ end).
  apply (minv_close m k pc); [done|right; by exists i, ks|by rewrite Hca|done|done| | |].
  - pose proof (mi_key _ Hm) as Hkey. unfold key_ok in *. cbn. by rewrite H1, H3.
  - intros id k'. cbn. by rewrite H1.
  - rewrite Hca. cbn [snd]. split.
    + assert ((snd <$> mg_stops m) !! i = Some (k :: ks)) as Hsnd by (by rewrite list_lookup_fmap, Hi).
      unfold owned. cbn. rewrite H1, H2, H3, list_fmap_insert. subst x.
      destruct pc'; cbn; [right; split; [done|]; by rewrite list_insert_id by exact Hsnd..|left; split; [done|]].
      rewrite (mjoin_insert_pop _ _ _ _ Hsnd). cbn. symmetry. apply Permutation_middle.
    + intros k' pc'' [Hc|(j & ks' & Hj)]; cbn in *; [left; left; by rewrite <- H1|]. rewrite H2 in Hj.
      destruct (decide (i = j)) as [<-|Hne].
      * rewrite list_lookup_insert_eq in Hj by (by eapply lookup_lt_Some). subst x.
        destruct pc'; injection Hj as <- Hj; try (injection Hj as <- <-); naive_solver.
      * rewrite list_lookup_insert_ne in Hj by done. left. right. by exists j, ks'.
Qed.

Lemma do_stop_minv order m : minv m -> minv (do_stop order m).
Proof.
  intros Hm. unfold do_stop. set (ks := (map_to_list (mg_sessions m)).*2).
  assert ((if decide (order ≡ₚ ks) then order else ks) ≡ₚ ks) as Hks by (by destruct (decide _)).
  revert Hks. generalize (if decide (order ≡ₚ ks) then order else ks). intros l Hl.
  pose proof (mi_key _ Hm) as Hkey. same m.
  - unfold owned. cbn. rewrite map_to_list_empty, fmap_app, join_app. cbn. by rewrite !app_nil_r, Hl.
  - unfold key_ok in *. cbn. destruct (mg_loop m); try done; by rewrite lookup_empty.
  - intros k pc [Hc|(i & ks' & Hi)]; cbn in *; [left; by left|].
    apply lookup_app_Some in Hi as [Hi|[_ Hi]]; [left; right; by exists i, ks'|].
    apply list_lookup_singleton_Some in Hi as [_ [= <- _]]. by right.
Qed.

Lemma do_lookup_minv id u m : minv m -> minv (do_lookup id u m).1.
Proof.
  intros Hm. unfold do_lookup. destruct (mg_sessions m !! id) as [k|] eqn:Hk; [|done]. cbn.
  destruct Hm as [? Hrg ? ? ? ? ? Hus]. split; try done. cbn. intros k' u' [Hu|Hu]%elem_of_app; [by eapply Hus|].
  apply list_elem_of_singleton in Hu. injection Hu as -> ->. apply Hrg. unfold owned.
  rewrite !elem_of_app. right. right. by eapply mapped_owned.
Qed.

Lemma delete_uses_minv i m : minv m -> minv (set_uses (delete i (mg_uses m)) m).
Proof.
  intros [? ? ? ? ? ? ? Hus]. split; try done. cbn. intros k u Hu. eapply Hus.
  apply list_elem_of_lookup in Hu as [j Hj]. destruct (decide (j < i)).
  - rewrite list_lookup_delete_lt in Hj by done. by eapply list_elem_of_lookup_2.
  - rewrite list_lookup_delete_ge in Hj by lia. by eapply list_elem_of_lookup_2.
Qed.

Lemma do_use_minv i m : minv m -> ∃ m', do_use i m = Some m' ∧ minv m'.
Proof.
  intros Hm. unfold do_use. destruct (mg_uses m !! i) as [[k u]|] eqn:Hu; [|by exists m].
  assert (k < length (mg_heap m)) as Hlt by (eapply (mi_uses _ Hm); by eapply list_elem_of_lookup_2).
  apply lookup_lt_is_Some_2 in Hlt as [s Hs]. destruct (mi_sess _ Hm _ _ Hs) as (r & Hr & Hok & _).
  destruct (use_session_benign u s r Hr Hok) as (s' & r' & Hs' & Hr' & Hb).
  rewrite Hs. cbn. rewrite Hs'. cbn. eexists. split; [done|].
  apply (delete_uses_minv i (set_heap _ m)). by eapply minv_benign.
Qed.

Lemma on_heap_minv k f m :
  minv m -> (∀ s r, se_run s = Some r -> run_ok r -> ∃ r', se_run (f s) = Some r' ∧ benign r r') ->
  minv (on_heap k f m).
Proof.
  intros Hm Hf. unfold on_heap. destruct (mg_heap m !! k) as [s|] eqn:Hs.
  - destruct (mi_sess _ Hm _ _ Hs) as (r & Hr & Hok & _). destruct (Hf s r Hr Hok) as (r' & Hr' & Hb).
    rewrite (alter_as_insert _ _ _ _ Hs). by eapply minv_benign.
  - rewrite alter_missing by done. by destruct m.
Qed.

Lemma on_run_benign f s r : (∀ r, run_ok r -> benign r (f r)) -> se_run s = Some r -> run_ok r ->
  ∃ r', se_run (on_run f s) = Some r' ∧ benign r r'.
Proof. intros Hf Hr Hok. exists (f r). split; [|by apply Hf]. cbn. by rewrite Hr. Qed.

Lemma mgr_do_minv o m : minv m -> ∃ m', mgr_do true init cfg o m = Some m' ∧ minv m'.
Proof.
  intros Hm. destruct o; simpl; try (eexists; split; [done|]).
  - by apply do_start_minv.
  - by apply set_ctx_minv.
  - unfold do_exit. destruct (mg_loop m) eqn:Hl; try done. destruct (mg_ctx m); [|done]. by apply do_exit_minv.
  - destruct (mg_loop m) eqn:Hl; try done. by apply do_exit_minv.
  - by apply do_event_minv.
  - by apply do_new_minv.
  - by apply do_insert_minv.
  - by apply do_close_minv.
  - by apply do_stop_minv.
  - by apply do_stop_close_minv.
  - by apply do_lookup_minv.
  - by apply do_use_minv.
  - apply on_heap_minv; [done|]. intros s r. apply on_run_benign. apply pipe_step_benign.
  - apply on_heap_minv; [done|]. intros s r. apply ticker_tick_benign.
  - apply on_heap_minv; [done|]. intros s r. apply on_run_benign. apply ticker_end_benign.
Qed.

Lemma mgr_run_minv os : ∀ m, minv m -> ∃ m', mgr_run true init cfg os m = Some m' ∧ minv m'.
Proof.
  induction os as [|o os IH]; intros m Hm; [by exists m|]. cbn [mgr_run].
  destruct (mgr_do_minv o m Hm) as (m1 & -> & Hm1). by apply IH.
Qed.
End manager_lemmas.

(** ** Closing terminates *)

Section closing.
Context `{Opus} (init : bool) (cfg : ManagerConfig).

(** A [Close] in progress: the loop's, or that of the [i]-th [Stop]. *)
Definition slot_op (x : option nat) : mop := match x with None => MClose | Some i => MStopClose i end.

Definition at_slot (x : option nat) m k pc ks : Prop :=
  match x with
  | None => mg_loop m = LClosing k pc
  | Some i => mg_stops m !! i = Some (pc, k :: ks)
  end.

Definition slot_done (x : option nat) m ks : Prop :=
  match x with
  | None => mg_loop m = LSelect
  | Some i => mg_stops m !! i = Some (PcCancel, ks)
  end.

(** The steps of the manager's and the sessions' own goroutines that need nobody else. *)
Definition own_op (o : mop) : Prop :=
  match o with MClose | MStopClose _ | MPipe _ => True | _ => False end.

Definition session_closed m k : Prop := ∃ r, running_at m k r ∧ closed r.

Lemma at_slot_closing x m k pc ks : at_slot x m k pc ks -> closing m k pc.
Proof. destruct x as [i|]; [right; by exists i, ks|by left]. Qed.

Lemma slot_step x m k pc ks : minv m -> at_slot x m k pc ks ->
  ∃ m' s, mg_heap m !! k = Some s ∧ mgr_do true init cfg (slot_op x) m = Some m' ∧ minv m' ∧
    mg_heap m' = <[k := (close_step pc s).1]> (mg_heap m) ∧
    match (close_step pc s).2 with
    | PcReturned => slot_done x m' ks ∧ owned m ≡ₚ k :: owned m'
    | pc' => at_slot x m' k pc' ks ∧ owned m ≡ₚ owned m'
    end.
Proof.
  intros Hm Hx. pose proof (at_slot_closing _ _ _ _ _ Hx) as Hc.
  destruct (close_at_heap_ok m k pc Hm Hc) as (s & r & r' & Hs & _ & _ & Hca & _).
  destruct (mgr_do_minv init cfg (slot_op x) m Hm) as (m' & Hdo & Hm'). exists m', s.
  split; [done|]. split; [done|]. split; [done|]. destruct x as [i|]; cbn in Hx, Hdo; injection Hdo as <-.
  - unfold do_stop_close in *. rewrite Hx in *. rewrite Hca in *. cbn [mg_stops set_heap] in *.
    assert (i < length (mg_stops m)) as Hlt by by eapply lookup_lt_Some.
    assert ((snd <$> mg_stops m) !! i = Some (k :: ks)) as Hsnd by (by rewrite list_lookup_fmap, Hx).
    split; [done|]. unfold at_slot, slot_done, owned. cbn [mg_stops set_stops set_heap mg_loop mg_sessions].
    rewrite list_fmap_insert.
    destruct (close_step pc s) as [s' []]; cbn [snd]; (split; [by rewrite list_lookup_insert_eq|]);
      [by rewrite list_insert_id by exact Hsnd..|].
    rewrite (mjoin_insert_pop _ _ _ _ Hsnd). cbn. symmetry. apply Permutation_middle.
  - unfold do_close in *. rewrite Hx in *. rewrite Hca in *. split; [done|].
    unfold at_slot, slot_done, owned. rewrite Hx. by destruct (close_step pc s) as [s' []].
Qed.

Lemma mgr_run_app os1 os2 m :
  mgr_run true init cfg (os1 ++ os2) m = mgr_run true init cfg os1 m ≫= mgr_run true init cfg os2.
Proof.
  revert m. induction os1 as [|o os1 IH]; intros m; [done|]. cbn. destruct (mgr_do true init cfg o m); [apply IH|done].
Qed.

(** A cancelled session's goroutine runs to its end. *)
Lemma drain n : ∀ m k r, minv m -> running_at m k r -> rn_cancelled r = true -> length (rn_todo r) <= n ->
  ∃ m' r', mgr_run true init cfg (replicate (S n) (MPipe k)) m = Some m' ∧ minv m' ∧
    running_at m' k r' ∧ rn_done r' = true ∧ mg_loop m' = mg_loop m ∧ mg_stops m' = mg_stops m ∧
    owned m' = owned m.
Proof.
  induction n as [|n IH]; intros m k r Hm Hr Hc Hlen;
    destruct (mgr_do_minv init cfg (MPipe k) m Hm) as (m1 & Hdo & Hm1);
    cbn [replicate mgr_run]; rewrite Hdo; cbn; injection Hdo as <-.
  all: assert (running_at (on_heap k (on_run (pipe_step (mg_ctx m))) m) k (pipe_step (mg_ctx m) r)) as Hr1
    by (destruct Hr as (s & Hs & Hr); exists (on_run (pipe_step (mg_ctx m)) s); cbn;
        by rewrite list_lookup_alter_eq, Hs, Hr).
  - destruct (rn_todo r) as [|a todo] eqn:Ht; [|simpl in Hlen; lia].
    eexists _, _. split; [done|]. split; [done|]. split; [exact Hr1|]. split; [|done].
    unfold pipe_step. by rewrite Ht.
  - destruct (IH _ k _ Hm1 Hr1) as (m' & r' & Hrun & Hm' & Hr' & Hd & Hl & Hs & Ho).
    + unfold pipe_step. destruct (rn_todo r); [done|]. by destruct (_ && _).
    + unfold pipe_step. destruct (rn_todo r) as [|a todo] eqn:Ht; [cbn; rewrite Ht; simpl; lia|].
      rewrite Hc, andb_false_r. simpl in *. lia.
    + exists m', r'. by split_and!.
Qed.

Definition reaches m (os : list mop) m' : Prop :=
  Forall own_op os ∧ mgr_run true init cfg os m = Some m' ∧ minv m'.

Lemma reaches_app m os1 m1 os2 m2 : reaches m os1 m1 -> reaches m1 os2 m2 -> reaches m (os1 ++ os2) m2.
Proof.
  intros (H1 & H2 & _) (H4 & H5 & H6). split; [by apply Forall_app_2|]. split; [|done]. by rewrite mgr_run_app, H2.
Qed.

Lemma reaches_one m o m' : own_op o -> mgr_do true init cfg o m = Some m' -> minv m' -> reaches m [o] m'.
Proof. intros Ho Hd Hm. split; [by repeat constructor|]. split; [cbn; by rewrite Hd|done]. Qed.

Lemma slot_op_own x : own_op (slot_op x).
Proof. by destruct x. Qed.

(** From the wait on, and from the start, a [Close] finishes. *)
Lemma close_from_transport x m k ks : minv m -> at_slot x m k PcTransport ks ->
  ∃ os m', reaches m os m' ∧ slot_done x m' ks ∧ owned m ≡ₚ k :: owned m'.
Proof.
  intros Hm Hx. destruct (slot_step x m k _ ks Hm Hx) as (m1 & s & Hs & Hdo & Hm1 & Hh & Hcase).
  exists [slot_op x], m1. split; [apply reaches_one; [apply slot_op_own|done|done]|].
  destruct (mi_sess _ Hm _ _ Hs) as (r & Hr & _). unfold close_step in Hcase. by rewrite Hr in Hcase.
Qed.

Lemma close_from_wait x m k ks : minv m -> at_slot x m k PcWait ks ->
  ∃ os m', reaches m os m' ∧ slot_done x m' ks ∧ owned m ≡ₚ k :: owned m'.
Proof.
  intros Hm Hx. assert (closing m k PcWait) as Hc by (by eapply at_slot_closing).
  destruct (close_at_heap_ok m k _ Hm Hc) as (s & r & _ & Hs & Hr & _).
  assert (running_at m k r) as Hrun by (by exists s).
  assert (rn_cancelled r = true) as Hcan by (by apply (mi_pc _ Hm k PcWait r)).
  destruct (drain _ m k r Hm Hrun Hcan (le_n _)) as (m1 & r1 & Hr1 & Hm1 & Hrun1 & Hd1 & Hl1 & Hs1 & Ho1).
  assert (at_slot x m1 k PcWait ks) as Hx1 by (destruct x; cbn in *; congruence).
  destruct (slot_step x m1 k _ ks Hm1 Hx1) as (m2 & s2 & Hs2 & Hdo2 & Hm2 & Hh2 & Hcase).
  assert (se_run s2 = Some r1) as Hr2 by (destruct Hrun1 as (s' & ? & ?); congruence).
  unfold close_step in Hcase. rewrite Hr2, Hd1 in Hcase. destruct Hcase as [Hx2 Ho2].
  destruct (close_from_transport x m2 k ks Hm2 Hx2) as (os & m3 & Hre & Hdone & Ho3).
  exists ((replicate (S (length (rn_todo r))) (MPipe k) ++ [slot_op x]) ++ os), m3. split; [|split; [done|]].
  - eapply reaches_app; [|done]. eapply reaches_app.
    + split; [by apply Forall_replicate|by split].
    + apply reaches_one; [apply slot_op_own|done|done].
  - by rewrite <- Ho1, Ho2.
Qed.

Lemma close_one x m k pc ks : minv m -> at_slot x m k pc ks ->
  ∃ os m', reaches m os m' ∧ slot_done x m' ks ∧ owned m ≡ₚ k :: owned m'.
Proof.
  intros Hm Hx. assert (closing m k pc) as Hc by (by eapply at_slot_closing).
  destruct (close_at_heap_ok m k _ Hm Hc) as (s & r & _ & Hs & Hr & _).
  assert (pc_ok pc r) as Hpc by (eapply (mi_pc _ Hm); [done|by exists s]).
  destruct pc; [|by apply close_from_wait|by apply close_from_transport|done].
  destruct (slot_step x m k _ ks Hm Hx) as (m1 & s1 & Hs1 & Hdo & Hm1 & Hh & Hcase).
  assert (s1 = s) as -> by congruence. unfold close_step in Hcase. rewrite Hr in Hcase.
  destruct Hcase as [Hx1 Ho1]. destruct (close_from_wait x m1 k ks Hm1 Hx1) as (os & m2 & Hre & Hdone & Ho2).
  exists ([slot_op x] ++ os), m2. split; [|split; [done|by rewrite Ho1]].
  eapply reaches_app; [|done]. apply reaches_one; [apply slot_op_own|done|done].
Qed.

Lemma stop_all i ks : ∀ m pc, minv m -> mg_stops m !! i = Some (pc, ks) ->
  ∃ os m' pc', reaches m os m' ∧ mg_stops m' !! i = Some (pc', []) ∧ owned m ≡ₚ ks ++ owned m'.
Proof.
  induction ks as [|k ks IH]; intros m pc Hm Hi.
  { exists [], m, pc. split; [|done]. split; [constructor|done]. }
  destruct (close_one (Some i) m k pc ks Hm Hi) as (os1 & m1 & H1 & Hd1 & Ho1).
  destruct (IH m1 PcCancel) as (os2 & m2 & pc2 & H2 & Hd2 & Ho2); [apply H1|done|].
  exists (os1 ++ os2), m2, pc2. split; [by eapply reaches_app|]. split; [done|]. by rewrite Ho1, Ho2.
Qed.

(** A session nobody owns any more is closed. *)
Lemma released_closed m m' ks os : minv m -> reaches m os m' -> owned m ≡ₚ ks ++ owned m' ->
  length (mg_heap m) <= length (mg_heap m') -> ∀ k, k ∈ ks -> session_closed m' k.
Proof.
  intros Hm (_ & _ & Hm') Ho Hlen k Hk.
  assert (k < length (mg_heap m)) as Hlt by (apply (mi_range _ Hm); rewrite Ho; apply elem_of_app; by left).
  destruct (lookup_lt_is_Some_2 (mg_heap m') k ltac:(lia)) as [s Hs].
  destruct (mi_sess _ Hm' _ _ Hs) as (r & Hr & _ & [Hin|Hcl]); [|exists r; split; [by exists s|done]].
  pose proof (mi_owned _ Hm) as Hnd. rewrite Ho in Hnd. apply NoDup_app in Hnd as (_ & Hd & _).
  by destruct (Hd k Hk).
Qed.

Lemma own_op_heap o m m' : own_op o -> mgr_do true init cfg o m = Some m' -> length (mg_heap m') = length (mg_heap m).
Proof.
  assert (∀ pc k, length (mg_heap (close_at_heap pc k m).1) = length (mg_heap m)) as Hc.
  { intros pc k. unfold close_at_heap. destruct (mg_heap m !! k); [|done].
    destruct (close_step pc s). cbn. by rewrite length_insert. }
  intros Ho Hd. destruct o; try done; cbn in Hd; injection Hd as <-.
  - unfold do_close. destruct (mg_loop m); try done. rewrite <- (Hc pc k). by destruct (close_at_heap pc k m).
  - unfold do_stop_close. destruct (mg_stops m !! i) as [[pc [|k ks]]|]; try done.
    rewrite <- (Hc pc k). by destruct (close_at_heap pc k m).
  - cbn. by rewrite length_alter.
Qed.

Lemma reaches_heap os : ∀ m m', reaches m os m' -> length (mg_heap m') = length (mg_heap m).
Proof.
  induction os as [|o os IH]; intros m m' (Ho & Hr & Hm'); [by injection Hr as ->|].
  apply Forall_cons in Ho as [Ho Hos]. cbn in Hr. destruct (mgr_do true init cfg o m) as [m1|] eqn:Hd; [|done].
  rewrite <- (own_op_heap _ _ _ Ho Hd). by apply IH.
Qed.
End closing.

(** ** The map follows the events *)

Section tracking.
Context `{Opus} (has_host init : bool) (cfg : ManagerConfig).

(** Whether call [id] should have audio after the handled events. *)
Definition live_step (id : string) (b : bool) (h : Handled) : bool :=
  match h with
  | HConnected id' started => if decide (id' = id) then b || started else b
  | HEnded id' => if decide (id' = id) then false else b
  end.

Definition live (id : string) (log : list Handled) : bool := foldl (live_step id) false log.
#[local] Arguments live : simpl never.

Definition tracks m : Prop := ∀ id, is_Some (mg_sessions m !! id) <-> live id (mg_log m) = true.

Definition is_stop (o : mop) : Prop := match o with MStop _ => True | _ => False end.

Lemma live_app id log h : live id (log ++ [h]) = live_step id (live id log) h.
Proof. unfold live. by rewrite foldl_app. Qed.

Lemma tracks_same m m' : tracks m -> mg_sessions m' = mg_sessions m -> mg_log m' = mg_log m -> tracks m'.
Proof. intros Ht Hs Hl id. by rewrite Hs, Hl. Qed.

Lemma tracks_failed m m' id : tracks m -> mg_sessions m' = mg_sessions m ->
  mg_log m' = mg_log m ++ [HConnected id false] -> tracks m'.
Proof.
  intros Ht Hs Hl id'. rewrite Hs, Hl, live_app. cbn. rewrite orb_false_r. destruct (decide _); apply Ht.
Qed.

Lemma tracks_event ev m : tracks m -> tracks (do_event ev m).
Proof.
  intros Ht. unfold do_event. destruct (mg_loop m); try done.
  destruct (decide (ev_State ev = "connected")); [|destruct (decide (ev_State ev = "ended")); [|done]].
  - unfold startSession_check. destruct (mg_sessions m !! SessionID ev); [|by apply (tracks_same m)].
    by apply (tracks_failed m _ (SessionID ev)).
  - intros id. cbn. rewrite live_app. cbn. unfold stopSession_take.
    destruct (decide (SessionID ev = id)) as [<-|Hne].
    + destruct (mg_sessions m !! SessionID ev) eqn:Hs; cbn; rewrite ?lookup_delete_eq, ?Hs; (split; [by intros [? [=]]|done]).
    + destruct (mg_sessions m !! SessionID ev); cbn; [rewrite lookup_delete_ne by done|]; apply Ht.
Qed.

Lemma tracks_insert m : tracks m -> tracks (do_insert m).
Proof.
  intros Ht. unfold do_insert. destruct (mg_loop m); try done. intros id'. cbn. rewrite live_app. cbn.
  destruct (decide (id = id')) as [<-|Hne].
  - rewrite lookup_insert_eq, orb_true_r. by split.
  - rewrite lookup_insert_ne by done. apply Ht.
Qed.

Lemma tracks_do o m m' : ¬ is_stop o -> mgr_do has_host init cfg o m = Some m' -> tracks m -> tracks m'.
Proof.
  intros Hns Hd Ht. destruct o; simpl in *; try done; try injection Hd as <-;
    try (by apply (tracks_same m)).
  - unfold do_start. destruct (mg_loop m); try done; by apply (tracks_same m).
  - unfold do_exit. destruct (mg_loop m), (mg_ctx m); try done; by apply (tracks_same m).
  - destruct (mg_loop m); try done; by apply (tracks_same m).
  - by apply tracks_event.
  - unfold do_new. destruct (mg_loop m) as [| |ev| | |]; try done.
    destruct has_host; [|by apply (tracks_same m)].
    destruct (NewSession init cfg o (mg_malgo m)) as [malgo [s|e]]; [by apply (tracks_same m)|].
    by apply (tracks_failed m _ (SessionID ev)).
  - by apply tracks_insert.
  - unfold do_close. destruct (mg_loop m) as [| | | |k pc|] eqn:Hl; try done. unfold close_at_heap.
    destruct (mg_heap m !! k); [destruct (close_step pc s)|]; by apply (tracks_same m).
  - unfold do_stop_close. destruct (mg_stops m !! i) as [[pc [|k ks]]|]; try done. unfold close_at_heap.
    destruct (mg_heap m !! k); [destruct (close_step pc s)|]; by apply (tracks_same m).
  - unfold do_lookup. destruct (mg_sessions m !! id); by apply (tracks_same m).
  - unfold do_use in Hd. destruct (mg_uses m !! i) as [[k u]|]; [|by simplify_eq].
    apply bind_Some in Hd as (s & _ & (s' & _ & [= <-])%bind_Some). by apply (tracks_same m).
Qed.

Lemma tracks_run os : ∀ m m', Forall (fun o => ¬ is_stop o) os -> mgr_run has_host init cfg os m = Some m' ->
  tracks m -> tracks m'.
Proof.
  induction os as [|o os IH]; intros m m' Hns Hr Ht; [by injection Hr as ->|].
  apply Forall_cons in Hns as [Ho Hos]. cbn in Hr. destruct (mgr_do has_host init cfg o m) as [m1|] eqn:Hd; [|done].
  eapply IH; [done|done|]. by eapply tracks_do.
Qed.

(** A running loop has registered its cancel function. *)
Definition registered m : Prop := mg_loop m = LOff ∨ mg_cancel m = true.

Lemma registered_do o m m' : mgr_do has_host init cfg o m = Some m' -> registered m -> registered m'.
Proof.
  unfold registered. intros Hd [Hl|Hc]; destruct o; simpl in Hd; try (injection Hd as <-);
    unfold do_start, do_exit, do_event, startSession_check, stopSession_take, do_new, do_insert, do_close,
      do_stop_close, do_lookup, do_use, close_at_heap, mbind, option_bind in *;
    try (rewrite Hl in *); repeat case_match; simplify_eq; cbn; auto.
Qed.

Lemma registered_run os : ∀ m m', mgr_run has_host init cfg os m = Some m' -> registered m -> registered m'.
Proof.
  induction os as [|o os IH]; intros m m' Hr Hm; [by injection Hr as ->|]. cbn in Hr.
  destruct (mgr_do has_host init cfg o m) as [m1|] eqn:Hd; [|done]. eapply IH; [done|]. by eapply registered_do.
Qed.

(** With the loop gone and no other [Stop], the map is never touched again. *)
Lemma map_frozen o m m' : ¬ is_stop o -> mg_loop m = LReturned -> mgr_do has_host init cfg o m = Some m' ->
  mg_loop m' = LReturned ∧ mg_sessions m' = mg_sessions m.
Proof.
  intros Hns Hl Hd. destruct o; simpl in *; try done; try injection Hd as <-; rewrite ?Hl; try done.
  - unfold do_start. by rewrite Hl.
  - unfold do_exit. by rewrite Hl.
  - unfold do_event. by rewrite Hl.
  - unfold do_new. by rewrite Hl.
  - unfold do_insert. by rewrite Hl.
  - unfold do_close. by rewrite Hl.
  - unfold do_stop_close. destruct (mg_stops m !! i) as [[pc [|k ks]]|]; try done. unfold close_at_heap.
    destruct (mg_heap m !! k); [by destruct (close_step pc s)|done].
  - unfold do_lookup. by destruct (mg_sessions m !! id).
  - unfold do_use in Hd. destruct (mg_uses m !! i) as [[k u]|]; [|by simplify_eq].
    by apply bind_Some in Hd as (s & _ & (s' & _ & [= <-])%bind_Some).
Qed.

Lemma map_frozen_run os : ∀ m m', Forall (fun o => ¬ is_stop o) os -> mg_loop m = LReturned ->
  mgr_run has_host init cfg os m = Some m' -> mg_sessions m' = mg_sessions m.
Proof.
  induction os as [|o os IH]; intros m m' Hns Hl Hr; [by injection Hr as ->|].
  apply Forall_cons in Hns as [Ho Hos]. cbn in Hr. destruct (mgr_do has_host init cfg o m) as [m1|] eqn:Hd; [|done].
  destruct (map_frozen _ _ _ Ho Hl Hd) as [Hl1 <-]. by apply IH.
Qed.
End tracking.

(** ** Properties *)

Section properties.
Context `{Opus} (init : bool) (cfg : ManagerConfig).


(** C12: no [Close] ever hangs: from every reachable state the manager's own
    steps and those of the session's pipeline goroutine bring the loop's close
    to its end with the session closed, and every [Stop] to its return with all
    the sessions it took closed. *)
Theorem audio_close_completes os m :
  mgr_run true init cfg os NewManager = Some m ->
  (∀ k pc, mg_loop m = LClosing k pc -> ∃ os' m', Forall own_op os' ∧
     mgr_run true init cfg os' m = Some m' ∧ mg_loop m' = LSelect ∧ session_closed m' k) ∧
  (∀ i pc ks, mg_stops m !! i = Some (pc, ks) -> ∃ os' m' pc', Forall own_op os' ∧
     mgr_run true init cfg os' m = Some m' ∧ mg_stops m' !! i = Some (pc', []) ∧
     ∀ k, k ∈ ks -> session_closed m' k).
Proof.
  intros Hr. destruct (mgr_run_minv init cfg os NewManager init_minv) as (m0 & Hr0 & Hm).
  assert (m0 = m) as -> by congruence. split.
  - intros k pc Hl. destruct (close_one init cfg None m k pc [] Hm Hl) as (os' & m' & Hre & Hdone & Ho).
    exists os', m'. split; [apply Hre|]. split; [apply Hre|]. split; [done|].
    apply (released_closed init cfg m m' [k] os'); [done|done|done| |by left].
    by rewrite (reaches_heap init cfg _ _ _ Hre).
  - intros i pc ks Hi. destruct (stop_all init cfg i ks m pc Hm Hi) as (os' & m' & pc' & Hre & Hdone & Ho).
    exists os', m', pc'. split; [apply Hre|]. split; [apply Hre|]. split; [done|].
    apply (released_closed init cfg m m' ks os'); [done|done|done|].
    by rewrite (reaches_heap init cfg _ _ _ Hre).
Qed.

(** Until [Stop] is called, and with a host or without, a call has an audio
    session in the map exactly when, of the events the loop has handled, one
    told that it connected and its session could be started, and none since
    that it ended. *)
Theorem audio_sessions_track has_host os m id :
  Forall (fun o => ¬ is_stop o) os -> mgr_run has_host init cfg os NewManager = Some m ->
  is_Some (mg_sessions m !! id) <-> live id (mg_log m) = true.
Proof.
  intros Hns Hr. eapply (tracks_run has_host init cfg os NewManager m Hns Hr).
  intros id'. cbn. rewrite lookup_empty. split; [by intros []|done].
Qed.

(** C0: a [Stop] while the loop is between making a session and inserting it
    misses that session: it is inserted into the new map when the loop goes on,
    and once the loop has returned nothing but a second [Stop] ever closes its
    transport. *)
Theorem Stop_misses_session os m id k order os' m' :
  mgr_run true init cfg os NewManager = Some m -> mg_loop m = LInsert id k ->
  Forall (fun o => ¬ is_stop o) os' ->
  mgr_run true init cfg ([MStop order; MInsert; MExit] ++ os') m = Some m' ->
  mg_sessions m' = {[id := k]} ∧ fresh m' k ∧ ¬ session_closed m' k.
Proof.
  intros Hr Hl Hns Hr'. destruct (mgr_run_minv init cfg os NewManager init_minv) as (m0 & Hr0 & Hm).
  assert (m0 = m) as -> by congruence.
  destruct (mgr_run_minv init cfg ([MStop order; MInsert; MExit] ++ os') m Hm) as (m1 & Hr1 & Hm').
  rewrite Hr' in Hr1. injection Hr1 as <-.
  assert (mg_cancel m = true) as Hc.
  { destruct (registered_run true init cfg os _ m Hr) as [Hoff|Hc]; [by left|congruence|done]. }
  rewrite mgr_run_app in Hr'. cbn [mgr_run mgr_do mbind option_bind] in Hr'.
  unfold do_stop, do_insert, do_exit in Hr'. cbn in Hr'. rewrite Hl in Hr'. cbn in Hr'.
  rewrite Hc, orb_true_r in Hr'.
  assert (mg_sessions m' = {[id := k]}) as Hs.
  { apply map_frozen_run in Hr'; [|done|done]. by rewrite Hr'. }
  split; [done|]. assert (fresh m' k) as Hf by (apply (mi_map _ Hm' id); rewrite Hs; apply lookup_singleton_eq).
  split; [done|]. intros (r & Hrun & _ & Ht). destruct (Hf r Hrun) as [_ Ht']. rewrite Ht' in Ht. discriminate Ht.
Qed.
End properties.

(** ** Witnesses *)

Section witness.
#[local] Existing Instance demo_opus.

Definition demo_config : ManagerConfig := mkManagerConfig "auto" "" 0 0 0 true.
Definition demo_good : Outcome := mkOutcome true (mkDeviceOut true true true) (mkDeviceOut true true true) 7.
Definition demo_connected : StateChange := mkStateChange "c-1" "connected" "outbound" "bob" 5 "".
Definition demo_ended : StateChange := mkStateChange "c-1" "ended" "outbound" "bob" 9 "hangup".

(** A call with audio that has just ended: its [Close] waits for the pipeline. *)
Definition demo_call : list mop :=
  [MStart; MEvent demo_connected; MNew demo_good; MInsert; MPipe 0; MPipe 0; MPipe 0;
   MLookup "c-1" (UMute true); MUse 0; MTick 0; MEvent demo_ended; MClose].

Definition demo_audio (os : list mop) : Manager := default NewManager (mgr_run true true demo_config os NewManager).

Lemma demo_audio_run : mgr_run true true demo_config demo_call NewManager = Some (demo_audio demo_call).
Proof. vm_compute. reflexivity. Qed.

Lemma audio_close_completes_witness :
  (option_map (fun s => rn_source <$> se_run s) (mg_heap (demo_audio demo_call) !! 0)) =
    Some (Some (mkDevice (Some 0) [NRunning])) ∧
  ∃ os' m', Forall own_op os' ∧ mgr_run true true demo_config os' (demo_audio demo_call) = Some m' ∧
    session_closed m' 0.
Proof.
  split; [vm_compute; reflexivity|].
  destruct (audio_close_completes true demo_config demo_call _ demo_audio_run) as [Hloop _].
  destruct (Hloop 0 PcWait) as (os' & m' & Ho & Hr & _ & Hc); [vm_compute; reflexivity|].
  exists os', m'. split; [exact Ho|]. split; [exact Hr|exact Hc].
Defined.

Lemma audio_sessions_track_witness :
  is_Some (mg_sessions (demo_audio (take 4 demo_call)) !! "c-1") ∧
  ¬ is_Some (mg_sessions (demo_audio demo_call) !! "c-1").
Proof.
  split.
  - apply (audio_sessions_track true demo_config true (take 4 demo_call)); [|vm_compute; reflexivity|].
    + repeat constructor; intros [].
    + vm_compute. reflexivity.
  - intros Hs. apply (audio_sessions_track true demo_config true demo_call) in Hs;
      [vm_compute in Hs; discriminate Hs| |exact demo_audio_run].
    repeat constructor; intros [].
Defined.

Lemma Stop_misses_session_witness :
  ∃ m', mgr_run true true demo_config ([MStop []; MInsert; MExit] ++ []) (demo_audio (take 3 demo_call)) = Some m' ∧
    mg_stops m' !! 0 = Some (PcCancel, []) ∧ mg_sessions m' = {["c-1" := 0]} ∧ ¬ session_closed m' 0.
Proof.
  destruct (mgr_run true true demo_config ([MStop []; MInsert; MExit] ++ []) (demo_audio (take 3 demo_call)))
    as [m'|] eqn:Hr'; [|vm_compute in Hr'; discriminate Hr'].
  assert (mgr_run true true demo_config (take 3 demo_call) NewManager = Some (demo_audio (take 3 demo_call))) as Hr
    by (vm_compute; reflexivity).
  destruct (Stop_misses_session true demo_config (take 3 demo_call) _ "c-1" 0 [] [] m' Hr) as (Hs & _ & Hc);
    [vm_compute; reflexivity|constructor|exact Hr'|].
  exists m'. split; [reflexivity|]. split; [vm_compute in Hr'; injection Hr' as <-; vm_compute; reflexivity|].
  split; [exact Hs|exact Hc].
Defined.
End witness.
