(* ===== verification/AudioStreams.v ===== *)
(** * Rendezvous of the audio streams ([internal/audio/transport.go])

    Each side of a call opens its own control and media streams; the peer's
    arrive at a stream handler, which deposits them in a channel of the registry
    keyed by host, protocol and peer, and the transport of a call takes its two
    inbound streams from there ([waitAndReadControlLoop],
    [waitAndReadMediaLoop]). [top] interleaves arriving streams, the handlers'
    blocking sends, any number of transports, their readers, what the peers
    write and hang up, and [Close]. [None] is a panic: a send on or a second
    close of the control channel. *)
From S2P Require Import Prelude GoChan AudioTransport AudioPipeline.
#[local] Open Scope list_scope.

Definition AudioControlProtocol : string := "/opencom/audio-control/1.0.0".
Definition AudioMediaProtocol : string := "/opencom/audio-media/1.0.0".
Definition inboundCap : nat := 8.
Definition controlCap : nat := 32.

Abbreviation Reg := (@Registry nat string string _ _ _ _ _ _).

(** An inbound stream: what the peer has written and we have not read, as the
    lines of a control stream (a malformed one is [None]) or the frames of a
    media stream. *)
Record Stream := mkStream {
  st_host : nat;
  st_proto : string;
  st_peer : string;
  st_lines : list (option ControlMessage);
  st_frames : list bytes;
  st_eof : bool;                      (* the peer has closed it, or reading fails *)
  st_closed : bool }.                 (* closed on our side *)

(** Where a wait loop stands: at the select on the inbound channel, reading, at
    the select that forwards a message, or returned. *)
Inductive Reader := RWait (loc : nat) | RRead (s : nat) | RSend (s : nat) (m : ControlMessage) | RDone.

Record Transport := mkTransportSt {
  tr_host : nat;
  tr_peer : string;
  tr_t : libp2pTransport;
  tr_ctl : Reader;
  tr_media : Reader;
  tr_controlCh : Chan ControlMessage;
  tr_once : bool }.                   (* controlChClosed is done *)

Record Net := mkNet {
  n_reg : Reg;
  n_chans : list (Chan nat);
  n_streams : list Stream;
  n_handlers : list (nat * nat);      (* handlers at their send: channel and stream *)
  n_transports : list Transport;
  n_sent : list (nat * nat);          (* deposited: channel and stream, in order *)
  n_taken : list (nat * nat * (nat * bool)) }.   (* taken, by which reader, in order *)

Definition net_init : Net := mkNet (mkRegistry ∅ 0) [] [] [] [] [] [].

Definition set_streams x n := mkNet (n_reg n) (n_chans n) x (n_handlers n) (n_transports n) (n_sent n) (n_taken n).
Definition set_transports x n := mkNet (n_reg n) (n_chans n) (n_streams n) (n_handlers n) x (n_sent n) (n_taken n).

(** [inboundChan], with the channel it makes. *)
Definition lookup_chan (h : nat) (p q : string) (n : Net) : Net * nat :=
  let '(reg, loc) := inboundChan h p q (n_reg n) in
  (mkNet reg (if decide (loc < length (n_chans n)) then n_chans n else n_chans n ++ [make_chan inboundCap])
     (n_streams n) (n_handlers n) (n_transports n) (n_sent n) (n_taken n), loc).

(** The handler of [registerProto]: the lookup, then the blocking send. *)
Definition do_arrive (h : nat) (p q : string) (n : Net) : Net :=
  let '(n, loc) := lookup_chan h p q n in
  mkNet (n_reg n) (n_chans n) (n_streams n ++ [mkStream h p q [] [] false false])
    (n_handlers n ++ [(loc, length (n_streams n))]) (n_transports n) (n_sent n) (n_taken n).

Definition do_handler_send (i : nat) (n : Net) : Net :=
  match n_handlers n !! i with
  | None => n
  | Some (loc, s) =>
      match n_chans n !! loc with
      | None => n
      | Some c =>
          if decide (length (ch_buf c) < ch_cap c)
          then mkNet (n_reg n) (<[loc := pushed s c]> (n_chans n)) (n_streams n) (delete i (n_handlers n))
                 (n_transports n) (n_sent n ++ [(loc, s)]) (n_taken n)
          else n
      end
  end.

(** [NewLibp2pTransport]: the two wait loops look their channels up. *)
Definition do_new (h : nat) (q : string) (n : Net) : Net :=
  let '(n, lc) := lookup_chan h AudioControlProtocol q n in
  let '(n, lm) := lookup_chan h AudioMediaProtocol q n in
  set_transports (n_transports n ++
    [mkTransportSt h q NewLibp2pTransport (RWait lc) (RWait lm) (make_chan controlCap) false]) n.

Definition reader (b : bool) (t : Transport) : Reader := if b then tr_media t else tr_ctl t.

Definition set_reader (b : bool) (r : Reader) (t : Transport) : Transport :=
  if b then mkTransportSt (tr_host t) (tr_peer t) (tr_t t) (tr_ctl t) r (tr_controlCh t) (tr_once t)
  else mkTransportSt (tr_host t) (tr_peer t) (tr_t t) r (tr_media t) (tr_controlCh t) (tr_once t).

Definition set_t (x : libp2pTransport) (t : Transport) : Transport :=
  mkTransportSt (tr_host t) (tr_peer t) x (tr_ctl t) (tr_media t) (tr_controlCh t) (tr_once t).

Definition set_controlCh (c : Chan ControlMessage) (t : Transport) : Transport :=
  mkTransportSt (tr_host t) (tr_peer t) (tr_t t) (tr_ctl t) (tr_media t) c (tr_once t).

Definition close_stream (s : nat) (n : Net) : Net :=
  set_streams (alter (fun x => mkStream (st_host x) (st_proto x) (st_peer x) (st_lines x) (st_frames x)
                        (st_eof x) true) s (n_streams n)) n.

(** [controlChClosed.Do(close(controlCh))], for a control reader. *)
Definition close_control (b : bool) (t : Transport) : option Transport :=
  if b || tr_once t then Some t
  else c ← close_chan (tr_controlCh t);
       Some (mkTransportSt (tr_host t) (tr_peer t) (tr_t t) (tr_ctl t) (tr_media t) c true).

(** The reader's return, with its deferred calls. *)
Definition finish (x : nat) (b : bool) (t : Transport) (n : Net) : option Net :=
  t ← close_control b t; Some (set_transports (<[x := set_reader b RDone t]> (n_transports n)) n).

(** The select on the inbound channel: a stream, or [closeCtx]. *)
Definition do_take (x : nat) (b : bool) (n : Net) : Net :=
  match n_transports n !! x with
  | None => n
  | Some t =>
      match reader b t with
      | RWait loc =>
          match recv <$> n_chans n !! loc with
          | Some (RecvValue s c) =>
              mkNet (n_reg n) (<[loc := c]> (n_chans n)) (n_streams n) (n_handlers n)
                (<[x := set_reader b (RRead s) t]> (n_transports n)) (n_sent n) (n_taken n ++ [(loc, s, (x, b))])
          | _ => n
          end
      | _ => n
      end
  end.

Definition do_wait_closed (x : nat) (b : bool) (n : Net) : option Net :=
  match n_transports n !! x with
  | None => Some n
  | Some t =>
      match reader b t with
      | RWait _ => if t_closed (tr_t t) then finish x b t n else Some n
      | _ => Some n
      end
  end.

(** One turn of a reader: a line or a frame, or the end of the stream. What was
    buffered before the stream was closed on our side may still come, unless the
    read fails, as [e] tells. *)
Definition do_read (x : nat) (b e : bool) (n : Net) : option Net :=
  match n_transports n !! x with
  | None => Some n
  | Some t =>
      match reader b t with
      | RRead s =>
          st ← n_streams n !! s;
          if st_closed st && e then finish x b t n
          else
            match b, st_lines st, st_frames st with
            | false, m :: lines, _ =>
                let st := mkStream (st_host st) (st_proto st) (st_peer st) lines (st_frames st) (st_eof st) (st_closed st) in
                Some (set_streams (<[s := st]> (n_streams n))
                  (match m with
                   | Some m => set_transports (<[x := set_reader false (RSend s m) t]> (n_transports n)) n
                   | None => n
                   end))
            | true, _, f :: frames =>
                let st := mkStream (st_host st) (st_proto st) (st_peer st) (st_lines st) frames (st_eof st) (st_closed st) in
                Some (set_streams (<[s := st]> (n_streams n))
                  (set_transports (<[x := set_t (deliverRecv f (tr_t t)) t]> (n_transports n)) n))
            | _, _, _ => if st_eof st || st_closed st then finish x b t (close_stream s n) else Some n
            end
      | _ => Some n
      end
  end.

(** The select that forwards a message: room in [controlCh], or [closeCtx]. *)
Definition do_send_control (x : nat) (n : Net) : option Net :=
  match n_transports n !! x with
  | None => Some n
  | Some t =>
      match tr_ctl t with
      | RSend s m =>
          if ch_closed (tr_controlCh t) then None
          else if decide (length (ch_buf (tr_controlCh t)) < ch_cap (tr_controlCh t))
          then Some (set_transports (<[x := set_reader false (RRead s)
                       (set_controlCh (pushed m (tr_controlCh t)) t)]> (n_transports n)) n)
          else Some n
      | _ => Some n
      end
  end.

Definition do_send_closed (x : nat) (n : Net) : option Net :=
  match n_transports n !! x with
  | None => Some n
  | Some t =>
      match tr_ctl t with
      | RSend s m => if t_closed (tr_t t) then finish x false t (close_stream s n) else Some n
      | _ => Some n
      end
  end.

(** The goroutine that closes the inbound stream with the transport. *)
Definition do_force_close (x : nat) (b : bool) (n : Net) : Net :=
  match n_transports n !! x with
  | None => n
  | Some t =>
      match reader b t with
      | RRead s | RSend s _ => if t_closed (tr_t t) then close_stream s n else n
      | _ => n
      end
  end.

Definition do_close (x : nat) (n : Net) : Net :=
  set_transports (alter (fun t => set_t (Close false false (tr_t t)).1 t) x (n_transports n)) n.

(** The pipeline takes a control message. *)
Definition do_control (x : nat) (n : Net) : Net :=
  match n_transports n !! x with
  | None => n
  | Some t =>
      match recv (tr_controlCh t) with
      | RecvValue _ c => set_transports (<[x := set_controlCh c t]> (n_transports n)) n
      | _ => n
      end
  end.

(** What the peers do with their ends. *)
Inductive PeerAct := PLine (m : option ControlMessage) | PFrame (f : bytes) | PEof.

Definition peer_write (a : PeerAct) (st : Stream) : Stream :=
  match a with
  | PLine m => mkStream (st_host st) (st_proto st) (st_peer st) (st_lines st ++ [m]) (st_frames st) (st_eof st) (st_closed st)
  | PFrame f => mkStream (st_host st) (st_proto st) (st_peer st) (st_lines st) (st_frames st ++ [f]) (st_eof st) (st_closed st)
  | PEof => mkStream (st_host st) (st_proto st) (st_peer st) (st_lines st) (st_frames st) true (st_closed st)
  end.

Inductive top :=
| TArrive (h : nat) (p q : string) | THandlerSend (i : nat) | TPeer (s : nat) (a : PeerAct)
| TNew (h : nat) (q : string) | TTake (x : nat) (b : bool) | TWaitClosed (x : nat) (b : bool)
| TRead (x : nat) (b e : bool) | TSendControl (x : nat) | TSendClosed (x : nat)
| TForceClose (x : nat) (b : bool) | TClose (x : nat) | TControl (x : nat).

Definition net_do (o : top) (n : Net) : option Net :=
  match o with
  | TArrive h p q => Some (do_arrive h p q n)
  | THandlerSend i => Some (do_handler_send i n)
  | TPeer s a => Some (set_streams (alter (peer_write a) s (n_streams n)) n)
  | TNew h q => Some (do_new h q n)
  | TTake x b => Some (do_take x b n)
  | TWaitClosed x b => do_wait_closed x b n
  | TRead x b e => do_read x b e n
  | TSendControl x => do_send_control x n
  | TSendClosed x => do_send_closed x n
  | TForceClose x b => Some (do_force_close x b n)
  | TClose x => Some (do_close x n)
  | TControl x => Some (do_control x n)
  end.

Fixpoint net_run (os : list top) (n : Net) : option Net :=
  match os with
  | [] => Some n
  | o :: os => n ← net_do o n; net_run os n
  end.

(** ** Invariant *)

Definition proto_of (b : bool) : string := if b then AudioMediaProtocol else AudioControlProtocol.

Definition stream_at (n : Net) (loc s : nat) : Prop :=
  ∃ st, n_streams n !! s = Some st ∧ reg_lookup (n_reg n) (st_host st) (st_proto st) (st_peer st) = Some loc.

Definition reader_at (n : Net) (loc x : nat) (b : bool) : Prop :=
  ∃ t, n_transports n !! x = Some t ∧ reg_lookup (n_reg n) (tr_host t) (proto_of b) (tr_peer t) = Some loc.

(** The stream a reader holds. *)
Definition holds_stream (r : Reader) (s : nat) : Prop := r = RRead s ∨ ∃ m, r = RSend s m.

Definition deposited (n : Net) (loc : nat) : list nat := (filter (fun e => e.1 = loc) (n_sent n)).*2.
Definition taken (n : Net) (loc : nat) : list nat := (filter (fun e => e.1.1 = loc) (n_taken n)).*1.*2.

(** The control channel is closed by the control reader's return, once. *)
Definition trans_ok (t : Transport) : Prop :=
  ch_closed (tr_controlCh t) = tr_once t ∧ (tr_once t = true <-> tr_ctl t = RDone).

Record ninv (n : Net) : Prop := {
  ni_reg : reg_ok (n_reg n);
  ni_next : rg_next (n_reg n) = length (n_chans n);
  ni_trans : ∀ x t, n_transports n !! x = Some t -> trans_ok t;
  ni_fifo : ∀ loc c, n_chans n !! loc = Some c -> deposited n loc = taken n loc ++ ch_buf c;
  ni_streams : ∀ loc s, (loc, s) ∈ n_handlers n ++ n_sent n -> stream_at n loc s;
  ni_once : NoDup (n_handlers n ++ n_sent n).*2;
  ni_wait : ∀ x t b loc, n_transports n !! x = Some t -> reader b t = RWait loc -> reader_at n loc x b;
  ni_taken : ∀ loc s x b, (loc, s, (x, b)) ∈ n_taken n -> (loc, s) ∈ n_sent n ∧ reader_at n loc x b;
  ni_readers : NoDup (n_taken n).*2;
  ni_waiting : ∀ x t b loc, n_transports n !! x = Some t -> reader b t = RWait loc -> (x, b) ∉ (n_taken n).*2;
  ni_hold : ∀ x t b s, n_transports n !! x = Some t -> holds_stream (reader b t) s -> ∃ loc, (loc, s, (x, b)) ∈ n_taken n }.

Lemma reader_set_same b r t : reader b (set_reader b r t) = r.
Proof. by destruct b. Qed.

Lemma reader_set_other b b' r t : b ≠ b' -> reader b' (set_reader b r t) = reader b' t.
Proof. by destruct b, b'. Qed.

Lemma net_init_ok : ninv net_init.
Proof.
  split; cbn; try done; try (by intros; constructor); try (by intros; apply elem_of_nil in H); try (by intros x t; rewrite lookup_nil).
Qed.

Definition st_key (st : Stream) : nat * string * string := (st_host st, st_proto st, st_peer st).

(** A step of one transport and of the contents of the streams. *)
Lemma ninv_update n n' x t t' :
  ninv n -> n_transports n !! x = Some t -> n_transports n' = <[x := t']> (n_transports n) ->
  n_reg n' = n_reg n -> n_chans n' = n_chans n -> n_handlers n' = n_handlers n -> n_sent n' = n_sent n ->
  n_taken n' = n_taken n -> (∀ s, st_key <$> n_streams n' !! s = st_key <$> n_streams n !! s) ->
  tr_host t' = tr_host t -> tr_peer t' = tr_peer t -> trans_ok t' ->
  (∀ b loc, reader b t' = RWait loc -> reader b t = RWait loc) ->
  (∀ b s, holds_stream (reader b t') s -> holds_stream (reader b t) s) ->
  ninv n'.
Proof.
  intros [] Hx Ht Hr Hc Hh Hs Hk Hst Hho Hpe Hok Hw Hho'.
  assert (∀ loc s, stream_at n loc s -> stream_at n' loc s) as Hsa.
  { intros loc s (st & Hls & Hreg). specialize (Hst s). rewrite Hls in Hst. cbn in Hst.
    destruct (n_streams n' !! s) as [st'|] eqn:E; [|done]. cbn in Hst. injection Hst as H1 H2 H3.
    exists st'. by rewrite E, Hr, H1, H2, H3. }
  assert (∀ loc y b, reader_at n loc y b -> reader_at n' loc y b) as Hra.
  { intros loc y b (t0 & Hy & Hreg). unfold reader_at. rewrite Ht, Hr. destruct (decide (x = y)) as [<-|Hne].
    - exists t'. rewrite list_lookup_insert_eq by (by eapply lookup_lt_Some). split; [done|].
      rewrite Hho, Hpe. by simplify_eq.
    - exists t0. by rewrite list_lookup_insert_ne. }
  assert (∀ y t0, n_transports n' !! y = Some t0 -> (y = x ∧ t0 = t') ∨ n_transports n !! y = Some t0) as Hget.
  { intros y t0. rewrite Ht. intros Hy. apply list_lookup_insert_Some in Hy. naive_solver. }
  split; rewrite ?Hr, ?Hc, ?Hh, ?Hs, ?Hk; try done.
  - intros y t0 [[-> ->]|Hy]%Hget; [done|by eapply ni_trans0].
  - intros loc c. unfold deposited, taken. rewrite Hs, Hk. apply ni_fifo0.
  - intros loc s Hin. apply Hsa. by apply ni_streams0.
  - intros y t0 b loc [[-> ->]|Hy]%Hget Hwt; apply Hra; [eapply ni_wait0; [done|by apply Hw]|by eapply ni_wait0].
  - intros loc s y b Hin. destruct (ni_taken0 _ _ _ _ Hin). split; [done|by apply Hra].
  - intros y t0 b loc [[-> ->]|Hy]%Hget Hwt; [eapply ni_waiting0; [done|by apply Hw]|by eapply ni_waiting0].
  - intros y t0 b s [[-> ->]|Hy]%Hget Hhd; [eapply ni_hold0; [done|by apply Hho']|by eapply ni_hold0].
Qed.

(** The same when no transport changes. *)
Lemma ninv_streams n f s : ninv n -> (∀ st, st_key (f st) = st_key st) ->
  ninv (set_streams (alter f s (n_streams n)) n).
Proof.
  intros [] Hf.
  assert (∀ loc s', stream_at n loc s' -> stream_at (set_streams (alter f s (n_streams n)) n) loc s') as Hsa.
  { intros loc s' (st & Hls & Hreg). destruct (decide (s = s')) as [<-|Hne].
    - exists (f st). cbn. rewrite list_lookup_alter_eq, Hls. split; [done|].
      specialize (Hf st). unfold st_key in Hf. by injection Hf as -> -> ->.
    - exists st. cbn. by rewrite list_lookup_alter_ne. }
  split; try done. intros loc s' Hin. apply Hsa. by apply ni_streams0.
Qed.

Lemma alter_key (f : Stream -> Stream) (l : list Stream) s s' : (∀ st, st_key (f st) = st_key st) ->
  st_key <$> alter f s l !! s' = st_key <$> l !! s'.
Proof.
  intros Hf. destruct (decide (s = s')) as [<-|Hne]; [|by rewrite list_lookup_alter_ne].
  rewrite list_lookup_alter_eq. destruct (l !! s); cbn; [|done]. by rewrite Hf.
Qed.

Lemma insert_key (l : list Stream) s st st' s' : l !! s = Some st -> st_key st' = st_key st ->
  st_key <$> <[s := st']> l !! s' = st_key <$> l !! s'.
Proof.
  intros Hl Hk. destruct (decide (s = s')) as [<-|Hne]; [|by rewrite list_lookup_insert_ne].
  rewrite list_lookup_insert_eq, Hl by (by eapply lookup_lt_Some). cbn. by rewrite Hk.
Qed.

(** The end of a reader. *)
Lemma close_control_ok b t : trans_ok t -> (b = false -> tr_ctl t ≠ RDone) ->
  ∃ t', close_control b t = Some t' ∧ trans_ok (set_reader b RDone t') ∧ tr_host t' = tr_host t ∧
    tr_peer t' = tr_peer t ∧ tr_ctl t' = tr_ctl t ∧ tr_media t' = tr_media t.
Proof.
  intros [Hc Ho] Hne. unfold close_control. destruct b; [exists t; by split_and!|]. cbn.
  destruct (tr_once t) eqn:Ht; [by destruct Hne; [|apply Ho]|]. unfold close_chan. rewrite Hc. cbn.
  eexists. split; [done|]. by split_and!.
Qed.

Lemma finish_ok n n0 x b t : ninv n -> n_transports n !! x = Some t -> reader b t ≠ RDone ->
  n_reg n0 = n_reg n -> n_chans n0 = n_chans n -> n_handlers n0 = n_handlers n -> n_sent n0 = n_sent n ->
  n_taken n0 = n_taken n -> n_transports n0 = n_transports n ->
  (∀ s, st_key <$> n_streams n0 !! s = st_key <$> n_streams n !! s) ->
  ∃ n', finish x b t n0 = Some n' ∧ ninv n'.
Proof.
  intros Hn Hx Hne H1 H2 H3 H4 H5 H6 H7.
  destruct (close_control_ok b t) as (t' & Ht' & Hok & Hh & Hp & Hc & Hm); [by eapply ni_trans|by intros ->|].
  unfold finish. rewrite Ht'. cbn. eexists. split; [done|].
  eapply (ninv_update n _ x t (set_reader b RDone t')); try done.
  - cbn. by rewrite H6.
  - by destruct b.
  - by destruct b.
  - intros b' loc. destruct b, b'; cbn; try done; congruence.
  - intros b' s. destruct b, b'; cbn; unfold holds_stream; rewrite ?Hc, ?Hm; try done; naive_solver.
Qed.

(** The steps of one transport. *)
Lemma do_wait_closed_ok x b n : ninv n -> ∃ n', do_wait_closed x b n = Some n' ∧ ninv n'.
Proof.
  intros Hn. unfold do_wait_closed. destruct (n_transports n !! x) as [t|] eqn:Hx; [|by exists n].
  destruct (reader b t) eqn:Hr; try (by exists n). destruct (t_closed (tr_t t)); [|by exists n].
  apply (finish_ok n); try done. congruence.
Qed.

Lemma holds_RRead b t s s' : holds_stream (reader b t) s' -> reader b t = RRead s -> s' = s.
Proof. intros [H|[m H]] Hr; congruence. Qed.

Lemma do_read_ok x b e n : ninv n -> ∃ n', do_read x b e n = Some n' ∧ ninv n'.
Proof.
  intros Hn. unfold do_read. destruct (n_transports n !! x) as [t|] eqn:Hx; [|by exists n].
  destruct (reader b t) as [|s| |] eqn:Hr; try (by exists n).
  destruct (ni_hold _ Hn x t b s Hx) as [loc Hk]; [left; done|].
  apply (ni_taken _ Hn) in Hk as [Hk _].
  destruct (ni_streams _ Hn loc s) as (st & Hst & _); [apply elem_of_app; by right|].
  rewrite Hst. cbn. destruct (st_closed st && e); [apply (finish_ok n); try done; congruence|].
  assert (∃ n', (if st_eof st || st_closed st then finish x b t (close_stream s n) else Some n) = Some n' ∧ ninv n')
    as Hend.
  { destruct (st_eof st || st_closed st); [|by exists n]. apply (finish_ok n); try done; [congruence|].
    intros s'. by apply alter_key. }
  pose proof (ni_trans _ Hn x t Hx) as [Hc Ho].
  destruct b; cbn in Hr.
  - destruct (st_frames st) as [|f frames]; [done|]. eexists. split; [done|].
    eapply (ninv_update n _ x t); try done. intros s'. cbn. by eapply insert_key.
  - destruct (st_lines st) as [|m lines]; [done|]. eexists. split; [done|]. destruct m as [m|].
    + eapply (ninv_update n _ x t (set_reader false (RSend s m) t)); try done.
      * intros s'. cbn. by eapply insert_key.
      * split; [done|]. cbn. rewrite Ho. split; [congruence|done].
      * intros [] l; [done|]. cbn. done.
      * intros [] s'; [done|]. cbn. rewrite Hr. intros [?|[m' [= -> _]]]; [done|by left].
    + eapply (ninv_update n _ x t t); try done; [cbn; by rewrite list_insert_id|].
      intros s'. cbn. by eapply insert_key.
Qed.

Lemma do_send_control_ok x n : ninv n -> ∃ n', do_send_control x n = Some n' ∧ ninv n'.
Proof.
  intros Hn. unfold do_send_control. destruct (n_transports n !! x) as [t|] eqn:Hx; [|by exists n].
  destruct (tr_ctl t) as [| |s m|] eqn:Hr; try (by exists n).
  pose proof (ni_trans _ Hn x t Hx) as [Hc Ho].
  assert (tr_once t = false) as Hof by (destruct (tr_once t); [destruct Ho as [Ho _]; rewrite Hr in Ho; by specialize (Ho eq_refl)|done]).
  rewrite Hc, Hof. destruct (decide _); [|by exists n]. eexists. split; [done|].
  eapply (ninv_update n _ x t (set_reader false (RRead s) _)); try done.
  - split; cbn; [by rewrite pushed_closed|]. by rewrite Hof.
  - by intros [].
  - intros [] s'; [done|]. cbn. rewrite Hr. intros [[= ->]|[m' ?]]; [right; by exists m|done].
Qed.

Lemma do_send_closed_ok x n : ninv n -> ∃ n', do_send_closed x n = Some n' ∧ ninv n'.
Proof.
  intros Hn. unfold do_send_closed. destruct (n_transports n !! x) as [t|] eqn:Hx; [|by exists n].
  destruct (tr_ctl t) as [| |s m|] eqn:Hr; try (by exists n). destruct (t_closed (tr_t t)); [|by exists n].
  apply (finish_ok n); try done; [cbn; congruence|]. intros s'. by apply alter_key.
Qed.

Lemma do_force_close_ok x b n : ninv n -> ninv (do_force_close x b n).
Proof.
  intros Hn. unfold do_force_close. destruct (n_transports n !! x) as [t|]; [|done].
  destruct (reader b t), (t_closed (tr_t t)); try done; by apply ninv_streams.
Qed.

Lemma do_close_ok x n : ninv n -> ninv (do_close x n).
Proof.
  intros Hn. unfold do_close. destruct (n_transports n !! x) as [t|] eqn:Hx.
  - rewrite (alter_as_insert _ _ _ _ Hx). eapply (ninv_update n _ x t); try done.
    exact (ni_trans _ Hn x t Hx).
  - rewrite alter_missing by done. by destruct n.
Qed.

Lemma do_control_ok x n : ninv n -> ninv (do_control x n).
Proof.
  intros Hn. unfold do_control. destruct (n_transports n !! x) as [t|] eqn:Hx; [|done].
  destruct (recv (tr_controlCh t)) as [m c| |] eqn:Hr; try done.
  eapply (ninv_update n _ x t (set_controlCh c t)); try done.
  pose proof (ni_trans _ Hn x t Hx) as [Hc Ho]. split; [|done]. cbn.
  unfold recv in Hr. destruct (ch_buf (tr_controlCh t)); [by destruct (ch_closed (tr_controlCh t))|].
  by injection Hr as _ <-.
Qed.

(** The registry. *)
Record extends (n n' : Net) : Prop := {
  ex_streams : ∀ loc s, stream_at n loc s -> stream_at n' loc s;
  ex_readers : ∀ loc x b, reader_at n loc x b -> reader_at n' loc x b }.

Lemma lookup_chan_ok h p q n : ninv n ->
  let n' := (lookup_chan h p q n).1 in let loc := (lookup_chan h p q n).2 in
  ninv n' ∧ extends n n' ∧ reg_lookup (n_reg n') h p q = Some loc ∧ loc < length (n_chans n') ∧
  (∀ h' p' q' l, reg_lookup (n_reg n) h' p' q' = Some l -> reg_lookup (n_reg n') h' p' q' = Some l) ∧
  (∀ l c, n_chans n !! l = Some c -> n_chans n' !! l = Some c) ∧
  n_transports n' = n_transports n ∧ n_streams n' = n_streams n ∧ n_handlers n' = n_handlers n ∧
  n_sent n' = n_sent n ∧ n_taken n' = n_taken n.
Proof.
  intros Hn. pose proof Hn as []. unfold lookup_chan.
  pose proof (inboundChan_inserted h p q (n_reg n)) as Hins.
  pose proof (inboundChan_ok h p q (n_reg n) ni_reg0) as Hrok.
  pose proof (inboundChan_fresh h p q (n_reg n)) as Hfr.
  assert (∀ h' p' q' l, reg_lookup (n_reg n) h' p' q' = Some l ->
    reg_lookup (inboundChan h p q (n_reg n)).1 h' p' q' = Some l) as Hmono.
  { intros h' p' q' l Hl. rewrite inboundChan_lookup. destruct (decide _) as [(-> & -> & ->)|]; [|done].
    f_equal. by apply inboundChan_existing. }
  assert (rg_next (inboundChan h p q (n_reg n)).1 =
    if decide ((inboundChan h p q (n_reg n)).2 < length (n_chans n)) then rg_next (n_reg n)
    else S (rg_next (n_reg n))) as Hnx.
  { rewrite <- ni_next0. destruct Hfr as [Hf|Hf].
    - rewrite Hf, decide_False by lia. revert Hf. unfold inboundChan.
      destruct (_ !! q) eqn:El; cbn; [|done]. intros ->. exfalso.
      assert (reg_lookup (n_reg n) h p q = Some (rg_next (n_reg n))) as Hl.
      { unfold reg_lookup. destruct (rg_map (n_reg n) !! h); cbn in El |- *; [|by rewrite !lookup_empty in El].
        destruct (_ !! p); cbn in El |- *; [done|by rewrite lookup_empty in El]. }
      apply ni_reg0 in Hl. lia.
    - rewrite decide_True by (by eapply ni_reg0). revert Hf. unfold inboundChan, reg_lookup.
      destruct (rg_map (n_reg n) !! h); cbn; [|done]. destruct (_ !! p); cbn; [|done]. by intros ->. }
  destruct (inboundChan h p q (n_reg n)) as [reg loc]. cbn [fst snd] in *.
  assert (loc < length (if decide (loc < length (n_chans n)) then n_chans n else n_chans n ++ [make_chan inboundCap])) as Hlt.
  { destruct (decide _) as [|Hge]; [done|]. rewrite length_app. cbn.
    destruct Hfr as [->|Hf%ni_reg0]; rewrite <- ?ni_next0 in *; lia. }
  set (n' := mkNet reg _ _ _ _ _ _).
  assert (extends n n') as Hex.
  { split; intros; [destruct H as (st & ? & ?); exists st|destruct H as (t & ? & ?); exists t]; eauto. }
  split; [|split; [done|]; split; [done|]; split; [done|]; split; [done|]; split; [|done]].
  - split; cbn; try done.
    + rewrite Hnx. destruct (decide _); [done|]. rewrite length_app, ni_next0. cbn. lia.
    + intros l c Hl. destruct (decide (loc < length (n_chans n))); [by apply ni_fifo0|].
      apply lookup_app_Some in Hl as [Hl|[Hge Hl]]; [by apply ni_fifo0|].
      apply list_lookup_singleton_Some in Hl as [Hle <-]. cbn. unfold deposited, taken. cbn.
      assert (∀ s, (l, s) ∉ n_sent n) as Hnone.
      { intros s Hs. destruct (ni_streams0 l s) as (st & _ & Hreg); [apply elem_of_app; by right|].
        apply ni_reg0 in Hreg. lia. }
      assert (filter (fun e : nat * nat => e.1 = l) (n_sent n) = []) as ->.
      { apply filter_none, Forall_forall. intros [l' s] Hin Heq. cbn in Heq. subst. by eapply Hnone. }
      assert (filter (fun e : nat * nat * (nat * bool) => e.1.1 = l) (n_taken n) = []) as ->; [|done].
      apply filter_none, Forall_forall. intros [[l' s] [x b]] Hin Heq. cbn in Heq. subst.
      by apply ni_taken0 in Hin as [Hin%Hnone _].
    + intros l s Hin. by apply (ex_streams _ _ Hex), ni_streams0.
    + intros x t b l Hx Hw. apply (ex_readers _ _ Hex). by eapply ni_wait0.
    + intros l s x b Hin. apply ni_taken0 in Hin as [? ?]. split; [done|]. by apply (ex_readers _ _ Hex).
  - intros l c Hl. cbn. destruct (decide _); [done|]. by apply lookup_app_l_Some.
Qed.

Lemma NoDup_fresh_app (l1 l2 : list (nat * nat)) loc s :
  (∀ e, e ∈ l1 ++ l2 -> e.2 < s) -> NoDup (l1 ++ l2).*2 -> NoDup ((l1 ++ [(loc, s)]) ++ l2).*2.
Proof.
  intros Hlt Hnd. rewrite !fmap_app in *. cbn. rewrite <- app_assoc. cbn.
  rewrite <- Permutation_middle. apply NoDup_cons. split; [|done].
  rewrite <- fmap_app. intros (e & He & Hin)%list_elem_of_fmap. apply Hlt in Hin. lia.
Qed.

Lemma do_arrive_ok h p q n : ninv n -> ninv (do_arrive h p q n).
Proof.
  intros Hn. unfold do_arrive. pose proof (lookup_chan_ok h p q n Hn) as H.
  destruct (lookup_chan h p q n) as [n1 loc]. cbn in H. destruct H as (Hn1 & _ & Hreg & Hlt & _).
  pose proof Hn1 as []. set (n' := mkNet _ _ _ _ _ _ _).
  assert (∀ l s, stream_at n1 l s -> stream_at n' l s) as Hsa.
  { intros l s (st & Hs & Hr). exists st. split; [|done]. cbn. by apply lookup_app_l_Some. }
  split; cbn; try done.
  - intros l s. rewrite <- app_assoc, elem_of_app. cbn. intros [Hin|[[= -> ->]|Hin]%elem_of_cons].
    + apply Hsa, ni_streams0, elem_of_app. by left.
    + exists (mkStream h p q [] [] false false). cbn. split; [|done]. by apply list_lookup_middle.
    + apply Hsa, ni_streams0, elem_of_app. by right.
  - apply NoDup_fresh_app; [|done]. intros [l s] Hin. apply ni_streams0 in Hin as (st & Hs & _).
    by apply lookup_lt_Some in Hs.
Qed.

Lemma do_handler_send_ok i n : ninv n -> ninv (do_handler_send i n).
Proof.
  intros Hn. pose proof Hn as []. unfold do_handler_send.
  destruct (n_handlers n !! i) as [[loc s]|] eqn:Hi; [|done]. destruct (n_chans n !! loc) as [c|] eqn:Hc; [|done].
  destruct (decide _) as [Hlt|]; [|done].
  assert (n_handlers n ++ n_sent n ≡ₚ delete i (n_handlers n) ++ (n_sent n ++ [(loc, s)])) as Hp.
  { rewrite (delete_Permutation _ _ _ Hi) at 1. cbn. rewrite app_assoc.
    by rewrite <- (Permutation_cons_append (delete i (n_handlers n) ++ n_sent n)). }
  split; cbn; try done.
  - by rewrite length_insert.
  - intros l c' Hl. unfold deposited, taken. cbn. rewrite filter_app, fmap_app.
    destruct (decide (loc = l)) as [<-|Hne].
    + rewrite list_lookup_insert_eq in Hl by (by eapply lookup_lt_Some). injection Hl as <-.
      rewrite filter_cons_True by done. cbn. unfold pushed. rewrite decide_True by done. cbn.
      rewrite app_assoc. f_equal. by apply ni_fifo0.
    + rewrite list_lookup_insert_ne in Hl by done. rewrite filter_cons_False by done. cbn. rewrite app_nil_r.
      by apply ni_fifo0.
  - intros l s' Hin. apply ni_streams0. by rewrite Hp.
  - by rewrite <- Hp.
  - intros l s' x b Hin%ni_taken0. rewrite elem_of_app. naive_solver.
Qed.

Lemma do_new_ok h q n : ninv n -> ninv (do_new h q n).
Proof.
  intros Hn. unfold do_new. pose proof (lookup_chan_ok h AudioControlProtocol q n Hn) as H.
  destruct (lookup_chan h AudioControlProtocol q n) as [n1 lc]. cbn in H.
  destruct H as (Hn1 & _ & Hrc & _ & _).
  pose proof (lookup_chan_ok h AudioMediaProtocol q n1 Hn1) as H.
  destruct (lookup_chan h AudioMediaProtocol q n1) as [n2 lm]. cbn in H.
  destruct H as (Hn2 & _ & Hrm & _ & Hmono & _). apply Hmono in Hrc. clear Hmono Hn1 Hn.
  set (t := mkTransportSt h q NewLibp2pTransport (RWait lc) (RWait lm) (make_chan controlCap) false).
  pose proof Hn2 as []. set (n' := set_transports _ _).
  assert (∀ l x b, reader_at n2 l x b -> reader_at n' l x b) as Hra.
  { intros l x b (t0 & Hx & Hr). exists t0. split; [|done]. cbn. by apply lookup_app_l_Some. }
  assert (∀ x t0, n_transports n' !! x = Some t0 ->
    n_transports n2 !! x = Some t0 ∨ (x = length (n_transports n2) ∧ t0 = t)) as Hget.
  { intros x t0. cbn. intros [?|[Hge Hx]]%lookup_app_Some; [by left|right].
    apply list_lookup_singleton_Some in Hx as [? <-]. split; [lia|done]. }
  assert (∀ l s b, (l, s, (length (n_transports n2), b)) ∉ n_taken n2) as Hnt.
  { intros l s b (_ & t0 & Hx & _)%ni_taken0. apply lookup_lt_Some in Hx. lia. }
  split; cbn; try done.
  - intros x t0 [Hx|[-> ->]]%Hget; [by eapply ni_trans0|]. by split.
  - intros x t0 b loc [Hx|[-> ->]]%Hget Hw; [by eapply Hra, ni_wait0|].
    exists t. split; [cbn; by apply list_lookup_middle|]. destruct b; cbn in *; congruence.
  - intros loc s x b [? ?]%ni_taken0. split; [done|by apply Hra].
  - intros x t0 b loc [Hx|[-> ->]]%Hget Hw; [by eapply ni_waiting0|].
    intros ([[l s] e] & Heq & Hin)%list_elem_of_fmap. cbn in Heq. subst e. by apply Hnt in Hin.
  - intros x t0 b s [Hx|[-> ->]]%Hget Hh; [by eapply ni_hold0|]. destruct b, Hh as [?|[? ?]]; done.
Qed.

Lemma do_take_ok x b n : ninv n -> ninv (do_take x b n).
Proof.
  intros Hn. pose proof Hn as []. unfold do_take. destruct (n_transports n !! x) as [t|] eqn:Hx; [|done].
  destruct (reader b t) as [loc| | |] eqn:Hr; try done. destruct (n_chans n !! loc) as [c|] eqn:Hc; [|done]. cbn.
  destruct (recv c) as [s c'| |] eqn:Hv; try done.
  assert (ch_buf c = s :: ch_buf c') as Hbuf.
  { unfold recv in Hv. destruct (ch_buf c); [by destruct (ch_closed c)|]. by injection Hv as <- <-. }
  assert ((loc, s) ∈ n_sent n) as Hsent.
  { assert (s ∈ deposited n loc) as Hin by (rewrite (ni_fifo0 _ _ Hc), Hbuf; apply elem_of_app; right; by left).
    apply list_elem_of_fmap in Hin as ([l s'] & -> & Hin). by apply list_elem_of_filter in Hin as [[= ->] Hin]. }
  assert (∀ y t0, <[x := set_reader b (RRead s) t]> (n_transports n) !! y = Some t0 ->
    (y = x ∧ t0 = set_reader b (RRead s) t) ∨ (y ≠ x ∧ n_transports n !! y = Some t0)) as Hget.
  { intros y t0 Hy. apply list_lookup_insert_Some in Hy. naive_solver. }
  set (n' := mkNet _ _ _ _ _ _ _).
  assert (∀ l y b', reader_at n l y b' -> reader_at n' l y b') as Hra.
  { intros l y b' (t0 & Hy & Hl). unfold reader_at. cbn. destruct (decide (x = y)) as [<-|Hne].
    - exists (set_reader b (RRead s) t). rewrite list_lookup_insert_eq by (by eapply lookup_lt_Some).
      split; [done|]. simplify_eq. by destruct b.
    - exists t0. by rewrite list_lookup_insert_ne. }
  split; cbn; try done.
  - by rewrite length_insert.
  - intros y t0 [[-> ->]|[_ Hy]]%Hget; [|by eapply ni_trans0]. pose proof (ni_trans0 _ _ Hx) as [Ho1 Ho2].
    destruct b; [done|]. split; [done|]. cbn in *. rewrite Ho2, Hr. done.
  - intros l c0 Hl. unfold deposited, taken. cbn. rewrite filter_app, !fmap_app.
    destruct (decide (loc = l)) as [<-|Hne].
    + rewrite list_lookup_insert_eq in Hl by (by eapply lookup_lt_Some). injection Hl as <-.
      rewrite filter_cons_True by done. cbn. rewrite <- app_assoc. cbn. rewrite <- Hbuf. by apply ni_fifo0.
    + rewrite list_lookup_insert_ne in Hl by done. rewrite filter_cons_False by done. cbn. rewrite app_nil_r.
      by apply ni_fifo0.
  - intros y t0 b' l [[-> ->]|[_ Hy]]%Hget Hw; apply Hra; [|by eapply ni_wait0].
    destruct (decide (b = b')) as [<-|Hne]; [by rewrite reader_set_same in Hw|].
    rewrite reader_set_other in Hw by done. by eapply ni_wait0.
  - intros l s' y b' [Hin|Hin]%elem_of_app; [apply ni_taken0 in Hin as [? ?]; split; [done|by apply Hra]|].
    apply list_elem_of_singleton in Hin as [= -> -> -> ->]. split; [done|]. by eapply Hra, ni_wait0.
  - rewrite fmap_app. cbn. rewrite <- Permutation_cons_append. apply NoDup_cons. split; [|done].
    by eapply ni_waiting0.
  - intros y t0 b' l Hy Hw. rewrite fmap_app. cbn. intros [Hin|Hin]%elem_of_app.
    + destruct (Hget _ _ Hy) as [[-> ->]|[_ Hy']]; [|by eapply ni_waiting0].
      destruct (decide (b = b')) as [<-|Hne]; [by rewrite reader_set_same in Hw|].
      rewrite reader_set_other in Hw by done. by eapply ni_waiting0.
    + apply list_elem_of_singleton in Hin as [= -> ->].
      destruct (Hget _ _ Hy) as [[_ ->]|[? _]]; [by rewrite reader_set_same in Hw|done].
  - intros y t0 b' s' Hy Hh. destruct (Hget _ _ Hy) as [[-> ->]|[_ Hy']].
    + destruct (decide (b = b')) as [<-|Hne].
      * rewrite reader_set_same in Hh. destruct Hh as [[= ->]|[? ?]]; [|done]. exists loc.
        apply elem_of_app. right. by left.
      * rewrite reader_set_other in Hh by done. destruct (ni_hold0 _ _ _ _ Hx Hh) as [l Hl]. exists l.
        apply elem_of_app. by left.
    + destruct (ni_hold0 _ _ _ _ Hy' Hh) as [l Hl]. exists l. apply elem_of_app. by left.
Qed.

Lemma net_do_ok o n : ninv n -> ∃ n', net_do o n = Some n' ∧ ninv n'.
Proof.
  intros Hn. destruct o; cbn [net_do]; try (eexists; split; [done|]).
  - by apply do_arrive_ok.
  - by apply do_handler_send_ok.
  - apply ninv_streams; [done|]. by intros []; destruct a.
  - by apply do_new_ok.
  - by apply do_take_ok.
  - by apply do_wait_closed_ok.
  - by apply do_read_ok.
  - by apply do_send_control_ok.
  - by apply do_send_closed_ok.
  - by apply do_force_close_ok.
  - by apply do_close_ok.
  - by apply do_control_ok.
Qed.

Lemma net_run_ok os : ∀ n, ninv n -> ∃ n', net_run os n = Some n' ∧ ninv n'.
Proof.
  induction os as [|o os IH]; intros n Hn; [by exists n|]. cbn [net_run].
  destruct (net_do_ok o n Hn) as (n1 & -> & Hn1). by apply IH.
Qed.

(** ** What a step may do *)

(** The transports of [n'] are those of [n], further on, or made by [o]. *)
Definition trans_step (o : top) (n n' : Net) : Prop :=
  ∀ y t', n_transports n' !! y = Some t' ->
    (∃ t, n_transports n !! y = Some t ∧ tr_host t' = tr_host t ∧ tr_peer t' = tr_peer t ∧
       ∀ b l, reader b t' = RWait l -> reader b t = RWait l) ∨
    o = TNew (tr_host t') (tr_peer t').

(** Deposits and takes are appended, and a reader takes from where it waits. *)
Record net_step (o : top) (n n' : Net) : Prop := {
  ns_trans : trans_step o n n';
  ns_sent : ∃ d, n_sent n' = n_sent n ++ d;
  ns_taken : ∃ d, n_taken n' = n_taken n ++ d ∧
    ∀ l s x b, (l, s, (x, b)) ∈ d -> ∃ t, n_transports n !! x = Some t ∧ reader b t = RWait l;
  ns_reg : ∀ h p q l, reg_lookup (n_reg n) h p q = Some l -> reg_lookup (n_reg n') h p q = Some l }.

Lemma net_step_one o n n' x t t' :
  n_transports n !! x = Some t -> n_transports n' = <[x := t']> (n_transports n) ->
  tr_host t' = tr_host t -> tr_peer t' = tr_peer t ->
  (∀ b l, reader b t' = RWait l -> reader b t = RWait l) ->
  n_sent n' = n_sent n -> n_reg n' = n_reg n ->
  (n_taken n' = n_taken n ∨ ∃ l s b, n_taken n' = n_taken n ++ [(l, s, (x, b))] ∧ reader b t = RWait l) ->
  net_step o n n'.
Proof.
  intros Hx Ht Hh Hp Hw Hs Hr Hk. split.
  - intros y t0. rewrite Ht. intros Hy. left. apply list_lookup_insert_Some in Hy as [(-> & -> & _)|[? Hy]].
    + by exists t.
    + by exists t0.
  - exists []. by rewrite Hs, app_nil_r.
  - destruct Hk as [->|(l & s & b & -> & Hb)].
    + exists []. rewrite app_nil_r. split; [done|]. intros l s y b Hin. by apply elem_of_nil in Hin.
    + eexists. split; [done|]. intros l' s' y b' [= -> -> -> ->]%list_elem_of_singleton. by exists t.
  - by rewrite Hr.
Qed.

Lemma net_step_same o n n' :
  n_transports n' = n_transports n -> (∃ d, n_sent n' = n_sent n ++ d) -> n_taken n' = n_taken n ->
  (∀ h p q l, reg_lookup (n_reg n) h p q = Some l -> reg_lookup (n_reg n') h p q = Some l) -> net_step o n n'.
Proof.
  intros Ht Hs Hk Hr. split; [|done| |done].
  - intros y t. rewrite Ht. intros Hy. left. by exists t.
  - exists []. rewrite app_nil_r. split; [done|]. intros l s y b Hin. by apply elem_of_nil in Hin.
Qed.

Lemma net_step_refl o n : net_step o n n.
Proof. apply net_step_same; try done. exists []. by rewrite app_nil_r. Qed.

Lemma finish_step o n n0 n' x b t : n_transports n !! x = Some t ->
  n_transports n0 = n_transports n -> n_sent n0 = n_sent n -> n_taken n0 = n_taken n -> n_reg n0 = n_reg n ->
  finish x b t n0 = Some n' -> net_step o n n'.
Proof.
  intros Hx H1 H2 H3 H4 Hf. unfold finish in Hf.
  destruct (close_control b t) as [t'|] eqn:Hc; [|done]. cbn in Hf. injection Hf as <-.
  assert (tr_host t' = tr_host t ∧ tr_peer t' = tr_peer t ∧ tr_ctl t' = tr_ctl t ∧ tr_media t' = tr_media t)
    as (Hh & Hp & Hct & Hm).
  { unfold close_control in Hc. destruct (b || tr_once t); [by simplify_eq|].
    destruct (close_chan (tr_controlCh t)); cbn in Hc; [by simplify_eq|done]. }
  eapply (net_step_one o n _ x t (set_reader b RDone t')); try done; [by cbn; rewrite H1|by destruct b|by destruct b| |by left].
  intros b' l. destruct b, b'; cbn; try done; congruence.
Qed.

Lemma net_do_step o n n' : ninv n -> net_do o n = Some n' -> net_step o n n'.
Proof.
  intros Hn Hd. destruct o; cbn in Hd; try injection Hd as <-.
  - unfold do_arrive. pose proof (lookup_chan_ok h p q n Hn) as H. destruct (lookup_chan h p q n) as [n1 loc].
    cbn in H. destruct H as (_ & _ & _ & _ & Hm & _ & Ht & _ & _ & Hs & Hk).
    apply net_step_same; try done. exists []. cbn. by rewrite Hs, app_nil_r.
  - unfold do_handler_send. destruct (n_handlers n !! i) as [[l s]|]; [|apply net_step_refl].
    destruct (n_chans n !! l); [|apply net_step_refl]. destruct (decide _); [|apply net_step_refl].
    apply net_step_same; try done. by eexists.
  - apply net_step_same; try done. exists []. by rewrite app_nil_r.
  - unfold do_new. pose proof (lookup_chan_ok h AudioControlProtocol q n Hn) as H.
    destruct (lookup_chan h AudioControlProtocol q n) as [n1 lc]. cbn in H.
    destruct H as (Hn1 & _ & _ & _ & Hm1 & _ & Ht1 & _ & _ & Hs1 & Hk1).
    pose proof (lookup_chan_ok h AudioMediaProtocol q n1 Hn1) as H.
    destruct (lookup_chan h AudioMediaProtocol q n1) as [n2 lm]. cbn in H.
    destruct H as (_ & _ & _ & _ & Hm2 & _ & Ht2 & _ & _ & Hs2 & Hk2). split; cbn.
    + intros y t'. cbn. rewrite Ht2, Ht1. intros [Hy|[_ Hy]]%lookup_app_Some; [left; by exists t'|right].
      by apply list_lookup_singleton_Some in Hy as [_ <-].
    + exists []. by rewrite app_nil_r, Hs2, Hs1.
    + exists []. rewrite app_nil_r, Hk2, Hk1. split; [done|]. intros l s y b Hin. by apply elem_of_nil in Hin.
    + intros h' p' q' l Hl. by apply Hm2, Hm1.
  - unfold do_take. destruct (n_transports n !! x) as [t|] eqn:Hx; [|apply net_step_refl].
    destruct (reader b t) as [l| | |] eqn:Hr; try apply net_step_refl.
    destruct (n_chans n !! l) as [c|]; [|apply net_step_refl]. cbn.
    destruct (recv c) as [s c'| |]; try apply net_step_refl.
    eapply (net_step_one _ n _ x t (set_reader b (RRead s) t)); try done; [by destruct b|by destruct b| |].
    + intros b' l'. destruct (decide (b = b')) as [<-|Hne]; [by rewrite reader_set_same|].
      by rewrite reader_set_other.
    + right. by exists l, s, b.
  - unfold do_wait_closed in Hd. destruct (n_transports n !! x) as [t|] eqn:Hx; [|simplify_eq; apply net_step_refl].
    destruct (reader b t), (t_closed (tr_t t)); try (simplify_eq; apply net_step_refl).
    by eapply (finish_step _ n n).
  - unfold do_read in Hd. destruct (n_transports n !! x) as [t|] eqn:Hx; [|simplify_eq; apply net_step_refl].
    destruct (reader b t) as [|s| |] eqn:Hr; try (simplify_eq; apply net_step_refl).
    apply bind_Some in Hd as (st & Hst & Hd). destruct (st_closed st && e); [by eapply (finish_step _ n n)|].
    assert (∀ n0, (if st_eof st || st_closed st then finish x b t (close_stream s n) else Some n) = Some n0 ->
      net_step (TRead x b e) n n0) as Hend.
    { intros n0. destruct (st_eof st || st_closed st); [by apply (finish_step _ n _)|]. intros [= <-]. apply net_step_refl. }
    destruct b; cbn in Hr; [destruct (st_frames st) as [|f frames]|destruct (st_lines st) as [|[m|] lines]]; try (by apply Hend);
      injection Hd as <-.
    + eapply (net_step_one _ n _ x t (set_t (deliverRecv f (tr_t t)) t)); try done. by left.
    + eapply (net_step_one _ n _ x t (set_reader false (RSend s m) t)); try done; try (by intros []); by left.
    + apply net_step_same; try done. exists []. by rewrite app_nil_r.
  - unfold do_send_control in Hd. destruct (n_transports n !! x) as [t|] eqn:Hx; [|simplify_eq; apply net_step_refl].
    destruct (tr_ctl t) as [| |s m|]; try (simplify_eq; apply net_step_refl).
    destruct (ch_closed _); [done|]. destruct (decide _); [|simplify_eq; apply net_step_refl]. injection Hd as <-.
    eapply (net_step_one _ n _ x t (set_reader false (RRead s) (set_controlCh (pushed m (tr_controlCh t)) t)));
      try done; try (by intros []); by left.
  - unfold do_send_closed in Hd. destruct (n_transports n !! x) as [t|] eqn:Hx; [|simplify_eq; apply net_step_refl].
    destruct (tr_ctl t) as [| |s m|]; try (simplify_eq; apply net_step_refl).
    destruct (t_closed (tr_t t)); [|simplify_eq; apply net_step_refl]. by eapply (finish_step _ n (close_stream s n)).
  - unfold do_force_close. destruct (n_transports n !! x) as [t|]; [|apply net_step_refl].
    destruct (reader b t), (t_closed (tr_t t)); try apply net_step_refl;
      apply net_step_same; try done; exists []; by rewrite app_nil_r.
  - unfold do_close. destruct (n_transports n !! x) as [t|] eqn:Hx.
    + eapply (net_step_one _ n _ x t); [done|by apply alter_as_insert|..]; try done. by left.
    + rewrite alter_missing by done. apply net_step_same; try done. exists []. by rewrite app_nil_r.
  - unfold do_control. destruct (n_transports n !! x) as [t|] eqn:Hx; [|apply net_step_refl].
    destruct (recv (tr_controlCh t)) as [m c| |]; try apply net_step_refl.
    eapply (net_step_one _ n _ x t (set_controlCh c t)); try done. by left.
Qed.

(** ** Properties *)

Lemma NoDup_fmap_same {A B} (f : A -> B) (l : list A) a b : NoDup (f <$> l) -> a ∈ l -> b ∈ l -> f a = f b -> a = b.
Proof.
  intros Hnd (i & Hi)%list_elem_of_lookup (j & Hj)%list_elem_of_lookup Hf.
  assert (i = j) as ->; [|congruence].
  apply (NoDup_lookup (f <$> l) i j (f a)); [done|by rewrite list_lookup_fmap, Hi|].
  by rewrite list_lookup_fmap, Hj, Hf.
Qed.

Lemma NoDup_filter_snd (l : list (nat * nat)) loc : NoDup l.*2 -> NoDup (filter (fun e => e.1 = loc) l).*2.
Proof. intros H. eapply sublist_NoDup; [exact H|]. apply fmap_sublist, sublist_filter. Qed.

(** A stream reaches one reader only. *)
Lemma taken_once n loc loc' s r r' : ninv n ->
  (loc, s, r) ∈ n_taken n -> (loc', s, r') ∈ n_taken n -> r = r'.
Proof.
  intros Hn Ht Ht'. destruct r as [x b], r' as [x' b'].
  destruct (ni_taken _ Hn _ _ _ _ Ht) as [Hs (t & _ & Hl)], (ni_taken _ Hn _ _ _ _ Ht') as [Hs' _].
  pose proof (ni_once _ Hn) as Hnd. rewrite fmap_app in Hnd. apply NoDup_app in Hnd as (_ & _ & Hnd).
  assert ((loc, s) = (loc', s)) as [= <-] by (by eapply NoDup_fmap_same).
  apply (ni_reg _ Hn) in Hl. rewrite (ni_next _ Hn) in Hl. apply lookup_lt_is_Some_2 in Hl as [c Hc].
  pose proof (NoDup_filter_snd _ loc Hnd) as Hd. change (NoDup (deposited n loc)) in Hd.
  rewrite (ni_fifo _ Hn _ _ Hc) in Hd. apply NoDup_app in Hd as (Hd & _). unfold taken in Hd.
  rewrite <- list_fmap_compose in Hd.
  assert ((loc, s, (x, b)) = (loc, s, (x', b'))) as [= -> ->]; [|done].
  eapply (NoDup_fmap_same (snd ∘ fst)); [exact Hd| | |done]; by apply list_elem_of_filter.
Qed.


(** The reader of [b] of transport [x] is the only one waiting for the streams
    of [h] and [q], and what was taken since [n0] was taken by it. *)
Definition sole (h : nat) (q : string) (loc x : nat) (b : bool) (n0 n : Net) : Prop :=
  (∀ y t b', n_transports n !! y = Some t -> reader b' t = RWait loc -> y = x ∧ b' = b) ∧
  reg_lookup (n_reg n) h (proto_of b) q = Some loc ∧
  (∃ d, n_sent n = n_sent n0 ++ d) ∧
  ∃ d, n_taken n = n_taken n0 ++ d ∧ ∀ l s r, (l, s, r) ∈ d -> l = loc -> r = (x, b).

Lemma sole_run h q loc x b n0 os : ∀ n n', ninv n -> TNew h q ∉ os -> sole h q loc x b n0 n ->
  net_run os n = Some n' -> sole h q loc x b n0 n'.
Proof.
  induction os as [|o os IH]; intros n n' Hn Hno Hs Hr; [by injection Hr as ->|].
  apply not_elem_of_cons in Hno as [Hno Hos]. cbn in Hr.
  destruct (net_do_ok o n Hn) as (n1 & Hd & Hn1). rewrite Hd in Hr. cbn in Hr.
  apply (IH n1 n' Hn1 Hos); [|done]. destruct Hs as (Hw & Hl & (d & Hsent) & d' & Htk & Hby).
  destruct (net_do_step o n n1 Hn Hd) as [Ht [e He] (e' & He' & Hfrom) Hreg].
  split; [|split; [by apply Hreg|]; split; [exists (d ++ e); by rewrite He, Hsent, app_assoc|]].
  - intros y t b' Hy Hwt. destruct (Ht y t Hy) as [(t0 & Hy0 & _ & _ & Hw0)|Hnew]; [by eapply Hw; [|apply Hw0]|].
    destruct (ni_wait _ Hn1 y t b' loc Hy Hwt) as (t1 & Hy1 & Hl1). assert (t1 = t) as -> by congruence.
    destruct (ni_reg _ Hn1) as [_ Hinj]. destruct (Hinj _ _ _ _ _ _ _ Hl1 (Hreg _ _ _ _ Hl)) as (<- & _ & <-).
    by destruct Hno.
  - exists (d' ++ e'). split; [by rewrite He', Htk, app_assoc|].
    intros l s [y b'] [Hin|Hin]%elem_of_app Hloc; [by eapply Hby|]. subst l.
    destruct (Hfrom _ _ _ _ Hin) as (t & Hy & Hwt). by destruct (Hw y t b' Hy Hwt) as [-> ->].
Qed.

Lemma net_run_app os1 os2 n : net_run (os1 ++ os2) n = net_run os1 n ≫= net_run os2.
Proof. revert n. induction os1 as [|o os1 IH]; intros n; [done|]. cbn. destruct (net_do o n); [apply IH|done]. Qed.

(** A fresh transport waits at the two channels of its peer. *)
Lemma do_new_readers h q n b : ninv n ->
  let n1 := do_new h q n in
  ∃ t loc, n_transports n1 !! length (n_transports n) = Some t ∧ reader b t = RWait loc ∧
    reg_lookup (n_reg n1) h (proto_of b) q = Some loc ∧ n_sent n1 = n_sent n ∧ n_taken n1 = n_taken n ∧
    (∀ y t', n_transports n1 !! y = Some t' -> n_transports n !! y = Some t' ∨ y = length (n_transports n) ∧ t' = t) ∧
    (∀ b', b' ≠ b -> reader b' t ≠ RWait loc).
Proof.
  intros Hn. pose proof (do_new_ok h q n Hn) as Hn1. unfold do_new in *.
  pose proof (lookup_chan_ok h AudioControlProtocol q n Hn) as H.
  destruct (lookup_chan h AudioControlProtocol q n) as [m1 lc]. cbn in H.
  destruct H as (Hm1 & _ & Hrc & _ & _ & _ & Ht1 & _ & _ & Hs1 & Hk1).
  pose proof (lookup_chan_ok h AudioMediaProtocol q m1 Hm1) as H.
  destruct (lookup_chan h AudioMediaProtocol q m1) as [m2 lm]. cbn in H.
  destruct H as (_ & _ & Hrm & _ & Hmono & _ & Ht2 & _ & _ & Hs2 & Hk2). apply Hmono in Hrc.
  assert (lc ≠ lm) as Hne.
  { intros ->. destruct (ni_reg _ Hn1) as [_ Hinj]. destruct (Hinj _ _ _ _ _ _ _ Hrc Hrm) as (_ & Hp & _). discriminate Hp. }
  cbn. rewrite Ht2, Ht1, Hs2, Hs1, Hk2, Hk1.
  eexists _, (if b then lm else lc). split; [by apply list_lookup_middle|]. split; [by destruct b|].
  split; [by destruct b|]. split; [done|]. split; [done|]. split.
  - intros y t' [Hy|[Hge Hy]]%lookup_app_Some; [by left|right].
    apply list_lookup_singleton_Some in Hy as [Hy <-]. split; [lia|done].
  - intros b' Hb. destruct b, b'; cbn; try done; congruence.
Qed.

(** The transport of a call reads the oldest stream nobody has taken. When
    no other transport waits for the peer's streams and none is made for the
    peer until then, the stream a new transport takes is the one that was left
    over in the channel the longest, from a call whose audio did not start or
    ended first, and only if there is none the first the peer opens from now
    on. *)
Theorem transport_reads_oldest os h q b os' n n' loc c :
  net_run os net_init = Some n ->
  let x := length (n_transports n) in let n1 := do_new h q n in
  reg_lookup (n_reg n1) h (proto_of b) q = Some loc -> n_chans n1 !! loc = Some c ->
  (∀ y t b', n_transports n !! y = Some t -> reader b' t ≠ RWait loc) ->
  TNew h q ∉ os' -> net_run os' n1 = Some n' ->
  ∃ later, deposited n' loc = deposited n1 loc ++ later ∧
    ∀ s, (loc, s, (x, b)) ∈ n_taken n' -> head (ch_buf c ++ later) = Some s.
Proof.
  intros Hr x n1 Hl Hc Hnone Hos Hr'. destruct (net_run_ok os net_init net_init_ok) as (n0 & Hr0 & Hn).
  assert (n0 = n) as -> by congruence. pose proof (do_new_ok h q n Hn) as Hn1. fold n1 in Hn1.
  destruct (do_new_readers h q n b Hn) as (t & loc' & Hx & Hrd & Hl' & Hs & Hk & Hget & Hother).
  fold n1 in Hx, Hl', Hs, Hk, Hget.
  assert (loc' = loc) as -> by congruence.
  assert (sole h q loc x b n1 n1) as Hsole.
  { split; [|split; [done|]; split; [exists []; by rewrite app_nil_r|]].
    - intros y t' b' Hy Hw. destruct (Hget y t' Hy) as [Hy'|[-> ->]]; [by destruct (Hnone y t' b')|]. split; [done|].
      destruct (decide (b' = b)) as [|Hb]; [done|]. by destruct (Hother b' Hb).
    - exists []. rewrite app_nil_r. split; [done|]. intros l s r Hin. by apply elem_of_nil in Hin. }
  destruct (sole_run h q loc x b n1 os' n1 n' Hn1 Hos Hsole Hr') as (_ & Hl2 & (d & Hd) & e & He & Hby).
  destruct (net_run_ok os' n1 Hn1) as (n2 & Hr2 & Hn'). assert (n2 = n') as -> by congruence.
  exists ((filter (fun e => e.1 = loc) d).*2). split; [unfold deposited; by rewrite Hd, filter_app, fmap_app|].
  intros s Hin. apply (ni_reg _ Hn') in Hl2. rewrite (ni_next _ Hn') in Hl2.
  apply lookup_lt_is_Some_2 in Hl2 as [c' Hc']. pose proof (ni_fifo _ Hn' _ _ Hc') as Hf.
  pose proof (ni_fifo _ Hn1 _ _ Hc) as Hf1. unfold deposited, taken in Hf, Hf1.
  rewrite Hd, He, !filter_app, !fmap_app, Hf1, <- !app_assoc in Hf. apply app_inv_head in Hf.
  rewrite Hf. rewrite He in Hin. apply elem_of_app in Hin as [Hin|Hin].
  { rewrite Hk in Hin. destruct (ni_taken _ Hn _ _ _ _ Hin) as [_ (t0 & Ht0 & _)]. apply lookup_lt_Some in Ht0. lia. }
  apply list_elem_of_split in Hin as (e1 & e2 & ->).
  assert (filter (fun e : nat * nat * (nat * bool) => e.1.1 = loc) e1 = []) as He1.
  { apply filter_none, Forall_forall. intros [[l s'] r] Hin Heq. cbn in Heq. subst l.
    assert (r = (x, b)) as -> by (eapply Hby; [apply elem_of_app; by left|done]).
    pose proof (ni_readers _ Hn') as Hnd. rewrite He, !fmap_app in Hnd. cbn in Hnd.
    apply NoDup_app in Hnd as (_ & _ & Hnd). apply NoDup_app in Hnd as (_ & Hd' & _).
    apply (Hd' (x, b)); [|by left]. apply list_elem_of_fmap. by exists (loc, s', (x, b)). }
  rewrite filter_app, He1, filter_cons_True by done. done.
Qed.

(** ** Witness: a stream left over from one call silences the next

    Bob's media stream of a first call arrives while our audio has not started;
    in the second call our reader takes it, finds it ended and returns, and the
    frames of the second call are never read. *)

Definition demo_first : list top :=
  [TArrive 0 AudioMediaProtocol "bob"; THandlerSend 0; TPeer 0 PEof].
Definition demo_second : list top :=
  [TArrive 0 AudioMediaProtocol "bob"; THandlerSend 0; TTake 0 true; TRead 0 true false; TPeer 1 (PFrame [7]%Z)].
Definition demo_net1 : Net := default net_init (net_run demo_first net_init).
Definition demo_net2 : Net := default net_init (net_run demo_second (do_new 0 "bob" demo_net1)).

Lemma transport_reads_oldest_witness :
  (∃ later, later = [1] ∧ head ([0] ++ later) = Some 0) ∧
  (tr_media <$> n_transports demo_net2 !! 0) = Some RDone ∧
  (st_frames <$> n_streams demo_net2 !! 1) = Some [[7]%Z].
Proof.
  split; [|split; vm_compute; reflexivity].
  destruct (transport_reads_oldest demo_first 0 "bob" true demo_second demo_net1 demo_net2 0 (mkChan 8 [0] false))
    as (later & Hd & Hh).
  - vm_compute. reflexivity.
  - vm_compute. reflexivity.
  - vm_compute. reflexivity.
  - intros y t b' Hy. vm_compute in Hy. discriminate Hy.
  - unfold demo_second. rewrite !not_elem_of_cons. repeat split; try discriminate. apply not_elem_of_nil.
  - vm_compute. reflexivity.
  - exists later. vm_compute in Hd. injection Hd as <-. split; [reflexivity|].
    apply (Hh 0). apply list_elem_of_here.
Defined.
