(* ===== verification/CallPipe.v ===== *)
(** * Following a call over IPC ([internal/ipc/methods/calls.go], [pipeStateChanges])

    [calls.start] and [calls.attach] subscribe to the session, emit its current
    state as a first event and then forward the session's events from a
    goroutine. [pipe_step] interleaves that code with everything that may happen
    to the session ([CallSession.sys_step]) and with the end of the connection.
    The subscription's channel is private to the goroutine, which is the
    condition [private] on the other steps. *)
From S2P Require Import Prelude GoChan CallSession.
#[local] Open Scope list_scope.

(** Where [pipeStateChanges] stands; [current] is the state of the first event. *)
Inductive PipePC :=
| PpStart
| PpSubscribed (id l : nat)
| PpLoop (id l : nat) (current : string) (first : bool)
| PpExit (id : nat)
| PpReturned.

Record Pipe := mkPipe {
  pp_sys : Sys;
  pp_pc : PipePC;
  pp_done : bool;                   (* conn.Done() is closed *)
  pp_out : list StateChange }.      (* the events written on the connection *)

Definition sess (p : Pipe) : Session := sys_sess (pp_sys p).
Definition set_sess (s : Session) (p : Pipe) : Pipe :=
  mkPipe (mkSys s (sys_pending (pp_sys p))) (pp_pc p) (pp_done p) (pp_out p).
Definition set_pc (pc : PipePC) (p : Pipe) : Pipe := mkPipe (pp_sys p) pc (pp_done p) (pp_out p).

(** [conn.EmitEvent]: nothing is written once the connection is done. *)
Definition emit (ev : StateChange) (p : Pipe) : Pipe :=
  mkPipe (pp_sys p) (pp_pc p) (pp_done p) (if pp_done p then pp_out p else pp_out p ++ [ev]).

Definition ended : string := State_String StateEnded.

(** The synthetic event. *)
Definition snapshot (now : Z) (s : Session) : StateChange := state_change s (s_state s) now "".

Definition pipe_subscribe (p : Pipe) : Pipe :=
  match pp_pc p with
  | PpStart => let '(s, id, l) := Subscribe (sess p) in set_pc (PpSubscribed id l) (set_sess s p)
  | _ => p
  end.

Definition pipe_snapshot (now : Z) (p : Pipe) : Pipe :=
  match pp_pc p with
  | PpSubscribed id l =>
      let current := snapshot now (sess p) in
      set_pc (if decide (ev_State current = ended) then PpExit id else PpLoop id l (ev_State current) true)
        (emit current p)
  | _ => p
  end.

(** An event arrives: a first event in the state just emitted is dropped. *)
Definition pipe_event (ev : StateChange) (p : Pipe) : Pipe :=
  match pp_pc p with
  | PpLoop id l current first =>
      if decide (first = true ∧ ev_State ev = current) then set_pc (PpLoop id l current false) p
      else set_pc (if decide (ev_State ev = ended) then PpExit id else PpLoop id l current false) (emit ev p)
  | _ => p
  end.

Definition pipe_recv (p : Pipe) : Pipe :=
  match pp_pc p with
  | PpLoop _ l _ _ =>
      match session_recv l (sess p) with
      | Some (ev, s) => pipe_event ev (set_sess s p)
      | None => p
      end
  | _ => p
  end.

Definition pipe_quit (p : Pipe) : Pipe :=
  match pp_pc p with
  | PpLoop id _ _ _ => if pp_done p then set_pc (PpExit id) p else p
  | _ => p
  end.

(** The deferred [Unsubscribe]; [None] is a panic. *)
Definition pipe_unsubscribe (p : Pipe) : option Pipe :=
  match pp_pc p with
  | PpExit id => s ← Unsubscribe id (sess p); Some (set_pc PpReturned (set_sess s p))
  | _ => Some p
  end.

Inductive pop := PSubscribe | PSnapshot (now : Z) | PRecv | PQuit | PUnsubscribe.

Definition pipe_do (o : pop) (p : Pipe) : option Pipe :=
  match o with
  | PSubscribe => Some (pipe_subscribe p)
  | PSnapshot now => Some (pipe_snapshot now p)
  | PRecv => Some (pipe_recv p)
  | PQuit => Some (pipe_quit p)
  | PUnsubscribe => pipe_unsubscribe p
  end.

Fixpoint pipe_run (os : list pop) (p : Pipe) : option Pipe :=
  match os with
  | [] => Some p
  | o :: os => p ← pipe_do o p; pipe_run os p
  end.

(** Nobody else reads the subscription's channel or gives the subscription up. *)
Definition private (p : Pipe) (y : Sys) : Prop :=
  match pp_pc p with
  | PpSubscribed id l | PpLoop id l _ _ =>
      subs (s_hub (sys_sess y)) !! id = Some l ∧
      ∀ c c', heap (s_hub (sess p)) !! l = Some c -> heap (s_hub (sys_sess y)) !! l = Some c' ->
        length (ch_buf c) <= length (ch_buf c')
  | _ => True
  end.

Inductive pipe_step : Pipe -> Pipe -> Prop :=
| pst_own o p p' : pipe_do o p = Some p' -> pipe_step p p'
| pst_session y p : sys_step (pp_sys p) y -> private p y ->
    pipe_step p (mkPipe y (pp_pc p) (pp_done p) (pp_out p))
| pst_done p : pipe_step p (mkPipe (pp_sys p) (pp_pc p) true (pp_out p)).

Definition pipe_init (y : Sys) : Pipe := mkPipe y PpStart false [].

(** ** Invariant *)

Definition sbuf (y : Sys) (l : nat) : list StateChange :=
  default [] (ch_buf <$> heap (s_hub (sys_sess y)) !! l).

Definition told (p : Pipe) : Prop :=
  pp_done p = true ∨ ∃ ev, last (pp_out p) = Some ev ∧ ev_State ev = ended.

(** In the loop the end of a call is emitted or still to come. *)
Definition pc_inv (p : Pipe) : Prop :=
  match pp_pc p with
  | PpStart => pp_out p = []
  | PpSubscribed id l => pp_out p = [] ∧ subs (s_hub (sess p)) !! id = Some l
  | PpLoop id l current first =>
      subs (s_hub (sess p)) !! id = Some l ∧ (pp_done p = true ∨ pp_out p ≠ []) ∧
      events_ok (sess p) (tail (pp_out p) ++ sbuf (pp_sys p) l ++ sys_pending (pp_sys p)) ∧
      (s_state (sess p) = StateEnded ->
       ∃ ev, ev ∈ sbuf (pp_sys p) l ++ sys_pending (pp_sys p) ∧ ev_State ev = ended) ∧ current ≠ ended
  | PpExit _ | PpReturned => NoDup (ev_State <$> tail (pp_out p)) ∧ told p
  end.

Definition pipe_inv (p : Pipe) : Prop := sys_ok (pp_sys p) ∧ pc_inv p.

(** A step of the session as the subscriber sees it: its buffer and the events
    still to be broadcast lose nothing and stay consistent with the state. *)
Definition seen (y y' : Sys) (l : nat) : Prop :=
  (∀ rest, events_ok (sys_sess y) (rest ++ sbuf y l ++ sys_pending y) ->
           events_ok (sys_sess y') (rest ++ sbuf y' l ++ sys_pending y')) ∧
  (∀ ev, ev ∈ sbuf y l ++ sys_pending y -> ev ∈ sbuf y' l ++ sys_pending y') ∧
  (s_state (sys_sess y') = StateEnded ->
   s_state (sys_sess y) = StateEnded ∨ ∃ ev, ev ∈ sys_pending y' ∧ ev_State ev = ended).

Lemma seen_commit s st now reason r p l : state_num (s_state s) < state_num st ->
  (st = StateEnded -> ev_State (state_change s st now reason) = ended) ->
  seen (mkSys s p) (mkSys (set_state st r s) (state_change s st now reason :: p)) l.
Proof.
  intros Hlt Hst. split; [|split].
  - intros rest He. cbn in *. rewrite app_assoc, <- Permutation_middle, <- app_assoc.
    by apply (events_ok_cons s st now reason).
  - intros ev. cbn. rewrite !elem_of_app, elem_of_cons. naive_solver.
  - cbn. intros ->. right. exists (state_change s StateEnded now reason). split; [by left|done].
Qed.

Lemma seen_same y y' l : sbuf y' l = sbuf y l -> sys_pending y' = sys_pending y ->
  s_state (sys_sess y') = s_state (sys_sess y) -> seen y y' l.
Proof.
  intros Hb Hp Hs. unfold seen. rewrite Hb, Hp, Hs. split; [|split; [done|by left]].
  intros rest [Hnd Hall]. split; [done|]. by rewrite Hs.
Qed.

Lemma seen_broadcast s s' ev p1 p2 id l :
  sys_ok (mkSys s (p1 ++ ev :: p2)) -> broadcast ev s = Some s' -> subs (s_hub s) !! id = Some l ->
  seen (mkSys s (p1 ++ ev :: p2)) (mkSys s' (p1 ++ p2)) l.
Proof.
  intros (Hok & Hp & Hev) Hb Hid.
  destruct (broadcast_ok ev s Hok) as (s1 & Hb1 & _ & Heq & _ & Hin & _). simplify_eq. cbn in *.
  destruct (ho_open _ Hok id l Hid) as (c & Hl & _). destruct (Hev l c Hl) as [He Hcap].
  apply events_ok_length in He. rewrite !length_app in He. cbn in He.
  assert (sbuf (mkSys s' (p1 ++ p2)) l = ch_buf c ++ [ev]) as Hb'.
  { unfold sbuf. cbn. rewrite (Hin id l Hid), Hl. cbn. unfold pushed. by rewrite decide_True by lia. }
  assert (sbuf (mkSys s (p1 ++ ev :: p2)) l = ch_buf c) as Hb0 by (unfold sbuf; cbn; by rewrite Hl).
  unfold seen. rewrite Hb', Hb0. cbn. split; [|split].
  - intros rest Hr. rewrite Heq. change (events_ok s (rest ++ (ch_buf c ++ [ev]) ++ p1 ++ p2)).
    assert (rest ++ (ch_buf c ++ [ev]) ++ p1 ++ p2 ≡ₚ rest ++ ch_buf c ++ p1 ++ ev :: p2) as -> by solve_Permutation.
    done.
  - intros e. rewrite !elem_of_app, !elem_of_cons. set_solver.
  - rewrite Heq. by left.
Qed.

Lemma sbuf_other (y y' : Sys) l (l0 : nat) (c : Chan StateChange) :
  heap (s_hub (sys_sess y')) = <[l0 := c]> (heap (s_hub (sys_sess y))) -> l ≠ l0 -> sbuf y' l = sbuf y l.
Proof. intros Hh Hne. unfold sbuf. by rewrite Hh, list_lookup_insert_ne. Qed.

Lemma session_step_seen y y' id l : sys_ok y -> sys_step y y' ->
  subs (s_hub (sys_sess y)) !! id = Some l -> subs (s_hub (sys_sess y')) !! id = Some l ->
  (∀ c c', heap (s_hub (sys_sess y)) !! l = Some c -> heap (s_hub (sys_sess y')) !! l = Some c' ->
     length (ch_buf c) <= length (ch_buf c')) ->
  seen y y' l.
Proof.
  intros Hok Hs Hid Hid' Hlen. destruct (proj1 Hok) as [Hopen _ _ _].
  destruct (Hopen id l Hid) as (c & Hl & _).
  destruct Hs as [target now s s' ev p Hin Ht|reason now s s' ev p He|s s' ev p1 p2 Hb|s p|i s s' p Hu
    |l0 v s s' p Hr]; cbn in *.
  - apply transition_commit_Ok in Ht as (_ & Hn & -> & ->). apply seen_commit; [lia|]. by intros ->.
  - apply End_commit_Some in He as (Hne & -> & ->). apply seen_commit; [|done].
    destruct (s_state s); simpl; try lia. done.
  - by eapply seen_broadcast.
  - apply seen_same; try done. unfold sbuf. cbn. by rewrite lookup_app_l by (by eapply lookup_lt_Some).
  - destruct (Unsubscribe_ok i s) as (s1 & Hu1 & _ & Heq); [apply Hok|].
    assert (s1 = s') as -> by congruence. clear Hu1. apply seen_same; [|done|cbn; by rewrite Heq].
    unfold Unsubscribe, hub_unsubscribe in Hu. destruct (subs (s_hub s) !! i) as [l0|] eqn:Hi; cbn in Hu;
      [|by injection Hu as <-].
    destruct (close_at_open (heap (s_hub s)) l0) as (c0 & Hl0 & Hcl); [by eapply Hopen|].
    rewrite Hcl in Hu. cbn in Hu. injection Hu as <-. unfold sbuf. cbn. destruct (decide (l = l0)) as [->|Hne].
    + rewrite list_lookup_insert_eq by (by eapply lookup_lt_Some). by rewrite Hl0.
    + by rewrite list_lookup_insert_ne.
  - apply session_recv_Some in Hr as (c0 & buf & Hl0 & Hb & ->). apply seen_same; [|done|done].
    destruct (decide (l = l0)) as [<-|Hne]; [|by eapply sbuf_other].
    cbn in Hlen. exfalso. assert (c0 = c) as -> by congruence.
    specialize (Hlen c (mkChan (ch_cap c) buf (ch_closed c)) Hl). rewrite Hb in Hlen. cbn in Hlen.
    rewrite list_lookup_insert_eq in Hlen by (by eapply lookup_lt_Some). specialize (Hlen eq_refl). lia.
Qed.

Lemma events_ok_drop s ev evs evs' : events_ok s (evs ++ ev :: evs') -> events_ok s (evs ++ evs').
Proof. intros H. eapply events_ok_sublist; [|exact H]. apply sublist_delete_middle. Qed.

Lemma events_ok_prefix s evs evs' : events_ok s (evs ++ evs') -> NoDup (ev_State <$> evs).
Proof. intros [Hnd _]. rewrite fmap_app in Hnd. by apply NoDup_app in Hnd as (? & _). Qed.

(** What is left after an event was taken from the buffer. *)
Lemma recv_seen p l ev s : sys_ok (pp_sys p) -> session_recv l (sess p) = Some (ev, s) ->
  let y := mkSys s (sys_pending (pp_sys p)) in
  sys_ok y ∧ sbuf (pp_sys p) l = ev :: sbuf y l ∧ s_state s = s_state (sess p) ∧
  subs (s_hub s) = subs (s_hub (sess p)).
Proof.
  intros Hok Hr y. split.
  { apply (sys_ok_recv l ev (sess p) s); [|done]. unfold sess. by destruct (pp_sys p). }
  apply session_recv_Some in Hr as (c & buf & Hl & Hb & ->). unfold sbuf, y. cbn.
  change (sys_sess (pp_sys p)) with (sess p). rewrite Hl. cbn.
  by rewrite list_lookup_insert_eq, Hb by (by eapply lookup_lt_Some).
Qed.

Lemma pipe_event_inv ev id l current first p :
  pp_pc p = PpLoop id l current first -> sys_ok (pp_sys p) -> subs (s_hub (sess p)) !! id = Some l ->
  (pp_done p = true ∨ pp_out p ≠ []) -> current ≠ ended ->
  events_ok (sess p) (tail (pp_out p) ++ ev :: sbuf (pp_sys p) l ++ sys_pending (pp_sys p)) ->
  (s_state (sess p) = StateEnded ->
     ∃ e, e ∈ ev :: sbuf (pp_sys p) l ++ sys_pending (pp_sys p) ∧ ev_State e = ended) ->
  pipe_inv (pipe_event ev p).
Proof.
  intros Hpc Hok Hid Hout Hcur He Hend. unfold pipe_event. rewrite Hpc.
  destruct (decide (first = true ∧ ev_State ev = current)) as [[-> Hev]|Hnot].
  { split; [done|]. split; [done|]. split; [done|]. split; [by eapply events_ok_drop|]. split; [|done].
    intros Hs. destruct (Hend Hs) as (e & [->|Hin]%elem_of_cons & Hee); [congruence|by exists e]. }
  assert (tail (pp_out (emit ev p)) = if pp_done p then tail (pp_out p) else tail (pp_out p) ++ [ev]) as Ht.
  { cbn. destruct (pp_done p); [done|]. destruct Hout as [|Hne]; [done|]. by destruct (pp_out p). }
  assert (events_ok (sess p) (tail (pp_out (emit ev p)) ++ sbuf (pp_sys p) l ++ sys_pending (pp_sys p))) as He'.
  { rewrite Ht. destruct (pp_done p); [by eapply events_ok_drop|]. by rewrite <- app_assoc. }
  destruct (decide (ev_State ev = ended)) as [Hev|Hev].
  - split; [done|]. split; [by eapply events_ok_prefix|]. unfold told. cbn.
    destruct (pp_done p); [by left|right]. exists ev. by rewrite last_snoc.
  - split; [done|]. split; [done|]. split; [|split; [done|split; [|done]]].
    + cbn. destruct (pp_done p); [by left|right]. by destruct (pp_out p).
    + intros Hs. destruct (Hend Hs) as (e & [->|Hin]%elem_of_cons & Hee); [done|by exists e].
Qed.

Lemma pipe_own_inv o p : pipe_inv p -> ∃ p', pipe_do o p = Some p' ∧ pipe_inv p'.
Proof.
  intros [Hok Hpc]. pose proof Hpc as Hpc0. unfold pc_inv in Hpc.
  assert (pipe_inv p) as Hp by done. assert (sys_ok (mkSys (sess p) (sys_pending (pp_sys p)))) as Hok0
    by (unfold sess; by destruct (pp_sys p)).
  destruct o; cbn; try (eexists; split; [done|]).
  - unfold pipe_subscribe. destruct (pp_pc p) eqn:Hc; try done. unfold Subscribe.
    pose proof (sys_ok_subscribe _ _ Hok0) as Hok'. unfold Subscribe in Hok'.
    assert (subs (hub_subscribe 16 (s_hub (sess p))).1.1 !! (hub_subscribe 16 (s_hub (sess p))).1.2 =
      Some (hub_subscribe 16 (s_hub (sess p))).2) as Hlk by (cbn; by rewrite lookup_insert_eq).
    destruct (hub_subscribe 16 (s_hub (sess p))) as [[h id] l]. cbn in *. split; [done|]. by split.
  - unfold pipe_snapshot. destruct (pp_pc p) as [|id l| | |] eqn:Hc; try done. destruct Hpc as [Hout Hid].
    destruct (proj1 Hok) as [Hopen _ _ _]. destruct (Hopen id l Hid) as (c & Hl & _).
    destruct (decide _) as [He|He]; split; try done; unfold pc_inv; cbn; rewrite Hout.
    + destruct (pp_done p) eqn:Hd; cbn; (split; [constructor|]); [left; done|right].
      cbn. rewrite Hd, Hout. by exists (snapshot now (sess p)).
    + split; [done|]. split; [destruct (pp_done p); [by left|by right]|]. split; [|split; [|done]].
      * assert (tail (if pp_done p then [] else [] ++ [snapshot now (sess p)]) = []) as -> by by destruct (pp_done p).
        destruct Hok as (_ & _ & Hev). destruct (Hev l c Hl) as [Hb _]. cbn. unfold sbuf.
        change (sess p) with (sys_sess (pp_sys p)) in *. by rewrite Hl.
      * intros Hs. change (s_state (sess p) = StateEnded) in Hs. destruct He. unfold snapshot. cbn. by rewrite Hs.
  - unfold pipe_recv. destruct (pp_pc p) as [| |id l current first| |] eqn:Hc; try done.
    destruct Hpc as (Hid & Hout & He & Hend & Hcur).
    destruct (session_recv l (sess p)) as [[ev s]|] eqn:Hr; [|done].
    destruct (recv_seen p l ev s Hok Hr) as (Hok' & Hb & Hst & Hsub).
    rewrite Hb in He, Hend. apply (pipe_event_inv ev id l current first); try done.
    + cbn. by rewrite Hsub.
    + destruct He as [Hnd Hall]. split; [done|]. cbn. unfold sess in *. by rewrite Hst.
    + cbn. rewrite Hst. done.
  - unfold pipe_quit. destruct (pp_pc p) as [| |id l current first| |] eqn:Hc; try done.
    destruct (pp_done p) eqn:Hd; [|done]. destruct Hpc as (_ & _ & He & _). split; [done|].
    split; [by eapply events_ok_prefix|by left].
  - unfold pipe_unsubscribe. destruct (pp_pc p) as [| | |id|] eqn:Hc; try (by exists p).
    destruct (Unsubscribe_ok id (sess p)) as (s & Hu & _ & _); [apply Hok0|]. rewrite Hu. cbn.
    eexists. split; [done|]. split; [by eapply sys_ok_unsubscribe|done].
Qed.

Lemma pipe_step_inv p p' : pipe_inv p -> pipe_step p p' -> pipe_inv p'.
Proof.
  intros Hp Hs. pose proof Hp as [Hok Hpc]. destruct Hs as [o p p' Hd|y p Hs Hpr|p].
  - destruct (pipe_own_inv o p Hp) as (p1 & Hd1 & Hp1). congruence.
  - split; [by eapply sys_step_ok|]. unfold pc_inv, private in *. cbn.
    destruct (pp_pc p) as [|id l|id l current first|id|] eqn:Hc; try done.
    + by destruct Hpc as [? _], Hpr as [? _].
    + destruct Hpc as (Hid & Hout & He & Hend & Hcur), Hpr as [Hid' Hlen].
      destruct (session_step_seen (pp_sys p) y id l Hok Hs Hid Hid' Hlen) as (Hs1 & Hs2 & Hs3).
      split; [done|]. split; [done|]. split; [by apply Hs1|]. split; [|done].
      intros Hst. destruct (Hs3 Hst) as [Hold|(ev & Hin & Hev)].
      * destruct (Hend Hold) as (ev & Hin & Hev). exists ev. split; [by apply Hs2|done].
      * exists ev. split; [apply elem_of_app; by right|done].
  - split; [done|]. unfold pc_inv, told in *. cbn.
    destruct (pp_pc p); try done; destruct_and?; split_and?; auto.
Qed.

Lemma pipe_reach_inv y p : sys_ok y -> rtc pipe_step (pipe_init y) p -> pipe_inv p.
Proof.
  intros Hy Hr. assert (pipe_inv (pipe_init y)) as H0 by done. revert H0.
  induction Hr as [|p1 p2 p3 Hs _ IH]; [done|]. intros H1. by eapply IH, pipe_step_inv.
Qed.

(** ** Progress *)

Lemma exit_returns p id : pipe_inv p -> pp_pc p = PpExit id ->
  ∃ p', pipe_run [PUnsubscribe] p = Some p' ∧ pipe_inv p' ∧ pp_pc p' = PpReturned ∧ pp_done p' = pp_done p.
Proof.
  intros Hp Hc. destruct (pipe_own_inv PUnsubscribe p Hp) as (p' & Hd & Hp'). exists p'. cbn. cbn in Hd. rewrite Hd.
  split; [done|]. split; [done|]. unfold pipe_unsubscribe in Hd. rewrite Hc in Hd.
  destruct (Unsubscribe id (sess p)); cbn in Hd; [|done]. by injection Hd as <-.
Qed.

Lemma pipe_run_app os1 os2 p : pipe_run (os1 ++ os2) p = pipe_run os1 p ≫= pipe_run os2.
Proof. revert p. induction os1 as [|o os1 IH]; intros p; [done|]. cbn. destruct (pipe_do o p); [apply IH|done]. Qed.

(** The goroutine reads on until the end of the call. *)
Lemma loop_returns n : ∀ p id l current first,
  pipe_inv p -> pp_pc p = PpLoop id l current first -> length (sbuf (pp_sys p) l) <= n ->
  s_state (sess p) = StateEnded -> sys_pending (pp_sys p) = [] ->
  ∃ os p', pipe_run os p = Some p' ∧ pipe_inv p' ∧ pp_pc p' = PpReturned ∧ pp_done p' = pp_done p.
Proof.
  induction n as [|n IH]; intros p id l current first Hp Hc Hlen Hst Hpend; pose proof Hp as [Hok Hpc];
    unfold pc_inv in Hpc; rewrite Hc in Hpc; destruct Hpc as (Hid & Hout & He & Hend & Hcur);
    destruct (Hend Hst) as (e & Hin & Hee); rewrite Hpend, app_nil_r in Hin.
  { destruct (sbuf (pp_sys p) l); [by apply elem_of_nil in Hin|simpl in Hlen; lia]. }
  destruct (session_recv l (sess p)) as [[ev s]|] eqn:Hr; cycle 1.
  { unfold session_recv in Hr. unfold sbuf in Hin. change (sys_sess (pp_sys p)) with (sess p) in Hin.
    destruct (heap (s_hub (sess p)) !! l) as [c|]; cbn in Hin; [|by apply elem_of_nil in Hin].
    cbn in Hr. unfold recv in Hr. destruct (ch_buf c); [by apply elem_of_nil in Hin|done]. }
  destruct (recv_seen p l ev s Hok Hr) as (Hok' & Hb & Hst' & Hsub).
  destruct (pipe_own_inv PRecv p Hp) as (p1 & Hd1 & Hp1). cbn in Hd1. injection Hd1 as Hd1.
  unfold pipe_recv in Hd1. rewrite Hc, Hr in Hd1. unfold pipe_event in Hd1. cbn [pp_pc set_sess] in Hd1. rewrite Hc in Hd1.
  assert (pipe_do PRecv p = Some p1) as Hdo.
  { cbn. unfold pipe_recv. rewrite Hc, Hr. unfold pipe_event. cbn [pp_pc set_sess]. by rewrite Hc, Hd1. }
  assert (∀ f, pp_pc p1 = PpLoop id l current f -> pp_done p1 = pp_done p -> pp_sys p1 = mkSys s (sys_pending (pp_sys p)) ->
    ∃ os p', pipe_run os p = Some p' ∧ pipe_inv p' ∧ pp_pc p' = PpReturned ∧ pp_done p' = pp_done p) as Hgo.
  { intros f Hc1 Hdn Hsys. destruct (IH p1 id l current f Hp1 Hc1) as (os & p' & Hrun & ? & ? & ?).
    - rewrite Hsys. rewrite Hb in Hlen. simpl in Hlen. lia.
    - unfold sess. rewrite Hsys. cbn. by rewrite Hst'.
    - by rewrite Hsys.
    - exists (PRecv :: os), p'. cbn [pipe_run]. rewrite Hdo. cbn. split; [done|]. split; [done|]. split; [done|congruence]. }
  destruct (decide (first = true ∧ ev_State ev = current)); [by apply (Hgo false); rewrite <- Hd1|].
  destruct (decide (ev_State ev = ended)); [|by apply (Hgo false); rewrite <- Hd1].
  destruct (exit_returns p1 id Hp1) as (p2 & Hrun & ? & ? & ?); [by rewrite <- Hd1|].
  exists ([PRecv] ++ [PUnsubscribe]), p2. rewrite pipe_run_app. cbn [pipe_run]. rewrite Hdo. cbn [mbind option_bind].
  split; [done|]. split; [done|]. split; [done|]. rewrite H1. by rewrite <- Hd1.
Qed.

Lemma subscribed_returns p id l : pipe_inv p -> pp_pc p = PpSubscribed id l ->
  s_state (sess p) = StateEnded ->
  ∃ os p', pipe_run os p = Some p' ∧ pipe_inv p' ∧ pp_pc p' = PpReturned ∧ pp_done p' = pp_done p.
Proof.
  intros Hp Hc Hst. destruct (pipe_own_inv (PSnapshot 0) p Hp) as (p1 & Hd1 & Hp1).
  assert (pp_pc p1 = PpExit id ∧ pp_done p1 = pp_done p) as [Hc1 Hdn1].
  { cbn in Hd1. injection Hd1 as <-. unfold pipe_snapshot. rewrite Hc. unfold snapshot. cbn. by rewrite Hst. }
  destruct (exit_returns p1 id Hp1 Hc1) as (p2 & Hrun & ? & ? & ?).
  exists ([PSnapshot 0] ++ [PUnsubscribe]), p2. rewrite pipe_run_app. cbn [pipe_run]. rewrite Hd1. cbn [mbind option_bind].
  split; [done|]. split; [done|]. split; [done|congruence].
Qed.

Lemma pipe_returns p : pipe_inv p -> s_state (sess p) = StateEnded -> sys_pending (pp_sys p) = [] ->
  ∃ os p', pipe_run os p = Some p' ∧ pipe_inv p' ∧ pp_pc p' = PpReturned ∧ pp_done p' = pp_done p.
Proof.
  intros Hp Hst Hpend. destruct (pp_pc p) as [|id l|id l current first|id|] eqn:Hc.
  - destruct (pipe_own_inv PSubscribe p Hp) as (p1 & Hd1 & Hp1). cbn in Hd1. injection Hd1 as Hd1.
    unfold pipe_subscribe in Hd1. rewrite Hc in Hd1. destruct (Subscribe (sess p)) as [[s id] l] eqn:Hsub.
    destruct (subscribed_returns p1 id l Hp1) as (os & p' & Hrun & ? & ? & ?).
    + by rewrite <- Hd1.
    + rewrite <- Hd1. unfold Subscribe in Hsub. cbn in Hsub. by injection Hsub as <- _ _.
    + exists (PSubscribe :: os), p'. cbn [pipe_run pipe_do]. unfold pipe_subscribe. rewrite Hc, Hsub, Hd1. cbn.
      split; [done|]. split; [done|]. split; [done|]. rewrite H1. by rewrite <- Hd1.
  - by eapply subscribed_returns.
  - by eapply loop_returns.
  - destruct (exit_returns p id Hp Hc) as (p' & ? & ? & ? & ?). by exists [PUnsubscribe], p'.
  - by exists [], p.
Qed.

(** C26: a client that starts or attaches to a call is told how it ends. In every
    interleaving of the call's transitions, their broadcasts and the
    subscription, no step of the forwarding code panics; the events after the
    first are in distinct states; once the goroutine has left, the last event
    written was the end of the call, unless the connection had closed; and when
    the call has ended and its events are out, the goroutine's own steps bring
    it there. *)
Theorem attach_sees_end cid remote dir now y p :
  rtc sys_step (sys_init cid remote dir now) y -> rtc pipe_step (pipe_init y) p ->
  (∀ o, is_Some (pipe_do o p)) ∧
  (pp_pc p ≠ PpStart -> NoDup (ev_State <$> tail (pp_out p))) ∧
  ((pp_pc p = PpReturned ∨ ∃ id, pp_pc p = PpExit id) -> pp_done p = false ->
     ∃ ev, last (pp_out p) = Some ev ∧ ev_State ev = ended) ∧
  (s_state (sess p) = StateEnded -> sys_pending (pp_sys p) = [] -> pp_done p = false ->
     ∃ os p', pipe_run os p = Some p' ∧ pp_pc p' = PpReturned ∧
       ∃ ev, last (pp_out p') = Some ev ∧ ev_State ev = ended).
Proof.
  intros Hy Hr. pose proof (pipe_reach_inv y p (sys_reachable_ok _ _ _ _ _ Hy) Hr) as Hp.
  assert (∀ q, pipe_inv q -> (pp_pc q = PpReturned ∨ ∃ id, pp_pc q = PpExit id) -> pp_done q = false ->
     ∃ ev, last (pp_out q) = Some ev ∧ ev_State ev = ended) as Htold.
  { intros q [_ Hq] Hc Hd. unfold pc_inv, told in Hq. destruct Hc as [Hc|[id Hc]]; rewrite Hc in Hq;
      destruct Hq as [_ [Hd'|Hq]]; congruence || done. }
  split; [|split; [|split]].
  - intros o. destruct (pipe_own_inv o p Hp) as (p' & -> & _). by exists p'.
  - intros Hc. destruct Hp as [_ Hp]. unfold pc_inv in Hp.
    destruct (pp_pc p); [done|destruct Hp as [-> _]; constructor| |by destruct Hp..].
    destruct Hp as (_ & _ & He & _). by eapply events_ok_prefix.
  - by apply Htold.
  - intros Hst Hpend Hd. destruct (pipe_returns p Hp Hst Hpend) as (os & p' & Hrun & Hp' & Hc' & Hd').
    exists os, p'. split; [done|]. split; [done|]. apply Htold; [done|by left|congruence].
Qed.

Lemma private_in p y id l c c' :
  (pp_pc p = PpSubscribed id l ∨ pp_pc p = PpLoop id l "connected" false) ->
  subs (s_hub (sys_sess y)) !! id = Some l ->
  heap (s_hub (sess p)) !! l = Some c -> heap (s_hub (sys_sess y)) !! l = Some c' ->
  length (ch_buf c) <= length (ch_buf c') -> private p y.
Proof. unfold private. intros [-> | ->] ????; (split; [done|]); intros; by simplify_eq. Qed.

(** One step of the run below: the pipe's own, or one of the session's. *)
Ltac own o := eapply rtc_l; [eapply (pst_own o); vm_compute; reflexivity|].
Ltac session_step t :=
  eapply rtc_l; [eapply pst_session; [cbn [pp_sys]; t; vm_compute; reflexivity
    |eapply private_in; [first [by left|by right]|vm_compute; reflexivity..|vm_compute; lia]]|]; cbn [pp_pc pp_done pp_out].

(** The call connects between [Subscribe] and [State]: the events written are
    connected, connecting, connected, ended. *)
Lemma attach_sees_end_witness :
  let y := sys_init "call" "bob" Outbound 0 in
  ∃ y1 p, rtc sys_step y y1 ∧ rtc pipe_step (pipe_init y1) p ∧
    ev_State <$> pp_out p = ["connected"; "connecting"; "connected"; "ended"]%string ∧
    NoDup (ev_State <$> tail (pp_out p)).
Proof.
  intros y. set (y1 := mkSys (default (sys_sess y) (fst <$> transition StateRinging "" 1 (sys_sess y))) []).
  assert (rtc sys_step y y1) as H1.
  { eapply rtc_l; [eapply (step_transition StateRinging 1); [set_solver|vm_compute; reflexivity]|].
    eapply rtc_l; [eapply (step_broadcast _ _ _ [] []); vm_compute; reflexivity|]. apply rtc_refl. }
  assert (∃ p, rtc pipe_step (pipe_init y1) p ∧ pp_pc p = PpReturned ∧
    ev_State <$> pp_out p = ["connected"; "connecting"; "connected"; "ended"]%string) as (p & Hp & Hc & Ho).
  { eexists. split; [|].
    - own PSubscribe.
      session_step ltac:(eapply (step_transition StateConnecting 2); [set_solver|]).
      session_step ltac:(eapply (step_broadcast _ _ _ [] [])).
      session_step ltac:(eapply (step_transition StateConnected 3); [set_solver|]).
      session_step ltac:(eapply (step_broadcast _ _ _ [] [])).
      own (PSnapshot 4). own PRecv. own PRecv.
      session_step ltac:(eapply (step_end "hangup" 5)).
      session_step ltac:(eapply (step_broadcast _ _ _ [] [])).
      own PRecv. own PUnsubscribe. apply rtc_refl.
    - split; reflexivity. }
  exists y1, p. split; [done|]. split; [done|]. split; [done|].
  destruct (attach_sees_end "call" "bob" Outbound 0 y1 p H1 Hp) as (_ & Hnd & _).
  apply Hnd. by rewrite Hc.
Defined.
