(* ===== verification/IpcServer.v ===== *)
(** * The IPC server ([internal/ipc/protocol.go], [conn.go], [errors.go], [server.go])

    JSON-RPC 2.0 over newline-delimited JSON. A line is what [json.Unmarshal]
    makes of it: [None] when malformed. A handler is a function on the daemon's
    state; it may emit events on the connection before it returns. The requests
    of one connection are served one after the other by its goroutine
    ([handleConn]); [serve_step] is the accept loop with the goroutines it
    waits for. *)
From S2P Require Import Prelude GoStrings.
#[local] Open Scope list_scope.

(** ** The protocol *)

Definition JSONRPCVersion : string := "2.0".
Definition ProtocolVersion : string := "1".

Definition ErrCodeInvalidRequest : Z := -32600.
Definition ErrCodeMethodNotFound : Z := -32601.
Definition ErrCodeInvalidParams : Z := -32602.
Definition ErrCodeInternalError : Z := -32603.
Definition ErrCodeNotAuthorized : Z := -32001.
Definition ErrCodeNoSuchFriend : Z := -32002.
Definition ErrCodeNoSuchCall : Z := -32003.
Definition ErrCodeDeviceUnavailable : Z := -32004.
Definition ErrCodeDaemonNotReady : Z := -32005.

(** A raw JSON value; an omitted field is [None]. *)
Record RpcError := mkRpcError { Code : Z; ErrMessage : string; ErrData : option bytes }.

Record Message := mkMessage {
  JSONRPC : string;
  ID : option Z;
  Method : string;
  Params : option bytes;
  Result : option bytes;
  Error : option RpcError }.

Definition IsRequest (m : Message) : bool := bool_decide (Method m ≠ "") && bool_decide (is_Some (ID m)).
Definition IsNotification (m : Message) : bool := bool_decide (Method m ≠ "") && bool_decide (ID m = None).
Definition IsResponse (m : Message) : bool := bool_decide (Method m = "") && bool_decide (is_Some (ID m)).

Definition NewError (code : Z) (message : string) : RpcError := mkRpcError code message None.

Definition request (id : Z) (method : string) (params : option bytes) : Message :=
  mkMessage JSONRPCVersion (Some id) method params None None.
Definition notification (method : string) (params : option bytes) : Message :=
  mkMessage JSONRPCVersion None method params None None.

Record Event := mkEvent { Sub : string; Kind : string; Data : bytes }.

(** ** The server *)

Section server.
Context {S : Type} (marshal_hello : string -> string -> bytes) (marshal_event : Event -> bytes).

(** What a handler returns: a result, with its JSON encoding or the error of
    encoding it, or an error, which may be an [*Error]. *)
Inductive HandlerOut :=
| HResult (raw : result string bytes)
| HRpcError (e : RpcError)
| HError (message : string).

Definition Handler : Type := S -> option bytes -> S * HandlerOut * list Event.

Record Server := mkServer { daemonVersion : string; handlers : gmap string Handler }.

Definition NewServer (v : string) : Server := mkServer v ∅.

Definition Register (method : string) (h : Handler) (s : Server) : Server :=
  mkServer (daemonVersion s) (<[method := h]> (handlers s)).

(** [EmitEvent] on a connection; [data] is the marshalled value or the error of
    marshalling it, [done] holds when the connection's context is. *)
Definition event_message (ev : Event) : Message := notification "event" (Some (marshal_event ev)).

Definition EmitEvent (done : bool) (sub kind : string) (data : result string bytes) : result string Message :=
  match data with
  | Err e => Err e
  | Ok raw => if done then Err "connection closed" else Ok (event_message (mkEvent sub kind raw))
  end.

Definition respondErr (id : option Z) (e : RpcError) : Message :=
  mkMessage JSONRPCVersion id "" None None (Some e).

Definition respondOK (id : option Z) (r : result string bytes) : Message :=
  match r with
  | Err e => respondErr id (NewError ErrCodeInternalError ("marshalling result: " +:+ e))
  | Ok raw => mkMessage JSONRPCVersion id "" None (Some raw) None
  end.

(** The response to a request whose handler has returned. *)
Definition respond (id : option Z) (o : HandlerOut) : Message :=
  match o with
  | HRpcError e => respondErr id e
  | HError m => respondErr id (NewError ErrCodeInternalError m)
  | HResult r => respondOK id r
  end.

Definition method_not_found (m : string) : RpcError :=
  NewError ErrCodeMethodNotFound ("method " +:+ Quote m +:+ " not found").

(** One round of [handleConn]'s loop: what it writes. *)
Definition handle_line (s : Server) (line : option Message) (st : S) : S * list Message :=
  match line with
  | None => (st, [])
  | Some req =>
      if negb (IsRequest req) && negb (IsNotification req) then (st, [])
      else match handlers s !! Method req with
      | None =>
          (st, if IsRequest req then [respondErr (ID req) (method_not_found (Method req))] else [])
      | Some h =>
          let '(st, o, evs) := h st (Params req) in
          (st, (event_message <$> evs) ++
               (if negb (IsRequest req) then [] else [respond (ID req) o]))
      end
  end.

Definition hello (s : Server) : Message :=
  notification "hello" (Some (marshal_hello ProtocolVersion (daemonVersion s))).

Fixpoint handle_lines (s : Server) (lines : list (option Message)) (st : S) : S * list Message :=
  match lines with
  | [] => (st, [])
  | l :: lines =>
      let '(st, out) := handle_line s l st in
      let '(st, outs) := handle_lines s lines st in
      (st, out ++ outs)
  end.

(** [handleConn] on the lines read until the scanner stops; [hello_ok] when
    writing the hello succeeds. *)
Definition handleConn (hello_ok : bool) (s : Server) (lines : list (option Message)) (st : S) : S * list Message :=
  if hello_ok then let '(st, outs) := handle_lines s lines st in (st, hello s :: outs)
  else (st, []).
End server.
Arguments Handler : clear implicits.
Arguments Server : clear implicits.

(** ** [Serve]: the accept loop *)

Inductive LoopState := Accepting | Waiting | Returned (ok : bool).

Inductive ConnState := Serving | PeerClosed | Ended.

Record ServeState := mkServe {
  sv_ctx : bool;                    (* the context is cancelled *)
  sv_listener : bool;               (* the listener is open *)
  sv_loop : LoopState;
  sv_conns : list ConnState }.

Definition serve_init : ServeState := mkServe false true Accepting [].

Inductive serve_step : ServeState -> ServeState -> Prop :=
| sv_cancel l lo cs b : serve_step (mkServe b l lo cs) (mkServe true l lo cs)
| sv_watch lo cs l :                 (* the watcher closes the listener *)
    serve_step (mkServe true l lo cs) (mkServe true false lo cs)
| sv_accept c cs : serve_step (mkServe c true Accepting cs) (mkServe c true Accepting (cs ++ [Serving]))
| sv_accept_err c l cs :             (* Accept fails: the listener is closed, or another error *)
    serve_step (mkServe c l Accepting cs) (mkServe c l Waiting cs)
| sv_peer_close c l lo cs k :        (* the client ends its input: it hangs up, or its next line is over 1 MB *)
    cs !! k = Some Serving -> serve_step (mkServe c l lo cs) (mkServe c l lo (<[k := PeerClosed]> cs))
| sv_conn_end c l lo cs k :          (* the scanner stops, the goroutine returns *)
    cs !! k = Some PeerClosed -> serve_step (mkServe c l lo cs) (mkServe c l lo (<[k := Ended]> cs))
| sv_return c l cs :                 (* wg.Wait is over *)
    Forall (eq Ended) cs -> serve_step (mkServe c l Waiting cs) (mkServe c l (Returned (c || negb l)) cs).

(** ** Lemmas *)

Section server_lemmas.
Context {S : Type} (marshal_hello : string -> string -> bytes) (marshal_event : Event -> bytes).
Implicit Types (s : Server S) (st : S).

(** The response a line calls for, if any, in the state it is served in. *)
Definition answer s (line : option Message) st : option Message :=
  req ← line;
  if IsRequest req then
    match handlers s !! Method req with
    | None => Some (respondErr (ID req) (method_not_found (Method req)))
    | Some h => Some (respond (ID req) (h st (Params req)).1.2)
    end
  else None.

(** The state a line leaves. *)
Definition served s (line : option Message) st : S :=
  match line with
  | Some req =>
      if IsRequest req || IsNotification req then
        match handlers s !! Method req with Some h => (h st (Params req)).1.1 | None => st end
      else st
  | None => st
  end.

Lemma respond_is_response id o : IsResponse (respond (Some id) o) = true.
Proof.
  unfold respond, respondOK, respondErr, IsResponse.
  by destruct o as [[]| |].
Qed.

Lemma event_not_response ev : IsResponse (event_message marshal_event ev) = false.
Proof. done. Qed.

Lemma IsRequest_id m : IsRequest m = true -> ∃ id, ID m = Some id.
Proof. unfold IsRequest. intros [_ H]%andb_true_iff. by apply bool_decide_eq_true in H. Qed.

Lemma handle_line_spec s line st :
  (handle_line marshal_event s line st).1 = served s line st ∧
  filter (fun m => IsResponse m = true) (handle_line marshal_event s line st).2 =
    option_list (answer s line st).
Proof.
  unfold handle_line, served, answer. destruct line as [req|]; [|done]. simpl.
  destruct (IsRequest req) eqn:Hreq; simpl.
  - destruct (IsRequest_id req Hreq) as [id Hid]. rewrite Hid.
    destruct (handlers s !! Method req) as [h|]; [|done].
    destruct (h st (Params req)) as [[st' o] evs]. simpl. split; [done|].
    rewrite filter_app, (filter_none _ (event_message marshal_event <$> evs)).
    + rewrite filter_cons_True; [done|]. apply respond_is_response.
    + apply Forall_fmap, Forall_true. intros ev. simpl. by rewrite event_not_response.
  - destruct (IsNotification req); simpl; [|done].
    destruct (handlers s !! Method req) as [h|]; [|done].
    destruct (h st (Params req)) as [[st' o] evs]. simpl. split; [done|].
    rewrite app_nil_r. apply filter_none, Forall_fmap, Forall_true. intros ev. simpl.
    by rewrite event_not_response.
Qed.
End server_lemmas.

(** ** One connection *)

Section connection.
Context {S : Type} (marshal_hello : string -> string -> bytes) (marshal_event : Event -> bytes).
Implicit Types (s : Server S) (st : S) (lines : list (option Message)).

(** The responses the lines call for, each in the state it is served in. *)
Fixpoint answers s lines st : list Message :=
  match lines with
  | [] => []
  | l :: lines => option_list (answer s l st) ++ answers s lines (served s l st)
  end.

Definition request_ids lines : list Z :=
  omap (fun l => req ← l; if IsRequest req then ID req else None) lines.

Lemma answers_ids s lines : ∀ st, ID <$> answers s lines st = Some <$> request_ids lines.
Proof.
  induction lines as [|l lines IH]; intros st; [done|]. cbn [answers]. rewrite fmap_app, IH.
  unfold request_ids. cbn [omap list_omap]. unfold answer. destruct l as [req|]; simpl; [|done].
  destruct (IsRequest req) eqn:Hr; simpl; [|done]. destruct (IsRequest_id req Hr) as [id Hid].
  rewrite Hid. by destruct (handlers s !! Method req) as [h|]; simpl; [destruct (h st (Params req)).1.2 as [[]| |]|].
Qed.

Lemma handle_lines_spec s lines : ∀ st,
  (handle_lines marshal_event s lines st).1 = foldl (fun st l => served s l st) st lines ∧
  filter (fun m => IsResponse m = true) (handle_lines marshal_event s lines st).2 = answers s lines st.
Proof.
  induction lines as [|l lines IH]; intros st; [done|]. cbn [handle_lines foldl answers].
  destruct (handle_line_spec marshal_event s l st) as [H1 H2].
  destruct (handle_line marshal_event s l st) as [st1 out]. simpl in H1, H2. subst st1.
  destruct (IH (served s l st)) as [H3 H4].
  destruct (handle_lines marshal_event s lines (served s l st)) as [st2 outs]. simpl in *.
  by rewrite filter_app, H2, H3, H4.
Qed.

(** A connection starts with the hello and answers its requests one by one,
    in order and each exactly once, with the request's id: the handler's result
    or error in the state the earlier lines left, method-not-found when there
    is no handler, internal error when the result does not encode; malformed
    lines, responses and notifications get no answer and a line without a
    handler changes nothing. *)
Theorem handleConn_answers s lines st :
  let r := handleConn marshal_hello marshal_event true s lines st in
  r.1 = foldl (fun st l => served s l st) st lines ∧
  head r.2 = Some (hello marshal_hello s) ∧
  filter (fun m => IsResponse m = true) r.2 = answers s lines st ∧
  ID <$> filter (fun m => IsResponse m = true) r.2 = Some <$> request_ids lines ∧
  handleConn marshal_hello marshal_event false s lines st = (st, []).
Proof.
  unfold handleConn. destruct (handle_lines_spec s lines st) as [H1 H2].
  destruct (handle_lines marshal_event s lines st) as [st' outs]. cbn [fst snd head] in *.
  split; [done|]. split; [done|]. rewrite filter_cons_False by done. rewrite H2.
  split; [done|]. split; [apply answers_ids|done].
Qed.
End connection.

(** ** The accept loop *)

(** A step in which a client closes its connection. *)
Definition peer_close (y y' : ServeState) : Prop :=
  ∃ k, sv_conns y !! k = Some Serving ∧
    y' = mkServe (sv_ctx y) (sv_listener y) (sv_loop y) (<[k := PeerClosed]> (sv_conns y)).

Definition own_step (y y' : ServeState) : Prop := serve_step y y' ∧ ¬ peer_close y y'.

Definition serve_ok (y : ServeState) : Prop :=
  match sv_loop y with Returned _ => Forall (eq Ended) (sv_conns y) | _ => True end.

Lemma serve_step_ok y y' : serve_ok y -> serve_step y y' -> serve_ok y'.
Proof.
  intros Hok Hs. destruct Hs as [| | | |c l lo cs k Hk|c l lo cs k Hk|]; unfold serve_ok in *; simpl in *; try done;
    destruct lo; try done; pose proof (Forall_lookup_1 _ _ _ _ Hok Hk); done.
Qed.

Lemma own_step_serving k y y' : own_step y y' -> sv_conns y !! k = Some Serving -> sv_conns y' !! k = Some Serving.
Proof.
  intros [Hs Hn] Hk. destruct Hs as [| |c cs| |c l lo cs j Hj|c l lo cs j Hj|]; simpl in *; try done.
  - by apply lookup_app_l_Some.
  - destruct Hn. by exists j.
  - rewrite list_lookup_insert_ne; [done|]. intros ->. congruence.
Qed.

Lemma end_conns c l lo cs : ∀ before, Forall (eq Ended) before ->
  ∃ cs', Forall (eq Ended) cs' ∧ rtc serve_step (mkServe c l lo (before ++ cs)) (mkServe c l lo cs').
Proof.
  induction cs as [|x cs IH]; intros before Hb; [rewrite app_nil_r; by exists before|].
  destruct (IH (before ++ [Ended])) as (cs' & Hcs' & Hr); [by apply Forall_app_2; [|repeat constructor]|].
  exists cs'. split; [done|]. rewrite <- app_assoc in Hr. simpl in Hr.
  assert (∀ x', (before ++ x' :: cs) !! length before = Some x') as Hl by (intros; by apply list_lookup_middle).
  assert (∀ x' x'', <[length before := x'']> (before ++ x' :: cs) = before ++ x'' :: cs) as Hi.
  { intros. rewrite insert_app_r_alt, Nat.sub_diag by lia. done. }
  assert (rtc serve_step (mkServe c l lo (before ++ PeerClosed :: cs)) (mkServe c l lo (before ++ Ended :: cs))) as Hend.
  { apply rtc_once. rewrite <- (Hi PeerClosed Ended). by apply sv_conn_end. }
  destruct x.
  - eapply rtc_l; [|by etrans; [exact Hend|exact Hr]]. rewrite <- (Hi Serving PeerClosed). by apply sv_peer_close.
  - by etrans; [exact Hend|exact Hr].
  - done.
Qed.

(** [Serve] returns only when every connection it accepted has ended, and
    the server never ends one by itself: after the context is cancelled, a
    connected client that stays connected keeps [Serve] from returning for ever;
    once the clients close their ends it can return. *)
Theorem Serve_waits_for_clients y y' k :
  rtc serve_step serve_init y ->
  (∀ ok, sv_loop y = Returned ok -> Forall (eq Ended) (sv_conns y)) ∧
  (sv_conns y !! k = Some Serving -> rtc own_step y y' ->
     sv_conns y' !! k = Some Serving ∧ ∀ ok, sv_loop y' ≠ Returned ok) ∧
  (sv_ctx y = true -> ∃ y'' ok, rtc serve_step y y'' ∧ sv_loop y'' = Returned ok).
Proof.
  intros Hy.
  assert (∀ z, rtc serve_step y z -> serve_ok z) as Hall.
  { intros z Hz. assert (serve_ok serve_init) as H0 by done. revert H0.
    assert (rtc serve_step serve_init z) as Hr by (by etrans). clear -Hr.
    induction Hr; eauto using serve_step_ok. }
  pose proof (Hall y (rtc_refl _ _)) as Hok. split; [|split].
  - intros ok Hl. unfold serve_ok in Hok. by rewrite Hl in Hok.
  - intros Hk Hr. assert (rtc serve_step y y') as Hr'.
    { clear -Hr. induction Hr as [|a b c [Hs _] _ IH]; [done|]. by eapply rtc_l. }
    assert (sv_conns y' !! k = Some Serving) as Hk'.
    { clear -Hr Hk. induction Hr as [|a b c Hs _ IH]; [done|]. apply IH. by eapply own_step_serving. }
    split; [done|]. intros ok Hl. specialize (Hall y' Hr'). unfold serve_ok in Hall. rewrite Hl in Hall.
    pose proof (Forall_lookup_1 _ _ _ _ Hall Hk') as Hbad. discriminate Hbad.
  - destruct y as [c l lo cs]. simpl. intros ->.
    assert (∀ l, ∃ y'' ok, rtc serve_step (mkServe true l Waiting cs) y'' ∧ sv_loop y'' = Returned ok) as Hw.
    { intros l'. destruct (end_conns true l' Waiting cs []) as (cs' & Hcs' & Hr); [constructor|].
      exists (mkServe true l' (Returned (true || negb l')) cs'), (true || negb l').
      split; [|done]. eapply rtc_r; [exact Hr|]. by apply sv_return. }
    destruct lo as [| |ok].
    + destruct (Hw l) as (y'' & ok & Hr & Hl). exists y'', ok. split; [|done].
      eapply rtc_l; [apply sv_accept_err|exact Hr].
    + apply Hw.
    + by exists (mkServe true l (Returned ok) cs), ok.
Qed.

Lemma Serve_waits_for_clients_witness :
  ∃ y, sv_ctx y = true ∧ sv_conns y !! 0 = Some Serving ∧ (∀ ok, sv_loop y ≠ Returned ok).
Proof.
  set (y := mkServe true false Waiting [Serving]). exists y.
  assert (rtc serve_step serve_init y) as Hy.
  { eapply rtc_l; [apply (sv_accept false [])|].
    eapply rtc_l; [apply (sv_cancel true Accepting [Serving] false)|].
    eapply rtc_l; [apply (sv_watch Accepting [Serving] true)|].
    eapply rtc_l; [apply (sv_accept_err true false [Serving])|]. apply rtc_refl. }
  destruct (Serve_waits_for_clients y y 0 Hy) as (_ & Hwait & _).
  destruct (Hwait eq_refl (rtc_refl _ _)) as [Hk Hn].
  split; [reflexivity|]. split; [exact Hk|exact Hn].
Defined.
