(* ===== verification/IpcClient.v ===== *)
(** * The IPC client and a whole connection ([internal/ipc/client.go])

    [Client] with its maps of pending calls and of subscriptions, one definition
    per critical section of [Call], [Subscribe], [Subscription.Close] and
    [readLoop]. [iop] interleaves any number of concurrent calls, timeouts,
    subscribers, the read loop and its tear-down with the server of [IpcServer]
    at the other end of the two ordered byte streams, each carrying messages.
    Reply channels and event channels are locations in heaps. [None] is a panic
    (a send on or a second close of a closed channel). *)
From S2P Require Import Prelude GoStrings GoChan IpcServer.
#[local] Open Scope list_scope.

Definition maxPendingEventsPerSub : nat := 16.

Record Client := mkClient {
  c_nextID : Z;
  c_pending : option (gmap Z nat);           (* nil after the tear-down *)
  c_replies : list (Chan Message);
  c_closed : bool;
  c_subs : option (gmap string nat);
  c_pendEvs : option (gmap string (list Event));
  c_evchans : list (Chan Event) }.

(** ** [Dial]: the handshake *)

Inductive DialErr :=
| EDial | EReadingHello | EParsingHello | EExpectedHello (got : string) | EParsingParams
| EProtocolMismatch (got : string).

Definition new_client : Client := mkClient 0 (Some ∅) [] false (Some ∅) (Some ∅) [].

(** [line] is the first line, [None] when none arrives before the deadline, and
    [parse_hello] decodes [HelloParams]; the result has the daemon's version. *)
Definition Dial (parse_hello : bytes -> option (string * string)) (reachable : bool)
    (line : option (option Message)) : result DialErr (Client * string) :=
  if negb reachable then Err EDial
  else match line with
  | None => Err EReadingHello
  | Some None => Err EParsingHello
  | Some (Some m) =>
      if decide (Method m ≠ "hello") then Err (EExpectedHello (Method m))
      else match Params m ≫= parse_hello with
      | None => Err EParsingParams
      | Some (version, daemon) =>
          if decide (version ≠ ProtocolVersion) then Err (EProtocolMismatch version)
          else Ok (new_client, daemon)
      end
  end.

(** ** The critical sections *)

Definition set_pending p c := mkClient (c_nextID c) p (c_replies c) (c_closed c) (c_subs c) (c_pendEvs c) (c_evchans c).
Definition set_replies r c := mkClient (c_nextID c) (c_pending c) r (c_closed c) (c_subs c) (c_pendEvs c) (c_evchans c).
Definition set_events s p h c := mkClient (c_nextID c) (c_pending c) (c_replies c) (c_closed c) s p h.

(** [Call]: the id, the reply channel and its entry; the boolean is false when
    the client is closed. *)
Definition call_begin (c : Client) : Client * Z * nat * bool :=
  let id := (c_nextID c + 1)%Z in
  let ch := length (c_replies c) in
  let c := mkClient id (c_pending c) (c_replies c ++ [make_chan 1]) (c_closed c) (c_subs c) (c_pendEvs c)
             (c_evchans c) in
  match c_pending c with
  | None => (c, id, ch, false)
  | Some p => (set_pending (Some (<[id := ch]> p)) c, id, ch, true)
  end.

(** [delete(c.pending, id)]. *)
Definition forget (id : Z) (c : Client) : Client := set_pending (delete id <$> c_pending c) c.

(** [readLoop], a response: the entry is deleted under [mu] before the send. *)
Definition take_pending (id : Z) (c : Client) : Client * option nat :=
  match c_pending c ≫= lookup id with
  | Some ch => (forget id c, Some ch)
  | None => (c, None)
  end.

(** [readLoop], an event, under [subsMu]. *)
Definition route_event (ev : Event) (c : Client) : option Client :=
  match c_subs c ≫= lookup (Sub ev) with
  | Some l => h ← send_at (c_evchans c) l ev; Some (set_events (c_subs c) (c_pendEvs c) h c)
  | None =>
      Some (match c_pendEvs c with
            | None => c
            | Some pe =>
                let evs := default [] (pe !! Sub ev) in
                if decide (length evs < maxPendingEventsPerSub)
                then set_events (c_subs c) (Some (<[Sub ev := evs ++ [ev]]> pe)) (c_evchans c) c
                else c
            end)
  end.

Fixpoint close_all {A} (heap : list (Chan A)) (ls : list nat) : option (list (Chan A)) :=
  match ls with
  | [] => Some heap
  | l :: ls => h ← close_at heap l; close_all h ls
  end.

(** The tear-down after the scan loop. *)
Definition tear_pending (c : Client) : option Client :=
  match c_pending c with
  | None => Some c
  | Some p => h ← close_all (c_replies c) (map_to_list p).*2; Some (set_pending None (set_replies h c))
  end.

Definition tear_subs (c : Client) : option Client :=
  match c_subs c with
  | None => Some (set_events None None (c_evchans c) c)
  | Some s => h ← close_all (c_evchans c) (map_to_list s).*2; Some (set_events None None h c)
  end.

Definition close_closed (c : Client) : Client :=
  mkClient (c_nextID c) (c_pending c) (c_replies c) true (c_subs c) (c_pendEvs c) (c_evchans c).

(** [Subscribe] after its call: the channel, its entry, and the events that came first. *)
Definition subscribe_register (sid : string) (c : Client) : Client * option nat :=
  match c_subs c with
  | None => (c, None)
  | Some s =>
      let l := length (c_evchans c) in
      let buffered := default [] (c_pendEvs c ≫= lookup sid) in
      let ch := foldl (fun ch ev => pushed ev ch) (make_chan 16) buffered in
      (set_events (Some (<[sid := l]> s)) (delete sid <$> c_pendEvs c) (c_evchans c ++ [ch]) c, Some l)
  end.

(** [Subscription.Close] of a subscription not closed before. *)
Definition sub_close (sid : string) (c : Client) : option Client :=
  match c_subs c with
  | None => Some c
  | Some s =>
      match s !! sid with
      | None => Some c
      | Some l => h ← close_at (c_evchans c) l; Some (set_events (Some (delete sid s)) (c_pendEvs c) h c)
      end
  end.

(** ** A connection: client goroutines, wires, server *)

Inductive CallRes :=
| CROk (result : option bytes)
| CRRpc (e : RpcError)
| CRSending
| CRCtx
| CRClosedDuring
| CRConnClosed
| CRClientClosed.

Inductive CallPC := CWriting | CWaiting | CDone (r : CallRes).

Record CallSt := mkCall {
  cl_id : Z; cl_ch : nat; cl_method : string; cl_params : option bytes; cl_pc : CallPC }.

Record SubSt := mkSub { ss_id : string; ss_ch : nat; ss_open : bool; ss_got : list Event }.

Inductive ReadPC :=
| RlReading | RlHolding (ch : nat) (m : Message) | RlTearPending | RlTearSubs | RlClosing | RlDone.

Section system.
Context {S : Type} (marshal_event : Event -> bytes) (unmarshal_event : bytes -> option Event).
Context (parse_sub : option bytes -> string) (srv : Server S).

(** A request the server has answered: the request, the state it was served in
    and the response. *)
Record Served := mkServed { sd_req : Message; sd_st : S; sd_resp : Message }.

Record Sys := mkSys {
  y_c : Client;
  y_calls : list CallSt;
  y_subs : list SubSt;
  y_rl : ReadPC;
  y_c2s : list Message;
  y_s2c : list Message;
  y_st : S;
  y_log : list Served;
  y_emitted : list Event;       (* events written by the server, in order *)
  y_routed : list Event }.      (* events the read loop has handled, in order *)

Definition sys_init (st : S) : Sys := mkSys new_client [] [] RlReading [] [] st [] [] [].

Definition set_c c y := mkSys c (y_calls y) (y_subs y) (y_rl y) (y_c2s y) (y_s2c y) (y_st y) (y_log y) (y_emitted y) (y_routed y).
Definition set_calls x y := mkSys (y_c y) x (y_subs y) (y_rl y) (y_c2s y) (y_s2c y) (y_st y) (y_log y) (y_emitted y) (y_routed y).
Definition set_subs x y := mkSys (y_c y) (y_calls y) x (y_rl y) (y_c2s y) (y_s2c y) (y_st y) (y_log y) (y_emitted y) (y_routed y).
Definition set_rl x y := mkSys (y_c y) (y_calls y) (y_subs y) x (y_c2s y) (y_s2c y) (y_st y) (y_log y) (y_emitted y) (y_routed y).
Definition set_c2s x y := mkSys (y_c y) (y_calls y) (y_subs y) (y_rl y) x (y_s2c y) (y_st y) (y_log y) (y_emitted y) (y_routed y).
Definition set_s2c x y := mkSys (y_c y) (y_calls y) (y_subs y) (y_rl y) (y_c2s y) x (y_st y) (y_log y) (y_emitted y) (y_routed y).

Definition set_pc (pc : CallPC) (cl : CallSt) : CallSt :=
  mkCall (cl_id cl) (cl_ch cl) (cl_method cl) (cl_params cl) pc.

Definition finish (i : nat) (r : CallRes) (y : Sys) : Sys :=
  set_calls (alter (set_pc (CDone r)) i (y_calls y)) y.

(** What [Call] returns for the message it received. *)
Definition reply_result (m : Message) : CallRes :=
  match Error m with Some e => CRRpc e | None => CROk (Result m) end.

Inductive iop :=
| ICall (method : string) (params : option bytes)
| IWrite (i : nat) (ok : bool)
| IReply (i : nat)
| ICtx (i : nat)
| IClosed (i : nat)
| IRead
| IDeliver
| IBreak
| ITear
| ISubscribe (i : nat)
| ISubClose (j : nat)
| IEvent (j : nat)
| IServe
| IEmit (ev : Event).

(** The calls. *)
Definition do_call (method : string) (params : option bytes) (y : Sys) : Sys :=
  let '(c, id, ch, ok) := call_begin (y_c y) in
  set_c c (set_calls (y_calls y ++
    [mkCall id ch method params (if (ok : bool) then CWriting else CDone CRClientClosed)]) y).

Definition do_write (i : nat) (ok : bool) (y : Sys) : Sys :=
  match y_calls y !! i with
  | Some (mkCall id ch method params CWriting) =>
      if ok then
        set_c2s (y_c2s y ++ [request id method params])
          (set_calls (alter (set_pc CWaiting) i (y_calls y)) y)
      else finish i CRSending (set_c (forget id (y_c y)) y)
  | _ => y
  end.

(** The three cases of [Call]'s select. *)
Definition do_ctx (i : nat) (y : Sys) : Sys :=
  match y_calls y !! i with
  | Some (mkCall id _ _ _ CWaiting) => finish i CRCtx (set_c (forget id (y_c y)) y)
  | _ => y
  end.

Definition do_closed (i : nat) (y : Sys) : Sys :=
  match y_calls y !! i with
  | Some (mkCall _ _ _ _ CWaiting) => if c_closed (y_c y) then finish i CRClosedDuring y else y
  | _ => y
  end.

Definition do_reply (i : nat) (y : Sys) : Sys :=
  match y_calls y !! i with
  | Some (mkCall _ ch _ _ CWaiting) =>
      match recv <$> c_replies (y_c y) !! ch with
      | Some (RecvValue m r) =>
          finish i (reply_result m) (set_c (set_replies (<[ch := r]> (c_replies (y_c y))) (y_c y)) y)
      | Some RecvClosed => finish i CRConnClosed y
      | _ => y
      end
  | _ => y
  end.

(** The read loop. *)
Definition routed (ev : Event) (c : Client) (y : Sys) : Sys :=
  mkSys c (y_calls y) (y_subs y) (y_rl y) (y_c2s y) (y_s2c y) (y_st y) (y_log y) (y_emitted y)
    (y_routed y ++ [ev]).

Definition read_message (m : Message) (y : Sys) : option Sys :=
  if IsResponse m then
    match ID m with
    | Some id =>
        let '(c, ch) := take_pending id (y_c y) in
        Some (set_c c (match ch with Some ch => set_rl (RlHolding ch m) y | None => y end))
    | None => Some y
    end
  else if IsNotification m && bool_decide (Method m = "event") then
    match Params m ≫= unmarshal_event with
    | None => Some y
    | Some ev => c ← route_event ev (y_c y); Some (routed ev c y)
    end
  else Some y.

Definition do_read (y : Sys) : option Sys :=
  match y_rl y, y_s2c y with
  | RlReading, m :: s2c => read_message m (set_s2c s2c y)
  | _, _ => Some y
  end.

(** The blocking send on the reply channel: nothing happens while it is full. *)
Definition do_deliver (y : Sys) : option Sys :=
  match y_rl y with
  | RlHolding ch m =>
      c ← c_replies (y_c y) !! ch;
      if ch_closed c then None
      else if decide (length (ch_buf c) < ch_cap c)
      then Some (set_rl RlReading (set_c (set_replies (<[ch := pushed m c]> (c_replies (y_c y))) (y_c y)) y))
      else Some y
  | _ => Some y
  end.

Definition do_tear (y : Sys) : option Sys :=
  match y_rl y with
  | RlTearPending => c ← tear_pending (y_c y); Some (set_rl RlTearSubs (set_c c y))
  | RlTearSubs => c ← tear_subs (y_c y); Some (set_rl RlClosing (set_c c y))
  | RlClosing => Some (set_rl RlDone (set_c (close_closed (y_c y)) y))
  | _ => Some y
  end.

(** The subscriptions. *)
Definition do_subscribe (i : nat) (y : Sys) : Sys :=
  match y_calls y !! i with
  | Some (mkCall _ _ _ _ (CDone (CROk raw))) =>
      let sid := parse_sub raw in
      if decide (sid = "") then y
      else match subscribe_register sid (y_c y) with
           | (c, Some l) => set_c c (set_subs (y_subs y ++ [mkSub sid l true []]) y)
           | (c, None) => set_c c y
           end
  | _ => y
  end.

Definition do_sub_close (j : nat) (y : Sys) : option Sys :=
  match y_subs y !! j with
  | Some (mkSub sid l true got) =>
      c ← sub_close sid (y_c y);
      Some (set_c c (set_subs (<[j := mkSub sid l false got]> (y_subs y)) y))
  | _ => Some y
  end.

Definition do_event (j : nat) (y : Sys) : Sys :=
  match y_subs y !! j with
  | Some (mkSub sid l op got) =>
      match recv <$> c_evchans (y_c y) !! l with
      | Some (RecvValue ev ch) =>
          set_c (set_events (c_subs (y_c y)) (c_pendEvs (y_c y)) (<[l := ch]> (c_evchans (y_c y))) (y_c y))
            (set_subs (<[j := mkSub sid l op (got ++ [ev])]> (y_subs y)) y)
      | _ => y
      end
  | None => y
  end.

(** The server: it serves the next request, and its emitters write events. *)
Definition events_of (out : list Message) : list Event :=
  omap (fun m => if IsNotification m && bool_decide (Method m = "event")
                 then Params m ≫= unmarshal_event else None) out.

Definition do_serve (y : Sys) : Sys :=
  match y_c2s y with
  | [] => y
  | req :: c2s =>
      let '(st, out) := handle_line marshal_event srv (Some req) (y_st y) in
      mkSys (y_c y) (y_calls y) (y_subs y) (y_rl y) c2s (y_s2c y ++ out) st
        (y_log y ++ match answer srv (Some req) (y_st y) with
                    | Some resp => [mkServed req (y_st y) resp]
                    | None => []
                    end)
        (y_emitted y ++ events_of out) (y_routed y)
  end.

Definition do_emit (ev : Event) (y : Sys) : Sys :=
  mkSys (y_c y) (y_calls y) (y_subs y) (y_rl y) (y_c2s y) (y_s2c y ++ [event_message marshal_event ev])
    (y_st y) (y_log y) (y_emitted y ++ [ev]) (y_routed y).

Definition sys_do (o : iop) (y : Sys) : option Sys :=
  match o with
  | ICall method params => Some (do_call method params y)
  | IWrite i ok => Some (do_write i ok y)
  | IReply i => Some (do_reply i y)
  | ICtx i => Some (do_ctx i y)
  | IClosed i => Some (do_closed i y)
  | IRead => do_read y
  | IDeliver => do_deliver y
  | IBreak => Some (match y_rl y with RlReading => set_rl RlTearPending y | _ => y end)
  | ITear => do_tear y
  | ISubscribe i => Some (do_subscribe i y)
  | ISubClose j => do_sub_close j y
  | IEvent j => Some (do_event j y)
  | IServe => Some (do_serve y)
  | IEmit ev => Some (do_emit ev y)
  end.

Fixpoint sys_run (os : list iop) (y : Sys) : option Sys :=
  match os with
  | [] => Some y
  | o :: os => y ← sys_do o y; sys_run os y
  end.
End system.

(** ** Channels: lemmas *)

Definition closed_of {A} (c : Chan A) : Chan A := mkChan (ch_cap c) (ch_buf c) true.

Lemma close_all_spec {A} ls : ∀ heap : list (Chan A),
  NoDup ls -> (∀ l, l ∈ ls -> open_at heap l) ->
  ∃ h, close_all heap ls = Some h ∧ length h = length heap ∧
    (∀ l, l ∈ ls -> h !! l = closed_of <$> heap !! l) ∧ (∀ l, l ∉ ls -> h !! l = heap !! l).
Proof.
  induction ls as [|l ls IH]; intros heap Hnd Hopen.
  { exists heap. split; [done|]. split; [done|]. split; [|done]. intros l Hl. by apply elem_of_nil in Hl. }
  apply NoDup_cons in Hnd as [Hl Hnd]. cbn [close_all].
  destruct (close_at_open heap l) as (c & Hc & ->); [apply Hopen, list_elem_of_here|]. simpl.
  assert (l < length heap) as Hlt by by apply lookup_lt_Some in Hc.
  destruct (IH (<[l := closed_of c]> heap) Hnd) as (h & Hh & Hlen & Hin & Hout).
  { intros l' Hl'. apply open_at_insert_ne; [by intros ->|]. apply Hopen. by apply list_elem_of_further. }
  exists h. unfold closed_of in *. rewrite Hh. split; [done|]. split; [by rewrite Hlen, length_insert|]. split.
  - intros l' [->|Hl']%elem_of_cons.
    + rewrite Hout, list_lookup_insert_eq, Hc by done. done.
    + rewrite Hin, list_lookup_insert_ne by (done || by intros ->). done.
  - intros l' [Hne Hl']%not_elem_of_cons. rewrite Hout, list_lookup_insert_ne by done. done.
Qed.

(** The locations in an injective map are distinct. *)
Lemma NoDup_locs `{Countable K} (m : gmap K nat) :
  (∀ i j l, m !! i = Some l -> m !! j = Some l -> i = j) -> NoDup (map_to_list m).*2.
Proof.
  intros Hinj. apply NoDup_fmap_2_strong; [|apply NoDup_map_to_list].
  intros [i l] [j l'] Hi%elem_of_map_to_list Hj%elem_of_map_to_list Hl. simpl in Hl. subst l'.
  f_equal. by eapply Hinj.
Qed.

Lemma elem_of_locs `{Countable K} (m : gmap K nat) l :
  l ∈ (map_to_list m).*2 <-> ∃ i, m !! i = Some l.
Proof.
  rewrite list_elem_of_fmap. split.
  - intros ([i l'] & -> & Hi%elem_of_map_to_list). by exists i.
  - intros [i Hi]. exists (i, l). split; [done|]. by apply elem_of_map_to_list.
Qed.

(** ** Calls: the invariant *)

Section calls.
Context {S : Type} (marshal_event : Event -> bytes) (unmarshal_event : bytes -> option Event).
Context (parse_sub : option bytes -> string) (srv : Server S).
Implicit Types (y : Sys (S := S)) (log : list (Served (S := S))).
#[local] Arguments answer : simpl never.

(** [m] is the server's response to the request of call [l]. *)
Definition genuine log (l : nat) (m : Message) : Prop :=
  ∃ d, d ∈ log ∧ sd_resp d = m ∧ ID (sd_req d) = Some (Z.of_nat l + 1)%Z.

(** [m] is the request of a call that has been written. *)
Definition requested (calls : list CallSt) (m : Message) : Prop :=
  ∃ i cl, calls !! i = Some cl ∧ m = request (Z.of_nat i + 1) (cl_method cl) (cl_params cl) ∧
    cl_pc cl ≠ CWriting.

Record cinv y : Prop := {
  ci_ids : ∀ i cl, y_calls y !! i = Some cl -> cl_id cl = (Z.of_nat i + 1)%Z ∧ cl_ch cl = i;
  ci_next : c_nextID (y_c y) = Z.of_nat (length (y_calls y));
  ci_len : length (c_replies (y_c y)) = length (y_calls y);
  ci_bufs : ∀ l c m, c_replies (y_c y) !! l = Some c -> m ∈ ch_buf c -> genuine (y_log y) l m;
  ci_pend : ∀ p id l, c_pending (y_c y) = Some p -> p !! id = Some l ->
    id = (Z.of_nat l + 1)%Z ∧ c_replies (y_c y) !! l = Some (make_chan 1);
  ci_hold : ∀ l m, y_rl y = RlHolding l m ->
    c_replies (y_c y) !! l = Some (make_chan 1) ∧ genuine (y_log y) l m ∧
    ∀ p, c_pending (y_c y) = Some p -> p !! (Z.of_nat l + 1)%Z = None;
  ci_wire : ∀ m, m ∈ y_s2c y -> IsResponse m = true -> ∃ l, ID m = Some (Z.of_nat l + 1)%Z ∧ genuine (y_log y) l m;
  ci_c2s : ∀ m, m ∈ y_c2s y -> requested (y_calls y) m;
  ci_log : ∀ d, d ∈ y_log y -> requested (y_calls y) (sd_req d) ∧
    answer srv (Some (sd_req d)) (sd_st d) = Some (sd_resp d);
  ci_once : NoDup ((ID <$> y_c2s y) ++ ((fun d => ID (sd_req d)) <$> y_log y));
  ci_done : ∀ i cl r, y_calls y !! i = Some cl -> cl_pc cl = CDone r ->
    match r with CROk _ | CRRpc _ => ∃ m, genuine (y_log y) i m ∧ r = reply_result m | _ => True end }.

Lemma cinv_init st : cinv (sys_init st).
Proof.
  split; simpl; try done; try (intros ?; by rewrite elem_of_nil).
  - intros p id l [= <-]. by rewrite lookup_empty.
  - constructor.
Qed.

(** Steps that leave the calls alone. *)
Lemma cinv_frame y y' :
  cinv y -> y_calls y' = y_calls y -> y_c2s y' = y_c2s y -> y_log y' = y_log y ->
  c_nextID (y_c y') = c_nextID (y_c y) -> c_pending (y_c y') = c_pending (y_c y) ->
  c_replies (y_c y') = c_replies (y_c y) ->
  (∀ l m, y_rl y' = RlHolding l m -> y_rl y = RlHolding l m) ->
  (∀ m, m ∈ y_s2c y' -> IsResponse m = true -> m ∈ y_s2c y) -> cinv y'.
Proof.
  intros [] Hca Hc2 Hl Hn Hp Hr Hrl Hs. split; rewrite ?Hca, ?Hc2, ?Hl, ?Hn, ?Hp, ?Hr; eauto.
Qed.

Lemma requested_alter calls i f m :
  (∀ cl, cl_method (f cl) = cl_method cl ∧ cl_params (f cl) = cl_params cl) ->
  (∀ cl, calls !! i = Some cl -> cl_pc cl ≠ CWriting -> cl_pc (f cl) ≠ CWriting) ->
  requested calls m -> requested (alter f i calls) m.
Proof.
  intros Hf Hpc (j & cl & Hj & -> & Hn). destruct (decide (i = j)) as [->|Hij].
  - exists j, (f cl). rewrite list_lookup_alter_eq, Hj. destruct (Hf cl) as [-> ->]. split_and!; eauto.
  - exists j, cl. by rewrite list_lookup_alter_ne.
Qed.

Lemma genuine_app log log' l m : genuine log l m -> genuine (log ++ log') l m.
Proof. intros (d & Hd & ?). exists d. split; [apply elem_of_app; by left|done]. Qed.

(** The client's part when a call ends: its entry may be deleted and its
    channel may be drained. *)
Lemma cinv_finish i r y c' :
  cinv y -> (∃ cl, y_calls y !! i = Some cl) ->
  c_nextID c' = c_nextID (y_c y) -> length (c_replies c') = length (c_replies (y_c y)) ->
  (∀ l ch m, c_replies c' !! l = Some ch -> m ∈ ch_buf ch -> genuine (y_log y) l m) ->
  (∀ p id l, c_pending c' = Some p -> p !! id = Some l ->
     id = (Z.of_nat l + 1)%Z ∧ c_replies c' !! l = Some (make_chan 1)) ->
  (∀ l m, y_rl y = RlHolding l m -> c_replies c' !! l = Some (make_chan 1) ∧
     ∀ p, c_pending c' = Some p -> p !! (Z.of_nat l + 1)%Z = None) ->
  (match r with CROk _ | CRRpc _ => ∃ m, genuine (y_log y) i m ∧ r = reply_result m | _ => True end) ->
  cinv (finish i r (set_c c' y)).
Proof.
  intros [] [cl Hcl] Hn Hlen Hbuf Hpend Hhold Hr.
  assert (∀ m, requested (y_calls y) m -> requested (alter (set_pc (CDone r)) i (y_calls y)) m) as Hreq.
  { intros m. by apply requested_alter. }
  split; simpl; rewrite ?length_alter; eauto.
  - intros j cl' Hj. destruct (decide (i = j)) as [->|Hij].
    + rewrite list_lookup_alter_eq, Hcl in Hj. simplify_eq/=. by apply ci_ids0.
    + rewrite list_lookup_alter_ne in Hj by done. by apply ci_ids0.
  - by rewrite Hn.
  - by rewrite Hlen.
  - intros l m Hrl. destruct (Hhold l m Hrl) as [? ?]. destruct (ci_hold0 l m Hrl) as (_ & ? & _). done.
  - intros d Hd. destruct (ci_log0 d Hd) as [? ?]. split; [by apply Hreq|done].
  - intros j cl' r' Hj Hpc. destruct (decide (i = j)) as [->|Hij].
    + rewrite list_lookup_alter_eq, Hcl in Hj. by simplify_eq/=.
    + rewrite list_lookup_alter_ne in Hj by done. by eapply ci_done0.
Qed.

Lemma forget_pending id c p l id' : c_pending (forget id c) = Some p -> p !! id' = Some l ->
  ∃ q, c_pending c = Some q ∧ q !! id' = Some l.
Proof.
  unfold forget. simpl. destruct (c_pending c) as [q|]; [|done]. simpl. intros [= <-].
  rewrite lookup_delete_Some. intros [_ ?]. by exists q.
Qed.

Lemma forget_pending_None id c p id' : c_pending (forget id c) = Some p ->
  (∀ q, c_pending c = Some q -> q !! id' = None) -> p !! id' = None.
Proof.
  intros Hp Hq. destruct (p !! id') as [l|] eqn:E; [|done].
  destruct (forget_pending _ _ _ _ _ Hp E) as (q & Hc & Hl). rewrite (Hq q Hc) in Hl. done.
Qed.

Lemma cinv_finish_forget i r id y :
  cinv y -> (∃ cl, y_calls y !! i = Some cl) ->
  (match r with CROk _ | CRRpc _ => False | _ => True end) ->
  cinv (finish i r (set_c (forget id (y_c y)) y)).
Proof.
  intros Hi Hcl Hr. apply cinv_finish; try done.
  - apply (ci_bufs _ Hi).
  - intros p id' l Hp Hl. destruct (forget_pending _ _ _ _ _ Hp Hl) as (q & Hq & Hl').
    by apply (ci_pend _ Hi q).
  - intros l m Hrl. destruct (ci_hold _ Hi l m Hrl) as (Hc & _ & Hn). split; [done|].
    intros p Hp. by eapply forget_pending_None.
  - destruct r; done.
Qed.

Lemma call_begin_spec c : ∃ c', call_begin c = (c', c_nextID c + 1, length (c_replies c), bool_decide (is_Some (c_pending c)))%Z ∧
  c_nextID c' = (c_nextID c + 1)%Z ∧ c_replies c' = c_replies c ++ [make_chan 1] ∧
  c_pending c' = insert (c_nextID c + 1)%Z (length (c_replies c)) <$> c_pending c ∧
  c_subs c' = c_subs c ∧ c_pendEvs c' = c_pendEvs c ∧ c_evchans c' = c_evchans c.
Proof. unfold call_begin. destruct (c_pending c) as [p|] eqn:E; simpl; by eexists. Qed.

Lemma cinv_call method params y : cinv y -> cinv (do_call method params y).
Proof.
  intros Hi. unfold do_call.
  destruct (call_begin_spec (y_c y)) as (c & -> & Hn & Hr & Hp & _). destruct Hi.
  set (cl := mkCall _ _ _ _ _). set (n := length (y_calls y)).
  assert (∀ m, requested (y_calls y) m -> requested (y_calls y ++ [cl]) m) as Hreq.
  { intros m (i & cl' & Hc & ? & ?). exists i, cl'. split; [by apply lookup_app_l_Some|done]. }
  assert (∀ l ch, c_replies (y_c y) !! l = Some ch -> c_replies c !! l = Some ch) as Hold.
  { intros l ch Hl. rewrite Hr. by apply lookup_app_l_Some. }
  split; simpl; rewrite ?length_app; simpl; eauto.
  - intros i cl'. rewrite lookup_app. destruct (y_calls y !! i) eqn:E; [intros; simplify_eq; eauto|].
    intros Hs%list_lookup_singleton_Some. destruct Hs as [Hlen <-]. simpl.
    apply lookup_ge_None in E. rewrite ci_next0, ci_len0. split; lia.
  - rewrite Hn, ci_next0. lia.
  - rewrite Hr, length_app. simpl. lia.
  - intros l ch m. rewrite Hr, lookup_app. destruct (c_replies (y_c y) !! l) eqn:E; [intros; simplify_eq; eauto|].
    intros Hs%list_lookup_singleton_Some Hm. destruct Hs as [_ <-]. by apply elem_of_nil in Hm.
  - intros p id l. rewrite Hp. destruct (c_pending (y_c y)) as [q|] eqn:Eq; [|done]. simpl. intros [= <-].
    rewrite lookup_insert. case_decide as Hid.
    + intros [= <-]. split; [rewrite <- Hid, ci_next0, ci_len0; done|]. by rewrite Hr, list_lookup_middle.
    + intros Hl. destruct (ci_pend0 q id l eq_refl Hl) as [? ?]. eauto.
  - intros l m Hrl. destruct (ci_hold0 l m Hrl) as (Hc & Hg & Hpn). split; [by apply Hold|]. split; [done|].
    intros p. rewrite Hp. destruct (c_pending (y_c y)) as [q|] eqn:Eq; [|done]. simpl. intros [= <-].
    apply lookup_lt_Some in Hc. rewrite lookup_insert_ne by lia. by apply Hpn.
  - intros d Hd. destruct (ci_log0 d Hd). eauto.
  - intros i cl' r. rewrite lookup_app. destruct (y_calls y !! i) eqn:E; [intros; simplify_eq; by eapply ci_done0|].
    intros Hs%list_lookup_singleton_Some Hpc. destruct Hs as [_ <-]. simpl in Hpc.
    destruct (bool_decide _); by simplify_eq.
Qed.

(** The id of a call still writing is nowhere on the way. *)
Lemma writing_unsent y i cl : cinv y -> y_calls y !! i = Some cl -> cl_pc cl = CWriting ->
  Some (Z.of_nat i + 1)%Z ∉ (ID <$> y_c2s y) ++ ((fun d => ID (sd_req d)) <$> y_log y).
Proof.
  intros Hi Hcl Hpc.
  assert (∀ m, requested (y_calls y) m -> ID m ≠ Some (Z.of_nat i + 1)%Z) as Hne.
  { intros m (j & cl' & Hj & -> & Hn). simpl. intros [= Hij]. assert (j = i) as -> by lia. congruence. }
  rewrite elem_of_app, !list_elem_of_fmap. intros [(m & Hm & Hin)|(d & Hd & Hin)].
  - by apply (Hne m); [apply (ci_c2s _ Hi)|].
  - by apply (Hne (sd_req d)); [apply (ci_log _ Hi)|].
Qed.

Lemma cinv_write i ok y : cinv y -> cinv (do_write i ok y).
Proof.
  intros Hi. unfold do_write. destruct (y_calls y !! i) as [[id ch method params pc]|] eqn:Hcl; [|done].
  destruct pc; try done. destruct ok; [|apply cinv_finish_forget; eauto].
  pose proof (writing_unsent _ _ _ Hi Hcl eq_refl) as Hun.
  destruct (ci_ids _ Hi _ _ Hcl) as [Hid Hch]. simpl in Hid, Hch. subst id ch.
  assert (∀ m, requested (y_calls y) m -> requested (alter (set_pc CWaiting) i (y_calls y)) m) as Hreq.
  { intros m. by apply requested_alter. }
  destruct Hi. split; simpl; rewrite ?length_alter; eauto.
  - intros j cl' Hj. destruct (decide (i = j)) as [->|Hij].
    + rewrite list_lookup_alter_eq, Hcl in Hj. by simplify_eq/=.
    + rewrite list_lookup_alter_ne in Hj by done. by apply ci_ids0.
  - intros m [Hm| ->%list_elem_of_singleton]%elem_of_app; [eauto|].
    exists i, (set_pc CWaiting (mkCall (Z.of_nat i + 1) i method params CWriting)).
    rewrite list_lookup_alter_eq, Hcl. done.
  - intros d Hd. destruct (ci_log0 d Hd). eauto.
  - rewrite fmap_app, <- app_assoc. simpl. apply NoDup_app in ci_once0 as (Hn1 & Hd & Hn2).
    apply not_elem_of_app in Hun as [Hu1 Hu2].
    apply NoDup_app. split; [done|]. split.
    + intros x Hx [->|Hx']%elem_of_cons; [done|]. by apply (Hd x).
    + by apply NoDup_cons.
  - intros j cl' r Hj Hpc. destruct (decide (i = j)) as [->|Hij].
    + rewrite list_lookup_alter_eq, Hcl in Hj. by simplify_eq/=.
    + rewrite list_lookup_alter_ne in Hj by done. by eapply ci_done0.
Qed.

Lemma cinv_keep i r y : cinv y -> (∃ cl, y_calls y !! i = Some cl) ->
  (match r with CROk _ | CRRpc _ => False | _ => True end) -> cinv (finish i r y).
Proof.
  intros Hi Hcl Hr. pose proof (cinv_finish i r y (y_c y) Hi Hcl) as H.
  assert (set_c (y_c y) y = y) as Hs by (by destruct y). rewrite Hs in H. apply H; try done.
  - apply (ci_bufs _ Hi).
  - apply (ci_pend _ Hi).
  - intros l m Hrl. by destruct (ci_hold _ Hi l m Hrl) as (? & _ & ?).
  - by destruct r.
Qed.

Lemma cinv_ctx i y : cinv y -> cinv (do_ctx i y).
Proof.
  intros Hi. unfold do_ctx. destruct (y_calls y !! i) as [[id ch method params pc]|] eqn:Hcl; [|done].
  destruct pc; try done. apply cinv_finish_forget; eauto.
Qed.

Lemma cinv_closed i y : cinv y -> cinv (do_closed i y).
Proof.
  intros Hi. unfold do_closed. destruct (y_calls y !! i) as [[id ch method params pc]|] eqn:Hcl; [|done].
  destruct pc; try done. destruct (c_closed (y_c y)); [|done]. apply cinv_keep; eauto.
Qed.

Lemma cinv_reply i y : cinv y -> cinv (do_reply i y).
Proof.
  intros Hi. unfold do_reply. destruct (y_calls y !! i) as [[id ch method params pc]|] eqn:Hcl; [|done].
  destruct pc; try done. destruct (ci_ids _ Hi _ _ Hcl) as [_ Hch]. simpl in Hch. subst ch.
  destruct (c_replies (y_c y) !! i) as [c|] eqn:Hc; simpl; [|done].
  unfold recv. destruct (ch_buf c) as [|m buf] eqn:Hb.
  - destruct (ch_closed c); [|done]. apply cinv_keep; eauto.
  - assert (genuine (y_log y) i m) as Hg by (eapply (ci_bufs _ Hi); [done|rewrite Hb; apply list_elem_of_here]).
    assert (∀ l ch', (<[i := mkChan (ch_cap c) buf (ch_closed c)]> (c_replies (y_c y))) !! l = Some ch' ->
      l = i ∧ ch' = mkChan (ch_cap c) buf (ch_closed c) ∨ l ≠ i ∧ c_replies (y_c y) !! l = Some ch') as Hl.
    { intros l ch' Hl. destruct (decide (l = i)) as [->|Hne]; [left|right].
      - apply list_lookup_insert_Some in Hl. naive_solver.
      - by rewrite list_lookup_insert_ne in Hl. }
    assert (∀ l, c_replies (y_c y) !! l = Some (make_chan 1) -> l ≠ i) as Hfresh.
    { intros l Hf ->. rewrite Hc in Hf. by simplify_eq/=. }
    apply cinv_finish; simpl; try done; eauto.
    + by rewrite length_insert.
    + intros l ch' m' [[-> ->]|[_ Hl']]%Hl Hm'; [|by eapply (ci_bufs _ Hi)].
      eapply (ci_bufs _ Hi); [done|]. rewrite Hb. by apply list_elem_of_further.
    + intros p id' l Hp Hl'. destruct (ci_pend _ Hi p id' l Hp Hl') as [? Hf]. split; [done|].
      rewrite list_lookup_insert_ne; [done|]. intros ->. by apply (Hfresh l).
    + intros l m' Hrl. destruct (ci_hold _ Hi l m' Hrl) as (Hf & _ & Hn). split; [|done].
      rewrite list_lookup_insert_ne; [done|]. intros ->. by apply (Hfresh l).
    + unfold reply_result. destruct (Error m) eqn:E; exists m; (split; [done|]); by rewrite E.
Qed.

Lemma route_event_calls ev c c' : route_event ev c = Some c' ->
  c_nextID c' = c_nextID c ∧ c_pending c' = c_pending c ∧ c_replies c' = c_replies c.
Proof.
  unfold route_event. destruct (c_subs c ≫= lookup (Sub ev)) as [l|].
  - destruct (send_at _ _ _); [|done]. by intros [= <-].
  - intros [= <-]. destruct (c_pendEvs c); [|done]. by case_decide.
Qed.

Lemma cinv_read y y' : cinv y -> do_read unmarshal_event y = Some y' -> cinv y'.
Proof.
  intros Hi. unfold do_read. destruct (y_rl y) eqn:Hrl; try (by intros [= <-]).
  destruct (y_s2c y) as [|m s2c] eqn:Hs; [by intros [= <-]|].
  assert (cinv (set_s2c s2c y)) as Hi1.
  { apply (cinv_frame y); try done. simpl. intros m' Hm' _. rewrite Hs. by apply list_elem_of_further. }
  unfold read_message. destruct (IsResponse m) eqn:Hresp.
  - destruct (ci_wire _ Hi m) as (l & Hid & Hg); [rewrite Hs; apply list_elem_of_here|done|].
    rewrite Hid. unfold take_pending. simpl.
    destruct (c_pending (y_c y) ≫= lookup (Z.of_nat l + 1)%Z) as [ch|] eqn:Hp; simpl; intros [= <-]; [|done].
    apply bind_Some in Hp as (p & Hp & Hl). destruct (ci_pend _ Hi p _ _ Hp Hl) as [Heq Hf].
    assert (ch = l) as -> by lia. destruct Hi1. split; simpl in *; eauto.
    + intros q id l' Hq Hl'. change (y_c y) with (y_c (set_s2c s2c y)) in Hq.
      destruct (forget_pending _ (y_c y) _ _ _ Hq Hl') as (q' & Hq' & Hl''). eauto.
    + intros l' m' [= <- <-]. split; [done|]. split; [done|]. intros q Hq. rewrite Hp in Hq. simpl in Hq.
      simplify_eq. apply lookup_delete_eq.
  - destruct (IsNotification m && bool_decide (Method m = "event")); [|by intros [= <-]].
    destruct (Params m ≫= unmarshal_event) as [ev|]; [|by intros [= <-]].
    destruct (route_event ev _) as [c|] eqn:Hr; [|done]. intros [= <-].
    apply route_event_calls in Hr as (? & ? & ?). by apply (cinv_frame (set_s2c s2c y)).
Qed.

Lemma cinv_deliver y : cinv y -> ∃ y', do_deliver y = Some y' ∧ cinv y' ∧ y_rl y' = (match y_rl y with RlHolding _ _ => RlReading | x => x end).
Proof.
  intros Hi. unfold do_deliver. destruct (y_rl y) eqn:Hrl; try by exists y.
  destruct (ci_hold _ Hi _ _ Hrl) as (Hc & Hg & Hn). rewrite Hc. simpl.
  eexists. split; [done|]. split; [|done].
  assert (ch < length (c_replies (y_c y))) as Hlt by (by apply lookup_lt_Some in Hc).
  destruct Hi. split; simpl; eauto.
  - by rewrite length_insert.
  - intros l c m'. destruct (decide (l = ch)) as [->|Hne].
    + rewrite list_lookup_insert_eq by done. intros [= <-]. simpl. rewrite list_elem_of_singleton. by intros ->.
    + rewrite list_lookup_insert_ne by done. apply ci_bufs0.
  - intros p id l Hp Hl. destruct (ci_pend0 p id l Hp Hl) as [-> Hf]. split; [done|].
    rewrite list_lookup_insert_ne; [done|]. intros ->. rewrite (Hn p Hp) in Hl. done.
  - done.
Qed.

Lemma cinv_tear_pending y : cinv y -> ∃ c, tear_pending (y_c y) = Some c ∧
  c_subs c = c_subs (y_c y) ∧ c_pendEvs c = c_pendEvs (y_c y) ∧ c_evchans c = c_evchans (y_c y) ∧
  ((∀ l m, y_rl y ≠ RlHolding l m) -> ∀ rl, (∀ l m, rl ≠ RlHolding l m) -> cinv (set_rl rl (set_c c y))).
Proof.
  intros Hi. unfold tear_pending. destruct (c_pending (y_c y)) as [p|] eqn:Hp.
  2:{ eexists. split; [done|]. do 3 (split; [done|]). intros Hrl rl Hrl'.
      apply (cinv_frame y); try done. simpl. intros l m ->. by destruct (Hrl' l m). }
  destruct (close_all_spec (map_to_list p).*2 (c_replies (y_c y))) as (h & Hh & Hlen & Hin & Hout).
  - apply NoDup_locs. intros i j l H1 H2.
    destruct (ci_pend _ Hi p i l Hp H1) as [-> _]. by destruct (ci_pend _ Hi p j l Hp H2) as [-> _].
  - intros l [id Hl]%elem_of_locs. destruct (ci_pend _ Hi p id l Hp Hl) as [_ Hf]. by eexists.
  - rewrite Hh. simpl. eexists. split; [done|]. do 3 (split; [done|]). intros Hrl rl Hrl'.
    destruct Hi. split; simpl; eauto; try done.
    + by rewrite Hlen.
    + intros l c m Hc Hm. destruct (decide (l ∈ (map_to_list p).*2)) as [Hl|Hl].
      * rewrite Hin in Hc by done. apply fmap_Some in Hc as (c0 & Hc0 & ->). by eapply ci_bufs0.
      * rewrite Hout in Hc by done. by eapply ci_bufs0.
    + intros l m ->. by destruct (Hrl' l m).
Qed.

Lemma tear_subs_calls c c' : tear_subs c = Some c' ->
  c_nextID c' = c_nextID c ∧ c_pending c' = c_pending c ∧ c_replies c' = c_replies c.
Proof.
  unfold tear_subs. destruct (c_subs c); [destruct (close_all _ _); [|done]|]; by intros [= <-].
Qed.

Lemma sub_close_calls sid c c' : sub_close sid c = Some c' ->
  c_nextID c' = c_nextID c ∧ c_pending c' = c_pending c ∧ c_replies c' = c_replies c.
Proof.
  unfold sub_close. destruct (c_subs c) as [s|]; [destruct (s !! sid); [destruct (close_at _ _); [|done]|]|];
    by intros [= <-].
Qed.

Lemma subscribe_register_calls sid c :
  let c' := (subscribe_register sid c).1 in
  c_nextID c' = c_nextID c ∧ c_pending c' = c_pending c ∧ c_replies c' = c_replies c.
Proof. unfold subscribe_register. by destruct (c_subs c). Qed.

Lemma event_message_response ev : IsResponse (event_message marshal_event ev) = false.
Proof. done. Qed.

Lemma cinv_serve y : cinv y -> cinv (do_serve marshal_event unmarshal_event srv y).
Proof.
  intros Hi. unfold do_serve. destruct (y_c2s y) as [|req c2s] eqn:Hc2s; [done|].
  destruct (handle_line_spec marshal_event srv (Some req) (y_st y)) as [_ Hans].
  destruct (handle_line marshal_event srv (Some req) (y_st y)) as [st out]. simpl in Hans.
  set (entry := match answer srv (Some req) (y_st y) with Some resp => [mkServed req (y_st y) resp] | None => [] end).
  assert (requested (y_calls y) req) as Hreq by (apply (ci_c2s _ Hi); rewrite Hc2s; apply list_elem_of_here).
  pose proof (ci_once _ Hi) as Honce. rewrite Hc2s in Honce. simpl in Honce.
  destruct Hi. split; simpl; eauto using genuine_app.
  - intros l m Hrl. destruct (ci_hold0 l m Hrl) as (? & ? & ?). eauto using genuine_app.
  - intros m [Hm|Hm]%elem_of_app Hresp.
    + destruct (ci_wire0 m Hm Hresp) as (l & ? & ?). eauto using genuine_app.
    + assert (m ∈ filter (fun m => IsResponse m = true) out) as Hf by (by apply list_elem_of_filter).
      rewrite Hans in Hf. unfold entry. destruct (answer srv (Some req) (y_st y)) as [resp|] eqn:Ha; simpl in Hf;
        [|by apply elem_of_nil in Hf]. apply list_elem_of_singleton in Hf as ->.
      destruct Hreq as (i & cl & Hcl & -> & _). exists i. split.
      * unfold answer in Ha. simpl in Ha. case_match; [|done]. case_match; simplify_eq; [|done].
        unfold respond, respondOK. by repeat case_match.
      * exists (mkServed (request (Z.of_nat i + 1) (cl_method cl) (cl_params cl)) (y_st y) resp).
        split; [|done]. apply elem_of_app. right. apply list_elem_of_here.
  - intros m Hm. apply ci_c2s0. rewrite Hc2s. by apply list_elem_of_further.
  - intros d [Hd|Hd]%elem_of_app; [by apply ci_log0|]. unfold entry in Hd.
    destruct (answer srv (Some req) (y_st y)) eqn:Ha; [|by apply elem_of_nil in Hd].
    apply list_elem_of_singleton in Hd as ->. done.
  - apply NoDup_cons in Honce as [Hn Hnd]. rewrite fmap_app, app_assoc.
    apply NoDup_app. split; [done|]. unfold entry.
    destruct (answer srv (Some req) (y_st y)); simpl; (split; [|repeat constructor; set_solver]).
    + intros x Hx ->%list_elem_of_singleton. done.
    + intros x _. apply not_elem_of_nil.
  - intros i cl r Hcl Hpc. specialize (ci_done0 i cl r Hcl Hpc). destruct r; try done;
      destruct ci_done0 as (m & ? & ?); eauto using genuine_app.
Qed.

Lemma cinv_do o y y' : cinv y -> sys_do marshal_event unmarshal_event parse_sub srv o y = Some y' -> cinv y'.
Proof.
  intros Hi. destruct o; simpl.
  - intros [= <-]. by apply cinv_call.
  - intros [= <-]. by apply cinv_write.
  - intros [= <-]. by apply cinv_reply.
  - intros [= <-]. by apply cinv_ctx.
  - intros [= <-]. by apply cinv_closed.
  - by apply cinv_read.
  - destruct (cinv_deliver y Hi) as (y1 & -> & Hi1 & _). by intros [= <-].
  - intros [= <-]. destruct (y_rl y) eqn:Hrl; try done. by apply (cinv_frame y).
  - unfold do_tear. destruct (y_rl y) eqn:Hrl; try (by intros [= <-]).
    + destruct (cinv_tear_pending y Hi) as (c & -> & _ & _ & _ & Hc). intros [= <-].
      apply Hc; [intros l m; by rewrite Hrl|done].
    + destruct (tear_subs (y_c y)) as [c|] eqn:Ht; [|done]. intros [= <-].
      apply tear_subs_calls in Ht as (? & ? & ?). by apply (cinv_frame y).
    + intros [= <-]. by apply (cinv_frame y).
  - intros [= <-]. unfold do_subscribe. repeat case_match; simplify_eq; try done.
    all: match goal with H : subscribe_register ?sid ?c = _ |- _ =>
           pose proof (subscribe_register_calls sid c) as Hs; rewrite H in Hs; destruct Hs as (? & ? & ?) end;
      by apply (cinv_frame y).
  - unfold do_sub_close. destruct (y_subs y !! j) as [[sid l [] got]|]; try (by intros [= <-]).
    destruct (sub_close sid (y_c y)) as [c|] eqn:Hs; [|done]. intros [= <-].
    apply sub_close_calls in Hs as (? & ? & ?). by apply (cinv_frame y).
  - intros [= <-]. unfold do_event. repeat case_match; try done. by apply (cinv_frame y).
  - intros [= <-]. by apply cinv_serve.
  - intros [= <-]. apply (cinv_frame y); try done. simpl.
    intros m [Hm| ->%list_elem_of_singleton]%elem_of_app Hr; [done|]. by rewrite event_message_response in Hr.
Qed.
End calls.

(** ** Subscriptions: the invariant *)

Section events.
Context {S : Type} (marshal_event : Event -> bytes) (unmarshal_event : bytes -> option Event).
Context (parse_sub : option bytes -> string) (srv : Server S).
Implicit Types (y : Sys (S := S)).

(** The events for subscription [sid]. *)
Definition hist (sid : string) (evs : list Event) : list Event := filter (fun ev => Sub ev = sid) evs.

(** No other subscription got the id of subscription [j]. *)
Definition sole y (j : nat) (s : SubSt) : Prop :=
  ∀ j' s', y_subs y !! j' = Some s' -> ss_id s' = ss_id s -> j' = j.

Record einv y : Prop := {
  ei_wire : y_emitted y = y_routed y ++ events_of unmarshal_event (y_s2c y);
  ei_caps : ∀ l c, c_evchans (y_c y) !! l = Some c -> ch_cap c = 16;
  ei_sub : ∀ j s, y_subs y !! j = Some s -> ∃ c, c_evchans (y_c y) !! ss_ch s = Some c ∧
    sublist (ss_got s ++ ch_buf c) (hist (ss_id s) (y_routed y));
  ei_inj : ∀ j j' s s', y_subs y !! j = Some s -> y_subs y !! j' = Some s' -> ss_ch s = ss_ch s' -> j = j';
  ei_map : ∀ m sid l, c_subs (y_c y) = Some m -> m !! sid = Some l ->
    open_at (c_evchans (y_c y)) l ∧ ∃ j s, y_subs y !! j = Some s ∧ ss_id s = sid ∧ ss_ch s = l;
  ei_pe : ∀ pe sid, c_pendEvs (y_c y) = Some pe ->
    sublist (default [] (pe !! sid)) (hist sid (y_routed y)) ∧ length (default [] (pe !! sid)) <= 16;
  ei_live : y_rl y ≠ RlClosing -> y_rl y ≠ RlDone -> is_Some (c_subs (y_c y));
  ei_both : is_Some (c_subs (y_c y)) -> is_Some (c_pendEvs (y_c y));
  ei_fresh : ∀ pe sid, c_pendEvs (y_c y) = Some pe -> (∀ j s, y_subs y !! j = Some s -> ss_id s ≠ sid) ->
    length (hist sid (y_routed y)) <= 16 -> default [] (pe !! sid) = hist sid (y_routed y);
  ei_lossless : ∀ j s, y_subs y !! j = Some s -> sole y j s -> ss_open s = true ->
    length (hist (ss_id s) (y_routed y)) <= 16 ->
    (∃ c, c_evchans (y_c y) !! ss_ch s = Some c ∧ ss_got s ++ ch_buf c = hist (ss_id s) (y_routed y)) ∧
    ∀ m, c_subs (y_c y) = Some m -> m !! ss_id s = Some (ss_ch s) }.

Lemma einv_init st : einv (sys_init st).
Proof.
  split; simpl; try done; try (by eexists).
  - intros m sid l [= <-]. by rewrite lookup_empty.
  - intros pe sid [= <-]. rewrite lookup_empty. simpl. split; [done|lia].
  - intros pe sid [= <-]. by rewrite lookup_empty.
Qed.

(** Steps that leave the subscriptions alone. *)
Lemma einv_frame y y' :
  einv y -> y_subs y' = y_subs y -> y_routed y' = y_routed y ->
  c_evchans (y_c y') = c_evchans (y_c y) -> c_subs (y_c y') = c_subs (y_c y) ->
  c_pendEvs (y_c y') = c_pendEvs (y_c y) ->
  (y_rl y' ≠ RlClosing -> y_rl y' ≠ RlDone -> y_rl y ≠ RlClosing ∧ y_rl y ≠ RlDone) ->
  y_emitted y' = y_routed y ++ events_of unmarshal_event (y_s2c y') -> einv y'.
Proof.
  intros [] Hs Hr Hc Hm Hp Hrl He. split; unfold sole in *; rewrite ?Hs, ?Hr, ?Hc, ?Hm, ?Hp; eauto.
  intros H1 H2. destruct (Hrl H1 H2). auto.
Qed.

Lemma events_of_app l1 l2 :
  events_of unmarshal_event (l1 ++ l2) = events_of unmarshal_event l1 ++ events_of unmarshal_event l2.
Proof. apply omap_app. Qed.

Lemma pushed_buf {A} (v : A) c : ch_buf (pushed v c) = ch_buf c ++ [v] ∨ ch_buf (pushed v c) = ch_buf c ∧ ch_cap c <= length (ch_buf c).
Proof. unfold pushed. case_decide; simpl; [by left|right; split; [done|lia]]. Qed.

Lemma hist_app sid l1 l2 : hist sid (l1 ++ l2) = hist sid l1 ++ hist sid l2.
Proof. apply filter_app. Qed.

Lemma hist_one sid ev : hist sid [ev] = if decide (Sub ev = sid) then [ev] else [].
Proof. unfold hist. rewrite filter_cons, filter_nil. done. Qed.

Lemma sublist_hist_app sid l l1 l2 : sublist l (hist sid l1) -> sublist l (hist sid (l1 ++ l2)).
Proof. intros H. rewrite hist_app. by apply sublist_app_r_l || (etrans; [exact H|apply sublist_inserts_r; done]). Qed.

(** The history of a run that handles one more event. *)
Lemma length_hist_app sid l1 l2 : length (hist sid l1) <= length (hist sid (l1 ++ l2)).
Proof. rewrite hist_app, length_app. lia. Qed.

(** What stays true of a subscription whose channel is left alone. *)
Lemma sub_grows y ev s c :
  sublist (ss_got s ++ ch_buf c) (hist (ss_id s) (y_routed y)) ->
  sublist (ss_got s ++ ch_buf c) (hist (ss_id s) (y_routed y ++ [ev])).
Proof. apply sublist_hist_app. Qed.

(** A subscription with the only claim to its id keeps all its events when an
    event for another id, or one that has no channel, is handled. *)
Lemma lossless_quiet ev m y j s :
  einv y -> c_subs (y_c y) = Some m -> m !! Sub ev ≠ Some (ss_ch s) ->
  y_subs y !! j = Some s -> sole y j s -> ss_open s = true ->
  length (hist (ss_id s) (y_routed y ++ [ev])) <= 16 ->
  (∃ c, c_evchans (y_c y) !! ss_ch s = Some c ∧ ss_got s ++ ch_buf c = hist (ss_id s) (y_routed y ++ [ev])) ∧
  ∀ m, c_subs (y_c y) = Some m -> m !! ss_id s = Some (ss_ch s).
Proof.
  intros Hi Hm Hne Hj Hsl Hop Hlen. pose proof (length_hist_app (ss_id s) (y_routed y) [ev]).
  destruct (ei_lossless _ Hi j s Hj Hsl Hop ltac:(lia)) as [(c & Hc & Heq) Hmap]. split; [|done].
  exists c. split; [done|]. rewrite hist_app, hist_one, decide_False; [by rewrite app_nil_r|].
  intros Hsid. apply Hne. rewrite Hsid. by apply Hmap.
Qed.

(** The wire after the read loop has handled an event message. *)
Lemma wire_read ev m s2c y :
  einv y -> y_s2c y = m :: s2c -> events_of unmarshal_event [m] = [ev] ->
  y_emitted y = (y_routed y ++ [ev]) ++ events_of unmarshal_event s2c.
Proof.
  intros Hi Hs Hm. rewrite (ei_wire _ Hi), Hs, <- app_assoc. f_equal.
  change (m :: s2c) with ([m] ++ s2c). by rewrite events_of_app, Hm.
Qed.

(** The subscription has a channel. *)
Lemma einv_route_sub ev m s2c y sm l :
  einv y -> y_s2c y = m :: s2c -> events_of unmarshal_event [m] = [ev] ->
  c_subs (y_c y) = Some sm -> sm !! Sub ev = Some l ->
  ∃ h, send_at (c_evchans (y_c y)) l ev = Some h ∧
    einv (routed ev (set_events (c_subs (y_c y)) (c_pendEvs (y_c y)) h (y_c y)) (set_s2c s2c y)).
Proof.
  intros Hi Hs Hm Hsm Hl. pose proof (wire_read _ _ _ _ Hi Hs Hm) as Hem.
  destruct (ei_map _ Hi sm _ l Hsm Hl) as ((c0 & Hc0 & Ho0) & j0 & s0 & Hj0 & Hid0 & Hch0).
  rewrite (send_at_open _ _ _ _ Hc0 Ho0). eexists. split; [done|].
  assert (l < length (c_evchans (y_c y))) as Hlt by (by apply lookup_lt_Some in Hc0).
  assert (∀ l', l' ≠ l -> (<[l:=pushed ev c0]> (c_evchans (y_c y))) !! l' = c_evchans (y_c y) !! l') as Hother
    by (intros; by rewrite list_lookup_insert_ne).
  assert ((<[l:=pushed ev c0]> (c_evchans (y_c y))) !! l = Some (pushed ev c0)) as Hsame
    by (by rewrite list_lookup_insert_eq).
  assert (∀ j s, y_subs y !! j = Some s -> ss_ch s = l -> j = j0 ∧ s = s0) as Hsole.
  { intros j s Hj Hch. assert (j = j0) as -> by (eapply (ei_inj _ Hi); eauto; congruence).
    split; [done|congruence]. }
  split; unfold sole; cbn [routed set_s2c set_events y_emitted y_routed y_s2c y_c y_subs y_rl c_evchans c_subs c_pendEvs].
  - exact Hem.
  - intros l' c. destruct (decide (l' = l)) as [->|Hne]; [|rewrite Hother by done; apply (ei_caps _ Hi)].
    rewrite Hsame. intros [= <-]. rewrite pushed_cap. by eapply (ei_caps _ Hi).
  - intros j s Hj. destruct (ei_sub _ Hi j s Hj) as (c & Hc & Hsub). destruct (decide (ss_ch s = l)) as [Hch|Hne].
    + rewrite Hch, Hsame. eexists. split; [done|]. destruct (Hsole j s Hj Hch) as [-> ->].
      rewrite Hid0, hist_app, hist_one, decide_True by done. assert (c = c0) as -> by congruence.
      rewrite Hid0 in Hsub. destruct (pushed_buf ev c0) as [->|[-> _]].
      * rewrite app_assoc. by apply sublist_app.
      * by apply sublist_inserts_r.
    + rewrite Hother by done. exists c. split; [done|]. by apply sub_grows.
  - apply (ei_inj _ Hi).
  - intros m' sid l' Hm' Hl'. destruct (ei_map _ Hi m' sid l' Hm' Hl') as [Ho Hex].
    split; [|done]. destruct (decide (l' = l)) as [->|Hne]; [exists (pushed ev c0); by rewrite Hsame, pushed_closed|].
    destruct Ho as (c & Hc & Hcl). exists c. by rewrite Hother.
  - intros pe' sid Hpe'. destruct (ei_pe _ Hi pe' sid Hpe') as [Hsub Hlen]. split; [by apply sublist_hist_app|done].
  - apply (ei_live _ Hi).
  - apply (ei_both _ Hi).
  - intros pe' sid Hpe' Hno. rewrite hist_app, hist_one, decide_False, app_nil_r.
    + by apply (ei_fresh _ Hi).
    + intros <-. by apply (Hno j0 s0).
  - intros j s Hj Hsl Hop Hlen. destruct (decide (ss_ch s = l)) as [Hch|Hne].
    + pose proof (length_hist_app (ss_id s) (y_routed y) [ev]).
      destruct (ei_lossless _ Hi j s Hj Hsl Hop ltac:(lia)) as [(c & Hc & Heq) Hmap]. split; [|done].
      rewrite Hch, Hsame. eexists. split; [done|]. destruct (Hsole j s Hj Hch) as [-> ->].
      assert (c = c0) as -> by congruence. rewrite hist_app, hist_one, decide_True in Hlen |- * by done.
      rewrite <- Heq. rewrite <- Heq, !length_app in Hlen. simpl in Hlen.
      destruct (pushed_buf ev c0) as [->|[_ Hfull]]; [by rewrite app_assoc|].
      rewrite (ei_caps _ Hi _ _ Hc0) in Hfull. lia.
    + rewrite Hother by done. apply (lossless_quiet ev sm y j s); try done. rewrite Hl. congruence.
Qed.

(** No channel yet: the event waits, unless sixteen already do. *)
Lemma einv_route_wait ev m s2c y sm pe :
  einv y -> y_s2c y = m :: s2c -> events_of unmarshal_event [m] = [ev] ->
  c_subs (y_c y) = Some sm -> sm !! Sub ev = None -> c_pendEvs (y_c y) = Some pe ->
  let evs := default [] (pe !! Sub ev) in
  let pe' := if decide (length evs < maxPendingEventsPerSub) then <[Sub ev := evs ++ [ev]]> pe else pe in
  einv (routed ev (set_events (c_subs (y_c y)) (Some pe') (c_evchans (y_c y)) (y_c y)) (set_s2c s2c y)).
Proof.
  intros Hi Hs Hm Hsm Hl Hpe evs pe'. pose proof (wire_read _ _ _ _ Hi Hs Hm) as Hem.
  assert (∀ sid, default [] (pe' !! sid) = default [] (pe !! sid) ++
    (if decide (Sub ev = sid ∧ length evs < maxPendingEventsPerSub) then [ev] else [])) as Hpe'.
  { intros sid. unfold pe'. destruct (decide (length evs < maxPendingEventsPerSub)) as [Hr|Hr].
    - rewrite lookup_insert. destruct (decide (Sub ev = sid)) as [Hsid|Hsid].
      + rewrite !decide_True by done. by subst sid.
      + rewrite !decide_False by tauto. symmetry. apply app_nil_r.
    - rewrite decide_False by tauto. symmetry. apply app_nil_r. }
  clearbody pe'. split; unfold sole; cbn [routed set_s2c set_events y_emitted y_routed y_s2c y_c y_subs y_rl c_evchans c_subs c_pendEvs].
  - exact Hem.
  - apply (ei_caps _ Hi).
  - intros j s Hj. destruct (ei_sub _ Hi j s Hj) as (c & Hc & Hsub). exists c. split; [done|]. by apply sub_grows.
  - apply (ei_inj _ Hi).
  - apply (ei_map _ Hi).
  - intros q sid [= <-]. rewrite Hpe'. destruct (ei_pe _ Hi pe sid Hpe) as [Hsub Hlen].
    destruct (decide (Sub ev = sid ∧ length evs < maxPendingEventsPerSub)) as [Hd|Hd]; [|rewrite app_nil_r; split; [by apply sublist_hist_app|done]].
    destruct Hd as [<- Hr]. rewrite hist_app, hist_one, decide_True, length_app by done. simpl.
    split; [by apply sublist_app|]. unfold evs, maxPendingEventsPerSub in Hr. lia.
  - apply (ei_live _ Hi).
  - by eexists.
  - intros q sid [= <-] Hno Hlen. rewrite Hpe'. pose proof (length_hist_app sid (y_routed y) [ev]).
    pose proof (ei_fresh _ Hi pe sid Hpe Hno ltac:(lia)) as Heq. rewrite Heq, hist_app, hist_one. f_equal.
    destruct (decide (Sub ev = sid)) as [Hsid|Hsid]; [|by rewrite decide_False by tauto].
    rewrite decide_True; [done|]. split; [done|]. subst sid. unfold evs. rewrite Heq.
    rewrite hist_app, hist_one, decide_True, length_app in Hlen by done. simpl in Hlen.
    unfold maxPendingEventsPerSub. lia.
  - intros j s Hj Hsl Hop Hlen. apply (lossless_quiet ev sm y j s); try done. by rewrite Hl.
Qed.

(** An event reaches the channel of its subscription, or waits for it. *)
Lemma einv_route ev m s2c y :
  einv y -> y_rl y = RlReading -> y_s2c y = m :: s2c -> events_of unmarshal_event [m] = [ev] ->
  ∃ c, route_event ev (y_c y) = Some c ∧ einv (routed ev c (set_s2c s2c y)).
Proof.
  intros Hi Hrl Hs Hm. unfold route_event.
  destruct (ei_live _ Hi) as [sm Hsm]; [by rewrite Hrl..|].
  destruct (ei_both _ Hi) as [pe Hpe]; [by eexists|].
  replace (c_subs (y_c y) ≫= lookup (Sub ev)) with (sm !! Sub ev) by (by rewrite Hsm).
  destruct (sm !! Sub ev) as [l|] eqn:Hl.
  - destruct (einv_route_sub _ _ _ _ _ _ Hi Hs Hm Hsm Hl) as (h & -> & Hi'). simpl. by eexists.
  - eexists. split; [done|]. pose proof (einv_route_wait _ _ _ _ _ _ Hi Hs Hm Hsm Hl Hpe) as Hi'.
    cbv zeta in Hi'. rewrite Hpe. case_decide; [done|].
    destruct (y_c y) as [? ? ? ? ? pe0 ?] eqn:Ec. simpl in *. by subst pe0.
Qed.

Lemma foldl_pushed (evs : list Event) : ∀ c : Chan Event,
  length (ch_buf c) + length evs <= ch_cap c ->
  foldl (fun ch ev => pushed ev ch) c evs = mkChan (ch_cap c) (ch_buf c ++ evs) (ch_closed c).
Proof.
  induction evs as [|ev evs IH]; intros c Hl; simpl in Hl; [rewrite app_nil_r; by destruct c|].
  cbn [foldl]. rewrite IH; unfold pushed; rewrite decide_True by lia; simpl; [by rewrite <- app_assoc|].
  rewrite length_app. simpl. lia.
Qed.

(** [Subscribe] takes over the events that came first. *)
Lemma einv_subscribe sid y sm :
  einv y -> c_subs (y_c y) = Some sm ->
  let r := subscribe_register sid (y_c y) in
  ∃ c l, r = (c, Some l) ∧ einv (set_c c (set_subs (y_subs y ++ [mkSub sid l true []]) y)).
Proof.
  intros Hi Hsm. cbv zeta. unfold subscribe_register. destruct (ei_both _ Hi) as [pe Hpe]; [by eexists|].
  rewrite Hsm, Hpe. cbn [mbind option_bind].
  destruct (ei_pe _ Hi pe sid Hpe) as [Hbs Hbl]. set (buffered := default [] (pe !! sid)) in *.
  rewrite foldl_pushed by (simpl; lia). simpl. set (l := length (c_evchans (y_c y))).
  set (ch := mkChan 16 buffered false). eexists _, l. split; [done|].
  assert (∀ l' c, c_evchans (y_c y) !! l' = Some c -> (c_evchans (y_c y) ++ [ch]) !! l' = Some c ∧ l' ≠ l) as Hold.
  { intros l' c Hc. split; [by apply lookup_app_l_Some|]. apply lookup_lt_Some in Hc. unfold l. lia. }
  assert ((c_evchans (y_c y) ++ [ch]) !! l = Some ch) as Hnew by (by apply list_lookup_middle).
  assert (∀ j s, (y_subs y ++ [mkSub sid l true []]) !! j = Some s ->
    (y_subs y !! j = Some s ∧ j ≠ length (y_subs y) ∧ ss_ch s ≠ l) ∨ (j = length (y_subs y) ∧ s = mkSub sid l true [])) as Hsubs.
  { intros j s. rewrite lookup_app. destruct (y_subs y !! j) as [s'|] eqn:Hj.
    - intros [= ->]. left. split; [done|]. split; [apply lookup_lt_Some in Hj; lia|].
      destruct (ei_sub _ Hi j s Hj) as (c & Hc & _). by apply Hold in Hc as [_ ?].
    - intros [Hlen <-]%list_lookup_singleton_Some. right. split; [|done]. apply lookup_ge_None in Hj. lia. }
  assert ((y_subs y ++ [mkSub sid l true []]) !! length (y_subs y) = Some (mkSub sid l true [])) as Hlast
    by (by apply list_lookup_middle).
  split; unfold sole; cbn [set_c set_subs set_events y_emitted y_routed y_s2c y_c y_subs y_rl c_evchans c_subs c_pendEvs].
  - apply (ei_wire _ Hi).
  - intros l' c. rewrite lookup_app. destruct (c_evchans (y_c y) !! l') eqn:E.
    + intros [= ->]. by apply (ei_caps _ Hi l').
    + by intros [_ <-]%list_lookup_singleton_Some.
  - intros j s [(Hj & _)|(-> & ->)]%Hsubs.
    + destruct (ei_sub _ Hi j s Hj) as (c & Hc & ?). exists c. split; [by apply Hold in Hc as [? _]|done].
    + exists ch. by split.
  - intros j j' s s' [(Hj & Hn & Hc)|(-> & ->)]%Hsubs [(Hj' & Hn' & Hc')|(-> & ->)]%Hsubs Heq; simpl in Heq; try done.
    by apply (ei_inj _ Hi j j' s s').
  - intros m sid' l' [= <-]. rewrite lookup_insert. case_decide as Hsid.
    + intros [= <-]. split; [by exists ch|]. by exists (length (y_subs y)), (mkSub sid l true []).
    + intros Hl'. destruct (ei_map _ Hi sm sid' l' Hsm Hl') as [Ho (j & s & Hj & ? & ?)].
      split; [by apply open_at_app|]. exists j, s. split; [by apply lookup_app_l_Some|done].
  - intros q sid' [= <-]. rewrite lookup_delete. case_decide; [simpl; split; [apply sublist_nil_l|lia]|].
    by apply (ei_pe _ Hi).
  - intros _ _. by eexists.
  - intros _. by eexists.
  - intros q sid' [= <-] Hno Hlen. rewrite lookup_delete. case_decide as Hsid.
    + subst sid'. by destruct (Hno _ _ Hlast).
    + apply (ei_fresh _ Hi); [done| |done]. intros j s Hj. apply (Hno j). by apply lookup_app_l_Some.
  - intros j s [(Hj & Hn & Hc)|(-> & ->)]%Hsubs Hsl Hop Hlen.
    + assert (sole y j s) as Hsl' by (intros j' s' Hj' ?; apply (Hsl j' s'); [by apply lookup_app_l_Some|done]).
      destruct (ei_lossless _ Hi j s Hj Hsl' Hop Hlen) as [(c & Hcl & Heq) Hmap]. split.
      * exists c. split; [by apply Hold in Hcl as [? _]|done].
      * intros m [= <-]. rewrite lookup_insert_ne; [by apply Hmap|]. intros Hsid.
        assert (length (y_subs y) = j) by (apply (Hsl _ _ Hlast); done). lia.
    + simpl in *. split; [|intros m [= <-]; by rewrite lookup_insert_eq]. exists ch. split; [done|].
      apply (ei_fresh _ Hi pe sid Hpe); [|done]. intros j s Hj Hs.
      assert (j = length (y_subs y)) as -> by (apply (Hsl j s); [by apply lookup_app_l_Some|done]).
      apply lookup_lt_Some in Hj. lia.
Qed.

(** A subscription object that is closed keeps its id, channel and events. *)
Lemma close_sub_back (subs : list SubSt) j sid l got j' s' :
  subs !! j = Some (mkSub sid l true got) ->
  (<[j := mkSub sid l false got]> subs) !! j' = Some s' ->
  ∃ s, subs !! j' = Some s ∧ ss_id s' = ss_id s ∧ ss_ch s' = ss_ch s ∧ ss_got s' = ss_got s ∧
    (ss_open s' = true -> s' = s ∧ j' ≠ j).
Proof.
  intros Hj. assert (j < length subs) as Hlt by (by apply lookup_lt_Some in Hj).
  destruct (decide (j = j')) as [<-|Hne].
  - rewrite list_lookup_insert_eq by done. intros [= <-]. by eexists.
  - rewrite list_lookup_insert_ne by done. intros ?. by exists s'.
Qed.

Lemma close_sub_fwd (subs : list SubSt) j sid l got j' s :
  subs !! j = Some (mkSub sid l true got) -> subs !! j' = Some s ->
  ∃ s', (<[j := mkSub sid l false got]> subs) !! j' = Some s' ∧ ss_id s' = ss_id s ∧ ss_ch s' = ss_ch s.
Proof.
  intros Hj Hj'. assert (j < length subs) as Hlt by (by apply lookup_lt_Some in Hj).
  destruct (decide (j = j')) as [<-|Hne].
  - rewrite list_lookup_insert_eq by done. eexists. split; [done|]. rewrite Hj in Hj'. by injection Hj' as <-.
  - rewrite list_lookup_insert_ne by done. by exists s.
Qed.

(** Closing subscription [j]: the channels keep their contents and at most its
    entry is gone. *)
Lemma einv_unsubscribed j sid l got y c :
  einv y -> y_subs y !! j = Some (mkSub sid l true got) ->
  c_pendEvs c = c_pendEvs (y_c y) ->
  (∀ l c0, c_evchans c !! l = Some c0 -> ∃ c1, c_evchans (y_c y) !! l = Some c1 ∧ ch_buf c0 = ch_buf c1 ∧ ch_cap c0 = ch_cap c1) ->
  (∀ l c1, c_evchans (y_c y) !! l = Some c1 -> ∃ c0, c_evchans c !! l = Some c0 ∧ ch_buf c0 = ch_buf c1) ->
  (is_Some (c_subs c) <-> is_Some (c_subs (y_c y))) ->
  (∀ m sid' l', c_subs c = Some m -> m !! sid' = Some l' -> open_at (c_evchans c) l' ∧
     ∃ m0, c_subs (y_c y) = Some m0 ∧ m0 !! sid' = Some l') ->
  (∀ m m0 sid', c_subs c = Some m -> c_subs (y_c y) = Some m0 -> sid' ≠ sid -> m !! sid' = m0 !! sid') ->
  einv (set_c c (set_subs (<[j := mkSub sid l false got]> (y_subs y)) y)).
Proof.
  intros Hi Hj Hp Hb Hf Hss Hm1 Hm2.
  pose proof (fun j' s' => close_sub_back (y_subs y) j sid l got j' s' Hj) as Hback.
  pose proof (fun j' s => close_sub_fwd (y_subs y) j sid l got j' s Hj) as Hfwd.
  split; unfold sole; cbn [set_c set_subs y_emitted y_routed y_s2c y_c y_subs y_rl]; rewrite ?Hp.
  - apply (ei_wire _ Hi).
  - intros l' c0 Hc0. destruct (Hb l' c0 Hc0) as (c1 & Hc1 & _ & ->). by eapply (ei_caps _ Hi).
  - intros j' s' Hj'. destruct (Hback j' s' Hj') as (s & Hs & -> & -> & -> & _).
    destruct (ei_sub _ Hi j' s Hs) as (c1 & Hc1 & ?). destruct (Hf _ _ Hc1) as (c0 & ? & Heq).
    exists c0. by rewrite Heq.
  - intros j1 j2 t1 t2 H1 H2. destruct (Hback _ _ H1) as (u1 & ? & _ & -> & _), (Hback _ _ H2) as (u2 & ? & _ & -> & _).
    by apply (ei_inj _ Hi).
  - intros m sid' l' Hm Hl'. destruct (Hm1 m sid' l' Hm Hl') as (Ho & m0 & Hm0 & Hl0). split; [done|].
    destruct (ei_map _ Hi m0 sid' l' Hm0 Hl0) as (_ & j' & s & Hj' & ? & ?).
    destruct (Hfwd j' s Hj') as (s' & ? & ? & ?). exists j', s'. split; [done|]. split; congruence.
  - apply (ei_pe _ Hi).
  - rewrite Hss. apply (ei_live _ Hi).
  - rewrite Hss. apply (ei_both _ Hi).
  - intros pe sid' Hpe Hno. apply (ei_fresh _ Hi); [done|]. intros j' s Hj' Hid.
    destruct (Hfwd j' s Hj') as (s' & Hs' & ? & _). apply (Hno j' s' Hs'). congruence.
  - intros j' s' Hj' Hsl Hop Hlen. destruct (Hback j' s' Hj') as (s & Hs & _ & _ & _ & Hsame).
    destruct (Hsame Hop) as [-> Hne].
    assert (sole y j' s) as Hsl'.
    { intros k t Hk Hid. destruct (Hfwd k t Hk) as (t' & Ht' & ? & _). apply (Hsl k t' Ht'). congruence. }
    destruct (ei_lossless _ Hi j' s Hs Hsl' Hop Hlen) as [(c1 & Hc1 & Heq) Hmap].
    destruct (Hf _ _ Hc1) as (c0 & Hc0 & Hb0). split; [exists c0; by rewrite Hb0|].
    intros m Hm. destruct (c_subs (y_c y)) as [m0|] eqn:Hm0; [|destruct Hss as [Hss _]; by destruct Hss].
    rewrite (Hm2 m m0 (ss_id s) Hm eq_refl); [by apply Hmap|]. intros Hid.
    destruct Hne. symmetry. by apply (Hsl' j (mkSub sid l true got)).
Qed.

(** [Subscription.Close]. *)
Lemma einv_sub_close j sid l got y :
  einv y -> y_subs y !! j = Some (mkSub sid l true got) ->
  ∃ c, sub_close sid (y_c y) = Some c ∧
    einv (set_c c (set_subs (<[j := mkSub sid l false got]> (y_subs y)) y)).
Proof.
  intros Hi Hj. pose proof (einv_unsubscribed j sid l got y) as Hgen.
  unfold sub_close. destruct (c_subs (y_c y)) as [m|] eqn:Hm.
  2:{ eexists. split; [done|]. apply (Hgen _ Hi Hj); rewrite ?Hm; try done; eauto. }
  destruct (m !! sid) as [l0|] eqn:Hl0.
  2:{ eexists. split; [done|]. apply (Hgen _ Hi Hj); rewrite ?Hm; try done; eauto; [|congruence].
      intros m' sid' l' [= <-] Hl'. split; [by apply (ei_map _ Hi m sid')|eauto]. }
  destruct (close_at_open (c_evchans (y_c y)) l0) as (c0 & Hc0 & ->); [by apply (ei_map _ Hi m sid)|].
  simpl. eexists. split; [done|]. assert (l0 < length (c_evchans (y_c y))) as Hlt0 by (by apply lookup_lt_Some in Hc0).
  apply (Hgen _ Hi Hj); cbn [set_events c_evchans c_subs c_pendEvs]; try done.
  - intros l' c'. destruct (decide (l0 = l')) as [<-|Hne].
    + rewrite list_lookup_insert_eq by done. intros [= <-]. by exists c0.
    + rewrite list_lookup_insert_ne by done. eauto.
  - intros l' c1 Hc1. destruct (decide (l0 = l')) as [<-|Hne].
    + rewrite list_lookup_insert_eq by done. eexists. split; [done|]. simpl. congruence.
    + rewrite list_lookup_insert_ne by done. eauto.
  - intros m' sid' l' [= <-]. rewrite lookup_delete_Some. intros [Hne Hl'].
    destruct (ei_map _ Hi m sid' l' Hm Hl') as [Ho (j1 & t1 & Ht1 & Hid1 & Hch1)]. split; [|eauto].
    apply open_at_insert_ne; [|done]. intros <-.
    destruct (ei_map _ Hi m sid _ Hm Hl0) as [_ (j2 & t2 & Ht2 & Hid2 & Hch2)].
    assert (j1 = j2) as -> by (apply (ei_inj _ Hi j1 j2 t1 t2); congruence). congruence.
  - intros m' m0 sid' [= <-] [= <-] Hne. by rewrite lookup_delete_ne.
Qed.

(** A subscriber reads. *)
Lemma einv_event j y : einv y -> einv (do_event j y).
Proof.
  intros Hi. unfold do_event. destruct (y_subs y !! j) as [[sid l op got]|] eqn:Hj; [|done].
  destruct (c_evchans (y_c y) !! l) as [c0|] eqn:Hc0; simpl; [|done].
  unfold recv. destruct (ch_buf c0) as [|ev q] eqn:Hb; [destruct (ch_closed c0); exact Hi|].
  assert (j < length (y_subs y)) as Hjl by (by apply lookup_lt_Some in Hj).
  assert (l < length (c_evchans (y_c y))) as Hll by (by apply lookup_lt_Some in Hc0).
  set (s1 := mkSub sid l op (got ++ [ev])). set (c1 := mkChan (ch_cap c0) q (ch_closed c0)).
  assert (∀ j' s', (<[j := s1]> (y_subs y)) !! j' = Some s' -> ∃ s, y_subs y !! j' = Some s ∧
    ss_id s' = ss_id s ∧ ss_ch s' = ss_ch s ∧ ss_open s' = ss_open s ∧
    ∀ c, c_evchans (y_c y) !! ss_ch s = Some c ->
      ∃ c', (<[l := c1]> (c_evchans (y_c y))) !! ss_ch s = Some c' ∧ ss_got s' ++ ch_buf c' = ss_got s ++ ch_buf c) as Hback.
  { intros j' s'. destruct (decide (j = j')) as [<-|Hne].
    - rewrite list_lookup_insert_eq by done. intros [= <-]. eexists. split; [exact Hj|]. do 3 (split; [done|]).
      simpl. intros c Hc. rewrite list_lookup_insert_eq by done. eexists. split; [done|].
      assert (c = c0) as -> by congruence. rewrite Hb. simpl. by rewrite <- app_assoc.
    - rewrite list_lookup_insert_ne by done. intros Hs'. exists s'. do 4 (split; [done|]). intros c Hc. exists c.
      rewrite list_lookup_insert_ne; [done|]. intros Hl. apply Hne. by eapply (ei_inj _ Hi). }
  assert (∀ j' s, y_subs y !! j' = Some s -> ∃ s', (<[j := s1]> (y_subs y)) !! j' = Some s' ∧
    ss_id s' = ss_id s ∧ ss_ch s' = ss_ch s) as Hfwd.
  { intros j' s Hs. destruct (decide (j = j')) as [<-|Hne].
    - rewrite list_lookup_insert_eq by done. exists s1. split; [done|]. rewrite Hj in Hs. by injection Hs as <-.
    - rewrite list_lookup_insert_ne by done. by exists s. }
  split; unfold sole; cbn [set_c set_subs set_events y_emitted y_routed y_s2c y_c y_subs y_rl c_evchans c_subs c_pendEvs].
  - apply (ei_wire _ Hi).
  - intros l' c. destruct (decide (l = l')) as [<-|Hne]; [|rewrite list_lookup_insert_ne by done; apply (ei_caps _ Hi)].
    rewrite list_lookup_insert_eq by done. intros [= <-]. by apply (ei_caps _ Hi l c0).
  - intros j' s' Hs'. destruct (Hback j' s' Hs') as (s & Hs & -> & -> & _ & Hc).
    destruct (ei_sub _ Hi j' s Hs) as (c & Hcl & Hsub). destruct (Hc c Hcl) as (c' & ? & Heq). exists c'. by rewrite Heq.
  - intros j1 j2 t1 t2 H1 H2. destruct (Hback _ _ H1) as (u1 & ? & _ & -> & _), (Hback _ _ H2) as (u2 & ? & _ & -> & _).
    by apply (ei_inj _ Hi).
  - intros m sid' l' Hm Hl'. destruct (ei_map _ Hi m sid' l' Hm Hl') as [(c & Hc & Ho) (j' & s & Hs & ? & ?)]. split.
    + destruct (decide (l = l')) as [<-|Hne]; [|exists c; by rewrite list_lookup_insert_ne].
      exists c1. rewrite list_lookup_insert_eq by done. split; [done|]. simpl. congruence.
    + destruct (Hfwd j' s Hs) as (s' & ? & ? & ?). exists j', s'. split; [done|]. split; congruence.
  - apply (ei_pe _ Hi).
  - apply (ei_live _ Hi).
  - apply (ei_both _ Hi).
  - intros pe sid' Hpe Hno. apply (ei_fresh _ Hi); [done|]. intros j' s Hs Hid.
    destruct (Hfwd j' s Hs) as (s' & Hs' & ? & _). apply (Hno j' s' Hs'). congruence.
  - intros j' s' Hs' Hsl Hop. destruct (Hback j' s' Hs') as (s & Hs & Hid & -> & Hopn & Hc). rewrite Hid. intros Hlen.
    assert (sole y j' s) as Hsl'.
    { intros k t Hk Ht. destruct (Hfwd k t Hk) as (t' & Ht' & ? & _). apply (Hsl k t' Ht'). congruence. }
    destruct (ei_lossless _ Hi j' s Hs Hsl' ltac:(congruence) Hlen) as [(c & Hcl & Heq) Hmap].
    destruct (Hc c Hcl) as (c' & ? & Heq'). split; [|done]. exists c'. by rewrite Heq'.
Qed.

(** The tear-down of the subscriptions. *)
Lemma einv_tear_subs y : einv y -> y_rl y = RlTearSubs ->
  ∃ c, tear_subs (y_c y) = Some c ∧ einv (set_rl RlClosing (set_c c y)).
Proof.
  intros Hi Hrl. unfold tear_subs. destruct (ei_live _ Hi) as [m Hm]; [by rewrite Hrl..|]. rewrite Hm.
  destruct (close_all_spec (map_to_list m).*2 (c_evchans (y_c y))) as (h & -> & Hlen & Hin & Hout).
  - apply NoDup_locs. intros s1 s2 l H1 H2.
    destruct (ei_map _ Hi m s1 l Hm H1) as (_ & j1 & t1 & Ht1 & <- & Hc1).
    destruct (ei_map _ Hi m s2 l Hm H2) as (_ & j2 & t2 & Ht2 & <- & Hc2).
    assert (j1 = j2) as -> by (apply (ei_inj _ Hi j1 j2 t1 t2); congruence). congruence.
  - intros l [sid Hl]%elem_of_locs. by apply (ei_map _ Hi m sid).
  - simpl. eexists. split; [done|].
    assert (∀ l c, c_evchans (y_c y) !! l = Some c -> ∃ c', h !! l = Some c' ∧ ch_buf c' = ch_buf c) as Hf.
    { intros l c Hc. destruct (decide (l ∈ (map_to_list m).*2)) as [Hl|Hl].
      - rewrite Hin, Hc by done. by eexists.
      - rewrite Hout, Hc by done. by eexists. }
    split; unfold sole; cbn [set_rl set_c set_subs set_events y_emitted y_routed y_s2c y_c y_subs y_rl c_evchans c_subs c_pendEvs];
      try done.
    + apply (ei_wire _ Hi).
    + intros l c Hc. destruct (decide (l ∈ (map_to_list m).*2)) as [Hl|Hl].
      * rewrite Hin in Hc by done. apply fmap_Some in Hc as (c0 & Hc0 & ->). by apply (ei_caps _ Hi l c0).
      * rewrite Hout in Hc by done. by apply (ei_caps _ Hi l).
    + intros j s Hj. destruct (ei_sub _ Hi j s Hj) as (c & Hc & Hs). destruct (Hf _ _ Hc) as (c' & ? & Heq).
      exists c'. by rewrite Heq.
    + apply (ei_inj _ Hi).
    + intros j s Hj Hsl Hop Hle. destruct (ei_lossless _ Hi j s Hj Hsl Hop Hle) as [(c & Hc & Heq) _].
      destruct (Hf _ _ Hc) as (c' & ? & Hb). split; [|done]. exists c'. by rewrite Hb.
Qed.

(** Every step that is not about subscriptions. *)
Lemma einv_same y y' :
  einv y -> y_subs y' = y_subs y -> y_routed y' = y_routed y -> y_emitted y' = y_emitted y -> y_s2c y' = y_s2c y ->
  c_evchans (y_c y') = c_evchans (y_c y) -> c_subs (y_c y') = c_subs (y_c y) ->
  c_pendEvs (y_c y') = c_pendEvs (y_c y) ->
  (y_rl y' ≠ RlClosing -> y_rl y' ≠ RlDone -> y_rl y ≠ RlClosing ∧ y_rl y ≠ RlDone) -> einv y'.
Proof.
  intros Hi ? ? He Hs. intros. apply (einv_frame y); try done. rewrite He, Hs. apply (ei_wire _ Hi).
Qed.

(** The message is an event for the server's history exactly when the read loop
    treats it as one. *)
Lemma einv_read y : einv y -> ∃ y', do_read unmarshal_event y = Some y' ∧ einv y'.
Proof.
  intros Hi. unfold do_read. destruct (y_rl y) eqn:Hrl; try (by exists y).
  destruct (y_s2c y) as [|m s2c] eqn:Hs; [by exists y|].
  assert (events_of unmarshal_event [m] = [] -> einv (set_s2c s2c y)) as Hskip.
  { intros Hm. apply (einv_frame y); try done. simpl. rewrite (ei_wire _ Hi), Hs.
    change (m :: s2c) with ([m] ++ s2c). by rewrite events_of_app, Hm. }
  unfold read_message. destruct (IsResponse m) eqn:Hresp.
  - assert (events_of unmarshal_event [m] = []) as Hm.
    { unfold events_of, IsNotification. simpl. unfold IsResponse in Hresp.
      apply andb_true_iff in Hresp as [He%bool_decide_eq_true _]. by rewrite He. }
    specialize (Hskip Hm). destruct (ID m) as [id|]; [|by eexists].
    unfold take_pending. cbn [set_s2c y_c]. destruct (c_pending (y_c y) ≫= lookup id) as [ch|];
      (eexists; split; [done|]); apply (einv_same (set_s2c s2c y)); try done; simpl; by rewrite Hrl.
  - destruct (IsNotification m && bool_decide (Method m = "event")) eqn:Hn.
    2:{ eexists. split; [done|]. apply Hskip. unfold events_of. simpl. by rewrite Hn. }
    destruct (Params m ≫= unmarshal_event) as [ev|] eqn:Hev.
    2:{ eexists. split; [done|]. apply Hskip. unfold events_of. simpl. by rewrite Hn, Hev. }
    destruct (einv_route ev m s2c y Hi Hrl Hs) as (c & Hc & Hi').
    { unfold events_of. simpl. by rewrite Hn, Hev. }
    cbn [set_s2c y_c]. rewrite Hc. simpl. by eexists.
Qed.

(** ** The whole connection *)

Hypothesis event_law : ∀ ev, unmarshal_event (marshal_event ev) = Some ev.

Lemma events_of_emitted ev : events_of unmarshal_event [event_message marshal_event ev] = [ev].
Proof. unfold events_of. simpl. by rewrite event_law. Qed.

Lemma einv_serve y : einv y -> einv (do_serve marshal_event unmarshal_event srv y).
Proof.
  intros Hi. unfold do_serve. destruct (y_c2s y) as [|req c2s]; [done|].
  destruct (handle_line marshal_event srv (Some req) (y_st y)) as [st out].
  destruct Hi. split; simpl; eauto. by rewrite events_of_app, ei_wire0, app_assoc.
Qed.

Lemma einv_emit ev y : einv y -> einv (do_emit marshal_event ev y).
Proof.
  intros []. split; simpl; eauto. by rewrite events_of_app, events_of_emitted, ei_wire0, app_assoc.
Qed.

Lemma forget_events id c : c_evchans (forget id c) = c_evchans c ∧ c_subs (forget id c) = c_subs c ∧
  c_pendEvs (forget id c) = c_pendEvs c.
Proof. done. Qed.

Lemma sys_do_ok o y : cinv srv y -> einv y ->
  ∃ y', sys_do marshal_event unmarshal_event parse_sub srv o y = Some y' ∧ cinv srv y' ∧ einv y'.
Proof.
  intros Hc Hi. enough (∃ y', sys_do marshal_event unmarshal_event parse_sub srv o y = Some y' ∧ einv y')
    as (y' & Hd & Hi') by (exists y'; split; [done|split; [by eapply cinv_do|done]]).
  destruct o; cbn [sys_do].
  - eexists. split; [done|]. unfold do_call.
    destruct (call_begin_spec (y_c y)) as (c & -> & _ & _ & _ & ? & ? & ?). by apply (einv_same y).
  - eexists. split; [done|]. unfold do_write. repeat case_match; try done; by apply (einv_same y).
  - eexists. split; [done|]. unfold do_reply. repeat case_match; try done; by apply (einv_same y).
  - eexists. split; [done|]. unfold do_ctx. repeat case_match; try done; by apply (einv_same y).
  - eexists. split; [done|]. unfold do_closed. repeat case_match; try done; by apply (einv_same y).
  - by apply einv_read.
  - destruct (cinv_deliver srv y Hc) as (y1 & Hd & _ & Hrl). exists y1. split; [done|].
    unfold do_deliver in Hd. destruct (y_rl y) eqn:Erl; try (by injection Hd as <-).
    destruct (c_replies (y_c y) !! ch) as [c|]; [|done]. simpl in Hd. destruct (ch_closed c); [done|].
    case_decide; injection Hd as <-; [|done]. apply (einv_same y); try done. intros _ _. by rewrite Erl.
  - eexists. split; [done|]. destruct (y_rl y) eqn:Erl; try done. apply (einv_same y); try done.
    intros _ _. by rewrite Erl.
  - unfold do_tear. destruct (y_rl y) eqn:Erl; try (by exists y).
    + destruct (cinv_tear_pending srv y Hc) as (c & -> & ? & ? & ? & _). simpl. eexists. split; [done|].
      apply (einv_same y); try done. intros _ _. by rewrite Erl.
    + destruct (einv_tear_subs y Hi Erl) as (c & -> & ?). simpl. by eexists.
    + eexists. split; [done|]. by apply (einv_same y).
  - eexists. split; [done|]. unfold do_subscribe. destruct (y_calls y !! i) as [[? ? ? ? [| |[]]]|]; try done.
    case_decide; [done|]. destruct (c_subs (y_c y)) as [sm|] eqn:Hsm.
    + destruct (einv_subscribe (parse_sub result) y sm Hi Hsm) as (c & l & -> & ?). done.
    + unfold subscribe_register. rewrite Hsm. by apply (einv_same y).
  - unfold do_sub_close. destruct (y_subs y !! j) as [[sid l [] got]|] eqn:Hj; try (by exists y).
    destruct (einv_sub_close j sid l got y Hi Hj) as (c & -> & ?). simpl. by eexists.
  - eexists. split; [done|]. by apply einv_event.
  - eexists. split; [done|]. by apply einv_serve.
  - eexists. split; [done|]. by apply einv_emit.
Qed.

Lemma sys_run_ok os : ∀ y, cinv srv y -> einv y ->
  ∃ y', sys_run marshal_event unmarshal_event parse_sub srv os y = Some y' ∧ cinv srv y' ∧ einv y'.
Proof.
  induction os as [|o os IH]; intros y Hc Hi; [by exists y|]. cbn [sys_run].
  destruct (sys_do_ok o y Hc Hi) as (y1 & -> & Hc1 & Hi1). by apply IH.
Qed.

(** C4: in every interleaving of concurrent calls, timeouts, subscriptions, the
    read loop, its tear-down and the server, nothing panics and the read loop
    never blocks on a reply channel; the server serves each request at most
    once; and a call that returns a result or a server error returns what the
    server answered to exactly its request: same id, method and parameters, the
    handler's result or error in the state it was served in. *)
Theorem ipc_calls os st :
  ∃ y, sys_run marshal_event unmarshal_event parse_sub srv os (sys_init st) = Some y ∧
    (∀ l m, y_rl y = RlHolding l m -> c_replies (y_c y) !! l = Some (make_chan 1)) ∧
    NoDup ((fun d => ID (sd_req d)) <$> y_log y) ∧
    (∀ i j cl cl', y_calls y !! i = Some cl -> y_calls y !! j = Some cl' -> cl_id cl = cl_id cl' -> i = j) ∧
    ∀ i cl r, y_calls y !! i = Some cl -> cl_pc cl = CDone r ->
      (∃ raw, r = CROk raw) ∨ (∃ e, r = CRRpc e) ->
      ∃ d, d ∈ y_log y ∧ sd_req d = request (cl_id cl) (cl_method cl) (cl_params cl) ∧
        answer srv (Some (sd_req d)) (sd_st d) = Some (sd_resp d) ∧ r = reply_result (sd_resp d).
Proof.
  destruct (sys_run_ok os (sys_init st)) as (y & Hr & Hc & _); [apply cinv_init|apply einv_init|].
  exists y. split; [done|]. split; [intros l m Hrl; by apply (ci_hold _ _ Hc l m)|].
  split; [pose proof (ci_once _ _ Hc) as Ho; by apply NoDup_app in Ho as (_ & _ & ?)|]. split.
  - intros i j cl cl' Hi Hj. destruct (ci_ids _ _ Hc i cl Hi) as [-> _], (ci_ids _ _ Hc j cl' Hj) as [-> _]. lia.
  - intros i cl r Hcl Hpc Hok. pose proof (ci_done _ _ Hc i cl r Hcl Hpc) as Hd.
    assert (∃ m, genuine (y_log y) i m ∧ r = reply_result m) as (m & (d & Hin & <- & Hid) & Hres)
      by (destruct Hok as [[raw ->]|[e ->]]; exact Hd).
    destruct (ci_log _ _ Hc d Hin) as [(j & cl' & Hj & Hreq & _) Hans].
    exists d. split; [done|]. rewrite Hreq in Hid. simpl in Hid. assert (j = i) as -> by (injection Hid; lia).
    assert (cl' = cl) as -> by congruence. destruct (ci_ids _ _ Hc i cl Hcl) as [-> _]. done.
Qed.

End events.

(** ** Witnesses *)

Definition demo_marshal_event (ev : Event) : bytes :=
  Z.of_nat (String.length (Sub ev)) :: Z.of_nat (String.length (Kind ev)) ::
  (chr <$> String.list_ascii_of_string (Sub ev)) ++
  (chr <$> String.list_ascii_of_string (Kind ev)) ++ Data ev.

Definition demo_string (b : bytes) : string := String.string_of_list_ascii (of_chr <$> b).

Definition demo_unmarshal_event (b : bytes) : option Event :=
  match b with
  | n :: k :: b =>
      let sub := take (Z.to_nat n) b in
      let b := drop (Z.to_nat n) b in
      Some (mkEvent (demo_string sub) (demo_string (take (Z.to_nat k) b)) (drop (Z.to_nat k) b))
  | _ => None
  end.

Lemma demo_string_chr s : demo_string (chr <$> String.list_ascii_of_string s) = s.
Proof.
  unfold demo_string. induction s as [|c s IH]; [done|].
  cbn [String.list_ascii_of_string]. rewrite !fmap_cons, of_chr_chr. simpl. by rewrite IH.
Qed.

Lemma demo_event_law ev : demo_unmarshal_event (demo_marshal_event ev) = Some ev.
Proof.
  assert (∀ s, length (chr <$> String.list_ascii_of_string s) = String.length s) as Hl.
  { intros s. rewrite length_fmap. induction s; simpl; auto. }
  destruct ev as [s k d]. unfold demo_marshal_event, demo_unmarshal_event. cbn [Sub Kind Data].
  rewrite !Nat2Z.id. rewrite <- !Hl. by rewrite take_app_length, drop_app_length, take_app_length, drop_app_length, !demo_string_chr.
Qed.

(** A daemon that counts, and one subscription whose first event overtakes it. *)
Definition demo_server : Server nat :=
  Register "count" (fun st _ => (S st, HResult (Ok [Z.of_nat st]), []))
    (Register "watch" (fun st _ => (st, HResult (Ok [115]%Z), [mkEvent "s" "tick" [Z.of_nat st]])) (NewServer "v1")).

Definition demo_parse_sub (raw : option bytes) : string := demo_string (default [] raw).

Definition demo_ops : list iop :=
  [ICall "count" None; ICall "watch" None; IWrite 1 true; IWrite 0 true; IServe; IServe;
   IRead; IRead; IDeliver; IReply 1; IEmit (mkEvent "s" "tock" []); IRead; IDeliver; IRead;
   ISubscribe 1; IEvent 0; IReply 0; IBreak; ITear; ITear; ITear].

Definition demo_final : Sys := default (sys_init 7)
  (sys_run demo_marshal_event demo_unmarshal_event demo_parse_sub demo_server demo_ops (sys_init 7)).


Lemma ipc_calls_witness :
  ∃ d, sd_req d = request 1 "count" None ∧ answer demo_server (Some (sd_req d)) (sd_st d) = Some (sd_resp d) ∧
    CROk (Some [7]%Z) = reply_result (sd_resp d).
Proof.
  destruct (ipc_calls demo_marshal_event demo_unmarshal_event demo_parse_sub demo_server demo_event_law
    demo_ops 7) as (y & Hr & _ & _ & _ & Hres).
  assert (y = demo_final) as -> by (unfold demo_final; rewrite Hr; reflexivity).
  destruct (Hres 0 (mkCall 1 0 "count" None (CDone (CROk (Some [7]%Z)))) (CROk (Some [7]%Z)))
    as (d & _ & H1 & H2 & H3); [vm_compute; reflexivity|reflexivity|left; eexists; reflexivity|].
  exists d. split; [exact H1|]. split; [exact H2|exact H3].
Defined.
