(* ===== verification/IpcMethods.v ===== *)
(** * The friends, identity and daemon methods ([internal/ipc/methods])

    [friends.go], [identity.go], [daemon.go] and [resolveTarget] of [calls.go]:
    each handler on the parameters its request carries and the state it was
    constructed with. [method] makes a handler of the server of a typed result.
    The clock, the writes of the store and the JSON of the parameters come from
    the surroundings. *)
From S2P Require Import Prelude GoStrings Base64 Iox Sealed Identity IpcServer.
From S2P Require FriendsStore Presence.
#[local] Open Scope string_scope.
#[local] Open Scope list_scope.

(** [json.Unmarshal] of a request's parameters: the value or the error's text. *)
Class Params (A : Type) := json_params : bytes -> result string A.

(** [Unmarshal] fails on absent parameters, which are no bytes. *)
Definition read_params {A} `{Params A} (raw : option bytes) : result RpcError A :=
  map_err (fun e => NewError ErrCodeInvalidParams ("invalid params: " +:+ e)) (json_params (default [] raw)).

(** The handlers that skip it when there are none. *)
Definition read_params_opt {A} `{Params A} (zero : A) (raw : option bytes) : result RpcError A :=
  if decide (default [] raw = []) then Ok zero else read_params raw.

(** What a handler captured and its result, as a handler of the server. *)
Definition reply {R} (marshal : R -> result string bytes) (r : result RpcError R) : HandlerOut :=
  match r with
  | Ok v => HResult (marshal v)
  | Err e => HRpcError e
  end.

Definition method {S R} (marshal : R -> result string bytes)
    (h : option bytes -> S -> S * result RpcError R) : Handler S :=
  fun st raw => let '(st, r) := h raw st in (st, reply marshal r, []).

Definition error_code {R} (r : result RpcError R) : option Z :=
  match r with Ok _ => None | Err e => Some (IpcServer.Code e) end.

(** ** [daemon.go], [identity.go] *)

Record DaemonStatusResult := mkDaemonStatus {
  ds_Version : string;
  ds_PeerID : string;
  ds_StartedAt : Z;
  ds_ListenAddrs : list string;
  ds_CurrentCalls : list string;
  ds_Reachability : string;
  ds_Relays : list string }.

(** The functions are given when the daemon has them; a nil slice is [None]. *)
Definition DaemonStatus (version id : string) (startedAt : Z) (listenAddrs : option (option (list string)))
    (reachability : option string) (relayReservations : option (option (list string)))
  : DaemonStatusResult :=
  let addrs := match listenAddrs with Some (Some l) => l | _ => [] end in
  let relays := match relayReservations with Some (Some r) => r | _ => [] end in
  mkDaemonStatus version id startedAt addrs [] (default "unknown" reachability) relays.

(** [daemon.shutdown]: the reply, and the delay after which [cancel] is called. *)
Definition shutdown_delay : Z := 50 * 10 ^ 6.
Definition DaemonShutdown (now : Z) : string * Z := ("shutting down", now + shutdown_delay)%Z.

Record IdentityGetResult := mkIdentityGet { ig_PeerID : string; ig_PublicKey : string; ig_DisplayName : string }.

(** ** [friends.go] *)

Record FriendsAddParams := mkFriendsAddParams { KeyPath : string; ap_Name : string }.
Record FriendsListEntry := mkFriendsListEntry {
  le_Name : string;
  le_PeerID : string;
  le_Online : bool;
  le_LastSeen : option Z;
  le_AddedAt : Z }.
Record FriendsRenameParams := mkFriendsRenameParams { rn_Name : string; NewName : string }.
Record FriendsShowResult := mkFriendsShow {
  sr_Name : string;
  sr_PeerID : string;
  sr_PublicKey : string;
  sr_AddedAt : Z;
  sr_Online : bool;
  sr_LastSeen : option Z }.

(** Behind the friends methods: the store, its files and the presence tracker. *)
Record Peers := mkPeers {
  p_store : FriendsStore.Store;
  p_files : gmap string bytes;
  p_presence : Presence.Presence }.

Definition p_friends (st : Peers) : gmap string FriendsStore.Friend := FriendsStore.abs (p_store st).

Section methods.
Context `{Crypto, !Keys _}.
Context (yaml_unmarshal : bytes -> option PublicIdentity) (marshal : list FriendsStore.Friend -> option bytes).
(** [peer.Decode], and the texts of errors that quote the operating system, the
    YAML, JSON and key libraries. *)
Context (Decode : string -> result string string) (export_error : IdentityErr -> string)
        (persist_error : FriendsStore.StoreErr -> string).
Context `{!Params FriendsAddParams, !Params string, !Params FriendsRenameParams}.

Definition IdentityGet (kp : Keypair) (name : string) (key_error : string) : result RpcError IdentityGetResult :=
  match MarshalPublicKey (Pub kp) with
  | None => Err (NewError ErrCodeInternalError ("marshalling pubkey: " +:+ key_error))
  | Some pubBytes => Ok (mkIdentityGet (kp_PeerID kp) (StdEncode pubBytes) name)
  end.

(** [Error] of the store's errors. *)
Definition store_error (e : FriendsStore.StoreErr) : string :=
  match e with
  | FriendsStore.ErrFriendNotFound n => "friend not found: " +:+ Quote n
  | FriendsStore.ErrFriendNameTaken n => "friend name already exists: name " +:+ Quote n
  | FriendsStore.ErrFriendPeerIDTaken id n =>
      "friend peer id already exists: peer id " +:+ ID_String id +:+ " (named " +:+ Quote n +:+ ")"
  | e => persist_error e
  end.

(** A method of the store that changes it. *)
Definition store_call (op : FriendsStore.fop) (o : Os) (st : Peers) : Peers * option FriendsStore.StoreErr :=
  let '(s, fs, e) := FriendsStore.fdo marshal o op (p_store st) (p_files st) in
  (mkPeers s fs (p_presence st), e).

(** The friend [friends.add] builds from its key file. *)
Definition add_friend (now : Z) (p : FriendsAddParams) (fs : gmap string bytes) : result RpcError FriendsStore.Friend :=
  if decide (KeyPath p = "") then Err (NewError ErrCodeInvalidParams "key_path is required")
  else
    ident ← map_err (fun e => NewError ErrCodeInvalidParams ("reading key file: " +:+ export_error e))
              (ReadExport yaml_unmarshal (KeyPath p) fs);
    pid ← map_err (fun e => NewError ErrCodeInvalidParams ("decoding peer id: " +:+ e)) (Decode (pi_PeerID ident));
    let name := if decide (ap_Name p = "") then pi_Name ident else ap_Name p in
    if decide (name = "") then Err (NewError ErrCodeInvalidParams "key file has no name and --name not provided")
    else Ok (FriendsStore.mkFriend name pid (pi_PublicKey ident) now (pi_RendezvousHint ident)).

Definition FriendsAdd (now : Z) (o : Os) (raw : option bytes) (st : Peers) : Peers * result RpcError FriendsListEntry :=
  match p ← read_params_opt (mkFriendsAddParams "" "") raw; add_friend now p (p_files st) with
  | Err e => (st, Err e)
  | Ok f =>
      match store_call (FriendsStore.FAdd f) o st with
      | (st, Some e) => (st, Err (NewError ErrCodeInvalidParams (store_error e)))
      | (st, None) =>
          (st, Ok (mkFriendsListEntry (FriendsStore.Name f) (FriendsStore.PeerID f) false None (FriendsStore.AddedAt f)))
      end
  end.

Definition list_entry (pr : Presence.Presence) (f : FriendsStore.Friend) : FriendsListEntry :=
  mkFriendsListEntry (FriendsStore.Name f) (FriendsStore.PeerID f) (Presence.IsOnline (FriendsStore.PeerID f) pr)
    (Presence.LastSeen (FriendsStore.PeerID f) pr) (FriendsStore.AddedAt f).

Definition FriendsList (st : Peers) : list FriendsListEntry :=
  list_entry (p_presence st) <$> (FriendsStore.List_ (p_store st)).*2.

Definition not_found (e : FriendsStore.StoreErr) : bool :=
  match e with FriendsStore.ErrFriendNotFound _ => true | _ => false end.

Definition FriendsRemove (o : Os) (raw : option bytes) (st : Peers) : Peers * result RpcError string :=
  match read_params raw with
  | Err e => (st, Err e)
  | Ok n =>
      match store_call (FriendsStore.FRemove n) o st with
      | (st, Some e) =>
          (st, Err (NewError (if not_found e then ErrCodeNoSuchFriend else ErrCodeInternalError) (store_error e)))
      | (st, None) => (st, Ok n)
      end
  end.

Definition FriendsRename (o : Os) (raw : option bytes) (st : Peers) : Peers * result RpcError FriendsRenameParams :=
  match read_params raw with
  | Err e => (st, Err e)
  | Ok p =>
      match store_call (FriendsStore.FRename (rn_Name p) (NewName p)) o st with
      | (st, Some e) =>
          (st, Err (NewError (if not_found e then ErrCodeNoSuchFriend else ErrCodeInvalidParams) (store_error e)))
      | (st, None) => (st, Ok p)
      end
  end.

Definition FriendsShow (raw : option bytes) (st : Peers) : result RpcError FriendsShowResult :=
  n ← read_params raw;
  match FriendsStore.Get n (p_store st) with
  | None => Err (NewError ErrCodeNoSuchFriend ("friend " +:+ Quote n +:+ " not found"))
  | Some f =>
      Ok (mkFriendsShow (FriendsStore.Name f) (FriendsStore.PeerID f) (FriendsStore.PublicKey f) (FriendsStore.AddedAt f)
            (Presence.IsOnline (FriendsStore.PeerID f) (p_presence st))
            (Presence.LastSeen (FriendsStore.PeerID f) (p_presence st)))
  end.

(** ** [resolveTarget] *)

Definition has_prefix (p s : string) : bool := String.prefix p s.

Definition looksLikePeerID (s : string) : bool :=
  if decide (String.length s < 32) then false
  else has_prefix "12D3" s || (has_prefix "Qm" s || has_prefix "1A" s || has_prefix "1B" s).

Definition resolveTarget (target : string) (store : option FriendsStore.Store) : result RpcError string :=
  match store ≫= FriendsStore.Get target with
  | Some f => Ok (FriendsStore.PeerID f)
  | None =>
      match Decode target with
      | Ok pid => Ok pid
      | Err err =>
          if looksLikePeerID target
          then Err (NewError ErrCodeInvalidParams ("invalid peer id " +:+ Quote target +:+ ": " +:+ err))
          else Err (NewError ErrCodeNoSuchFriend ("no friend named " +:+ Quote target))
      end
  end.

(** ** Lemmas *)

Lemma persist_not_found o s fs e : (FriendsStore.persistLocked marshal o s fs).2 = Some e -> not_found e = false.
Proof.
  unfold FriendsStore.persistLocked. destruct (marshal (FriendsStore.friends s)); simpl; [|by intros [= <-]].
  intros (c & _ & ->)%fmap_Some. done.
Qed.

(** What a request that changed the store left on disk. *)
Definition written (o : Os) (st st' : Peers) : Prop :=
  (FriendsStore.persistLocked marshal o (p_store st') (p_files st)).2 = None.

Lemma store_call_cases op o st : FriendsStore.store_ok (p_store st) ->
  let st' := (store_call op o st).1 in
  FriendsStore.store_ok (p_store st') ∧ p_presence st' = p_presence st ∧
  (FriendsStore.spec_ok op (p_friends st) ∧ p_friends st' = FriendsStore.spec_do op (p_friends st) ∧
   (store_call op o st).2 = (FriendsStore.persistLocked marshal o (p_store st') (p_files st)).2 ∨
   ¬ FriendsStore.spec_ok op (p_friends st) ∧ st' = st ∧
   (store_call op o st).2 = (FriendsStore.fdo marshal o op (p_store st) (p_files st)).2 ∧ (store_call op o st).2 ≠ None).
Proof.
  intros Hok. destruct (FriendsStore.fdo_store marshal o op (p_store st) (p_files st) Hok) as [Hok' Hc].
  unfold store_call, p_friends. destruct Hc as [(Hs & Ha & Heq)|(Hs & e & Heq & _)].
  - rewrite Heq in Ha, Hok'. rewrite Heq. unfold FriendsStore.persisted in *.
    destruct (FriendsStore.persistLocked marshal o _ (p_files st)) as [fs e] eqn:Hp. cbn in *.
    split; [done|]. split; [done|]. left. split; [done|]. split; [done|]. by rewrite Hp.
  - rewrite Heq in *. cbn. split; [done|]. split; [done|]. right. destruct st. by split_and!.
Qed.

Lemma Get_store_friends n st : FriendsStore.store_ok (p_store st) -> FriendsStore.Get n (p_store st) = p_friends st !! n.
Proof. intros. by apply FriendsStore.Get_abs. Qed.

Lemma remove_spec o raw n st : FriendsStore.store_ok (p_store st) -> read_params raw = Ok n ->
  let st' := (FriendsRemove o raw st).1 in let r := (FriendsRemove o raw st).2 in
  FriendsStore.store_ok (p_store st') ∧
  match p_friends st !! n with
  | None => st' = st ∧ error_code r = Some ErrCodeNoSuchFriend
  | Some _ => p_friends st' = delete n (p_friends st) ∧
      (r = Ok n ∧ written o st st' ∨ error_code r = Some ErrCodeInternalError ∧ ¬ written o st st')
  end.
Proof.
  intros Hok Hraw. unfold FriendsRemove. rewrite Hraw.
  destruct (store_call_cases (FriendsStore.FRemove n) o st Hok) as (Hok' & _ & Hc). unfold written.
  destruct (store_call (FriendsStore.FRemove n) o st) as [st' e] eqn:Hs. cbn in Hok', Hc.
  destruct Hc as [([f Hf] & Ha & ->)|(Hn & -> & He & Hne)].
  - rewrite Hf. destruct (FriendsStore.persistLocked marshal o (p_store st') (p_files st)).2 as [x|] eqn:Hp; cbn.
    + rewrite Hp, (persist_not_found _ _ _ _ Hp). split_and!; auto.
    + rewrite Hp. split_and!; auto.
  - destruct (p_friends st !! n) eqn:Hf; [destruct Hn; by eexists|]. unfold FriendsStore.fdo, FriendsStore.Remove in He.
    pose proof (FriendsStore.find_name (FriendsStore.friends (p_store st)) n) as Hfn.
    destruct (find_index (FriendsStore.has_name n) (FriendsStore.friends (p_store st))) as [i|].
    + destruct Hfn as (l1 & g & l2 & Hl & _ & Hg & _). exfalso.
      apply FriendsStore.abs_lookup_None in Hf. apply Hf. rewrite Hl, <- Hg. set_solver.
    + cbn in He. subst e. by split_and!.
Qed.

Lemma rename_spec o raw p st : FriendsStore.store_ok (p_store st) -> read_params raw = Ok p ->
  let st' := (FriendsRename o raw st).1 in let r := (FriendsRename o raw st).2 in
  FriendsStore.store_ok (p_store st') ∧
  match p_friends st !! NewName p, p_friends st !! rn_Name p with
  | Some _, _ => st' = st ∧ error_code r = Some ErrCodeInvalidParams
  | None, None => st' = st ∧ error_code r = Some ErrCodeNoSuchFriend
  | None, Some f =>
      p_friends st' = <[NewName p := FriendsStore.with_name (NewName p) f]> (delete (rn_Name p) (p_friends st)) ∧
      (r = Ok p ∧ written o st st' ∨ error_code r = Some ErrCodeInvalidParams ∧ ¬ written o st st')
  end.
Proof.
  intros Hok Hraw. unfold FriendsRename. rewrite Hraw.
  destruct (store_call_cases (FriendsStore.FRename (rn_Name p) (NewName p)) o st Hok) as (Hok' & _ & Hc). unfold written.
  destruct (store_call (FriendsStore.FRename (rn_Name p) (NewName p)) o st) as [st' e] eqn:Hs. cbn in Hok', Hc.
  destruct Hc as [([[f Hf] Hnew] & Ha & ->)|(Hn & -> & He & Hne)].
  - rewrite Hf, Hnew. rewrite Hf in Ha.
    destruct (FriendsStore.persistLocked marshal o (p_store st') (p_files st)).2 as [x|] eqn:Hp; cbn;
      rewrite Hp, ?(persist_not_found _ _ _ _ Hp); split_and!; auto.
  - unfold FriendsStore.fdo, FriendsStore.Rename in He.
    pose proof (FriendsStore.rename_scan_spec (rn_Name p) (NewName p) 0 None (FriendsStore.friends (p_store st))) as Hr.
    pose proof (FriendsStore.abs_lookup_None (p_store st)) as Hnone.
    destruct (FriendsStore.rename_scan _ _ _ _ _) as [[i|]|x] eqn:Hscan.
    + destruct Hr as [Hnew [[? _]|(k & f & _ & Hk & Hf)]]; [done|]. destruct Hn. split; [|by apply Hnone].
      exists f. apply FriendsStore.abs_lookup; [done|]. split; [by eapply list_elem_of_lookup_2|done].
    + destruct Hr as [Hnew [[_ Hold]|(? & ? & ? & _)]]; [|done]. apply Hnone in Hnew, Hold.
      unfold p_friends. rewrite Hnew, Hold. cbn in He. subst e. by split_and!.
    + destruct (p_friends st !! NewName p) eqn:Hnew; [|exfalso; by apply Hnone in Hnew].
      cbn in He. subst e. apply FriendsStore.rename_scan_taken in Hscan as ->. by split_and!.
Qed.

(** [List], with what the presence tracker says of each friend. *)
Lemma list_spec st : FriendsStore.store_ok (p_store st) ->
  StronglySorted String.le (le_Name <$> FriendsList st) ∧
  FriendsList st ≡ₚ list_entry (p_presence st) <$> (map_to_list (p_friends st)).*2.
Proof.
  intros Hok. unfold FriendsList. split.
  - rewrite <- list_fmap_compose. change (le_Name ∘ list_entry (p_presence st)) with FriendsStore.Name.
    rewrite FriendsStore.List_names. apply sort_by_key_sorted_fst.
  - f_equiv. unfold FriendsStore.List_. rewrite sort_by_key_perm. unfold p_friends, FriendsStore.abs. f_equiv.
    symmetry. apply map_to_list_to_map. rewrite FriendsStore.abs_fst. apply Hok.
Qed.

Lemma resolve_friend n st f : FriendsStore.store_ok (p_store st) -> p_friends st !! n = Some f ->
  resolveTarget n (Some (p_store st)) = Ok (FriendsStore.PeerID f).
Proof. intros Hok Hf. unfold resolveTarget. cbn. by rewrite Get_store_friends, Hf. Qed.

Lemma add_friend_inv now p fs f : add_friend now p fs = Ok f ->
  ∃ ident pub id pid, ReadExport yaml_unmarshal (KeyPath p) fs = Ok ident ∧ PublicIdentity_PubKey ident = Ok pub ∧
    IDFromPublicKey pub = Some id ∧ Decode (ID_String id) = Ok pid ∧ FriendsStore.Name f ≠ "" ∧
    FriendsStore.Name f = (if decide (ap_Name p = "") then pi_Name ident else ap_Name p) ∧
    f = FriendsStore.mkFriend (FriendsStore.Name f) pid (pi_PublicKey ident) now (pi_RendezvousHint ident).
Proof.
  unfold add_friend. destruct (decide _); [done|].
  intros (ident & Hi & Hr)%result_bind_inv. apply result_bind_inv in Hr as (pid & Hd & Hr).
  apply map_err_Ok in Hi, Hd. destruct (decide ((if decide (ap_Name p = "") then pi_Name ident else ap_Name p) = "")); [done|].
  injection Hr as <-. destruct (ReadExport_inv _ _ _ _ Hi) as (pub & id & Hpub & Hid & Hs).
  exists ident, pub, id, pid. rewrite Hs in Hd. by split_and!.
Qed.

Lemma add_friend_code now p fs e : add_friend now p fs = Err e -> IpcServer.Code e = ErrCodeInvalidParams.
Proof.
  unfold add_friend. destruct (decide _); [by intros [= <-]|].
  destruct (ReadExport yaml_unmarshal (KeyPath p) fs) as [ident|x]; cbn; [|by intros [= <-]].
  destruct (Decode (pi_PeerID ident)) as [pid|x]; cbn; [|by intros [= <-]].
  destruct (decide (_ = "")); [by intros [= <-]|done].
Qed.


(** [friends.add] imports a key: when it succeeds, the key file holds a public
    key, the new friend is stored under the request's name (or the file's) with
    that key and with the peer id derived from it, [calls.start] with that name
    reaches this peer id, no other friend had the name or the id, and the reply
    is the friend's row; every error is reported as invalid parameters, the
    friend being kept in memory if only the file could not be written. *)
Theorem friends_add_imports_key now o st raw :
  FriendsStore.store_ok (p_store st) ->
  (∀ pub id, IDFromPublicKey pub = Some id -> Decode (ID_String id) = Ok id) ->
  let '(st', r) := FriendsAdd now o raw st in
  FriendsStore.store_ok (p_store st') ∧
  match r with
  | Ok e => ∃ path ident pub id hint,
      ReadExport yaml_unmarshal path (p_files st) = Ok ident ∧ PublicIdentity_PubKey ident = Ok pub ∧
      IDFromPublicKey pub = Some id ∧ e = mkFriendsListEntry (le_Name e) id false None now ∧ le_Name e ≠ "" ∧
      p_friends st !! le_Name e = None ∧ (∀ n g, p_friends st !! n = Some g -> FriendsStore.PeerID g ≠ id) ∧
      p_friends st' = <[le_Name e := FriendsStore.mkFriend (le_Name e) id (pi_PublicKey ident) now hint]> (p_friends st) ∧
      written o st st' ∧ resolveTarget (le_Name e) (Some (p_store st')) = Ok id
  | Err e => IpcServer.Code e = ErrCodeInvalidParams ∧
      (st' = st ∨ ¬ written o st st' ∧ ∃ f, p_friends st' = <[FriendsStore.Name f := f]> (p_friends st))
  end.
Proof.
  intros Hok Hdec. unfold FriendsAdd.
  destruct (p ← read_params_opt (mkFriendsAddParams "" "") raw; add_friend now p (p_files st)) as [f|e] eqn:Hr; cycle 1.
  { split; [done|]. split; [|by left]. unfold read_params_opt, read_params in Hr. destruct (decide _); cbn in Hr.
    - by apply add_friend_code in Hr.
    - destruct (json_params (default [] raw)); cbn in Hr; [by apply add_friend_code in Hr|by injection Hr as <-]. }
  apply result_bind_inv in Hr as (p & _ & Hf).
  destruct (add_friend_inv now p (p_files st) f Hf) as (ident & pub & id & pid & Hre & Hpub & Hid & Hd & Hne & _ & Heq).
  rewrite (Hdec pub id Hid) in Hd. injection Hd as <-.
  destruct (store_call_cases (FriendsStore.FAdd f) o st Hok) as (Hok' & _ & Hc). unfold written.
  destruct (store_call (FriendsStore.FAdd f) o st) as [st' e] eqn:Hs. cbn in Hok', Hc.
  destruct Hc as [([Hn Hi] & Ha & ->)|(_ & -> & _ & Hx)]; cycle 1.
  { destruct e; [|done]. split; [done|]. split; [done|by left]. }
  destruct (FriendsStore.persistLocked marshal o (p_store st') (p_files st)).2 as [x|] eqn:Hp; (split; [done|]).
  { split; [done|]. right. rewrite Hp. split; [done|by exists f]. }
  exists (KeyPath p), ident, pub, id, (pi_RendezvousHint ident). cbn. rewrite Heq in Hi, Ha |- *. cbn in *.
  split_and!; try done. by rewrite (resolve_friend _ _ _ Hok' ltac:(rewrite Ha; apply lookup_insert_eq)).
Qed.
End methods.

(** ** Witnesses *)

(** JSON as the strings themselves. *)
Definition demo_params {A} (v : A) : Params A := fun b => if decide (b = [1%Z]) then Ok v else Err "bad json".

Definition demo_peers : Peers :=
  mkPeers FriendsStore.demo_store ∅ (default Presence.NewPresence (Presence.MarkOnline "12D3A" 5 Presence.NewPresence)).


Definition demo_export : PublicIdentity := mkPublicIdentity 1 "ann" (toy_key_string ann_key) (StdEncode (toy_key_string ann_key)) "".
Definition demo_read (b : bytes) : option PublicIdentity := if decide (b = [1%Z]) then Some demo_export else None.

Lemma friends_add_imports_key_witness :
  let added := FriendsAdd (H := toy_crypto) (Keys0 := toy_keys) demo_read (fun _ => Some [0%Z]) Ok (fun _ => "") (fun _ => "")
    (Params0 := demo_params (mkFriendsAddParams "ann.yaml" "")) 7 (os_ok "d/.tmp-1") (Some [1%Z])
    (mkPeers FriendsStore.demo_store {["ann.yaml" := [1%Z]]} Presence.NewPresence) in
  error_code added.2 = None /\ resolveTarget Ok "ann" (Some (p_store added.1)) = Ok (toy_key_string ann_key).
Proof.
  pose proof (friends_add_imports_key (H := toy_crypto) (Keys0 := toy_keys) demo_read (fun _ => Some [0%Z]) Ok (fun _ => "") (fun _ => "")
    (Params0 := demo_params (mkFriendsAddParams "ann.yaml" "")) 7 (os_ok "d/.tmp-1")
    (mkPeers FriendsStore.demo_store {["ann.yaml" := [1%Z]]} Presence.NewPresence) (Some [1%Z])
    FriendsStore.demo_store_ok (fun _ _ _ => eq_refl)) as Hadd.
  destruct (FriendsAdd _ _ _ _ _ _ _ _ _) as [st' r] eqn:Hs. vm_compute in Hs. injection Hs as <- <-.
  destruct Hadd as (_ & path & ident & pub & id & hint & _ & _ & _ & He & _ & _ & _ & _ & _ & Hres).
  split; [reflexivity|]. injection He as <-. exact Hres.
Defined.
