(* ===== verification/IpcCalls.v ===== *)
(** * The call methods ([internal/ipc/methods/calls.go])

    [calls.start], [calls.list], [calls.attach] and [calls.action] over the call
    engine. [None] is a panic. A method that follows a call also gives the
    forwarding goroutine it started ([CallPipe.Pipe]), with the event it emitted
    before the reply. *)
From S2P Require Import Prelude GoStrings Sealed Identity IpcServer IpcMethods GoChan CallSession CallManager CallEngine CallPipe.
From S2P Require AudioStats FriendsStore.
#[local] Open Scope string_scope.
#[local] Open Scope list_scope.

Record CallsStartParams := mkCallsStartParams { Target : string }.
Record CallsStartResult := mkCallsStartResult { CallID : string; SubscriptionID : string }.
Record CallsAttachParams := mkCallsAttachParams { at_CallID : string }.
Record CallsActionParams := mkCallsActionParams { ac_CallID : string; Action : string; Reason : string }.

Record CallsListEntry := mkCallsListEntry {
  cl_CallID : string;
  cl_State : string;
  cl_Direction : string;
  cl_Remote : string;
  cl_StartedAt : Z;
  cl_Muted : bool;
  cl_PeerMuted : bool;
  cl_AudioOK : string;
  cl_RxLevelDB : Z;
  cl_TxLevelDB : Z;
  cl_MediaMode : string }.

(** The counter behind subscription ids. *)
Definition newCallSubID (now : Z) (callSubCounter : Z) : string * Z :=
  ("cs-" +:+ FormatInt now +:+ "-" +:+ FormatInt (callSubCounter + 1), callSubCounter + 1)%Z.

(** [fmt.Errorf]'s texts of the session's and the engine's errors. *)
Definition session_error (e : SessionErr) : string :=
  match e with
  | EAlreadyEnded id => "session " +:+ id +:+ " is already ended"
  | EInvalidTransition id current target =>
      "invalid transition for session " +:+ id +:+ ": " +:+ State_String current +:+ " -> " +:+ State_String target
  end.

Section calls.
#[local] Set Default Proof Using "Type".
Context `{Crypto, !Keys _}.
(** What the audio manager holds and its [SetMuted] and [Stats], if there is one. *)
Context {A : Type} (audioMuter : option (string -> bool -> A -> A * bool)) (audioStatter : option (string -> option AudioStats.Stats)).
Context `{!Params CallsStartParams, !Params CallsAttachParams, !Params CallsActionParams}.
(** The network below [Place] and the text of a failed write on a stream. *)
Context {Addr : Type} (newMultiaddr : string -> option Addr) (encapsulate : Addr -> Addr -> Addr)
        (relays : list (string * list Addr)) (errorText : WriteErr -> string).
Context (Decode : string -> result string string).

Definition accept_error (e : AcceptErr) : string :=
  match e with
  | ENotInbound id => "session " +:+ id +:+ " is not inbound"
  | ESendAccept err => "sending ACCEPT: " +:+ errorText err
  | EAcceptState (EInvalidTransition _ _ StateConnected as err) => "Connected: " +:+ session_error err
  | EAcceptState err => "Connecting: " +:+ session_error err
  end.

Definition dial_error (e : DialErr) : string :=
  match e with
  | EDial msg => msg
  | ENoReservation remote original =>
      "peer " +:+ ID_String remote +:+ " has no relay reservation — they may need to "
      +:+ "restart their daemon or their network is blocking AutoRelay " +:+ "(original: " +:+ original +:+ ")"
  end.

Definition place_error (remote : string) (e : PlaceErr) : string :=
  match e with
  | EOpen err => "opening control stream to " +:+ ID_String remote +:+ ": " +:+ dial_error err
  | ESendInvite err => "sending INVITE: " +:+ errorText err
  | ERinging err => "transitioning to Ringing: " +:+ session_error err
  end.

(** ** [calls.list] *)

Definition calls_entry (s : Session) : CallsListEntry :=
  let entry := mkCallsListEntry (s_id s) (State_String (s_state s)) (Direction_String (s_direction s))
                 (s_remote s) (s_startedAt s) in
  match (stats ← audioStatter; stats (s_id s)) with
  | Some st => entry (AudioStats.Muted st) (AudioStats.PeerMuted st) "ok" (AudioStats.RxPeakDBFS st)
                 (AudioStats.TxPeakDBFS st) (AudioStats.StatsMediaMode st)
  | None => entry false false "" 0%Z 0%Z ""
  end.

Definition CallsList (m : Manager) : list CallsListEntry :=
  omap (fun '(_, r) => calls_entry <$> m_store m !! r) (List_ m).

(** ** [calls.action] *)

Definition set_muted (id : string) (muted : bool) (a : A) : A * result RpcError string :=
  match audioMuter with
  | None => (a, Err (NewError ErrCodeNoSuchCall "audio not enabled on this daemon"))
  | Some f =>
      let '(a, ok) := f id muted a in
      (a, if (ok : bool) then Ok (if muted then "muted" else "unmuted")
          else Err (NewError ErrCodeNoSuchCall ("no audio session for call " +:+ id)))
  end.

Definition no_such_call (id : string) : RpcError := NewError ErrCodeNoSuchCall ("call " +:+ Quote id +:+ " not found").

Definition CallsAction (now : Z) (raw : option bytes) (e : Engine) (a : A) : option (Engine * A * result RpcError string) :=
  match read_params raw with
  | Err x => Some (e, a, Err x)
  | Ok p =>
      if decide (Action p = "mute") then let '(a, r) := set_muted (ac_CallID p) true a in Some (e, a, r)
      else if decide (Action p = "unmute") then let '(a, r) := set_muted (ac_CallID p) false a in Some (e, a, r)
      else match Get (ac_CallID p) (e_mgr e) with
      | None => Some (e, a, Err (no_such_call (ac_CallID p)))
      | Some s =>
          if decide (Action p = "accept") then
            '(e, r) ← Accept s now e;
            Some (e, a, match r with Err x => Err (NewError ErrCodeInvalidParams (accept_error x)) | Ok _ => Ok "ok" end)
          else if decide (Action p = "hangup") then
            e ← Hangup s (Reason p) now e; Some (e, a, Ok "ok")
          else Some (e, a, Err (NewError ErrCodeInvalidParams
                 ("unknown action " +:+ Quote (Action p) +:+ " (expected: accept | hangup | mute | unmute)")))
      end
  end.

(** ** Following a call *)

(** [pipeStateChanges] up to its return: the subscription and the first event;
    a call that has ended is not followed. *)
Definition pipeStateChanges (done : bool) (now : Z) (r : nat) (e : Engine) : option (Engine * Pipe) :=
  s ← session_of r e;
  let p := pipe_snapshot now (pipe_subscribe (mkPipe (mkSys s []) PpStart done [])) in
  p ← pipe_unsubscribe p;
  Some (set_mgr (set_store (<[r := sess p]> (m_store (e_mgr e))) (e_mgr e)) e, p).

Definition CallsAttach (conn : option bool) (subID : string) (now : Z) (raw : option bytes) (e : Engine)
  : option (Engine * result RpcError (string * Pipe)) :=
  match read_params raw with
  | Err x => Some (e, Err x)
  | Ok p =>
      match Get (at_CallID p) (e_mgr e), conn with
      | None, _ => Some (e, Err (no_such_call (at_CallID p)))
      | Some _, None => Some (e, Err (NewError ErrCodeInternalError "calls.attach requires a connection context"))
      | Some s, Some done =>
          '(e, p) ← pipeStateChanges done now s e;
          Some (e, Ok (subID, p))
      end
  end.

Definition CallsStart (resolver : option (nat -> result string (list Addr))) (newStream : nat -> result string ())
    (id : string) (wbreaks : bool) (store : option FriendsStore.Store)
    (conn : option bool) (subID : string) (now : Z) (raw : option bytes) (e : Engine)
  : option (Engine * result RpcError (CallsStartResult * Pipe)) :=
  match read_params raw with
  | Err x => Some (e, Err x)
  | Ok p =>
      if decide (Target p = "") then Some (e, Err (NewError ErrCodeInvalidParams "target is required"))
      else match resolveTarget Decode (Target p) store, conn with
      | Err x, _ => Some (e, Err x)
      | Ok _, None => Some (e, Err (NewError ErrCodeInternalError "calls.start requires a connection context"))
      | Ok pid, Some done =>
          '(e, _, r) ← Place newMultiaddr encapsulate resolver newStream relays errorText pid id wbreaks now e;
          match r with
          | Err err => Some (e, Err (NewError ErrCodeInternalError ("placing call: " +:+ place_error pid err)))
          | Ok s =>
              '(e, p) ← pipeStateChanges done now s e;
              Some (e, Ok (mkCallsStartResult id subID, p))
          end
      end
  end.

(** ** Lemmas *)

Lemma CallsList_ids m : manager_ok m -> cl_CallID <$> CallsList m = (List_ m).*1.
Proof.
  intros Hm. unfold CallsList.
  assert (∀ id r, (id, r) ∈ List_ m -> ∃ s, m_store m !! r = Some s ∧ s_id s = id) as Hall.
  { intros id r. unfold List_. rewrite sort_by_key_perm, sessions_by_ID_eq by done.
    intros Hin%elem_of_map_to_list. by apply (mo_sess _ Hm). }
  induction (List_ m) as [|[id r] l IH]; [done|]. cbn.
  destruct (Hall id r) as (s & -> & <-); [by left|]. cbn. f_equal.
  - unfold calls_entry. by destruct (audioStatter ≫= _).
  - apply IH. intros i q Hin. apply Hall. by right.
Qed.

Lemma CallsList_registered m id : manager_ok m -> id ∈ cl_CallID <$> CallsList m <-> is_Some (Get id m).
Proof.
  intros Hm. rewrite CallsList_ids by done. unfold List_. rewrite sort_by_key_perm, sessions_by_ID_eq by done.
  rewrite list_elem_of_fmap. split.
  - intros ([i r] & -> & Hin%elem_of_map_to_list). by exists r.
  - intros [r Hr]. exists (id, r). split; [done|]. by apply elem_of_map_to_list.
Qed.

Lemma Hangup_sessions r s reason now e e' :
  session_of r e = Some s -> eng_ok e -> Hangup r reason now e = Some e' ->
  m_sessions (e_mgr e') = delete (s_id s) (m_sessions (e_mgr e)).
Proof.
  intros Hs He. unfold Hangup. rewrite Hs. cbn [mbind option_bind].
  destruct (write_spec (s_id s) (mkMessage MsgHangup (s_id s) reason "") e He) as (Hg0 & Hmgr & _).
  destruct (write _ _ e) as [e0 w]. cbn in Hg0, Hmgr.
  assert (session_of r e0 = Some s) as Hs0 by (unfold session_of; by rewrite Hmgr).
  destruct (End_sess_le reason now s (session_of_ok _ _ _ He Hs)) as (s' & Hend & Hle & _).
  destruct (on_session_ok r s (End reason now) e0 (proj1 Hg0) Hs0) as (e1 & _ & -> & _ & _ & _ & _ & _ & Hm);
    [eauto|]. cbn [mbind option_bind]. intros [= <-].
  destruct (teardown_unbound (s_id s) e1) as [_ ->]. by rewrite Hm, Hmgr.
Qed.

Lemma pipeStateChanges_ok done now r s e : eng_ok e -> session_of r e = Some s ->
  ∃ e' p s', pipeStateChanges done now r e = Some (e', p) ∧ good e e' ∧
    session_of r e' = Some s' ∧ sess_le s s' ∧ s_state s' = s_state s ∧ m_sessions (e_mgr e') = m_sessions (e_mgr e) ∧
    e_streams e' = e_streams e ∧ e_net e' = e_net e ∧
    pp_out p = (if done then [] else [snapshot now s]) ∧
    match s_state s with
    | StateEnded => pp_pc p = PpReturned
    | st => ∃ id l, pp_pc p = PpLoop id l (State_String st) true ∧ subs (s_hub s') !! id = Some l
    end.
Proof.
  intros He Hs. pose proof (session_of_ok _ _ _ He Hs) as Hok. unfold pipeStateChanges. rewrite Hs. cbn [mbind option_bind].
  pose proof (Subscribe_sess_le s Hok) as Hle.
  unfold pipe_subscribe. cbn [pp_pc]. unfold Subscribe in *.
  assert (subs (hub_subscribe 16 (s_hub s)).1.1 !! (hub_subscribe 16 (s_hub s)).1.2 =
    Some (hub_subscribe 16 (s_hub s)).2) as Hlk by (cbn; by rewrite lookup_insert_eq).
  cbn [sess pp_sys sys_sess]. destruct (hub_subscribe 16 (s_hub s)) as [[h id] l]. cbn in Hle, Hlk.
  unfold pipe_snapshot. cbn [pp_pc set_pc set_sess sess pp_sys sys_sess snapshot ev_State state_change s_state set_hub].
  assert (∀ s', sess_le s s' -> good e (set_mgr (set_store (<[r := s']> (m_store (e_mgr e))) (e_mgr e)) e) ∧
    session_of r (set_mgr (set_store (<[r := s']> (m_store (e_mgr e))) (e_mgr e)) e) = Some s') as Hgood.
  { intros s' Hs'. split; [by eapply good_store|]. apply list_lookup_insert_eq. by eapply lookup_lt_Some. }
  destruct (decide (State_String (s_state s) = ended)) as [Hend|Hend].
  - apply (inj State_String _ StateEnded) in Hend. unfold pipe_unsubscribe. cbn [pp_pc set_pc emit sess pp_sys sys_sess].
    destruct (Unsubscribe_ok id (set_hub h s)) as (s1 & Hu & Hok1 & Heq); [apply Hle|].
    destruct (Unsubscribe_sess_le id (set_hub h s)) as (s2 & Hu2 & Hle2); [apply Hle|].
    match goal with |- context [Unsubscribe id ?x] => change x with (set_hub h s) end. rewrite Hu. cbn. assert (s2 = s1) as -> by congruence.
    pose proof (sess_le_trans _ _ _ Hle Hle2) as Hle3. destruct (Hgood s1 Hle3) as [Hg Hs1].
    eexists _, _, s1. split; [reflexivity|]. rewrite Hend. split_and!; try done; first [by rewrite Heq|by destruct done].
  - destruct (Hgood (set_hub h s) Hle) as [Hg Hs1]. eexists _, _, (set_hub h s). split; [reflexivity|].
    split_and!; try done; []. destruct (s_state s); [eauto..|done].
Qed.

Lemma Accept_cases r s now e : eng_ok e -> session_of r e = Some s ->
  ∃ e' res, Accept r now e = Some (e', res) ∧ good e e' ∧
    (res = Ok tt -> ∃ s', session_of r e' = Some s' ∧ s_state s' = StateConnected) ∧
    (s_direction s = Outbound -> e' = e ∧ is_ok res = false) ∧
    (s_direction s = Inbound -> s_state s = StateRinging -> is_ok res = false ->
       is_ok (write (s_id s) (mkMessage MsgAccept (s_id s) "" "") e).2 = false).
Proof.
  intros He Hs. destruct (Accept_ok r s now e He Hs) as (e' & res & Ha & Hg & _ & Hc & Hr).
  exists e', res. split; [done|]. split; [done|]. split; [done|]. split.
  - intros Hd. unfold Accept in Ha. rewrite Hs in Ha. cbn in Ha. rewrite decide_True in Ha by congruence.
    by injection Ha as <- <-.
  - intros Hd Hst Hno. destruct (Hr Hd Hst) as [(err & ->)| ->]; [|done].
    unfold Accept in Ha. rewrite Hs in Ha. cbn in Ha. rewrite decide_False in Ha by (intros Hn; by apply Hn).
    destruct (write _ _ e) as [e0 [u|w]]; [|done]. exfalso.
    destruct (ToConnecting now s) as [[s1 []]|]; cbn in Ha; [|done..].
    destruct (ToConnected now s1) as [[s2 []]|]; cbn in Ha; done.
Qed.

Lemma set_muted_spec id b a :
  let '(a', r) := set_muted id b a in
  (is_ok r = true <-> ∃ f, audioMuter = Some f ∧ f id b a = (a', true)) ∧
  (is_ok r = false -> error_code r = Some ErrCodeNoSuchCall).
Proof.
  unfold set_muted. destruct audioMuter as [f|]; cbn.
  - destruct (f id b a) as [a' []] eqn:Hf; cbn; (split; [|done]).
    + split; [|done]. intros _. by exists f.
    + split; [done|]. intros (g & [= <-] & Hg). congruence.
  - split; [|done]. split; [done|]. by intros (g & ? & _).
Qed.

(** C27: [calls.action] on any well-formed engine: it never panics and keeps the
    engine well formed; an unknown call is reported as such and changes
    nothing; accepting an inbound ringing call connects it unless ACCEPT cannot
    be written, and an outbound one is refused; hanging up always succeeds: the
    call ends and disappears from [calls.list], which keeps every other call;
    muting leaves the engine alone and reports a call without audio. *)
Theorem calls_action_correct now raw e a p :
  eng_ok e -> read_params raw = Ok p ->
  ∃ e' a' r, CallsAction now raw e a = Some (e', a', r) ∧ good e e' ∧
  match decide (Action p = "mute" ∨ Action p = "unmute"), Get (ac_CallID p) (e_mgr e) with
  | left _, _ => e' = e ∧
      (is_ok r = true <-> ∃ f, audioMuter = Some f ∧ f (ac_CallID p) (bool_decide (Action p = "mute")) a = (a', true)) ∧
      (is_ok r = false -> error_code r = Some ErrCodeNoSuchCall)
  | right _, None => e' = e ∧ a' = a ∧ error_code r = Some ErrCodeNoSuchCall
  | right _, Some x => a' = a ∧ ∃ s, session_of x e = Some s ∧ s_id s = ac_CallID p ∧
      (Action p = "accept" ->
         (is_ok r = true -> ∃ s', session_of x e' = Some s' ∧ s_state s' = StateConnected) ∧
         (is_ok r = false -> error_code r = Some ErrCodeInvalidParams) ∧
         (s_direction s = Outbound -> e' = e ∧ is_ok r = false) ∧
         (s_direction s = Inbound -> s_state s = StateRinging -> is_ok r = false ->
            is_ok (write (s_id s) (mkMessage MsgAccept (s_id s) "" "") e).2 = false)) ∧
      (Action p = "hangup" -> r = Ok "ok" ∧
         (∃ s', session_of x e' = Some s' ∧ s_state s' = StateEnded) ∧ e_streams e' !! s_id s = None ∧
         ∀ id, id ∈ cl_CallID <$> CallsList (e_mgr e') <-> id ∈ cl_CallID <$> CallsList (e_mgr e) ∧ id ≠ s_id s) ∧
      (Action p ≠ "accept" -> Action p ≠ "hangup" -> e' = e ∧ error_code r = Some ErrCodeInvalidParams)
  end.
Proof.
  clear newMultiaddr encapsulate relays Decode.
  intros He Hraw. unfold CallsAction. rewrite Hraw.
  destruct (decide (Action p = "mute" ∨ Action p = "unmute")) as [Hm|Hm].
  { assert (∀ other, (if decide (Action p = "mute") then let '(a, r) := set_muted (ac_CallID p) true a in Some (e, a, r)
      else if decide (Action p = "unmute") then let '(a, r) := set_muted (ac_CallID p) false a in Some (e, a, r) else other) =
      Some (e, (set_muted (ac_CallID p) (bool_decide (Action p = "mute")) a).1,
               (set_muted (ac_CallID p) (bool_decide (Action p = "mute")) a).2)) as Heq.
    { intros other. destruct (decide (Action p = "mute")) as [Hmute|Hmute].
      - rewrite (bool_decide_eq_true_2 _ Hmute). by destruct (set_muted _ true a).
      - rewrite (bool_decide_eq_false_2 _ Hmute). destruct (decide (Action p = "unmute")); [|tauto].
        by destruct (set_muted _ false a). }
    rewrite Heq.
    eexists _, _, _. split; [reflexivity|]. split; [done|]. split; [done|]. 
    pose proof (set_muted_spec (ac_CallID p) (bool_decide (Action p = "mute")) a) as Hspec.
    by destruct (set_muted _ (bool_decide _) a). }
  rewrite !decide_False by tauto.
  destruct (Get (ac_CallID p) (e_mgr e)) as [x|] eqn:Hg; [|by eexists _, _, _].
  destruct (mo_sess _ (eo_mgr _ He) _ _ Hg) as (s & Hs & Hid). change (session_of x e = Some s) in Hs.
  destruct (decide (Action p = "accept")) as [Ha|Ha].
  { destruct (Accept_cases x s now e He Hs) as (e' & res & -> & Hgd & Hc1 & Hc2 & Hc3).
    cbn [mbind option_bind]. eexists _, _, _. split; [reflexivity|]. split; [done|]. split; [done|].
    exists s. rewrite Ha. split_and!; try done. intros _. destruct res as [[]|err]; cbn; naive_solver. }
  destruct (decide (Action p = "hangup")) as [Hh|Hh].
  { destruct (Hangup_ok x s (Reason p) now e He Hs) as (e' & s' & Hhang & Hgd & _ & Hs' & Hst & Hstr & _).
    rewrite Hhang. cbn [mbind option_bind]. eexists _, _, _. split; [reflexivity|]. split; [done|]. split; [done|].
    exists s. split_and!; try done. intros _. split; [done|]. split; [by exists s'|]. split; [done|].
    intros id. rewrite !CallsList_registered by (apply eo_mgr; [done||apply Hgd]).
    unfold Get. rewrite (Hangup_sessions x s _ _ _ _ Hs He Hhang), lookup_delete_is_Some. naive_solver. }
  eexists _, _, _. split; [reflexivity|]. split; [done|]. split; [done|]. exists s. by split_and!.
Qed.

(** What a client that follows the session [s] holds: the first event told the
    session's state, and the forwarding goroutine runs unless the call is over. *)
Definition follows (done : bool) (now : Z) (s : Session) (q : Pipe) : Prop :=
  pp_out q = (if done then [] else [snapshot now s]) ∧
  match s_state s with
  | StateEnded => pp_pc q = PpReturned
  | st => ∃ i l, pp_pc q = PpLoop i l (State_String st) true
  end.

(** Starting and following calls never panic and keep the engine well
    formed. [calls.start] with a fresh call id either refuses, and then has no
    call under the id, or the target was resolved, the peer sent INVITE, and the
    new outbound call rings, is in [calls.list], and is followed, the first
    event, before the reply, being "ringing". [calls.attach] follows any listed
    call from its present state and reports an unknown one. *)
Theorem calls_follow_correct resolver newStream id wbreaks store done subID now raw raw' e p p' :
  eng_ok e -> fresh_id id e -> read_params raw = Ok p -> read_params raw' = Ok p' ->
  (∃ e' r, CallsStart resolver newStream id wbreaks store (Some done) subID now raw e = Some (e', r) ∧ eng_ok e' ∧
   match r with
   | Err _ => id ∉ cl_CallID <$> CallsList (e_mgr e')
   | Ok (res, q) => res = mkCallsStartResult id subID ∧ id ∈ cl_CallID <$> CallsList (e_mgr e') ∧
       ∃ pid x s s' st str, resolveTarget Decode (Target p) store = Ok pid ∧ Get id (e_mgr e') = Some x ∧
         session_of x e' = Some s' ∧ sess_le s s' ∧ s_id s = id ∧ s_remote s = pid ∧ s_direction s = Outbound ∧
         s_state s = StateRinging ∧ s_state s' = StateRinging ∧ e_streams e' !! id = Some st ∧ e_net e' !! st = Some str ∧
         str = mkStream pid [mkMessage MsgInvite id "" (e_self e)] false false ∧ follows done now s q
   end) ∧
  (∃ e' r, CallsAttach (Some done) subID now raw' e = Some (e', r) ∧ good e e' ∧
   match Get (at_CallID p') (e_mgr e) with
   | None => e' = e ∧ error_code r = Some ErrCodeNoSuchCall
   | Some x => ∃ s q, session_of x e = Some s ∧ r = Ok (subID, q) ∧ follows done now s q
   end).
Proof.
  intros He Hfresh Hraw Hraw'. split.
  - unfold CallsStart. rewrite Hraw.
    assert (id ∉ cl_CallID <$> CallsList (e_mgr e)) as Hnot.
    { rewrite CallsList_registered by apply He. rewrite (proj2 Hfresh). by intros [? ?]. }
    destruct (decide (Target p = "")); [by eexists _, _|].
    destruct (resolveTarget Decode (Target p) store) as [pid|x] eqn:Hres; [|by eexists _, _].
    destruct (Place_ok newMultiaddr encapsulate relays errorText resolver newStream pid id wbreaks now e He)
      as (e1 & calls & res & -> & He1 & _ & Hcase). cbn [mbind option_bind].
    destruct res as [x|err].
    + destruct Hcase as (_ & s & st & Hs & Hid & Hrem & Hdir & Hst & Hstr & Hnet & Hget).
      specialize (Hget (proj2 Hfresh)).
      destruct (pipeStateChanges_ok done now x s e1 He1 Hs) as (e2 & q & s' & -> & Hg & Hs' & Hle & Hst' & Hm & Hstr' & Hnet' & Hout & Hpc).
      cbn [mbind option_bind]. eexists _, _. split; [reflexivity|]. split; [apply Hg|]. split; [done|].
      assert (Get id (e_mgr e2) = Some x) as Hget2 by (unfold Get; by rewrite Hm).
      split; [apply CallsList_registered; [apply eo_mgr, Hg|by exists x]|].
      exists pid, x, s, s', st, (mkStream pid [mkMessage MsgInvite id "" (e_self e)] false false).
      rewrite Hstr', Hnet', Hst'. split_and!; try done. split; [done|]. rewrite Hst in Hpc |- *.
      destruct Hpc as (i & l & Hpc & _). by exists i, l.
    + eexists _, _. split; [reflexivity|]. split; [done|].
      rewrite CallsList_registered by apply He1. destruct err as [err|err|err]; [by subst e1; rewrite (proj2 Hfresh); intros [? ?]| |done].
      destruct Hcase as (_ & _ & ->). by intros [? ?].
  - unfold CallsAttach. rewrite Hraw'.
    destruct (Get (at_CallID p') (e_mgr e)) as [x|] eqn:Hget; [|by eexists _, _].
    destruct (mo_sess _ (eo_mgr _ He) _ _ Hget) as (s & Hs & Hid). change (session_of x e = Some s) in Hs.
    destruct (pipeStateChanges_ok done now x s e He Hs) as (e2 & q & s' & -> & Hg & _ & _ & _ & _ & _ & _ & Hout & Hpc).
    cbn [mbind option_bind]. eexists _, _. split; [reflexivity|]. split; [done|]. exists s, q. split; [done|]. split; [done|].
    split; [done|]. destruct (s_state s); [destruct Hpc as (i & l & ? & _); by exists i, l..|done].
Qed.
End calls.

(** ** Witnesses *)

Lemma demo_engine_ok : eng_ok demo_engine.
Proof.
  exact (proj1 (eng_steps_ok demo_unmarshal Some String.append [] (fun _ => "err") "me" demo_engine demo_engine_reachable)).
Qed.

Notation demo_action act := (CallsAction (A := unit) None (Params2 := demo_params (mkCallsActionParams "c-1" act "bye"))
  (fun _ => "err") 2 (Some [1%Z]) demo_engine ()).

Lemma calls_action_correct_witness :
  (∃ e', demo_action "accept" = Some (e', (), Ok "ok")) /\
  (∃ e', demo_action "hangup" = Some (e', (), Ok "ok") /\ "c-1" ∉ cl_CallID <$> CallsList None (e_mgr e')) /\
  (∃ e' r, demo_action "mute" = Some (e', (), r) /\ error_code r = Some ErrCodeNoSuchCall).
Proof.
  pose proof (fun act => calls_action_correct (A := unit) None None (Params2 := demo_params (mkCallsActionParams "c-1" act "bye"))
    (fun _ => "err") 2 (Some [1%Z]) demo_engine ()
    (mkCallsActionParams "c-1" act "bye") demo_engine_ok eq_refl) as Hact.
  assert (Get "c-1" (e_mgr demo_engine) = Some 0) as Hget by (vm_compute; reflexivity).
  cbn [ac_CallID Action] in Hact. split; [|split].
  - destruct (Hact "accept") as (e' & [] & r & Hr & _ & _). exists e'. rewrite Hr. vm_compute in Hr. by injection Hr as _ <-.
  - destruct (Hact "hangup") as (e' & [] & r & Hr & _ & Hcase). exists e'.
    rewrite decide_False in Hcase by (by intros [|]). rewrite Hget in Hcase. destruct Hcase as (_ & s & _ & Hid & _ & Hh & _).
    destruct (Hh eq_refl) as (-> & _ & _ & Hl). split; [exact Hr|]. rewrite Hl, Hid. by intros [_ Hn].
  - destruct (Hact "mute") as (e' & [] & r & Hr & _ & Hcase). exists e', r. split; [exact Hr|].
    rewrite decide_True in Hcase by (by left). destruct Hcase as (_ & _ & Hno). apply Hno.
    vm_compute in Hr. by injection Hr as _ <-.
Defined.

(** The second peer is called while "c-1" still rings. *)
Lemma calls_follow_correct_witness :
  ∃ e' q, CallsStart (H := toy_crypto) (Keys0 := toy_keys) (Params0 := demo_params (mkCallsStartParams "bob")) Some String.append []
      (fun _ => "err") Ok None (fun _ => Ok tt) "c-2" false (Some FriendsStore.demo_store) (Some false) "cs-1-1" 4 (Some [1%Z])
      demo_engine = Some (e', Ok (mkCallsStartResult "c-2" "cs-1-1", q)) /\
    (ev_State <$> pp_out q = ["ringing"]) /\ "c-2" ∈ cl_CallID <$> CallsList None (e_mgr e').
Proof.
  destruct (calls_follow_correct (H := toy_crypto) (Keys0 := toy_keys) None (Params0 := demo_params (mkCallsStartParams "bob"))
    (Params1 := demo_params (mkCallsAttachParams "c-1")) Some String.append [] (fun _ => "err") Ok None (fun _ => Ok tt) "c-2" false
    (Some FriendsStore.demo_store) false "cs-1-1" 4 (Some [1%Z]) (Some [1%Z]) demo_engine _ _ demo_engine_ok
    ltac:(by split) eq_refl eq_refl) as ((e' & r & Hr & _ & Hcase) & _).
  destruct r as [[res q]|x]; [|vm_compute in Hr; discriminate].
  destruct Hcase as (-> & Hl & _). exists e', q. split; [exact Hr|]. split; [|exact Hl].
  vm_compute in Hr. injection Hr as _ <-. reflexivity.
Defined.
