(* ===== verification/IpcInvites.v ===== *)
(** * The invite methods ([internal/ipc/methods/invite.go], [status.go])

    [invite.create], [invite.list], [invite.revoke] and [invite.redeem] over the
    invite manager, with [time.ParseDuration], which reads the requested time to
    live, and the summary of [daemon.status_summary]. *)
From S2P Require Import Prelude GoChan GoStrings Base64 Iox InviteCode InviteUrl.
From S2P Require FriendsStore InviteStore Presence CallManager IpcCalls.
From S2P Require Import Sealed Identity Discovery InviteManager IpcServer IpcMethods.
From Stdlib Require Import SpecFloat.
#[local] Open Scope string_scope.
#[local] Open Scope list_scope.

(** ** [time.ParseDuration] *)

Definition digit (c : ascii) : bool := between 48 57 c.
Definition dot_or_digit (c : ascii) : bool := is_char "." c || digit c.

(** [leadingInt]; [None] when the number is too large. *)
Fixpoint leadingInt (x : Z) (s : string) : option (Z * string) :=
  match s with
  | String c s' =>
      if digit c then
        if (2 ^ 63 / 10 <? x)%Z then None
        else let x := (x * 10 + (chr c - 48))%Z in
             if (2 ^ 63 <? x)%Z then None else leadingInt x s'
      else Some (x, s)
  | EmptyString => Some (x, s)
  end.

(** [leadingFraction]: digits that do not fit are skipped; [scale] is a power of ten. *)
Fixpoint leadingFraction (x scale : Z) (overflow : bool) (s : string) : Z * Z * string :=
  match s with
  | String c s' =>
      if digit c then
        if overflow || ((2 ^ 63 - 1) / 10 <? x)%Z then leadingFraction x scale true s'
        else let y := (x * 10 + (chr c - 48))%Z in
             if (2 ^ 63 <? y)%Z then leadingFraction x scale true s'
             else leadingFraction y (scale * 10) false s'
      else (x, scale, s)
  | EmptyString => (x, scale, s)
  end.

(** The letters of a unit. *)
Fixpoint leadingUnit (s : string) : string * string :=
  match s with
  | String c s' => if dot_or_digit c then (EmptyString, s) else let '(u, r) := leadingUnit s' in (String c u, r)
  | EmptyString => (EmptyString, s)
  end.

Definition unitMap (u : string) : option Z :=
  if decide (u = "ns") then Some 1%Z
  else if decide (u = "us" ∨ u = "µs" ∨ u = "μs") then Some (10 ^ 3)%Z
  else if decide (u = "ms") then Some (10 ^ 6)%Z
  else if decide (u = "s") then Some (10 ^ 9)%Z
  else if decide (u = "m") then Some (60 * 10 ^ 9)%Z
  else if decide (u = "h") then Some (3600 * 10 ^ 9)%Z
  else None.

(** [uint64(float64(f) * (float64(unit) / scale))]. *)
Definition to_f64 (z : Z) : spec_float := binary_normalize 53 1024 z 0 false.
Definition trunc_f64 (x : spec_float) : Z :=
  match x with
  | S754_finite false m e => if (0 <=? e)%Z then Z.shiftl (Zpos m) e else Z.shiftr (Zpos m) (- e)
  | _ => 0%Z
  end.
Definition fraction (f unit scale : Z) : Z :=
  trunc_f64 (SFmul 53 1024 (to_f64 f) (SFdiv 53 1024 (to_f64 unit) (to_f64 scale))).

Fixpoint time_quote (s : string) : string :=
  match s with
  | EmptyString => String "034" EmptyString
  | String c s =>
      (if (128 <=? chr c)%Z || (chr c <? 32)%Z
       then String "\" (String "x" (String (hex_char (chr c / 16)) (String (hex_char (chr c mod 16)) EmptyString)))
       else if is_char "034" c || is_char "\" c then String "\" (String c EmptyString) else String c EmptyString)
      +:+ time_quote s
  end.

Inductive DurationErr := EInvalid | EMissingUnit | EUnknownUnit (u : string).

Definition duration_error (orig : string) (e : DurationErr) : string :=
  let q s := String "034" (time_quote s) in
  match e with
  | EInvalid => "time: invalid duration " +:+ q orig
  | EMissingUnit => "time: missing unit in duration " +:+ q orig
  | EUnknownUnit u => "time: unknown unit " +:+ q u +:+ " in duration " +:+ q orig
  end.

(** One component of the duration: its nanoseconds and the rest. *)
Definition duration_part (s : string) : result DurationErr (Z * string) :=
  match s with
  | EmptyString => Err EInvalid
  | String c _ =>
      if negb (dot_or_digit c) then Err EInvalid
      else match leadingInt 0 s with
      | None => Err EInvalid
      | Some (v, s1) =>
          let pre := negb (Nat.eqb (String.length s) (String.length s1)) in
          let '(f, scale, s2, post) :=
            match s1 with
            | String "." s1' =>
                let '(f, scale, s2) := leadingFraction 0 1 false s1' in
                (f, scale, s2, negb (Nat.eqb (String.length s1') (String.length s2)))
            | _ => (0%Z, 1%Z, s1, false)
            end in
          if negb pre && negb post then Err EInvalid
          else
            let '(u, s3) := leadingUnit s2 in
            if decide (u = "") then Err EMissingUnit
            else match unitMap u with
            | None => Err (EUnknownUnit u)
            | Some unit =>
                if (2 ^ 63 / unit <? v)%Z then Err EInvalid
                else
                  let v := (v * unit)%Z in
                  let v := if (0 <? f)%Z then (v + fraction f unit scale)%Z else v in
                  if (2 ^ 63 <? v)%Z then Err EInvalid else Ok (v, s3)
            end
      end
  end.

Fixpoint duration_parts (fuel : nat) (d : Z) (s : string) : result DurationErr Z :=
  if decide (s = "") then Ok d
  else match fuel with
  | 0 => Ok d
  | S fuel =>
      '(v, s') ← duration_part s;
      let d := ((d + v) mod 2 ^ 64)%Z in
      if (2 ^ 63 <? d)%Z then Err EInvalid else duration_parts fuel d s'
  end.

Definition ParseDuration (orig : string) : result DurationErr Z :=
  let '(neg, s) :=
    match orig with
    | String c s => if is_char "-" c then (true, s) else if is_char "+" c then (false, s) else (false, orig)
    | EmptyString => (false, orig)
    end in
  if decide (s = "0") then Ok 0%Z
  else if decide (s = "") then Err EInvalid
  else
    d ← duration_parts (String.length s) 0 s;
    if neg then Ok (- d)%Z else if (2 ^ 63 - 1 <? d)%Z then Err EInvalid else Ok d.

Example durations :
  (ParseDuration "30m", ParseDuration "-1h30m", ParseDuration "1.5s", ParseDuration "90", ParseDuration "2 days") =
  (Ok (30 * minute), Ok (- 90 * minute), Ok 1500000000, Err EMissingUnit, Err (EUnknownUnit " days"))%Z.
Proof. vm_compute. reflexivity. Qed.

Lemma leadingInt_shorter x s v s' : leadingInt x s = Some (v, s') -> String.length s' <= String.length s.
Proof.
  revert x. induction s as [|c s IH]; intros x; cbn; [by intros [= <- <-]|].
  destruct (digit c); [|by intros [= <- <-]]. destruct (_ <? x)%Z; [done|].
  destruct (2 ^ 63 <? _)%Z; [done|]. intros Hl%IH. lia.
Qed.

Lemma leadingFraction_shorter x scale o s f sc s' :
  leadingFraction x scale o s = (f, sc, s') -> String.length s' <= String.length s.
Proof.
  revert x scale o. induction s as [|c s IH]; intros x scale o; cbn; [by intros [= <- <- <-]|].
  destruct (digit c); [|by intros [= <- <- <-]]. destruct (o || _); [intros Hl%IH; lia|].
  destruct (2 ^ 63 <? _)%Z; intros Hl%IH; lia.
Qed.

Lemma leadingUnit_shorter s u s' : leadingUnit s = (u, s') -> String.length u + String.length s' = String.length s.
Proof.
  revert u. induction s as [|c s IH]; intros u; cbn; [by intros [= <- <-]|].
  destruct (dot_or_digit c); [by intros [= <- <-]|]. destruct (leadingUnit s) as [u1 r] eqn:Hu.
  intros [= <- <-]. cbn. by rewrite <- (IH u1).
Qed.

(** Every component is some of the text, so its length is enough fuel. *)
Lemma duration_part_shorter s v s' : duration_part s = Ok (v, s') -> String.length s' < String.length s.
Proof.
  unfold duration_part. destruct s as [|c0 s0] eqn:Hs; [done|]. rewrite <- Hs. destruct (negb (dot_or_digit c0)); [done|].
  destruct (leadingInt 0 s) as [[v1 s1]|] eqn:Hi; [|done]. apply leadingInt_shorter in Hi.
  destruct (match s1 with String "." s1' => _ | _ => _ end) as [[[f scale] s2] post] eqn:Hf.
  assert (String.length s2 <= String.length s1) as H2.
  { clear -Hf. destruct s1 as [|c s1]; [by injection Hf as _ _ <- _|].
    assert ((f, scale, s2, post) = (0%Z, 1%Z, String c s1, false) ∨
      (let '(f, scale, s2) := leadingFraction 0 1 false s1 in
       (f, scale, s2, negb (Nat.eqb (String.length s1) (String.length s2)))) = (f, scale, s2, post)) as [Hc|Hc].
    { destruct c as [[] [] [] [] [] [] [] []]; auto. }
    - injection Hc as _ _ -> _. done.
    - destruct (leadingFraction 0 1 false s1) as [[f1 sc1] s3] eqn:Hl. apply leadingFraction_shorter in Hl.
      injection Hc as _ _ <- _. cbn. lia. }
  destruct (negb _ && negb post); [done|]. destruct (leadingUnit s2) as [u s3] eqn:Hu. apply leadingUnit_shorter in Hu.
  destruct (decide (u = "")) as [|Hne]; [done|]. destruct (unitMap u) as [unit|]; [|done].
  destruct (_ <? v1)%Z; [done|]. destruct (2 ^ 63 <? _)%Z; [done|]. intros [= _ <-].
  destruct u; [done|]. cbn in Hu. lia.
Qed.

Lemma duration_parts_fuel n : ∀ m d s, String.length s <= n -> String.length s <= m ->
  duration_parts n d s = duration_parts m d s.
Proof.
  assert (∀ d s, String.length s <= 0 -> ∀ k, duration_parts k d s = Ok d) as H0.
  { intros d [|c s] Hl k; [by destruct k|]. cbn in Hl. lia. }
  induction n as [|n IH]; intros m d s Hn Hm; [by rewrite !H0|].
  destruct m as [|m]; [by rewrite !H0|]. cbn. destruct (decide (s = "")); [done|].
  destruct (duration_part s) as [[v s']|e] eqn:Hp; [|done]. cbn. apply duration_part_shorter in Hp.
  destruct (2 ^ 63 <? _)%Z; [done|]. apply IH; lia.
Qed.

(** ** The methods *)

Record InviteCreateParams := mkInviteCreateParams { TTL : string }.
Record InviteCreateResult := mkInviteCreate {
  ic_Code : string;
  ic_URL : string;
  ic_ExpiresAt : Z;
  ic_DHTPublishWarning : string;
  ic_ReachableAddrs : list string }.
Record InviteListEntry := mkInviteListEntry {
  il_Code : string;
  il_Pretty : string;
  il_Active : bool;
  il_Consumed : bool;
  il_ConsumedBy : string;
  il_ExpiresAt : Z }.
Record InviteCodeParams := mkInviteCodeParams { ip_Code : string }.

Definition list_row (now : Z) (e : Entry) : InviteListEntry :=
  mkInviteListEntry (InviteStore.e_Code e) (Pretty (InviteStore.e_Code e))
    (negb (InviteStore.Consumed e) && (now <? InviteStore.ExpiresAt e)%Z)
    (InviteStore.Consumed e) (InviteStore.ConsumedBy e) (InviteStore.ExpiresAt e).

(** [order] is the order in which [AllList] ranges over the store. *)
Definition InviteList (now : Z) (order : list Entry) : list InviteListEntry :=
  list_row now <$> InviteStore.AllList order.

Definition is_url (s : string) : bool := bool_decide (is_Some (String.index 0 "://" s)).

Section invites.
#[local] Set Default Proof Using "Type".
Context `{Crypto, !Keys _, Dht}.
Context (unicode_upper unicode_lower : string -> string).
Context (rec_marshal : InviteRecord.Record_ -> option bytes) (rec_unmarshal : bytes -> option InviteRecord.Record_).
Context (store_marshal : Z -> list Entry -> option bytes) (friends_marshal : list Friend -> option bytes).
Context (hello_marshal : Hello -> option bytes) (resp_unmarshal : bytes -> option Response).
Context {Multiaddr : Type} (NewMultiaddr : string -> option Multiaddr) (MultiaddrString : Multiaddr -> string).
(** The texts of the manager's and the parser's errors. *)
Context (inv_error : InvErr -> string) (dht_error : DHTErr -> string) (code_error : CodeErr -> string).
Context `{!Params InviteCreateParams, !Params InviteCodeParams}.

Definition create_ttl (raw : option bytes) : result RpcError Z :=
  p ← read_params_opt (mkInviteCreateParams "") raw;
  if decide (TTL p = "") then Ok (30 * minute)%Z
  else map_err (fun e => NewError ErrCodeInvalidParams ("invalid ttl: " +:+ duration_error (TTL p) e)) (ParseDuration (TTL p)).

Definition InviteCreate (mg : Manager) (reachableAddrs : option (list string)) (e : Env) (created : Z)
    (rnd : option (ascii * ascii * ascii * ascii * ascii)) (nonce : option bytes) (inviteAddrs : list Multiaddr)
    (raw : option bytes) (d : DhtState) (st : State) : State * DhtState * result RpcError InviteCreateResult :=
  match create_ttl raw with
  | Err x => (st, d, Err x)
  | Ok ttl =>
      match Create rec_marshal store_marshal MultiaddrString mg e created ttl rnd nonce inviteAddrs d st with
      | (st, d, Err x) => (st, d, Err (NewError ErrCodeInternalError (inv_error x)))
      | (st, d, Ok res) =>
          (st, d, Ok (mkInviteCreate (Pretty (cr_Code res)) (cr_URL res) (Unix (cr_ExpiresAt res))
                        (from_option dht_error "" (cr_DHTPublishErr res)) (default [] reachableAddrs)))
      end
  end.

Definition InviteRevoke (e : Env) (raw : option bytes) (st : State) : State * result RpcError string :=
  match p ← read_params raw;
        map_err (fun x => NewError ErrCodeInvalidParams (code_error x)) (Parse unicode_upper (ip_Code p)) with
  | Err x => (st, Err x)
  | Ok c =>
      let '(st, removed) := Revoke store_marshal e c st in
      (st, if (removed : bool) then Ok (Pretty c) else Err (NewError ErrCodeInvalidParams "invite code not found"))
  end.

Definition InviteRedeem (mg : Manager) (e : Env) (dial : list Multiaddr -> string -> Conn) (inviteAddrs : list Multiaddr)
    (raw : option bytes) (d : DhtState) (st : State) : State * result RpcError FriendsListEntry :=
  let finish (r : State * result InvErr Friend) :=
    (r.1, match r.2 with
          | Err x => Err (NewError ErrCodeInternalError ("redeeming invite: " +:+ inv_error x))
          | Ok fr => Ok (mkFriendsListEntry (FriendsStore.Name fr) (FriendsStore.PeerID fr) false None (FriendsStore.AddedAt fr))
          end) in
  match read_params raw with
  | Err x => (st, Err x)
  | Ok p =>
      if is_url (ip_Code p)
      then finish (RedeemURL unicode_upper unicode_lower friends_marshal hello_marshal resp_unmarshal NewMultiaddr
                     MultiaddrString mg e dial inviteAddrs (ip_Code p) st)
      else match Parse unicode_upper (ip_Code p) with
      | Err x => (st, Err (NewError ErrCodeInvalidParams (code_error x)))
      | Ok c => finish (Redeem rec_unmarshal friends_marshal hello_marshal resp_unmarshal NewMultiaddr MultiaddrString
                          mg e dial inviteAddrs c d st)
      end
  end.

(** [invite.subscribe_redemption] up to its goroutine: the channel it reads. *)
Definition InviteSubscribeRedemption (conn : bool) (subID : string) (raw : option bytes) (st : State)
  : State * result RpcError (string * nat) :=
  match read_params raw with
  | Err x => (st, Err x)
  | Ok p =>
      if decide (ip_Code p = "") then (st, Err (NewError ErrCodeInvalidParams "code is required"))
      else if negb conn
      then (st, Err (NewError ErrCodeInternalError "invite.subscribe_redemption requires a connection context"))
      else let '(st, l) := SubscribeRedemption (ip_Code p) st in (st, Ok (subID, l))
  end.

Lemma Create_inv mg e created ttl rnd nonce addrs d st st' d' cr :
  Create rec_marshal store_marshal MultiaddrString mg e created ttl rnd nonce addrs d st = (st', d', Ok cr) ->
  canonical (cr_Code cr) ∧ cr_ExpiresAt cr = (ev_now e + capTTL ttl)%Z ∧
  entries_of st' !! cr_Code cr = Some (InviteStore.mkEntry (cr_Code cr) (cr_ExpiresAt cr) false "" created).
Proof.
  unfold Create. destruct rnd as [[[[[b0 b1] b2] b3] b4]|]; [|done].
  destruct (MarshalPublicKey (mg_pub mg)) as [pb|]; [|done]. destruct (SignURL _ _ _) as [u|]; [|done].
  destruct (match InviteRecord.Encode _ _ _ _ _ with Ok _ => _ | Err _ => _ end) as [d2 derr].
  intros [= <- <- <-]. cbn [cr_Code cr_ExpiresAt]. split; [apply Generate_canonical|]. split; [done|apply lookup_insert_eq].
Qed.

Lemma capTTL_bounds ttl : (0 < capTTL ttl <= MaxTTL)%Z.
Proof. unfold capTTL, MaxTTL, minute. destruct (decide _) as [|Hn]; lia. Qed.

(** A code is redeemable up to and including its last instant. *)
Lemma refuse_listed now remote h s en : valid_key remote h -> InviteStore.entries s !! h_Code h = Some en ->
  refuse now remote h s = None <->
  il_Active (list_row now en) = true ∨ InviteStore.Consumed en = false ∧ now = InviteStore.ExpiresAt en.
Proof.
  clear unicode_upper unicode_lower store_marshal hello_marshal NewMultiaddr MultiaddrString.
  intros (pb & pub & Hpb & Hpub & Hid) Hen. unfold refuse, InviteStore.Get. rewrite Hen, Hpb, Hpub, Hid. cbn.
  rewrite decide_False by (intros Hn; by apply Hn). rewrite andb_true_iff, negb_true_iff, Z.ltb_lt.
  destruct (InviteStore.Consumed en); [naive_solver|]. destruct (Z.ltb_spec (InviteStore.ExpiresAt en) now) as [Hlt|Hge].
  - split; [done|]. intros [[_ ?]|[_ ?]]; lia.
  - split; [|done]. intros _. destruct (decide (now = InviteStore.ExpiresAt en)); [by right|left]. split; [done|lia].
Qed.

(** C38: the invite methods: an invite that [invite.create] reports is stored under a
    canonical code, printed as the reply shows it, and expires within thirty
    minutes whatever time to live was asked for; [invite.list] shows it active
    exactly as long as the stream handler would let a peer with a valid key
    redeem it (but for the very instant of expiry), and [invite.revoke] of any
    text that reads as the code removes it, so that every later redemption is
    refused. *)
Theorem invite_requests_correct mg reach e created rnd nonce addrs raw d st st' d' res :
  InviteCreate mg reach e created rnd nonce addrs raw d st = (st', d', Ok res) ->
  ∃ c en, canonical c ∧ ic_Code res = Pretty c ∧ Parse unicode_upper (ic_Code res) = Ok c ∧
    entries_of st' !! c = Some en ∧ ic_ExpiresAt res = Unix (InviteStore.ExpiresAt en) ∧
    (ev_now e < InviteStore.ExpiresAt en <= ev_now e + MaxTTL)%Z ∧
    (∀ now order, InviteStore.ranges (st_store st') order -> list_row now en ∈ InviteList now order) ∧
    (∀ now remote h, h_Code h = c -> valid_key remote h ->
       refuse now remote h (st_store st') = None <-> il_Active (list_row now en) = true ∨ now = InviteStore.ExpiresAt en) ∧
    (∀ e' raw' p, read_params raw' = Ok p -> Parse unicode_upper (ip_Code p) = Ok c ->
       let '(st2, r) := InviteRevoke e' raw' st' in
       r = Ok (ic_Code res) ∧ entries_of st2 = delete c (entries_of st') ∧
       ∀ now remote h, h_Code h = c -> refuse now remote h (st_store st2) = Some "unknown code").
Proof.
  clear unicode_lower rec_unmarshal friends_marshal hello_marshal resp_unmarshal NewMultiaddr.
  unfold InviteCreate. destruct (create_ttl raw) as [ttl|]; [|done].
  destruct (Create _ _ _ _ _ _ _ _ _ _ _ _) as [[s2 d2] [cr|]] eqn:Hcr; [|done]. intros [= <- <- <-].
  apply Create_inv in Hcr as (Hcan & Hexp & Hen). pose proof (capTTL_bounds ttl) as Hcap.
  exists (cr_Code cr), (InviteStore.mkEntry (cr_Code cr) (cr_ExpiresAt cr) false "" created). cbn [ic_Code ic_ExpiresAt].
  split; [done|]. split; [done|]. split; [by apply Parse_Pretty|]. split; [done|]. split; [done|].
  split; [cbn; lia|]. split; [|split].
  - intros now order Hr. apply list_elem_of_fmap. eexists. split; [done|]. unfold InviteStore.AllList, InviteStore.ranges in *.
    rewrite Hr. apply list_elem_of_fmap. exists (cr_Code cr, InviteStore.mkEntry (cr_Code cr) (cr_ExpiresAt cr) false "" created).
    split; [done|]. by apply elem_of_map_to_list.
  - intros now remote h Hc Hv. rewrite <- Hc in Hen. rewrite (refuse_listed now remote h (st_store s2) _ Hv Hen). cbn. tauto.
  - intros e' raw' p Hraw Hp. unfold InviteRevoke. rewrite Hraw. cbn [mbind result_bind]. rewrite Hp. cbn [map_err].
    unfold Revoke, InviteStore.Remove, InviteStore.Remove_commit, InviteStore.flushed. unfold entries_of in *. rewrite Hen. cbn.
    split; [done|]. split; [done|]. intros now remote h <-. unfold refuse, InviteStore.Get. cbn. by rewrite lookup_delete_eq.
Qed.

Lemma send_all_other {B} ls (v : B) : ∀ heap heap' l,
  send_all heap ls v = Some heap' -> l ∉ ls -> heap' !! l = heap !! l.
Proof.
  induction ls as [|x ls IH]; intros heap heap' l; cbn; [by intros [= <-]|].
  destruct (send_at heap x v) as [h1|] eqn:Hs; [|done]. cbn. intros Hr Hl%not_elem_of_cons.
  rewrite (IH _ _ _ Hr) by tauto. unfold send_at in Hs. destruct (heap !! x) as [c|]; [|done]. cbn in Hs.
  destruct (try_send c v) as [c'|]; [|done]. cbn in Hs. injection Hs as <-. rewrite list_lookup_insert_ne by naive_solver. done.
Qed.

Lemma canonical_shown c : canonical c -> Pretty c ≠ c ∧ Pretty c ≠ "".
Proof.
  intros [Hl Hc]. assert (no_char "-" (Pretty c) = false ∧ Pretty c ≠ "") as [Hd Hne].
  { unfold Pretty. rewrite decide_False by (intros Hn; by apply Hn). by split. }
  split; [|done]. intros Heq. rewrite Heq, canonical_no_dash in Hd by done. done.
Qed.

(** A redemption is announced to the subscribers of its code, and to no others. *)
Lemma subscriber_of code code' conn subID raw st st1 l ev st2 :
  subs_ok st -> read_params raw = Ok (mkInviteCodeParams code') -> re_Code ev = code ->
  InviteSubscribeRedemption conn subID raw st = (st1, Ok (subID, l)) -> fanoutRedemption ev st1 = Some st2 ->
  code' ≠ code -> st_chans st2 !! l = Some (make_chan 4).
Proof.
  intros Hok Hraw Hev. unfold InviteSubscribeRedemption. rewrite Hraw. cbn [ip_Code].
  destruct (decide (code' = "")); [done|]. destruct conn; [|done]. cbn. intros [= <- <-].
  unfold fanoutRedemption. cbn [st_chans st_subs]. intros Hf Hne. rewrite Hev, lookup_insert_ne in Hf by done.
  destruct (send_all _ _ ev) as [chans|] eqn:Hs; [|done]. cbn in Hf. injection Hf as <-. cbn.
  rewrite (send_all_other _ _ _ _ _ Hs); [by rewrite lookup_app_r, Nat.sub_diag by lia|].
  intros Hin%(Hok code)%open_at_lt. lia.
Qed.

(** A client that watches an invite under the code it was shown is never told
    of its redemption: the reply shows the printed form and the subscription
    keeps the text it is given, while redemptions are announced under the bare
    code, which the printed form reads as. The invite shown by a successful
    [invite.create] is in the store under that code, a subscription for the
    shown text succeeds, and no announcement for the code reaches it. *)
Theorem shown_code_misses_redemption mg reach e created rnd nonce addrs raw d st st' d' res subID raw' :
  subs_ok st' -> InviteCreate mg reach e created rnd nonce addrs raw d st = (st', d', Ok res) ->
  read_params raw' = Ok (mkInviteCodeParams (ic_Code res)) ->
  ∃ c st1 l, Parse unicode_upper (ic_Code res) = Ok c ∧ is_Some (entries_of st' !! c) ∧
    InviteSubscribeRedemption true subID raw' st' = (st1, Ok (subID, l)) ∧
    ∀ ev st2, re_Code ev = c -> fanoutRedemption ev st1 = Some st2 -> st_chans st2 !! l = Some (make_chan 4).
Proof.
  clear unicode_lower rec_unmarshal friends_marshal hello_marshal resp_unmarshal NewMultiaddr.
  intros Hok Hc Hraw. unfold InviteCreate in Hc. destruct (create_ttl raw) as [ttl|]; [|done].
  destruct (Create _ _ _ _ _ _ _ _ _ _ _ _) as [[s2 d2] [cr|]] eqn:Hcr; [|done]. injection Hc as <- <- <-.
  apply Create_inv in Hcr as (Hcan & _ & Hen). cbn [ic_Code] in *.
  destruct (canonical_shown _ Hcan) as [Hne Hem].
  destruct (InviteSubscribeRedemption true subID raw' s2) as [st1 r] eqn:Hs.
  assert (∃ l, r = Ok (subID, l)) as [l ->].
  { unfold InviteSubscribeRedemption in Hs. rewrite Hraw in Hs. cbn [ip_Code] in Hs.
    rewrite decide_False in Hs by done. cbn in Hs. injection Hs as _ <-. eauto. }
  exists (cr_Code cr), st1, l. split; [by apply Parse_Pretty|]. split; [by eexists|]. split; [done|].
  intros ev st2 Hev Hf. by eapply subscriber_of.
Qed.
End invites.

(** ** [status.go] *)

Record DaemonStatusSummaryResult := mkSummary {
  su_Identity : DaemonStatusResult;
  su_Friends : list FriendsListEntry;
  su_Calls : list IpcCalls.CallsListEntry;
  su_Invites : list InviteListEntry;
  su_ServiceStatus : string }.

Definition DaemonStatusSummary (version id : string) (startedAt : Z) (listenAddrs : option (option (list string)))
    (reachability : option string) (relayReservations : option (option (list string)))
    (peers : Peers) (calls : CallManager.Manager) (now : Z) (invites : list Entry) : DaemonStatusSummaryResult :=
  mkSummary (DaemonStatus version id startedAt listenAddrs reachability relayReservations)
    (FriendsList peers) (IpcCalls.CallsList None calls) (InviteList now invites) "".

(** ** Witness *)

(** Ann asks for five hours, lists the invite and takes it back. *)
Definition five_hours : Params InviteCreateParams := demo_params (mkInviteCreateParams "5h").

Definition ann_created := InviteCreate (H := toy_crypto) (H0 := toy_dht) invite_marshal no_marshal (@id string) (fun _ => "") (fun _ => "")
  (Params0 := five_hours) ann None (plain_env (10 ^ 12)) 0 (Some ("000"%char, "068"%char, "050"%char, "020"%char, "199"%char))
  (Some (repeat 7%Z 24)) [] (Some [1%Z]) ∅ (empty_state "d/invites.json").
Definition ann_res : InviteCreateResult := match ann_created.2 with Ok r => r | Err _ => mkInviteCreate "" "" 0 "" [] end.

Lemma invite_requests_correct_witness :
  let revoke := InviteRevoke id no_marshal (fun _ => "") (Params1 := demo_params (mkInviteCodeParams (ic_Code ann_res)))
    (plain_env (2 * 10 ^ 12)) (Some [1%Z]) ann_created.1.1 in
  ic_ExpiresAt ann_res = (1000 + 30 * 60)%Z /\ error_code revoke.2 = None /\
  ∃ c, ic_Code ann_res = Pretty c /\ entries_of revoke.1 !! c = None.
Proof.
  intros revoke. assert (ann_created = (ann_created.1.1, ann_created.1.2, Ok ann_res)) as Hc.
  { rewrite (surjective_pairing ann_created) at 1. rewrite (surjective_pairing ann_created.1) at 1. f_equal. }
  destruct (invite_requests_correct (H := toy_crypto) (H0 := toy_dht) id invite_marshal no_marshal (@id string)
    (fun _ => "") (fun _ => "") (fun _ => "") (Params0 := five_hours)
    (Params1 := demo_params (mkInviteCodeParams (ic_Code ann_res))) ann None (plain_env (10 ^ 12)) 0 _ _ _ _ _ _ _ _ _ Hc)
    as (c & en & _ & Hpretty & Hparse & _ & _ & _ & _ & _ & Hrev).
  specialize (Hrev (plain_env (2 * 10 ^ 12)) (Some [1%Z]) (mkInviteCodeParams (ic_Code ann_res)) eq_refl Hparse).
  fold revoke in Hrev. destruct revoke as [st2 r]. destruct Hrev as (-> & He & _).
  split; [vm_compute; reflexivity|]. split; [done|]. exists c. split; [done|]. cbn [fst]. rewrite He. apply lookup_delete_eq.
Defined.

(** She watches the invite she was just shown. *)
Lemma shown_code_misses_redemption_witness :
  ∃ st1 l, InviteSubscribeRedemption (Params1 := demo_params (mkInviteCodeParams (ic_Code ann_res))) true "s-1" (Some [1%Z])
      ann_created.1.1 = (st1, Ok ("s-1", l)) ∧
    ∃ c, Parse id (ic_Code ann_res) = Ok c ∧
    ∀ by_ now st2, fanoutRedemption (mkRedemption c by_ now) st1 = Some st2 -> st_chans st2 !! l = Some (make_chan 4).
Proof.
  assert (ann_created = (ann_created.1.1, ann_created.1.2, Ok ann_res)) as Hc.
  { rewrite (surjective_pairing ann_created) at 1. rewrite (surjective_pairing ann_created.1) at 1. f_equal. }
  destruct (shown_code_misses_redemption (H := toy_crypto) (H0 := toy_dht) id invite_marshal no_marshal (@id string)
    (fun _ => "") (fun _ => "") (Params0 := five_hours) (Params1 := demo_params (mkInviteCodeParams (ic_Code ann_res)))
    ann None (plain_env (10 ^ 12)) 0 (Some ("000"%char, "068"%char, "050"%char, "020"%char, "199"%char))
    (Some (repeat 7%Z 24)) [] (Some [1%Z]) ∅ (empty_state "d/invites.json") ann_created.1.1 ann_created.1.2 ann_res
    "s-1" (Some [1%Z])) as (c & st1 & l & Hp & _ & Hs & Hmiss); [|exact Hc|reflexivity|].
  - clear Hc. intros code l Hin. change (st_subs ann_created.1.1) with (∅ : gmap string (list nat)) in Hin.
    rewrite lookup_empty in Hin. exfalso. exact (proj1 (elem_of_nil _) Hin).
  - exists st1, l. split; [exact Hs|]. exists c. split; [exact Hp|]. intros by_ now st2. by apply Hmiss.
Defined.
