(* ===== verification/Forward.v ===== *)
(** * Forwarding events to a client ([internal/ipc/methods], the subscriptions)

    [friends.subscribe_presence], [calls.subscribe] and
    [invite.subscribe_redemption] each start a goroutine with the same loop:
    wait for the connection's end or an event of a private channel, write the
    event on the connection, and give the subscription up at the end. What the
    loop needs of the component it listens to is the class [Source]; the
    components that implement it are the presence, the call registry and the
    invite manager. *)
From S2P Require Import Prelude GoChan.
From S2P Require CallSession CallManager Presence InviteManager IpcServer.
#[local] Open Scope string_scope.
#[local] Open Scope list_scope.

(** ** What a component with subscribers promises *)

(** [c'] is [c] after the events [evs] were stored in its buffer. *)
Definition grown {E} (c c' : Chan E) (evs : list E) : Prop :=
  ch_cap c' = ch_cap c /\ ch_closed c' = ch_closed c /\ ch_buf c' = ch_buf c ++ evs.

(** [Tok] names a subscription; [src_sub s t l] holds while it is subscribed
    with channel [l] open. Operations of anyone else ([src_private]) may only
    store events in that channel; giving it up never panics. *)
Class Source (S E Tok Op : Type) := {
  src_heap : S -> list (Chan E);
  src_recv : nat -> Chan E -> S -> S;
  src_sub : S -> Tok -> nat -> Prop;
  src_do : Op -> S -> option S;
  src_private : Tok -> nat -> Op -> Prop;
  src_unsubscribe : Tok -> nat -> S -> option S;
  src_recv_heap l c s : src_heap (src_recv l c s) = <[l := c]> (src_heap s);
  src_recv_sub l c v c' s t : src_sub s t l -> src_heap s !! l = Some c -> recv c = RecvValue v c' ->
    src_sub (src_recv l c' s) t l;
  src_open s t l : src_sub s t l -> open_at (src_heap s) l;
  src_rely o s s' t l c : src_sub s t l -> src_private t l o -> src_do o s = Some s' -> src_heap s !! l = Some c ->
    src_sub s' t l /\ exists c' evs, src_heap s' !! l = Some c' /\ grown c c' evs;
  src_release s t l : src_sub s t l -> exists s', src_unsubscribe t l s = Some s' /\ ~ src_sub s' t l }.

(** ** The goroutine *)

Inductive FwPC := FwLoop | FwExit | FwReturned.

Section forward.
Context {S E Tok Op : Type} `{Source S E Tok Op}.
Context (t : Tok) (l : nat).

Record Fw := mkFw {
  fw_src : S;
  fw_pc : FwPC;
  fw_done : bool;              (* conn.Done() is closed *)
  fw_out : list E }.           (* written on the connection *)

Definition fw_recv (f : Fw) : Fw :=
  match fw_pc f, src_heap (fw_src f) !! l with
  | FwLoop, Some c =>
      match recv c with
      | RecvValue v c' =>
          mkFw (src_recv l c' (fw_src f)) FwLoop (fw_done f) (if fw_done f then fw_out f else fw_out f ++ [v])
      | RecvClosed => mkFw (fw_src f) FwExit (fw_done f) (fw_out f)
      | RecvBlocks => f
      end
  | _, _ => f
  end.

Definition fw_quit (f : Fw) : Fw :=
  match fw_pc f with
  | FwLoop => if fw_done f then mkFw (fw_src f) FwExit true (fw_out f) else f
  | _ => f
  end.

(** The deferred unsubscription; [None] is a panic. *)
Definition fw_unsubscribe (f : Fw) : option Fw :=
  match fw_pc f with
  | FwExit => s ← src_unsubscribe t l (fw_src f); Some (mkFw s FwReturned (fw_done f) (fw_out f))
  | _ => Some f
  end.

Inductive fop := FRecv | FQuit | FUnsubscribe.

Definition fw_do (o : fop) (f : Fw) : option Fw :=
  match o with
  | FRecv => Some (fw_recv f)
  | FQuit => Some (fw_quit f)
  | FUnsubscribe => fw_unsubscribe f
  end.

(** A step, with the events stored in the channel by it; a run is followed
    until the goroutine has returned. *)
Inductive fw_step : Fw -> list E -> Fw -> Prop :=
| fs_own o f f' : fw_do o f = Some f' -> fw_step f [] f'
| fs_source o s f c c' evs : fw_pc f <> FwReturned -> src_do o (fw_src f) = Some s -> src_private t l o ->
    src_heap (fw_src f) !! l = Some c -> src_heap s !! l = Some c' -> grown c c' evs ->
    fw_step f evs (mkFw s (fw_pc f) (fw_done f) (fw_out f))
| fs_done f : fw_step f [] (mkFw (fw_src f) (fw_pc f) true (fw_out f)).

Inductive fw_run : Fw -> list E -> Fw -> Prop :=
| fr_nil f : fw_run f [] f
| fr_snoc f evs f1 evs1 f2 : fw_run f evs f1 -> fw_step f1 evs1 f2 -> fw_run f (evs ++ evs1) f2.

Definition fw_start (s : S) : Fw := mkFw s FwLoop false [].

(** ** Invariant *)

Definition buffered (f : Fw) : list E := match src_heap (fw_src f) !! l with Some c => ch_buf c | None => [] end.

Record fw_inv (evs : list E) (f : Fw) : Prop := {
  fi_sub : fw_pc f <> FwReturned -> src_sub (fw_src f) t l;
  fi_order : exists rest, evs = fw_out f ++ rest;
  fi_all : fw_done f = false -> fw_pc f = FwLoop /\ evs = fw_out f ++ buffered f }.

Lemma fw_open f : src_sub (fw_src f) t l -> exists c, src_heap (fw_src f) !! l = Some c /\ ch_closed c = false.
Proof. intros Hs. by apply src_open in Hs. Qed.

Lemma fw_recv_inv evs f : fw_inv evs f -> fw_inv evs (fw_recv f).
Proof.
  intros Hi. unfold fw_recv. destruct (fw_pc f) eqn:Hpc; [|exact Hi..]. destruct Hi as [Hsub Hord Hall].
  destruct (fw_open f) as (c & Hl & Hc); [apply Hsub; congruence|]. rewrite Hl. unfold recv.
  destruct (ch_buf c) as [|v buf] eqn:Hb; [rewrite Hc; by split|].
  assert (Hlt : l < length (src_heap (fw_src f))) by (by apply lookup_lt_Some in Hl).
  split; simpl.
  - intros _. apply (src_recv_sub l c v); [apply Hsub; congruence | done |]. unfold recv. by rewrite Hb.
  - destruct (fw_done f) eqn:Hd; [done|]. destruct (Hall eq_refl) as [_ ->]. unfold buffered. rewrite Hl, Hb.
    exists buf. by rewrite <- app_assoc.
  - intros Hd. rewrite Hd. destruct (Hall Hd) as [_ ->]. split; [done|]. unfold buffered; simpl.
    by rewrite src_recv_heap, list_lookup_insert_eq, Hl, Hb, <- app_assoc.
Qed.

Lemma fw_do_inv o evs f : fw_inv evs f -> exists f', fw_do o f = Some f' /\ fw_inv evs f'.
Proof.
  intros Hi. destruct o; simpl; [eauto using fw_recv_inv| |].
  - eexists. split; [done|]. unfold fw_quit.
    destruct (fw_pc f) eqn:Hpc; [|exact Hi..]. destruct (fw_done f) eqn:Hd; [|exact Hi]. destruct Hi as [Hsub Hord Hall].
    split; simpl; [intros _; apply Hsub; congruence | done | done].
  - unfold fw_unsubscribe. destruct (fw_pc f) eqn:Hpc; [by exists f | |by exists f]. destruct Hi as [Hsub Hord Hall].
    destruct (src_release (fw_src f) t l) as (s & Hs & _); [apply Hsub; congruence|]. rewrite Hs. simpl.
    eexists. split; [done|]. split; simpl; [done | done |]. intros Hd. destruct (Hall Hd). congruence.
Qed.

Lemma fw_step_inv evs f evs' f' : fw_step f evs' f' -> fw_inv evs f -> fw_inv (evs ++ evs') f'.
Proof.
  intros Hs Hi. destruct Hs as [o f f' Ho | o s f c c' evs' Hret Ho Hp Hc Hc' Hg | f].
  - rewrite app_nil_r. destruct (fw_do_inv o evs f Hi) as (f1 & Ho' & Hi'). by simplify_eq.
  - destruct Hi as [Hsub [rest Hord] Hall]. split; simpl.
    + intros Hpc. destruct (src_rely o (fw_src f) s t l c) as [Hs _]; auto.
    + exists (rest ++ evs'). by rewrite Hord, <- app_assoc.
    + intros Hd. destruct (Hall Hd) as [Hpc ->]. split; [done|]. unfold buffered; simpl.
      rewrite Hc, Hc'. destruct Hg as (_ & _ & ->). by rewrite app_assoc.
  - rewrite app_nil_r. destruct Hi as [Hsub Hord Hall]. by split.
Qed.
(** Reading the channel dry. *)
Lemma fw_drain n : forall f evs, fw_inv evs f -> fw_done f = false -> length (buffered f) = n ->
  exists f', Nat.iter n fw_recv f = f' /\ fw_done f' = false /\ fw_out f' = evs.
Proof.
  induction n as [|n IH]; intros f evs Hi Hd Hn.
  - exists f. destruct (fi_all _ _ Hi Hd) as [_ ->]. apply nil_length_inv in Hn. by rewrite Hn, app_nil_r.
  - rewrite Nat.iter_succ_r. destruct (fi_all _ _ Hi Hd) as [Hpc Hevs]. pose proof (fw_recv_inv _ _ Hi) as Hi'.
    destruct (fw_open f) as (c & Hl & Hc); [apply (fi_sub _ _ Hi); congruence|].
    assert (Hr : fw_done (fw_recv f) = false /\ length (buffered (fw_recv f)) = n).
    { unfold buffered in Hn. rewrite Hl in Hn. unfold fw_recv. rewrite Hpc, Hl. unfold recv.
      destruct (ch_buf c) as [|v buf]; [done|]. split; [done|]. unfold buffered; simpl.
      rewrite src_recv_heap, list_lookup_insert_eq by (by eapply lookup_lt_Some). simpl in *. lia. }
    destruct Hr as [Hd' Hn']. exact (IH _ _ Hi' Hd' Hn').
Qed.

Lemma fw_run_inv f0 evs f : fw_run f0 evs f -> fw_inv [] f0 -> fw_inv evs f.
Proof. intros Hr H0. induction Hr as [f|f evs f1 evs1 f2 _ IH Hs]; [done|]. by eapply fw_step_inv, IH. Qed.

(** C15: A client that subscribes is told everything its subscription received,
    in order. For any interleaving of the forwarding goroutine with the other
    operations of the component and the end of the connection: the goroutine
    never panics; what it has written is a prefix of the events that were stored
    in the channel; while the connection lasts it keeps running and by reading
    on writes all of them; and once the connection ends it can always finish,
    which gives the subscription up. *)
Theorem subscription_forwards s c evs f :
  src_sub s t l -> src_heap s !! l = Some c -> ch_buf c = [] -> fw_run (fw_start s) evs f ->
  (forall o, fw_do o f <> None)
  /\ (exists rest, evs = fw_out f ++ rest)
  /\ (fw_done f = false -> exists n f', Nat.iter n fw_recv f = f' /\ fw_pc f = FwLoop /\ fw_out f' = evs)
  /\ (fw_done f = true -> fw_pc f <> FwReturned ->
      exists f', fw_unsubscribe (fw_quit f) = Some f' /\ fw_pc f' = FwReturned /\ fw_out f' = fw_out f
        /\ ~ src_sub (fw_src f') t l).
Proof.
  intros Hs Hl Hb Hrun.
  assert (Hi : fw_inv evs f).
  { apply (fw_run_inv _ _ _ Hrun). split; simpl; [done | by exists [] |]. intros _. split; [done|].
    unfold buffered; simpl. by rewrite Hl, Hb. }
  split_and!.
  - intros o. destruct (fw_do_inv o evs f Hi) as (f' & -> & _). done.
  - by destruct Hi.
  - intros Hd. destruct (fw_drain _ _ _ Hi Hd eq_refl) as (f' & H1 & _ & H2).
    exists (length (buffered f)), f'. split; [done|]. by destruct (fi_all _ _ Hi Hd).
  - intros Hd Hpc. destruct (src_release (fw_src f) t l) as (s' & Hu & Hno); [by apply (fi_sub _ _ Hi)|].
    exists (mkFw s' FwReturned (fw_done f) (fw_out f)). unfold fw_quit, fw_unsubscribe.
    destruct (fw_pc f) eqn:Epc; [|rewrite Epc|done]; rewrite ?Hd; simpl; rewrite Hu; simpl; auto.
Qed.
End forward.

(** ** The subscriptions *)

Section handlers.
Context (conn : bool) (subID : string).

Definition CallsSubscribe (m : CallManager.Manager) : CallManager.Manager * result IpcServer.RpcError (string * nat) :=
  if conn then let '(m, l) := CallManager.SubscribeStateChanges m in (m, Ok (subID, l))
  else (m, Err (IpcServer.NewError IpcServer.ErrCodeInternalError "calls.subscribe requires a connection context")).

Definition FriendsSubscribePresence (p : Presence.Presence)
  : Presence.Presence * result IpcServer.RpcError (string * (nat * nat)) :=
  if conn then let '(p, id, l) := Presence.Subscribe p in (p, Ok (subID, (id, l)))
  else (p, Err (IpcServer.NewError IpcServer.ErrCodeInternalError "subscribe_presence requires a connection context")).
End handlers.

(** ** The components as sources *)

Lemma grown_refl {E} (c : Chan E) : grown c c [].
Proof. by split_and!; rewrite ?app_nil_r. Qed.

Lemma grown_trans {E} (c c1 c2 : Chan E) evs evs' : grown c c1 evs -> grown c1 c2 evs' -> grown c c2 (evs ++ evs').
Proof. intros (H1 & H2 & H3) (H4 & H5 & H6). split_and!; [congruence.. |]. by rewrite H6, H3, app_assoc. Qed.

Lemma try_send_grown {E} (c c' : Chan E) v : try_send c v = Some c' -> exists evs, grown c c' evs.
Proof.
  unfold try_send. destruct (ch_closed c) eqn:Hc; [done|]. destruct (decide _); intros [= <-].
  - exists [v]. by split_and!.
  - exists []. apply grown_refl.
Qed.

Lemma send_all_grown {E} ls (v : E) heap heap' l c :
  send_all heap ls v = Some heap' -> heap !! l = Some c -> exists c' evs, heap' !! l = Some c' /\ grown c c' evs.
Proof.
  revert heap c. induction ls as [|x ls IH]; intros heap c; simpl; [intros [= <-] Hl; eauto using grown_refl|].
  intros (h1 & Hs & Hr)%bind_Some Hl. unfold send_at in Hs.
  apply bind_Some in Hs as (c0 & Hx & (c1 & Ht & [= <-])%bind_Some).
  destruct (decide (x = l)) as [->|Hne].
  - simplify_eq. apply try_send_grown in Ht as [evs Hg].
    destruct (IH _ c1 Hr) as (c' & evs' & Hc' & Hg'); [apply list_lookup_insert_eq; by eapply lookup_lt_Some|].
    exists c', (evs ++ evs'). eauto using grown_trans.
  - apply (IH _ c Hr). by rewrite list_lookup_insert_ne.
Qed.

Lemma same_grown {E} (heap : list (Chan E)) l c : heap !! l = Some c -> exists c' evs, heap !! l = Some c' /\ grown c c' evs.
Proof. eauto using grown_refl. Qed.

Lemma lookup_app_grown {E} (heap heap' : list (Chan E)) l c :
  heap !! l = Some c -> exists c' evs, (heap ++ heap') !! l = Some c' /\ grown c c' evs.
Proof. intros Hl. apply same_grown. by apply lookup_app_l_Some. Qed.

(** *** The call registry *)

Section calls.
Import CallSession CallManager.

Definition calls_private (t : unit) (l : nat) (o : mop) : Prop :=
  match o with MUnsubscribe ch | MRecv ch => ch <> l | _ => True end.

Lemma forwarder_exit_chans i f m m' :
  forwarder_exit i f m = Some m' -> m_chans m' = m_chans m /\ m_subs m' = m_subs m.
Proof. unfold forwarder_exit. by intros (s & _ & (s' & _ & [= <-])%bind_Some)%bind_Some. Qed.

Lemma forwarder_turn_chans i m m' :
  forwarder_turn i m = Some m' -> m_subs m' = m_subs m /\
  (m_chans m' = m_chans m \/ exists ev, send_all (m_chans m) (m_subs m) ev = Some (m_chans m')).
Proof.
  unfold forwarder_turn. destruct (m_forwarders m !! i) as [f|]; [|intros [= <-]; auto].
  intros (s & _ & (c & _ & Hr)%bind_Some)%bind_Some. destruct (recv c) as [ev c'| |].
  - apply bind_Some in Hr as (m1 & Hf & (m2 & He & [= <-])%bind_Some). unfold fanout in Hf.
    apply bind_Some in Hf as (chans & Hs & [= <-]). simpl in *.
    destruct (String.eqb _ _); [apply forwarder_exit_chans in He as [-> ->] | injection He as <-]; simpl; eauto.
  - apply forwarder_exit_chans in Hr as [-> ->]. auto.
  - injection Hr as <-. auto.
Qed.

Lemma Register_chans r m m' : Register r m = Some m' -> m_chans m' = m_chans m /\ m_subs m' = m_subs m.
Proof.
  unfold Register. intros (s & _ & Hr)%bind_Some. destruct (m_sessions m !! s_id s); [by injection Hr as <-|].
  destruct (Subscribe s) as [[s' subID] ch]. destruct (s_direction s); [by injection Hr as <-|].
  by apply bind_Some in Hr as (c & _ & [= <-]).
Qed.

Lemma with_session_chans r f m m' : with_session r f m = Some m' -> m_chans m' = m_chans m /\ m_subs m' = m_subs m.
Proof.
  unfold with_session. destruct (m_store m !! r); [|by intros [= <-]]. by intros (s' & _ & [= <-])%bind_Some.
Qed.

Lemma commit_chans r o m : m_chans (commit r o m) = m_chans m /\ m_subs (commit r o m) = m_subs m.
Proof. by destruct o as [[]|]. Qed.

Lemma calls_rely o m m' t l c :
  manager_ok m /\ l ∈ m_subs m -> calls_private t l o -> mgr_do o m = Some m' -> m_chans m !! l = Some c ->
  (manager_ok m' /\ l ∈ m_subs m') /\ exists c' evs, m_chans m' !! l = Some c' /\ grown c c' evs.
Proof.
  intros [Hok Hin] Hp Ho Hl. destruct (mgr_do_ok o m Hok) as (m1 & Ho' & Hok').
  assert (m1 = m') as -> by congruence. clear Ho'.
  assert (Hsame : m_chans m' = m_chans m /\ m_subs m' = m_subs m ->
    (manager_ok m' /\ l ∈ m_subs m') /\ exists c' evs, m_chans m' !! l = Some c' /\ grown c c' evs)
    by (intros [Hc Hs]; rewrite Hc, Hs; auto using same_grown).
  destruct o; simpl in Ho; try (injection Ho as <-; by auto).
  - destruct (decide _); [|injection Ho as <-; by auto]. by eapply Hsame, Register_chans.
  - injection Ho as <-. split; [split; [done|]; simpl; set_solver|]. by apply lookup_app_grown.
  - destruct (UnsubscribeStateChanges_spec ch m Hok) as (m2 & Hu & _ & Hs). assert (m2 = m') as -> by congruence.
    split; [split; [done|]; rewrite Hs; apply list_elem_of_filter; by split; [intros ->|]|].
    unfold UnsubscribeStateChanges in Ho. destruct (find_index _ _); [|injection Ho as <-; by apply same_grown].
    apply bind_Some in Ho as (chans & Hcl & [= <-]). unfold close_at in Hcl.
    apply bind_Some in Hcl as (c0 & Hc0 & (c1 & _ & [= <-])%bind_Some). simpl.
    rewrite list_lookup_insert_ne by done. by apply same_grown.
  - destruct (m_store m !! r); injection Ho as <-; [apply Hsame, commit_chans | by auto].
  - destruct (m_store m !! r); injection Ho as <-; [apply Hsame, commit_chans | by auto].
  - destruct (m_pending m !! k) as [[r ev]|]; [|injection Ho as <-; by auto].
    apply with_session_chans in Ho. by apply Hsame.
  - apply forwarder_turn_chans in Ho as [Hs [Hc|[ev Hc]]]; [by auto|].
    split; [by rewrite Hs|]. by eapply send_all_grown.
  - apply Hsame. by eapply with_session_chans.
  - apply Hsame. by eapply with_session_chans.
  - destruct (m_chans m !! ch) as [c0|]; [|injection Ho as <-; by auto].
    destruct (recv c0); injection Ho as <-; try by auto. split; [done|]. simpl.
    rewrite list_lookup_insert_ne by done. by apply same_grown.
  - destruct (recv (m_inbound m)); injection Ho as <-; by auto.
Qed.

#[export] Program Instance calls_source : Source Manager StateChange unit mop := {|
  src_heap := m_chans;
  src_recv l c m := set_subs (m_subs m) (<[l := c]> (m_chans m)) m;
  src_sub m _ l := manager_ok m /\ l ∈ m_subs m;
  src_do := mgr_do;
  src_private := calls_private;
  src_unsubscribe _ l m := UnsubscribeStateChanges l m |}.
Next Obligation. done. Qed.
Next Obligation.
  intros l c v c' m _ [Hok Hin] Hl Hr. destruct (mgr_do_ok (MRecv l) m Hok) as (m' & Ho & Hok').
  simpl in Ho. rewrite Hl, Hr in Ho. by simplify_eq.
Qed.
Next Obligation. intros m _ l [Hok Hin]. by apply mo_open. Qed.
Next Obligation. intros o m m' t l c. apply calls_rely. Qed.
Next Obligation.
  intros m _ l [Hok Hin]. destruct (UnsubscribeStateChanges_spec l m Hok) as (m' & -> & _ & Hs).
  exists m'. split; [done|]. intros [_ Hl]. rewrite Hs in Hl. by apply list_elem_of_filter in Hl as [? _].
Qed.
End calls.

(** *** Presence *)

Section presence.
Import Presence.

Definition presence_private (id : nat) (l : nat) (o : pop) : Prop :=
  match o with PUnsubscribe id' => id' <> id | _ => True end.

Definition set_heap (heap : list (Chan PresenceEvent)) (y : PSys) : PSys :=
  let p := ps_p y in
  mkPSys (mkPresence (p_online p) (p_lastSeen p) (mkHub (subs (p_hub p)) (nextID (p_hub p)) heap))
    (ps_pending y) (ps_log y) (ps_calls y).

Definition presence_sub (y : PSys) (id l : nat) : Prop := hub_ok (p_hub (ps_p y)) /\ subs (p_hub (ps_p y)) !! id = Some l.

Lemma hub_recv_ok {E} (h : Hub E) l c v c' :
  hub_ok h -> heap h !! l = Some c -> recv c = RecvValue v c' -> hub_ok (mkHub (subs h) (nextID h) (<[l := c']> (heap h))).
Proof.
  intros [Ho Hi Hf Hc] Hl Hr.
  assert (Hc' : ch_closed c' = ch_closed c /\ ch_cap c' = ch_cap c /\ length (ch_buf c') <= length (ch_buf c)).
  { unfold recv in Hr. destruct (ch_buf c) as [|w buf] eqn:Hb; [by destruct (ch_closed c)|].
    injection Hr as <- <-. simpl. split_and!; [done | done | lia]. }
  destruct Hc' as (Hcl & Hcap & Hlen). split; simpl; try done.
  - intros id l' Hid. destruct (decide (l' = l)) as [->|Hne]; [|by apply open_at_insert_ne; eauto].
    destruct (Ho _ _ Hid) as (c0 & Hc0 & Hcl0). simplify_eq.
    exists c'. split; [apply list_lookup_insert_eq; by eapply lookup_lt_Some | congruence].
  - apply Forall_insert; [done|]. unfold chan_ok. rewrite Hcap.
    pose proof (Forall_lookup_1 _ _ _ _ Hc Hl) as Hok. unfold chan_ok in Hok. lia.
Qed.

Lemma hub_broadcast_rely {E} (h h' : Hub E) ev id l c :
  hub_ok h -> subs h !! id = Some l -> hub_broadcast ev h = Some h' -> heap h !! l = Some c ->
  (hub_ok h' /\ subs h' !! id = Some l) /\ exists c' evs, heap h' !! l = Some c' /\ grown c c' evs.
Proof.
  intros Hok Hid Hb Hl. destruct (hub_broadcast_ok ev h Hok) as (h1 & Hb' & Hok' & Hs & _).
  assert (h1 = h') as -> by congruence. split; [by rewrite Hs|].
  unfold hub_broadcast, hub_broadcast_in in Hb. apply bind_Some in Hb as (heap' & Hsend & [= <-]). by eapply send_all_grown.
Qed.

Lemma hub_unsubscribe_rely {E} (h h' : Hub E) id' id l c :
  hub_ok h -> subs h !! id = Some l -> id' <> id -> hub_unsubscribe id' h = Some h' -> heap h !! l = Some c ->
  (hub_ok h' /\ subs h' !! id = Some l) /\ exists c' evs, heap h' !! l = Some c' /\ grown c c' evs.
Proof.
  intros Hok Hid Hne Hu Hl. destruct (hub_unsubscribe_ok id' h Hok) as (h1 & Hu' & Hok' & Hs).
  assert (h1 = h') as -> by congruence. split; [split; [done|]; by rewrite Hs, lookup_delete_ne|].
  unfold hub_unsubscribe in Hu. destruct (subs h !! id') as [l'|] eqn:Hid'; [|injection Hu as <-; by apply same_grown].
  apply bind_Some in Hu as (heap' & Hcl & [= <-]). unfold close_at in Hcl.
  apply bind_Some in Hcl as (c0 & Hc0 & (c1 & _ & [= <-])%bind_Some). simpl.
  rewrite list_lookup_insert_ne; [by apply same_grown|]. intros ->. apply Hne. by apply (ho_inj h Hok id' id l).
Qed.

Lemma presence_rely o y y' id l c :
  presence_sub y id l -> presence_private id l o -> psys_do o y = Some y' -> heap (p_hub (ps_p y)) !! l = Some c ->
  presence_sub y' id l /\ exists c' evs, heap (p_hub (ps_p y')) !! l = Some c' /\ grown c c' evs.
Proof.
  intros [Hok Hid] Hp Ho Hl. unfold presence_sub. destruct o as [i on now|k| |id']; simpl in Ho.
  - assert (Hh : p_hub (fst (transition_commit i on now (ps_p y))) = p_hub (ps_p y))
      by (unfold transition_commit; by destruct (decide _)).
    destruct (transition_commit i on now (ps_p y)) as [p ev]. injection Ho as <-. simpl in *. rewrite Hh. auto using same_grown.
  - destruct (ps_pending y !! k) as [ev|]; [|injection Ho as <-; auto using same_grown].
    apply bind_Some in Ho as (p & Hb & [= <-]). unfold broadcast in Hb. apply bind_Some in Hb as (h & Hb & [= <-]). simpl.
    by eapply hub_broadcast_rely.
  - injection Ho as <-. simpl. split; [|by apply lookup_app_grown]. split.
    + by apply (hub_subscribe_ok 16 (p_hub (ps_p y))).
    + rewrite lookup_insert_ne; [done|]. intros E. apply (ho_fresh _ Hok) in Hid. lia.
  - apply bind_Some in Ho as (p & Hu & [= <-]). unfold Unsubscribe in Hu. apply bind_Some in Hu as (h & Hu & [= <-]). simpl.
    by eapply hub_unsubscribe_rely.
Qed.

#[export] Program Instance presence_source : Source PSys PresenceEvent nat pop := {|
  src_heap y := heap (p_hub (ps_p y));
  src_recv l c y := set_heap (<[l := c]> (heap (p_hub (ps_p y)))) y;
  src_sub := presence_sub;
  src_do := psys_do;
  src_private := presence_private;
  src_unsubscribe id _ y := psys_do (PUnsubscribe id) y |}.
Next Obligation. done. Qed.
Next Obligation. intros l c v c' y id [Hok Hid] Hl Hr. split; [by eapply hub_recv_ok | done]. Qed.
Next Obligation. intros y id l [Hok Hid]. by eapply ho_open. Qed.
Next Obligation. intros o y y' id l c. apply presence_rely. Qed.
Next Obligation.
  intros y id l [Hok Hid]. simpl. unfold Unsubscribe.
  destruct (hub_unsubscribe_ok id (p_hub (ps_p y)) Hok) as (h & -> & _ & Hs). simpl. eexists. split; [done|].
  intros [_ Hid']. simpl in Hid'. by rewrite Hs, lookup_delete_eq in Hid'.
Qed.
End presence.

(** *** Redemptions *)

Section redemptions.
Import InviteManager.

(** The operations on the subscribers of redemptions; the rest of the manager
    leaves them alone. *)
Inductive redop :=
| RSubscribe (code : string)
| RUnsubscribe (code : string) (ch : nat)
| RFanout (ev : RedemptionEvent)
| ROther (f : State -> State).

Definition red_do (o : redop) (st : State) : option State :=
  match o with
  | RSubscribe code => Some (SubscribeRedemption code st).1
  | RUnsubscribe code ch => Some (UnsubscribeRedemption code ch st)
  | RFanout ev => fanoutRedemption ev st
  | ROther f => let st' := f st in Some (mkState (st_store st') (st_friends st') (st_fs st') (st_subs st) (st_chans st))
  end.

Definition red_private (code : string) (l : nat) (o : redop) : Prop :=
  match o with RUnsubscribe _ ch => ch <> l | _ => True end.

(** A channel is subscribed once, to one code. *)
Definition red_sub (st : State) (code : string) (l : nat) : Prop :=
  l ∈ default [] (st_subs st !! code) /\ open_at (st_chans st) l
  /\ NoDup (default [] (st_subs st !! code)) /\ forall l', l' ∈ default [] (st_subs st !! code) -> l' < length (st_chans st).

Lemma red_rely o st st' code l c :
  red_sub st code l -> red_private code l o -> red_do o st = Some st' -> st_chans st !! l = Some c ->
  red_sub st' code l /\ exists c' evs, st_chans st' !! l = Some c' /\ grown c c' evs.
Proof.
  intros (Hin & Hop & Hnd & Hlt) Hp Ho Hl. destruct o as [code'|code' ch|ev|f]; simpl in Ho.
  - injection Ho as <-. split; [|by apply lookup_app_grown]. unfold red_sub. simpl.
    assert (Hop' : open_at (st_chans st ++ [make_chan 4]) l) by by apply open_at_app.
    destruct (decide (code' = code)) as [->|Hne].
    + rewrite lookup_insert_eq. simpl. split_and!; [set_solver | done | |].
      * apply NoDup_app. split_and!; [done | | apply NoDup_singleton].
        intros l' Hl' ->%list_elem_of_singleton. apply Hlt in Hl'. lia.
      * intros l' [Hl'| ->%list_elem_of_singleton]%elem_of_app; rewrite length_app; simpl; [apply Hlt in Hl'|]; lia.
    + rewrite lookup_insert_ne by done. split_and!; auto. intros l' Hl'%Hlt. rewrite length_app. lia.
  - injection Ho as <-. unfold UnsubscribeRedemption.
    destruct (find_index (Nat.eqb ch) _) as [i|] eqn:Hi; [|split; [by split_and!|]; by apply same_grown].
    split; [|by apply same_grown]. unfold red_sub. simpl. destruct (decide (code' = code)) as [->|Hne]; [|by rewrite lookup_insert_ne].
    rewrite lookup_insert_eq. simpl. apply find_index_Some in Hi as ((x & Hx & ->%Nat.eqb_eq) & _). simpl in Hp.
    apply list_elem_of_split_length in Hx as (l1 & l2 & E & ->). rewrite E in *. rewrite take_drop_middle.
    apply NoDup_app in Hnd as (H1 & Hd & [H2 H3]%NoDup_cons). split_and!; [set_solver | done | |set_solver].
    apply NoDup_app. split_and!; [done | set_solver | done].
  - apply bind_Some in Ho as (chans & Hs & [= <-]). simpl. split; [|by eapply send_all_grown].
    unfold red_sub. simpl. split_and!; [done | by eapply CallManager.send_all_closed | done |].
    rewrite (CallManager.send_all_length _ _ _ _ Hs). done.
  - injection Ho as <-. split; [by split_and!|]. by apply same_grown.
Qed.

#[export] Program Instance redemption_source : Source State RedemptionEvent string redop := {|
  src_heap := st_chans;
  src_recv l c st := mkState (st_store st) (st_friends st) (st_fs st) (st_subs st) (<[l := c]> (st_chans st));
  src_sub := red_sub;
  src_do := red_do;
  src_private := red_private;
  src_unsubscribe code l st := Some (UnsubscribeRedemption code l st) |}.
Next Obligation. done. Qed.
Next Obligation.
  intros l c v c' st code (Hin & (c0 & Hc0 & Hcl) & Hnd & Hlt) Hl Hr. simplify_eq. unfold red_sub. simpl.
  split_and!; [done | | done | by rewrite length_insert].
  exists c'. split; [apply list_lookup_insert_eq; by eapply lookup_lt_Some|].
  unfold recv in Hr. destruct (ch_buf c0); [by destruct (ch_closed c0)|]. by injection Hr as _ <-.
Qed.
Next Obligation. by intros st code l (_ & Hop & _). Qed.
Next Obligation. intros o st st' code l c. apply red_rely. Qed.
Next Obligation.
  intros st code l (Hin & _ & Hnd & _). eexists. split; [done|]. intros (Hin' & _). revert Hin'.
  unfold UnsubscribeRedemption. destruct (find_index (Nat.eqb l) _) as [i|] eqn:Hi.
  - simpl. rewrite lookup_insert_eq. simpl. apply find_index_Some in Hi as ((x & Hx & ->%Nat.eqb_eq) & _).
    apply list_elem_of_split_length in Hx as (l1 & l2 & E & ->). rewrite E in *. rewrite take_drop_middle.
    apply NoDup_app in Hnd as (H1 & Hd & [H2 H3]%NoDup_cons). intros [?|?]%elem_of_app; [|done].
    eapply Hd; [done|]. by left.
  - rewrite find_index_None in Hi. apply Hi in Hin. by rewrite Nat.eqb_refl in Hin.
Qed.
End redemptions.

(** ** Each handler's goroutine starts subscribed, on an empty channel *)

Lemma CallsSubscribe_starts subID m m' r :
  CallManager.manager_ok m -> CallsSubscribe true subID m = (m', r) ->
  exists l, r = Ok (subID, l) /\ src_sub m' tt l /\ src_heap m' !! l = Some (make_chan 32).
Proof.
  intros Hok [= <- <-]. eexists. split; [done|]. simpl. split.
  - split; [by apply (CallManager.SubscribeStateChanges_ok m) | set_solver].
  - by rewrite lookup_app_r, Nat.sub_diag by lia.
Qed.

Lemma FriendsSubscribePresence_starts subID y p r :
  hub_ok (Presence.p_hub (Presence.ps_p y)) -> FriendsSubscribePresence true subID (Presence.ps_p y) = (p, r) ->
  exists id l y', r = Ok (subID, (id, l)) /\ Presence.psys_do Presence.PSubscribe y = Some y' /\ Presence.ps_p y' = p
    /\ src_sub y' id l /\ src_heap y' !! l = Some (make_chan 16).
Proof.
  intros Hok [= <- <-]. eexists _, _, _. split; [done|]. split; [done|]. split; [done|]. split.
  - split; [by apply (hub_subscribe_ok 16 (Presence.p_hub (Presence.ps_p y))) | apply lookup_insert_eq].
  - apply (hub_subscribe_lookup 16 (Presence.p_hub (Presence.ps_p y))).
Qed.

Lemma SubscribeRedemption_starts code st :
  InviteManager.subs_ok st -> NoDup (default [] (InviteManager.st_subs st !! code)) ->
  let '(st', l) := InviteManager.SubscribeRedemption code st in
  src_sub st' code l /\ src_heap st' !! l = Some (make_chan 4).
Proof.
  intros Hok Hnd. simpl.
  assert (Hl : (InviteManager.st_chans st ++ [make_chan 4]) !! length (InviteManager.st_chans st) = Some (make_chan 4))
    by by rewrite lookup_app_r, Nat.sub_diag by lia.
  assert (Hlt : forall l, l ∈ default [] (InviteManager.st_subs st !! code) -> l < length (InviteManager.st_chans st))
    by (intros l Hl'%Hok%open_at_lt; done).
  split; [|done]. unfold red_sub. simpl. rewrite lookup_insert_eq. simpl. split_and!; [set_solver | by eexists | |].
  - apply NoDup_app. split_and!; [done | | apply NoDup_singleton].
    intros l Hl' ->%list_elem_of_singleton. apply Hlt in Hl'. lia.
  - intros l [Hl'%Hlt| ->%list_elem_of_singleton]%elem_of_app; rewrite length_app; simpl; lia.
Qed.

(** ** Witnesses *)

(** A client of the presence: two marks, one of them forwarded. *)
Definition demo_presence : Presence.PSys := default Presence.psys_init (Presence.psys_do Presence.PSubscribe Presence.psys_init).
Definition demo_marked : Presence.PSys :=
  default demo_presence (Presence.psys_run [Presence.PMark "ann" true 5; Presence.PBroadcast 0] demo_presence).

Lemma demo_marked_run : fw_run (Op := Presence.pop) 0 0 (fw_start demo_presence) [Presence.mkPresenceEvent "ann" true 5]
  (mkFw demo_marked FwLoop false []).
Proof.
  apply (fr_snoc 0 0 _ [] (mkFw (default demo_presence (Presence.psys_do (Presence.PMark "ann" true 5) demo_presence)) FwLoop false [])).
  - apply (fr_snoc 0 0 _ [] (fw_start demo_presence) []); [apply fr_nil|].
    eapply (fs_source 0 0 (Presence.PMark "ann" true 5)); [done | reflexivity | exact I | reflexivity | reflexivity | by split_and!].
  - eapply (fs_source 0 0 (Presence.PBroadcast 0)); [done | reflexivity | exact I | reflexivity | reflexivity | by split_and!].
Qed.

Lemma subscription_forwards_witness :
  exists n f', Nat.iter n (fw_recv 0) (mkFw demo_marked FwLoop false []) = f'
    /\ fw_out f' = [Presence.mkPresenceEvent "ann" true 5].
Proof.
  destruct (subscription_forwards (Op := Presence.pop) 0 0 demo_presence (make_chan 16) [Presence.mkPresenceEvent "ann" true 5]
              (mkFw demo_marked FwLoop false [])) as (_ & _ & Hall & _).
  - split; [apply (hub_subscribe_ok 16 hub_new hub_new_ok) | reflexivity].
  - reflexivity.
  - reflexivity.
  - apply demo_marked_run.
  - destruct (Hall eq_refl) as (n & f' & H1 & _ & H2). by exists n, f'.
Defined.
