(* ===== verification/TuiPanes.v ===== *)
(** * The parts of the terminal UI ([internal/cli/tui], all but [model.go])

    The friends sidebar, the call dock, the footer's state and the six modals,
    each with the operations the root model calls, and the text helpers of the
    views. A key press is what Bubble Tea reports of it: its type, its runes and
    its name. What a modal does outside the program, writing the clipboard or
    running the editor, is part of its result. *)
From S2P Require Import Prelude GoStrings InviteCode.
From S2P Require InviteUrl IpcInvites.
From S2P Require Import IpcMethods.
#[local] Open Scope string_scope.
#[local] Open Scope list_scope.

(** ** Keys *)

Inductive KeyType := KeyEsc | KeyEnter | KeyBackspace | KeyRunes | KeyOther.
#[export] Instance KeyType_eq_dec : EqDecision KeyType.
Proof. solve_decision. Defined.

Record KeyMsg := mkKey { k_Type : KeyType; k_Runes : string; k_String : string }.

(** [s[:len(s)-1]]: the last byte goes. *)
Definition drop_last (s : string) : string := String.substring 0 (String.length s - 1) s.

(** ** [friends_pane.go] *)

Record friendsPane := mkPane {
  fp_friends : list FriendsListEntry;
  fp_selected : nat;
  fp_filter : string }.

Section pane.
Context (unicode_lower : string -> string).

Definition str_contains (sub s : string) : bool := bool_decide (is_Some (String.index 0 sub s)).

Definition visible (p : friendsPane) : list FriendsListEntry :=
  if decide (fp_filter p = "") then fp_friends p
  else let q := ToLower unicode_lower (fp_filter p) in
       filter (fun f => str_contains q (ToLower unicode_lower (le_Name f)) = true) (fp_friends p).

Definition SetFriends (fs : list FriendsListEntry) (p : friendsPane) : friendsPane :=
  mkPane fs (if decide (length fs <= fp_selected p) then 0 else fp_selected p) (fp_filter p).

(** [Selected] moves a selection out of range to the top. *)
Definition Selected (p : friendsPane) : friendsPane * option FriendsListEntry :=
  let vis := visible p in
  if decide (vis = []) then (p, None)
  else
    let sel := if decide (length vis <= fp_selected p) then 0 else fp_selected p in
    (mkPane (fp_friends p) sel (fp_filter p), vis !! sel).

Definition MoveUp (p : friendsPane) : friendsPane := mkPane (fp_friends p) (fp_selected p - 1) (fp_filter p).

Definition MoveDown (p : friendsPane) : friendsPane :=
  mkPane (fp_friends p)
    (if decide (Z.of_nat (fp_selected p) < Z.of_nat (length (visible p)) - 1)%Z then S (fp_selected p) else fp_selected p)
    (fp_filter p).

Definition SetFilter (s : string) (p : friendsPane) : friendsPane := mkPane (fp_friends p) 0 s.
End pane.

(** ** [call_dock.go] *)

Record callDockState := mkDock {
  d_State : string;
  d_CallID : string;
  d_Remote : string;
  d_StartedAt : option Z;       (* [None] is the zero time *)
  d_Mode : string;
  d_RxDB : Z;
  d_TxDB : Z;
  d_Reason : string;
  d_Muted : bool }.

Definition emptyDock : callDockState := mkDock "" "" "" None "" 0 0 "" false.

Definition Active (d : callDockState) : bool := bool_decide (d_State d ≠ "" ∧ d_State d ≠ "ended").

(** ** [status_footer.go] *)

Inductive statusKind := statusIdle | statusRinging | statusConnected | statusDaemonDown | statusNoRelay | statusError.
#[export] Instance statusKind_eq_dec : EqDecision statusKind.
Proof. solve_decision. Defined.

Record statusFooterState := mkFooter { f_Status : statusKind; f_Detail : string; f_Width : Z }.

(** ** The modals *)

Record incomingModal := mkIncoming { in_CallID : string; in_Caller : string; in_PeerID : string; in_Action : string }.
Record quitModal := mkQuit { q_remote : string; q_Action : string }.
Record settingsModal := mkSettings { se_path : string; se_editor : string }.

Inductive addFriendState := addStateEmpty | addStateNewPeer | addStateDuplicate.
#[export] Instance addFriendState_eq_dec : EqDecision addFriendState.
Proof. solve_decision. Defined.

Record addFriendModal := mkAddFriend {
  af_state : addFriendState;
  af_codeText : string;
  af_parsed : string;
  af_friend : option FriendsListEntry;
  af_inviter : string;
  af_Action : string;
  af_clipboardErr : option string;
  af_manualEntry : string }.

Inductive inviteModalState := inviteStateLoading | inviteStateActive | inviteStateRedeemed.
#[export] Instance inviteModalState_eq_dec : EqDecision inviteModalState.
Proof. solve_decision. Defined.

Record inviteModal := mkInvite {
  im_state : inviteModalState;
  im_result : option IpcInvites.InviteCreateResult;   (* [None] is the zero value *)
  im_qr : string;
  im_redeemer : string }.

Inductive modalView :=
| MIncoming (m : incomingModal)
| MQuit (m : quitModal)
| MHelp
| MSettings (m : settingsModal)
| MAddFriend (m : addFriendModal)
| MInvite (m : inviteModal).

Inductive Effect := WriteClipboard (s : string) | RunEditor (editor path : string).

(** The modal after the key, since the model inspects a modal that has closed,
    whether it stays open, and what it did. *)
Definition ModalOut : Type := modalView * bool * list Effect.
Definition stays (m : modalView) : ModalOut := (m, true, []).
Definition closes (m : modalView) : ModalOut := (m, false, []).

Definition incoming_Update (k : KeyMsg) (m : incomingModal) : ModalOut :=
  let act a := MIncoming (mkIncoming (in_CallID m) (in_Caller m) (in_PeerID m) a) in
  if decide (k_String k = "a") then closes (act "accept")
  else if decide (k_String k = "d") then closes (act "decline")
  else if decide (k_String k = "esc") then closes (act "ignore")
  else stays (MIncoming m).

Definition quit_Update (k : KeyMsg) (m : quitModal) : ModalOut :=
  let act a := MQuit (mkQuit (q_remote m) a) in
  if decide (k_String k = "d") then closes (act "detach")
  else if decide (k_String k = "h") then closes (act "hangup")
  else if decide (k_String k = "esc") then closes (act "cancel")
  else stays (MQuit m).

Definition help_Update (k : KeyMsg) : ModalOut :=
  if decide (k_String k = "?" ∨ k_String k = "esc") then closes MHelp else stays MHelp.

Definition settings_Update (k : KeyMsg) (m : settingsModal) : ModalOut :=
  if decide (k_String k = "o") then (MSettings m, false, [RunEditor (se_editor m) (se_path m)])
  else if decide (k_String k = "esc") then closes (MSettings m)
  else stays (MSettings m).

Definition set_af_Action (a : string) (m : addFriendModal) : addFriendModal :=
  mkAddFriend (af_state m) (af_codeText m) (af_parsed m) (af_friend m) (af_inviter m) a (af_clipboardErr m) (af_manualEntry m).
Definition set_manual (s : string) (m : addFriendModal) : addFriendModal :=
  mkAddFriend (af_state m) (af_codeText m) (af_parsed m) (af_friend m) (af_inviter m) (af_Action m) (af_clipboardErr m) s.

(** Runes typed while the modal is empty are kept. *)
Definition capture (k : KeyMsg) (m : addFriendModal) : addFriendModal :=
  if decide (af_state m = addStateEmpty ∧ k_Type k = KeyRunes) then set_manual (af_manualEntry m +:+ k_Runes k) m else m.

Definition addFriend_Update (k : KeyMsg) (m : addFriendModal) : ModalOut :=
  if decide (k_String k = "esc") then closes (MAddFriend (set_af_Action "cancel" m))
  else if decide (k_String k = "enter") then
    match af_state m with
    | addStateNewPeer => closes (MAddFriend (set_af_Action "redeem" m))
    | addStateDuplicate => closes (MAddFriend (set_af_Action "open" m))
    | addStateEmpty =>
        if decide (af_manualEntry m ≠ "")
        then closes (MAddFriend (mkAddFriend (af_state m) (af_manualEntry m) (af_manualEntry m) (af_friend m) (af_inviter m)
                                   "redeem" (af_clipboardErr m) (af_manualEntry m)))
        else stays (MAddFriend (capture k m))
    end
  else if decide (k_String k = "backspace") then
    stays (MAddFriend (capture k
      (if decide (af_state m = addStateEmpty ∧ 0 < String.length (af_manualEntry m))
       then set_manual (drop_last (af_manualEntry m)) m else m)))
  else stays (MAddFriend (capture k m)).

Definition CodeText (m : addFriendModal) : string :=
  if decide (af_codeText m ≠ "") then af_codeText m else af_manualEntry m.

Definition invite_Update (k : KeyMsg) (m : inviteModal) : ModalOut :=
  let copy f := match im_state m, im_result m with
    | inviteStateActive, Some r => [WriteClipboard (f r)]
    | _, _ => []
    end in
  if decide (k_String k = "esc") then closes (MInvite m)
  else if decide (k_String k = "u") then (MInvite m, true, copy IpcInvites.ic_URL)
  else if decide (k_String k = "k") then (MInvite m, true, copy IpcInvites.ic_Code)
  else stays (MInvite m).

Definition modal_Update (k : KeyMsg) (m : modalView) : ModalOut :=
  match m with
  | MIncoming m => incoming_Update k m
  | MQuit m => quit_Update k m
  | MHelp => help_Update k
  | MSettings m => settings_Update k m
  | MAddFriend m => addFriend_Update k m
  | MInvite m => invite_Update k m
  end.

Definition newInviteModal : inviteModal := mkInvite inviteStateLoading None "" "".
Definition SetRedeemed (by_ : string) (m : inviteModal) : inviteModal :=
  mkInvite inviteStateRedeemed (im_result m) (im_qr m) by_.

Section add_friend.
Context (unicode_upper unicode_lower : string -> string) (ID_String : string -> string).

Definition found (st : addFriendState) (code parsed inviter : string) (f : option FriendsListEntry) (m : addFriendModal)
  : addFriendModal :=
  mkAddFriend st code parsed f inviter (af_Action m) (af_clipboardErr m) (af_manualEntry m).

Definition set_state (st : addFriendState) (m : addFriendModal) : addFriendModal :=
  mkAddFriend st (af_codeText m) (af_parsed m) (af_friend m) (af_inviter m) (af_Action m) (af_clipboardErr m) (af_manualEntry m).

(** [applyDetection]; [friends] is the daemon's list, if it answers. *)
Definition applyDetection (contents : string) (friends : option (list FriendsListEntry)) (m : addFriendModal) : addFriendModal :=
  let s := TrimSpace contents in
  if decide (s = "") then set_state addStateEmpty m
  else
    let short :=
      match Parse unicode_upper s with
      | Ok c => found addStateNewPeer s (Pretty c) "(short code)" (af_friend m) m
      | Err _ => set_state addStateEmpty m
      end in
    if HasPrefix (ToLower unicode_lower s) InviteUrl.URLPrefix then
      match InviteUrl.ParseURL unicode_upper unicode_lower s with
      | Ok p =>
          if decide (InviteUrl.PeerID p = "") then short
          else
            let inviter := if decide (InviteUrl.DisplayName p = "") then "(unnamed)" else InviteUrl.DisplayName p in
            match find_index (fun f => String.eqb (ID_String (le_PeerID f)) (InviteUrl.PeerID p)) (default [] friends)
                  ≫= fun i => default [] friends !! i with
            | Some f => found addStateDuplicate s s inviter (Some f) m
            | None => found addStateNewPeer s s inviter (af_friend m) m
            end
      | Err _ => short
      end
    else short.

Definition newAddFriendModal (clip : result string string) (friends : option (list FriendsListEntry)) : addFriendModal :=
  match clip with
  | Err e => mkAddFriend addStateEmpty "" "" None "" "" (Some e) ""
  | Ok contents => applyDetection contents friends (mkAddFriend addStateEmpty "" "" None "" "" None "")
  end.
End add_friend.

(** [qr] is what rendering the URL as a QR code gives. *)
Definition SetResult (qr : option string) (r : IpcInvites.InviteCreateResult) (m : inviteModal) : inviteModal :=
  mkInvite inviteStateActive (Some r) (default (im_qr m) qr) (im_redeemer m).

(** ** Text helpers *)

(** [s[:6] + "…" + s[len(s)-4:]] of a peer id that is long. *)
Definition short_id (s : string) : string :=
  if decide (12 < String.length s)
  then String.substring 0 6 s +:+ "…" +:+ str_drop (String.length s - 4) s else s.

(** [relTime] of a duration in nanoseconds, rounded to minutes; [Round] does not
    leave the range of an int64. *)
Definition minute : Z := 60 * 10 ^ 9.
Definition round_minutes (d : Z) : Z :=
  let r := Z.rem d minute in
  if (0 <=? d)%Z then (if (r + r <? minute)%Z then d - r else Z.min (2 ^ 63 - 1) (d + minute - r))%Z
  else (if (- r + - r <? minute)%Z then d - r else Z.max (- 2 ^ 63) (d - minute - r))%Z.
Definition relTime (since : Z) : string :=
  let d := round_minutes since in
  if (d <? minute)%Z then "just now"
  else if (d <? 60 * minute)%Z then FormatInt (Z.quot d minute) +:+ "m ago"
  else if (d <? 24 * 60 * minute)%Z then FormatInt (Z.quot d (60 * minute)) +:+ "h ago"
  else FormatInt (Z.quot (Z.quot d (60 * minute)) 24) +:+ "d ago".

(** [stripANSI]: the runes of a string, with the ANSI control sequences removed. *)
Inductive AnsiState := stateText | stateEsc | stateCSI.

Fixpoint strip_from (st : AnsiState) (s : list Z) : list Z :=
  match s with
  | [] => []
  | r :: s =>
      match st with
      | stateText => if decide (r = 27)%Z then strip_from stateEsc s else r :: strip_from stateText s
      | stateEsc => strip_from (if decide (r = 91)%Z then stateCSI else stateText) s
      | stateCSI => strip_from (if decide (64 <= r ∧ r <= 126)%Z then stateText else stateCSI) s
      end
  end.
Definition stripANSI (s : list Z) : list Z := strip_from stateText s.

(** A slice of a list of runes, [None] being a panic. *)
Definition slice_to (s : list Z) (hi : Z) : option (list Z) :=
  if decide (0 <= hi <= Z.of_nat (length s))%Z then Some (take (Z.to_nat hi) s) else None.
Definition slice (s : list Z) (lo hi : Z) : option (list Z) :=
  if decide (0 <= lo <= hi ∧ hi <= Z.of_nat (length s))%Z then Some (take (Z.to_nat (hi - lo)) (drop (Z.to_nat lo) s)) else None.

(** [strings.Repeat(" ", n)] for [n >= 0]. *)
Definition spaces (n : Z) : list Z := repeat 32%Z (Z.to_nat n).

(** [padOrTrunc] on runes. *)
Definition padOrTrunc (s : list Z) (w : Z) : option (list Z) :=
  let n := Z.of_nat (length s) in
  if decide (w < n)%Z then s ← slice_to s (w - 1); Some (s ++ [8230%Z])
  else Some (if decide (n < w)%Z then s ++ spaces (w - n) else s).

(** [truncate] on bytes. *)
Definition truncate (s : string) (max : Z) : option string :=
  let n := Z.of_nat (String.length s) in
  if decide (n <= max)%Z then Some s
  else if decide (0 <= max - 1)%Z then Some (String.substring 0 (Z.to_nat (max - 1)) s +:+ "…") else None.

Section overlay.
(** The dimmed style and the visible width of a rendered row and of the panel. *)
Context (dim : list Z -> list Z) (Width : list Z -> Z) (panel_Width : list (list Z) -> Z).

Definition padRight (s : list Z) (w : Z) : list Z :=
  let pad := (w - Width s)%Z in if decide (pad <= 0)%Z then s else s ++ spaces pad.

(** One row of [renderOverlay]. *)
Definition overlay_row (fg : list (list Z)) (width top left : Z) (i : nat) (line : list Z) : option (list Z) :=
  let plain := stripANSI line in
  let n := Z.of_nat (length plain) in
  let plain := if decide (n < width)%Z then plain ++ spaces (width - n) else plain in
  if decide (Z.of_nat i < top ∨ top + Z.of_nat (length fg) <= Z.of_nat i)%Z
  then r ← slice_to plain width; Some (dim r)
  else
    fl ← fg !! Z.to_nat (Z.of_nat i - top);
    let e := Z.min width (left + Width fl) in
    leading ← slice_to plain left; trailing ← slice plain e width;
    Some (dim leading ++ fl ++ dim trailing).

(** [renderOverlay] on the lines of the background and of the panel. *)
Definition renderOverlay (bg fg : list (list Z)) (width height : Z) : option (list (list Z)) :=
  let bgLines := bg ++ repeat [] (Z.to_nat (height - Z.of_nat (length bg))) in
  let top := Z.max 0 (Z.quot (height - Z.of_nat (length fg)) 2) in
  let left := Z.max 0 (Z.quot (width - panel_Width fg) 2) in
  mapM (fun '(i, line) => overlay_row fg width top left i line) (imap pair bgLines).

(** The overlay never panics on a terminal of positive width, has a row for
    every line of the terminal, and shows each row of the panel that fits,
    unaltered, at its place. *)
Lemma overlay_row_total fg width top left i line :
  (0 <= width)%Z -> (0 <= top)%Z -> (0 <= left <= width)%Z -> (forall l, 0 <= Width l)%Z ->
  exists r, overlay_row fg width top left i line = Some r /\
    ((top <= Z.of_nat i < top + Z.of_nat (length fg))%Z ->
       exists fl pre post, fg !! Z.to_nat (Z.of_nat i - top) = Some fl /\ r = pre ++ fl ++ post).
Proof.
  intros Hw Ht Hl HW. unfold overlay_row.
  set (plain := if decide (Z.of_nat (length (stripANSI line)) < width)%Z then _ else stripANSI line).
  assert (Hlen : (width <= Z.of_nat (length plain))%Z).
  { subst plain. destruct (decide _); [|lia]. unfold spaces. rewrite length_app, repeat_length. lia. }
  clearbody plain. destruct (decide _) as [Hout|Hin].
  - unfold slice_to. rewrite decide_True by lia. simpl. eexists. split; [done|]. lia.
  - destruct (lookup_lt_is_Some_2 fg (Z.to_nat (Z.of_nat i - top))) as [fl Hfl]; [lia|]. rewrite Hfl. simpl.
    specialize (HW fl). unfold slice_to, slice. rewrite decide_True by lia. simpl. rewrite decide_True by lia. simpl.
    eexists. split; [done|]. intros _. eauto.
Qed.

Lemma renderOverlay_total bg fg width height :
  (0 <= width)%Z -> (0 <= panel_Width fg)%Z -> (forall l, 0 <= Width l)%Z ->
  exists out, renderOverlay bg fg width height = Some out /\
    Z.of_nat (length out) = Z.max (Z.of_nat (length bg)) height.
Proof.
  intros Hw Hp HW. unfold renderOverlay.
  set (lines := bg ++ _). set (top := Z.max 0 _). set (left := Z.max 0 _).
  assert (Hleft : (0 <= left <= width)%Z).
  { subst left. split; [lia|]. apply Z.max_lub; [lia|].
    destruct (Z.le_gt_cases (panel_Width fg) width); [apply Z.quot_le_upper_bound; lia|].
    assert (Z.quot (width - panel_Width fg) 2 <= 0)%Z; [|lia].
    rewrite <- (Z.opp_involutive (width - _)), Z.quot_opp_l by lia.
    assert (0 <= Z.quot (- (width - panel_Width fg)) 2)%Z by (apply Z.quot_pos; lia). lia. }
  assert (Hall : Forall (fun x => is_Some ((fun '(i, line) => overlay_row fg width top left i line) x)) (imap pair lines)).
  { apply Forall_forall. intros [i line] _.
    destruct (overlay_row_total fg width top left i line) as (r & -> & _); auto; lia. }
  apply mapM_is_Some_2 in Hall as [out Hout]. exists out. split; [exact Hout|].
  apply length_mapM in Hout. rewrite <- Hout, length_imap. subst lines. rewrite length_app, repeat_length. lia.
Qed.
End overlay.
