(* ===== verification/Tui.v ===== *)
(** * The terminal UI's model ([internal/cli/tui/model.go])

    The root model of the Bubble Tea program and its reducer [Update]: a message
    gives the next model, a command (its kind and arguments; running it is
    [TuiProgram]) and what a modal did outside the program. [Surroundings] is
    what [Update] reads from outside when it opens a modal. What is shown is in
    [Views]. *)
From S2P Require Import Prelude GoStrings.
From S2P Require IpcInvites.
From S2P Require Import CallSession IpcMethods IpcCalls TuiPanes.
#[local] Open Scope string_scope.
#[local] Open Scope list_scope.

(** ** Messages and commands ([messages.go], [ipc_commands.go]) *)

(** A subscription opened by the client. *)
Definition Sub := nat.

Inductive Msg :=
| WindowSizeMsg (w h : Z)
| MKey (k : KeyMsg)
| friendsLoadedMsg (fs : list FriendsListEntry)
| callsSubMsg (s : Sub)
| callStartedMsg (s : Sub)
| inviteCreatedMsg (r : IpcInvites.InviteCreateResult)
| inviteRedemptionSubMsg (s : Sub) (code : string)
| subEventMsg (label : string) (data : bytes)
| subClosedMsg (label : string)
| callsListMsg (calls : list CallsListEntry)
| daemonStatusMsg (st : DaemonStatusResult)
| errMsg (source err : string)
(* answers the model does not handle *)
| callActionDoneMsg (id action : string)
| inviteRedeemDoneMsg (f : FriendsListEntry)
| friendAddedMsg (f : FriendsListEntry)
| friendRenamedMsg (name newName : string)
| friendRemovedMsg (name : string)
| presenceSubMsg (s : Sub)
(* messages nothing sends *)
| presenceChangedMsg (name id : string) (online : bool)
| callStateMsg (sc : StateChange)
| inviteRedeemedMsg (code by_ : string).

Inductive Cmd :=
| CloadFriends
| CsubscribeCalls
| CloadDaemonStatus
| CtickDaemonStatus
| CtickCallsList
| CstartCall (target : string)
| CcallAction (id action reason : string)
| CcreateInvite (ttl : string)
| CredeemInvite (code : string)
| CsubscribeInviteRedemption (code : string)
| CwaitForSubEvent (s : Sub) (label : string)
| CQuit
| CSequence (a b : Cmd).

#[export] Instance Cmd_eq_dec : EqDecision Cmd.
Proof. solve_decision. Defined.

(** Whether a command ends the program. *)
Fixpoint quits (c : Cmd) : bool :=
  match c with
  | CQuit => true
  | CSequence a b => quits a || quits b
  | _ => false
  end.

(** ** The model *)

Record Model := mkModel {
  m_width : Z;
  m_height : Z;
  m_friends : friendsPane;
  m_focus : option FriendsListEntry;
  m_dock : callDockState;
  m_footer : statusFooterState;
  m_filtering : bool;
  m_filterInput : string;
  m_modal : option modalView;
  m_configPath : string;
  m_editorOverride : string;
  m_callTargetName : string }.

Definition set_size w h m := mkModel w h (m_friends m) (m_focus m) (m_dock m)
  (mkFooter (f_Status (m_footer m)) (f_Detail (m_footer m)) w) (m_filtering m) (m_filterInput m) (m_modal m)
  (m_configPath m) (m_editorOverride m) (m_callTargetName m).
Definition set_pane p foc m := mkModel (m_width m) (m_height m) p foc (m_dock m) (m_footer m) (m_filtering m)
  (m_filterInput m) (m_modal m) (m_configPath m) (m_editorOverride m) (m_callTargetName m).
Definition set_dock d m := mkModel (m_width m) (m_height m) (m_friends m) (m_focus m) d (m_footer m) (m_filtering m)
  (m_filterInput m) (m_modal m) (m_configPath m) (m_editorOverride m) (m_callTargetName m).
Definition set_footer st det m := mkModel (m_width m) (m_height m) (m_friends m) (m_focus m) (m_dock m)
  (mkFooter st det (f_Width (m_footer m))) (m_filtering m) (m_filterInput m) (m_modal m)
  (m_configPath m) (m_editorOverride m) (m_callTargetName m).
Definition set_filtering b s m := mkModel (m_width m) (m_height m) (m_friends m) (m_focus m) (m_dock m) (m_footer m) b s
  (m_modal m) (m_configPath m) (m_editorOverride m) (m_callTargetName m).
Definition set_modal x m := mkModel (m_width m) (m_height m) (m_friends m) (m_focus m) (m_dock m) (m_footer m)
  (m_filtering m) (m_filterInput m) x (m_configPath m) (m_editorOverride m) (m_callTargetName m).
Definition set_target s m := mkModel (m_width m) (m_height m) (m_friends m) (m_focus m) (m_dock m) (m_footer m)
  (m_filtering m) (m_filterInput m) (m_modal m) (m_configPath m) (m_editorOverride m) s.

Definition NewModel (configPath editor : string) : Model :=
  mkModel 0 0 (mkPane [] 0 "") None emptyDock (mkFooter statusIdle "" 0) false "" None configPath editor "".

(** [Init]'s batch. *)
Definition Init : list Cmd := [CloadFriends; CsubscribeCalls; CloadDaemonStatus; CtickDaemonStatus].

(** What opening a modal reads: the clipboard, the daemon's friends, the editor
    of the environment. *)
Record Surroundings := mkSurroundings {
  su_clipboard : result string string;
  su_friends : option (list FriendsListEntry);
  su_pickEditor : string }.

(** The model, the commands (a nil command is the empty list, a batch its
    members) and the effects of a modal. *)
Definition Out : Type := Model * list Cmd * list Effect.

(** Case analysis of a key handler. *)
Ltac key_cases :=
  repeat (match goal with
          | |- context [if decide ?P then _ else _] => destruct (decide P)
          | |- context [if Active ?d then _ else _] => destruct (Active d) eqn:?
          | |- context [match Selected ?f ?p with _ => _ end] => destruct (Selected f p) as [? [?|]]
          end; simpl in *).

Section model.
Context (unicode_upper unicode_lower : string -> string) (ID_String : string -> string) (qr : string -> option string).
(** [json.Unmarshal] of a call's state change and of an invite's redemption. *)
Context (read_change : bytes -> option StateChange) (read_redemption : bytes -> option string).

(** [syncFocusFromSelection]. *)
Definition sync_pane (p : friendsPane) (m : Model) : Model :=
  let '(p, sel) := Selected unicode_lower p in set_pane p sel m.

Definition friendNameForPeer (id : string) (m : Model) : string :=
  match find_index (fun f => String.eqb (le_PeerID f) id) (fp_friends (m_friends m)) ≫= fun i => fp_friends (m_friends m) !! i with
  | Some f => le_Name f
  | None => short_id (ID_String id)
  end.

(** [applyCallStateChange]. *)
Definition applyCallStateChange (sc : StateChange) (m : Model) : Model :=
  let old := m_dock m in
  if decide (d_CallID old ≠ "" ∧ d_CallID old ≠ SessionID sc) then m
  else
    let name := friendNameForPeer (ev_Remote sc) m in
    let m :=
      if decide (ev_State sc = "ringing" ∧ ev_Direction sc = "inbound" ∧ m_modal m = None)
      then set_modal (Some (MIncoming (mkIncoming (SessionID sc) name (ID_String (ev_Remote sc)) ""))) m else m in
    let m := set_dock (mkDock (ev_State sc) (SessionID sc) name
               (if decide (ev_State sc = "connected") then Some (ev_Time sc) else None)
               (d_Mode old) (d_RxDB old) (d_TxDB old) (ev_Reason sc) (d_Muted old)) m in
    if decide (ev_State sc ∈ ["ringing"; "calling"; "connecting"]) then set_footer statusRinging name m
    else if decide (ev_State sc = "connected") then set_footer statusConnected name m
    else if decide (ev_State sc = "ended") then set_footer statusIdle "" m
    else m.

(** [handleModalClosed]. *)
Definition handleModalClosed (prev : modalView) (m : Model) : list Cmd :=
  match prev with
  | MIncoming x =>
      if decide (in_Action x = "accept") then [CcallAction (in_CallID x) "accept" ""]
      else if decide (in_Action x = "decline") then [CcallAction (in_CallID x) "hangup" "declined"]
      else []
  | MQuit x =>
      if decide (q_Action x = "detach") then [CQuit]
      else if decide (q_Action x = "hangup")
      then [CSequence (CcallAction (d_CallID (m_dock m)) "hangup" "user requested") CQuit]
      else []
  | MAddFriend x =>
      if decide (af_Action x = "redeem" ∧ CodeText x ≠ "") then [CredeemInvite (CodeText x)] else []
  | _ => []
  end.

(** The key handling of [Update]: an open modal first, then the filter input,
    the dock, and the global keys. *)
Definition global_key (w : Surroundings) (k : KeyMsg) (m : Model) : Out :=
  let pane := m_friends m in
  let open x := (set_modal (Some x) m, [], []) in
  if decide (k_String k = "down" ∨ k_String k = "j") then (sync_pane (MoveDown unicode_lower pane) m, [], [])
  else if decide (k_String k = "up" ∨ k_String k = "k") then (sync_pane (MoveUp pane) m, [], [])
  else if decide (k_String k = "enter") then
    match Selected unicode_lower pane with
    | (p, Some sel) => (set_target (le_Name sel) (set_pane p (m_focus m) m), [CstartCall (le_Name sel)], [])
    | (p, None) => (set_pane p (m_focus m) m, [], [])
    end
  else if decide (k_String k = "q") then
    if Active (m_dock m) then open (MQuit (mkQuit (d_Remote (m_dock m)) "")) else (m, [CQuit], [])
  else if decide (k_String k = "?") then open MHelp
  else if decide (k_String k = "s") then
    open (MSettings (mkSettings (m_configPath m)
            (if decide (m_editorOverride m = "") then su_pickEditor w else m_editorOverride m)))
  else if decide (k_String k = "a") then
    open (MAddFriend (newAddFriendModal unicode_upper unicode_lower ID_String (su_clipboard w) (su_friends w)))
  else if decide (k_String k = "c") then (set_modal (Some (MInvite newInviteModal)) m, [CcreateInvite ""], [])
  else if decide (k_String k = "/") then (set_filtering true (m_filterInput m) m, [], [])
  else (m, [], []).

Definition dock_key (w : Surroundings) (k : KeyMsg) (m : Model) : Out :=
  if Active (m_dock m) then
    if decide (k_String k = "m") then (m, [CcallAction (d_CallID (m_dock m)) "mute" ""], [])
    else if decide (k_String k = "h") then (m, [CcallAction (d_CallID (m_dock m)) "hangup" "user requested"], [])
    else if decide (k_String k = "esc") then (set_dock emptyDock m, [], [])
    else global_key w k m
  else global_key w k m.

Definition set_filter_text (s : string) (m : Model) : Model :=
  sync_pane (SetFilter s (m_friends m)) (set_filtering (m_filtering m) s m).

Definition filter_key (w : Surroundings) (k : KeyMsg) (m : Model) : Out :=
  match k_Type k with
  | KeyEsc => (sync_pane (SetFilter "" (m_friends m)) (set_filtering false "" m), [], [])
  | KeyEnter => (sync_pane (m_friends m) (set_filtering false (m_filterInput m) m), [], [])
  | KeyBackspace =>
      (if decide (0 < String.length (m_filterInput m)) then set_filter_text (drop_last (m_filterInput m)) m else m, [], [])
  | KeyRunes => (set_filter_text (m_filterInput m +:+ k_Runes k) m, [], [])
  | KeyOther => dock_key w k m
  end.

Definition key_Update (w : Surroundings) (k : KeyMsg) (m : Model) : Out :=
  match m_modal m with
  | Some x =>
      let '(prev, open, effs) := modal_Update k x in
      if (open : bool) then (set_modal (Some prev) m, [], effs)
      else let m := set_modal None m in (m, handleModalClosed prev m, effs)
  | None => if m_filtering m then filter_key w k m else dock_key w k m
  end.

(** The row of the call in the dock; the last one counts. *)
Definition apply_levels (m : Model) (c : CallsListEntry) : Model :=
  let s := m_dock m in
  if decide (cl_CallID c = d_CallID s)
  then set_dock (mkDock (d_State s) (d_CallID s) (d_Remote s) (d_StartedAt s) (cl_MediaMode c) (cl_RxLevelDB c)
                   (cl_TxLevelDB c) (d_Reason s) (cl_Muted c)) m
  else m.

Definition Update (w : Surroundings) (msg : Msg) (m : Model) : Out :=
  match msg with
  | WindowSizeMsg wd h => (set_size wd h m, [], [])
  | MKey k => key_Update w k m
  | friendsLoadedMsg fs => (sync_pane (SetFriends fs (m_friends m)) m, [], [])
  | callsSubMsg s => (m, [CwaitForSubEvent s "calls"], [])
  | callStartedMsg s =>
      let m' :=
        if Active (m_dock m) then m
        else set_footer statusRinging (m_callTargetName m)
               (set_dock (mkDock "calling" "" (m_callTargetName m) None "" 0 0 "" false) m) in
      (m', [CwaitForSubEvent s "calls.start"], [])
  | inviteCreatedMsg r =>
      match m_modal m with
      | Some (MInvite im) =>
          (set_modal (Some (MInvite (SetResult (qr (IpcInvites.ic_URL r)) r im))) m,
           [CsubscribeInviteRedemption (IpcInvites.ic_Code r)], [])
      | _ => (m, [], [])
      end
  | inviteRedemptionSubMsg s code => (m, [CwaitForSubEvent s ("invite:" +:+ code)], [])
  | subEventMsg label data =>
      if decide (label = "calls" ∨ label = "calls.start") then
        match read_change data with
        | None => (m, [], [])
        | Some sc =>
            let m' := applyCallStateChange sc m in
            (m', if negb (Active (m_dock m)) && Active (m_dock m') then [CtickCallsList] else [], [])
        end
      else if HasPrefix label "invite:" then
        match m_modal m, read_redemption data with
        | Some (MInvite im), Some by_ => (set_modal (Some (MInvite (SetRedeemed by_ im))) m, [], [])
        | _, _ => (m, [], [])
        end
      else (m, [], [])
  | callsListMsg calls =>
      let m := foldl apply_levels m calls in
      (m, if Active (m_dock m) then [CtickCallsList] else [], [])
  | daemonStatusMsg st =>
      (if decide (f_Status (m_footer m) ≠ statusConnected ∧ f_Status (m_footer m) ≠ statusRinging)
       then set_footer (if decide (ds_Relays st = []) then statusNoRelay else statusIdle) (f_Detail (m_footer m)) m
       else m, [CtickDaemonStatus], [])
  | errMsg source err =>
      if decide (source = "daemon.status") then (set_footer statusDaemonDown "" m, [CtickDaemonStatus], [])
      else (set_footer statusError (source +:+ ": " +:+ err) m, [], [])
  | subClosedMsg _ | callActionDoneMsg _ _ | inviteRedeemDoneMsg _ | friendAddedMsg _ | friendRenamedMsg _ _
  | friendRemovedMsg _ | presenceSubMsg _ | presenceChangedMsg _ _ _ | callStateMsg _ | inviteRedeemedMsg _ _ => (m, [], [])
  end.

(** The model after a sequence of messages. *)
Definition run_msgs (m : Model) (msgs : list (Surroundings * Msg)) : Model :=
  foldl (fun m wm => fst (fst (Update (fst wm) (snd wm) m))) m msgs.

(** ** The selection *)

(** The focused friend is the selected one of the visible friends, and the
    selection is one of them. *)
Definition well_formed (m : Model) : Prop :=
  let vis := visible unicode_lower (m_friends m) in
  m_focus m = vis !! fp_selected (m_friends m) ∧ (vis ≠ [] → fp_selected (m_friends m) < length vis).

Lemma well_formed_ext m m' :
  m_friends m' = m_friends m → m_focus m' = m_focus m → well_formed m → well_formed m'.
Proof. unfold well_formed. intros -> ->. auto. Qed.

Lemma Selected_wf p p' o :
  Selected unicode_lower p = (p', o) →
  let vis := visible unicode_lower p' in
  vis = visible unicode_lower p ∧ o = vis !! fp_selected p' ∧ (vis ≠ [] → fp_selected p' < length vis).
Proof.
  unfold Selected. destruct (decide (visible unicode_lower p = [])) as [E|E]; intros [= <- <-]; simpl.
  - rewrite E. split_and!; [done | by rewrite lookup_nil | done].
  - split_and!; [done | done | intros _]. unfold visible in *; simpl in *.
    destruct (decide (length _ <= fp_selected p)); [|lia].
    destruct (decide (fp_filter p = "")); [destruct (fp_friends p) | destruct (filter _ _)]; simpl in *; try done; lia.
Qed.

Lemma sync_wf p m : well_formed (sync_pane p m).
Proof.
  unfold sync_pane. destruct (Selected unicode_lower p) as [p' o] eqn:E.
  apply Selected_wf in E as (Hv & Ho & Hlt). split; simpl; auto.
Qed.

(** Within range, [Selected] changes nothing. *)
Lemma Selected_in_range m :
  well_formed m → Selected unicode_lower (m_friends m) = (m_friends m, m_focus m).
Proof.
  intros [-> Hlt]. unfold Selected. destruct (decide (visible unicode_lower (m_friends m) = [])) as [E|E].
  - by rewrite E, lookup_nil.
  - rewrite decide_False by (specialize (Hlt E); lia). by destruct (m_friends m).
Qed.

#[local] Hint Resolve sync_wf : tui.

Lemma sync_out p m (cs : list Cmd) (es : list Effect) : well_formed (fst (fst (sync_pane p m, cs, es))).
Proof. apply sync_wf. Qed.
#[local] Hint Resolve sync_out : tui.

Ltac wf_split :=
  repeat (match goal with
          | |- context [if decide ?P then _ else _] => destruct (decide P)
          | |- context [if Active ?d then _ else _] => destruct (Active d)
          end; simpl; auto with tui).

Lemma global_key_wf w k m : well_formed m → well_formed (fst (fst (global_key w k m))).
Proof.
  intros Hwf. unfold global_key. rewrite (Selected_in_range m Hwf). wf_split.
  destruct (m_focus m) eqn:E; simpl; auto; apply (well_formed_ext m); simpl; auto.
Qed.

Lemma dock_key_wf w k m : well_formed m → well_formed (fst (fst (dock_key w k m))).
Proof. intros Hwf. unfold dock_key. wf_split; by apply global_key_wf. Qed.

Lemma filter_key_wf w k m : well_formed m → well_formed (fst (fst (filter_key w k m))).
Proof.
  intros Hwf. unfold filter_key, set_filter_text.
  destruct (k_Type k); simpl; auto with tui; [wf_split | by apply dock_key_wf].
Qed.

(** The state of the call changes neither the sidebar nor the filter. *)
Lemma applyCallStateChange_frame sc m :
  let m' := applyCallStateChange sc m in
  m_friends m' = m_friends m ∧ m_focus m' = m_focus m ∧ m_filtering m' = m_filtering m
  ∧ m_filterInput m' = m_filterInput m ∧ m_callTargetName m' = m_callTargetName m.
Proof.
  unfold applyCallStateChange.
  repeat match goal with |- context [decide ?P] => destruct (decide P) end; simpl; auto 6.
Qed.

Lemma apply_levels_frame m calls :
  let m' := foldl apply_levels m calls in
  m_friends m' = m_friends m ∧ m_focus m' = m_focus m ∧ m_modal m' = m_modal m
  ∧ d_State (m_dock m') = d_State (m_dock m) ∧ d_CallID (m_dock m') = d_CallID (m_dock m).
Proof.
  revert m. induction calls as [|c calls IH]; intros m; simpl; [auto 6|].
  destruct (IH (apply_levels m c)) as (-> & -> & -> & -> & ->).
  unfold apply_levels. destruct (decide _); simpl; auto 6.
Qed.

Lemma Update_wf w msg m : well_formed m → well_formed (fst (fst (Update w msg m))).
Proof.
  intros Hwf. destruct msg; simpl; auto with tui.
  - unfold key_Update. destruct (m_modal m) as [x|].
    + destruct (modal_Update k x) as [[prev []] effs]; simpl; by apply (well_formed_ext m).
    + destruct (m_filtering m); [by apply filter_key_wf | by apply dock_key_wf].
  - destruct (Active (m_dock m)); simpl; auto.
  - destruct (m_modal m) as [[]|]; simpl; auto.
  - destruct (decide _).
    + destruct (read_change data) as [sc|]; simpl; auto.
      destruct (applyCallStateChange_frame sc m) as (H1 & H2 & _). by apply (well_formed_ext m).
    + destruct (HasPrefix label "invite:"); simpl; auto.
      destruct (m_modal m) as [[]|], (read_redemption data); simpl; auto.
  - destruct (apply_levels_frame m calls) as (H1 & H2 & _). by apply (well_formed_ext m).
  - destruct (decide _); simpl; auto.
  - destruct (decide _); simpl; auto.
Qed.

Lemma run_msgs_wf m msgs : well_formed m → well_formed (run_msgs m msgs).
Proof. revert m. induction msgs as [|[w msg] msgs IH]; intros m Hwf; simpl; [done|]. by apply IH, Update_wf. Qed.

Lemma NewModel_wf cfg editor : well_formed (NewModel cfg editor).
Proof. split; [done|]. by intros []. Qed.

(** C13: Whatever messages the terminal UI has received, the friend shown in the
    focus pane is the selected one of the visible friends and the selection is
    in range; so the enter key, outside a modal and the filter, calls exactly
    the friend on display, and nobody when none is. *)
Theorem call_whom_you_see cfg editor msgs :
  let m := run_msgs (NewModel cfg editor) msgs in
  well_formed m
  ∧ forall w k, m_modal m = None -> m_filtering m = false -> k_String k = "enter" ->
    Update w (MKey k) m = match m_focus m with
      | Some f => (set_target (le_Name f) m, [CstartCall (le_Name f)], [])
      | None => (m, [], [])
      end.
Proof.
  intros m. assert (Hwf : well_formed m) by apply run_msgs_wf, NewModel_wf. split; [done|].
  intros w k Hm Hf Hk. simpl. unfold key_Update, dock_key, global_key. rewrite Hm, Hf, Hk. simpl.
  rewrite (Selected_in_range m Hwf).
  assert (Hset : set_pane (m_friends m) (m_focus m) m = m) by by destruct m.
  destruct (Active (m_dock m)); simpl; destruct (m_focus m); by rewrite Hset.
Qed.

(** ** Keys and modals *)

Definition quits_list (cs : list Cmd) : bool := existsb quits cs.

Lemma global_key_quits w k m :
  quits_list (snd (fst (global_key w k m))) = true ↔ k_String k = "q" ∧ Active (m_dock m) = false.
Proof.
  unfold global_key. split.
  - key_cases; try discriminate; auto.
  - intros [Hq HA]. rewrite Hq, HA. reflexivity.
Qed.

Lemma dock_key_quits w k m :
  quits_list (snd (fst (dock_key w k m))) = true ↔ k_String k = "q" ∧ Active (m_dock m) = false.
Proof.
  unfold dock_key. destruct (Active (m_dock m)) eqn:HA; [|by rewrite global_key_quits, HA].
  split; [|intros [_ [=]]]. key_cases; try discriminate. rewrite global_key_quits, HA. tauto.
Qed.

Lemma filter_key_quits w k m :
  quits_list (snd (fst (filter_key w k m))) = true ↔
  k_Type k = KeyOther ∧ k_String k = "q" ∧ Active (m_dock m) = false.
Proof.
  unfold filter_key. destruct (k_Type k); simpl;
    [split; [done | by intros [[=] _]] .. | rewrite dock_key_quits; tauto].
Qed.

(** What a modal asks for when a key closes it. *)
Definition modal_cmds (m : Model) (k : KeyMsg) (x : modalView) : list Cmd :=
  match x with
  | MIncoming x =>
      if decide (k_String k = "a") then [CcallAction (in_CallID x) "accept" ""]
      else if decide (k_String k = "d") then [CcallAction (in_CallID x) "hangup" "declined"] else []
  | MQuit _ =>
      if decide (k_String k = "d") then [CQuit]
      else if decide (k_String k = "h")
      then [CSequence (CcallAction (d_CallID (m_dock m)) "hangup" "user requested") CQuit] else []
  | MAddFriend x =>
      let text := if decide (af_state x = addStateEmpty) then af_manualEntry x else CodeText x in
      if decide (k_String k = "enter" ∧ af_state x ≠ addStateDuplicate ∧ text ≠ "") then [CredeemInvite text] else []
  | _ => []
  end.

Lemma addFriend_cmds m k x :
  snd (fst (let '(prev, open, effs) := addFriend_Update k x in
            if (open : bool) then (set_modal (Some prev) m, [], effs)
            else (set_modal None m, handleModalClosed prev (set_modal None m), effs))) = modal_cmds m k (MAddFriend x).
Proof.
  unfold addFriend_Update. cbn [modal_cmds]. destruct (decide (k_String k = "esc")) as [->|Hesc]; [done|].
  destruct (decide (k_String k = "enter")) as [->|Hent].
  - unfold handleModalClosed, CodeText. destruct (af_state x) eqn:Es; cbn.
    + destruct (decide (af_manualEntry x ≠ "")) as [Ht|Ht]; cbn.
      * rewrite (decide_True (P := af_manualEntry x ≠ "")) by done. by rewrite !decide_True by auto.
      * rewrite decide_False; [done | tauto].
    + destruct (decide (af_codeText x ≠ "")) as [Ht|Ht]; [by rewrite !decide_True by auto|].
      destruct (decide (af_manualEntry x ≠ "")); [by rewrite !decide_True by auto|].
      rewrite !decide_False; [done | tauto ..].
    + done.
  - rewrite (decide_False (P := k_String k = "enter" ∧ _)) by tauto. by destruct (decide _).
Qed.

Lemma modal_key_cmds w k m x :
  m_modal m = Some x → snd (fst (key_Update w k m)) = modal_cmds m k x.
Proof.
  intros Hx. unfold key_Update. rewrite Hx.
  destruct x as [x|x| |x|x|x]; cbn [modal_Update modal_cmds].
  - unfold incoming_Update. by key_cases.
  - unfold quit_Update. by key_cases.
  - unfold help_Update. by key_cases.
  - unfold settings_Update. by key_cases.
  - by apply addFriend_cmds.
  - unfold invite_Update. by key_cases.
Qed.

Lemma modal_key_frame w k m x :
  m_modal m = Some x → set_modal (m_modal m) (fst (fst (key_Update w k m))) = m.
Proof.
  intros Hx. unfold key_Update. rewrite Hx.
  destruct (modal_Update k x) as [[prev []] effs]; simpl; rewrite <- Hx; by destruct m.
Qed.

(** C14: The terminal UI ends exactly when it is asked to: a message makes
    [Update] quit if and only if it is the key q with no call in the dock, typed
    outside a modal and outside the filter's text, or the key d or h in the quit
    modal; d only detaches, and h first hangs the docked call up. *)
Theorem quit_only_when_asked w msg m :
  let cs := snd (fst (Update w msg m)) in
  (quits_list cs = true <->
   exists k, msg = MKey k /\
     match m_modal m with
     | None => k_String k = "q" /\ Active (m_dock m) = false /\ (m_filtering m = true -> k_Type k = KeyOther)
     | Some (MQuit _) => k_String k = "d" \/ k_String k = "h"
     | Some _ => False
     end)
  /\ (forall k x, msg = MKey k -> m_modal m = Some (MQuit x) ->
      (k_String k = "d" -> cs = [CQuit])
      /\ (k_String k = "h" -> cs = [CSequence (CcallAction (d_CallID (m_dock m)) "hangup" "user requested") CQuit])).
Proof.
  intros cs. split.
  - destruct msg; subst cs; try (split; [|by intros (? & [=] & _)]; simpl).
    2: { cbn [Update]. destruct (m_modal m) as [x|] eqn:Ex.
         - rewrite (modal_key_cmds w k m x Ex). destruct x; cbn [modal_cmds]; key_cases; naive_solver.
         - unfold key_Update. rewrite Ex. destruct (m_filtering m) eqn:Ef;
             rewrite ?filter_key_quits, ?dock_key_quits; naive_solver. }
    all: key_cases; try done.
    + by destruct (m_modal m) as [[]|].
    + by destruct (read_change data); simpl; [destruct (_ && _)|].
    + destruct (HasPrefix label "invite:"); [|done]. by destruct (m_modal m) as [[]|], (read_redemption data).
  - intros k x -> Ex. subst cs. cbn [Update]. rewrite (modal_key_cmds w k m _ Ex). cbn [modal_cmds].
    by split; intros ->.
Qed.

(** An open modal takes every key: nothing of the model but the modal
    changes, and the only requests are those the modal stands for. Accepting or
    declining an incoming call acts on that very call, whatever the dock shows;
    confirming an invite redeems the code on display; every other key of every
    modal requests nothing. *)
Theorem modal_keys_correct w k m x :
  m_modal m = Some x ->
  let '(m', cs, _) := Update w (MKey k) m in
  set_modal (m_modal m) m' = m /\ cs = modal_cmds m k x.
Proof.
  intros Hx. cbn [Update]. pose proof (modal_key_frame w k m x Hx) as H1.
  pose proof (modal_key_cmds w k m x Hx) as H2.
  by destruct (key_Update w k m) as [[m' cs] effs].
Qed.

(** ** A call that has ended *)

Definition not_incoming (m : Model) : Prop := match m_modal m with Some (MIncoming _) => False | _ => True end.

Lemma inactive_key_dock w k m :
  Active (m_dock m) = false →
  m_dock (fst (fst (key_Update w k m))) = m_dock m
  ∧ (not_incoming m → not_incoming (fst (fst (key_Update w k m)))).
Proof.
  intros HA. unfold key_Update.
  assert (Hsync : ∀ p m0, m_dock (sync_pane p m0) = m_dock m0 ∧ m_modal (sync_pane p m0) = m_modal m0)
    by (intros; unfold sync_pane; by destruct (Selected _ _)).
  assert (Hg : m_modal m = None → let m' := fst (fst (dock_key w k m)) in m_dock m' = m_dock m ∧ not_incoming m').
  { intros Hm. unfold dock_key, global_key, not_incoming. rewrite HA.
    key_cases; rewrite ?(proj1 (Hsync _ _)), ?(proj2 (Hsync _ _)); simpl; rewrite ?Hm; auto. }
  destruct (m_modal m) as [x|] eqn:Ex.
  - destruct x as [x|x| |x|x|x]; cbn [modal_Update];
      unfold incoming_Update, quit_Update, help_Update, settings_Update, addFriend_Update, invite_Update;
      key_cases; unfold not_incoming; rewrite ?Ex; simpl; auto; try (destruct (af_state x); simpl; auto); key_cases; auto.
  - destruct (m_filtering m) eqn:Ef; [|destruct (Hg eq_refl); auto].
    unfold filter_key, set_filter_text. destruct (k_Type k); simpl; try (destruct (Hg eq_refl); by auto);
      unfold not_incoming; key_cases; rewrite ?(proj1 (Hsync _ _)), ?(proj2 (Hsync _ _)); simpl; rewrite ?Ex; auto.
Qed.

(** A message that neither starts a call from here nor reports on call [id]. *)
Definition other_msg (id : string) (msg : Msg) : Prop :=
  match msg with
  | callStartedMsg _ => False
  | subEventMsg _ data => forall sc, read_change data = Some sc -> SessionID sc <> id
  | _ => True
  end.

(** The dock remembers a call [id] that has ended, and no incoming call is shown. *)
Definition dock_ended (id : string) (m : Model) : Prop :=
  d_State (m_dock m) = "ended" /\ d_CallID (m_dock m) = id /\ not_incoming m.

Lemma Update_dock_ended id w msg m :
  id ≠ "" → other_msg id msg → dock_ended id m → dock_ended id (fst (fst (Update w msg m))).
Proof.
  intros Hid Hmsg (Hst & Hcall & Hin).
  assert (HA : Active (m_dock m) = false) by (unfold Active; rewrite Hst; by apply bool_decide_eq_false; intros []).
  destruct msg; simpl in *; try done.
  - destruct (inactive_key_dock w k m HA) as [Hd Hi]. unfold dock_ended. rewrite Hd. auto.
  - unfold sync_pane. by destruct (Selected _ _).
  - unfold not_incoming in *. destruct (m_modal m) as [[]|] eqn:E; simpl in *; unfold dock_ended, not_incoming; simpl; rewrite ?E; auto.
  - destruct (decide _).
    + destruct (read_change data) as [sc|]; [|done]. simpl. unfold applyCallStateChange.
      rewrite decide_True; [done|]. rewrite Hcall. split; [done|]. intros ->. by apply (Hmsg sc).
    + destruct (HasPrefix label "invite:"); [|done].
      unfold not_incoming in *. destruct (m_modal m) as [[]|] eqn:E, (read_redemption data); simpl in *;
        unfold dock_ended, not_incoming; simpl; rewrite ?E; auto.
  - destruct (apply_levels_frame m calls) as (_ & _ & Hm & Hs & Hc).
    unfold dock_ended, not_incoming. rewrite Hm, Hs, Hc. auto.
  - by destruct (decide _).
  - by destruct (decide _).
Qed.

(** Once the dock's call has ended, the terminal UI shows no further
    incoming call until the user places one: whatever the keys, answers and
    events of other calls, the dock keeps the ended call and no incoming-call
    modal opens, although an inbound ringing event is what opens it. *)
Theorem ended_call_hides_next m msgs id :
  d_State (m_dock m) = "ended" -> d_CallID (m_dock m) = id -> id <> "" -> not_incoming m ->
  Forall (fun wm => other_msg id (snd wm)) msgs ->
  let m' := run_msgs m msgs in
  d_State (m_dock m') = "ended" /\ d_CallID (m_dock m') = id
  /\ (forall x, m_modal m' <> Some (MIncoming x))
  /\ (forall w label data sc m0, label = "calls" -> read_change data = Some sc -> ev_State sc = "ringing" ->
      ev_Direction sc = "inbound" -> d_CallID (m_dock m0) = "" -> m_modal m0 = None ->
      exists x, m_modal (fst (fst (Update w (subEventMsg label data) m0))) = Some (MIncoming x) /\ in_CallID x = SessionID sc).
Proof.
  intros Hst Hcall Hid Hin Hmsgs.
  assert (Hend : dock_ended id (run_msgs m msgs)).
  { assert (H0 : dock_ended id m) by done. clear Hst Hcall Hin. revert m H0.
    induction Hmsgs as [|[w msg] msgs Hmsg _ IH]; intros m H0; simpl; [done|]. by apply IH, Update_dock_ended. }
  destruct Hend as (H1 & H2 & H3). split_and!; auto.
  - intros x Hx. unfold not_incoming in H3. by rewrite Hx in H3.
  - clear. intros w label data sc m0 -> Hr Hst Hd Hc Hm. cbn [Update]. rewrite decide_True by auto. rewrite Hr. simpl.
    unfold applyCallStateChange. rewrite decide_False by (rewrite Hc; tauto).
    rewrite (decide_True (P := ev_State sc = "ringing" ∧ _)) by auto.
    repeat match goal with |- context [decide ?P] => destruct (decide P) end; simpl; eauto.
Qed.
End model.

(** ** The layout of [View] *)

(** The content sizes [View] gives its parts; a box of content size [n] is drawn
    [n + 2] wide or high, its border included, as [View]'s comments have it. *)
Record Layout := mkLayout { la_sidebarW : Z; la_focusW : Z; la_upperH : Z; la_dockH : Z }.
Definition boxed (n : Z) : Z := n + 2.

Definition layout (m : Model) : option Layout :=
  if decide (m_width m = 0)%Z then None
  else
    let sidebarW := 28%Z in
    let focusW := (m_width m - sidebarW - 4)%Z in
    let focusW := if decide (focusW < 20)%Z then 20%Z else focusW in
    let upperH := (m_height m - 3)%Z in
    let dockH := if Active (m_dock m) then 6%Z else 0%Z in
    let upperH := (upperH - dockH)%Z in
    let upperH := if decide (upperH < 5)%Z then 5%Z else upperH in
    Some (mkLayout sidebarW focusW upperH dockH).

(** The size of the joined panes, the dock's box as [callDock.View] draws it and
    the footer's row. *)
Definition frame (m : Model) (l : Layout) : Z * Z :=
  let upper := (boxed (la_sidebarW l) + boxed (la_focusW l))%Z in
  if decide (0 < la_dockH l)%Z
  then (Z.max upper (boxed (m_width m)), boxed (la_upperH l) + boxed (la_dockH l) + 1)%Z
  else (upper, boxed (la_upperH l) + 1)%Z.

(** Without a call the frame fills the terminal exactly; with one in the dock it
    is two columns and two rows too large, since the dock's border is not
    counted. *)
Lemma layout_frame m :
  (52 <= m_width m)%Z -> (14 <= m_height m)%Z ->
  exists l, layout m = Some l /\
    frame m l = if Active (m_dock m) then (m_width m + 2, m_height m + 2)%Z else (m_width m, m_height m).
Proof.
  intros Hw Hh. unfold layout. rewrite decide_False by lia. eexists. split; [done|]. unfold frame, boxed.
  rewrite (decide_False (P := (_ < 20)%Z)) by lia.
  destruct (Active (m_dock m)); simpl; rewrite (decide_False (P := (_ < 5)%Z)) by lia; f_equal; lia.
Qed.

(** ** Witnesses *)

Definition demo_lower (s : string) : string := s.
Definition demo_w : Surroundings := mkSurroundings (Err "no clipboard") None "vi".
Definition demo_entries : list FriendsListEntry :=
  [mkFriendsListEntry "ann" "pa" true None 1; mkFriendsListEntry "bob" "pb" false None 2].
Definition demo_change : StateChange := mkStateChange "c-2" "ringing" "inbound" "pb" 5 "".
Definition key (s : string) : Msg := MKey (mkKey KeyOther "" s).
Definition demo_qr (s : string) : option string := Some s.
Definition demo_read_change (b : bytes) : option StateChange := if decide (b = []) then None else Some demo_change.
Definition demo_read_redemption (b : bytes) : option string := Some "ann".
Definition demo_msgs : list (Surroundings * Msg) := [(demo_w, friendsLoadedMsg demo_entries); (demo_w, key "j")].
Notation demo_run := (run_msgs demo_lower demo_lower demo_lower demo_qr demo_read_change demo_read_redemption).
Notation demo_Update := (Update demo_lower demo_lower demo_lower demo_qr demo_read_change demo_read_redemption).

Lemma call_whom_you_see_witness :
  let m := demo_run (NewModel "cfg" "") demo_msgs in
  le_Name <$> m_focus m = Some "bob" /\ snd (fst (demo_Update demo_w (key "enter") m)) = [CstartCall "bob"].
Proof.
  destruct (call_whom_you_see demo_lower demo_lower demo_lower demo_qr demo_read_change demo_read_redemption
              "cfg" "" demo_msgs) as [_ Hkey].
  split; [reflexivity|].
  pose proof (Hkey demo_w (mkKey KeyOther "" "enter") eq_refl eq_refl eq_refl) as H. unfold key. by rewrite H.
Defined.

Definition demo_call_model (st : string) : Model :=
  set_dock (mkDock st "c-1" "ann" None "" 0 0 "" false) (NewModel "cfg" "").

Lemma quit_only_when_asked_witness :
  let m := set_modal (Some (MQuit (mkQuit "ann" ""))) (demo_call_model "connected") in
  quits_list (snd (fst (demo_Update demo_w (key "h") m))) = true
  /\ snd (fst (demo_Update demo_w (key "h") m)) = [CSequence (CcallAction "c-1" "hangup" "user requested") CQuit].
Proof.
  intros m. destruct (quit_only_when_asked demo_lower demo_lower demo_lower demo_qr demo_read_change demo_read_redemption
                        demo_w (key "h") m) as [Hq Hh].
  split.
  - apply Hq. eexists. split; [reflexivity|]. simpl. auto.
  - by apply (Hh (mkKey KeyOther "" "h") (mkQuit "ann" "")).
Defined.

Lemma modal_keys_correct_witness :
  let m := set_modal (Some (MIncoming (mkIncoming "c-2" "bob" "pb" ""))) (demo_call_model "ended") in
  snd (fst (demo_Update demo_w (key "a") m)) = [CcallAction "c-2" "accept" ""]
  /\ snd (fst (demo_Update demo_w (key "q") m)) = [].
Proof.
  intros m. split.
  - pose proof (modal_keys_correct demo_lower demo_lower demo_lower demo_qr demo_read_change demo_read_redemption
                  demo_w (mkKey KeyOther "" "a") m _ eq_refl) as H.
    unfold key. destruct (demo_Update _ _ m) as [[m' cs] effs]. destruct H as [_ ->]. reflexivity.
  - pose proof (modal_keys_correct demo_lower demo_lower demo_lower demo_qr demo_read_change demo_read_redemption
                  demo_w (mkKey KeyOther "" "q") m _ eq_refl) as H.
    unfold key. destruct (demo_Update _ _ m) as [[m' cs] effs]. destruct H as [_ ->]. reflexivity.
Defined.

Lemma ended_call_hides_next_witness :
  let m := demo_run (demo_call_model "ended") [(demo_w, subEventMsg "calls" [1%Z]); (demo_w, key "j")] in
  d_CallID (m_dock m) = "c-1" /\ (forall x, m_modal m <> Some (MIncoming x)).
Proof.
  destruct (ended_call_hides_next demo_lower demo_lower demo_lower demo_qr demo_read_change demo_read_redemption
              (demo_call_model "ended") [(demo_w, subEventMsg "calls" [1%Z]); (demo_w, key "j")] "c-1") as (_ & H & Hx & _);
    [reflexivity | reflexivity | discriminate | exact I | | by split].
  repeat constructor. intros sc. vm_compute. intros [= <-]. discriminate.
Defined.
