(* ===== verification/TuiProgram.v ===== *)
(** * The running terminal UI ([internal/cli/tui/ipc_commands.go], [ipc_client.go])

    Each command of [ipc_commands.go] as the message it produces from what the
    client answers, each method of the client as the request it makes of the
    daemon, and the Bubble Tea program around [Tui.Update]: commands run side by
    side, each delivers one message, and [Update] starts further commands. A run
    is a sequence of steps, each a key press or the answer to a pending command,
    in any order. *)
From S2P Require Import Prelude GoStrings.
From S2P Require IpcServer IpcInvites.
From S2P Require Import CallSession IpcMethods IpcCalls TuiPanes Tui.
#[local] Open Scope string_scope.
#[local] Open Scope list_scope.

(** ** The commands *)

(** What the client's methods answer at one time. A method that opens a
    subscription answers an error or a new [Subscription], whose name the
    program chooses; [cl_receive] is a receive from a subscription's channel,
    [None] when it is closed. *)
Record Client := mkClient {
  cl_FriendsList : result string (list FriendsListEntry);
  cl_FriendsAdd : string -> string -> result string FriendsListEntry;
  cl_FriendsRename : string -> string -> option string;
  cl_FriendsRemove : string -> option string;
  cl_CallsList : result string (list CallsListEntry);
  cl_DaemonStatus : result string DaemonStatusResult;
  cl_InviteCreate : string -> result string IpcInvites.InviteCreateResult;
  cl_InviteRedeem : string -> result string FriendsListEntry;
  cl_CallsStartSubscribe : string -> option string;
  cl_CallsAction : string -> string -> string -> option string;
  cl_SubscribePresence : option string;
  cl_SubscribeCalls : option string;
  cl_SubscribeInviteRedemption : string -> option string;
  cl_receive : Sub -> option bytes }.

Definition from_result {A} (source : string) (r : result string A) (f : A -> Msg) : Msg :=
  match r with Ok a => f a | Err e => errMsg source e end.
Definition from_error (source : string) (e : option string) (msg : Msg) : Msg :=
  match e with Some e => errMsg source e | None => msg end.

Definition loadFriendsCmd (c : Client) : Msg := from_result "friends.list" (cl_FriendsList c) friendsLoadedMsg.
Definition loadDaemonStatusCmd (c : Client) : Msg := from_result "daemon.status" (cl_DaemonStatus c) daemonStatusMsg.
Definition tickDaemonStatusCmd (c : Client) : Msg := from_result "daemon.status" (cl_DaemonStatus c) daemonStatusMsg.
Definition tickCallsListCmd (c : Client) : Msg := from_result "calls.list" (cl_CallsList c) callsListMsg.
Definition createInviteCmd (c : Client) (ttl : string) : Msg :=
  from_result "invite.create" (cl_InviteCreate c ttl) inviteCreatedMsg.
Definition redeemInviteCmd (c : Client) (code : string) : Msg :=
  from_result "invite.redeem" (cl_InviteRedeem c code) inviteRedeemDoneMsg.
Definition startCallCmd (c : Client) (sub : Sub) (target : string) : Msg :=
  from_error "calls.start" (cl_CallsStartSubscribe c target) (callStartedMsg sub).
Definition callActionCmd (c : Client) (id action reason : string) : Msg :=
  from_error "calls.action" (cl_CallsAction c id action reason) (callActionDoneMsg id action).
Definition subscribeCallsCmd (c : Client) (sub : Sub) : Msg :=
  from_error "calls.subscribe" (cl_SubscribeCalls c) (callsSubMsg sub).
Definition subscribeInviteRedemptionCmd (c : Client) (sub : Sub) (code : string) : Msg :=
  from_error "invite.subscribe_redemption" (cl_SubscribeInviteRedemption c code) (inviteRedemptionSubMsg sub code).
Definition waitForSubEventCmd (c : Client) (sub : Sub) (label : string) : Msg :=
  match cl_receive c sub with Some data => subEventMsg label data | None => subClosedMsg label end.

(** Commands no message leads to. *)
Definition loadCallsCmd (c : Client) : Msg := from_result "calls.list" (cl_CallsList c) callsListMsg.
Definition addFriendCmd (c : Client) (keyPath name : string) : Msg :=
  from_result "friends.add" (cl_FriendsAdd c keyPath name) friendAddedMsg.
Definition renameFriendCmd (c : Client) (name newName : string) : Msg :=
  from_error "friends.rename" (cl_FriendsRename c name newName) (friendRenamedMsg name newName).
Definition removeFriendCmd (c : Client) (name : string) : Msg :=
  from_error "friends.remove" (cl_FriendsRemove c name) (friendRemovedMsg name).
Definition subscribePresenceCmd (c : Client) (sub : Sub) : Msg :=
  from_error "friends.subscribe_presence" (cl_SubscribePresence c) (presenceSubMsg sub).

(** The message a command produces; [sub] names the subscription it may open. *)
Definition reply (c : Client) (sub : Sub) (cmd : Cmd) : option Msg :=
  match cmd with
  | CloadFriends => Some (loadFriendsCmd c)
  | CsubscribeCalls => Some (subscribeCallsCmd c sub)
  | CloadDaemonStatus => Some (loadDaemonStatusCmd c)
  | CtickDaemonStatus => Some (tickDaemonStatusCmd c)
  | CtickCallsList => Some (tickCallsListCmd c)
  | CstartCall target => Some (startCallCmd c sub target)
  | CcallAction id action reason => Some (callActionCmd c id action reason)
  | CcreateInvite ttl => Some (createInviteCmd c ttl)
  | CredeemInvite code => Some (redeemInviteCmd c code)
  | CsubscribeInviteRedemption code => Some (subscribeInviteRedemptionCmd c sub code)
  | CwaitForSubEvent s label => Some (waitForSubEventCmd c s label)
  | CQuit | CSequence _ _ => None
  end.

(** ** The program *)

Record Prog := mkProg {
  p_model : Model;
  p_cmds : list Cmd;                 (* pending *)
  p_next : Sub;                      (* the next subscription's name *)
  p_read : list (Sub * string);      (* the events read: subscription and label *)
  p_done : bool }.

(** [tea.Sequence]: the first command, and what follows its message. *)
Fixpoint next_of (c : Cmd) : Cmd * list Cmd :=
  match c with
  | CSequence a b =>
      let '(h, rest) := next_of a in
      (h, [match rest with [] => b | r :: _ => CSequence r b end])
  | _ => (c, [])
  end.

Section program.
Context (unicode_upper unicode_lower : string -> string) (ID_String : string -> string) (qr : string -> option string).
Context (read_change : bytes -> option StateChange) (read_redemption : bytes -> option string).

#[local] Notation Update := (Tui.Update unicode_upper unicode_lower ID_String qr read_change read_redemption).

Definition start (configPath editor : string) : Prog := mkProg (NewModel configPath editor) Init 0 [] false.

(** A message for [Update]. *)
Definition deliver (w : Surroundings) (msg : Msg) (p : Prog) : Prog :=
  let '(m, cs, _) := Update w msg (p_model p) in
  mkProg m (p_cmds p ++ cs) (p_next p) (p_read p) (p_done p).

(** Pending command [i] completes. *)
Definition complete (w : Surroundings) (c : Client) (i : nat) (p : Prog) : option Prog :=
  match p_cmds p !! i with
  | None => None
  | Some cmd =>
      let '(h, rest) := next_of cmd in
      let left := take i (p_cmds p) ++ rest ++ drop (S i) (p_cmds p) in
      match reply c (p_next p) h with
      | None => Some (mkProg (p_model p) left (p_next p) (p_read p) true)
      | Some msg =>
          let read := match h, msg with CwaitForSubEvent s l, subEventMsg _ _ => [(s, l)] | _, _ => [] end in
          Some (deliver w msg (mkProg (p_model p) left (S (p_next p)) (p_read p ++ read) (p_done p)))
      end
  end.

(** What the terminal itself sends. *)
Definition input (msg : Msg) : bool := match msg with MKey _ | WindowSizeMsg _ _ => true | _ => false end.

Inductive step : Prog -> Prog -> Prop :=
| step_input w msg p : p_done p = false -> input msg = true -> step p (deliver w msg p)
| step_complete w c i p p' : p_done p = false -> complete w c i p = Some p' -> step p p'.

Definition reachable (configPath editor : string) (p : Prog) : Prop := rtc step (start configPath editor) p.

(** ** One step *)

(** The pending commands, those of a sequence included. *)
Fixpoint atoms (c : Cmd) : list Cmd :=
  match c with
  | CSequence a b => atoms a ++ atoms b
  | _ => [c]
  end.
Definition pending (cs : list Cmd) : list Cmd := cs ≫= atoms.
Definition emitted (w : Surroundings) (msg : Msg) (m : Model) : list Cmd := pending (snd (fst (Update w msg m))).

Lemma pending_app cs cs' : pending (cs ++ cs') = pending cs ++ pending cs'.
Proof. apply bind_app. Qed.

Lemma pending_cons c cs : pending (c :: cs) = atoms c ++ pending cs.
Proof. done. Qed.

Lemma next_of_atoms c : atoms c = fst (next_of c) :: pending (snd (next_of c)).
Proof.
  induction c as [| | | | | | | | | | | |a IHa b _]; try done. cbn [atoms next_of]. rewrite IHa.
  destruct (next_of a) as [h [|r rest]] eqn:E; cbn; rewrite ?app_nil_r; [done|].
  assert (rest = []) as ->.
  { clear -E. destruct a; simplify_eq/=. destruct (next_of a1). by simplify_eq/=. }
  by rewrite app_nil_r.
Qed.

(** What a step does to the program: input is delivered, a pending command
    ends the program, or it is answered and its message delivered. *)
Definition stepped (p p' : Prog) (left : list Cmd) (opened : nat) (read : list (Sub * string))
    (w : Surroundings) (msg : Msg) : Prop :=
  pending (p_cmds p') = left ++ emitted w msg (p_model p) /\ p_model p' = fst (fst (Update w msg (p_model p)))
  /\ p_next p' = opened + p_next p /\ p_read p' = p_read p ++ read.

Inductive step_view (p p' : Prog) : Prop :=
| view_input w msg : input msg = true -> stepped p p' (pending (p_cmds p)) 0 [] w msg -> step_view p p'
| view_quit before after : pending (p_cmds p) = before ++ CQuit :: after ->
    pending (p_cmds p') = before ++ after -> p_model p' = p_model p -> p_next p' = p_next p ->
    p_read p' = p_read p -> step_view p p'
| view_reply before h after c w msg read : pending (p_cmds p) = before ++ h :: after ->
    reply c (p_next p) h = Some msg ->
    read = match h, msg with CwaitForSubEvent s l, subEventMsg _ _ => [(s, l)] | _, _ => [] end ->
    stepped p p' (before ++ after) 1 read w msg -> step_view p p'.

Lemma next_of_head c : match fst (next_of c) with CSequence _ _ => False | _ => True end.
Proof. induction c; try done. simpl. by destruct (next_of c1) as [h rest]. Qed.

Lemma step_viewed p p' : step p p' → step_view p p'.
Proof.
  intros [w msg p0 _ Hin | w c i p0 p1 _ Hc].
  - apply (view_input _ _ w msg Hin). unfold stepped, deliver, emitted.
    destruct (Update w msg (p_model p0)) as [[m cs] effs]; simpl. rewrite pending_app, app_nil_r. auto.
  - unfold complete in Hc. destruct (p_cmds p0 !! i) as [cmd|] eqn:Hi; [|done].
    pose proof (next_of_head cmd) as Hh. pose proof (next_of_atoms cmd) as Ha.
    destruct (next_of cmd) as [h rest]; simpl in *.
    pose proof (list.take_drop_middle _ _ _ Hi) as Hsplit.
    assert (Hp : pending (p_cmds p0) = pending (take i (p_cmds p0)) ++ h :: pending rest ++ pending (drop (S i) (p_cmds p0))).
    { rewrite <- Hsplit at 1. rewrite pending_app. f_equal. cbn. rewrite Ha. done. }
    destruct (reply c (p_next p0) h) as [msg|] eqn:Hr.
    + apply (view_reply _ _ _ h _ c w msg _ Hp Hr eq_refl). injection Hc as <-. unfold stepped, deliver, emitted. simpl.
      destruct (Update w msg (p_model p0)) as [[m cs] effs]; simpl. rewrite !pending_app, <- !app_assoc. auto.
    + injection Hc as <-. destruct h; try done.
      apply (view_quit _ _ _ _ Hp); simpl; auto. by rewrite !pending_app.
Qed.

(** ** What [Update] starts *)

Definition user_cmd (c : Cmd) : bool :=
  match c with CstartCall _ | CcallAction _ _ _ | CcreateInvite _ | CredeemInvite _ | CQuit => true | _ => false end.

Definition emits (msg : Msg) (cs : list Cmd) : Prop :=
  match msg with
  | MKey _ => Forall (fun c => user_cmd c = true) cs
  | callsSubMsg s => cs = [CwaitForSubEvent s "calls"]
  | callStartedMsg s => cs = [CwaitForSubEvent s "calls.start"]
  | inviteRedemptionSubMsg s code => cs = [CwaitForSubEvent s ("invite:" +:+ code)]
  | inviteCreatedMsg r => cs = [] \/ cs = [CsubscribeInviteRedemption (IpcInvites.ic_Code r)]
  | subEventMsg _ _ | callsListMsg _ => cs = [] \/ cs = [CtickCallsList]
  | daemonStatusMsg _ => cs = [CtickDaemonStatus]
  | errMsg source _ => cs = if decide (source = "daemon.status") then [CtickDaemonStatus] else []
  | _ => cs = []
  end.

Lemma key_emits w k m : emits (MKey k) (emitted w (MKey k) m).
Proof.
  unfold emitted. cbn [emits Update]. destruct (m_modal m) as [x|] eqn:Ex.
  - rewrite (modal_key_cmds _ _ _ w k m x Ex). destruct x; simpl; key_cases; repeat constructor.
  - assert (Hd : Forall (λ c, user_cmd c = true) (pending (snd (fst (dock_key unicode_upper unicode_lower ID_String w k m))))).
    { unfold dock_key, global_key. key_cases; repeat constructor. }
    unfold key_Update. rewrite Ex. destruct (m_filtering m); [|done].
    unfold filter_key. destruct (k_Type k); simpl; first [done | repeat constructor].
Qed.

Lemma Update_emits w msg m : emits msg (emitted w msg m).
Proof.
  destruct msg; [done | apply key_emits | unfold emitted; cbn; try done ..].
  - destruct (m_modal m) as [[]|]; cbn; auto.
  - destruct (decide _).
    + destruct (read_change data); cbn; [destruct (_ && _)|]; cbn; auto.
    + destruct (HasPrefix label "invite:"); [|by left]. destruct (m_modal m) as [[]|], (read_redemption data); by left.
  - destruct (Active _); cbn; auto.
  - by destruct (decide _).
Qed.

(** ** Reading a subscription *)

Definition wait_of (c : Cmd) : option (Sub * string) :=
  match c with CwaitForSubEvent s l => Some (s, l) | _ => None end.
Definition waits (cs : list Cmd) : list (Sub * string) := omap wait_of cs.
Definition is_subcalls (c : Cmd) : bool := match c with CsubscribeCalls => true | _ => false end.
Definition count (f : Cmd -> bool) (cs : list Cmd) : nat := length (filter (fun c => f c = true) cs).

Lemma count_app f cs cs' : count f (cs ++ cs') = count f cs + count f cs'.
Proof. unfold count. by rewrite filter_app, length_app. Qed.
Lemma count_cons f c cs : count f (c :: cs) = (if f c then 1 else 0) + count f cs.
Proof. unfold count. rewrite filter_cons. destruct (f c); by rewrite ?decide_True, ?decide_False by done. Qed.
Lemma count_user f cs :
  (forall c, user_cmd c = true -> f c = false) -> Forall (fun c => user_cmd c = true) cs -> count f cs = 0.
Proof. intros Hf. induction 1 as [|c cs Hc _ IH]; [done|]. by rewrite count_cons, (Hf c Hc), IH. Qed.

(** The subscription a message hands over, with the label of its events. *)
Definition opens (msg : Msg) : list (Sub * string) :=
  match msg with
  | callsSubMsg s => [(s, "calls")]
  | callStartedMsg s => [(s, "calls.start")]
  | inviteRedemptionSubMsg s code => [(s, "invite:" +:+ code)]
  | _ => []
  end.

Lemma waits_user cs : Forall (fun c => user_cmd c = true) cs -> waits cs = [].
Proof. induction 1 as [|c cs Hc _ IH]; [done|]. by destruct c. Qed.

Lemma waits_emitted w msg m : waits (emitted w msg m) = opens msg.
Proof.
  pose proof (Update_emits w msg m) as He. destruct msg; cbn [emits] in He; try (by rewrite He); try (by destruct He as [-> | ->]).
  - by apply waits_user.
  - rewrite He. by destruct (decide _).
Qed.

Ltac reply_cases c :=
  unfold loadFriendsCmd, loadDaemonStatusCmd, tickDaemonStatusCmd, tickCallsListCmd, createInviteCmd, redeemInviteCmd,
    startCallCmd, callActionCmd, subscribeCallsCmd, subscribeInviteRedemptionCmd, waitForSubEventCmd, from_result, from_error;
  repeat match goal with
         | |- context [match ?x with _ => _ end] =>
             match x with context [c] => destruct x end
         end.

(** A reply hands over a fresh subscription, if any. *)
Lemma reply_opens c n h msg :
  reply c n h = Some msg -> opens msg = [] \/ exists l, opens msg = [(n, l)] /\ (l = "calls" <-> is_subcalls h = true).
Proof. destruct h; simpl; intros [= <-]; reply_cases c; simpl; auto; right; eexists; split; done. Qed.

Lemma input_opens msg : input msg = true -> opens msg = [].
Proof. by destruct msg. Qed.

(** The subscriptions read or being waited on. *)
Definition track (p : Prog) : list (Sub * string) := p_read p ++ waits (pending (p_cmds p)).
Definition calls_label (x : Sub * string) : Prop := snd x = "calls".
#[local] Instance calls_label_dec x : Decision (calls_label x) := decide (snd x = "calls").

Lemma waits_app cs cs' : waits (cs ++ cs') = waits cs ++ waits cs'.
Proof. apply omap_app. Qed.

(** A step opens at most one subscription, a fresh one. *)
Lemma step_track p p' :
  step p p' -> exists lost new, lost ++ track p' ≡ₚ track p ++ new
    /\ (new = [] /\ p_next p <= p_next p' \/ exists l, new = [(p_next p, l)] /\ p_next p < p_next p')
    /\ length (filter calls_label new) + count is_subcalls (pending (p_cmds p')) <= count is_subcalls (pending (p_cmds p)).
Proof.
  assert (Hkeep : forall w msg m, count is_subcalls (emitted w msg m) = 0).
  { intros w msg m. pose proof (Update_emits w msg m) as He.
    destruct msg; cbn [emits] in He; try (by rewrite He); try (by destruct He as [-> | ->]).
    - by apply count_user; [intros []|].
    - rewrite He. by destruct (decide _). }
  intros [w msg Hin (Hp & _ & Hn & Hr) | bf af Hb Ha _ Hn Hr | bf h af c w msg read Hb Hrep Hread (Hp & _ & Hn & Hr)]%step_viewed;
    unfold track.
  - exists [], []. rewrite Hp, Hn, Hr, !app_nil_r, waits_app, waits_emitted, (input_opens msg Hin), app_nil_r.
    split_and!; [done | left; split; [done|lia] | rewrite count_app, Hkeep; simpl; lia].
  - exists [], []. rewrite Hb, Ha, Hn, Hr, !waits_app, app_nil_r. simpl.
    split_and!; [done | left; split; [done|lia] |]. rewrite !count_app, count_cons. simpl. lia.
  - exists (if decide (read = []) then waits [h] else []), (opens msg).
    rewrite Hb, Hp, Hn, Hr, !waits_app, waits_emitted, !count_app, count_cons, Hkeep.
    split_and!.
    + assert (Hh : waits (h :: af) = waits [h] ++ waits af) by (by rewrite <- waits_app). rewrite Hh.
      destruct (decide (read = [])) as [->|Hne]; [|assert (read = waits [h]) as -> by (subst read; by destruct h, msg)]; solve_Permutation.
    + destruct (reply_opens _ _ _ _ Hrep) as [->|(l & -> & _)]; [left; split; [done|lia] | right; exists l; split; [done|lia]].
    + destruct (reply_opens _ _ _ _ Hrep) as [->|(l & -> & Hl)]; [simpl; lia|].
      rewrite filter_cons. destruct (decide (calls_label (p_next p, l))) as [E|E]; simpl.
      * apply Hl in E as ->. lia.
      * lia.
Qed.

Definition subs_inv (p : Prog) : Prop :=
  NoDup (fst <$> track p) /\ Forall (fun x => fst x < p_next p) (track p)
  /\ length (filter calls_label (track p)) + count is_subcalls (pending (p_cmds p)) <= 1.

Lemma step_subs_inv p p' : step p p' -> subs_inv p -> subs_inv p'.
Proof.
  intros (lost & new & Hperm & Hnew & Hcnt)%step_track (Hnd & Hlt & Hone).
  assert (Hlt' : Forall (λ x, fst x < p_next p') (track p ++ new) ∧ NoDup (fst <$> (track p ++ new))).
  { destruct Hnew as [[-> Hn]|(l & -> & Hn)].
    - rewrite app_nil_r. split; [|done]. eapply Forall_impl; [done|]. simpl. lia.
    - split.
      + apply Forall_app. split; [|by repeat constructor]. eapply Forall_impl; [done|]. simpl. lia.
      + rewrite fmap_app. apply NoDup_app. split_and!; [done | | apply NoDup_singleton].
        intros s Hs ->%list_elem_of_singleton. apply list_elem_of_fmap in Hs as ([s l'] & Hs & Hin).
        rewrite Forall_forall in Hlt. specialize (Hlt _ Hin). simpl in *. lia. }
  destruct Hlt' as [Hlt' Hnd']. unfold subs_inv. split_and!.
  - rewrite <- Hperm, fmap_app in Hnd'. by apply NoDup_app in Hnd' as (_ & _ & ?).
  - rewrite <- Hperm in Hlt'. by apply Forall_app in Hlt' as [_ ?].
  - assert (Hlen : length (filter calls_label (lost ++ track p')) = length (filter calls_label (track p ++ new)))
      by (by rewrite Hperm).
    rewrite !filter_app, !length_app in Hlen. lia.
Qed.

Lemma reachable_subs_inv cfg editor p : reachable cfg editor p -> subs_inv p.
Proof.
  intros Hr. unfold reachable in Hr. remember (start cfg editor) as p0 eqn:E.
  assert (H0 : subs_inv p0) by (subst; split_and!; vm_compute; repeat constructor).
  clear E. induction Hr as [p|p q r Hstep _ IH]; [done|]. by apply IH, (step_subs_inv p).
Qed.

(** The running terminal UI reads one event of each subscription at most.
    In no run is a second event of a subscription ever read or waited for, and
    the daemon's call events are subscribed to once, so all but the first are
    never seen: not a second incoming call, nor the end of the first. *)
Theorem subscription_read_once cfg editor p :
  reachable cfg editor p ->
  NoDup (fst <$> p_read p)
  /\ (forall s l l', (s, l) ∈ p_read p -> CwaitForSubEvent s l' ∉ pending (p_cmds p))
  /\ length (filter calls_label (p_read p)) <= 1
  /\ (forall w c i p' s l, (s, l) ∈ p_read p -> complete w c i p = Some p' ->
      filter (fun x => fst x = s) (p_read p') = filter (fun x => fst x = s) (p_read p)).
Proof.
  intros Hr. pose proof (reachable_subs_inv _ _ _ Hr) as (Hnd & _ & Hone).
  unfold track in *. rewrite fmap_app in Hnd. apply NoDup_app in Hnd as (Hnd & Hdisj & _).
  assert (Hno : forall s l l', (s, l) ∈ p_read p -> CwaitForSubEvent s l' ∉ pending (p_cmds p)).
  { intros s l l' Hin Hw. apply (Hdisj s); apply list_elem_of_fmap; [by exists (s, l)|].
    exists (s, l'). split; [done|]. apply list_elem_of_omap. eauto. }
  split_and!; [done | done | rewrite filter_app, length_app in Hone; lia |].
  intros w c i p' s l Hin Hc. unfold complete in Hc. destruct (p_cmds p !! i) as [cmd|] eqn:Hi; [|done].
  pose proof (next_of_atoms cmd) as Ha. destruct (next_of cmd) as [h rest]. simpl in Ha.
  destruct (reply c (p_next p) h) as [msg|]; injection Hc as <-; [|done]. unfold deliver.
  destruct (Update w msg _) as [[m cs] effs]. simpl. rewrite filter_app.
  assert (Hh : h ∈ pending (p_cmds p)).
  { apply list_elem_of_bind. exists cmd. split; [rewrite Ha; by left | by eapply list_elem_of_lookup_2]. }
  destruct h; try by rewrite app_nil_r. destruct msg; try by rewrite app_nil_r.
  rewrite filter_cons_False; [by rewrite app_nil_r|]. simpl. intros ->. by apply (Hno s l label).
Qed.

(** ** Polling the daemon *)

Definition is_poll (c : Cmd) : bool := match c with CloadDaemonStatus | CtickDaemonStatus => true | _ => false end.
Definition is_tick (c : Cmd) : bool := match c with CtickCallsList => true | _ => false end.
Definition is_load (c : Cmd) : bool := match c with CloadFriends => true | _ => false end.

(** Whether a message answers a poll of the daemon's status. *)
Definition poll_answer (msg : Msg) : bool :=
  match msg with daemonStatusMsg _ => true | errMsg source _ => bool_decide (source = "daemon.status") | _ => false end.

Lemma emitted_polls w msg m : count is_poll (emitted w msg m) = if poll_answer msg then 1 else 0.
Proof.
  pose proof (Update_emits w msg m) as He.
  destruct msg; cbn [emits] in He; try (by rewrite He); try (by destruct He as [-> | ->]).
  - by apply count_user; [intros []|].
  - rewrite He. simpl. destruct (decide _); [by rewrite bool_decide_true | by rewrite bool_decide_false].
Qed.

Lemma reply_poll c n h msg : reply c n h = Some msg -> poll_answer msg = is_poll h.
Proof. destruct h; simpl; intros [= <-]; reply_cases c; done. Qed.

Lemma step_polls p p' : step p p' -> count is_poll (pending (p_cmds p')) = count is_poll (pending (p_cmds p)).
Proof.
  intros [w msg Hin (Hp & _) | bf af Hb Ha _ _ _ | bf h af c w msg read Hb Hrep _ (Hp & _)]%step_viewed.
  - rewrite Hp, count_app, emitted_polls. destruct msg; simpl in *; done || lia.
  - by rewrite Hb, Ha, !count_app, count_cons.
  - rewrite Hp, Hb, !count_app, count_cons, emitted_polls, (reply_poll _ _ _ _ Hrep). destruct (is_poll h); lia.
Qed.

(** The footer never stops tracking the daemon: in every reachable state of
    the program, whatever answers or errors came back, exactly two polls of the
    daemon's status are pending, so neither do they die out on an error nor
    multiply with other traffic. *)
Theorem status_polls_persist cfg editor p :
  reachable cfg editor p -> count is_poll (pending (p_cmds p)) = 2.
Proof.
  intros Hr. unfold reachable in Hr. remember (start cfg editor) as p0 eqn:E.
  assert (H0 : count is_poll (pending (p_cmds p0)) = 2) by by subst.
  clear E. induction Hr as [p|p q r Hstep _ IH]; [done|]. apply IH. by rewrite (step_polls p).
Qed.

(** ** The list of friends *)

Lemma emitted_loads w msg m : count is_load (emitted w msg m) = 0.
Proof.
  pose proof (Update_emits w msg m) as He.
  destruct msg; cbn [emits] in He; try (by rewrite He); try (by destruct He as [-> | ->]).
  - by apply count_user; [intros []|].
  - rewrite He. by destruct (decide _).
Qed.

Lemma sync_friends p m : fp_friends (m_friends (sync_pane unicode_lower p m)) = fp_friends p.
Proof.
  unfold sync_pane, Selected. by destruct (decide _).
Qed.

Lemma Selected_friends p : fp_friends (fst (Selected unicode_lower p)) = fp_friends p.
Proof. unfold Selected. by destruct (decide _). Qed.

Definition is_loaded (msg : Msg) : bool := match msg with friendsLoadedMsg _ => true | _ => false end.

Lemma reply_loaded c n h msg : reply c n h = Some msg -> is_load h = false -> is_loaded msg = false.
Proof. destruct h; simpl; intros [= <-]; reply_cases c; done. Qed.

Lemma dock_key_friends w k m :
  fp_friends (m_friends (fst (fst (dock_key unicode_upper unicode_lower ID_String w k m)))) = fp_friends (m_friends m).
Proof.
  unfold dock_key, global_key. pose proof (Selected_friends (m_friends m)) as Hs.
  key_cases; rewrite ?sync_friends; done.
Qed.

Lemma Update_friends w msg m :
  is_loaded msg = false -> fp_friends (m_friends (fst (fst (Update w msg m)))) = fp_friends (m_friends m).
Proof.
  destruct msg; intros Hl; try done; simpl.
  - unfold key_Update. destruct (m_modal m) as [x|]; [by destruct (modal_Update k x) as [[prev []] effs]|].
    destruct (m_filtering m); [|apply dock_key_friends]. unfold filter_key, set_filter_text.
    destruct (k_Type k); simpl; rewrite ?sync_friends; simpl; auto using dock_key_friends.
    by destruct (decide _); simpl; rewrite ?sync_friends.
  - by destruct (Active _).
  - by destruct (m_modal m) as [[]|].
  - destruct (decide _).
    + destruct (read_change data) as [sc|]; [|done]. simpl.
      by destruct (applyCallStateChange_frame ID_String sc m) as (-> & _).
    + destruct (HasPrefix label "invite:"); [|done]. by destruct (m_modal m) as [[]|], (read_redemption data).
  - by destruct (apply_levels_frame m calls) as (-> & _).
  - by destruct (decide _).
  - by destruct (decide _).
Qed.

Lemma step_loads p p' :
  step p p' -> count is_load (pending (p_cmds p')) <= count is_load (pending (p_cmds p))
    /\ (count is_load (pending (p_cmds p)) = 0 -> fp_friends (m_friends (p_model p')) = fp_friends (m_friends (p_model p))).
Proof.
  intros [w msg Hin (Hp & Hm & _) | bf af Hb Ha Hm _ _ | bf h af c w msg read Hb Hrep _ (Hp & Hm & _)]%step_viewed.
  - rewrite Hp, Hm, count_app, emitted_loads. split; [lia|]. intros _. apply Update_friends. by destruct msg.
  - rewrite Hb, Ha, !count_app, count_cons, Hm. simpl. split; [lia|done].
  - rewrite Hp, Hb, Hm, !count_app, count_cons, emitted_loads. split; [lia|]. intros Hz. apply Update_friends.
    apply (reply_loaded _ _ _ _ Hrep). destruct (is_load h); [lia | done].
Qed.

(** The sidebar is loaded once: at most one request for the list of friends
    is ever pending, and when it has been answered the list never changes again,
    whatever invites are redeemed, friends added or presence events come in. *)
Theorem sidebar_loaded_once cfg editor p p' :
  reachable cfg editor p -> rtc step p p' ->
  count is_load (pending (p_cmds p)) <= 1
  /\ (count is_load (pending (p_cmds p)) = 0 -> fp_friends (m_friends (p_model p')) = fp_friends (m_friends (p_model p))).
Proof.
  intros Hr Hpp. split.
  - unfold reachable in Hr. remember (start cfg editor) as p0 eqn:E.
    assert (H0 : count is_load (pending (p_cmds p0)) <= 1) by (by subst).
    clear E Hpp. induction Hr as [p|p q r Hstep _ IH]; [done|]. apply IH. apply step_loads in Hstep. lia.
  - clear Hr. induction Hpp as [p|p q r Hstep _ IH]; [done|]. intros H0. apply step_loads in Hstep as [Hle Heq].
    rewrite <- (Heq H0). apply IH. lia.
Qed.

(** ** Audio levels of a call *)

(** The fields of the dock that only the calls list fills in. *)
Definition levels (m : Model) : string * Z * Z * bool :=
  (d_Mode (m_dock m), d_RxDB (m_dock m), d_TxDB (m_dock m), d_Muted (m_dock m)).

Definition active_step (p p' : Prog) : Prop := step p p' /\ Active (m_dock (p_model p')) = true.

Lemma active_ticks w msg m :
  Active (m_dock m) = true -> (forall l, msg <> callsListMsg l) -> count is_tick (emitted w msg m) = 0.
Proof.
  intros HA Hmsg. pose proof (Update_emits w msg m) as He.
  destruct msg; cbn [emits] in He; try (by rewrite He); try (by destruct He as [-> | ->]).
  - by apply count_user; [intros []|].
  - unfold emitted. cbn [Update]. destruct (decide _).
    + destruct (read_change data); [|done]. by rewrite HA.
    + destruct (HasPrefix label "invite:"); [|done]. by destruct (m_modal m) as [[]|], (read_redemption data).
  - by destruct (Hmsg calls).
  - rewrite He. by destruct (decide _).
Qed.

Lemma key_levels w k m :
  Active (m_dock (fst (fst (key_Update unicode_upper unicode_lower ID_String w k m)))) = true ->
  m_dock (fst (fst (key_Update unicode_upper unicode_lower ID_String w k m))) = m_dock m.
Proof.
  assert (Hsync : forall p m0, m_dock (sync_pane unicode_lower p m0) = m_dock m0)
    by (intros; unfold sync_pane; by destruct (Selected _ _)).
  assert (Hd : Active (m_dock (fst (fst (dock_key unicode_upper unicode_lower ID_String w k m)))) = true ->
               m_dock (fst (fst (dock_key unicode_upper unicode_lower ID_String w k m))) = m_dock m).
  { unfold dock_key, global_key. key_cases; rewrite ?Hsync; try done. }
  unfold key_Update. destruct (m_modal m) as [x|]; [by destruct (modal_Update k x) as [[prev []] effs]|].
  destruct (m_filtering m); [|done]. unfold filter_key, set_filter_text.
  destruct (k_Type k); simpl; auto; [by rewrite Hsync | by rewrite Hsync | destruct (decide _); simpl; by rewrite ?Hsync | by rewrite Hsync].
Qed.

Lemma Update_levels w msg m :
  Active (m_dock m) = true -> (forall l, msg <> callsListMsg l) ->
  Active (m_dock (fst (fst (Update w msg m)))) = true -> levels (fst (fst (Update w msg m))) = levels m.
Proof.
  intros HA Hmsg HA'. destruct msg; simpl in *; try done.
  - unfold levels. by rewrite (key_levels _ _ _ HA').
  - unfold sync_pane. by destruct (Selected _ _).
  - by rewrite HA.
  - by destruct (m_modal m) as [[]|].
  - destruct (decide _).
    + destruct (read_change data) as [sc|]; [|done]. simpl. unfold applyCallStateChange, levels.
      repeat match goal with |- context [decide ?P] => destruct (decide P) end; done.
    + destruct (HasPrefix label "invite:"); [|done]. by destruct (m_modal m) as [[]|], (read_redemption data).
  - by destruct (Hmsg calls).
  - by destruct (decide _).
  - by destruct (decide _).
Qed.

Definition is_list (msg : Msg) : bool := match msg with callsListMsg _ => true | _ => false end.

Lemma reply_list c n h msg : reply c n h = Some msg -> is_tick h = false -> is_list msg = false.
Proof. destruct h; simpl; intros [= <-]; reply_cases c; done. Qed.

(** While a call is in the dock and no refresh is pending, none starts. *)
Lemma active_step_ticks p p' :
  active_step p p' -> Active (m_dock (p_model p)) = true -> count is_tick (pending (p_cmds p)) = 0 ->
  count is_tick (pending (p_cmds p')) = 0 /\ levels (p_model p') = levels (p_model p).
Proof.
  intros [Hstep HA'] HA H0. revert HA'.
  destruct (step_viewed _ _ Hstep) as [w msg Hin (Hp & Hm & _) | bf af Hb Ha Hm _ _ | bf h af c w msg read Hb Hrep _ (Hp & Hm & _)].
  - assert (Hno : forall l, msg <> callsListMsg l) by (by intros l ->). intros HA'.
    rewrite Hp, Hm, count_app, (active_ticks w msg _ HA Hno) in *. split; [lia|]. by apply Update_levels.
  - rewrite Hb, Ha, !count_app, count_cons, Hm in *. simpl in *. split; [lia|done].
  - rewrite Hb, count_app, count_cons in H0. destruct (is_tick h) eqn:Ht; [lia|].
    assert (Hno : forall l, msg <> callsListMsg l)
      by (intros l ->; pose proof (reply_list _ _ _ _ Hrep Ht); done).
    intros HA'. rewrite Hp, Hm, !count_app, (active_ticks w msg _ HA Hno) in *. split; [lia|]. by apply Update_levels.
Qed.

(** The audio levels and the mute flag of a call placed from the terminal UI
    never show. When the daemon has accepted the call the dock shows it at once,
    and from then on, as long as it stays there, no refresh of the calls list is
    ever pending and the dock's mode, levels and mute flag keep the values they
    started with, whatever happens. *)
Theorem outbound_call_never_polled w c i p p1 p2 target :
  p_cmds p !! i = Some (CstartCall target) -> cl_CallsStartSubscribe c target = None ->
  count is_tick (pending (p_cmds p)) = 0 -> Active (m_dock (p_model p)) = false ->
  complete w c i p = Some p1 -> rtc active_step p1 p2 ->
  Active (m_dock (p_model p1)) = true /\ d_State (m_dock (p_model p1)) = "calling"
  /\ count is_tick (pending (p_cmds p2)) = 0 /\ levels (p_model p2) = ("", 0%Z, 0%Z, false).
Proof.
  intros Hi Hc H0 HA Hcomp Hsteps.
  assert (Hp1 : d_State (m_dock (p_model p1)) = "calling" /\ count is_tick (pending (p_cmds p1)) = 0
                /\ levels (p_model p1) = ("", 0%Z, 0%Z, false)).
  { unfold complete in Hcomp. rewrite Hi in Hcomp. cbn [next_of reply] in Hcomp.
    unfold startCallCmd, from_error in Hcomp. rewrite Hc in Hcomp. injection Hcomp as <-.
    unfold deliver. simpl. rewrite HA. simpl. split_and!; [done | | done].
    rewrite <- (list.take_drop_middle _ _ _ Hi) in H0.
    rewrite !pending_app, pending_cons, !count_app in H0. rewrite !pending_app, !count_app.
    change (count is_tick (atoms _)) with 0 in H0. change (count is_tick (pending [CwaitForSubEvent _ _])) with 0.
    change (pending []) with (@nil Cmd). change (count is_tick []) with 0. lia. }
  destruct Hp1 as (Hst & Ht & Hl).
  assert (HA1 : Active (m_dock (p_model p1)) = true) by (unfold Active; rewrite Hst; by apply bool_decide_eq_true).
  split_and!; [done | done | |]; clear Hcomp Hst; revert HA1 Ht Hl; induction Hsteps as [|a b d Hab _ IH]; try done;
    intros HA1 Ht Hl; destruct (active_step_ticks _ _ Hab HA1 Ht) as [Ht' Hl']; apply IH; try done; try apply Hab; congruence.
Qed.
End program.

(** ** Witnesses *)

Definition demo_client : Client := {|
  cl_FriendsList := Ok demo_entries;
  cl_FriendsAdd _ _ := Err "no";
  cl_FriendsRename _ _ := Some "no";
  cl_FriendsRemove _ := Some "no";
  cl_CallsList := Err "slow";
  cl_DaemonStatus := Err "down";
  cl_InviteCreate _ := Err "no";
  cl_InviteRedeem _ := Err "no";
  cl_CallsStartSubscribe _ := None;
  cl_CallsAction _ _ _ := None;
  cl_SubscribePresence := None;
  cl_SubscribeCalls := None;
  cl_SubscribeInviteRedemption _ := None;
  cl_receive _ := Some [1%Z] |}.

Notation demo_complete := (complete demo_lower demo_lower demo_lower demo_qr demo_read_change demo_read_redemption demo_w demo_client).
Notation demo_step := (step demo_lower demo_lower demo_lower demo_qr demo_read_change demo_read_redemption).
Notation demo_deliver := (deliver demo_lower demo_lower demo_lower demo_qr demo_read_change demo_read_redemption demo_w).

(** The pending commands numbered [todo], one after the other. *)
Fixpoint demo_completes (todo : list nat) (p : Prog) : Prog :=
  match todo with [] => p | i :: todo => demo_completes todo (default p (demo_complete i p)) end.

Fixpoint demo_ok (todo : list nat) (p : Prog) : Prop :=
  match todo with
  | [] => True
  | i :: todo => p_done p = false /\ is_Some (demo_complete i p) /\ demo_ok todo (default p (demo_complete i p))
  end.

Lemma demo_completes_steps todo p :
  demo_ok todo p -> rtc demo_step p (demo_completes todo p).
Proof.
  revert p. induction todo as [|i todo IH]; intros p; [reflexivity|]. intros (Hd & [p' Hp'] & Hok).
  apply (rtc_l _ _ p'); [by eapply step_complete|]. simpl. rewrite Hp' in *. by apply IH.
Qed.

(** The calls subscription opens and its first event, a ringing call, is read. *)
Definition demo_rung : Prog := demo_completes [1; 3] (start "cfg" "").

Lemma demo_rung_reachable :
  reachable demo_lower demo_lower demo_lower demo_qr demo_read_change demo_read_redemption "cfg" "" demo_rung.
Proof. apply demo_completes_steps. vm_compute. split_and!; eauto. Qed.

Lemma subscription_read_once_witness :
  p_read demo_rung = [(0, "calls")] /\ CwaitForSubEvent 0 "calls" ∉ pending (p_cmds demo_rung).
Proof.
  destruct (subscription_read_once demo_lower demo_lower demo_lower demo_qr demo_read_change demo_read_redemption
              "cfg" "" demo_rung demo_rung_reachable) as (_ & H & _).
  split; [reflexivity|]. apply (H 0 "calls" "calls"). by left.
Defined.

Lemma status_polls_persist_witness : count is_poll (pending (p_cmds demo_rung)) = 2.
Proof.
  apply (status_polls_persist demo_lower demo_lower demo_lower demo_qr demo_read_change demo_read_redemption "cfg" "").
  apply demo_rung_reachable.
Defined.

Definition demo_listed : Prog := demo_completes [0] demo_rung.

Lemma sidebar_loaded_once_witness :
  fp_friends (m_friends (p_model (demo_deliver (inviteRedeemDoneMsg (mkFriendsListEntry "eve" "pe" true None 3)) demo_listed)))
    = demo_entries
  /\ fp_friends (m_friends (p_model (demo_deliver (key "j") demo_listed))) = demo_entries.
Proof.
  split; [reflexivity|].
  destruct (sidebar_loaded_once demo_lower demo_lower demo_lower demo_qr demo_read_change demo_read_redemption
              "cfg" "" demo_listed (demo_deliver (key "j") demo_listed)) as [_ H].
  - unfold reachable. transitivity demo_rung; [apply demo_rung_reachable|]. apply demo_completes_steps. vm_compute. split_and!; eauto.
  - apply rtc_once. by apply step_input.
  - rewrite H; reflexivity.
Defined.

(** The user calls the friend on display; the daemon accepts. *)
Definition demo_calling : Prog := demo_deliver (key "enter") (demo_completes [0] (start "cfg" "")).

Lemma outbound_call_never_polled_witness :
  exists p1, demo_complete 3 demo_calling = Some p1 /\ d_State (m_dock (p_model p1)) = "calling"
    /\ count is_tick (pending (p_cmds (demo_deliver (key "j") p1))) = 0.
Proof.
  eexists. split; [reflexivity|].
  match goal with |- d_State (m_dock (p_model ?p1)) = _ /\ _ =>
    destruct (outbound_call_never_polled demo_lower demo_lower demo_lower demo_qr demo_read_change demo_read_redemption
                demo_w demo_client 3 demo_calling p1 (demo_deliver (key "j") p1) "ann") as (_ & H1 & H2 & _);
      [reflexivity | reflexivity | reflexivity | reflexivity | reflexivity | | by split]
  end.
  apply rtc_once. split; [by apply step_input | reflexivity].
Defined.
