(* ===== verification/TuiClient.v ===== *)
(** * The terminal UI's client ([internal/cli/tui/ipc_client.go]) and the
    daemon's methods ([internal/app/daemon.go])

    [realClient] turns each of the terminal UI's commands into a request of the
    daemon over [ipc.Client]; the daemon registers its methods once, before it
    serves. [realSubscription] is the adapter between [ipc.Subscription] and the
    channel the terminal UI reads: its goroutine, the reader, the client's read
    loop and [Close] interleave. *)
From S2P Require Import Prelude GoChan IpcServer.
From S2P Require IpcInvites.
From S2P Require Import IpcMethods IpcCalls.
From S2P Require Tui.
#[local] Open Scope string_scope.
#[local] Open Scope list_scope.

(** ** Requests *)

Inductive Params :=
| NoParams
| PFriendsAdd (p : FriendsAddParams)
| PFriendsRename (p : FriendsRenameParams)
| PFriendName (name : string)
| PInviteCreate (p : IpcInvites.InviteCreateParams)
| PInviteCode (p : IpcInvites.InviteCodeParams)
| PCallsStart (p : CallsStartParams)
| PCallsAction (p : CallsActionParams).

(** The methods of [realClient]: the method called and its parameters. *)
Definition FriendsList : string * Params := ("friends.list", NoParams).
Definition FriendsAdd (keyPath name : string) : string * Params :=
  ("friends.add", PFriendsAdd (mkFriendsAddParams keyPath name)).
Definition FriendsRename (name newName : string) : string * Params :=
  ("friends.rename", PFriendsRename (mkFriendsRenameParams name newName)).
Definition FriendsRemove (name : string) : string * Params := ("friends.remove", PFriendName name).
Definition InviteCreate (ttl : string) : string * Params :=
  ("invite.create", PInviteCreate (IpcInvites.mkInviteCreateParams ttl)).
Definition InviteRedeem (code : string) : string * Params :=
  ("invite.redeem", PInviteCode (IpcInvites.mkInviteCodeParams code)).
Definition CallsStartSubscribe (target : string) : string * Params :=
  ("calls.start", PCallsStart (mkCallsStartParams target)).
Definition CallsList : string * Params := ("calls.list", NoParams).
Definition CallsAction (id action reason : string) : string * Params :=
  ("calls.action", PCallsAction (mkCallsActionParams id action reason)).
Definition SubscribePresence : string * Params := ("friends.subscribe_presence", NoParams).
Definition SubscribeCalls : string * Params := ("calls.subscribe", NoParams).
Definition SubscribeInviteRedemption (code : string) : string * Params :=
  ("invite.subscribe_redemption", PInviteCode (IpcInvites.mkInviteCodeParams code)).
Definition DaemonStatus : string * Params := ("daemon.status", NoParams).

(** The request a command of the terminal UI makes. *)
Definition request_of (c : Tui.Cmd) : option (string * Params) :=
  match c with
  | Tui.CloadFriends => Some FriendsList
  | Tui.CsubscribeCalls => Some SubscribeCalls
  | Tui.CloadDaemonStatus | Tui.CtickDaemonStatus => Some DaemonStatus
  | Tui.CtickCallsList => Some CallsList
  | Tui.CstartCall target => Some (CallsStartSubscribe target)
  | Tui.CcallAction id action reason => Some (CallsAction id action reason)
  | Tui.CcreateInvite ttl => Some (InviteCreate ttl)
  | Tui.CredeemInvite code => Some (InviteRedeem code)
  | Tui.CsubscribeInviteRedemption code => Some (SubscribeInviteRedemption code)
  | Tui.CwaitForSubEvent _ _ | Tui.CQuit | Tui.CSequence _ _ => None
  end.

(** ** The daemon's methods *)

(** The names [Run] registers, in its order. *)
Definition daemon_methods : list string :=
  ["daemon.status"; "daemon.shutdown"; "version.check"; "identity.get";
   "friends.add"; "friends.list"; "friends.remove"; "friends.rename"; "friends.show"; "friends.subscribe_presence";
   "calls.start"; "calls.list"; "calls.attach"; "calls.action"; "calls.subscribe";
   "invite.create"; "invite.list"; "invite.revoke"; "invite.redeem"; "invite.subscribe_redemption";
   "daemon.status_summary"].

Section daemon.
Context {S : Type} (marshal_event : Event -> bytes).
(** The handler of each method. *)
Context (handler : string -> Handler S).

Definition daemon_server (version : string) : Server S :=
  foldl (fun s m => Register m (handler m) s) (NewServer version) daemon_methods.

Lemma register_all_lookup ms s m :
  m ∈ ms \/ handlers s !! m = Some (handler m) -> handlers (foldl (fun s m => Register m (handler m) s) s ms) !! m = Some (handler m).
Proof.
  revert s. induction ms as [|m' ms IH]; intros s Hm; simpl; [by destruct Hm as [?%elem_of_nil|]|].
  apply IH. destruct (decide (m' = m)) as [->|Hne]; [right; simpl; apply lookup_insert_eq|].
  destruct Hm as [[->|Hin]%elem_of_cons|Hm]; [done | by left | right; simpl; by rewrite lookup_insert_ne].
Qed.

(** Whatever the terminal UI asks of the daemon, the daemon knows: every
    request its commands make names a registered method, so it reaches that
    method's handler and is answered, under its own id, by what the handler
    returns and never by "method not found". *)
Theorem tui_requests_served version cmd method params raw id st :
  request_of cmd = Some (method, params) ->
  handle_line marshal_event (daemon_server version) (Some (request id method raw)) st =
    let '(st', o, evs) := handler method st raw in
    (st', (event_message marshal_event <$> evs) ++ [respond (Some id) o]).
Proof.
  intros Hr. unfold handle_line.
  assert (Hin : method ∈ daemon_methods /\ method <> "").
  { destruct cmd; try done; cbv in Hr; injection Hr as <- _; split; try done; apply (bool_decide_eq_true_1 (_ ∈ _)); reflexivity. }
  destruct Hin as [Hin Hne].
  assert (Hq : IsRequest (request id method raw) = true).
  { unfold IsRequest, request; simpl. rewrite !bool_decide_true; eauto. }
  rewrite Hq. cbn [negb andb]. change (Method (request id method raw)) with method.
  change (IpcServer.Params (request id method raw)) with raw.
  unfold daemon_server. rewrite register_all_lookup by by left. done.
Qed.
End daemon.

(** ** [realSubscription] *)

Record SubEvent := mkSubEvent { se_Method : string; se_Data : bytes }.

(** [forward]'s goroutine: waiting, holding an event it could not yet pass on,
    returned. *)
#[export] Instance SubEvent_eq_dec : EqDecision SubEvent.
Proof. solve_decision. Defined.
Inductive RsPC := RsLoop | RsHolding (ev : SubEvent) | RsReturned.
#[export] Instance RsPC_eq_dec : EqDecision RsPC.
Proof. solve_decision. Defined.

Record RealSub := mkRealSub {
  rs_inner : Chan Event;          (* the inner subscription's Events *)
  rs_ch : Chan SubEvent;
  rs_done : bool;                 (* rs.done is closed *)
  rs_pc : RsPC;
  rs_got : list SubEvent }.       (* received by the reader *)

Definition wrapSubscription (inner : Chan Event) : RealSub := mkRealSub inner (make_chan 16) false RsLoop [].

Definition translate (ev : Event) : SubEvent := mkSubEvent (Kind ev) (Data ev).

(** The return of [forward] closes the channel; [None] is a panic. *)
Definition rs_return (r : RealSub) : option RealSub :=
  ch ← close_chan (rs_ch r); Some (mkRealSub (rs_inner r) ch (rs_done r) RsReturned (rs_got r)).

(** The outer [select] on the inner channel. *)
Definition rs_take (r : RealSub) : option RealSub :=
  match rs_pc r with
  | RsLoop =>
      match recv (rs_inner r) with
      | RecvValue ev inner => Some (mkRealSub inner (rs_ch r) (rs_done r) (RsHolding (translate ev)) (rs_got r))
      | RecvClosed => rs_return r
      | RecvBlocks => Some r
      end
  | _ => Some r
  end.

(** Either [select] when [Close] was called. *)
Definition rs_quit (r : RealSub) : option RealSub :=
  match rs_pc r with
  | RsLoop | RsHolding _ => if rs_done r then rs_return r else Some r
  | RsReturned => Some r
  end.

(** The inner [select]: the send blocks on a full channel. *)
Definition rs_put (r : RealSub) : option RealSub :=
  match rs_pc r with
  | RsHolding ev =>
      if decide (length (ch_buf (rs_ch r)) < ch_cap (rs_ch r))
      then ch ← try_send (rs_ch r) ev; Some (mkRealSub (rs_inner r) ch (rs_done r) RsLoop (rs_got r))
      else Some r
  | _ => Some r
  end.

(** The reader of [Events]. *)
Definition rs_read (r : RealSub) : RealSub :=
  match recv (rs_ch r) with
  | RecvValue ev ch => mkRealSub (rs_inner r) ch (rs_done r) (rs_pc r) (rs_got r ++ [ev])
  | _ => r
  end.

(** [Close]: once; [inner.Close] closes the inner channel unless that has been
    done. *)
Definition rs_Close (r : RealSub) : RealSub :=
  if rs_done r then r
  else mkRealSub (mkChan (ch_cap (rs_inner r)) (ch_buf (rs_inner r)) true) (rs_ch r) true (rs_pc r) (rs_got r).

Inductive rsop := RsTake | RsQuit | RsPut | RsRead | RsClose.

Definition rs_do (o : rsop) (r : RealSub) : option RealSub :=
  match o with
  | RsTake => rs_take r
  | RsQuit => rs_quit r
  | RsPut => rs_put r
  | RsRead => Some (rs_read r)
  | RsClose => Some (rs_Close r)
  end.

(** A run, with the events the client's read loop stored in the inner channel. *)
Inductive rs_run (inner : Chan Event) : list Event -> RealSub -> Prop :=
| rr_start : ch_buf inner = [] -> rs_run inner [] (wrapSubscription inner)
| rr_op evs r o r' : rs_run inner evs r -> rs_do o r = Some r' -> rs_run inner evs r'
| rr_push evs r ev ch : rs_run inner evs r -> try_send (rs_inner r) ev = Some ch ->
    length (ch_buf (rs_inner r)) < ch_cap (rs_inner r) ->
    rs_run inner (evs ++ [ev]) (mkRealSub ch (rs_ch r) (rs_done r) (rs_pc r) (rs_got r))
| rr_close evs r : rs_run inner evs r -> ch_closed (rs_inner r) = false ->
    rs_run inner evs (mkRealSub (mkChan (ch_cap (rs_inner r)) (ch_buf (rs_inner r)) true) (rs_ch r) (rs_done r) (rs_pc r) (rs_got r)).

Definition held (r : RealSub) : list SubEvent := match rs_pc r with RsHolding ev => [ev] | _ => [] end.

Definition in_flight (r : RealSub) : list SubEvent := held r ++ (translate <$> ch_buf (rs_inner r)).

Record rs_inv (evs : list Event) (r : RealSub) : Prop := {
  ri_open : ch_closed (rs_ch r) = bool_decide (rs_pc r = RsReturned);
  ri_cap : ch_cap (rs_ch r) = 16;
  ri_inner : rs_done r = true -> ch_closed (rs_inner r) = true;
  ri_order : exists rest, translate <$> evs = rs_got r ++ ch_buf (rs_ch r) ++ rest
    /\ (rs_pc r <> RsReturned \/ rs_done r = false -> rest = in_flight r);
  ri_returned : rs_pc r = RsReturned -> rs_done r = false -> ch_closed (rs_inner r) = true /\ ch_buf (rs_inner r) = [] }.

(** [forward] returns: its channel is open until then. *)
Lemma rs_return_inv evs r :
  rs_inv evs r -> rs_pc r <> RsReturned ->
  (rs_done r = false -> ch_closed (rs_inner r) = true /\ in_flight r = []) ->
  exists r', rs_return r = Some r' /\ rs_inv evs r'.
Proof.
  intros [Ho Hc Hi (rest & Hord & Hrest) _] Hpc Hd. unfold rs_return, close_chan.
  rewrite Ho, bool_decide_false by done. simpl. eexists. split; [done|].
  split; simpl; [done | done | done | |].
  - exists rest. split; [done|]. intros [?|Hf]; [done|]. rewrite Hrest by auto. destruct (Hd Hf) as [_ Hn].
    rewrite Hn. unfold in_flight in *. simpl. apply app_nil in Hn as [_ Hn]. done.
  - intros _ Hf. destruct (Hd Hf) as [Hcl Hn]. split; [done|]. unfold in_flight in Hn.
    apply app_nil in Hn as [_ Hn]. by apply fmap_nil_inv in Hn.
Qed.

Lemma rs_take_inv evs r : rs_inv evs r -> exists r', rs_take r = Some r' /\ rs_inv evs r'.
Proof.
  intros Hinv. unfold rs_take. destruct (rs_pc r) eqn:Hpc; [|by exists r..].
  unfold recv. destruct (ch_buf (rs_inner r)) as [|ev buf] eqn:Hb.
  - destruct (ch_closed (rs_inner r)) eqn:Hcl; [|by exists r]. apply rs_return_inv; [done | congruence |].
    intros _. split; [done|]. unfold in_flight, held. by rewrite Hpc, Hb.
  - eexists. split; [done|]. destruct Hinv as [Ho Hc Hi (rest & Hord & Hrest) Hret].
    split; simpl; [by rewrite Ho, Hpc | done | done | | done].
    exists rest. split; [done|]. intros _. rewrite Hrest by (left; congruence).
    unfold in_flight, held; simpl. by rewrite Hpc, Hb.
Qed.

Lemma rs_put_inv evs r : rs_inv evs r -> exists r', rs_put r = Some r' /\ rs_inv evs r'.
Proof.
  intros Hinv. unfold rs_put. destruct (rs_pc r) as [|ev|] eqn:Hpc; [by exists r | |by exists r].
  destruct (decide _) as [Hlt|]; [|by exists r]. destruct Hinv as [Ho Hc Hi (rest & Hord & Hrest) Hret].
  unfold try_send. rewrite Ho, Hpc, bool_decide_false, decide_True by done. simpl. eexists. split; [done|].
  split; simpl; [done | done | done | | done].
  exists (translate <$> ch_buf (rs_inner r)). split; [|done]. rewrite Hord, Hrest by (left; congruence).
  unfold in_flight, held. rewrite Hpc, <- !app_assoc. done.
Qed.

Lemma rs_do_inv o evs r : rs_inv evs r -> exists r', rs_do o r = Some r' /\ rs_inv evs r'.
Proof.
  intros Hinv. destruct o; simpl; [by apply rs_take_inv | | by apply rs_put_inv | |].
  - unfold rs_quit. destruct (rs_done r) eqn:Hd.
    + destruct (rs_pc r) eqn:Hpc; [..|by exists r]; apply rs_return_inv; congruence.
    + exists r. by destruct (rs_pc r).
  - eexists. split; [done|]. unfold rs_read, recv. destruct (ch_buf (rs_ch r)) as [|ev buf] eqn:Hb; [by destruct (ch_closed _)|].
    destruct Hinv as [Ho Hc Hi (rest & Hord & Hrest) Hret]. split; simpl; try done.
    exists rest. split; [|done]. by rewrite Hord, Hb, <- !app_assoc.
  - eexists. split; [done|]. unfold rs_Close. destruct (rs_done r) eqn:Hd; [done|].
    destruct Hinv as [Ho Hc Hi (rest & Hord & Hrest) Hret]. split; simpl; try done.
    exists rest. split; [done|]. intros _. rewrite Hrest by auto. done.
Qed.

Lemma rs_run_inv inner evs r : rs_run inner evs r -> rs_inv evs r.
Proof.
  induction 1 as [Hb|evs r o r' _ IH Ho|evs r ev ch _ IH Ht Hlt|evs r _ IH Hcl].
  - split; simpl; try done. exists []. split; [done|]. unfold in_flight; simpl. by rewrite Hb.
  - destruct (rs_do_inv o evs r IH) as (r1 & Ho' & Hi). by simplify_eq.
  - destruct IH as [Ho Hc Hi (rest & Hord & Hrest) Hret]. unfold try_send in Ht.
    destruct (ch_closed (rs_inner r)) eqn:Hcl; [done|]. rewrite decide_True in Ht by done. injection Ht as <-.
    assert (Hd : rs_done r = false) by (destruct (rs_done r); [by discriminate Hi|done]).
    split; simpl; [done | done | congruence | |].
    + exists (in_flight r ++ [translate ev]). rewrite Hrest in Hord by auto.
      split; [by rewrite fmap_app, Hord, <- !app_assoc|]. intros _. unfold in_flight; simpl.
      by rewrite fmap_app, app_assoc.
    + intros Hpc _. by destruct (Hret Hpc Hd).
  - destruct IH as [Ho Hc Hi (rest & Hord & Hrest) Hret]. split; simpl; try done.
    + by exists rest.
    + intros Hpc Hd. by destruct (Hret Hpc Hd).
Qed.

(** The adapter between the daemon's events and the terminal UI: for every
    interleaving of its goroutine, the reader, the client's read loop and
    [Close], nothing panics (no send on or second close of a closed channel);
    the reader receives a prefix of the subscription's events in their order,
    with nothing dropped between the two channels; as long as [Close] was not
    called, the channel is only closed when every event has been passed on; and
    after [Close] the goroutine can always return, even when nobody reads. *)
Theorem adapter_forwards inner evs r :
  rs_run inner evs r ->
  (forall o, rs_do o r <> None)
  /\ (exists rest, translate <$> evs = rs_got r ++ ch_buf (rs_ch r) ++ rest
        /\ (rs_done r = false -> rest = in_flight r))
  /\ (ch_closed (rs_ch r) = true -> rs_done r = false -> translate <$> evs = rs_got r ++ ch_buf (rs_ch r))
  /\ (rs_done r = true -> exists r', rs_quit r = Some r' /\ rs_pc r' = RsReturned /\ ch_closed (rs_ch r') = true)
  /\ rs_Close (rs_Close r) = rs_Close r.
Proof.
  intros Hr. pose proof (rs_run_inv _ _ _ Hr) as Hinv. split_and!.
  - intros o. destruct (rs_do_inv o evs r Hinv) as (r' & -> & _). done.
  - destruct Hinv as [_ _ _ (rest & Hord & Hrest) _]. exists rest. auto.
  - destruct Hinv as [Ho _ _ (rest & Hord & Hrest) Hret]. intros Hcl Hd. rewrite Ho in Hcl.
    apply bool_decide_eq_true in Hcl. rewrite Hord, Hrest by auto. destruct (Hret Hcl Hd) as [_ Hn].
    unfold in_flight, held. by rewrite Hcl, Hn, !app_nil_r.
  - intros Hd. unfold rs_quit. rewrite Hd. destruct (rs_pc r) eqn:Hpc; cycle 2.
    + exists r. split_and!; [done..|]. rewrite (ri_open _ _ Hinv). by apply bool_decide_eq_true.
    + unfold rs_return, close_chan. rewrite (ri_open _ _ Hinv), Hpc. simpl. by eexists.
    + unfold rs_return, close_chan. rewrite (ri_open _ _ Hinv), Hpc, bool_decide_false by done. simpl. by eexists.
  - unfold rs_Close. by destruct (rs_done r) eqn:Hd; rewrite ?Hd.
Qed.

(** ** Witnesses *)

Definition demo_handler (m : string) : Handler nat := fun st raw => (S st, HResult (Ok [1%Z]), []).

Lemma tui_requests_served_witness :
  handle_line (fun _ => []) (daemon_server demo_handler "1") (Some (request 3 "calls.start" None)) 0 =
    (1, [respond (Some 3%Z) (HResult (Ok [1%Z]))]).
Proof.
  rewrite (tui_requests_served (fun _ => []) demo_handler "1" (Tui.CstartCall "bob") "calls.start"
             (PCallsStart (mkCallsStartParams "bob")) None 3%Z 0 eq_refl). reflexivity.
Defined.

Definition demo_event : Event := mkEvent "s-1" "call_state" [7%Z].

Lemma adapter_forwards_witness :
  exists r, rs_run (make_chan 16) [demo_event] r /\ rs_got r = [mkSubEvent "call_state" [7%Z]]
    /\ (forall o, rs_do o r <> None).
Proof.
  assert (Hrun : exists r, rs_run (make_chan 16) [demo_event] r /\ rs_got r = [mkSubEvent "call_state" [7%Z]]).
  { eexists. split.
    - eapply (rr_op _ _ _ RsRead); [eapply (rr_op _ _ _ RsPut); [eapply (rr_op _ _ _ RsTake)|]|].
      + apply (rr_push _ [] _ demo_event _ (rr_start (make_chan 16) eq_refl) eq_refl). simpl. lia.
      + reflexivity.
      + reflexivity.
      + reflexivity.
    - reflexivity. }
  destruct Hrun as (r & Hr & Hg). exists r. split; [done|]. split; [done|].
  destruct (adapter_forwards _ _ _ Hr) as [H _]. exact H.
Defined.
