(* ===== verification/P2p.v ===== *)
(** * The libp2p host ([internal/transport/p2p])

    What opencom adds to a libp2p host: the options it derives from its
    configuration, how it is built and closed, the addresses it shares, the relays it has a slot on, the
    notifiee that turns connections into presence, and the peer store's file.
    Multiaddresses and the peer ids in them are libraries: [components] lists a
    multiaddress's protocols with their values. *)
From S2P Require Import Prelude GoChan Iox.
From S2P Require Presence.
#[local] Open Scope string_scope.
#[local] Open Scope list_scope.

(** ** Multiaddresses *)

Class Multiaddrs := {
  Multiaddr : Type;
  NewMultiaddr : string -> option Multiaddr;
  MultiaddrString : Multiaddr -> string;
  components : Multiaddr -> list (string * string);   (* protocol, value *)
  IsPublicAddr : Multiaddr -> bool;
  PeerDecode : string -> option string;               (* [peer.Decode] *)
  AddrInfoFromP2pAddr : Multiaddr -> option (string * list Multiaddr) }.

Section addrs.
Context `{Multiaddrs}.

Definition AddrInfo : Type := string * list Multiaddr.

Definition isRelayCircuitAddr (a : Multiaddr) : bool := existsb (fun c => String.eqb (fst c) "p2p-circuit") (components a).

Definition InviteAddrs (all : list Multiaddr) : list Multiaddr := all.

Definition PublicAddrs (all : list Multiaddr) : list Multiaddr :=
  filter (fun a => IsPublicAddr a || isRelayCircuitAddr a = true) all.

Definition ListenAddrs (id : string) (all : list Multiaddr) : list string :=
  (fun a => MultiaddrString a +:+ "/p2p/" +:+ id) <$> all.

(** The walk of [relayIDFromCircuitAddr] with the last peer id seen. *)
Fixpoint relay_walk (lastPeer : string) (cs : list (string * string)) : option string :=
  match cs with
  | [] => None
  | (p, v) :: cs =>
      if String.eqb p "p2p" then relay_walk v cs
      else if String.eqb p "p2p-circuit" then (if String.eqb lastPeer "" then None else Some lastPeer)
      else relay_walk lastPeer cs
  end.

Definition relayIDFromCircuitAddr (a : Multiaddr) : option string := relay_walk "" (components a) ≫= PeerDecode.

(** [RelayReservations]: each relay once, in the order of the addresses. *)
Definition add_relay (out : list string) (a : Multiaddr) : list string :=
  match relayIDFromCircuitAddr a with
  | None => out
  | Some id => if decide (id ∈ out) then out else out ++ [id]
  end.
Definition RelayReservations (all : list Multiaddr) : list string := foldl add_relay [] all.

(** ** Configuration of the host *)

(** Why a list of addresses could not be read. *)
Inductive HostErr := EPrivKey | EParsingListen (s : string) | EParsingBootstrap (s : string) | EDecodingBootstrap (s : string).

Definition default_listen : list string :=
  ["/ip4/0.0.0.0/tcp/0"; "/ip6/::/tcp/0"; "/ip4/0.0.0.0/udp/0/quic-v1"; "/ip6/::/udp/0/quic-v1"].

Definition publicBootstrapAddrs : list string :=
  ["/dnsaddr/bootstrap.libp2p.io/p2p/QmNnooDu7bfjPFoTZYxMNLWUQJyrVwtbZg5gBMjTezGAJN";
   "/dnsaddr/bootstrap.libp2p.io/p2p/QmQCU2EcMqAqQPR2i9bChDtGNJchTbq5TbXJJ16u19uLTa";
   "/dnsaddr/bootstrap.libp2p.io/p2p/QmbLHAnMoJPWSCR5Zhtx6BHJX9KiKNN6tpvbUcqanj75Nb";
   "/dnsaddr/bootstrap.libp2p.io/p2p/QmcZf59bWwK5XFi76CZX8cbJ4BhTzzA3gU1ZjYZcYW3dwt"].

Fixpoint parse_listen (ss : list string) : result HostErr (list Multiaddr) :=
  match ss with
  | [] => Ok []
  | s :: ss =>
      match NewMultiaddr s with
      | None => Err (EParsingListen s)
      | Some m => match parse_listen ss with Ok ms => Ok (m :: ms) | Err e => Err e end
      end
  end.

Fixpoint parse_bootstraps (ss : list string) : result HostErr (list AddrInfo) :=
  match ss with
  | [] => Ok []
  | s :: ss =>
      match NewMultiaddr s with
      | None => Err (EParsingBootstrap s)
      | Some m =>
          match AddrInfoFromP2pAddr m with
          | None => Err (EDecodingBootstrap s)
          | Some info => match parse_bootstraps ss with Ok infos => Ok (info :: infos) | Err e => Err e end
          end
      end
  end.

Definition publicBootstrapAddrInfo : result HostErr (list AddrInfo) := parse_bootstraps publicBootstrapAddrs.

Inductive Reach := ReachabilityUnknown | ReachabilityPublic | ReachabilityPrivate.
#[export] Instance Reach_eq_dec : EqDecision Reach.
Proof. solve_decision. Defined.

(** [Host.Reachability]. *)
Definition Reachability (r : Reach) : string :=
  match r with ReachabilityPublic => "public" | ReachabilityPrivate => "private" | ReachabilityUnknown => "unknown" end.

(** The watcher's goroutine on the events so far. *)
Definition watch_reachability (events : list Reach) : Reach := default ReachabilityUnknown (last events).

Record HostOptions := mkHostOptions {
  ho_PrivKey : option string;
  ho_ListenAddrs : list Multiaddr;
  ho_BootstrapPeers : list AddrInfo;
  ho_RelayPeers : option (list AddrInfo);       (* [None] is a nil slice *)
  ho_DHTMode : Z;
  ho_ForceReachability : Reach;
  ho_RelayServiceUnlimited : bool }.

(** What [New] asks of libp2p. *)
Record Libp2pConfig := mkLibp2pConfig {
  lc_identity : string;
  lc_listen : list Multiaddr;
  lc_bootstraps : list AddrInfo;
  lc_autorelay : option (list AddrInfo);
  lc_unlimited : bool;
  lc_mode : Z;
  lc_force : option Reach }.

Definition New (o : HostOptions) : result HostErr Libp2pConfig :=
  match ho_PrivKey o with
  | None => Err EPrivKey
  | Some key =>
      match (if decide (length (ho_ListenAddrs o) = 0) then parse_listen default_listen else Ok (ho_ListenAddrs o)) with
      | Err e => Err e
      | Ok listen =>
          match (match ho_RelayPeers o with None => publicBootstrapAddrInfo | Some rs => Ok rs end) with
          | Err e => Err e
          | Ok relays =>
              Ok (mkLibp2pConfig key listen (ho_BootstrapPeers o)
                    (if decide (0 < length relays) then Some relays else None)
                    (ho_RelayServiceUnlimited o) (ho_DHTMode o)
                    (match ho_ForceReachability o with ReachabilityUnknown => None | r => Some r end))
          end
      end
  end.
End addrs.

(** ** The life of the host *)

(** What [New] and [Close] do with the library once the options are made. *)
Inductive HostCall := CNew | CBootstrap | CSubscribe | CSubClose | CDHTClose | CHostClose.
#[export] Instance HostCall_eq_dec : EqDecision HostCall.
Proof. solve_decision. Defined.

Record Host := mkHost { ho_ddh : bool; ho_watched : bool }.
Inductive NewErr := EConstructing | ENoDHT.

(** [startReachabilityWatcher]: whether there is a subscription to close. *)
Definition startReachabilityWatcher (subscribed : bool) : bool * list HostCall := (subscribed, [CSubscribe]).

(** The end of [New]: whether libp2p builds a host, whether it called the routing
    option, and whether the event bus gives a subscription. *)
Definition finish_New (built ddht subscribed : bool) : result NewErr Host * list HostCall :=
  if negb built then (Err EConstructing, [CNew])
  else if negb ddht then (Err ENoDHT, [CNew; CHostClose])
  else let '(watched, calls) := startReachabilityWatcher subscribed in (Ok (mkHost ddht watched), [CNew; CBootstrap] ++ calls).

(** [Close] gives the host's error. *)
Definition Host_Close {E} (close_err : option E) (h : Host) : option E * list HostCall :=
  (close_err, (if ho_watched h then [CSubClose] else []) ++ (if ho_ddh h then [CDHTClose] else []) ++ [CHostClose]).

(** ** Discovery ([discovery.go]) *)

Inductive MdnsErr := ENoName | EStarting.
Inductive MdnsCall := MAddAddrs (id : string) | MConnect (id : string) (timeout : Z).

(** [EnableMDNS]: the service runs, or an error. *)
Definition EnableMDNS (serviceName : string) (started : bool) : result MdnsErr unit :=
  if decide (serviceName = "") then Err ENoName else if started then Ok tt else Err EStarting.
Definition HandlePeerFound (id : string) : list MdnsCall := [MAddAddrs id; MConnect id (10 * 10 ^ 9)].

Inductive InfoErr := ENoListenAddrs | EHostHasNoDHT.
Definition HostAddrInfo `{Multiaddrs} (id : string) (addrs : list Multiaddr) : result InfoErr AddrInfo :=
  if decide (length addrs = 0) then Err ENoListenAddrs else Ok (id, addrs).
Definition EnableDHT (h : option Host) : result InfoErr unit :=
  match h with Some h => if ho_ddh h then Ok tt else Err EHostHasNoDHT | None => Err EHostHasNoDHT end.

(** [New] leaves nothing open when it fails after libp2p built a host, a host it
    gives has a DHT, and [Close] then ends the reachability watch before the DHT
    and the DHT before the host. *)
Lemma New_Close ddht subscribed :
  match finish_New true ddht subscribed with
  | (Err _, calls) => CHostClose ∈ calls
  | (Ok h, calls) => CHostClose ∉ calls /\ EnableDHT (Some h) = Ok tt /\
      snd (Host_Close (None : option unit) h) = (if subscribed then [CSubClose] else []) ++ [CDHTClose; CHostClose]
  end.
Proof. destruct ddht, subscribed; simpl; split_and?; try done; apply (bool_decide_unpack _); by vm_compute. Qed.

(** ** Connections and presence *)

(** Which of a connection's two notifications were delivered. *)
Inductive Told := TNone | TConnected | TDisconnected.

Record Conn := mkConn { cn_peer : string; cn_open : bool; cn_told : Told }.

(** The connections, in the order they were opened; the friends; the presence
    tracker the daemon's callbacks mark. *)
Record Net := mkNet {
  nt_conns : list Conn;
  nt_friends : gset string;
  nt_presence : Presence.Presence }.

Definition to_peer (p : string) (c : Conn) : Prop := cn_peer c = p /\ cn_open c = true.
#[export] Instance to_peer_dec p c : Decision (to_peer p c).
Proof. unfold to_peer. apply _. Defined.

Definition ConnsToPeer (p : string) (n : Net) : list Conn := filter (to_peer p) (nt_conns n).

Definition set_presence (f : option Presence.Presence) (n : Net) : option Net :=
  p ← f; Some (mkNet (nt_conns n) (nt_friends n) p).

(** [filteredNotifiee.Connected] and [Disconnected] with the callbacks [Run]
    passes to [Notifier]. *)
Definition Connected (p : string) (now : Z) (n : Net) : option Net :=
  if decide (p ∈ nt_friends n) then set_presence (Presence.MarkOnline p now (nt_presence n)) n else Some n.

Definition Disconnected (p : string) (now : Z) (n : Net) : option Net :=
  if decide (p ∉ nt_friends n) then Some n
  else if decide (0 < length (ConnsToPeer p n)) then Some n
  else set_presence (Presence.MarkOffline p now (nt_presence n)) n.

Definition set_conn (i : nat) (c : Conn) (n : Net) : Net := mkNet (<[i := c]> (nt_conns n)) (nt_friends n) (nt_presence n).

Inductive nop :=
| NOpen (p : string)
| NClose (i : nat)
| NConnected (i : nat) (now : Z)       (* the notification of connection i *)
| NDisconnected (i : nat) (now : Z)
| NBefriend (p : string)
| NUnfriend (p : string).

(** libp2p notifies each connection's opening before its closing; beyond that
    notifications come in any order. *)
Definition net_do (o : nop) (n : Net) : option Net :=
  match o with
  | NOpen p => Some (mkNet (nt_conns n ++ [mkConn p true TNone]) (nt_friends n) (nt_presence n))
  | NClose i =>
      match nt_conns n !! i with
      | Some c => Some (set_conn i (mkConn (cn_peer c) false (cn_told c)) n)
      | None => Some n
      end
  | NConnected i now =>
      match nt_conns n !! i with
      | Some (mkConn p open TNone) => Connected p now (set_conn i (mkConn p open TConnected) n)
      | _ => Some n
      end
  | NDisconnected i now =>
      match nt_conns n !! i with
      | Some (mkConn p false TConnected) => Disconnected p now (set_conn i (mkConn p false TDisconnected) n)
      | _ => Some n
      end
  | NBefriend p => Some (mkNet (nt_conns n) ({[p]} ∪ nt_friends n) (nt_presence n))
  | NUnfriend p => Some (mkNet (nt_conns n) (nt_friends n ∖ {[p]}) (nt_presence n))
  end.

Fixpoint net_run (os : list nop) (n : Net) : option Net :=
  match os with
  | [] => Some n
  | o :: os => n ← net_do o n; net_run os n
  end.

Definition net_init (friends : gset string) : Net := mkNet [] friends Presence.NewPresence.

(** Every notification has been delivered. *)
Definition quiescent (n : Net) : Prop :=
  Forall (fun c => cn_told c = if cn_open c then TConnected else TDisconnected) (nt_conns n).

(** *** What a mark does *)

Lemma transition_spec id on now p :
  hub_ok (Presence.p_hub p) -> exists p', Presence.transition id on now p = Some p' /\ hub_ok (Presence.p_hub p')
    /\ Presence.IsOnline id p' = on /\ forall id', id' <> id -> Presence.IsOnline id' p' = Presence.IsOnline id' p.
Proof.
  intros Hok. unfold Presence.transition, Presence.transition_commit, Presence.IsOnline. destruct (decide _) as [[Hn ->]|Hd].
  - exists p. by rewrite Hn.
  - destruct (Bool.eqb _ _); simpl.
    + eexists. split; [done|]. simpl. split; [done|]. rewrite lookup_insert_eq. split; [done|].
      intros id' Hne. by rewrite lookup_insert_ne.
    + unfold Presence.broadcast; simpl. destruct (hub_broadcast_ok (Presence.mkPresenceEvent id on now) _ Hok) as (h & -> & Hok' & _).
      simpl. eexists. split; [done|]. simpl. split; [done|]. rewrite lookup_insert_eq. split; [done|].
      intros id' Hne. by rewrite lookup_insert_ne.
Qed.

(** *** The invariant of one friend *)

Section friend.
Context (p : string).

Definition online (n : Net) : bool := Presence.IsOnline p (nt_presence n).

Record net_inv (n : Net) : Prop := {
  ni_hub : hub_ok (Presence.p_hub (nt_presence n));
  ni_friend : p ∈ nt_friends n;
  ni_on : forall c, c ∈ nt_conns n -> to_peer p c -> cn_told c = TConnected -> online n = true;
  ni_off : online n = true -> exists c, c ∈ nt_conns n /\ cn_peer c = p /\ cn_told c <> TDisconnected;
  ni_told : forall c, c ∈ nt_conns n -> cn_told c = TDisconnected -> cn_open c = false }.

(** Every operation but removing the friend. *)
Definition keeps_friend (o : nop) : Prop := match o with NUnfriend q => q <> p | _ => True end.

Lemma elem_of_insert_conn {A} (l : list A) i (x y : A) : y ∈ <[i := x]> l -> y = x \/ y ∈ l.
Proof.
  rewrite list_elem_of_lookup. intros (j & Hj). apply list_lookup_insert_Some in Hj as [(_ & -> & _)|(_ & Hj)]; [by left|].
  right. by eapply list_elem_of_lookup_2.
Qed.

(** A connection other than the replaced one stays. *)
Lemma elem_of_insert_keep {A} (l : list A) i (x y z : A) :
  l !! i = Some z -> y ∈ l -> y ∈ <[i := x]> l \/ y = z.
Proof.
  intros Hi (j & Hj)%list_elem_of_lookup. destruct (decide (j = i)) as [->|Hne]; [right; congruence|].
  left. apply (list_elem_of_lookup_2 _ j). by rewrite list_lookup_insert_ne.
Qed.

Lemma elem_of_insert_new {A} (l : list A) i (x z : A) : l !! i = Some z -> x ∈ <[i := x]> l.
Proof. intros Hi. apply (list_elem_of_lookup_2 _ i). apply list_lookup_insert_eq. by eapply lookup_lt_Some. Qed.

Lemma conn_close_inv i c n : net_inv n -> nt_conns n !! i = Some c -> net_inv (set_conn i (mkConn (cn_peer c) false (cn_told c)) n).
Proof.
  intros [Hh Hf Hon Hoff Ht] Hi. split; simpl; try done.
  - intros c' [->|Hin]%elem_of_insert_conn [Hp Ho] Htold; [done|]. by apply (Hon c').
  - intros (c' & Hin & Hp & Htold)%Hoff. destruct (elem_of_insert_keep _ _ (mkConn (cn_peer c) false (cn_told c)) _ _ Hi Hin) as [Hk| ->].
    + by exists c'.
    + eexists. split; [by eapply elem_of_insert_new|]. done.
  - intros c' [->|Hin]%elem_of_insert_conn Htold; [done|]. by apply Ht.
Qed.

(** A notification of another peer's connection leaves [p] alone. *)
Lemma other_inv i q open told told' n pr :
  q <> p -> nt_conns n !! i = Some (mkConn q open told) -> (told' = TDisconnected -> open = false) ->
  hub_ok (Presence.p_hub pr) -> Presence.IsOnline p pr = online n -> net_inv n ->
  net_inv (mkNet (<[i := mkConn q open told']> (nt_conns n)) (nt_friends n) pr).
Proof.
  intros Hne Hi Ht' Hpr Hsame [Hh Hf Hon Hoff Ht]. split; simpl; try done; unfold online; simpl; rewrite ?Hsame.
  - intros c' [->|Hin]%elem_of_insert_conn [Hp Ho] Htold; [done|]. by apply (Hon c').
  - intros (c' & Hin & Hp & Htold)%Hoff.
    destruct (elem_of_insert_keep _ _ (mkConn q open told') _ _ Hi Hin) as [Hk| ->]; [by exists c' | done].
  - intros c' [->|Hin]%elem_of_insert_conn Htold; [by apply Ht' | by apply Ht].
Qed.

Lemma Connected_inv i q open now n :
  net_inv n -> nt_conns n !! i = Some (mkConn q open TNone) ->
  exists n', Connected q now (set_conn i (mkConn q open TConnected) n) = Some n' /\ net_inv n'.
Proof.
  intros Hinv Hi. pose proof Hinv as [Hh Hf Hon Hoff Ht]. unfold Connected. simpl.
  destruct (decide (q ∈ nt_friends n)) as [Hq|Hq].
  - unfold set_presence, Presence.MarkOnline. simpl.
    destruct (transition_spec q true now (nt_presence n) Hh) as (pr & -> & Hok & Hq' & Hother). simpl.
    eexists. split; [done|]. destruct (decide (q = p)) as [->|Hne].
    + split; simpl; try done.
      * intros _. eexists. split; [by eapply elem_of_insert_new|]. done.
      * intros c' [->|Hin]%elem_of_insert_conn Htold; [done | by apply Ht].
    + apply (other_inv _ _ _ TNone); auto. done.
  - eexists. split; [done|]. apply (other_inv _ _ _ TNone); auto; [by intros -> | done].
Qed.

Lemma Disconnected_inv i q now n :
  net_inv n -> nt_conns n !! i = Some (mkConn q false TConnected) ->
  exists n', Disconnected q now (set_conn i (mkConn q false TDisconnected) n) = Some n' /\ net_inv n'.
Proof.
  intros Hinv Hi. pose proof Hinv as [Hh Hf Hon Hoff Ht]. unfold Disconnected. simpl.
  destruct (decide (q ∉ nt_friends n)) as [Hq|Hq].
  { eexists. split; [done|]. apply (other_inv _ _ _ TConnected); auto. by intros ->. }
  set (n1 := set_conn i _ n). destruct (decide (0 < length (ConnsToPeer q n1))) as [Hlt|Hle].
  - eexists. split; [done|]. destruct (decide (q = p)) as [->|Hne]; [|by apply (other_inv _ _ _ TConnected)].
    split; simpl; try done.
    + intros c' [->|Hin]%elem_of_insert_conn [Hp Ho] Htold; [done|]. by apply (Hon c').
    + intros _. unfold ConnsToPeer in Hlt. destruct (filter (to_peer p) (nt_conns n1)) as [|c l] eqn:E; [simpl in Hlt; lia|].
      assert (Hc : c ∈ filter (to_peer p) (nt_conns n1)) by (rewrite E; by left).
      apply list_elem_of_filter in Hc as [[Hp Ho] Hin]. exists c. split; [done|]. split; [done|]. intros Htold.
      apply elem_of_insert_conn in Hin as [->|Hin]; [done|]. apply Ht in Htold; [congruence | done].
    + intros c' [->|Hin]%elem_of_insert_conn Htold; [done | by apply Ht].
  - unfold set_presence, Presence.MarkOffline. simpl.
    destruct (transition_spec q false now (nt_presence n) Hh) as (pr & -> & Hok & Hq' & Hother). simpl.
    eexists. split; [done|]. destruct (decide (q = p)) as [->|Hne]; [|by apply (other_inv _ _ _ TConnected); auto].
    split; simpl; try done.
    + intros c' Hin Hto Htold. exfalso. apply Hle. unfold ConnsToPeer.
      assert (Hin' : c' ∈ filter (to_peer p) (nt_conns n1)) by by apply list_elem_of_filter.
      destruct (filter (to_peer p) (nt_conns n1)); [by apply elem_of_nil in Hin' | simpl; lia].
    + unfold online; simpl. congruence.
    + intros c' [->|Hin]%elem_of_insert_conn Htold; [done | by apply Ht].
Qed.

Lemma net_do_inv o n : net_inv n -> keeps_friend o -> exists n', net_do o n = Some n' /\ net_inv n'.
Proof.
  intros Hinv Hk. destruct o as [q|i|i now|i now|q|q]; simpl.
  - eexists. split; [done|]. destruct Hinv as [Hh Hf Hon Hoff Ht]. split; simpl; try done.
    + intros c [Hin| ->%list_elem_of_singleton]%elem_of_app; [by apply Hon | done].
    + intros (c & Hin & Hc)%Hoff. exists c. split; [|done]. apply elem_of_app. by left.
    + intros c [Hin| ->%list_elem_of_singleton]%elem_of_app; [by apply Ht | done].
  - destruct (nt_conns n !! i) as [c|] eqn:Hi; [|eauto]. eexists. split; [done|]. by apply conn_close_inv.
  - destruct (nt_conns n !! i) as [[q open []]|] eqn:Hi; eauto. by apply Connected_inv.
  - destruct (nt_conns n !! i) as [[q [] []]|] eqn:Hi; eauto. by apply Disconnected_inv.
  - eexists. split; [done|]. destruct Hinv. split; simpl; try done. set_solver.
  - eexists. split; [done|]. destruct Hinv. split; simpl; try done. simpl in Hk. set_solver.
Qed.

Lemma net_run_inv os n :
  net_inv n -> Forall keeps_friend os -> exists n', net_run os n = Some n' /\ net_inv n'.
Proof.
  intros Hn Hos. revert n Hn. induction Hos as [|o os Ho _ IH]; intros n Hn; simpl; [eauto|].
  destruct (net_do_inv o n Hn Ho) as (n1 & -> & Hn1). simpl. by apply IH.
Qed.

Lemma net_init_inv friends : p ∈ friends -> net_inv (net_init friends).
Proof.
  intros Hf. split; simpl; try apply hub_new_ok; try (intros c Hc; by apply elem_of_nil in Hc); [done|].
  unfold online, net_init, Presence.IsOnline; simpl. by rewrite lookup_empty.
Qed.


(** *** Friends made while connected *)

Definition no_open (o : nop) : Prop := match o with NOpen q => q <> p | _ => True end.

(** [p] is connected, was told so before it was a friend, and counts as offline. *)
Record missed (n : Net) : Prop := {
  ms_hub : hub_ok (Presence.p_hub (nt_presence n));
  ms_told : forall c, c ∈ nt_conns n -> cn_peer c = p -> cn_told c <> TNone;
  ms_off : online n = false }.

Lemma missed_presence n pr (cs : list Conn) friends :
  missed n -> hub_ok (Presence.p_hub pr) -> Presence.IsOnline p pr = false ->
  (forall c, c ∈ cs -> cn_peer c = p -> cn_told c <> TNone) -> missed (mkNet cs friends pr).
Proof. intros _ Hok Hoff Hcs. by split. Qed.

Lemma insert_told n i q open told told' :
  missed n -> nt_conns n !! i = Some (mkConn q open told) -> told' <> TNone ->
  forall c, c ∈ <[i := mkConn q open told']> (nt_conns n) -> cn_peer c = p -> cn_told c <> TNone.
Proof. intros [_ Ht _] _ Hne c [->|Hin]%elem_of_insert_conn; [done | by apply Ht]. Qed.

Lemma missed_do o n : missed n -> no_open o -> exists n', net_do o n = Some n' /\ missed n'.
Proof.
  intros Hm Ho. pose proof Hm as [Hh Ht Hoff]. destruct o as [q|i|i now|i now|q|q]; simpl.
  - eexists. split; [done|]. split; simpl; try done.
    intros c [Hin| ->%list_elem_of_singleton]%elem_of_app; [by apply Ht | done].
  - destruct (nt_conns n !! i) as [c|] eqn:Hi; [|eauto]. eexists. split; [done|]. split; simpl; try done.
    intros c' [->|Hin]%elem_of_insert_conn; [|by apply Ht]. simpl. apply Ht. by eapply list_elem_of_lookup_2.
  - destruct (nt_conns n !! i) as [[q open []]|] eqn:Hi; eauto.
    assert (Hne : q <> p) by (intros ->; by apply (Ht _ (list_elem_of_lookup_2 _ _ _ Hi))).
    pose proof (insert_told n i q open TNone TConnected Hm Hi ltac:(done)) as Hcs.
    unfold Connected. simpl. destruct (decide _).
    + unfold set_presence, Presence.MarkOnline. simpl.
      destruct (transition_spec q true now (nt_presence n) Hh) as (pr & -> & Hok & _ & Hother). simpl.
      eexists. split; [done|]. apply (missed_presence n); auto. by rewrite Hother.
    + eexists. split; [done|]. by apply (missed_presence n).
  - destruct (nt_conns n !! i) as [[q [] []]|] eqn:Hi; eauto.
    pose proof (insert_told n i q false TConnected TDisconnected Hm Hi ltac:(done)) as Hcs.
    unfold Disconnected. simpl. destruct (decide _); [eexists; split; [done|]; by apply (missed_presence n)|].
    destruct (decide _); [eexists; split; [done|]; by apply (missed_presence n)|].
    unfold set_presence, Presence.MarkOffline. simpl.
    destruct (transition_spec q false now (nt_presence n) Hh) as (pr & -> & Hok & Hq & Hother). simpl.
    eexists. split; [done|]. apply (missed_presence n); auto. destruct (decide (q = p)) as [->|]; [done|]. by rewrite Hother.
  - eexists. split; [done|]. by apply (missed_presence n).
  - eexists. split; [done|]. by apply (missed_presence n).
Qed.

(** A friend made while connected is shown offline. If a peer's connections
    were all notified before it became a friend, as when an invite is redeemed
    over a connection, then until a new connection to it opens it stays offline,
    although it is a friend and connected, whatever else happens. *)
Theorem befriended_shown_offline n os :
  hub_ok (Presence.p_hub (nt_presence n)) -> online n = false ->
  (forall c, c ∈ nt_conns n -> cn_peer c = p -> cn_told c <> TNone) -> Forall no_open os ->
  exists n', net_run (NBefriend p :: os) n = Some n' /\ online n' = false.
Proof.
  intros Hh Hoff Ht Hos. assert (Hm : missed (mkNet (nt_conns n) ({[p]} ∪ nt_friends n) (nt_presence n))) by by split.
  simpl. revert Hm. generalize (mkNet (nt_conns n) ({[p]} ∪ nt_friends n) (nt_presence n)). clear Hh Hoff Ht.
  induction Hos as [|o os Ho _ IH]; intros m Hm; simpl; [exists m; by destruct Hm|].
  destruct (missed_do o m Hm Ho) as (m1 & -> & Hm1). simpl. by apply IH.
Qed.
End friend.

(** ** Witnesses of presence *)


(** Ann redeems bob's invite over connection 0 and becomes his friend. *)
Lemma befriended_shown_offline_witness :
  exists n, net_run [NOpen "ann"; NConnected 0 1; NBefriend "ann"] (net_init ∅) = Some n
    /\ online "ann" n = false /\ length (ConnsToPeer "ann" n) = 1.
Proof.
  destruct (befriended_shown_offline "ann" (default (net_init ∅) (net_run [NOpen "ann"; NConnected 0 1] (net_init ∅))) [])
    as (n & Hrun & Hoff).
  - apply hub_new_ok.
  - reflexivity.
  - intros c Hc. vm_compute in Hc. apply list_elem_of_singleton in Hc as ->. discriminate.
  - constructor.
  - exists n. split; [exact Hrun|]. split; [exact Hoff|]. vm_compute in Hrun. by injection Hrun as <-.
Defined.

(** ** The peer store's file ([peerstore.go]) *)

Record peerstoreEntry := mkPeerstoreEntry { pse_PeerID : string; pse_Addrs : list string }.

Inductive PeerstoreErr := EMarshalling | EWriting (c : FsCall) | EReading | EParsing.

Section peerstore.
Context `{Multiaddrs}.
(** [json.MarshalIndent] and [json.Unmarshal]. *)
Context (marshal : list peerstoreEntry -> option bytes) (unmarshal : bytes -> option (list peerstoreEntry)).

(** One turn of the loop over [ps.Peers()]. *)
Definition saved_entry (self : string) (addrs : string -> list Multiaddr) (id : string) : option peerstoreEntry :=
  if decide (id = self) then None
  else if decide (length (addrs id) = 0) then None
  else Some (mkPeerstoreEntry id (MultiaddrString <$> addrs id)).

(** [SavePeerstore]; [peers] is [ps.Peers()] and [addrs] is [ps.Addrs]. *)
Definition SavePeerstore (o : Os) (path self : string) (peers : list string) (addrs : string -> list Multiaddr)
    (fs : gmap string bytes) : gmap string bytes * option PeerstoreErr :=
  match marshal (omap (saved_entry self addrs) peers) with
  | None => (fs, Some EMarshalling)
  | Some data =>
      let r := AtomicWriteFile o path (data ++ [10%Z]) fs in
      (awf_result r fs, EWriting <$> r.2)
  end.

(** The addresses of one entry, and its call of [AddAddrs]. *)
Definition loaded_entry (e : peerstoreEntry) : option (string * list Multiaddr) :=
  let addrs := omap NewMultiaddr (pse_Addrs e) in
  if decide (0 < length addrs) then Some (pse_PeerID e, addrs) else None.

(** [LoadPeerstore]: its calls of [AddAddrs]. *)
Definition LoadPeerstore (path : string) (readable : bool) (fs : gmap string bytes)
  : result PeerstoreErr (list (string * list Multiaddr)) :=
  match fs !! path with
  | None => Ok []
  | Some data =>
      if negb readable then Err EReading
      else match unmarshal data with
      | None => Err EParsing
      | Some entries => Ok (omap loaded_entry entries)
      end
  end.

Context (json_law : forall es data, marshal es = Some data -> unmarshal (data ++ [10%Z]) = Some es).
Context (maddr_law : forall a, NewMultiaddr (MultiaddrString a) = Some a).

Lemma parse_strings (addrs : list Multiaddr) : omap NewMultiaddr (MultiaddrString <$> addrs) = addrs.
Proof. clear - maddr_law. induction addrs as [|a addrs IH]; [done|]. rewrite fmap_cons. cbn. rewrite maddr_law. by f_equal. Qed.

(** The peers whose addresses are kept. *)
Definition kept (self : string) (peers : list string) (addrs : string -> list Multiaddr) : list (string * list Multiaddr) :=
  omap (fun id => if decide (id = self \/ length (addrs id) = 0) then None else Some (id, addrs id)) peers.

Lemma load_saved self peers addrs : omap loaded_entry (omap (saved_entry self addrs) peers) = kept self peers addrs.
Proof.
  clear json_law. induction peers as [|id peers IH]; [done|]. unfold kept, saved_entry in *. simpl.
  destruct (decide (id = self)) as [->|Hne]; [rewrite decide_True by auto; exact IH|].
  destruct (decide (length (addrs id) = 0)) as [E|E]; [rewrite decide_True by auto; exact IH|].
  rewrite (decide_False (P := id = self \/ _)) by tauto. simpl. unfold loaded_entry at 1. simpl.
  rewrite parse_strings, decide_True by lia. f_equal. exact IH.
Qed.

(** Addresses survive a restart: after [SavePeerstore] succeeded,
    [LoadPeerstore] adds again, in the same order, exactly the addresses of
    every known peer but the host itself; when it failed, the file is what it
    was before, and a missing file adds nothing. *)
Theorem peerstore_roundtrip o path self peers addrs fs :
  os_fresh o path fs ->
  (let '(fs', err) := SavePeerstore o path self peers addrs fs in
   match err with
   | None => LoadPeerstore path true fs' = Ok (kept self peers addrs)
   | Some _ => fs' = fs
   end) /\ (fs !! path = None -> LoadPeerstore path true fs = Ok []).
Proof.
  intros Hfresh. unfold SavePeerstore. split; [|intros Hn; unfold LoadPeerstore; by rewrite Hn].
  destruct (marshal _) as [data|] eqn:Hm; [|done].
  destruct (awf_spec o path (data ++ [10%Z]) fs Hfresh) as [_ Hres].
  destruct (AtomicWriteFile o path (data ++ [10%Z]) fs) as [states [c|]]; simpl in *; rewrite Hres; [done|].
  unfold LoadPeerstore. rewrite lookup_insert_eq. simpl. rewrite (json_law _ _ Hm). by rewrite load_saved.
Qed.
End peerstore.

(** ** Witness of the peer store *)

Definition demo_maddrs : Multiaddrs := {|
  Multiaddr := string;
  NewMultiaddr := Some;
  MultiaddrString := id;
  components s := [("p2p", s)];
  IsPublicAddr _ := false;
  PeerDecode := Some;
  AddrInfoFromP2pAddr s := Some (s, [s]) |}.

(** A marshaller for one list of entries. *)
Definition demo_kept : list peerstoreEntry := [mkPeerstoreEntry "bob" ["/ip4/1.2.3.4"]].
Definition demo_peer_marshal (es : list peerstoreEntry) : option bytes :=
  match es with
  | [mkPeerstoreEntry "bob" ["/ip4/1.2.3.4"]] => Some [1%Z]
  | _ => None
  end.
Definition demo_peer_unmarshal (b : bytes) : option (list peerstoreEntry) := Some demo_kept.

Lemma demo_peer_law es data : demo_peer_marshal es = Some data -> demo_peer_unmarshal (data ++ [10%Z]) = Some es.
Proof. unfold demo_peer_marshal, demo_peer_unmarshal, demo_kept. by repeat case_match. Qed.

Lemma peerstore_roundtrip_witness :
  let addrs id := if String.eqb id "bob" then ["/ip4/1.2.3.4"] else if String.eqb id "me" then ["/ip4/0.0.0.0"] else [] in
  let '(fs, err) := SavePeerstore (H := demo_maddrs) demo_peer_marshal (os_ok "d/.tmp-1") "d/peerstore.json" "me" ["me"; "bob"; "eve"] addrs ∅ in
  err = None /\ LoadPeerstore (H := demo_maddrs) demo_peer_unmarshal "d/peerstore.json" true fs = Ok [("bob", ["/ip4/1.2.3.4"])].
Proof.
  intros addrs.
  pose proof (peerstore_roundtrip (H := demo_maddrs) demo_peer_marshal demo_peer_unmarshal demo_peer_law (fun a => eq_refl)
    (os_ok "d/.tmp-1") "d/peerstore.json" "me" ["me"; "bob"; "eve"] addrs ∅ ltac:(split; [reflexivity | discriminate])) as Hrt.
  destruct (SavePeerstore _ _ _ _ _ _ _) as [fs err] eqn:E. vm_compute in E. injection E as <- <-.
  split; [reflexivity|]. apply Hrt.
Defined.
