(* ===== verification/Upgrade.v ===== *)
(** * The upgrade command ([internal/cli/upgrade.go])

    [opencom upgrade] resolves the latest release, downloads the archive of the
    platform and its checksums, verifies, extracts and replaces the running
    binary. Files are named by directory and base name. The history of the file
    system is kept, as a crash can leave any of its states. The network, the
    operating system's answers, SHA-256 and the archive format are parameters. *)
From S2P Require Import Prelude GoStrings.
From S2P Require Identity.
#[local] Open Scope string_scope.
#[local] Open Scope list_scope.

(** ** Strings and paths *)

(** [strings.Fields]; each round consumes a byte. *)
Fixpoint fields_go (fuel : nat) (s cur : string) : list string :=
  let flush := if decide (cur = "") then [] else [cur] in
  match fuel, s with
  | S fuel, String c s' =>
      match space_len s with
      | O => fields_go fuel s' (cur +:+ String c "")
      | n => flush ++ fields_go fuel (str_drop n s) ""
      end
  | _, _ => flush
  end.
Definition Fields (s : string) : list string := fields_go (String.length s) s "".

(** [filepath.Base], for the separator "/". *)
Fixpoint drop_slashes (s : string) : string :=
  match s with String "/" s' => drop_slashes s' | _ => s end.
Definition Base (s : string) : string :=
  if decide (s = "") then "."
  else match drop_slashes (str_rev s) with
       | "" => "/"
       | r => let '(b, _, _) := Cut r "/" in str_rev b
       end.

(** A file: its directory and its name in it. *)
Notation Path := (string * string)%type (only parsing).
Notation UFS := (gmap Path bytes) (only parsing).

(** ** The environment *)

Record Payload := mkPayload { pl_TagName : string; pl_Assets : list (string * string) }.

(** An HTTP response: the status, the body that arrives, whether all of it does. *)
Record Response := mkResponse { rs_status : Z; rs_body : bytes; rs_complete : bool }.

(** The entries of a gzipped tar archive up to its end or the first error:
    each name, the bytes that can be read, and whether that is all of them. *)
Record Archive := mkArchive { ar_entries : list (string * bytes * bool); ar_eof : bool }.

(** What the operating system answers. A copy into a file may fail after some
    bytes; [RemoveAll] may leave files behind. *)
Record UpgradeOs := mkUpgradeOs {
  uo_Executable : option Path;
  uo_EvalSymlinks : Path -> option Path;
  uo_MkdirTemp : option string;
  uo_Open : Path -> bool;
  uo_Create : Path -> bool;
  uo_Write : Path -> option nat;
  uo_Close : Path -> bool;
  uo_Chmod : bool;
  uo_Rename : bool;
  uo_Remove : bool;
  uo_kept : list Path }.

Inductive UpgradeErr :=
| UDevBuild | UExecutable | USymlinks | UFetch | UStatus (code : Z) | UDecode | UNoTag | UOs (goos : string) | UArch (goarch : string)
| UNoAsset (name tag : string) | UNoChecksums (tag : string) | UTempDir | UGet | UGetStatus (url : string) (code : Z)
| UCreate | UWrite | UOpen | UNoEntry (name : string) | UMismatch (got want : string) | UGzip | UNotFound (bin : string) | UArchive
| UClose | UChmod | URename.
#[export] Instance UpgradeErr_eq_dec : EqDecision UpgradeErr.
Proof. solve_decision. Defined.

(** ** The state: the file system and its past *)

Record St := mkSt { cur : UFS; past : list UFS }.
Definition states (s : St) : list UFS := cur s :: past s.

Definition M (A : Type) : Type := St -> St * result UpgradeErr A.
#[export] Instance M_ret : MRet M := fun A a s => (s, Ok a).
#[export] Instance M_bind : MBind M :=
  fun A B f m s => match m s with (s', Ok a) => f a s' | (s', Err e) => (s', Err e) end.
Definition fail {A : Type} (e : UpgradeErr) : M A := fun s => (s, Err e).
Definition lift {A : Type} (r : result UpgradeErr A) : M A := fun s => (s, r).
Definition guard_ (b : bool) (e : UpgradeErr) : M unit := if b then mret () else fail e.
(** A change of the file system. *)
Definition change (f : UFS -> UFS) : M unit := fun s => (mkSt (f (cur s)) (cur s :: past s), Ok ()).
Definition read (p : Path) : M (option bytes) := fun s => (s, Ok (cur s !! p)).
(** [defer]: the clean-up runs whatever the result. *)
Definition defer_ {A : Type} (cleanup : UFS -> UFS) (m : M A) : M A :=
  fun s => let '(s', r) := m s in ((change cleanup s').1, r).
(** The clean-up on an error only. *)
Definition on_error {A : Type} (cleanup : UFS -> UFS) (m : M A) : M A :=
  fun s => match m s with (s', Ok a) => (s', Ok a) | (s', Err e) => ((change cleanup s').1, Err e) end.

Section upgrade.
Context (Version_ GOOS GOARCH : string) (unicode_lower : string -> string).
Context (o : UpgradeOs).
Context (API : option (Z * option Payload)) (GET : nat -> string -> option Response).
Context (sha256 : bytes -> bytes) (gunzip : bytes -> option Archive).

(** ** Resolving the release *)

Record releaseAsset := mkReleaseAsset { ra_tag : string; tarballName : string; tarballURL : string; checksumsURL : string }.

Definition platformAssetParts : result UpgradeErr (string * string * string) :=
  osext ← (if decide (GOOS = "linux") then Ok ("Linux", "tar.gz")
           else if decide (GOOS = "darwin") then Ok ("Darwin", "tar.gz")
           else if decide (GOOS = "windows") then Ok ("Windows", "zip")
           else Err (UOs GOOS));
  arch ← (if decide (GOARCH = "amd64") then Ok "x86_64"
          else if decide (GOARCH = "arm64") then Ok "arm64"
          else Err (UArch GOARCH));
  Ok (fst osext, arch, snd osext).

(** The loop over the release's assets. *)
Definition pick_asset (wantTarball wantChecksums : string) (a : releaseAsset) (asset : string * string) : releaseAsset :=
  let '(name, url) := asset in
  if decide (name = wantTarball) then mkReleaseAsset (ra_tag a) (tarballName a) url (checksumsURL a)
  else if decide (name = wantChecksums) then mkReleaseAsset (ra_tag a) (tarballName a) (tarballURL a) url
  else a.

Definition resolveReleaseAsset : result UpgradeErr releaseAsset :=
  match API with
  | None => Err UFetch
  | Some (status, body) =>
      if negb (status =? 200)%Z then Err (UStatus status)
      else match body with
      | None => Err UDecode
      | Some payload =>
          if decide (pl_TagName payload = "") then Err UNoTag
          else
            p ← platformAssetParts;
            let '(osTitle, arch, ext) := p in
            let v := TrimPrefix (pl_TagName payload) "v" in
            let wantTarball := "opencom_" +:+ v +:+ "_" +:+ osTitle +:+ "_" +:+ arch +:+ "." +:+ ext in
            let a := foldl (pick_asset wantTarball "checksums.txt") (mkReleaseAsset (pl_TagName payload) wantTarball "" "")
                       (pl_Assets payload) in
            if decide (tarballURL a = "") then Err (UNoAsset wantTarball (pl_TagName payload))
            else if decide (checksumsURL a = "") then Err (UNoChecksums (pl_TagName payload))
            else Ok a
      end
  end.

(** ** Files *)

(** [os.Create] and [io.Copy] of [b], all of its source if [complete]. *)
Definition create_copy (p : Path) (b : bytes) (complete : bool) : M unit :=
  _ ← guard_ (uo_Create o p) UCreate;
  _ ← change <[p := []]>;
  match uo_Write o p with
  | Some n => _ ← change <[p := take n b]>; fail UWrite
  | None => _ ← change <[p := b]>; guard_ complete UWrite
  end.

(** Opening a file for reading. *)
Definition open_ (p : Path) : M bytes :=
  _ ← guard_ (uo_Open o p) UOpen;
  c ← read p;
  lift (of_option UOpen c).

(** [download], the [i]-th request. The error of closing the file is ignored. *)
Definition download (i : nat) (url : string) (dest : Path) : M unit :=
  match GET i url with
  | None => fail UGet
  | Some r =>
      if negb (rs_status r =? 200)%Z then fail (UGetStatus url (rs_status r))
      else create_copy dest (rs_body r) (rs_complete r)
  end.

(** The lines of [lookupChecksum]. *)
Fixpoint find_checksum (lines : list string) (filename : string) : option string :=
  match lines with
  | [] => None
  | line :: lines =>
      match Fields line with
      | [digest; name] =>
          if decide (name = filename \/ name = "*" +:+ filename) then Some (ToLower unicode_lower digest)
          else find_checksum lines filename
      | _ => find_checksum lines filename
      end
  end.

Definition bytes_string (b : bytes) : string := String.string_of_list_ascii (of_chr <$> b).

Definition lookupChecksum (path : Path) (filename : string) : M string :=
  b ← open_ path;
  lift (of_option (UNoEntry filename) (find_checksum (Split (bytes_string b) "010") filename)).

Definition sha256File (path : Path) : M string :=
  b ← open_ path;
  mret (Identity.hex_encode (sha256 b)).

(** The loop of [extractBinary]: the first entry of that name. *)
Fixpoint find_entry (es : list (string * bytes * bool)) (binName : string) : option (bytes * bool) :=
  match es with
  | [] => None
  | (name, data, complete) :: es => if decide (Base name <> binName) then find_entry es binName else Some (data, complete)
  end.

Definition extractBinary (tarballPath : Path) (binName : string) (dest : Path) : M unit :=
  b ← open_ tarballPath;
  match gunzip b with
  | None => fail UGzip
  | Some ar =>
      match find_entry (ar_entries ar) binName with
      | None => fail (if ar_eof ar then UNotFound binName else UArchive)
      | Some (data, complete) =>
          _ ← create_copy dest data complete;
          guard_ (uo_Close o dest) UClose
      end
  end.

(** The file [replaceBinary] copies to, beside the executable. *)
Definition new_path (exe : Path) : Path := (fst exe, ".opencom-new-" +:+ snd exe).

Definition os_Remove (p : Path) (fs : UFS) : UFS := if uo_Remove o then delete p fs else fs.

Definition os_Rename (p q : Path) (fs : UFS) : UFS :=
  match fs !! p with Some b => <[q := b]> (delete p fs) | None => fs end.

Definition replaceBinary (src exe : Path) : M unit :=
  let tmp := new_path exe in
  b ← open_ src;
  _ ← guard_ (uo_Create o tmp) UCreate;
  _ ← change <[tmp := []]>;
  on_error (os_Remove tmp) (
    _ ← match uo_Write o tmp with
        | Some n => _ ← change <[tmp := take n b]>; fail UWrite
        | None => change <[tmp := b]>
        end;
    _ ← guard_ (uo_Close o tmp) UClose;
    _ ← guard_ (uo_Rename o) URename;
    change (os_Rename tmp exe)).

(** ** The command *)

Inductive Outcome := AlreadyLatest | Installed (tag : string).

Definition binName : string := if decide (GOOS = "windows") then "opencom.exe" else "opencom".

(** [os.RemoveAll] of the temporary directory. *)
Definition RemoveAll (dir : string) (fs : UFS) : UFS :=
  filter (fun '(p, _) => fst p <> dir \/ p ∈ uo_kept o) fs.

(** Steps 3 to 6, in the temporary directory. *)
Definition fetch_and_replace (asset : releaseAsset) (exe : Path) (tmpDir : string) : M Outcome :=
  let tarballPath := (tmpDir, tarballName asset) in
  _ ← download 0 (tarballURL asset) tarballPath;
  let checksumsPath := (tmpDir, "checksums.txt") in
  _ ← download 1 (checksumsURL asset) checksumsPath;
  expected ← lookupChecksum checksumsPath (tarballName asset);
  got ← sha256File tarballPath;
  _ ← guard_ (bool_decide (got = expected)) (UMismatch got expected);
  let newBinPath := (tmpDir, binName) in
  _ ← extractBinary tarballPath binName newBinPath;
  _ ← guard_ (uo_Chmod o) UChmod;
  _ ← replaceBinary newBinPath exe;
  mret (Installed (ra_tag asset)).

Definition runUpgrade (force : bool) : M Outcome :=
  if decide (Version_ = "dev" /\ force = false) then fail UDevBuild
  else
    exe0 ← lift (of_option UExecutable (uo_Executable o));
    exe ← lift (of_option USymlinks (uo_EvalSymlinks o exe0));
    asset ← lift resolveReleaseAsset;
    if decide (force = false /\ TrimPrefix (ra_tag asset) "v" = TrimPrefix Version_ "v") then mret AlreadyLatest
    else
      tmpDir ← lift (of_option UTempDir (uo_MkdirTemp o));
      defer_ (RemoveAll tmpDir) (fetch_and_replace asset exe tmpDir).

(** ** A logic for the command

    [post m s Q E]: run from [s], [m] ends in [Q] on success and in [E] on an
    error. *)
Definition post {A : Type} (m : M A) (s : St) (Q : A -> St -> Prop) (E : St -> Prop) : Prop :=
  match m s with (s', Ok a) => Q a s' | (s', Err _) => E s' end.

Lemma post_bind {A B : Type} (m : M A) (f : A -> M B) s (R : A -> St -> Prop) Q E :
  post m s R E -> (forall a s', R a s' -> post (f a) s' Q E) -> post (m ≫= f) s Q E.
Proof.
  unfold post, mbind, M_bind. intros Hm Hf. destruct (m s) as [s' [a|e]] eqn:Em; [|done].
  specialize (Hf a s' Hm). by destruct (f a s') as [? []].
Qed.

Lemma post_guard b e s (Q : unit -> St -> Prop) E : E s -> (b = true -> Q () s) -> post (guard_ b e) s Q E.
Proof. intros He Hq. destruct b; cbn; auto. Qed.

Lemma post_lift {A : Type} (r : result UpgradeErr A) s (Q : A -> St -> Prop) (E : St -> Prop) :
  E s -> (forall a, r = Ok a -> Q a s) -> post (lift r) s Q E.
Proof. intros He Hq. destruct r; cbn; auto. Qed.

Lemma post_open p s (Q : bytes -> St -> Prop) (E : St -> Prop) :
  E s -> (forall b, cur s !! p = Some b -> Q b s) -> post (open_ p) s Q E.
Proof.
  intros He Hq. unfold open_. apply (post_bind _ _ _ (fun _ s' => s' = s)); [by apply post_guard|]. intros _ ? ->.
  apply (post_bind _ _ _ (fun c s' => s' = s /\ c = cur s !! p)); [done|]. intros c ? [-> ->].
  apply post_lift; [done|]. intros b Hb. by apply Hq, of_option_Ok with UOpen.
Qed.

Lemma post_weaken {A : Type} (m : M A) s (Q Q' : A -> St -> Prop) (E E' : St -> Prop) :
  post m s Q' E' -> (forall a s', Q' a s' -> Q a s') -> (forall s', E' s' -> E s') -> post m s Q E.
Proof. unfold post. intros Hm HQ HE. destruct (m s) as [s' []]; auto. Qed.

Lemma same_file (f : UFS) (p : Path) b c : f !! p = Some b -> f !! p = Some c -> b = c.
Proof. congruence. Qed.

(** *** Up to the extracted binary nothing outside the temporary directory changes *)

Section run.
Context (fs0 : UFS) (T : string).

Definition outside (f : UFS) : Prop := forall p, fst p <> T -> f !! p = fs0 !! p.
Definition quiet (s : St) : Prop := Forall outside (states s).

Lemma quiet_cur s : quiet s -> outside (cur s).
Proof. by intros [? _]%Forall_cons. Qed.

Lemma quiet_write s p b : fst p = T -> quiet s -> quiet (mkSt (<[p := b]> (cur s)) (cur s :: past s)).
Proof.
  intros Hp Hq. apply Forall_cons_2; [|done]. intros q Hne. simpl. rewrite lookup_insert_ne by congruence. by apply quiet_cur.
Qed.

(** [s'] differs from [s] at [p] only. *)
Definition only (p : Path) (s s' : St) : Prop := forall q, q <> p -> cur s' !! q = cur s !! q.

Lemma create_copy_post p b complete s :
  fst p = T -> quiet s ->
  post (create_copy p b complete) s (fun _ s' => quiet s' /\ complete = true /\ cur s' !! p = Some b /\ only p s s') quiet.
Proof.
  intros Hp Hq. unfold create_copy. apply (post_bind _ _ _ (fun _ s' => s' = s)); [by apply post_guard|]. intros _ ? ->.
  apply (post_bind _ _ _ (fun _ s' => quiet s' /\ only p s s')).
  { split; [by apply quiet_write|]. intros q Hne. simpl. by rewrite lookup_insert_ne. }
  intros _ s' [Hq' Ho]. destruct (uo_Write o p) as [n|].
  - apply (post_bind _ _ _ (fun _ s' => quiet s')); [by apply quiet_write|]. done.
  - apply (post_bind _ _ _ (fun _ s' => quiet s' /\ cur s' !! p = Some b /\ only p s s')).
    { split; [by apply quiet_write|]. simpl. split; [apply lookup_insert_eq|]. intros q Hne. simpl.
      rewrite lookup_insert_ne by done. by apply Ho. }
    intros _ s2 (Hq2 & Hb & Ho2). by apply post_guard.
Qed.

Lemma download_post i url dest s :
  fst dest = T -> quiet s ->
  post (download i url dest) s (fun _ s' => quiet s' /\ only dest s s' /\
    exists b, GET i url = Some (mkResponse 200 b true) /\ cur s' !! dest = Some b) quiet.
Proof.
  intros Hd Hq. unfold download. destruct (GET i url) as [[status b c]|]; [|done]. simpl.
  destruct (Z.eqb_spec status 200) as [->|]; [|done]. simpl.
  pose proof (create_copy_post dest b c s Hd Hq) as Hc. unfold post in *. destruct (create_copy _ _ _ s) as [s' []]; [|done].
  destruct Hc as (Hq' & -> & Hb & Ho). split; [done|]. split; [done|]. by exists b.
Qed.

Lemma extractBinary_post tarball bin dest s :
  fst dest = T -> quiet s ->
  post (extractBinary tarball bin dest) s (fun _ s' => quiet s' /\ exists b ar data,
    cur s !! tarball = Some b /\ gunzip b = Some ar /\ find_entry (ar_entries ar) bin = Some (data, true) /\
    cur s' !! dest = Some data) quiet.
Proof.
  intros Hd Hq. unfold extractBinary.
  apply (post_bind _ _ _ (fun b s' => s' = s /\ cur s !! tarball = Some b)); [apply post_open; auto|]. intros b ? [-> Hb].
  destruct (gunzip b) as [ar|] eqn:Eg; [|done]. destruct (find_entry _ _) as [[data c]|] eqn:Ef; [|done].
  eapply post_bind; [by apply create_copy_post|]. intros _ s' (Hq' & -> & Hdata & _).
  apply post_guard; [done|]. intros _. split; [done|]. by exists b, ar, data.
Qed.

(** The binary the verified archive of [a] holds. *)
Definition verified (a : releaseAsset) (bin : bytes) : Prop :=
  exists tarball sums ar,
    GET 0 (tarballURL a) = Some (mkResponse 200 tarball true) /\
    GET 1 (checksumsURL a) = Some (mkResponse 200 sums true) /\
    find_checksum (Split (bytes_string sums) "010") (tarballName a) = Some (Identity.hex_encode (sha256 tarball)) /\
    gunzip tarball = Some ar /\ find_entry (ar_entries ar) binName = Some (bin, true).

(** *** Replacing the executable *)

Context (asset : releaseAsset) (exe : Path) (exe_out : fst exe <> T).

(** The executable is the old one or the verified new one; else only the
    temporary directory and the file beside the executable differ. *)
Definition swapped (f : UFS) : Prop :=
  (f !! exe = fs0 !! exe \/ exists bin, verified asset bin /\ f !! exe = Some bin) /\
  forall p, fst p <> T -> p <> exe -> p <> new_path exe -> f !! p = fs0 !! p.
Definition safe (s : St) : Prop := Forall swapped (states s).
Definition untouched (s : St) : Prop := safe s /\ cur s !! exe = fs0 !! exe.
Definition no_new (s : St) : Prop := cur s !! new_path exe = None \/ cur s !! new_path exe = fs0 !! new_path exe.

Lemma new_not_exe : new_path exe <> exe.
Proof.
  destruct exe as [d b]. unfold new_path. intros [= Hb]. apply (f_equal String.length) in Hb. rewrite length_app_str in Hb.
  simpl in Hb. lia.
Qed.

Lemma quiet_untouched s : quiet s -> untouched s /\ no_new s.
Proof.
  intros Hq. split; [split|].
  - eapply Forall_impl; [exact Hq|]. intros f Hf. split; [left; by apply Hf|]. intros p Hp _ _. by apply Hf.
  - by apply quiet_cur.
  - right. by apply (quiet_cur s).
Qed.

(** Changes of the new file leave the executable untouched. *)
Lemma untouched_change g s :
  (forall p, p <> new_path exe -> g (cur s) !! p = cur s !! p) -> untouched s ->
  untouched (mkSt (g (cur s)) (cur s :: past s)).
Proof.
  intros Hg [Hs Hc]. assert (Hge : g (cur s) !! exe = cur s !! exe) by (apply Hg; intros Heq; by apply new_not_exe).
  split; [|simpl; congruence]. apply Forall_cons_2; [|done]. apply Forall_cons in Hs as [[He Hf] _].
  split; simpl; [by rewrite Hge|]. intros p H1 H2 H3. rewrite Hg by done. by apply Hf.
Qed.

Lemma untouched_insert b s : untouched s -> untouched (mkSt (<[new_path exe := b]> (cur s)) (cur s :: past s)).
Proof. apply (untouched_change <[new_path exe := b]>). intros p Hp. by apply lookup_insert_ne. Qed.

Lemma on_error_post {A : Type} g (m : M A) s (Q : A -> St -> Prop) (E E' : St -> Prop) :
  post m s Q E' -> (forall s', E' s' -> E (mkSt (g (cur s')) (cur s' :: past s'))) -> post (on_error g m) s Q E.
Proof. unfold post, on_error. intros Hm HE. destruct (m s) as [s' []]; [done|]. by apply HE. Qed.

Lemma replaceBinary_post src bin s :
  verified asset bin -> quiet s -> cur s !! src = Some bin ->
  post (replaceBinary src exe) s
    (fun _ s' => safe s' /\ cur s' !! exe = Some bin /\ cur s' !! new_path exe = None)
    (fun s' => untouched s' /\ (uo_Remove o = true -> no_new s')).
Proof.
  intros Hv Hq Hsrc. destruct (quiet_untouched s Hq) as [Hu Hn]. unfold replaceBinary.
  apply (post_bind _ _ _ (fun b s' => s' = s /\ b = bin)); [apply post_open; [done|]; intros b Hb; split; congruence|].
  intros ? ? [-> ->]. apply (post_bind _ _ _ (fun _ s' => s' = s)); [by apply post_guard|]. intros _ ? ->.
  apply (post_bind _ _ _ (fun _ s' => untouched s')); [by apply untouched_insert|]. intros _ s1 Hu1.
  apply (on_error_post _ _ _ _ _ untouched).
  2:{ intros s' Hu'. split.
      - apply (untouched_change (os_Remove (new_path exe))); [|done]. intros p Hp. unfold os_Remove.
        destruct (uo_Remove o); [by apply lookup_delete_ne | done].
      - intros Hr. left. simpl. unfold os_Remove. rewrite Hr. apply lookup_delete_eq. }
  apply (post_bind _ _ _ (fun _ s' => untouched s' /\ cur s' !! new_path exe = Some bin)).
  { destruct (uo_Write o _) as [n|].
    - apply (post_bind _ _ _ (fun _ s' => untouched s')); [by apply untouched_insert|]. done.
    - split; [by apply untouched_insert|]. apply lookup_insert_eq. }
  intros _ s2 [Hu2 Hb2].
  apply (post_bind _ _ _ (fun _ s' => s' = s2)); [by apply post_guard|]. intros _ ? ->.
  apply (post_bind _ _ _ (fun _ s' => s' = s2)); [by apply post_guard|]. intros _ ? ->.
  unfold post, change, safe, states. simpl. unfold os_Rename. rewrite Hb2. split_and!.
  - apply Forall_cons_2; [|apply Hu2]. destruct Hu2 as [[[_ Hf] _]%Forall_cons _]. split.
    + right. exists bin. split; [done|]. apply lookup_insert_eq.
    + intros p H1 H2 H3. rewrite lookup_insert_ne by done. rewrite lookup_delete_ne by done. by apply Hf.
  - apply lookup_insert_eq.
  - rewrite lookup_insert_ne by (intros Heq; by apply new_not_exe). apply lookup_delete_eq.
Qed.

Definition installed (a : Outcome) (s : St) : Prop :=
  a = Installed (ra_tag asset) /\ safe s /\ cur s !! new_path exe = None /\
  exists bin, verified asset bin /\ cur s !! exe = Some bin.
Definition refused (s : St) : Prop := untouched s /\ (uo_Remove o = true -> no_new s).

Lemma quiet_refused s : quiet s -> refused s.
Proof. intros [Hu Hn]%quiet_untouched. by split. Qed.

(** The archive's name in the temporary directory clashes with no other. *)
Definition names_apart : Prop := tarballName asset <> "checksums.txt".

Lemma fetch_and_replace_post s : names_apart -> quiet s -> post (fetch_and_replace asset exe T) s installed refused.
Proof.
  intros Hna Hq. unfold fetch_and_replace.
  eapply post_bind. { eapply post_weaken; [by apply download_post | done | apply quiet_refused]. }
  intros _ s1 (Hq1 & _ & tarball & Hg1 & Ht1). simpl.
  eapply post_bind. { eapply post_weaken; [by apply download_post | done | apply quiet_refused]. }
  intros _ s2 (Hq2 & Ho2 & sums & Hg2 & Hs2). simpl.
  assert (Ht2 : cur s2 !! (T, tarballName asset) = Some tarball) by (rewrite Ho2; [done | congruence]).
  eapply post_bind.
  { eapply (post_bind _ _ _ (fun b s' => s' = s2 /\ b = sums)).
    - apply post_open; [by apply quiet_refused|]. intros b Hb. split; [done | by apply (same_file _ _ _ _ Hb)].
    - intros ? ? [-> ->]. apply (post_lift _ _ (fun want s' => s' = s2 /\ find_checksum (Split (bytes_string sums) "010") (tarballName asset) = Some want));
        [by apply quiet_refused|]. intros want Hw%of_option_Ok. done. }
  intros want ? [-> Hwant]. eapply (post_bind _ _ _ (fun got s' => s' = s2 /\ got = Identity.hex_encode (sha256 tarball))).
  { eapply (post_bind _ _ _ (fun b s' => s' = s2 /\ b = tarball)).
    - apply post_open; [by apply quiet_refused|]. intros b Hb. split; [done | by apply (same_file _ _ _ _ Hb)].
    - by intros ? ? [-> ->]. }
  intros got ? [-> ->]. apply (post_bind _ _ _ (fun _ s' => s' = s2 /\ want = Identity.hex_encode (sha256 tarball))).
  { apply post_guard; [by apply quiet_refused|]. intros Heq%bool_decide_eq_true. done. }
  intros _ ? [-> ->]. eapply post_bind. { eapply post_weaken; [by apply extractBinary_post | done | apply quiet_refused]. }
  intros _ s3 (Hq3 & b & ar & bin & Hb & Har & Hbin & Hs3). assert (b = tarball) as -> by (by apply (same_file _ _ _ _ Hb)).
  apply (post_bind _ _ _ (fun _ s' => s' = s3)). { apply post_guard; [by apply quiet_refused | done]. }
  intros _ ? ->. assert (Hv : verified asset bin) by (by exists tarball, sums, ar).
  eapply post_bind; [by apply (replaceBinary_post _ bin)|]. intros _ s4 (Hsafe & Hexe & Hnew).
  split_and!; [done..|]. by exists bin.
Qed.

(** *** The clean-up of the temporary directory *)

Lemma RemoveAll_other fs p : fst p <> T -> RemoveAll T fs !! p = fs !! p.
Proof.
  intros Hp. unfold RemoveAll. destruct (fs !! p) as [b|] eqn:Hb.
  - apply map_lookup_filter_Some. by split; [|left].
  - apply map_lookup_filter_None. by left.
Qed.

Lemma RemoveAll_dir fs n : uo_kept o = [] -> RemoveAll T fs !! (T, n) = None.
Proof.
  intros Hk. unfold RemoveAll. apply map_lookup_filter_None. right. intros b _ [Hne|Hin]; [done|].
  rewrite Hk in Hin. by apply elem_of_nil in Hin.
Qed.

Lemma defer_post s (m : M Outcome) (Q : Outcome -> St -> Prop) (E : St -> Prop) (Q' : Outcome -> St -> Prop) (E' : St -> Prop) :
  post m s Q' E' -> (forall a s', Q' a s' -> Q a (mkSt (RemoveAll T (cur s')) (cur s' :: past s'))) ->
  (forall s', E' s' -> E (mkSt (RemoveAll T (cur s')) (cur s' :: past s'))) ->
  post (defer_ (RemoveAll T) m) s Q E.
Proof. unfold post, defer_. intros Hm HQ HE. destruct (m s) as [s' []]; [by apply HQ | by apply HE]. Qed.

Lemma safe_RemoveAll s : safe s -> safe (mkSt (RemoveAll T (cur s)) (cur s :: past s)).
Proof.
  intros Hs. apply Forall_cons_2; [|done]. apply Forall_cons in Hs as [[He Hf] _]. split; simpl.
  - by rewrite RemoveAll_other.
  - intros p Hp. rewrite RemoveAll_other by done. by apply Hf.
Qed.

(** What the command leaves on success and otherwise. *)
Definition clean (s : St) : Prop := uo_kept o = [] -> forall n, cur s !! (T, n) = None.

Lemma deferred_post s : names_apart -> quiet s ->
  post (defer_ (RemoveAll T) (fetch_and_replace asset exe T)) s
    (fun a s' => installed a s' /\ clean s') (fun s' => refused s' /\ clean s').
Proof.
  intros Hna Hq. eapply defer_post; [by apply fetch_and_replace_post|..].
  - intros a s' (Ha & Hs & Hn & bin & Hv & He). split; [split_and!; [done|by apply safe_RemoveAll|..]|].
    + simpl. by rewrite RemoveAll_other.
    + exists bin. simpl. by rewrite RemoveAll_other.
    + intros Hk n. by apply RemoveAll_dir.
  - intros s' [[Hs He] Hn]. split; [split; [split; [by apply safe_RemoveAll|]|]|].
    + simpl. by rewrite RemoveAll_other.
    + intros Hr. specialize (Hn Hr). unfold no_new in *. simpl. by rewrite RemoveAll_other.
    + intros Hk n. by apply RemoveAll_dir.
Qed.
End run.

Lemma pick_assets_tarball w c l a : tarballName (foldl (pick_asset w c) a l) = tarballName a.
Proof.
  revert a. induction l as [|[n u] l IH]; intros a; [done|]. simpl. rewrite IH. by repeat case_decide.
Qed.

Lemma resolve_name a : resolveReleaseAsset = Ok a -> exists x, tarballName a = "opencom_" +:+ x.
Proof.
  unfold resolveReleaseAsset. intros H. destruct API as [[status [pl|]]|]; [|by case_match|done].
  destruct (negb _); [done|]. case_decide; [done|]. apply result_bind_inv in H as ([[ost arch] ext] & _ & H).
  case_decide; [done|]. case_decide; [done|]. injection H as <-. rewrite pick_assets_tarball. by eexists.
Qed.

(** ** The command installs the verified binary or nothing *)

Section command.
Context (force : bool) (fs : UFS) (exe : Path) (T : string).
Context (Hexe : forall e, uo_Executable o ≫= uo_EvalSymlinks o = Some e -> e = exe).
Context (HT : forall d, uo_MkdirTemp o = Some d -> d = T).
Context (Hfresh : forall n, fs !! (T, n) = None).
Context (Hout : fst exe <> T).

Definition done_ (a : Outcome) (s : St) : Prop :=
  (a = AlreadyLatest /\ s = mkSt fs []) \/
  exists asset, resolveReleaseAsset = Ok asset /\ installed fs T asset exe a s /\ clean T s.
Definition failed (s : St) : Prop :=
  s = mkSt fs [] \/ exists asset, resolveReleaseAsset = Ok asset /\ refused fs T asset exe s /\ clean T s.

Lemma runUpgrade_post : post (runUpgrade force) (mkSt fs []) done_ failed.
Proof.
  set (s0 := mkSt fs []). assert (H0 : failed s0) by by left. unfold runUpgrade. case_decide; [done|].
  apply (post_bind _ _ _ (fun e s' => s' = s0 /\ uo_Executable o = Some e)).
  { apply post_lift; [done|]. intros e He%of_option_Ok. done. }
  intros e0 ? [-> He0]. apply (post_bind _ _ _ (fun e s' => s' = s0 /\ e = exe)).
  { apply post_lift; [done|]. intros e He%of_option_Ok. split; [done|]. apply Hexe. by rewrite He0. }
  intros ? ? [-> ->]. apply (post_bind _ _ _ (fun a s' => s' = s0 /\ resolveReleaseAsset = Ok a)).
  { apply post_lift; [done|]. intros a Ha. done. }
  intros a ? [-> Ha]. case_decide; [by left|].
  apply (post_bind _ _ _ (fun d s' => s' = s0 /\ d = T)).
  { apply post_lift; [done|]. intros d Hd%of_option_Ok. split; [done | by apply HT]. }
  intros ? ? [-> ->]. eapply post_weaken; [apply (deferred_post fs T a exe Hout)|..].
  - destruct (resolve_name a Ha) as (x & Hx). unfold names_apart. by rewrite Hx.
  - by apply Forall_cons_2.
  - intros o' s' Ho. right. by exists a.
  - intros s' Ho. right. by exists a.
Qed.

(** C22: The executable is replaced by the verified binary or not at all. In
    every state the file system goes through, a crash included, the executable
    is the old one or the binary in an archive that was downloaded completely
    and whose SHA-256 the downloaded checksums list under its name, and no file
    but the executable, the one beside it and those of the temporary directory
    differs. Installed is reported exactly when the verified binary is in place;
    otherwise the executable is the old one. Nothing temporary is left, unless
    the system refuses to remove it. *)
Theorem upgrade_installs_verified :
  let '(s, r) := runUpgrade force (mkSt fs []) in
  Forall (fun f => (f !! exe = fs !! exe \/
                    exists a bin, resolveReleaseAsset = Ok a /\ verified a bin /\ f !! exe = Some bin) /\
                   forall p, fst p <> T -> p <> exe -> p <> new_path exe -> f !! p = fs !! p) (states s) /\
  match r with
  | Ok (Installed tag) =>
      cur s !! new_path exe = None /\
      exists a bin, resolveReleaseAsset = Ok a /\ ra_tag a = tag /\ verified a bin /\ cur s !! exe = Some bin
  | _ =>
      cur s !! exe = fs !! exe /\
      (uo_Remove o = true -> cur s !! new_path exe = None \/ cur s !! new_path exe = fs !! new_path exe)
  end /\
  (uo_kept o = [] -> forall n, cur s !! (T, n) = None).
Proof.
  assert (Hsafe : forall a s, resolveReleaseAsset = Ok a -> safe fs T a exe s -> Forall (fun f => (f !! exe = fs !! exe \/
    exists a bin, resolveReleaseAsset = Ok a /\ verified a bin /\ f !! exe = Some bin) /\
    forall p, fst p <> T -> p <> exe -> p <> new_path exe -> f !! p = fs !! p) (states s)).
  { intros a s Ha Hs. eapply Forall_impl; [exact Hs|]. intros f [[He|(bin & Hv & He)] Hf]; split; auto. right. by exists a, bin. }
  pose proof runUpgrade_post as Hp. unfold post in Hp. destruct (runUpgrade force _) as [s [out|e]].
  - destruct Hp as [[-> ->]|(a & Ha & (-> & Hs & Hn & bin & Hv & He) & Hc)].
    + split_and!; auto. by apply Forall_cons_2; [split; [left|]|].
    + split; [by apply (Hsafe a)|]. split; [|done]. split; [done|]. by exists a, bin.
  - destruct Hp as [->|(a & Ha & [[Hs He] Hn] & Hc)].
    + split_and!; auto. by apply Forall_cons_2; [split; [left|]|].
    + split; [by apply (Hsafe a)|]. split_and!; auto.
Qed.

(** *** Windows *)

Lemma platform_zip p : GOOS = "windows" -> platformAssetParts = Ok p -> exists arch, p = ("Windows", arch, "zip").
Proof.
  unfold platformAssetParts. intros ->. rewrite !(decide_False (P := "windows" = _)), (decide_True (P := "windows" = "windows")) by done.
  rewrite result_bind_Ok. intros (arch & _ & H)%result_bind_inv. exists arch. by injection H as <-.
Qed.

Lemma windows_zip a : GOOS = "windows" -> resolveReleaseAsset = Ok a -> exists x, tarballName a = x +:+ ".zip".
Proof.
  unfold resolveReleaseAsset. intros Hw H. destruct API as [[status [pl|]]|]; [|by case_match|done].
  destruct (negb _); [done|]. case_decide; [done|]. apply result_bind_inv in H as (p & Hp & H).
  destruct (platform_zip p Hw Hp) as (arch & ->).
  case_decide; [done|]. case_decide; [done|]. injection H as <-. rewrite pick_assets_tarball. cbn [tarballName].
  set (v := TrimPrefix _ _). exists ("opencom_" +:+ v +:+ "_Windows_" +:+ arch). rewrite !app_assoc_str. done.
Qed.

(** On Windows the command never installs anything. Its archive is the
    .zip of the release, which [extractBinary] reads as a gzipped tar: given
    that gzip and zip files begin with their magic numbers, no network and no
    operating system makes it succeed, and the executable stays. *)
Theorem windows_never_upgrades :
  GOOS = "windows" ->
  (forall b ar, gunzip b = Some ar -> take 2 b = [31; 139]%Z) ->
  (forall i url a x r, resolveReleaseAsset = Ok a -> tarballName a = x +:+ ".zip" -> url = tarballURL a ->
     GET i url = Some r -> take 2 (rs_body r) = [80; 75]%Z) ->
  let '(s, r) := runUpgrade force (mkSt fs []) in
  cur s !! exe = fs !! exe /\ forall tag, r <> Ok (Installed tag).
Proof.
  intros Hw Hgz Hzip. pose proof runUpgrade_post as Hp. unfold post in Hp. destruct (runUpgrade force _) as [s [out|e]].
  - destruct Hp as [[-> ->]|(a & Ha & (-> & _ & _ & bin & (tb & sums & ar & Hg & _ & _ & Har & _) & _) & _)]; [done|].
    destruct (windows_zip a Hw Ha) as (x & Hx). pose proof (Hzip _ _ _ _ _ Ha Hx eq_refl Hg) as H1. cbn in H1.
    rewrite (Hgz _ _ Har) in H1. discriminate.
  - split; [|done]. by destruct Hp as [->|(a & _ & [[_ He] _] & _)].
Qed.

(** *** When nothing fails *)

Definition os_works : Prop :=
  (forall p, uo_Open o p = true /\ uo_Create o p = true /\ uo_Write o p = None /\ uo_Close o p = true) /\
  uo_Chmod o = true /\ uo_Rename o = true.

(** [m] succeeds. *)
Definition runs {A : Type} (m : M A) (s : St) (Q : A -> St -> Prop) : Prop := post m s Q (fun _ => False).

Lemma runs_guard b e s (Q : unit -> St -> Prop) : b = true -> Q () s -> runs (guard_ b e) s Q.
Proof. by intros -> Hq. Qed.

Lemma runs_open p s b (Q : bytes -> St -> Prop) : os_works -> cur s !! p = Some b -> Q b s -> runs (open_ p) s Q.
Proof.
  intros [Hp _] Hb Hq. unfold open_. apply (post_bind _ _ _ (fun _ s' => s' = s)); [apply runs_guard; [by apply Hp|done]|].
  intros _ ? ->. apply (post_bind _ _ _ (fun c s' => s' = s /\ c = Some b)); [done|]. by intros ? ? [-> ->].
Qed.

Lemma runs_create_copy p b s : os_works ->
  runs (create_copy p b true) s (fun _ s' => cur s' !! p = Some b /\ only p s s').
Proof.
  intros [Hp _]. destruct (Hp p) as (_ & Hc & Hw & _). unfold runs, post, create_copy, guard_. rewrite Hc, Hw. cbn.
  split; [apply lookup_insert_eq|]. intros q Hne. simpl. by rewrite !lookup_insert_ne.
Qed.

Lemma runs_download i url dest b s : os_works -> GET i url = Some (mkResponse 200 b true) ->
  runs (download i url dest) s (fun _ s' => cur s' !! dest = Some b /\ only dest s s').
Proof. intros Hw Hg. unfold download. rewrite Hg. simpl. by apply runs_create_copy. Qed.

Lemma runs_replaceBinary src b s : os_works -> cur s !! src = Some b -> runs (replaceBinary src exe) s (fun _ _ => True).
Proof.
  intros Hw Hb. unfold replaceBinary. eapply post_bind; [by apply (runs_open src s b (fun b' s' => b' = b)) |].
  intros ? s1 ->. destruct Hw as [Hp [_ Hr]]. destruct (Hp (new_path exe)) as (_ & Hc & Hwr & Hcl).
  unfold post, on_error, guard_. rewrite Hc, Hwr, Hcl, Hr. done.
Qed.

Lemma runs_fetch a bin s : os_works -> names_apart a -> verified a bin ->
  runs (fetch_and_replace a exe T) s (fun out _ => out = Installed (ra_tag a)).
Proof.
  intros Hw Hna (tb & sums & ar & Hg1 & Hg2 & Hsum & Har & Hbin). unfold fetch_and_replace.
  eapply post_bind; [by apply runs_download|]. intros _ s1 [Ht1 _]. simpl.
  eapply post_bind; [by apply runs_download|]. intros _ s2 [Hs2 Ho2].
  assert (Ht2 : cur s2 !! (T, tarballName a) = Some tb) by (rewrite Ho2; [done | intros [= Heq]; by apply Hna]).
  apply (post_bind _ _ _ (fun want s' => s' = s2 /\ want = Identity.hex_encode (sha256 tb))).
  { unfold lookupChecksum. eapply post_bind; [by apply (runs_open _ _ sums (fun b s' => b = sums /\ s' = s2))|].
    intros ? ? [-> ->]. rewrite Hsum. done. }
  intros ? ? [-> ->]. apply (post_bind _ _ _ (fun got s' => s' = s2 /\ got = Identity.hex_encode (sha256 tb))).
  { unfold sha256File. eapply post_bind; [by apply (runs_open _ _ tb (fun b s' => b = tb /\ s' = s2))|].
    by intros ? ? [-> ->]. }
  intros ? ? [-> ->]. apply (post_bind _ _ _ (fun _ s' => s' = s2)); [apply runs_guard; [|done]; by apply bool_decide_eq_true|].
  intros _ ? ->. apply (post_bind _ _ _ (fun _ s' => cur s' !! (T, binName) = Some bin)).
  { unfold extractBinary. eapply post_bind; [by apply (runs_open _ _ tb (fun b s' => b = tb))|]. intros ? s' ->.
    rewrite Har, Hbin. eapply post_bind; [by apply runs_create_copy|]. intros _ s3 [Hs3 _].
    apply runs_guard; [|done]. destruct Hw as [Hp _]. by apply (Hp (T, binName)). }
  intros _ s3 Hs3. apply (post_bind _ _ _ (fun _ s' => s' = s3)); [apply runs_guard; [by apply Hw|done]|].
  intros _ ? ->. eapply post_bind; [by eapply runs_replaceBinary|]. done.
Qed.

(** When the system and the network work and the release is newer, or the
    upgrade is forced, the command reports the release installed. *)
Lemma upgrade_completes e a bin :
  os_works -> uo_Executable o = Some e -> uo_EvalSymlinks o e = Some exe -> uo_MkdirTemp o = Some T ->
  resolveReleaseAsset = Ok a -> verified a bin ->
  force = true \/ (Version_ <> "dev" /\ TrimPrefix (ra_tag a) "v" <> TrimPrefix Version_ "v") ->
  (runUpgrade force (mkSt fs [])).2 = Ok (Installed (ra_tag a)).
Proof.
  intros Hw He Hs Hd Ha Hv Hf. assert (Hna : names_apart a) by (destruct (resolve_name a Ha) as (x & Hx); unfold names_apart; by rewrite Hx).
  assert (Hr : runs (runUpgrade force) (mkSt fs []) (fun out _ => out = Installed (ra_tag a))).
  2:{ unfold runs, post in Hr. destruct (runUpgrade force _) as [s' []]; [by rewrite Hr | done]. }
  unfold runUpgrade. rewrite decide_False by (intros [? ?]; destruct Hf as [|[? ?]]; congruence).
  apply (post_bind _ _ _ (fun x _ => x = e)); [by rewrite He|]. intros ? s1 ->.
  apply (post_bind _ _ _ (fun x _ => x = exe)); [by rewrite Hs|]. intros ? s2 ->.
  apply (post_bind _ _ _ (fun x _ => x = a)); [by rewrite Ha|]. intros ? s3 ->.
  rewrite decide_False by (intros [? ?]; destruct Hf as [|[? ?]]; congruence).
  apply (post_bind _ _ _ (fun x _ => x = T)); [by rewrite Hd|]. intros ? s4 ->.
  eapply defer_post; [by apply (runs_fetch a bin)|done..].
Qed.
End command.
End upgrade.

(** ** Witnesses *)

Definition demo_up_os : UpgradeOs :=
  mkUpgradeOs (Some ("/usr/bin", "opencom")) (fun p => Some p) (Some "/tmp/x") (fun _ => true) (fun _ => true)
    (fun _ => None) (fun _ => true) true true true [].
Definition demo_payload (ext : string) : Payload :=
  mkPayload "v0.2.0" [("opencom_0.2.0_Linux_x86_64.tar.gz", "u1"); ("opencom_0.2.0_Windows_x86_64.zip", "u2"); ("checksums.txt", "u3")].
(** The archive's bytes are [31; 139; 7]; its digest is [171]. *)
Definition demo_sums : bytes := Identity.str_bytes ("AB  opencom_0.2.0_Linux_x86_64.tar.gz" +:+ String "010" "").
Definition demo_GET (i : nat) (url : string) : option Response :=
  if String.eqb url "u1" then Some (mkResponse 200 [31; 139; 7]%Z true)
  else if String.eqb url "u2" then Some (mkResponse 200 [80; 75]%Z true)
  else Some (mkResponse 200 demo_sums true).
Definition demo_gunzip (b : bytes) : option Archive :=
  if decide (take 2 b = [31; 139]%Z) then Some (mkArchive [("opencom_0.2.0/README", [1]%Z, true); ("opencom_0.2.0/opencom", [42]%Z, true)] true) else None.
Definition demo_installed : gmap Path bytes := {[ ("/usr/bin", "opencom") := [7]%Z ]}.
Definition demo_upgrade (goos : string) : St * result UpgradeErr Outcome :=
  runUpgrade "0.1.0" goos "amd64" (fun s => s) demo_up_os (Some (200%Z, Some (demo_payload ""))) demo_GET
    (fun _ => [171]%Z) demo_gunzip false (mkSt demo_installed []).

Lemma upgrade_installs_verified_witness :
  let '(s, r) := demo_upgrade "linux" in r = Ok (Installed "v0.2.0") /\ exists a bin, ra_tag a = "v0.2.0" /\ cur s !! ("/usr/bin", "opencom") = Some bin.
Proof.
  pose proof (upgrade_installs_verified "0.1.0" "linux" "amd64" (fun s => s) demo_up_os (Some (200%Z, Some (demo_payload ""))) demo_GET
    (fun _ => [171]%Z) demo_gunzip false demo_installed ("/usr/bin", "opencom") "/tmp/x") as H.
  change (runUpgrade _ _ _ _ _ _ _ _ _ _ _) with (demo_upgrade "linux") in H.
  destruct (demo_upgrade "linux") as [s r] eqn:E. assert (Hr : r = Ok (Installed "v0.2.0")).
  { transitivity (demo_upgrade "linux").2; [by rewrite E | by vm_compute]. }
  destruct H as (_ & H & _).
  - intros e [= <-]. done.
  - by intros d [= <-].
  - intros n. by apply lookup_singleton_ne.
  - discriminate.
  - rewrite Hr in H. split; [done|]. destruct H as (_ & a & bin & _ & Ht & _ & He). exists a, bin. split; [exact Ht | exact He].
Defined.

Lemma windows_never_upgrades_witness :
  let '(s, r) := demo_upgrade "windows" in cur s !! ("/usr/bin", "opencom") = Some [7]%Z /\ r <> Ok (Installed "v0.2.0").
Proof.
  pose proof (windows_never_upgrades "0.1.0" "windows" "amd64" (fun s => s) demo_up_os (Some (200%Z, Some (demo_payload ""))) demo_GET
    (fun _ => [171]%Z) demo_gunzip false demo_installed ("/usr/bin", "opencom") "/tmp/x") as H.
  change (runUpgrade _ _ _ _ _ _ _ _ _ _ _) with (demo_upgrade "windows") in H.
  destruct (demo_upgrade "windows") as [s r]. destruct H as [He Hr].
  - intros e [= <-]. done.
  - by intros d [= <-].
  - discriminate.
  - reflexivity.
  - intros b ar. unfold demo_gunzip. by case_decide.
  - intros i url a x r0 Ha _ ->. vm_compute in Ha. injection Ha as <-. intros [= <-]. reflexivity.
  - split; [by rewrite He | apply Hr].
Defined.
