(* ===== verification/IpcTransport.v ===== *)
(** * The IPC endpoint ([internal/ipc/transport_unix.go], [internal/ipc/transport.go])

    The daemon's Unix socket: the path, the sockets ever bound to it and the
    processes that run [Listen], one system call a step. A socket is bound
    before it listens, a path can be removed under a live listener, and Go's
    listener unlinks its path by name when it is closed. *)
From S2P Require Import Prelude.
#[local] Open Scope list_scope.

Inductive ListenErr := EInUse | ERemove | EListen | EChmod.

#[export] Instance ListenErr_eq_dec : EqDecision ListenErr.
Proof. solve_decision. Defined.

(** Where a process stands; the number is its socket. *)
Inductive Pc :=
| PIdle                      (* before [Listen] *)
| PRemove | PBind | PListen (i : nat) | PChmod (i : nat)
| PListening (i : nat)       (* [Listen] returned the listener *)
| PUnlinked (i : nat)        (* in the listener's [Close], after the unlink *)
| PFailed (e : ListenErr)    (* [Listen] returned the error *)
| PStopped.

#[export] Instance Pc_eq_dec : EqDecision Pc.
Proof. solve_decision. Defined.

(** The socket the path names, whether each socket accepts connections, and the
    processes. *)
Record World := mkWorld { path : option nat; socks : list bool; procs : gmap nat Pc }.

Definition pc (p : nat) (w : World) : Pc := default PIdle (procs w !! p).
Definition set_pc (p : nat) (c : Pc) (w : World) : World := mkWorld (path w) (socks w) (<[p := c]> (procs w)).
Definition set_path (o : option nat) (w : World) : World := mkWorld o (socks w) (procs w).
Definition set_sock (i : nat) (b : bool) (w : World) : World := mkWorld (path w) (<[i := b]> (socks w)) (procs w).

Definition live (w : World) (i : nat) : Prop := socks w !! i = Some true.
#[export] Instance live_dec w i : Decision (live w i).
Proof. unfold live. apply _. Defined.

(** [dialTransport] succeeds, and so [PathReachable]. *)
Definition PathReachable (w : World) : bool :=
  match path w with Some i => bool_decide (live w i) | None => false end.

(** The listener's [Close]: Go unlinks the path by name, then closes the socket. *)
Definition unlink (p : nat) (w : World) : World :=
  match pc p w with
  | PListening i => set_pc p (PUnlinked i) (set_path None w)
  | _ => w
  end.
Definition close (p : nat) (w : World) : World :=
  match pc p w with
  | PUnlinked i => set_pc p PStopped (set_sock i false w)
  | _ => w
  end.

(** One system call of [Listen]: where it leads and what it does; [ok] says
    whether it succeeds where it can fail, and whether a dial is answered in
    time. *)
Definition call (c : Pc) (ok : bool) (w : World) : Pc * World :=
  match c with
  | PIdle => (if ok && PathReachable w then PFailed EInUse else PRemove, w)
  | PRemove =>
      match path w with
      | None => (PBind, w)
      | Some _ => if ok then (PBind, set_path None w) else (PFailed ERemove, w)
      end
  | PBind =>
      match path w with
      | None =>
          if ok then (PListen (length (socks w)), mkWorld (Some (length (socks w))) (socks w ++ [false]) (procs w))
          else (PFailed EListen, w)
      | Some _ => (PFailed EListen, w)
      end
  | PListen i => if ok then (PChmod i, set_sock i true w) else (PFailed EListen, w)
  | PChmod i =>
      if ok && bool_decide (is_Some (path w)) then (PListening i, w)
      else (PFailed EChmod, set_sock i false (set_path None w))
  | _ => (c, w)
  end.
Definition lstep (p : nat) (ok : bool) (w : World) : World := let '(c, w') := call (pc p w) ok w in set_pc p c w'.

(** [Listen] run to its end; the dial is answered if somebody listens. *)
Record Sys := mkSys { sy_remove : bool; sy_bind : bool; sy_listen : bool; sy_chmod : bool }.
Definition Listen (p : nat) (s : Sys) (w : World) : World :=
  lstep p (sy_chmod s) (lstep p (sy_listen s) (lstep p (sy_bind s) (lstep p (sy_remove s) (lstep p true w)))).

(** A process dies; its socket file stays. *)
Definition crash (p : nat) (w : World) : World :=
  match pc p w with
  | PListen i | PChmod i | PListening i | PUnlinked i => set_pc p PStopped (set_sock i false w)
  | _ => set_pc p PStopped w
  end.

Inductive op := OListen (p : nat) (s : Sys) | OUnlink (p : nat) | OClose (p : nat) | OCrash (p : nat).
Definition do_op (o : op) (w : World) : World :=
  match o with
  | OListen p s => Listen p s w
  | OUnlink p => unlink p w
  | OClose p => close p w
  | OCrash p => crash p w
  end.
Definition runs (os : list op) (w : World) : World := foldl (fun w o => do_op o w) w os.

(** Nothing on the path, or the socket file a dead process left. *)
Definition fresh (stale : bool) : World := if stale then mkWorld (Some 0) [false] ∅ else mkWorld None [] ∅.

(** Interleaved runs: one system call of a process at a time. *)
Definition schedule (l : list nat) (w : World) : World := foldl (fun w p => lstep p true w) w l.

(** ** Basic facts *)

Lemma pc_set_eq p c w : pc p (set_pc p c w) = c.
Proof. unfold pc, set_pc. simpl. by rewrite lookup_insert_eq. Qed.

Lemma pc_set_ne p q c w : p <> q -> pc p (set_pc q c w) = pc p w.
Proof. intros Hne. unfold pc, set_pc. simpl. by rewrite lookup_insert_ne. Qed.

(** ** Listens that do not overlap *)

(** Between operations no process is inside [Listen]; what listens is what the
    path names. *)
Definition settled (c : Pc) : Prop :=
  match c with PIdle | PListening _ | PUnlinked _ | PFailed _ | PStopped => True | _ => False end.

Record inv_of (o : option (nat * nat)) (w : World) : Prop := {
  io_settled : forall p, settled (pc p w);
  io_listening : forall q j, pc q w = PListening j <-> o = Some (q, j);
  io_path : match o with
            | Some (p, i) => path w = Some i /\ live w i
            | None => forall i, path w = Some i -> ~ live w i
            end;
  io_bound : forall i, path w = Some i -> i < length (socks w);
  io_unl : forall q j, pc q w = PUnlinked j -> path w <> Some j /\ j < length (socks w) }.
Definition inv (w : World) : Prop := exists o, inv_of o w.

Lemma inv_reachable o w : inv_of o w -> PathReachable w = bool_decide (is_Some o).
Proof.
  intros [_ _ Hp _ _]. unfold PathReachable. destruct o as [[p i]|].
  - destruct Hp as [-> Hl]. by rewrite !bool_decide_true.
  - destruct (path w) as [i|]; [|done]. rewrite bool_decide_false by by apply Hp. done.
Qed.

Lemma fresh_inv stale : inv (fresh stale).
Proof. exists None. destruct stale; split; try done; simpl; intros i [= <-]; [unfold live; simpl; congruence | lia]. Qed.

(** A process that does not listen takes a state without a socket. *)
Lemma inv_set_pc o p c w :
  inv_of o w -> (forall i, pc p w <> PListening i) -> settled c -> (forall i, c <> PListening i /\ c <> PUnlinked i) ->
  inv_of o (set_pc p c w).
Proof.
  intros [Hs Hl Hp Hb Hu] Hnl Hc Hn. split; try done.
  - intros q. destruct (decide (q = p)) as [->|]; [by rewrite pc_set_eq | by rewrite pc_set_ne].
  - intros q j. destruct (decide (q = p)) as [->|]; [|by rewrite pc_set_ne]. rewrite pc_set_eq, <- Hl.
    split; intros H; [by apply Hn in H | by apply Hnl in H].
  - intros q j. destruct (decide (q = p)) as [->|]; [|rewrite pc_set_ne by done; apply Hu]. rewrite pc_set_eq. intros H. by apply Hn in H.
Qed.

(** With nobody listening, a path to nowhere or to a dead socket. *)
Lemma inv_dead_path w o' ss : inv_of None w -> (forall i, o' = Some i -> (socks w ++ ss) !! i = Some false /\ (path w = Some i \/ length (socks w) <= i)) ->
  inv_of None (mkWorld o' (socks w ++ ss) (procs w)).
Proof.
  intros [Hs Hl Hp Hb Hu] Ho. split; try done; simpl.
  - intros i Hi. destruct (Ho i Hi) as [Hf _]. unfold live. simpl. congruence.
  - intros i Hi. destruct (Ho i Hi) as [Hf _]. by eapply lookup_lt_Some.
  - intros q j Hq. destruct (Hu q j Hq) as [Hne Hlt]. rewrite length_app. split; [|lia].
    intros Hj. destruct (Ho j Hj) as [_ [|]]; [done | lia].
Qed.

(** [Listen] is its calls, one after the other. *)
Lemma set_pc_twice p c c' w : set_pc p c (set_pc p c' w) = set_pc p c w.
Proof. unfold set_pc. simpl. by rewrite insert_insert_eq. Qed.

Lemma lstep_set p ok c w : lstep p ok (set_pc p c w) = let '(c', w') := call c ok w in set_pc p c' w'.
Proof.
  unfold lstep. rewrite pc_set_eq.
  assert (H : call c ok (set_pc p c w) = let '(c', w') := call c ok w in (c', set_pc p c w')).
  { destruct c, w as [[?|] ss ps], ok; try reflexivity. }
  rewrite H. destruct (call c ok w) as [c' w']. apply set_pc_twice.
Qed.

Definition calls (oks : list bool) (c : Pc) (w : World) : Pc * World :=
  foldl (fun '(c, w) ok => call c ok w) (c, w) oks.

Lemma Listen_calls p s w :
  Listen p s w = let '(c, w') := calls [true; sy_remove s; sy_bind s; sy_listen s; sy_chmod s] (pc p w) w in set_pc p c w'.
Proof.
  unfold Listen, calls. simpl. unfold lstep at 5. destruct (call (pc p w) true w) as [c1 w1]. rewrite lstep_set.
  destruct (call c1 _ w1) as [c2 w2]. rewrite lstep_set. destruct (call c2 _ w2) as [c3 w3]. rewrite lstep_set.
  destruct (call c3 _ w3) as [c4 w4]. rewrite lstep_set. by destruct (call c4 _ w4).
Qed.

(** The ways [Listen] ends when nobody answers. *)
Inductive ended (s : Sys) (w : World) : Pc * World -> Prop :=
| en_remove : path w <> None -> sy_remove s = false -> ended s w (PFailed ERemove, w)
| en_bind : sy_bind s = false -> ended s w (PFailed EListen, mkWorld None (socks w ++ []) (procs w))
| en_listen : sy_listen s = false ->
    ended s w (PFailed EListen, mkWorld (Some (length (socks w))) (socks w ++ [false]) (procs w))
| en_chmod : sy_chmod s = false -> ended s w (PFailed EChmod, mkWorld None (socks w ++ [false]) (procs w))
| en_ok : ended s w (PListening (length (socks w)), mkWorld (Some (length (socks w))) (socks w ++ [true]) (procs w)).

Lemma insert_last {A} (l : list A) x y : <[length l := y]> (l ++ [x]) = l ++ [y].
Proof. rewrite insert_app_r_alt by lia. by rewrite Nat.sub_diag. Qed.

Lemma calls_unreachable s w :
  PathReachable w = false -> ended s w (calls [true; sy_remove s; sy_bind s; sy_listen s; sy_chmod s] PIdle w).
Proof.
  intros Hr. unfold calls. cbn [foldl]. assert (call PIdle true w = (PRemove, w)) as -> by (simpl; by rewrite Hr).
  assert (Hp : path w <> None /\ sy_remove s = false \/
    call PRemove (sy_remove s) w = (PBind, mkWorld None (socks w) (procs w))).
  { destruct w as [[i|] ss ps]; simpl; [|by right]. destruct (sy_remove s); [by right | by left]. }
  destruct Hp as [[Hp Hs]| ->].
  - destruct w as [[i|] ss ps]; [|done]. simpl. rewrite Hs. simpl. by apply en_remove.
  - simpl. destruct (sy_bind s) eqn:Hb; simpl; [|rewrite <- (app_nil_r (socks w)) at 1; by apply en_bind].
    destruct (sy_listen s) eqn:Hl; simpl; [|by apply en_listen]. unfold set_sock. simpl. rewrite insert_last.
    destruct (sy_chmod s) eqn:Hc; simpl; [apply en_ok|]. unfold set_sock. simpl. rewrite insert_last. by apply en_chmod.
Qed.

Lemma calls_done oks c w : (c <> PIdle /\ settled c) -> calls oks c w = (c, w).
Proof. intros [Hi Hs]. unfold calls. induction oks as [|ok oks IH]; [done|]. simpl. by destruct c. Qed.

Lemma inv_ext o w w' :
  (forall q, pc q w' = pc q w) -> path w' = path w -> socks w' = socks w -> inv_of o w -> inv_of o w'.
Proof.
  intros Hpc Hp Hs [H1 H2 H3 H4 H5]. split.
  - intros q. by rewrite Hpc.
  - intros q j. by rewrite Hpc.
  - unfold live. by rewrite Hp, Hs.
  - intros i. rewrite Hp, Hs. apply H4.
  - intros q j. rewrite Hpc, Hp, Hs. apply H5.
Qed.

Lemma Listen_inv o p s w : inv_of o w -> inv (Listen p s w).
Proof.
  intros Hinv. rewrite Listen_calls. destruct (decide (pc p w = PIdle)) as [Hp|Hp].
  2:{ rewrite calls_done by (split; [done | apply Hinv]). exists o. apply (inv_ext o w); try done.
      intros q. destruct (decide (q = p)) as [->|]; [by rewrite pc_set_eq | by rewrite pc_set_ne]. }
  rewrite Hp. assert (Hnl : forall i, pc p w <> PListening i) by (intros i; by rewrite Hp).
  destruct (PathReachable w) eqn:Hr.
  - assert (calls [true; sy_remove s; sy_bind s; sy_listen s; sy_chmod s] PIdle w = (PFailed EInUse, w)) as ->.
    { unfold calls. cbn [foldl]. simpl. by rewrite Hr. }
    exists o. by apply inv_set_pc.
  - pose proof (inv_reachable o w Hinv) as Ho. rewrite Hr in Ho. symmetry in Ho. apply bool_decide_eq_false in Ho.
    assert (o = None) as -> by (destruct o; [by destruct Ho | done]).
    destruct (calls_unreachable s w Hr); [exists None..|].
    + by apply inv_set_pc.
    + apply inv_set_pc; try done. by apply inv_dead_path.
    + apply inv_set_pc; try done. apply inv_dead_path; [done|]. intros i [= <-]. split; [|by right].
      by apply list_lookup_middle.
    + apply inv_set_pc; try done. by apply inv_dead_path.
    + exists (Some (p, length (socks w))). split; simpl.
      * intros q. destruct (decide (q = p)) as [->|]; [by rewrite pc_set_eq | rewrite pc_set_ne by done; apply Hinv].
      * intros q j. destruct (decide (q = p)) as [->|]; [rewrite pc_set_eq; naive_solver|]. rewrite pc_set_ne by done.
        split; [intros Hq; by apply Hinv in Hq | congruence].
      * split; [done|]. by apply list_lookup_middle.
      * intros i [= <-]. rewrite length_app. simpl. lia.
      * intros q j. destruct (decide (q = p)) as [->|]; [by rewrite pc_set_eq|]. rewrite pc_set_ne by done.
        intros Hq. apply Hinv in Hq as [Hne Hlt]. rewrite length_app. split; [intros [= <-]; lia | lia].
Qed.

(** The listening process lets go of its path. *)
Lemma unlink_inv o p w : inv_of o w -> inv (unlink p w).
Proof.
  intros Hinv. unfold unlink. destruct (pc p w) as [| | | | |i| | |] eqn:Hp; try (by exists o). exists None.
  pose proof (proj1 (io_listening _ _ Hinv p i) Hp) as ->. pose proof (io_path _ _ Hinv) as [Hpath _]. split; simpl.
  - intros q. destruct (decide (q = p)) as [->|]; [by rewrite pc_set_eq | rewrite pc_set_ne by done; apply Hinv].
  - intros q j. destruct (decide (q = p)) as [->|]; [by rewrite pc_set_eq|]. rewrite pc_set_ne by done.
    split; [|done]. intros Hq. apply (io_listening _ _ Hinv) in Hq. congruence.
  - done.
  - done.
  - intros q j H. split; [done|]. destruct (decide (q = p)) as [->|].
    + rewrite pc_set_eq in H. injection H as <-. by apply (io_bound _ _ Hinv).
    + rewrite pc_set_ne in H by done. by apply (io_unl _ _ Hinv q).
Qed.

(** A socket other than the path's is closed by a process that does not listen. *)
Lemma stop_inv o p i w :
  inv_of o w -> path w <> Some i -> (forall j, pc p w <> PListening j) -> inv_of o (set_pc p PStopped (set_sock i false w)).
Proof.
  intros Hinv Hne Hnl. apply inv_set_pc; try done. destruct Hinv as [H1 H2 H3 H4 H5]. split; try done.
  - destruct o as [[q j]|].
    + destruct H3 as [Hp Hl]. split; [done|]. unfold live, set_sock. simpl. rewrite list_lookup_insert_ne by congruence. done.
    + intros j Hj. unfold live, set_sock. simpl in *. rewrite list_lookup_insert_ne by congruence. by apply H3.
  - intros j Hj. simpl. rewrite length_insert. by apply H4.
  - intros q j Hq. simpl. rewrite length_insert. by apply (H5 q).
Qed.

Lemma crash_inv o p w : inv_of o w -> inv (crash p w).
Proof.
  intros Hinv. unfold crash. destruct (pc p w) as [| | |i|i|i|i| |] eqn:Hp.
  6:{ exists None. pose proof (proj1 (io_listening _ _ Hinv p i) Hp) as ->. destruct Hinv as [H1 H2 [Hpath Hl] H4 H5]. split; simpl.
      - intros q. destruct (decide (q = p)) as [->|]; [by rewrite pc_set_eq | rewrite pc_set_ne by done; apply H1].
      - intros q j. destruct (decide (q = p)) as [->|]; [by rewrite pc_set_eq|]. rewrite pc_set_ne by done.
        split; [|done]. intros Hq. apply H2 in Hq. congruence.
      - intros j Hj. assert (j = i) as -> by congruence. unfold live. simpl.
        rewrite list_lookup_insert_eq; [done | by eapply lookup_lt_Some].
      - intros j Hj. rewrite length_insert. by apply H4.
      - intros q j. destruct (decide (q = p)) as [->|]; [by rewrite pc_set_eq|]. rewrite pc_set_ne, length_insert by done. apply H5. }
  6:{ exists o. apply stop_inv; [done| |by rewrite Hp]. by apply (io_unl _ _ Hinv p i). }
  all: try (exists o; apply inv_set_pc; try done; intros j; by rewrite Hp).
  all: pose proof (io_settled _ _ Hinv p) as Hs; by rewrite Hp in Hs.
Qed.

Lemma close_inv o p w : inv_of o w -> inv (close p w).
Proof.
  intros Hinv. unfold close. destruct (pc p w) as [| | | | | |i| |] eqn:Hp; try (by exists o). exists o.
  apply stop_inv; [done| |by rewrite Hp]. by apply (io_unl _ _ Hinv p i).
Qed.

Lemma runs_inv os w : inv w -> inv (runs os w).
Proof.
  revert w. induction os as [|o os IH]; intros w Hw; [done|]. simpl. apply IH. destruct Hw as [l Hw].
  destruct o; simpl; [by eapply Listen_inv | by eapply unlink_inv | by eapply close_inv | by eapply crash_inv].
Qed.

(** C16: One daemon at a time, when their starts do not overlap. Whatever calls
    of [Listen], orderly ends and crashes come before, from no socket or a stale
    one: at most one process holds the listener; it holds one exactly while a
    dial of the path succeeds; another process's [Listen] is then refused as in
    use and changes nothing else; and when no dial succeeds, a stale socket is
    no obstacle, [Listen] succeeds if the system does. *)
Theorem listen_exclusive stale os :
  let w := runs os (fresh stale) in
  (forall p q i j, pc p w = PListening i -> pc q w = PListening j -> p = q) /\
  (PathReachable w = true <-> exists p i, pc p w = PListening i) /\
  (forall p s, pc p w = PIdle ->
     if PathReachable w then Listen p s w = set_pc p (PFailed EInUse) w
     else s = mkSys true true true true -> exists i, pc p (Listen p s w) = PListening i).
Proof.
  intros w. destruct (runs_inv os (fresh stale) (fresh_inv stale)) as [o Hinv]. fold w in Hinv.
  pose proof (inv_reachable o w Hinv) as Hr. split_and!.
  - intros p q i j Hp Hq. apply (io_listening _ _ Hinv) in Hp, Hq. congruence.
  - rewrite Hr, bool_decide_eq_true. split.
    + intros [[p i] ->]. exists p, i. by apply (io_listening _ _ Hinv).
    + intros (p & i & Hp). apply (io_listening _ _ Hinv) in Hp as ->. by eexists.
  - intros p s Hp. rewrite Listen_calls, Hp. destruct (PathReachable w) eqn:Hw.
    + unfold calls. cbn [foldl]. simpl. by rewrite Hw.
    + intros ->. destruct (calls_unreachable (mkSys true true true true) w Hw); try done. eexists. apply pc_set_eq.
Qed.

(** ** Listens that overlap *)

Lemma lstep_mk p ok o ss ps c :
  default PIdle (ps !! p) = c ->
  lstep p ok (mkWorld o ss ps) = let '(c', w') := call c ok (mkWorld o ss ps) in set_pc p c' w'.
Proof. intros <-. done. Qed.

Ltac lstep_tac := erewrite lstep_mk by (by simplify_map_eq); unfold set_pc; simpl.

(** [p] listens while [q] is between its dial and its removal of the path. *)
Definition race (p q : nat) : list nat := [p; q; p; p; p; p; q; q; q; q].

(** Two daemons started at the same time both listen. From no socket or a
    stale one, when [q] dials before [p] listens both calls of [Listen]
    succeed, and [p], still running, is reached by nobody. When [p] then ends,
    its listener removes [q]'s path: no daemon is reached although [q] runs,
    and a third [Listen] succeeds as well. *)
Theorem listen_race stale p q r :
  p <> q -> p <> r -> q <> r ->
  let w := schedule (race p q) (fresh stale) in
  let w' := close p (unlink p w) in
  (exists i j, i <> j /\ pc p w = PListening i /\ live w i /\ pc q w = PListening j /\ path w = Some j) /\
  PathReachable w' = false /\ (exists j, pc q w' = PListening j /\ live w' j) /\
  exists k, pc r (Listen r (mkSys true true true true) w') = PListening k.
Proof.
  intros Hpq Hpr Hqr. set (n := if stale then 1 else 0). set (old := if stale then [false] else []).
  assert (Hw : exists ps, schedule (race p q) (fresh stale) = mkWorld (Some (S n)) (old ++ [true; true]) ps
    /\ ps !! p = Some (PListening n) /\ ps !! q = Some (PListening (S n)) /\ ps !! r = None).
  { destruct stale; simpl; eexists; (split; [repeat lstep_tac; reflexivity | split_and!; by simplify_map_eq]). }
  destruct Hw as (ps & Hw & Hp & Hq & Hr). rewrite Hw. clear Hw.
  intros w w'. assert (exists ps', w' = mkWorld None (old ++ [false; true]) ps' /\ ps' !! q = Some (PListening (S n)) /\ ps' !! r = None)
    as (ps' & Hw' & Hq' & Hr').
  { subst w'. unfold unlink, pc. simpl. rewrite Hp. simpl. unfold close. rewrite pc_set_eq. eexists. split; [|split_and!].
    - by destruct stale.
    - by simplify_map_eq.
    - by simplify_map_eq. }
  rewrite Hw'. split_and!.
  - exists n, (S n). unfold pc. simpl. rewrite Hp, Hq. split_and!; [lia|done| |done|done]. by destruct stale.
  - done.
  - exists (S n). unfold pc. simpl. rewrite Hq'. split; [done|]. by destruct stale.
  - eexists. rewrite Listen_calls. unfold pc at 2. simpl. rewrite Hr'. simpl. apply pc_set_eq.
Qed.

Lemma listen_race_witness :
  let w := schedule (race 1 2) (fresh true) in
  PathReachable w = true /\ PathReachable (close 1 (unlink 1 w)) = false /\ pc 3 (Listen 3 (mkSys true true true true) (close 1 (unlink 1 w))) = PListening 3.
Proof.
  destruct (listen_race true 1 2 3 ltac:(discriminate) ltac:(discriminate) ltac:(discriminate)) as (_ & Hr & _ & k & Hk).
  split; [reflexivity|]. split; [exact Hr|]. rewrite Hk. vm_compute in Hk. by injection Hk as <-.
Defined.
