(* ===== verification/Config.v ===== *)
(** * Configuration ([internal/config], [internal/cli/init.go])

    The settings with their defaults, the configuration file, the paths of all
    files, and the three files [opencom init] makes sure exist. YAML is a
    parameter: [unmarshal base data] decodes [data] over [base]. *)
From S2P Require Import Prelude GoStrings Iox.
From S2P Require Identity Sealed.
#[local] Open Scope string_scope.
#[local] Open Scope list_scope.

(** ** Settings ([defaults.go]) *)

Record UserConfig := mkUserConfig { Name : string }.
Record AudioConfig := mkAudioConfig {
  InputDevice : string; OutputDevice : string; InputGain : Z; OutputGain : Z; Bitrate : Z;
  JitterTargetMs : Z; JitterMaxMs : Z; AEC : bool }.
Record VideoConfig := mkVideoConfig {
  Device : string; Resolution : string; Framerate : Z; VideoBitrate : Z; EnableOnCallStart : bool }.
Record NetworkConfig := mkNetworkConfig { ListenPort : Z; BitrateCap : Z; ForceReachability : string }.
Record DiscoveryConfig := mkDiscoveryConfig { MDNS : bool; DHT : bool; TTL : Z; DHTMode : string; Bootstraps : list string }.
Record RelayConfig := mkRelayConfig { Enabled : bool; Peers : list string; Unlimited : bool }.
Record UIConfig := mkUIConfig { Theme : string; NotificationSound : bool; Ringtone : string; Notifications : bool }.
Record DaemonConfig := mkDaemonConfig { Autostart : bool; LogLevel : string }.
Record Config := mkConfig {
  User : UserConfig; Audio : AudioConfig; Video : VideoConfig; Network : NetworkConfig; Discovery : DiscoveryConfig;
  Relay : RelayConfig; UI : UIConfig; Daemon : DaemonConfig }.

Definition opencomPublicNode : list string :=
  ["/dns4/opencom.noahwilderom.dev/tcp/4001/p2p/12D3KooWDBH9WwBd79Jjwk1sNenTbvteBeLF6GeDGgY6eyUFyxgJ";
   "/dns4/opencom.noahwilderom.dev/udp/4001/quic-v1/p2p/12D3KooWDBH9WwBd79Jjwk1sNenTbvteBeLF6GeDGgY6eyUFyxgJ";
   "/dns6/opencom.noahwilderom.dev/tcp/4001/p2p/12D3KooWDBH9WwBd79Jjwk1sNenTbvteBeLF6GeDGgY6eyUFyxgJ";
   "/dns6/opencom.noahwilderom.dev/udp/4001/quic-v1/p2p/12D3KooWDBH9WwBd79Jjwk1sNenTbvteBeLF6GeDGgY6eyUFyxgJ"].
Definition DefaultRelayPeers : list string := opencomPublicNode.
Definition DefaultDHTBootstraps : list string := opencomPublicNode.

(** [Default]; [user] is the environment's USER. *)
Definition Default (user : string) : Config :=
  let name := if decide (user = "") then "user" else user in
  mkConfig (mkUserConfig name)
    (mkAudioConfig "auto" "auto" 100 100 48000 60 200 true)
    (mkVideoConfig "auto" "640x480" 30 500000 true)
    (mkNetworkConfig 0 0 "private")
    (mkDiscoveryConfig true true (10 * 60 * 1000000000) "auto" DefaultDHTBootstraps)
    (mkRelayConfig true DefaultRelayPeers false)
    (mkUIConfig "auto" true "" true)
    (mkDaemonConfig false "info").

Definition with_name (name : string) (c : Config) : Config :=
  mkConfig (mkUserConfig name) (Audio c) (Video c) (Network c) (Discovery c) (Relay c) (UI c) (Daemon c).

(** ** Paths ([paths.go]) *)

(** [filepath.Clean] and [filepath.Join] with the separator "/". *)
Fixpoint clean_comps (rooted : bool) (cs : list string) (out : list string) : list string :=
  match cs with
  | [] => reverse out
  | c :: cs =>
      if decide (c = "" \/ c = ".") then clean_comps rooted cs out
      else if decide (c = "..") then
        match out with
        | o :: out' => if decide (o = "..") then clean_comps rooted cs (".." :: out) else clean_comps rooted cs out'
        | [] => clean_comps rooted cs (if rooted then [] else [".."])
        end
      else clean_comps rooted cs (c :: out)
  end.

Definition Clean (s : string) : string :=
  let rooted := HasPrefix s "/" in
  match clean_comps rooted (Split s "/") [] with
  | [] => if rooted then "/" else "."
  | cs => (if rooted then "/" else "") +:+ Join cs "/"
  end.

Definition JoinPath (elems : list string) : string :=
  match filter (fun e => e <> "") elems with
  | [] => ""
  | es => Clean (Join es "/")
  end.

(** What the process finds in its environment. *)
Record Env := mkEnv {
  env_GOOS : string;
  env_UserConfigDir : option string;
  env_UserCacheDir : option string;
  env_UserHomeDir : option string;
  env_XDG_RUNTIME_DIR : string;
  env_XDG_STATE_HOME : string;
  env_LOCALAPPDATA : string;
  env_Username : option string }.      (* [user.Current], the base of its name *)

Inductive PathsErr := EConfigDir | ECacheDir | EHomeDir.

Record Paths := mkPaths {
  ConfigDir : string; StateDir : string; RuntimeDir : string; ConfigFile : string; PrivateKey : string; FriendsFile : string;
  SocketPath : string; Peerstore : string; LogFile : string; PeerCache : string; ActiveInvites : string }.

Definition userStateDir (e : Env) : result PathsErr string :=
  if decide (env_XDG_STATE_HOME e <> "") then Ok (env_XDG_STATE_HOME e)
  else if decide (env_GOOS e = "windows" /\ env_LOCALAPPDATA e <> "") then Ok (env_LOCALAPPDATA e)
  else
    home ← of_option EHomeDir (env_UserHomeDir e);
    Ok (if decide (env_GOOS e = "darwin") then JoinPath [home; "Library"; "Application Support"]
        else JoinPath [home; ".local"; "state"]).

Definition socketPathFor (e : Env) (runtimeDir cacheRoot : string) : string :=
  if decide (env_GOOS e = "windows") then
    let username := match env_Username e with Some u => if decide (u <> "") then u else "user" | None => "user" end in
    "\\.\pipe\opencom-" +:+ username
  else if decide (runtimeDir <> "") then JoinPath [runtimeDir; "opencom.sock"]
  else JoinPath [cacheRoot; "opencom"; "opencom.sock"].

Definition DefaultPaths (e : Env) : result PathsErr Paths :=
  cfgRoot ← of_option EConfigDir (env_UserConfigDir e);
  cacheRoot ← of_option ECacheDir (env_UserCacheDir e);
  stateRoot ← userStateDir e;
  let configDir := JoinPath [cfgRoot; "opencom"] in
  let stateDir := JoinPath [stateRoot; "opencom"] in
  let runtimeDir := env_XDG_RUNTIME_DIR e in
  Ok (mkPaths configDir stateDir runtimeDir (JoinPath [configDir; "config.yaml"]) (JoinPath [configDir; "priv.key"])
        (JoinPath [configDir; "friends.json"]) (socketPathFor e runtimeDir cacheRoot) (JoinPath [stateDir; "peerstore"])
        (JoinPath [stateDir; "daemon.log"]) (JoinPath [stateDir; "peer-cache.json"]) (JoinPath [stateDir; "active-invites.json"])).

(** The files and the directory the components write. *)
Definition written (p : Paths) : list string :=
  [ConfigFile p; PrivateKey p; FriendsFile p; Peerstore p; LogFile p; PeerCache p; ActiveInvites p].

(** ** The file ([load.go]) *)

Inductive ConfigErr := ENotExist | EReading | EParsing | EMarshalling | EWriting (c : FsCall).
#[export] Instance ConfigErr_eq_dec : EqDecision ConfigErr.
Proof. solve_decision. Defined.

Section file.
Context (user : string).
Context (marshal : Config -> option bytes) (unmarshal : Config -> bytes -> option Config).

(** The zero [Config], which [Load] returns with most errors. *)
Definition zeroConfig : Config :=
  mkConfig (mkUserConfig "") (mkAudioConfig "" "" 0 0 0 0 0 false) (mkVideoConfig "" "" 0 0 false) (mkNetworkConfig 0 0 "")
    (mkDiscoveryConfig false false 0 "" []) (mkRelayConfig false [] false) (mkUIConfig "" false "" false) (mkDaemonConfig false "").

(** [readable] says whether an existing file can be read. *)
Definition Load (path : string) (readable : bool) (fs : gmap string bytes) : Config * option ConfigErr :=
  match fs !! path with
  | None => (Default user, Some ENotExist)
  | Some data =>
      if negb readable then (zeroConfig, Some EReading)
      else match unmarshal (Default user) data with
      | None => (zeroConfig, Some EParsing)
      | Some cfg => (cfg, None)
      end
  end.

Definition Save (o : Os) (path : string) (cfg : Config) (fs : gmap string bytes) : gmap string bytes * option ConfigErr :=
  match marshal cfg with
  | None => (fs, Some EMarshalling)
  | Some data => let r := AtomicWriteFile o path data fs in (awf_result r fs, EWriting <$> r.2)
  end.

(** ** [opencom init] ([internal/cli/init.go]) *)

Definition ensureConfig (o : Os) (path name : string) (readable : bool) (fs : gmap string bytes)
  : gmap string bytes * result ConfigErr Config :=
  match Load path readable fs with
  | (cfg, None) => (fs, Ok cfg)
  | (_, Some ENotExist) =>
      let cfg := Default user in
      let cfg := if decide (name <> "") then with_name name cfg else cfg in
      match Save o path cfg fs with
      | (fs', Some e) => (fs', Err e)
      | (fs', None) => (fs', Ok cfg)
      end
  | (_, Some e) => (fs, Err e)
  end.

Definition ensureFriendsFile (o : Os) (path : string) (statable : bool) (fs : gmap string bytes)
  : gmap string bytes * option ConfigErr :=
  match fs !! path with
  | Some _ => (fs, if statable then None else Some EReading)
  | None =>
      if negb statable then (fs, Some EReading)
      else let r := AtomicWriteFile o path (Identity.str_bytes ("[]" +:+ String "010" "")) fs in (awf_result r fs, EWriting <$> r.2)
  end.
End file.

(** ** What [init] promises *)

Lemma AtomicWriteFile_ok o path data (fs : gmap string bytes) :
  os_fresh o path fs -> (AtomicWriteFile o path data fs).2 = None -> awf_result (AtomicWriteFile o path data fs) fs = <[path := data]> fs.
Proof. intros Hf Hn. destruct (awf_spec o path data fs Hf) as [_ H]. by rewrite Hn in H. Qed.

Lemma Save_ok marshal o path cfg fs fs' :
  os_fresh o path fs -> Save marshal o path cfg fs = (fs', None) -> exists data, marshal cfg = Some data /\ fs' = <[path := data]> fs.
Proof.
  unfold Save. intros Hf H. destruct (marshal cfg) as [data|]; [|done]. exists data. split; [done|].
  destruct (AtomicWriteFile o path data fs).2 eqn:E; [done|]. simplify_eq/=. by apply AtomicWriteFile_ok.
Qed.

Section init.
Context (user : string) (marshal : Config -> option bytes) (unmarshal : Config -> bytes -> option Config).
Context (yaml_law : forall base cfg data, marshal cfg = Some data -> unmarshal base data = Some cfg).

(** C37: The configuration survives and is never overwritten. What [Save] wrote
    [Load] reads back, whatever the defaults are by then; [init] with no file
    writes the defaults with the given name, and run again, under any name, it
    returns the same configuration and leaves every file alone; and it never
    changes an existing configuration file, even one that does not parse. *)
Theorem config_file_correct o o' path name name' cfg fs fs' :
  os_fresh o path fs ->
  (Save marshal o path cfg fs = (fs', None) -> forall user', Load user' unmarshal path true fs' = (cfg, None)) /\
  (ensureConfig user marshal unmarshal o path name true fs = (fs', Ok cfg) ->
     (fs !! path = None -> cfg = if decide (name = "") then Default user else with_name name (Default user)) /\
     ensureConfig user marshal unmarshal o' path name' true fs' = (fs', Ok cfg)) /\
  (forall r readable, is_Some (fs !! path) -> ensureConfig user marshal unmarshal o path name readable fs = (fs', r) -> fs' = fs).
Proof.
  intros Hf. split_and!.
  - intros (data & Hm & ->)%Save_ok user'; [|done]. unfold Load. rewrite lookup_insert_eq. simpl. by rewrite (yaml_law _ _ _ Hm).
  - unfold ensureConfig, Load. destruct (fs !! path) as [data|] eqn:Hp; simpl.
    + destruct (unmarshal _ data) as [c|] eqn:Hu; [|done]. intros [= <- <-]. rewrite Hp. simpl. by rewrite Hu.
    + destruct (Save _ _ _ _ _) as [fs1 [e|]] eqn:Hs; [done|]. intros [= <- <-].
      apply Save_ok in Hs as (data & Hm & ->); [|done]. rewrite lookup_insert_eq. simpl. rewrite (yaml_law _ _ _ Hm).
      split; [|done]. intros _. repeat case_decide; done.
  - intros r readable [data Hp]. unfold ensureConfig, Load. rewrite Hp. destruct readable; simpl; [|by intros [= <- _]].
    destruct (unmarshal _ data); by intros [= <- _].
Qed.
End init.

(** ** No two components share a file *)

Lemma Split_nonempty s c : Split s c <> [].
Proof. destruct s as [|d s]; [done|]. cbn [Split]. case_match; [done|]. by destruct (Split s c). Qed.

Lemma Split_app_all s t c : Split (s +:+ String c t) c = Split s c ++ Split t c.
Proof.
  induction s as [|d s IH].
  - simpl. by rewrite is_char_refl.
  - rewrite app_cons. cbn [Split]. rewrite IH. case_match; [done|].
    pose proof (Split_nonempty s c) as Hne. by destruct (Split s c).
Qed.

(** A plain file name. *)
Definition plain (n : string) : bool := no_char "/" n && negb (String.eqb n "") && negb (String.eqb n ".") && negb (String.eqb n "..").

Lemma plain_spec n : plain n = true -> no_char "/" n = true /\ n <> "" /\ n <> "." /\ n <> "..".
Proof.
  unfold plain. rewrite !andb_true_iff, !negb_true_iff. intros [[[H1 H2] H3] H4].
  split_and!; [done|by apply String.eqb_neq..].
Qed.

Lemma clean_comps_last rooted cs out n : plain n = true -> clean_comps rooted (cs ++ [n]) out = clean_comps rooted cs out ++ [n].
Proof.
  intros (_ & H1 & H2 & H3)%plain_spec. revert out. induction cs as [|c cs IH]; intros out; simpl.
  - rewrite !decide_False by naive_solver. by rewrite reverse_cons.
  - repeat (case_decide; [try apply IH|]); [destruct out as [|x out]; [|case_decide]; apply IH | apply IH].
Qed.

Lemma Join_last l n : l <> [] -> Join (l ++ [n]) "/" = Join l "/" +:+ "/" +:+ n.
Proof.
  induction l as [|s l IH]; [done|]. intros _. destruct l as [|s' l]; [done|].
  change ((s :: s' :: l) ++ [n]) with (s :: (s' :: l) ++ [n]). rewrite (Join_cons s ((s' :: l) ++ [n])) by done.
  rewrite IH by done. rewrite (Join_cons s (s' :: l)) by done. by rewrite !app_assoc_str.
Qed.

Lemma last_Clean s cs n : plain n = true -> Split s "/" = cs ++ [n] -> last (Split (Clean s) "/") = Some n.
Proof.
  intros Hn Hs. unfold Clean. rewrite Hs, clean_comps_last by done. set (l := clean_comps _ cs []).
  assert (Hl : forall pre, last (Split (pre +:+ "/" +:+ n) "/") = Some n).
  { intros pre. change ("/" +:+ n) with (String "/" n). rewrite Split_app_all.
    rewrite (Split_no_char n) by by apply plain_spec. apply last_snoc. }
  assert (Hnil : forall r : bool, last (Split ((if r then "/" else "") +:+ Join (l ++ [n]) "/") "/") = Some n).
  { intros r. destruct (decide (l = [])) as [->|Hne].
    - destruct r; [apply (Hl "") | simpl]. rewrite Split_no_char by by apply plain_spec. done.
    - rewrite Join_last by done. rewrite <- app_assoc_str. apply Hl. }
  destruct (l ++ [n]) eqn:E; [by destruct l|]. rewrite <- E in *. apply Hnil.
Qed.

Lemma last_JoinPath d n : plain n = true -> last (Split (JoinPath [d; n]) "/") = Some n.
Proof.
  intros Hn. destruct (plain_spec n Hn) as (Hc & Hne & _). unfold JoinPath.
  destruct (decide (d = "")) as [->|Hd].
  - rewrite filter_cons_False by naive_solver. rewrite filter_cons_True by done. simpl. apply (last_Clean n []); [done|]. by apply Split_no_char.
  - rewrite !filter_cons_True by done. simpl. apply (last_Clean _ (Split d "/")); [done|].
    change ("/" +:+ n) with (String "/" n). by rewrite Split_app_all, (Split_no_char n).
Qed.

(** Whatever the environment, the configuration, the key, the friends, the
    peer store, the log, the peer cache and the invites are kept in different
    places, also where the configuration and the state directory are the same. *)
Theorem paths_apart e p : DefaultPaths e = Ok p -> NoDup (written p).
Proof.
  unfold DefaultPaths. intros (cfg & _ & (cache & _ & (state & _ & [= <-])%result_bind_inv)%result_bind_inv)%result_bind_inv.
  apply (NoDup_fmap_1 (fun s => last (Split s "/"))). unfold written. cbn [ConfigFile PrivateKey FriendsFile Peerstore LogFile PeerCache ActiveInvites fmap list_fmap].
  rewrite !last_JoinPath by reflexivity. apply (bool_decide_unpack _). by vm_compute.
Qed.

(** ** Witnesses *)

#[export] Instance UserConfig_eq_dec : EqDecision UserConfig.
Proof. solve_decision. Defined.
#[export] Instance AudioConfig_eq_dec : EqDecision AudioConfig.
Proof. solve_decision. Defined.
#[export] Instance VideoConfig_eq_dec : EqDecision VideoConfig.
Proof. solve_decision. Defined.
#[export] Instance NetworkConfig_eq_dec : EqDecision NetworkConfig.
Proof. solve_decision. Defined.
#[export] Instance DiscoveryConfig_eq_dec : EqDecision DiscoveryConfig.
Proof. solve_decision. Defined.
#[export] Instance RelayConfig_eq_dec : EqDecision RelayConfig.
Proof. solve_decision. Defined.
#[export] Instance UIConfig_eq_dec : EqDecision UIConfig.
Proof. solve_decision. Defined.
#[export] Instance DaemonConfig_eq_dec : EqDecision DaemonConfig.
Proof. solve_decision. Defined.
#[export] Instance Config_eq_dec : EqDecision Config.
Proof. solve_decision. Defined.

(** A marshaller for one configuration. *)
Definition demo_config : Config := with_name "bob" (Default "root").
Definition demo_marshal (c : Config) : option bytes := if decide (c = demo_config) then Some [1%Z] else None.
Definition demo_unmarshal (base : Config) (b : bytes) : option Config := Some demo_config.

Lemma config_file_correct_witness :
  let '(fs, r) := ensureConfig "root" demo_marshal demo_unmarshal (os_ok "c/.tmp") "c/config.yaml" "bob" true ∅ in
  r = Ok demo_config /\ ensureConfig "root" demo_marshal demo_unmarshal (os_ok "c/.tmp2") "c/config.yaml" "ann" true fs = (fs, Ok demo_config).
Proof.
  destruct (ensureConfig _ _ _ _ _ _ _ _) as [fs r] eqn:E. assert (Hr : r = Ok demo_config).
  { transitivity (ensureConfig "root" demo_marshal demo_unmarshal (os_ok "c/.tmp") "c/config.yaml" "bob" true ∅).2; [by rewrite E | by vm_compute]. }
  split; [exact Hr|]. rewrite Hr in E.
  destruct (config_file_correct "root" demo_marshal demo_unmarshal) with (o := os_ok "c/.tmp") (o' := os_ok "c/.tmp2") (path := "c/config.yaml")
    (name := "bob") (name' := "ann") (cfg := demo_config) (fs := ∅ : gmap string bytes) (fs' := fs) as (_ & H & _).
  - intros base cfg data H. unfold demo_marshal in H. destruct (decide (cfg = demo_config)) as [->|]; [reflexivity | discriminate].
  - split; [reflexivity | discriminate].
  - apply H, E.
Defined.

Definition demo_env : Env := mkEnv "darwin" (Some "/Users/bob/Library/Application Support") (Some "/Users/bob/Library/Caches") (Some "/Users/bob") "" "" "" None.

Lemma paths_apart_witness :
  exists p, DefaultPaths demo_env = Ok p /\ ConfigDir p = StateDir p /\ NoDup (written p).
Proof.
  eexists. split; [vm_compute; reflexivity|]. split; [reflexivity|]. apply (paths_apart demo_env). vm_compute. reflexivity.
Defined.
