(* ===== verification/Daemon.v ===== *)
(** * The daemon's set-up ([internal/app/daemon.go])

    What [Run] makes of its configuration: the host, the relays it gives to the
    call engine, the audio configuration, the notifier and the display name. *)
From S2P Require Import Prelude GoStrings.
From S2P Require P2p Config.
#[local] Open Scope string_scope.
#[local] Open Scope list_scope.

(** kad-dht's modes. *)
Definition ModeAuto : Z := 0.
Definition ModeClient : Z := 1.
Definition ModeServer : Z := 2.

Section daemon.
Context `{P2p.Multiaddrs} (unicode_lower : string -> string).

(** The value, and whether an error comes with it. *)
Definition parseDHTMode (s : string) : Z * bool :=
  let v := ToLower unicode_lower (TrimSpace s) in
  if decide (v = "" \/ v = "auto") then (ModeAuto, false)
  else if decide (v = "server") then (ModeServer, false)
  else if decide (v = "client") then (ModeClient, false)
  else (ModeAuto, true).

Definition parseReachability (s : string) : P2p.Reach * bool :=
  let v := ToLower unicode_lower (TrimSpace s) in
  if decide (v = "" \/ v = "auto") then (P2p.ReachabilityUnknown, false)
  else if decide (v = "private") then (P2p.ReachabilityPrivate, false)
  else if decide (v = "public") then (P2p.ReachabilityPublic, false)
  else (P2p.ReachabilityUnknown, true).

(** One round of [parseAddrInfoList]: the map by peer and the order. *)
Definition Merged : Type := gmap string P2p.AddrInfo * list string.
Definition add_addr (st : Merged) (s : string) : Merged :=
  let '(byPeer, order) := st in
  match P2p.NewMultiaddr s with
  | None => st
  | Some m =>
      match P2p.AddrInfoFromP2pAddr m with
      | None => st
      | Some (id, addrs) =>
          match byPeer !! id with
          | Some (id', old) => (<[id := (id', old ++ addrs)]> byPeer, order)
          | None => (<[id := (id, addrs)]> byPeer, order ++ [id])
          end
      end
  end.

Definition parseAddrInfoList (addrs : list string) : list P2p.AddrInfo :=
  let '(byPeer, order) := foldl add_addr (∅, []) addrs in
  omap (fun id => byPeer !! id) order.

(** The addresses of a fixed port. *)
Definition port_addrs (port : Z) : list string :=
  let p := FormatInt port in
  ["/ip4/0.0.0.0/tcp/" +:+ p; "/ip6/::/tcp/" +:+ p; "/ip4/0.0.0.0/udp/" +:+ p +:+ "/quic-v1"; "/ip6/::/udp/" +:+ p +:+ "/quic-v1"].

(** [Options], less what the other components are given as they are. *)
Record Options := mkOptions {
  op_Config : Config.Config;
  op_Priv : option string;
  op_HostBootstraps : option (list P2p.AddrInfo);
  op_HostRelays : option (list P2p.AddrInfo);
  op_DisableMDNS : bool;
  op_DisableAudio : bool }.

Record AudioSetup := mkAudioSetup {
  as_InputDevice : string; as_OutputDevice : string; as_Bitrate : Z; as_JitterTargetMs : Z; as_JitterMaxMs : Z; as_AECEnabled : bool }.

(** What [Run] starts its components with. *)
Record Setup := mkSetup {
  su_host : P2p.Libp2pConfig;
  su_relays : list P2p.AddrInfo;             (* [callEngine.SetRelays] *)
  su_audio : option AudioSetup;
  su_notifications : bool;                   (* [notify.Beeep], else [Disabled] *)
  su_display_name : string;
  su_mdns : bool }.

Definition run_bootstraps (o : Options) : list P2p.AddrInfo :=
  match op_HostBootstraps o with
  | Some b => b
  | None => parseAddrInfoList (Config.Bootstraps (Config.Discovery (op_Config o)))
  end.
Definition run_relays (o : Options) : list P2p.AddrInfo :=
  match op_HostRelays o with
  | Some r => r
  | None => parseAddrInfoList (Config.Peers (Config.Relay (op_Config o)))
  end.

Definition run_listen (o : Options) : result P2p.HostErr (list P2p.Multiaddr) :=
  let port := Config.ListenPort (Config.Network (op_Config o)) in
  if decide (0 < port)%Z then P2p.parse_listen (port_addrs port) else Ok [].

(** [Run], up to the start of the host and as far as the configuration decides
    what is started after it. *)
Definition run_setup (o : Options) : result P2p.HostErr Setup :=
  let c := op_Config o in
  let bootstraps := run_bootstraps o in
  let relays := run_relays o in
  listen ← run_listen o;
  let dhtMode := fst (parseDHTMode (Config.DHTMode (Config.Discovery c))) in
  let forceReach := fst (parseReachability (Config.ForceReachability (Config.Network c))) in
  host ← P2p.New (P2p.mkHostOptions (op_Priv o) listen bootstraps (Some relays) dhtMode forceReach (Config.Unlimited (Config.Relay c)));
  let a := Config.Audio c in
  Ok (mkSetup host relays
        (if op_DisableAudio o then None
         else Some (mkAudioSetup (Config.InputDevice a) (Config.OutputDevice a) (Config.Bitrate a) (Config.JitterTargetMs a)
                      (Config.JitterMaxMs a) (Config.AEC a)))
        (Config.Notifications (Config.UI c)) (Config.Name (Config.User c)) (negb (op_DisableMDNS o))).

(** ** The peers of a list of addresses *)

(** The entries that can be read, peer and addresses. *)
Definition readable_addrs (l : list string) : list P2p.AddrInfo := omap (fun s => P2p.NewMultiaddr s ≫= P2p.AddrInfoFromP2pAddr) l.

(** The peers in the order they first appear. *)
Definition first_ids (l : list string) : list string := reverse (remove_dups (reverse l)).

(** All addresses of one peer, in order. *)
Definition addrs_of (id : string) (l : list P2p.AddrInfo) : list P2p.Multiaddr := concat (snd <$> filter (fun e => fst e = id) l).

Definition group (l : list P2p.AddrInfo) : list P2p.AddrInfo := (fun id => (id, addrs_of id l)) <$> first_ids l.*1.

Lemma first_ids_snoc l x : first_ids (l ++ [x]) = if decide (x ∈ l) then first_ids l else first_ids l ++ [x].
Proof.
  unfold first_ids. rewrite reverse_snoc. simpl. destruct (decide (x ∈ l)), (decide_rel _ x (reverse l)) as [Hin|Hin]; try done.
  - by rewrite elem_of_reverse in Hin.
  - by rewrite elem_of_reverse in Hin.
  - by rewrite reverse_cons.
Qed.

Lemma elem_of_first_ids l x : x ∈ first_ids l <-> x ∈ l.
Proof. unfold first_ids. by rewrite elem_of_reverse, elem_of_remove_dups, elem_of_reverse. Qed.

Lemma NoDup_first_ids l : NoDup (first_ids l).
Proof. unfold first_ids. rewrite reverse_Permutation. apply NoDup_remove_dups. Qed.

Lemma addrs_of_snoc id l e : addrs_of id (l ++ [e]) = addrs_of id l ++ (if decide (fst e = id) then snd e else []).
Proof.
  unfold addrs_of. rewrite filter_app, fmap_app, concat_app. f_equal. destruct (decide (fst e = id)).
  - rewrite filter_cons_True by done. simpl. apply app_nil_r.
  - by rewrite filter_cons_False.
Qed.

Lemma addrs_of_nil id l : id ∉ l.*1 -> addrs_of id l = [].
Proof.
  induction l as [|e l IH] using rev_ind; [done|]. rewrite fmap_app, addrs_of_snoc. intros Hid.
  rewrite IH by set_solver. by rewrite decide_False by set_solver.
Qed.

(** The loop's map and order after the entries [l]. *)
Definition merged_ok (l : list P2p.AddrInfo) (st : Merged) : Prop :=
  snd st = first_ids l.*1 /\ forall id, fst st !! id = if decide (id ∈ l.*1) then Some (id, addrs_of id l) else None.

Lemma add_addr_ok l st s : merged_ok l st -> merged_ok (l ++ readable_addrs [s]) (add_addr st s).
Proof.
  destruct st as [byPeer order]. intros [Ho Hb]. simpl in Ho, Hb. unfold add_addr, readable_addrs. simpl.
  destruct (P2p.NewMultiaddr s) as [m|]; simpl; [|by rewrite app_nil_r]. destruct (P2p.AddrInfoFromP2pAddr m) as [[id addrs]|]; simpl; [|by rewrite app_nil_r].
  pose proof (Hb id) as Hid. unfold merged_ok. rewrite fmap_app. simpl. rewrite first_ids_snoc.
  destruct (decide (id ∈ l.*1)) as [Hin|Hin]; rewrite Hid; simpl; (split; [by rewrite Ho|]); intros id'.
  all: rewrite lookup_insert, addrs_of_snoc; simpl.
  - destruct (decide (id = id')) as [<-|Hne]; [rewrite decide_True by set_solver; done|].
    rewrite Hb, app_nil_r. apply decide_ext. set_solver.
  - destruct (decide (id = id')) as [<-|Hne].
    + rewrite decide_True by set_solver. by rewrite addrs_of_nil.
    + rewrite Hb, app_nil_r. apply decide_ext. set_solver.
Qed.

Lemma merged_run ss : merged_ok (readable_addrs ss) (foldl add_addr (∅, []) ss).
Proof.
  induction ss as [|s ss IH] using rev_ind.
  - split; [done|]. intros id. apply lookup_empty.
  - rewrite foldl_snoc. unfold readable_addrs. rewrite omap_app. by apply add_addr_ok.
Qed.

Lemma parseAddrInfoList_group ss : parseAddrInfoList ss = group (readable_addrs ss).
Proof.
  unfold parseAddrInfoList. destruct (foldl add_addr _ ss) as [byPeer order] eqn:E. pose proof (merged_run ss) as [Ho Hb].
  rewrite E in Ho, Hb. simpl in Ho, Hb. subst order. unfold group.
  assert (Hin : forall id, id ∈ first_ids (readable_addrs ss).*1 -> id ∈ (readable_addrs ss).*1) by (intros id; apply elem_of_first_ids).
  revert Hin. generalize (first_ids (readable_addrs ss).*1). intros ids. clear E. induction ids as [|id ids IH]; intros Hin; [done|].
  simpl. rewrite Hb, decide_True by (apply Hin; set_solver). f_equal. apply IH. intros id' Hid'. apply Hin. set_solver.
Qed.

Lemma elem_of_addrs_of id a l : a ∈ addrs_of id l <-> exists as_, (id, as_) ∈ l /\ a ∈ as_.
Proof.
  unfold addrs_of. rewrite list_elem_of_In, in_concat. setoid_rewrite <- list_elem_of_In. split.
  - intros (as_ & ([id' as'] & -> & [Hid Hin]%list_elem_of_filter)%list_elem_of_fmap & Ha). simpl in *. subst. by exists as'.
  - intros (as_ & Hin & Ha). exists as_. split; [|done]. apply list_elem_of_fmap. exists (id, as_). split; [done|].
    by apply list_elem_of_filter.
Qed.

Lemma group_spec l : NoDup (group l).*1 /\
  forall id a, (exists as_, (id, as_) ∈ group l /\ a ∈ as_) <-> exists as_, (id, as_) ∈ l /\ a ∈ as_.
Proof.
  unfold group. split.
  - rewrite <- list_fmap_compose. rewrite (list_fmap_ext _ id) by done. rewrite list_fmap_id. apply NoDup_first_ids.
  - intros id a. rewrite <- (elem_of_addrs_of id a l). split.
    + intros (as_ & (id' & [= <- ->] & _)%list_elem_of_fmap & Ha). done.
    + intros Ha. exists (addrs_of id l). split; [|done]. apply list_elem_of_fmap. exists id. split; [done|].
      apply elem_of_first_ids. apply elem_of_addrs_of in Ha as (as_ & Hin & _). apply list_elem_of_fmap. by exists (id, as_).
Qed.

Lemma parse_listen_nonempty port : P2p.parse_listen (port_addrs port) <> Ok [].
Proof. simpl. destruct (P2p.NewMultiaddr _); [|done]. repeat (case_match; simplify_eq); done. Qed.

(** C30: What the daemon makes of the configured peers. The lists of bootstraps
    and relays become one entry for each peer, in the order the peers first
    appear, holding exactly the addresses of the entries that can be read, in
    order; an override replaces them. The host dials these bootstraps, and
    AutoRelay and the call engine use these same relays; with none configured
    or none readable AutoRelay is off, and the public libp2p relays are never
    used. Only a fixed port changes the listen addresses, and only a bad
    address, the missing key or an unreadable default keep the host from being
    asked for. *)
Theorem daemon_peers o s :
  run_setup o = Ok s ->
  let c := op_Config o in
  let relays := match op_HostRelays o with Some r => r | None => group (readable_addrs (Config.Peers (Config.Relay c))) end in
  su_relays s = relays /\
  P2p.lc_autorelay (su_host s) = (if decide (relays = []) then None else Some relays) /\
  P2p.lc_bootstraps (su_host s)
    = match op_HostBootstraps o with Some b => b | None => group (readable_addrs (Config.Bootstraps (Config.Discovery c))) end /\
  (forall l, NoDup (group l).*1 /\
     forall id a, (exists as_, (id, as_) ∈ group l /\ a ∈ as_) <-> exists as_, (id, as_) ∈ l /\ a ∈ as_) /\
  P2p.parse_listen (if decide (0 < Config.ListenPort (Config.Network c))%Z then port_addrs (Config.ListenPort (Config.Network c))
                    else P2p.default_listen) = Ok (P2p.lc_listen (su_host s)).
Proof.
  intros H0 c relays. unfold run_setup in H0. cbv zeta in H0. apply result_bind_inv in H0 as (listen & Hl & (host & Hh & H0)%result_bind_inv).
  injection H0 as <-.
  assert (Hr : run_relays o = relays) by (unfold run_relays, relays; by rewrite parseAddrInfoList_group).
  unfold P2p.New in Hh. simpl in Hh. destruct (op_Priv o) as [key|]; [|done]. rewrite Hr in Hh. cbn [su_host su_relays].
  unfold run_listen in Hl. destruct (if decide (length listen = 0) then _ else _) as [ls|] eqn:El; [|done]. injection Hh as <-. simpl.
  split_and!.
  - done.
  - destruct relays; [by rewrite decide_False by (simpl; lia) | by rewrite decide_True by (simpl; lia)].
  - unfold run_bootstraps. by rewrite parseAddrInfoList_group.
  - apply group_spec.
  - subst c. destruct (decide (0 < Config.ListenPort (Config.Network (op_Config o)))%Z).
    + destruct listen; [by apply parse_listen_nonempty in Hl|]. simpl in El. congruence.
    + injection Hl as <-. simpl in El. exact El.
Qed.
End daemon.

(** ** Witness *)

(** Addresses whose peer is their first byte. *)
Definition demo_addrs : P2p.Multiaddrs := {|
  P2p.Multiaddr := string;
  P2p.NewMultiaddr s := if String.eqb s "bad" then None else Some s;
  P2p.MultiaddrString s := s;
  P2p.components _ := [];
  P2p.IsPublicAddr _ := true;
  P2p.PeerDecode s := Some s;
  P2p.AddrInfoFromP2pAddr s := match s with String c _ => Some (String c "", [s]) | EmptyString => None end |}.

Definition demo_options : Options (H := demo_addrs) :=
  let d := Config.Default "bob" in
  mkOptions (H := demo_addrs)
    (Config.mkConfig (Config.User d) (Config.Audio d) (Config.Video d) (Config.mkNetworkConfig 4001 0 " Public ") (Config.Discovery d)
       (Config.mkRelayConfig true ["a/1"; "bad"; "b/1"; "a/2"] false) (Config.UI d) (Config.Daemon d)) (Some "key") None None false true.

Lemma daemon_peers_witness :
  exists s, run_setup (H := demo_addrs) (fun s => s) demo_options = Ok s /\
    P2p.lc_autorelay (su_host s) = Some [("a", ["a/1"; "a/2"]); ("b", ["b/1"])] /\
    P2p.lc_listen (su_host s) = ["/ip4/0.0.0.0/tcp/4001"; "/ip6/::/tcp/4001"; "/ip4/0.0.0.0/udp/4001/quic-v1"; "/ip6/::/udp/4001/quic-v1"].
Proof.
  destruct (run_setup (H := demo_addrs) (fun s => s) demo_options) as [s|e] eqn:E; [|vm_compute in E; discriminate].
  exists s. split; [reflexivity|]. destruct (daemon_peers (H := demo_addrs) (fun s => s) demo_options s E) as (_ & Ha & _ & _ & Hl).
  split.
  - etrans; [exact Ha | by vm_compute].
  - assert (Ok (P2p.lc_listen (su_host s)) = Ok (E := P2p.HostErr) ["/ip4/0.0.0.0/tcp/4001"; "/ip6/::/tcp/4001"; "/ip4/0.0.0.0/udp/4001/quic-v1"; "/ip6/::/udp/4001/quic-v1"]) as [= <-]; [|reflexivity].
    rewrite <- Hl. by vm_compute.
Defined.
