(* ===== verification/Cli.v ===== *)
(** * The call commands ([internal/cli/call.go], [internal/cli/daemon_ensure.go])

    [opencom call] and its subcommands as clients of the daemon: the requests
    they send, the lines they print and how they end. A command that follows a
    call is a process whose [select] takes one [Input] at a time. *)
From S2P Require Import Prelude GoStrings GoChan CallSession CallPipe.
From S2P Require IpcCalls.
#[local] Open Scope string_scope.
#[local] Open Scope list_scope.

(** ** Requests *)

Inductive Req :=
| RList                                        (* calls.list *)
| RAction (id action reason : string)          (* calls.action *)
| RStart (target : string)                     (* calls.start, a subscription *)
| RAttach (id : string).                       (* calls.attach, a subscription *)
#[export] Instance Req_eq_dec : EqDecision Req.
Proof. solve_decision. Defined.

Inductive CliErr :=
| EConnect | EBothIDs | EListing (msg : string) | ENoCalls | ENoID | EReply (msg : string)
| ETimedOut | EClosed | ECtx.
#[export] Instance CliErr_eq_dec : EqDecision CliErr.
Proof. solve_decision. Defined.

(** What a command did: requests, lines, the error it returned. *)
Definition Ran : Type := list Req * list string * option CliErr.

Section commands.
(** Whether [dialDaemonOrStart] connects; the daemon's answers: the calls of
    [calls.list], nothing of interest for the others. *)
Context (connects : bool) (ask : Req -> result string (list IpcCalls.CallsListEntry)).

(** The loop of [resolveCallID] over the calls after the first. *)
Fixpoint newest_of (newest : IpcCalls.CallsListEntry) (l : list IpcCalls.CallsListEntry) : IpcCalls.CallsListEntry :=
  match l with
  | [] => newest
  | e :: l => newest_of (if (IpcCalls.cl_StartedAt newest <? IpcCalls.cl_StartedAt e)%Z then e else newest) l
  end.

Definition resolveCallID (args : list string) (useCurrent : bool) : list Req * result CliErr string :=
  if useCurrent then
    match args with
    | _ :: _ => ([], Err EBothIDs)
    | [] =>
        ([RList],
         match ask RList with
         | Err msg => Err (EListing msg)
         | Ok [] => Err ENoCalls
         | Ok (c :: cs) => Ok (IpcCalls.cl_CallID (newest_of c cs))
         end)
    end
  else ([], match args with [] => Err ENoID | id :: _ => Ok id end).

(** [call mute], [call unmute] and [call hangup]. *)
Definition runCallAction (action reason done_ : string) (args : list string) (useCurrent : bool) : Ran :=
  if negb connects then ([], [], Some EConnect)
  else
    let '(rs, r) := resolveCallID args useCurrent in
    match r with
    | Err e => (rs, [], Some e)
    | Ok id =>
        let q := RAction id action reason in
        match ask q with
        | Err msg => (rs ++ [q], [], Some (EReply msg))
        | Ok _ => (rs ++ [q], [done_ +:+ " " +:+ id], None)
        end
    end.
Definition callMute := runCallAction "mute" "" "Muted".
Definition callUnmute := runCallAction "unmute" "" "Unmuted".
Definition callHangup (reason : string) := runCallAction "hangup" reason "Hung up".

(** ** Following a call *)

(** The events of a subscription; [None] is a nil event or data that does not
    decode. *)
Record Change := mkChange { SessionID : string; ch_State : string; ch_Reason : string }.

(** Whether a context can be cancelled, and why it ended. *)
Inductive CtxErr := Canceled | DeadlineExceeded.
#[export] Instance CtxErr_eq_dec : EqDecision CtxErr.
Proof. solve_decision. Defined.
Inductive Ctx := Background | Cancelable (ended : option CtxErr).

Inductive Input :=
| IEvent (ev : option Change)      (* an event is taken from the subscription *)
| IClosed                          (* the subscription is found closed *)
| IDone                            (* [ctx.Done()] is taken *)
| ICancel (e : CtxErr)             (* the context ends *)
| IInterrupt.                      (* the user presses Ctrl+C *)

Inductive End := Returned (e : option CtxErr) | Killed.

(** A process in [streamCallEvents]; [handled] says whether the command turned
    interrupts into the end of its context ([signal.NotifyContext]). *)
Record Proc := mkProc {
  pr_ctx : Ctx;
  pr_handled : bool;
  pr_callID : string;
  pr_out : list string;
  pr_sent : list Req;
  pr_end : option End }.

Definition set_ctx (c : Ctx) (p : Proc) : Proc := mkProc c (pr_handled p) (pr_callID p) (pr_out p) (pr_sent p) (pr_end p).
Definition finish (e : End) (p : Proc) : Proc := mkProc (pr_ctx p) (pr_handled p) (pr_callID p) (pr_out p) (pr_sent p) (Some e).

Definition line (c : Change) : string :=
  if decide (ch_Reason c <> "") then "[" +:+ ch_State c +:+ "] " +:+ ch_Reason c else "[" +:+ ch_State c +:+ "]".

Definition hangup (id : string) : Req := RAction id "hangup" "user requested".

(** The context ends, once. *)
Definition cancel (e : CtxErr) (p : Proc) : Proc :=
  match pr_ctx p with Cancelable None => set_ctx (Cancelable (Some e)) p | _ => p end.

(** The case [ctx.Done()]. *)
Definition on_done (p : Proc) : Proc :=
  match pr_ctx p with
  | Cancelable (Some e) =>
      let p := if decide (pr_callID p <> "") then
                 mkProc (pr_ctx p) (pr_handled p) (pr_callID p) (pr_out p) (pr_sent p ++ [hangup (pr_callID p)]) (pr_end p)
               else p in
      finish (Returned (match e with Canceled => None | _ => Some e end)) p
  | _ => p
  end.

(** The case of an event. *)
Definition on_event (ev : option Change) (p : Proc) : Proc :=
  match ev with
  | None => p
  | Some change =>
      let id := if decide (pr_callID p = "" /\ SessionID change <> "") then SessionID change else pr_callID p in
      let p := mkProc (pr_ctx p) (pr_handled p) id (pr_out p ++ [line change]) (pr_sent p) (pr_end p) in
      if decide (ch_State change = "ended") then finish (Returned None) p else p
  end.

(** One input of [streamCallEvents]. *)
Definition stream_do (p : Proc) (i : Input) : Proc :=
  match pr_end p with
  | Some _ => p
  | None =>
      match i with
      | IEvent ev => on_event ev p
      | IClosed => finish (Returned None) p
      | IDone => on_done p
      | ICancel e => cancel e p
      | IInterrupt => if pr_handled p then cancel Canceled p else finish Killed p
      end
  end.

Definition streamCallEvents (ctx : Ctx) (handled : bool) (initialCallID : string) (ins : list Input) : Proc :=
  foldl stream_do (mkProc ctx handled initialCallID [] [] None) ins.

(** [main] runs the commands with [Execute]: their context is the background
    context, and no command but [daemon start] handles interrupts. *)
Definition execute_call (initialCallID : string) (ins : list Input) : Proc := streamCallEvents Background false initialCallID ins.

(** ** The commands *)

(** [waitForCallID]: the deadline passes, or the events end or bring the id. *)
Fixpoint waitForCallID (ins : list (option (option Change) + ())) : option (result CliErr string) :=
  match ins with
  | [] => None
  | inr () :: _ => Some (Err ETimedOut)
  | inl None :: _ => Some (Err EClosed)
  | inl (Some ev) :: ins =>
      match ev with
      | Some change => if decide (SessionID change <> "") then Some (Ok (SessionID change)) else waitForCallID ins
      | None => waitForCallID ins
      end
  end.

(** What a command does before it follows the call: its requests and lines, and
    the id it follows the call under, unless it is over. *)
Definition runCallStart (target : string) : Ran * option string :=
  if negb connects then (([], [], Some EConnect), None)
  else match ask (RStart target) with
       | Err msg => (([RStart target], [], Some (EReply msg)), None)
       | Ok _ => (([RStart target], ["Calling " +:+ target +:+ "..."], None), Some "")
       end.

Definition callAttach (id : string) : Ran * option string :=
  if negb connects then (([], [], Some EConnect), None)
  else match ask (RAttach id) with
       | Err msg => (([RAttach id], [], Some (EReply msg)), None)
       | Ok _ => (([RAttach id], ["Attached to " +:+ id], None), Some id)
       end.

Definition callAccept (args : list string) (background useCurrent : bool) : Ran * option string :=
  if negb connects then (([], [], Some EConnect), None)
  else
    let '(rs, r) := resolveCallID args useCurrent in
    match r with
    | Err e => ((rs, [], Some e), None)
    | Ok id =>
        let accept := RAction id "accept" "" in
        if background then
          match ask accept with
          | Err msg => ((rs ++ [accept], [], Some (EReply msg)), None)
          | Ok _ => ((rs ++ [accept], ["Accepted " +:+ id +:+ " (backgrounded)"; "  attach: opencom call attach " +:+ id;
                                       "  hang up: opencom call hangup " +:+ id], None), None)
          end
        else match ask (RAttach id) with
        | Err msg => ((rs ++ [RAttach id], [], Some (EReply msg)), None)
        | Ok _ =>
            match ask accept with
            | Err msg => ((rs ++ [RAttach id; accept], [], Some (EReply msg)), None)
            | Ok _ => ((rs ++ [RAttach id; accept], ["Accepted " +:+ id], None), Some id)
            end
        end
    end.
End commands.

(** ** Starting the daemon ([daemon_ensure.go]) *)

Inductive EnsureErr := EExecutable | EStateDir | ESpawn | EContext | ETimeout.
#[export] Instance EnsureErr_eq_dec : EqDecision EnsureErr.
Proof. solve_decision. Defined.

Section ensure.
(** The probes' answers, the first and then one a round; the clock in
    milliseconds at each round and whether the context is over by then. *)
Context (probe0 : bool) (probe : nat -> bool) (clock : nat -> Z) (ctx_done : nat -> bool).
Context (executable state_dir spawns : bool) (start : Z).

Definition daemonProbeTimeout : Z := 3000.

Fixpoint poll (fuel i : nat) : option (option EnsureErr) :=
  match fuel with
  | O => None
  | S fuel =>
      if (clock i <? start + daemonProbeTimeout)%Z then
        if probe i then Some None else if ctx_done i then Some (Some EContext) else poll fuel (S i)
      else Some (Some ETimeout)
  end.

(** The number of daemons spawned, and the result. *)
Definition EnsureDaemonRunning (fuel : nat) : nat * option (option EnsureErr) :=
  if probe0 then (0, Some None)
  else if negb executable then (0, Some (Some EExecutable))
  else if negb state_dir then (0, Some (Some EStateDir))
  else if negb spawns then (0, Some (Some ESpawn))
  else (1, poll fuel 0).
End ensure.

(** ** Choosing the call *)

Lemma newest_of_spec c l :
  exists l1 l2, c :: l = l1 ++ newest_of c l :: l2 /\
    Forall (fun e => IpcCalls.cl_StartedAt e < IpcCalls.cl_StartedAt (newest_of c l))%Z l1 /\
    Forall (fun e => IpcCalls.cl_StartedAt e <= IpcCalls.cl_StartedAt (newest_of c l))%Z l2.
Proof.
  revert c. induction l as [|e l IH]; intros c; [by exists [], []|]. simpl.
  destruct (Z.ltb_spec (IpcCalls.cl_StartedAt c) (IpcCalls.cl_StartedAt e)) as [Hlt|Hge].
  - destruct (IH e) as (l1 & l2 & Heq & H1 & H2). exists (c :: l1), l2. rewrite Heq. split; [done|]. split; [|done].
    constructor; [|done]. destruct l1 as [|e' l1]; injection Heq as He Hl; [by rewrite <- He|].
    apply Forall_cons in H1 as [H1 _]. subst e'. lia.
  - destruct (IH c) as (l1 & l2 & Heq & H1 & H2). revert Heq H1 H2. generalize (newest_of c l). intros n Heq H1 H2.
    destruct l1 as [|c' l1]; injection Heq as Hc Hl.
    + subst n l2. exists [], (e :: l). by repeat constructor.
    + subst c'. exists (c :: e :: l1), l2. split; [simpl; by do 2 f_equal|]. split; [|done].
      apply Forall_cons in H1 as [Hc H1]. repeat constructor; [done|lia|done].
Qed.

(** [--current] acts on the newest call. Of the calls the daemon lists,
    mute, unmute and hangup with [--current] send their action for the one that
    started last, the first of them if there are several; for a given id they
    send it for that id; without calls, without an id, or with both nothing is
    asked of the daemon but the list. *)
Theorem current_is_newest ask action reason done_ args useCurrent id l :
  ask RList = Ok l -> ask (RAction id action reason) = Ok [] ->
  let '(rs, out, err) := runCallAction true ask action reason done_ args useCurrent in
  match useCurrent, args with
  | false, i :: _ => i = id -> rs = [RAction id action reason] /\ out = [done_ +:+ " " +:+ id] /\ err = None
  | false, [] => rs = [] /\ err = Some ENoID
  | true, _ :: _ => rs = [] /\ err = Some EBothIDs
  | true, [] =>
      (l = [] /\ rs = [RList] /\ err = Some ENoCalls) \/
      exists l1 c l2, l = l1 ++ c :: l2 /\
        Forall (fun e => IpcCalls.cl_StartedAt e < IpcCalls.cl_StartedAt c)%Z l1 /\
        Forall (fun e => IpcCalls.cl_StartedAt e <= IpcCalls.cl_StartedAt c)%Z l2 /\
        rs = [RList; RAction (IpcCalls.cl_CallID c) action reason]
  end.
Proof.
  intros Hl Ha. unfold runCallAction, resolveCallID. simpl. destruct useCurrent, args as [|i args]; simpl; try done.
  - rewrite Hl. destruct l as [|c l]; [simpl; by left|]. destruct (newest_of_spec c l) as (l1 & l2 & Heq & H1 & H2).
    simpl. set (q := RAction _ _ _). case (ask q); intros; simpl; right; by exists l1, (newest_of c l), l2.
  - destruct (decide (i = id)) as [->|Hne]; [by rewrite Ha|]. set (q := RAction _ _ _). by case (ask q).
Qed.

(** ** The stream *)

Definition changes (ins : list Input) : list Change := omap (fun i => match i with IEvent ev => ev | _ => None end) ins.

(** The id a call is known under after some events. *)
Definition known_id (init : string) (l : list Change) : string :=
  foldl (fun id c => if decide (id = "" /\ SessionID c <> "") then SessionID c else id) init l.

Definition stream_ok (ctx : Ctx) (handled : bool) (init : string) (ins : list Input) (p : Proc) : Prop :=
  pr_handled p = handled /\
  (ctx = Background -> pr_ctx p = Background) /\
  exists shown, shown `prefix_of` changes ins /\ pr_out p = line <$> shown /\ pr_callID p = known_id init shown /\
  match pr_end p with
  | None => shown = changes ins /\ pr_sent p = [] /\ Forall (fun c => ch_State c <> "ended") shown
  | Some Killed => handled = false /\ pr_sent p = [] /\ IInterrupt ∈ ins
  | Some (Returned e) =>
      (pr_sent p = [] /\ e = None /\ (IClosed ∈ ins \/ exists c, last shown = Some c /\ ch_State c = "ended")) \/
      (exists x, pr_ctx p = Cancelable (Some x) /\ e = (if decide (x = Canceled) then None else Some x) /\
       pr_sent p = (if decide (known_id init shown = "") then [] else [hangup (known_id init shown)]))
  end.

Lemma cli_changes_snoc ins i : changes (ins ++ [i]) = changes ins ++ match i with IEvent (Some c) => [c] | _ => [] end.
Proof. unfold changes. rewrite omap_app. f_equal. by destruct i as [[c|]| | | |]. Qed.

(** A process that ended stays as it is. *)
Lemma stream_ended_ok ctx handled init ins i p :
  pr_end p <> None -> stream_ok ctx handled init ins p -> stream_ok ctx handled init (ins ++ [i]) p.
Proof.
  intros Hend (Hh & Hb & shown & Hpre & Hout & Hid & He). split; [done|]. split; [done|]. exists shown. rewrite cli_changes_snoc.
  split; [by apply prefix_app_r|]. split; [done|]. split; [done|]. destruct (pr_end p) as [[e|]|]; [| |done].
  - destruct He as [(H1 & H2 & [H3|H3])|He]; [left; split_and!; [done..|left; set_solver] | left; by auto | by right].
  - destruct He as (H1 & H2 & H3). split_and!; [done..|set_solver].
Qed.

(** A process that goes on, or ends without a request, on an input that is no event. *)
Lemma stream_same_ok ctx handled init ins i p p' :
  pr_end p = None -> stream_ok ctx handled init ins p -> (forall c, i <> IEvent (Some c)) ->
  pr_handled p' = pr_handled p -> (pr_ctx p = Background -> pr_ctx p' = Background) -> pr_callID p' = pr_callID p ->
  pr_out p' = pr_out p ->
  (pr_end p' = None /\ pr_sent p' = pr_sent p \/
   pr_end p' = Some (Returned None) /\ pr_sent p' = pr_sent p /\ i = IClosed \/
   pr_end p' = Some Killed /\ pr_sent p' = pr_sent p /\ pr_handled p = false /\ i = IInterrupt \/
   exists x, pr_ctx p' = Cancelable (Some x) /\ pr_end p' = Some (Returned (if decide (x = Canceled) then None else Some x)) /\
     pr_sent p' = pr_sent p ++ (if decide (pr_callID p = "") then [] else [hangup (pr_callID p)])) ->
  stream_ok ctx handled init (ins ++ [i]) p'.
Proof.
  intros Hend (Hh & Hb & shown & Hpre & Hout & Hid & He) Hi Hh' Hc Hid' Hout' Hcase. rewrite Hend in He.
  destruct He as (-> & Hs & Hne). assert (Hch : changes (ins ++ [i]) = changes ins).
  { rewrite cli_changes_snoc. destruct i as [[c|]| | | |]; rewrite ?app_nil_r; try done. by destruct (Hi c). }
  split; [congruence|]. split; [auto|]. exists (changes ins). rewrite Hch, Hid', Hout'. split; [done|]. split; [done|]. split; [done|].
  destruct Hcase as [[-> ->]|[(-> & -> & ->)|[(-> & -> & Hf & ->)|(x & Hx & -> & ->)]]].
  - done.
  - left. split_and!; [done..|left; set_solver].
  - split_and!; [congruence|done|set_solver].
  - right. exists x. rewrite Hs, Hid. done.
Qed.

Lemma known_id_snoc init l c :
  known_id init (l ++ [c]) = if decide (known_id init l = "" /\ SessionID c <> "") then SessionID c else known_id init l.
Proof. unfold known_id. by rewrite foldl_snoc. Qed.

Lemma stream_event_ok ctx handled init ins c p :
  pr_end p = None -> stream_ok ctx handled init ins p -> stream_ok ctx handled init (ins ++ [IEvent (Some c)]) (on_event (Some c) p).
Proof.
  intros Hend (Hh & Hb & shown & Hpre & Hout & Hid & He). rewrite Hend in He. destruct He as (-> & Hs & Hne).
  unfold stream_ok, on_event. rewrite cli_changes_snoc, Hid, Hout, <- known_id_snoc.
  destruct (decide (ch_State c = "ended")) as [Hc|Hc]; simpl; (split; [done|]); (split; [done|]);
    exists (changes ins ++ [c]); rewrite fmap_app; (split; [done|]); (split; [done|]); (split; [done|]).
  - left. split_and!; [done..|]. right. exists c. by rewrite last_snoc.
  - rewrite Hend. split_and!; [done..|]. apply Forall_app. by repeat constructor.
Qed.

Lemma stream_cancel_ok ctx handled init ins i e p :
  pr_end p = None -> stream_ok ctx handled init ins p -> (forall c, i <> IEvent (Some c)) ->
  stream_ok ctx handled init (ins ++ [i]) (cancel e p).
Proof.
  intros Hend Hok Hi. unfold cancel. destruct (pr_ctx p) as [|[x|]] eqn:Hx;
    apply (stream_same_ok ctx handled init ins _ p); auto; simpl; rewrite ?Hx; done.
Qed.

Lemma stream_step_ok ctx handled init ins i p :
  stream_ok ctx handled init ins p -> stream_ok ctx handled init (ins ++ [i]) (stream_do p i).
Proof.
  intros Hok. unfold stream_do. destruct (pr_end p) as [e|] eqn:Hend; [by apply stream_ended_ok; [rewrite Hend|]|].
  destruct i as [[c|]| | |e|].
  - by apply stream_event_ok.
  - by apply (stream_same_ok ctx handled init ins _ p); auto.
  - by apply (stream_same_ok ctx handled init ins _ p); auto.
  - apply (stream_same_ok ctx handled init ins _ p); auto; try done; unfold on_done; destruct (pr_ctx p) as [|[x|]] eqn:Hx; try done; auto.
    all: try (by case_decide). do 3 right. exists x. destruct (decide (pr_callID p = "")) as [Hid|Hid].
    + rewrite (decide_False (P := pr_callID p <> "")) by (intros Hn; by apply Hn). simpl. rewrite app_nil_r. by destruct x.
    + rewrite (decide_True (P := pr_callID p <> "")) by done. simpl. by destruct x.
  - by apply stream_cancel_ok.
  - destruct (pr_handled p) eqn:Hh.
    + by apply stream_cancel_ok.
    + apply (stream_same_ok ctx handled init ins _ p); auto; try done. right. right. by left.
Qed.

Lemma stream_run_ok ctx handled init ins : stream_ok ctx handled init ins (streamCallEvents ctx handled init ins).
Proof.
  unfold streamCallEvents. induction ins as [|i ins IH] using rev_ind.
  - split; [done|]. split; [done|]. by exists [].
  - rewrite foldl_snoc. by apply stream_step_ok.
Qed.


(** *** Interrupts *)

Definition same_call (p p' : Pipe) : Prop := s_state (sess p') = s_state (sess p) /\ sys_pending (pp_sys p') = sys_pending (pp_sys p).

(** The daemon's code that follows a call for a client changes nothing of it. *)
Lemma pipe_do_same o p p' : pipe_do o p = Some p' -> same_call p p'.
Proof.
  unfold same_call. destruct o; simpl.
  - intros [= <-]. unfold pipe_subscribe. by destruct (pp_pc p).
  - intros [= <-]. unfold pipe_snapshot. by destruct (pp_pc p).
  - intros [= <-]. unfold pipe_recv. destruct (pp_pc p) as [| |id l cu fi| |] eqn:Hpc; try done.
    destruct (session_recv l (sess p)) as [[ev s]|] eqn:Hr; [|done].
    assert (Hst : s_state s = s_state (sess p)).
    { unfold session_recv in Hr. destruct (heap _ !! l) as [c|]; [|done]. simpl in Hr. by destruct (recv c); simplify_eq. }
    unfold pipe_event. simpl. rewrite Hpc. by case_decide.
  - intros [= <-]. unfold pipe_quit. destruct (pp_pc p); try done. by destruct (pp_done p).
  - unfold pipe_unsubscribe. destruct (pp_pc p); try (by intros [= <-]). unfold Unsubscribe.
    destruct (hub_unsubscribe _ _); simpl; [by intros [= <-] | done].
Qed.

Lemma pipe_run_same os p p' : pipe_run os p = Some p' -> same_call p p'.
Proof.
  revert p. induction os as [|o os IH]; intros p; simpl; [by intros [= <-]|].
  destruct (pipe_do o p) as [p1|] eqn:Ho; simpl; [|done]. intros Hr. apply pipe_do_same in Ho as [H1 H2].
  apply IH in Hr as [H3 H4]. split; congruence.
Qed.

(** The client's connection breaks. *)
Definition connection_lost (p : Pipe) : Pipe := mkPipe (pp_sys p) (pp_pc p) true (pp_out p).

(** C17: Ctrl+C does not hang up. Run as the program runs them, the commands that
    follow a call in the foreground never send a hang-up, whatever happens and
    however the call is known; Ctrl+C ends the process at once, if it has not
    ended before; and what the daemon then does for the lost client leaves the
    call in its state, with nothing pending. *)
Theorem ctrl_c_leaves_call init ins :
  let p := execute_call init ins in
  pr_sent p = [] /\ (IInterrupt ∈ ins -> pr_end p <> None) /\
  forall os d d', pipe_run os (connection_lost d) = Some d' ->
    s_state (sess d') = s_state (sess d) /\ sys_pending (pp_sys d') = sys_pending (pp_sys d).
Proof.
  intros p. destruct (stream_run_ok Background false init ins) as (_ & Hb & shown & _ & _ & _ & He). fold (execute_call init ins) in Hb, He.
  fold p in Hb, He. split; [|split].
  - destruct (pr_end p) as [[e|]|]; [|by apply He|by apply He].
    destruct He as [[Hs _]|(x & Hx & _)]; [done|]. by rewrite Hb in Hx.
  - subst p. unfold execute_call, streamCallEvents. clear. intros (l1 & l2 & ->)%list_elem_of_split.
    rewrite foldl_app. simpl. set (p1 := foldl _ _ l1). assert (Hk : forall l q, pr_end q <> None -> pr_end (foldl stream_do q l) <> None).
    { induction l as [|i l IH]; intros q Hq; [done|]. simpl. apply IH. unfold stream_do.
      destruct (pr_end q) eqn:E; [by rewrite E | done]. }
    apply Hk. assert (Hh : pr_handled p1 = false) by apply (stream_run_ok Background false init l1).
    unfold stream_do. destruct (pr_end p1) eqn:E; [by rewrite E|]. by rewrite Hh.
  - intros os d d' Hr. by apply pipe_run_same in Hr.
Qed.

(** ** Starting the daemon *)

Section bounded.
Context (probe : nat -> bool) (clock : nat -> Z) (ctx_done : nat -> bool) (start : Z).
Context (Hstart : (start <= clock 0)%Z) (Hclock : forall i : nat, (clock i + 100 <= clock (S i))%Z).

Definition answered (i : nat) : Prop :=
  probe i = true /\ (clock i < start + 3000)%Z /\ forall j, j < i -> probe j = false /\ ctx_done j = false.

Lemma clock_bound i : (start + 100 * Z.of_nat i <= clock i)%Z.
Proof. induction i as [|i IH]; [lia|]. specialize (Hclock i). lia. Qed.

Lemma clock_mono i j : i <= j -> (clock i <= clock j)%Z.
Proof. induction 1 as [|j _ IH]; [lia|]. specialize (Hclock j). lia. Qed.

Lemma poll_spec fuel i :
  fuel + i = 32 -> i <= 30 -> (forall j, j < i -> probe j = false /\ ctx_done j = false) ->
  exists e, poll probe clock ctx_done start fuel i = Some e /\ (e = None <-> exists k, answered k).
Proof.
  revert i. induction fuel as [|fuel IH]; intros i Hf Hi Hj; [lia|]. simpl. unfold daemonProbeTimeout.
  assert (Hlate : forall k, answered k -> i <= k).
  { intros k (Hk & _). destruct (decide (i <= k)); [done|]. destruct (Hj k); [lia|]. congruence. }
  destruct (Z.ltb_spec (clock i) (start + 3000)) as [Hlt|Hge].
  - pose proof (clock_bound i). destruct (probe i) eqn:Hp.
    + exists None. split; [done|]. split; [|done]. intros _. by exists i.
    + destruct (ctx_done i) eqn:Hd.
      * exists (Some EContext). split; [done|]. split; [done|]. intros (k & Hk). pose proof (Hlate k Hk) as Hle. destruct Hk as (Hk & _ & Hb).
        destruct (decide (k = i)) as [->|Hne]; [congruence|]. destruct (Hb i); [lia|]. congruence.
      * apply IH; [lia..|]. intros j Hlt'. destruct (decide (j = i)) as [->|]; [done|]. apply Hj. lia.
  - exists (Some ETimeout). split; [done|]. split; [done|]. intros (k & Hk). pose proof (clock_mono i k (Hlate k Hk)).
    destruct Hk as (_ & Hk & _). lia.
Qed.

(** A command that needs the daemon waits for it a bounded time. It spawns at
    most one daemon, and only if the first probe finds none; when every round
    takes its 100 ms it ends within 32 rounds; and it succeeds exactly if the
    first probe or one within three seconds of the spawn is answered before the
    context ends. *)
Theorem ensure_daemon_bounded probe0 executable state_dir spawns :
  let '(n, r) := EnsureDaemonRunning probe0 probe clock ctx_done executable state_dir spawns start 32 in
  n <= 1 /\ (n = 1 -> probe0 = false) /\ r <> None /\ (r = Some None <-> probe0 = true \/ (n = 1 /\ exists i, answered i)).
Proof.
  unfold EnsureDaemonRunning. destruct probe0; [naive_solver|]. destruct executable; [|naive_solver].
  destruct state_dir; [|naive_solver]. destruct spawns; [|naive_solver]. cbn [negb].
  destruct (poll_spec 32 0) as (e & -> & He); [lia..|]. naive_solver.
Qed.
End bounded.

(** ** Witnesses *)

Definition demo_call (id : string) (started : Z) : IpcCalls.CallsListEntry :=
  IpcCalls.mkCallsListEntry id "ringing" "inbound" "bob" started false false "" 0 0 "".
Definition demo_ask (q : Req) : result string (list IpcCalls.CallsListEntry) :=
  Ok (match q with RList => [demo_call "old" 1; demo_call "new" 5; demo_call "twin" 5] | _ => [] end).

Lemma current_is_newest_witness :
  (callMute true demo_ask [] true).1.1 = [RList; RAction "new" "mute" ""].
Proof.
  pose proof (current_is_newest demo_ask "mute" "" "Muted" [] true "x" [demo_call "old" 1; demo_call "new" 5; demo_call "twin" 5] eq_refl eq_refl) as H.
  unfold callMute. destruct (runCallAction _ _ _ _ _ _ _) as [[rs out] err] eqn:E. simpl in H. vm_compute in E. injection E as <- <- <-.
  destruct H as [(H & _)|(l1 & c & l2 & _ & _ & _ & H)]; [discriminate | reflexivity].
Defined.

Lemma ensure_daemon_bounded_witness :
  EnsureDaemonRunning false (fun i => Nat.eqb i 7) (fun i => 100 * Z.of_nat i)%Z (fun _ => false) true true true 0 32 = (1, Some None).
Proof.
  pose proof (ensure_daemon_bounded (fun i => Nat.eqb i 7) (fun i => 100 * Z.of_nat i)%Z (fun _ => false) 0 ltac:(cbn; lia) ltac:(intros i; cbn beta; lia)
    false true true true) as H.
  destruct (EnsureDaemonRunning _ _ _ _ _ _ _ _ _) as [n r] eqn:E. assert (n = 1) as -> by (vm_compute in E; by injection E as <- _).
  f_equal. apply H. right. split; [reflexivity|]. exists 7. split; [reflexivity|]. split; [lia|]. intros j Hj. split; [|reflexivity].
  apply Nat.eqb_neq. lia.
Defined.
