(* ===== verification/Notify.v ===== *)
(** * Desktop notifications ([internal/notify])

    [WatchCalls] turns the call registry's events into notifications. Its loop
    reads a subscription of the registry; it is related step by step to the
    forwarding goroutine of [Forward], whose theorems it inherits. *)
From S2P Require Import Prelude GoChan GoStrings CallSession Forward.
From S2P Require FriendsStore CallManager.
#[local] Open Scope string_scope.
#[local] Open Scope list_scope.

(** ** What is shown *)

Section format.
Context (ID_String : string -> string).

(** [FriendNamer]; [None] is a nil interface. *)
Definition Namer : Type := option (string -> option FriendsStore.Friend).

Definition friendName (names : Namer) (id : string) : string :=
  let short :=
    let s := ID_String id in
    if decide (12 < String.length s) then String.substring 0 6 s +:+ "…" +:+ str_drop (String.length s - 4) s else s in
  match names with
  | Some get =>
      match get id with
      | Some f => if decide (FriendsStore.Name f <> "") then FriendsStore.Name f else short
      | None => short
      end
  | None => short
  end.

Definition formatNotification (ev : StateChange) (names : Namer) : string * string :=
  let who := friendName names (ev_Remote ev) in
  if decide (ev_State ev = "ringing") then
    if decide (ev_Direction ev = "inbound") then ("Incoming call", "from " +:+ who) else ("Calling…", who)
  else if decide (ev_State ev = "connected") then ("Call connected", who)
  else if decide (ev_State ev = "ended") then
    ("Call ended", if decide (ev_Reason ev <> "") then who +:+ " — " +:+ ev_Reason ev else who)
  else ("", "").

(** What the loop's body does with an event: nothing without a title. *)
Definition notifications (names : Namer) (ev : StateChange) : list (string * string) :=
  let n := formatNotification ev names in if decide (fst n = "") then [] else [n].

(** ** The watcher *)

Section watch.
Context {S Tok Op : Type} `{Source S StateChange Tok Op}.
Context (names : Namer) (t : Tok) (l : nat).

Record Watch := mkWatch {
  wt_src : S;
  wt_pc : FwPC;
  wt_ctx_done : bool;
  wt_seen : list StateChange;              (* the events read *)
  wt_notified : list (string * string) }.  (* the calls of [Notify] *)

Definition wt_recv (w : Watch) : Watch :=
  match wt_pc w, src_heap (wt_src w) !! l with
  | FwLoop, Some c =>
      match recv c with
      | RecvValue v c' =>
          mkWatch (src_recv l c' (wt_src w)) FwLoop (wt_ctx_done w) (wt_seen w ++ [v]) (wt_notified w ++ notifications names v)
      | RecvClosed => mkWatch (wt_src w) FwExit (wt_ctx_done w) (wt_seen w) (wt_notified w)
      | RecvBlocks => w
      end
  | _, _ => w
  end.

Definition wt_quit (w : Watch) : Watch :=
  match wt_pc w with
  | FwLoop => if wt_ctx_done w then mkWatch (wt_src w) FwExit true (wt_seen w) (wt_notified w) else w
  | _ => w
  end.

(** The deferred unsubscription; [None] is a panic. *)
Definition wt_unsubscribe (w : Watch) : option Watch :=
  match wt_pc w with
  | FwExit => s ← src_unsubscribe t l (wt_src w); Some (mkWatch s FwReturned (wt_ctx_done w) (wt_seen w) (wt_notified w))
  | _ => Some w
  end.

Definition wt_do (o : fop) (w : Watch) : option Watch :=
  match o with
  | FRecv => Some (wt_recv w)
  | FQuit => Some (wt_quit w)
  | FUnsubscribe => wt_unsubscribe w
  end.

(** A step, with the events stored in the channel by it. *)
Inductive wt_step : Watch -> list StateChange -> Watch -> Prop :=
| ws_own o w w' : wt_do o w = Some w' -> wt_step w [] w'
| ws_source o s w c c' evs : wt_pc w <> FwReturned -> src_do o (wt_src w) = Some s -> src_private t l o ->
    src_heap (wt_src w) !! l = Some c -> src_heap s !! l = Some c' -> grown c c' evs ->
    wt_step w evs (mkWatch s (wt_pc w) (wt_ctx_done w) (wt_seen w) (wt_notified w))
| ws_cancel w : wt_step w [] (mkWatch (wt_src w) (wt_pc w) true (wt_seen w) (wt_notified w)).

Inductive wt_run : Watch -> list StateChange -> Watch -> Prop :=
| wr_nil w : wt_run w [] w
| wr_snoc w evs w1 evs1 w2 : wt_run w evs w1 -> wt_step w1 evs1 w2 -> wt_run w (evs ++ evs1) w2.

Definition WatchCalls (s : S) : Watch := mkWatch s FwLoop false [] [].

(** ** The watcher is a forwarder

    The forwarder's connection ends when the watcher leaves its loop. *)
Definition left_loop (pc : FwPC) : bool := match pc with FwLoop => false | _ => true end.
Definition as_forwarder (w : Watch) : Fw := mkFw (wt_src w) (wt_pc w) (left_loop (wt_pc w)) (wt_seen w).

Definition told_all (w : Watch) : Prop := wt_notified w = mbind (notifications names) (wt_seen w).

Lemma wt_step_told w evs w' : wt_step w evs w' -> told_all w -> told_all w'.
Proof.
  unfold told_all. intros Hs Ht. destruct Hs as [o w w' Ho | |]; simpl; try done. destruct o; simpl in Ho.
  - injection Ho as <-. unfold wt_recv. destruct (wt_pc w); try done. destruct (src_heap _ !! l) as [c|]; [|done].
    destruct (recv c); simpl; try done. by rewrite bind_app, Ht, bind_singleton.
  - injection Ho as <-. unfold wt_quit. destruct (wt_pc w); try done. by destruct (wt_ctx_done w).
  - unfold wt_unsubscribe in Ho. destruct (wt_pc w); try (by injection Ho as <-). by apply bind_Some in Ho as (s & _ & [= <-]).
Qed.

Lemma wt_step_inv evs w evs' w' :
  wt_step w evs' w' -> fw_inv t l evs (as_forwarder w) -> fw_inv t l (evs ++ evs') (as_forwarder w').
Proof.
  intros Hs Hi. destruct Hs as [o w w' Ho | o s w c c' evs' Hret Ho Hp Hc Hc' Hg | w].
  - rewrite app_nil_r. destruct o; simpl in Ho.
    + injection Ho as <-. pose proof (fw_recv_inv t l _ _ Hi) as Hr. revert Hr. unfold wt_recv, fw_recv, as_forwarder. simpl.
      destruct (wt_pc w) eqn:Hpc; simpl; rewrite ?Hpc; try done. destruct (src_heap (wt_src w) !! l) as [c|] eqn:Hl; simpl; rewrite ?Hpc; try done.
      destruct (recv c) eqn:Hrc; simpl; rewrite ?Hpc; try done. intros [H1 H2 _]. by split.
    + injection Ho as <-. unfold wt_quit. destruct (wt_pc w) eqn:Hpc; try done. destruct (wt_ctx_done w); [|done].
      destruct Hi as [H1 H2 H3]. split; simpl; [|done|done]. intros _. apply H1. simpl. congruence.
    + unfold wt_unsubscribe in Ho. destruct (wt_pc w) eqn:Hpc; try (by injection Ho as <-).
      apply bind_Some in Ho as (s & Hu & [= <-]). destruct Hi as [H1 H2 H3]. by split.
  - eapply fw_step_inv; [|exact Hi]. by apply (fs_source t l o s (as_forwarder w) c c' evs').
  - by rewrite app_nil_r.
Qed.

Lemma wt_run_inv w0 evs w :
  wt_run w0 evs w -> fw_inv t l [] (as_forwarder w0) -> told_all w0 -> fw_inv t l evs (as_forwarder w) /\ told_all w.
Proof.
  intros Hr Hi Ht. induction Hr as [w|w evs w1 evs1 w2 _ IH Hs]; [done|]. destruct (IH Hi Ht) as [Hi1 Ht1].
  split; [by eapply wt_step_inv | by eapply wt_step_told].
Qed.

(** Reading on, the watcher is the forwarder reading on. *)
Lemma wt_iter n w : wt_pc w = FwLoop -> fw_inv t l (wt_seen w ++ buffered l (as_forwarder w)) (as_forwarder w) -> n = length (buffered l (as_forwarder w)) ->
  told_all w -> wt_notified (Nat.iter n wt_recv w) = mbind (notifications names) (wt_seen w ++ buffered l (as_forwarder w)).
Proof.
  revert w. induction n as [|n IH]; intros w Hpc Hi Hn Ht.
  - symmetry in Hn. apply nil_length_inv in Hn. simpl. by rewrite Ht, Hn, app_nil_r.
  - rewrite Nat.iter_succ_r. destruct (fw_open t l (as_forwarder w)) as (c & Hl & Hc); [apply (fi_sub _ _ _ _ Hi); simpl; congruence|].
    simpl in Hl. unfold buffered in Hn, Hi |- *. simpl in Hn, Hi |- *. rewrite Hl in Hn, Hi |- *.
    assert (Hstep : wt_step w [] (wt_recv w)) by (by apply (ws_own FRecv)).
    pose proof (wt_step_told _ _ _ Hstep Ht) as Ht1. pose proof (wt_step_inv _ _ _ _ Hstep Hi) as Hi1. rewrite app_nil_r in Hi1.
    destruct (ch_buf c) as [|v buf] eqn:Hb; [done|].
    assert (Hlt : l < length (src_heap (wt_src w))) by by apply lookup_lt_Some in Hl.
    assert (Hw : wt_pc (wt_recv w) = FwLoop /\ wt_seen (wt_recv w) = wt_seen w ++ [v] /\ buffered l (as_forwarder (wt_recv w)) = buf).
    { unfold wt_recv. rewrite Hpc, Hl. unfold recv. rewrite Hb. simpl. split_and!; [done|done|].
      unfold buffered. simpl. by rewrite src_recv_heap, list_lookup_insert_eq. }
    destruct Hw as (Hpc1 & Hs1 & Hb1). rewrite IH; rewrite ?Hb1, ?Hs1, <- ?app_assoc; try done. simpl in Hn. lia.
Qed.

(** C31: Every event worth telling is shown once, in order. For any interleaving
    of the watcher with the other operations of the registry and the end of its
    context: the watcher never panics; the notifications are exactly those of
    the events it has read, and these are a prefix of the events stored in its
    channel; while it is in its loop, reading on shows all of them; and when its
    context has ended it can always finish, giving the subscription up. *)
Theorem notifications_shown s c evs w :
  src_sub s t l -> src_heap s !! l = Some c -> ch_buf c = [] -> wt_run (WatchCalls s) evs w ->
  (forall o, wt_do o w <> None) /\
  (exists rest, evs = wt_seen w ++ rest) /\ wt_notified w = mbind (notifications names) (wt_seen w) /\
  (wt_pc w = FwLoop -> exists n, wt_notified (Nat.iter n wt_recv w) = mbind (notifications names) evs) /\
  (wt_ctx_done w = true -> wt_pc w <> FwReturned ->
     exists w', wt_unsubscribe (wt_quit w) = Some w' /\ wt_pc w' = FwReturned /\ ~ src_sub (wt_src w') t l).
Proof.
  intros Hs Hl Hb Hrun.
  destruct (wt_run_inv _ _ _ Hrun) as [Hi Ht]; [|done|].
  { split; simpl; [done | by exists [] |]. intros _. split; [done|]. unfold buffered; simpl. by rewrite Hl, Hb. }
  split_and!.
  - intros [| |]; simpl; [done..|]. unfold wt_unsubscribe. destruct (wt_pc w) eqn:Hpc; [done| |done].
    destruct (src_release (wt_src w) t l) as (s' & -> & _); [apply (fi_sub _ _ _ _ Hi); simpl; congruence | done].
  - apply (fi_order _ _ _ _ Hi).
  - done.
  - intros Hpc. exists (length (buffered l (as_forwarder w))). destruct (fi_all _ _ _ _ Hi) as [_ He]; [simpl; by rewrite Hpc|].
    simpl in He. rewrite wt_iter; [by rewrite <- He | done | by rewrite <- He | done | done].
  - intros Hd Hpc. destruct (src_release (wt_src w) t l) as (s' & Hu & Hno); [by apply (fi_sub _ _ _ _ Hi)|].
    exists (mkWatch s' FwReturned (wt_ctx_done w) (wt_seen w) (wt_notified w)). unfold wt_quit, wt_unsubscribe.
    destruct (wt_pc w) eqn:Epc; [|rewrite Epc|done]; rewrite ?Hd; simpl; rewrite Hu; auto.
Qed.
End watch.
End format.

(** ** Witness: an outgoing call *)

Definition demo_names : Namer := Some (fun id => if String.eqb id "peerB" then Some (FriendsStore.mkFriend "Bob" id "" 0 "") else None).
Definition demo_forwarded : CallManager.Manager := default CallManager.demo_manager (CallManager.mgr_do (CallManager.MForward 0) CallManager.demo_manager).
Definition demo_watch : Watch := mkWatch demo_forwarded FwLoop false [] [].

Lemma demo_watch_run : wt_run (Op := CallManager.mop) (fun s => s) demo_names () 0 (WatchCalls CallManager.demo_manager)
  [mkStateChange "c-2" "ringing" "outbound" "peerB" 1 ""] demo_watch.
Proof.
  apply (wr_snoc _ _ _ _ _ [] (WatchCalls CallManager.demo_manager)); [apply wr_nil|].
  eapply (ws_source _ _ _ _ (CallManager.MForward 0)); [done | vm_compute; reflexivity | exact I | vm_compute; reflexivity | vm_compute; reflexivity |].
  by split_and!.
Qed.

Lemma notifications_shown_witness :
  exists n, wt_notified (Nat.iter n (wt_recv (Op := CallManager.mop) (Tok := ()) (fun s => s) demo_names 0) demo_watch) = [("Calling…", "Bob")].
Proof.
  destruct (notifications_shown (Op := CallManager.mop) (fun s => s) demo_names () 0 CallManager.demo_manager (mkChan 32 [] false)
    [mkStateChange "c-2" "ringing" "outbound" "peerB" 1 ""] demo_watch) as (_ & _ & _ & Hall & _).
  - split; [apply CallManager.demo_manager_ok | vm_compute; left].
  - vm_compute. reflexivity.
  - reflexivity.
  - apply demo_watch_run.
  - destruct (Hall eq_refl) as (n & Hn). exists n. exact Hn.
Defined.
