(* ===== verification/DaemonRun.v ===== *)
(** * The daemon's life ([internal/app/daemon.go], [Run])

    [Run] acquires its components one after the other, defers their release
    and serves until its context ends. An action is a call that acquires,
    starts or releases something; [fails] says which calls return an error. *)
From S2P Require Import Prelude.
#[local] Open Scope list_scope.

Inductive Act :=
| MkdirSocket | OpenFriends | OpenPeerCache | OpenInvites | ParseListenAddrs
| NewHost | MkdirPeerstore | LoadPeerstore | SetNotifier | NewResolver | NewPublisher
| EngineStart | NewAudio | GoAudio | RegisterAudio | GoWatchCalls | NewInvites | InvitesStart
| EnableMDNS | Listen | WithCancel | GoPublisher | SubscribeAddrs | GoVersionChecker | RegisterMethods | Serve
(* releases *)
| HostClose | SavePeerstore | EngineStop | AudioStop | RemoveControlHandler | RemoveMediaHandler | InvitesStop
| StopMDNS | ListenerClose | Cancel.
#[export] Instance Act_eq_dec : EqDecision Act.
Proof. solve_decision. Defined.

(** ** A monad of actions and deferred calls

    [None] is the return of an error; the deferred calls run on every return,
    the last deferred first. *)
Record St := mkSt { trace : list Act; deferred : list Act }.
Definition M (A : Type) : Type := St -> St * option A.
#[export] Instance M_ret : MRet M := fun A a s => (s, Some a).
#[export] Instance M_bind : MBind M :=
  fun A B f m s => match m s with (s', Some a) => f a s' | (s', None) => (s', None) end.

Section run.
Context (fails : Act -> bool).

(** A call whose error [Run] returns. *)
Definition must (a : Act) : M () := fun s => (mkSt (trace s ++ [a]) (deferred s), if fails a then None else Some ()).
(** A call whose error is only logged: whether it succeeded. *)
Definition try_ (a : Act) : M bool := fun s => (mkSt (trace s ++ [a]) (deferred s), Some (negb (fails a))).
(** A call without an error. *)
Definition do_ (a : Act) : M () := fun s => (mkSt (trace s ++ [a]) (deferred s), Some ()).
Definition defer_ (a : Act) : M () := fun s => (mkSt (trace s) (a :: deferred s), Some ()).
Definition when (b : bool) (m : M ()) : M () := if b then m else mret ().

(** The socket's directory is not empty and not "."; a listening port is
    configured; what the options disable. *)
Context (has_dir has_port DisableAudio DisableMDNS : bool).

(** The stores. *)
Definition run_open : M () :=
  _ ← when has_dir (must MkdirSocket);
  _ ← must OpenFriends;
  _ ← must OpenPeerCache;
  must OpenInvites.

(** The host and its peer store. *)
Definition run_host : M () :=
  _ ← when has_port (must ParseListenAddrs);
  _ ← must NewHost;
  _ ← defer_ HostClose;
  _ ← must MkdirPeerstore;
  _ ← try_ LoadPeerstore;
  defer_ SavePeerstore.

(** Discovery and the call engine. *)
Definition run_calls : M () :=
  _ ← do_ SetNotifier;
  _ ← must NewResolver;
  _ ← must NewPublisher;
  _ ← do_ EngineStart;
  defer_ EngineStop.

Definition run_audio : M () :=
  when (negb DisableAudio) (
    _ ← must NewAudio;
    _ ← do_ GoAudio;
    _ ← defer_ AudioStop;
    _ ← do_ RegisterAudio;
    _ ← defer_ RemoveControlHandler;
    defer_ RemoveMediaHandler).

(** Notifications, invites and mDNS. *)
Definition run_invites : M () :=
  _ ← do_ GoWatchCalls;
  _ ← must NewInvites;
  _ ← do_ InvitesStart;
  _ ← defer_ InvitesStop;
  when (negb DisableMDNS) (
    ok ← try_ EnableMDNS;
    when ok (defer_ StopMDNS)).

(** The socket, the publisher and the version checker. *)
Definition run_listen : M () :=
  _ ← must Listen;
  _ ← defer_ ListenerClose;
  _ ← do_ WithCancel;
  _ ← defer_ Cancel;
  _ ← do_ GoPublisher;
  _ ← try_ SubscribeAddrs;
  do_ GoVersionChecker.

Definition run_serve : M () :=
  _ ← do_ RegisterMethods;
  must Serve.

Definition run_body : M () :=
  _ ← run_open; _ ← run_host; _ ← run_calls; _ ← run_audio; _ ← run_invites; _ ← run_listen; run_serve.

(** [Run]: everything it does, and whether it returns without an error. *)
Definition Run : list Act * bool :=
  let '(s, r) := run_body (mkSt [] []) in (trace s ++ deferred s, bool_decide (is_Some r)).

(** ** What was acquired is released *)

(** Calls whose error [Run] returns. *)
Definition fatal (a : Act) : bool :=
  match a with
  | MkdirSocket | OpenFriends | OpenPeerCache | OpenInvites | ParseListenAddrs | NewHost | MkdirPeerstore
  | NewResolver | NewPublisher | NewAudio | NewInvites | Listen | Serve => true
  | _ => false
  end.

Definition failed (a : Act) : bool := fatal a && fails a.

(** What releases the things an action acquires; [SavePeerstore] writes the
    peer store back, however loading it went. *)
Definition releases (a : Act) : list Act :=
  match a with
  | NewHost => [HostClose]
  | LoadPeerstore => [SavePeerstore]
  | EngineStart => [EngineStop]
  | GoAudio => [AudioStop]
  | RegisterAudio => [RemoveMediaHandler; RemoveControlHandler]
  | InvitesStart => [InvitesStop]
  | EnableMDNS => if fails EnableMDNS then [] else [StopMDNS]
  | Listen => [ListenerClose]
  | WithCancel => [Cancel]
  | _ => []
  end.

(** The releases owed after some actions, the latest acquired first. *)
Fixpoint owed (l : list Act) : list Act :=
  match l with [] => [] | a :: l' => owed l' ++ (if failed a then [] else releases a) end.

Definition is_release (a : Act) : bool :=
  match a with
  | HostClose | SavePeerstore | EngineStop | AudioStop | RemoveControlHandler | RemoveMediaHandler | InvitesStop
  | StopMDNS | ListenerClose | Cancel => true
  | _ => false
  end.

(** The start-up [starts] with the deferred calls [d], and its outcome, are as
    they should be. *)
Definition run_ok (starts d : list Act) (ok : bool) : Prop :=
  Forall (fun a => is_release a = false) starts /\ d = owed starts /\
  existsb failed (removelast starts) = false /\ ok = negb (existsb failed starts) /\
  (ok = true -> last starts = Some Serve) /\ NoDup (starts ++ d) /\
  (LoadPeerstore ∈ starts -> [SavePeerstore; HostClose] `suffix_of` starts ++ d).

Lemma run_body_ok :
  let '(s, r) := run_body (mkSt [] []) in run_ok (trace s) (deferred s) (bool_decide (is_Some r)).
Proof.
  unfold run_body, run_open, run_host, run_calls, run_audio, run_invites, run_listen, run_serve, mbind, M_bind, mret, M_ret, when, must, try_, do_, defer_.
  repeat (simpl; match goal with
    | |- context [if ?b then _ else _] => lazymatch b with context [if _ then _ else _] => fail | _ => destruct b eqn:? end
    end).
  all: cbv [run_ok trace deferred owed failed fatal releases andb existsb removelast].
  all: rewrite ?negb_true_iff, ?negb_false_iff in *.
  all: repeat match goal with H : fails _ = _ |- _ => try rewrite !H; clear H end; cbv [app negb orb last is_Some].
  all: split_and!; [apply (bool_decide_unpack _); by vm_compute|done|done|done|done|apply (bool_decide_unpack _); by vm_compute..].
Qed.

Lemma failed_last t :
  existsb failed (removelast t) = false -> forall i a, t !! i = Some a -> failed a = true -> S i = length t.
Proof.
  destruct t as [|x t _] using rev_ind; [done|]. rewrite removelast_last. intros H i a Hi Ha.
  rewrite length_app; simpl. apply lookup_app_Some in Hi as [Hi|[Hle Hx]];
    [|apply list_lookup_singleton_Some in Hx as [? _]; lia].
  exfalso. apply not_true_iff_false in H. apply H, existsb_exists. exists a. split; [|done].
  by eapply list_elem_of_In, list_elem_of_lookup_2.
Qed.

End run.
