(* ===== verification/Service.v ===== *)
(** * The service ([internal/cli/service.go])

    The daemon under a service manager: [opencomService] with its runs of
    [app.Run], and the [opencom service] commands. The service library
    (kardianos/service) is a parameter: it calls [Start] and [Stop], and the
    commands get its answers. *)
From S2P Require Import Prelude GoStrings.
#[local] Open Scope string_scope.
#[local] Open Scope list_scope.

(** ** [opencomService] *)

Inductive StartErr := EPaths | EConfigDir | EStateDir | EConfig | EIdentity | ELog.
#[export] Instance StartErr_eq_dec : EqDecision StartErr.
Proof. solve_decision. Defined.

(** A goroutine of [Start]: [app.Run] at work, returned with an error or none,
    and its result sent. *)
Inductive RunPc := Serving | Returned (err : option string) | Sent.
(** [ru_done] is the content of the channel [done], which holds one result. *)
Record Run := mkRun { ru_cancelled : bool; ru_pc : RunPc; ru_done : option (option string) }.

(** A call of [Stop]: waiting for the run's result, or returned: with the
    result, after ten seconds, or at once. *)
Inductive StopPc := Waiting (run : nat) | Drained (run : nat) | TimedOut (run : nat) | NothingToStop.

(** The fields [cancel] and [done] name the run they belong to. *)
Record Svc := mkSvc {
  cancel : option nat;
  done_ : option nat;
  logger : bool;
  runs : list Run;
  stops : list StopPc;
  reported : list string }.

Definition svc_init : Svc := mkSvc None None false [] [] [].

Definition set_runs (rs : list Run) (s : Svc) : Svc := mkSvc (cancel s) (done_ s) (logger s) rs (stops s) (reported s).
Definition set_stops (st : list StopPc) (s : Svc) : Svc := mkSvc (cancel s) (done_ s) (logger s) (runs s) st (reported s).

(** [Start]: [fails] says which of its calls fails, [log] whether the manager
    gives a logger. *)
Definition Start (log : bool) (fails : StartErr -> bool) (s : Svc) : Svc * option StartErr :=
  let s := mkSvc (cancel s) (done_ s) (log || logger s) (runs s) (stops s) (reported s) in
  match List.find fails [EPaths; EConfigDir; EStateDir; EConfig; EIdentity; ELog] with
  | Some e => (s, Some e)
  | None =>
      let i := length (runs s) in
      (mkSvc (Some i) (Some i) (logger s) (runs s ++ [mkRun false Serving None]) (stops s) (reported s), None)
  end.

(** [app.Run] of the [i]-th start returns; its error is reported. *)
Definition run_returns (i : nat) (err : option string) (s : Svc) : option Svc :=
  match runs s !! i with
  | Some (mkRun c Serving d) =>
      let rep := match err with Some e => if logger s then [e] else [] | None => [] end in
      Some (mkSvc (cancel s) (done_ s) (logger s) (<[i := mkRun c (Returned err) d]> (runs s)) (stops s) (reported s ++ rep))
  | _ => None
  end.

(** [s.done <- runErr]; it blocks when the channel is full. *)
Definition run_sends (i : nat) (s : Svc) : option Svc :=
  match runs s !! i with
  | Some (mkRun c (Returned err) None) => Some (set_runs (<[i := mkRun c Sent (Some err)]> (runs s)) s)
  | _ => None
  end.

(** [Stop] up to its [select]. *)
Definition Stop (s : Svc) : Svc :=
  let s :=
    match cancel s with
    | Some i => match runs s !! i with
                | Some r => set_runs (<[i := mkRun true (ru_pc r) (ru_done r)]> (runs s)) s
                | None => s
                end
    | None => s
    end in
  set_stops (stops s ++ [match done_ s with Some i => Waiting i | None => NothingToStop end]) s.

(** The branches of the [select]: the result, or the time-out. *)
Definition stop_drains (k : nat) (s : Svc) : option Svc :=
  match stops s !! k with
  | Some (Waiting i) =>
      match runs s !! i with
      | Some (mkRun c pc (Some _)) =>
          Some (set_stops (<[k := Drained i]> (stops s)) (set_runs (<[i := mkRun c pc None]> (runs s)) s))
      | _ => None
      end
  | _ => None
  end.
Definition stop_times_out (k : nat) (s : Svc) : option Svc :=
  match stops s !! k with
  | Some (Waiting i) => Some (set_stops (<[k := TimedOut i]> (stops s)) s)
  | _ => None
  end.

Inductive sop :=
| SStart (log : bool) (fails : StartErr -> bool) | SStop
| SRunReturns (i : nat) (err : option string) | SRunSends (i : nat)
| SDrains (k : nat) | STimesOut (k : nat).

Definition svc_do (o : sop) (s : Svc) : option Svc :=
  match o with
  | SStart log fails => Some (Start log fails s).1
  | SStop => Some (Stop s)
  | SRunReturns i err => run_returns i err s
  | SRunSends i => run_sends i s
  | SDrains k => stop_drains k s
  | STimesOut k => stop_times_out k s
  end.

Fixpoint svc_run (os : list sop) (s : Svc) : option Svc :=
  match os with [] => Some s | o :: os => s ← svc_do o s; svc_run os s end.

(** ** The commands *)

(** [strings.Contains]. *)
Definition Contains (s sub : string) : bool := bool_decide (is_Some (String.index 0 sub s)).

(** Errors of the service library: their text and whether they wrap [ErrNotInstalled]. *)
Record LibErr := mkLibErr { le_text : string; le_notInstalled : bool }.

Definition isAlreadyInstalled (err : option LibErr) : bool :=
  match err with
  | None => false
  | Some e => let s := le_text e in
      Contains s "already exists" || Contains s "already installed" || Contains s "File exists" || Contains s "already enabled"
  end.
Definition isNotInstalled (err : option LibErr) : bool :=
  match err with
  | None => false
  | Some e => le_notInstalled e || Contains (le_text e) "not installed" || Contains (le_text e) "service does not exist"
  end.

Inductive LibStatus := StatusUnknown | StatusRunning | StatusStopped.
Inductive LibCall := LInstall | LUninstall | LStart | LStop.
Inductive SvcErr := EConstruct (e : LibErr) | ECall (c : LibCall) (e : LibErr) | EQuery (e : LibErr).

(** What a command did: calls of the library, lines, its error. *)
Definition Did : Type := list LibCall * list string * option SvcErr.

Section commands.
Context (build : option LibErr) (call : LibCall -> option LibErr) (status : LibStatus * option LibErr).

Definition buildService (k : Did) : Did := match build with Some e => ([], [], Some (EConstruct e)) | None => k end.

Definition service_install : Did :=
  buildService
    match call LInstall with
    | Some e => if isAlreadyInstalled (Some e) then ([LInstall], ["Service already installed."], None)
                else ([LInstall], [], Some (ECall LInstall e))
    | None => ([LInstall], ["Service installed. It will start at next user login."; "Run `opencom service start` to start it now."], None)
    end.

Definition service_uninstall : Did :=
  buildService
    match call LUninstall with
    | Some e => if isNotInstalled (Some e) then ([LStop; LUninstall], ["Service was not installed."], None)
                else ([LStop; LUninstall], [], Some (ECall LUninstall e))
    | None => ([LStop; LUninstall], ["Service uninstalled."], None)
    end.

Definition service_status : Did :=
  buildService
    match status with
    | (_, Some e) => if isNotInstalled (Some e) || le_notInstalled e then ([], ["service: not installed"], None)
                     else ([], [], Some (EQuery e))
    | (StatusRunning, None) => ([], ["service: running"], None)
    | (StatusStopped, None) => ([], ["service: installed (stopped)"], None)
    | (StatusUnknown, None) => ([], ["service: installed (state unknown)"], None)
    end.

Definition service_start : Did :=
  buildService match call LStart with Some e => ([LStart], [], Some (ECall LStart e)) | None => ([LStart], ["Service started."], None) end.
Definition service_stop : Did :=
  buildService match call LStop with Some e => ([LStop], [], Some (ECall LStop e)) | None => ([LStop], ["Service stopped."], None) end.
End commands.

(** ** What [Stop] waits for *)

(** The run a call of [Stop] is about. *)
Definition stop_of (p : StopPc) : option nat :=
  match p with Waiting i | Drained i | TimedOut i => Some i | NothingToStop => None end.

Record svc_inv (s : Svc) : Prop := {
  si_current : cancel s = done_ s;
  si_known : forall i, done_ s = Some i -> S i = length (runs s);
  si_stop : forall k p i, stops s !! k = Some p -> stop_of p = Some i -> exists r, runs s !! i = Some r /\ ru_cancelled r = true;
  si_full : forall i r, runs s !! i = Some r -> is_Some (ru_done r) -> ru_pc r = Sent;
  si_taken : forall i r, runs s !! i = Some r -> ru_pc r = Sent -> ru_done r = None <-> exists k, stops s !! k = Some (Drained i);
  si_drained : forall k i, stops s !! k = Some (Drained i) -> exists r, runs s !! i = Some r /\ ru_pc r = Sent;
  si_once : forall k k' i, stops s !! k = Some (Drained i) -> stops s !! k' = Some (Drained i) -> k = k' }.

Lemma svc_init_inv : svc_inv svc_init.
Proof. split; try done; intros; set_solver. Qed.

(** A step that rewrites one run, keeping what it must. *)
Lemma set_run_inv s i r r' :
  svc_inv s -> runs s !! i = Some r ->
  (ru_cancelled r = true -> ru_cancelled r' = true) -> (ru_pc r = Sent -> ru_pc r' = Sent) ->
  (is_Some (ru_done r') -> ru_pc r' = Sent) ->
  (ru_pc r' = Sent -> ru_done r' = None -> ru_pc r = Sent /\ ru_done r = None) ->
  (ru_pc r = Sent -> ru_done r = None -> ru_done r' = None) ->
  svc_inv (set_runs (<[i := r']> (runs s)) s).
Proof.
  intros I Hr Hc Hp Hd Hn Hk. pose proof (lookup_lt_Some _ _ _ Hr) as Hlt. destruct I as [I1 I2 I3 I4 I5 I6 I7].
  split; simpl; [done|by rewrite length_insert|..].
  - intros k p j Hs Hj. destruct (I3 k p j Hs Hj) as (q & Hq & Hcq). destruct (decide (i = j)) as [<-|Hne].
    + exists r'. rewrite list_lookup_insert_eq by done. naive_solver.
    + exists q. by rewrite list_lookup_insert_ne.
  - intros j q Hq. apply list_lookup_insert_Some in Hq as [(<- & <- & _)|[Hne Hq]]; eauto.
  - intros j q Hq Hs. apply list_lookup_insert_Some in Hq as [(<- & <- & _)|[Hne Hq]]; [|by apply I5].
    split.
    + intros H0. destruct (Hn Hs H0) as [Hs' H0']. by apply (I5 i r).
    + intros Hex. assert (ru_pc r = Sent) as Hs' by (destruct Hex as [k Hk']; destruct (I6 k i Hk') as (q & Hq & ?); congruence).
      apply Hk; [done|]. by apply (I5 i r Hr Hs').
  - intros k j Hk'. destruct (I6 k j Hk') as (q & Hq & Hs). destruct (decide (i = j)) as [<-|Hne].
    + exists r'. rewrite list_lookup_insert_eq by done. naive_solver.
    + exists q. by rewrite list_lookup_insert_ne.
  - done.
Qed.

(** A call of [Stop] that begins, or ends without a result. *)
Lemma set_stops_inv s st :
  svc_inv s ->
  (forall k p i, st !! k = Some p -> stop_of p = Some i -> exists r, runs s !! i = Some r /\ ru_cancelled r = true) ->
  (forall k i, st !! k = Some (Drained i) <-> stops s !! k = Some (Drained i)) ->
  svc_inv (set_stops st s).
Proof.
  intros [I1 I2 I3 I4 I5 I6 I7] Hst Hd. split; simpl; [done|done|done|done|..].
  - intros i r Hr Hs. rewrite (I5 i r Hr Hs). split; intros [k Hk]; exists k; by apply Hd.
  - intros k i Hk%Hd. eauto.
  - intros k k' i Hk%Hd Hk'%Hd. eauto.
Qed.

Lemma start_inv log fails s : svc_inv s -> svc_inv (Start log fails s).1.
Proof.
  intros [I1 I2 I3 I4 I5 I6 I7]. unfold Start. destruct (List.find _ _); [by split|]. simpl.
  assert (forall i r, runs s !! i = Some r -> (runs s ++ [mkRun false Serving None]) !! i = Some r) as Hold
    by (intros; by apply lookup_app_l_Some).
  assert (forall i r, (runs s ++ [mkRun false Serving None]) !! i = Some r -> runs s !! i = Some r \/ r = mkRun false Serving None) as Hnew.
  { intros i r [Hr|[_ Hr]]%lookup_app_Some; [by left|]. apply list_lookup_singleton_Some in Hr as [_ <-]. by right. }
  split; simpl; [done|..].
  - intros i [= <-]. rewrite length_app. simpl. lia.
  - intros k p i Hk Hi. destruct (I3 k p i Hk Hi) as (r & Hr & Hc). eauto.
  - intros i r [Hr| ->]%Hnew; [eauto|]. intros [? ?]. done.
  - intros i r [Hr| ->]%Hnew; [eauto|done].
  - intros k i Hk. destruct (I6 k i Hk) as (r & Hr & Hs). eauto.
  - done.
Qed.

Lemma svc_stop_inv s : svc_inv s -> svc_inv (Stop s).
Proof.
  intros I. unfold Stop.
  set (s1 := match cancel s with Some i => _ | None => s end).
  assert (svc_inv s1 /\ (forall i, done_ s1 = Some i -> exists r, runs s1 !! i = Some r /\ ru_cancelled r = true)) as [I' Hc].
  { subst s1. pose proof (si_current _ I) as Hcur. destruct (cancel s) as [i|] eqn:Hi.
    - destruct (lookup_lt_is_Some_2 (runs s) i) as [r Hr]; [rewrite <- (si_known _ I i); [lia|congruence]|]. rewrite Hr. split.
      + eapply set_run_inv; [done|exact Hr|done|done|exact (si_full _ I i r Hr)|by split|done].
      + intros j Hj. simpl in *. assert (j = i) as -> by congruence.
        exists (mkRun true (ru_pc r) (ru_done r)). split; [|done]. by eapply list_lookup_insert_eq, lookup_lt_Some.
    - split; [done|]. intros i Hj. congruence. }
  clearbody s1. apply set_stops_inv; [done|..].
  - intros k p i [Hk|[_ Hk]]%lookup_app_Some Hi; [by eapply (si_stop _ I')|].
    apply list_lookup_singleton_Some in Hk as [_ <-]. destruct (done_ s1) as [j|]; [|done]. injection Hi as ->. by apply Hc.
  - intros k i. rewrite lookup_app_Some. split; [|by left]. intros [Hk|[_ Hk]]; [done|].
    apply list_lookup_singleton_Some in Hk as [_ Hk]. by destruct (done_ s1).
Qed.

Lemma drains_inv k s s' : svc_inv s -> stop_drains k s = Some s' -> svc_inv s'.
Proof.
  intros I. unfold stop_drains. destruct (stops s !! k) as [[i| | |]|] eqn:Hk; try done.
  destruct (runs s !! i) as [[c pc [e|]]|] eqn:Hr; try done. intros [= <-].
  pose proof (si_full _ I i _ Hr (mk_is_Some _ _ eq_refl)) as Hs. simpl in Hs. subst pc.
  pose proof (lookup_lt_Some _ _ _ Hr) as Hlt. pose proof (lookup_lt_Some _ _ _ Hk) as Hltk.
  assert (forall k', stops s !! k' <> Some (Drained i)) as Hno.
  { intros k' Hk'. pose proof (si_taken _ I i _ Hr eq_refl) as [_ Ht]. simpl in Ht. discriminate Ht. by exists k'. }
  destruct I as [I1 I2 I3 I4 I5 I6 I7]. split; simpl; [done|by rewrite length_insert|..].
  - intros k' p j Hk' Hj. assert (exists q, runs s !! j = Some q /\ ru_cancelled q = true) as (q & Hq & Hc).
    { apply list_lookup_insert_Some in Hk' as [(<- & <- & _)|[_ Hk']]; [|eauto]. injection Hj as <-. by apply (I3 k (Waiting i)). }
    destruct (decide (i = j)) as [<-|Hne]; [|exists q; by rewrite list_lookup_insert_ne].
    exists (mkRun c Sent None). rewrite list_lookup_insert_eq by done. split; [done|]. by simplify_eq.
  - intros j r [(<- & <- & _)|[_ Hj]]%list_lookup_insert_Some; [done|eauto].
  - intros j r [(<- & <- & _)|[Hne Hj]]%list_lookup_insert_Some Hs; simpl.
    + split; [|done]. intros _. exists k. by apply list_lookup_insert_eq.
    + rewrite (I5 j r Hj Hs). split; intros [k' Hk']; exists k'.
      * rewrite list_lookup_insert_ne; [done|]. intros <-. congruence.
      * apply list_lookup_insert_Some in Hk' as [(_ & [= ?] & _)|[_ ?]]; [by subst|done].
  - intros k' j [(<- & [= <-] & _)|[_ Hk']]%list_lookup_insert_Some.
    + exists (mkRun c Sent None). by rewrite list_lookup_insert_eq.
    + destruct (I6 k' j Hk') as (q & Hq & Hs). destruct (decide (i = j)) as [<-|Hne]; [by destruct (Hno k')|].
      exists q. by rewrite list_lookup_insert_ne.
  - intros k1 k2 j [(<- & E1 & _)|[_ H1]]%list_lookup_insert_Some [(<- & E2 & _)|[_ H2]]%list_lookup_insert_Some;
      [done|injection E1 as ->; by destruct (Hno k2)|injection E2 as ->; by destruct (Hno k1)|eauto].
Qed.

Lemma svc_do_inv o s s' : svc_inv s -> svc_do o s = Some s' -> svc_inv s'.
Proof.
  intros I. destruct o as [log fails| |i err|i|k|k]; simpl.
  - intros [= <-]. by apply start_inv.
  - intros [= <-]. by apply svc_stop_inv.
  - unfold run_returns. destruct (runs s !! i) as [[c [| |] d]|] eqn:Hr; try done. intros [= <-].
    assert (d = None) as -> by (destruct d; [by specialize (si_full _ I i _ Hr (mk_is_Some _ _ eq_refl))|done]).
    destruct (set_run_inv s i _ (mkRun c (Returned err) None) I Hr) as [I1 I2 I3 I4 I5 I6 I7]; try done.
    by intros [? ?].
  - unfold run_sends. destruct (runs s !! i) as [[c [|err|] [d|]]|] eqn:Hr; try done. intros [= <-].
    eapply set_run_inv; [done|exact Hr|done..].
  - by apply drains_inv.
  - unfold stop_times_out. destruct (stops s !! k) as [[i| | |]|] eqn:Hk; try done. intros [= <-].
    pose proof (lookup_lt_Some _ _ _ Hk) as Hlt. apply set_stops_inv; [done|..].
    + intros k' p j [(<- & <- & _)|[_ Hk']]%list_lookup_insert_Some Hj; [|by eapply (si_stop _ I)].
      injection Hj as <-. by apply (si_stop _ I k (Waiting i)).
    + intros k' j. rewrite list_lookup_insert_Some. naive_solver.
Qed.

Lemma svc_run_inv os s s' : svc_inv s -> svc_run os s = Some s' -> svc_inv s'.
Proof.
  revert s. induction os as [|o os IH]; intros s I; simpl; [by intros [= <-]|].
  destruct (svc_do o s) as [s1|] eqn:Ho; [|done]. simpl. apply IH. by eapply svc_do_inv.
Qed.

Lemma stop_keeps_runs s : length (runs (Stop s)) = length (runs s).
Proof. unfold Stop. destruct (cancel s) as [i|]; [|done]. destruct (runs s !! i); [|done]. apply length_insert. Qed.

Lemma stop_appends s : stops (Stop s) = stops s ++ [match done_ (Stop s) with Some i => Waiting i | None => NothingToStop end].
Proof. unfold Stop. destruct (cancel s) as [i|]; [|done]. by destruct (runs s !! i). Qed.

(** For every interleaving of [Start], [Stop] and the daemon's runs: a run
    can always send its result, so its goroutine ends; a [Stop] has cancelled
    the run it waits for, which is the last one started; one that returned
    with a result did so after [app.Run] had returned, and is the only one to
    have it; and a waiting [Stop] can return before its ten seconds exactly
    when the run has sent its result and no other [Stop] took it. *)
Theorem stop_waits os s :
  svc_run os svc_init = Some s ->
  (forall i c err d, runs s !! i = Some (mkRun c (Returned err) d) -> is_Some (run_sends i s)) /\
  (forall k p i, stops s !! k = Some p -> stop_of p = Some i -> exists r, runs s !! i = Some r /\ ru_cancelled r = true) /\
  (forall i r, done_ (Stop s) = Some i -> runs (Stop s) !! i = Some r -> S i = length (runs s) /\ ru_cancelled r = true) /\
  (forall k i, stops s !! k = Some (Drained i) -> (exists r, runs s !! i = Some r /\ ru_pc r = Sent) /\
     forall k', stops s !! k' = Some (Drained i) -> k' = k) /\
  (forall k i, stops s !! k = Some (Waiting i) ->
     is_Some (stop_drains k s) <-> (exists r, runs s !! i = Some r /\ ru_pc r = Sent) /\ forall k', stops s !! k' <> Some (Drained i)).
Proof.
  intros Hrun. pose proof (svc_run_inv _ _ _ svc_init_inv Hrun) as I. clear Hrun. split_and!.
  - intros i c err d Hr. unfold run_sends. rewrite Hr. destruct d; [|done].
    by specialize (si_full _ I i _ Hr (mk_is_Some _ _ eq_refl)).
  - intros k p i. apply (si_stop _ I).
  - intros i r Hd Hr. pose proof (svc_stop_inv s I) as I'. split.
    + rewrite (si_known _ I' i Hd). apply stop_keeps_runs.
    + assert (stops (Stop s) !! length (stops s) = Some (Waiting i)) as Hk.
      { rewrite stop_appends, Hd, lookup_app_r, Nat.sub_diag by lia. done. }
      destruct (si_stop _ I' _ _ i Hk eq_refl) as (r' & Hr' & Hc). congruence.
  - intros k i Hk. split; [by eapply (si_drained _ I)|]. intros k' Hk'. by eapply (si_once _ I).
  - intros k i Hk. unfold stop_drains. rewrite Hk. split.
    + destruct (runs s !! i) as [[c pc [e|]]|] eqn:Hr; [|by intros [? ?]..]. intros _.
      pose proof (si_full _ I i _ Hr (mk_is_Some _ _ eq_refl)) as Hs. simpl in Hs. split; [by exists (mkRun c pc (Some e))|].
      intros k' Hk'. pose proof (si_taken _ I i _ Hr Hs) as [_ Ht]. simpl in Ht. discriminate Ht. by exists k'.
    + intros [(r & Hr & Hs) Hno]. rewrite Hr. destruct r as [c pc [e|]]; [done|].
      pose proof (si_taken _ I i _ Hr Hs) as [Ht _]. destruct (Ht eq_refl) as [k' Hk']. by destruct (Hno k').
Qed.

(** [stop_waits] on a daemon that ended by itself before two calls of [Stop]:
    the first has the result, the second can only wait for its time-out. *)
Definition demo_ops : list sop := [SStart true (fun _ => false); SRunReturns 0 None; SRunSends 0; SStop; SStop; SDrains 0].
Lemma stop_waits_witness :
  match svc_run demo_ops svc_init with Some s => stops s = [Drained 0; Waiting 0] /\ ~ is_Some (stop_drains 1 s) | None => False end.
Proof.
  destruct (svc_run demo_ops svc_init) as [s|] eqn:E; [|by vm_compute in E].
  assert (stops s = [Drained 0; Waiting 0]) as Hs by (vm_compute in E; by injection E as <-).
  split; [done|]. destruct (stop_waits demo_ops s E) as (_ & _ & _ & _ & H). rewrite (H 1 0) by by rewrite Hs.
  intros [_ Hno]. apply (Hno 0). by rewrite Hs.
Defined.

(** A daemon that has ended, by [daemon.shutdown] or by an error, is started
    again by [Start] alone: the service's process stays without a daemon. *)
Theorem ended_not_restarted os s s' :
  svc_run os s = Some s' -> Forall (fun o => match o with SStart _ _ => False | _ => True end) os ->
  Forall (fun r => ru_pc r <> Serving) (runs s) -> Forall (fun r => ru_pc r <> Serving) (runs s').
Proof.
  revert s. induction os as [|o os IH]; intros s; simpl; [by intros [= <-]|].
  destruct (svc_do o s) as [s1|] eqn:Ho; [|done]. simpl. intros Hr [Hn Hns]%Forall_cons Hs.
  apply (IH s1); [done|done|]. clear IH Hr. destruct o as [| |i err|i|k|k]; simpl in *; [done|..].
  - injection Ho as <-. unfold Stop. destruct (cancel s) as [i|]; [|done]. destruct (runs s !! i) as [r|] eqn:Hr; [|done].
    simpl. apply Forall_insert; [done|]. by apply (Forall_lookup_1 _ _ _ _ Hs Hr).
  - unfold run_returns in Ho. destruct (runs s !! i) as [[c [| |] d]|] eqn:Hr; try done. injection Ho as <-. by apply Forall_insert.
  - unfold run_sends in Ho. destruct (runs s !! i) as [[c [|err|] [d|]]|] eqn:Hr; try done. injection Ho as <-. by apply Forall_insert.
  - unfold stop_drains in Ho. destruct (stops s !! k) as [[i| | |]|]; try done.
    destruct (runs s !! i) as [[c pc [e|]]|] eqn:Hr; try done. injection Ho as <-. simpl. apply Forall_insert; [done|].
    by apply (Forall_lookup_1 _ _ _ _ Hs Hr).
  - unfold stop_times_out in Ho. destruct (stops s !! k) as [[i| | |]|]; try done. by injection Ho as <-.
Qed.

(** The service commands do not fail for a service that is already, or not,
    there; every other error of the library is returned. *)
Example service_commands :
  let exists_ := Some (mkLibErr "Init already exists: /home/ann/.config/systemd/user/opencom.service" false) in
  let absent := Some (mkLibErr "the service is not installed" true) in
  (service_install None (fun _ => exists_)).2 = None /\ (service_uninstall None (fun _ => absent)).2 = None /\
  service_status None (StatusUnknown, absent) = ([], ["service: not installed"], None) /\
  (service_start None (fun _ => absent)).2 = Some (ECall LStart (mkLibErr "the service is not installed" true)).
Proof. vm_compute. done. Qed.
