(* ===== verification/Duration.v ===== *)
(** * Durations as text ([time.Duration.String] and [Round])

    The commands print durations and pass the requested time to live of an
    invite to the daemon as text ([internal/cli/invite.go]); the daemon reads
    it with [time.ParseDuration]. Reading what was written gives the same
    nanoseconds, the floating-point arithmetic of the fraction included. *)
From S2P Require Import Prelude GoStrings IpcInvites.
From Stdlib Require Import SpecFloat.
#[local] Open Scope string_scope.
#[local] Open Scope list_scope.

(** ** [Duration.String] *)

(** The loop of [fmtFrac] over [prec] digits, from the last. *)
Fixpoint fmtFrac_loop (prec : nat) (v : Z) (print : bool) (buf : string) : bool * Z * string :=
  match prec with
  | O => (print, v, buf)
  | S prec =>
      let d := (v mod 10)%Z in
      let print := print || negb (d =? 0)%Z in
      fmtFrac_loop prec (v / 10) print (if print then String (GoStrings.digit d) buf else buf)
  end.
Definition fmtFrac (buf : string) (v : Z) (prec : nat) : string * Z :=
  let '(print, v, buf) := fmtFrac_loop prec v false buf in
  (if print : bool then String "." buf else buf, v).

(** [fmtInt]; the number is not negative. *)
Definition fmtInt (buf : string) (v : Z) : string := FormatInt v +:+ buf.

Definition DurationString (d : Z) : string :=
  let u := Z.abs d in
  let out :=
    if (u <? 10 ^ 9)%Z then
      if (u =? 0)%Z then "0s"
      else
        let '(buf, prec) :=
          if (u <? 10 ^ 3)%Z then ("ns", 0) else if (u <? 10 ^ 6)%Z then ("µs", 3) else ("ms", 6) in
        let '(buf, u) := fmtFrac buf u prec in fmtInt buf u
    else
      let '(buf, u) := fmtFrac "s" u 9 in
      let buf := fmtInt buf (u mod 60) in
      let u := (u / 60)%Z in
      if (0 <? u)%Z then
        let buf := fmtInt (String "m" buf) (u mod 60) in
        let u := (u / 60)%Z in
        if (0 <? u)%Z then fmtInt (String "h" buf) u else buf
      else buf in
  if (d <? 0)%Z then String "-" out else out.

(** [Round]; results beyond the int64 range are its ends. *)
Definition Round (d m : Z) : Z :=
  if (m <=? 0)%Z then d
  else if (d <? 0)%Z then
    let r := (- Z.rem d m)%Z in
    if (2 * r <? m)%Z then (d + r)%Z else if (- 2 ^ 63 <=? d - m + r)%Z then (d - m + r)%Z else (- 2 ^ 63)%Z
  else
    let r := Z.rem d m in
    if (2 * r <? m)%Z then (d - r)%Z else if (d + m - r <? 2 ^ 63)%Z then (d + m - r)%Z else (2 ^ 63 - 1)%Z.

Example duration_texts :
  DurationString <$> [0; 1; 1500; 2000000; 1500000000; 5400 * 10 ^ 9; 3601 * 10 ^ 9; - 100 * 10 ^ 6]%Z =
  ["0s"; "1ns"; "1.5µs"; "2ms"; "1.5s"; "1h30m0s"; "1h0m1s"; "-100ms"].
Proof. vm_compute. done. Qed.

(** ** The fraction is exact *)

Lemma Zdigits2_log2 p : Zdigits2 (Zpos p) = (Z.log2 (Zpos p) + 1)%Z.
Proof.
  assert (forall p, Zpos (digits2_pos p) = (Z.log2 (Zpos p) + 1)%Z) as H.
  { clear. induction p as [p IH|p IH|]; simpl digits2_pos; [..|done]; rewrite Pos2Z.inj_succ, IH.
    - rewrite (Pos2Z.inj_xI p), Z.log2_succ_double by lia. lia.
    - rewrite (Pos2Z.inj_xO p), Z.log2_double by lia. lia. }
  apply H.
Qed.

Lemma iter_pos_nat {A} (f : A -> A) n x : iter_pos f n x = Nat.iter (Pos.to_nat n) f x.
Proof.
  revert x. induction n as [n IH|n IH|]; intros x; cbn [iter_pos]; [..|done].
  - rewrite !IH, Pos2Nat.inj_xI. rewrite <- Nat.iter_add. replace (S (2 * Pos.to_nat n)) with (S (Pos.to_nat n + Pos.to_nat n)) by lia.
    by rewrite Nat.iter_succ_r.
  - rewrite !IH, Pos2Nat.inj_xO, <- Nat.iter_add. f_equal. lia.
Qed.

(** Shifting out zero bits loses nothing. *)
Lemma shr_1_exact z n : (0 < z)%Z ->
  Nat.iter n shr_1 (Build_shr_record (z * 2 ^ Z.of_nat n) false false) = Build_shr_record z false false.
Proof.
  intros Hz. induction n as [|n IH]; [simpl; by rewrite Z.mul_1_r|].
  rewrite Nat.iter_succ_r. rewrite Nat2Z.inj_succ, Z.pow_succ_r by lia.
  replace (z * (2 * 2 ^ Z.of_nat n))%Z with (2 * (z * 2 ^ Z.of_nat n))%Z by lia.
  assert (0 < z * 2 ^ Z.of_nat n)%Z as Hp by (apply Z.mul_pos_pos; [done|by apply Z.pow_pos_nonneg; lia]).
  revert IH Hp. generalize (z * 2 ^ Z.of_nat n)%Z. intros [|p|p] IH Hp; [lia| |lia]. exact IH.
Qed.

(** [shr_fexp] of [z 2^k] at the exponent [-k] drops only zero bits. *)
Lemma shr_fexp_exact z k :
  (0 < z < 2 ^ 53)%Z -> (0 <= k)%Z -> (53 <= Z.log2 z + 1 + k)%Z ->
  shr_fexp 53 1024 (z * 2 ^ k) (- k) loc_Exact =
    (Build_shr_record (z * 2 ^ (52 - Z.log2 z)) false false, Z.log2 z - 52)%Z.
Proof.
  intros Hz Hk Hd. unfold shr_fexp. simpl shr_record_of_loc.
  assert (Z.log2 z < 53)%Z as Hl by (apply Z.log2_lt_pow2; lia). pose proof (Z.log2_nonneg z) as Hl0.
  assert (Zdigits2 (z * 2 ^ k) = Z.log2 z + 1 + k)%Z as Hdig.
  { assert (0 < z * 2 ^ k)%Z as Hp by (apply Z.mul_pos_pos; [lia|by apply Z.pow_pos_nonneg; lia]).
    pose proof (Z.log2_mul_pow2 z k ltac:(lia) Hk) as Hm. revert Hp Hm. generalize (z * 2 ^ k)%Z.
    intros [|p|p] Hp Hm; [lia| |lia]. rewrite Zdigits2_log2, Hm. lia. }
  rewrite Hdig. unfold fexp, emin. rewrite Z.max_l by lia.
  replace (Z.log2 z + 1 + k + - k - 53 - - k)%Z with (k - (52 - Z.log2 z))%Z by lia.
  set (n := (k - (52 - Z.log2 z))%Z). assert (0 <= n)%Z as Hn by lia.
  replace (2 ^ k)%Z with (2 ^ (52 - Z.log2 z) * 2 ^ n)%Z by (rewrite <- Z.pow_add_r by lia; f_equal; lia).
  rewrite Z.mul_assoc. assert (0 < z * 2 ^ (52 - Z.log2 z))%Z as Hp by (apply Z.mul_pos_pos; [lia|apply Z.pow_pos_nonneg; lia]).
  destruct n as [|p|p] eqn:Hnp; [|..]; unfold shr; [| |lia].
  - rewrite Z.mul_1_r. f_equal. lia.
  - rewrite iter_pos_nat. rewrite <- (positive_nat_Z p), shr_1_exact, positive_nat_Z by done. f_equal. lia.
Qed.

(** The double of an integer below 2^53, by its log. *)
Definition f64_of (z : Z) : spec_float := S754_finite false (Z.to_pos (z * 2 ^ (52 - Z.log2 z))) (Z.log2 z - 52).

Lemma round_exact z k :
  (0 < z < 2 ^ 53)%Z -> (0 <= k)%Z -> (53 <= Z.log2 z + 1 + k)%Z ->
  binary_round_aux 53 1024 false (z * 2 ^ k) (- k) loc_Exact = f64_of z.
Proof.
  intros Hz Hk Hd. unfold binary_round_aux. rewrite shr_fexp_exact by done. simpl shr_m. simpl loc_of_shr_record.
  unfold round_nearest_even. assert (Z.log2 z < 53)%Z as Hl by (apply Z.log2_lt_pow2; lia). pose proof (Z.log2_nonneg z) as Hl0.
  replace (Z.log2 z - 52)%Z with (- (52 - Z.log2 z))%Z by lia. rewrite shr_fexp_exact by lia. simpl shr_m.
  assert (0 < z * 2 ^ (52 - Z.log2 z))%Z as Hp by (apply Z.mul_pos_pos; [lia|apply Z.pow_pos_nonneg; lia]).
  unfold f64_of. destruct (z * 2 ^ (52 - Z.log2 z))%Z as [|p|p]; [lia| |lia].
  rewrite (proj2 (Z.leb_le _ _)) by lia. done.
Qed.

Lemma iter_xO p d : Zpos (Pos.iter xO p d) = (Zpos p * 2 ^ Zpos d)%Z.
Proof.
  induction d as [|d IH] using Pos.peano_ind; [simpl; lia|].
  rewrite Pos.iter_succ, Pos2Z.inj_xO, IH, Pos2Z.inj_succ, Z.pow_succ_r by lia. lia.
Qed.

Lemma to_f64_exact z : (0 < z < 2 ^ 53)%Z -> to_f64 z = f64_of z.
Proof.
  intros Hz. assert (Z.log2 z < 53)%Z as Hl by (apply Z.log2_lt_pow2; lia). pose proof (Z.log2_nonneg z) as Hl0.
  destruct z as [|p|p]; [lia| |lia]. unfold to_f64, binary_normalize, binary_round.
  change (Zpos (digits2_pos p)) with (Zdigits2 (Zpos p)). rewrite Zdigits2_log2. unfold fexp, emin. rewrite Z.max_l by lia.
  unfold shl_align. replace (Z.log2 (Zpos p) + 1 + 0 - 53 - 0)%Z with (- (52 - Z.log2 (Zpos p)))%Z by lia.
  destruct (52 - Z.log2 (Zpos p))%Z as [|d|d] eqn:Hd; [..|lia].
  - change (- 0)%Z with 0%Z. cbv beta iota. pose proof (round_exact (Zpos p) 0) as H. rewrite Z.mul_1_r in H. apply H; lia.
  - change (- Zpos d)%Z with (Zneg d). cbv beta iota. rewrite iter_xO. replace (Z.log2 (Zpos p) + 1 + 0 - 53)%Z with (- Zpos d)%Z by lia. apply round_exact; lia.
Qed.

Lemma SFmul_exact a b : (0 < a)%Z -> (0 < b)%Z -> (a * b < 2 ^ 53)%Z ->
  SFmul 53 1024 (f64_of a) (f64_of b) = f64_of (a * b).
Proof.
  intros Ha Hb Hab. assert (a < 2 ^ 53 /\ b < 2 ^ 53)%Z as [Ha' Hb'] by nia.
  pose proof (Z.log2_lt_pow2 a 53 Ha) as Hla. pose proof (Z.log2_lt_pow2 b 53 Hb) as Hlb.
  pose proof (Z.log2_nonneg a) as Ha0. pose proof (Z.log2_nonneg b) as Hb0.
  pose proof (Z.log2_mul_below a b) as Hm. unfold f64_of at 1 2. unfold SFmul.
  rewrite Pos2Z.inj_mul. rewrite !Z2Pos.id by (apply Z.mul_pos_pos; [lia|apply Z.pow_pos_nonneg; lia]). simpl xorb.
  replace (a * 2 ^ (52 - Z.log2 a) * (b * 2 ^ (52 - Z.log2 b)))%Z with (a * b * 2 ^ (104 - Z.log2 a - Z.log2 b))%Z.
  2: { replace (104 - Z.log2 a - Z.log2 b)%Z with ((52 - Z.log2 a) + (52 - Z.log2 b))%Z by lia. rewrite Z.pow_add_r by lia. lia. }
  replace (Z.log2 a - 52 + (Z.log2 b - 52))%Z with (- (104 - Z.log2 a - Z.log2 b))%Z by lia.
  apply round_exact; [nia|lia|lia].
Qed.

Lemma trunc_exact z : (0 < z < 2 ^ 53)%Z -> trunc_f64 (f64_of z) = z.
Proof.
  intros Hz. assert (Z.log2 z < 53)%Z as Hl by (apply Z.log2_lt_pow2; lia). pose proof (Z.log2_nonneg z) as Hl0.
  unfold f64_of, trunc_f64. rewrite Z2Pos.id by (apply Z.mul_pos_pos; [lia|apply Z.pow_pos_nonneg; lia]).
  destruct (Z.leb_spec 0 (Z.log2 z - 52)).
  - replace (52 - Z.log2 z)%Z with 0%Z by lia. replace (Z.log2 z - 52)%Z with 0%Z by lia. rewrite Z.shiftl_0_r. lia.
  - rewrite Z.shiftr_div_pow2 by lia. replace (- (Z.log2 z - 52))%Z with (52 - Z.log2 z)%Z by lia.
    apply Z.div_mul. apply Z.pow_nonzero; lia.
Qed.

(** What the units of a written fraction give: a unit over the power of ten of
    its digits is an exact double. *)
Lemma unit_scale_exact n k : k <= n -> n <= 9 ->
  SFdiv 53 1024 (to_f64 (10 ^ Z.of_nat n)) (to_f64 (10 ^ Z.of_nat k)) = f64_of (10 ^ Z.of_nat (n - k)).
Proof.
  intros Hk Hn. do 10 (destruct n as [|n]; [do 10 (destruct k as [|k]; [first [exfalso; lia|vm_compute; done]|]); lia|]). lia.
Qed.

Lemma fraction_exact f n k : (0 < f)%Z -> k <= n -> n <= 9 -> (f < 10 ^ Z.of_nat k)%Z ->
  fraction f (10 ^ Z.of_nat n) (10 ^ Z.of_nat k) = (f * 10 ^ Z.of_nat (n - k))%Z.
Proof.
  intros Hf Hk Hn Hlt. assert (10 ^ Z.of_nat n <= 10 ^ 9)%Z as H9 by (apply Z.pow_le_mono_r; lia).
  assert (f * 10 ^ Z.of_nat (n - k) < 10 ^ Z.of_nat n)%Z as Hp.
  { replace (Z.of_nat n) with (Z.of_nat k + Z.of_nat (n - k))%Z by lia. rewrite Z.pow_add_r by lia.
    apply Z.mul_lt_mono_pos_r; [apply Z.pow_pos_nonneg; lia|done]. }
  assert (0 < 10 ^ Z.of_nat (n - k))%Z as Hpos by (apply Z.pow_pos_nonneg; lia).
  assert (10 ^ 9 < 2 ^ 53)%Z as H53 by (vm_compute; done).
  unfold fraction. rewrite unit_scale_exact by done. rewrite to_f64_exact by nia. rewrite SFmul_exact by lia.
  apply trunc_exact. nia.
Qed.

(** ** Reading a component *)

Definition ends_digits (rest : string) : Prop := match rest with String c _ => IpcInvites.digit c = false | EmptyString => True end.

Lemma parse_digits_mono ds : forall x n, parse_digits ds x = Some n -> (0 <= x <= n)%Z \/ (x < 0)%Z.
Proof.
  induction ds as [|c ds IH]; intros x n; simpl; [intros [= <-]; lia|]. destruct (between 48 57 c) eqn:Hc; [|done].
  apply andb_true_iff in Hc as [H1%Z.leb_le H2%Z.leb_le]. intros [?|?]%IH; lia.
Qed.

Lemma leadingInt_digits ds rest : forall x n,
  parse_digits ds x = Some n -> (0 <= x)%Z -> (n <= 2 ^ 63)%Z -> ends_digits rest -> leadingInt x (ds +:+ rest) = Some (n, rest).
Proof.
  induction ds as [|c ds IH]; intros x n.
  - intros [= <-] Hx Hn Hr. rewrite app_empty_l. destruct rest as [|d rest]; [done|]. cbn [leadingInt ends_digits] in *. by rewrite Hr.
  - simpl parse_digits. destruct (between 48 57 c) eqn:Hc; [|done]. intros Hp Hx Hn Hr.
    pose proof (parse_digits_mono _ _ _ Hp) as Hm. pose proof Hc as Hb. apply andb_true_iff in Hb as [H1%Z.leb_le H2%Z.leb_le].
    rewrite app_cons. cbn [leadingInt]. unfold IpcInvites.digit. rewrite Hc.
    rewrite (proj2 (Z.ltb_ge _ _)) by (apply Z.div_le_lower_bound; lia). rewrite (proj2 (Z.ltb_ge _ _)) by lia.
    apply IH; [done|lia|done|done].
Qed.

Lemma leadingFraction_digits ds rest : forall x sc n,
  parse_digits ds x = Some n -> (0 <= x)%Z -> (n < 2 ^ 63)%Z -> ends_digits rest ->
  leadingFraction x sc false (ds +:+ rest) = (n, (sc * 10 ^ Z.of_nat (String.length ds))%Z, rest).
Proof.
  induction ds as [|c ds IH]; intros x sc n.
  - intros [= <-] Hx Hn Hr. rewrite app_empty_l, Z.mul_1_r. destruct rest as [|d rest]; [done|].
    cbn [leadingFraction ends_digits] in *. by rewrite Hr.
  - simpl parse_digits. destruct (between 48 57 c) eqn:Hc; [|done]. intros Hp Hx Hn Hr.
    pose proof (parse_digits_mono _ _ _ Hp) as Hm. pose proof Hc as Hb. apply andb_true_iff in Hb as [H1%Z.leb_le H2%Z.leb_le].
    rewrite app_cons. cbn [leadingFraction String.length]. unfold IpcInvites.digit. rewrite Hc.
    rewrite (proj2 (Z.ltb_ge _ _)) by (apply Z.div_le_lower_bound; lia). rewrite (proj2 (Z.ltb_ge _ _)) by lia. cbn [orb].
    rewrite (IH _ _ n) by (try done; lia). rewrite Nat2Z.inj_succ, Z.pow_succ_r by lia. f_equal. f_equal. lia.
Qed.

Definition starts_part (rest : string) : Prop := match rest with String c _ => dot_or_digit c = true | EmptyString => True end.

Lemma leadingUnit_unit u rest :
  str_forall (fun c => negb (dot_or_digit c)) u = true -> starts_part rest -> leadingUnit (u +:+ rest) = (u, rest).
Proof.
  induction u as [|c u IH]; cbn [str_forall].
  - intros _ Hr. rewrite app_empty_l. destruct rest as [|d rest]; [done|]. cbn [leadingUnit starts_part] in *. by rewrite Hr.
  - intros [Hc%negb_true_iff Hu]%andb_true_iff Hr. rewrite app_cons. cbn [leadingUnit]. by rewrite Hc, IH.
Qed.

Lemma digit_dot c : between 48 57 c = true -> dot_or_digit c = true.
Proof. intros H. unfold dot_or_digit, IpcInvites.digit. rewrite H. apply orb_true_r. Qed.

(** Units: their letters and what follows. *)
Definition is_unit (u : string) (unit : Z) : Prop :=
  unitMap u = Some unit /\ (0 < unit)%Z /\ str_forall (fun c => negb (dot_or_digit c)) u = true.

Lemma unit_ends u unit rest : is_unit u unit -> ends_digits (u +:+ rest) /\ (forall t, u +:+ rest <> String "." t) /\ u <> "".
Proof.
  intros (Hu & _ & Hd). destruct u as [|c u]; [done|]. simpl in Hd. rewrite app_cons.
  apply andb_true_iff in Hd as [Hc%negb_true_iff _]. split; [|split; [|done]].
  - unfold dot_or_digit in Hc. by apply orb_false_iff in Hc as [_ Hc].
  - intros t [= -> _]. done.
Qed.

Lemma FormatInt_part q :
  (0 <= q < 2 ^ 63)%Z -> exists c s, FormatInt q = String c s /\ between 48 57 c = true /\
    parse_digits (FormatInt q) 0 = Some q.
Proof.
  intros Hq. destruct (FormatInt_digits q) as (s & Hp & Hne & Hd & Hf); [unfold int64; lia|].
  rewrite decide_False in Hf by lia. rewrite Z.abs_eq in Hp by lia. destruct s as [|c s]; [done|].
  simpl in Hd. apply andb_true_iff in Hd as [Hc _]. exists c, s. by rewrite Hf.
Qed.

Lemma not_dot {A} s (F : string -> A) (d : A) :
  (forall t, s <> String "." t) -> match s with String "." t => F t | _ => d end = d.
Proof. intros H. destruct s as [|c s]; [done|]. destruct c as [[] [] [] [] [] [] [] []]; try done. by destruct (H s). Qed.

(** A component without a fraction. *)
Lemma part_whole q u unit rest :
  is_unit u unit -> starts_part rest -> (0 <= q < 2 ^ 63)%Z -> (q * unit <= 2 ^ 63)%Z ->
  duration_part (FormatInt q +:+ u +:+ rest) = Ok ((q * unit)%Z, rest).
Proof.
  intros Hu Hr Hq Hle. destruct (FormatInt_part q Hq) as (c & s & Hf & Hc & Hp).
  destruct (unit_ends u unit rest Hu) as (He & Hdot & Hne). destruct Hu as (Hm & Hpos & Hd).
  unfold duration_part. destruct (FormatInt q +:+ u +:+ rest) as [|c0 t0] eqn:E; [by rewrite Hf in E|]. rewrite <- E.
  assert (c0 = c) as -> by (rewrite Hf, app_cons in E; congruence). rewrite (digit_dot c Hc). cbn [negb].
  rewrite (leadingInt_digits _ _ 0 q) by (try done; lia).
  rewrite not_dot by done. rewrite length_app_str, Hf. cbn [String.length].
  rewrite (proj2 (Nat.eqb_neq _ _)) by lia. cbn [negb andb]. rewrite leadingUnit_unit by done.
  rewrite decide_False by done. rewrite Hm. rewrite (proj2 (Z.ltb_ge _ _)) by (apply Z.div_le_lower_bound; lia).
  cbn [Z.ltb Z.compare]. by rewrite (proj2 (Z.ltb_ge _ _)) by lia.
Qed.

(** A component with a fraction of [k] digits. *)
Lemma part_fraction q ds f n u rest :
  is_unit u (10 ^ Z.of_nat n) -> starts_part rest -> (0 <= q < 2 ^ 63)%Z -> n <= 9 ->
  parse_digits ds 0 = Some f -> String.length ds <= n -> (0 < f < 10 ^ Z.of_nat (String.length ds))%Z ->
  (q * 10 ^ Z.of_nat n + f * 10 ^ Z.of_nat (n - String.length ds) <= 2 ^ 63)%Z ->
  duration_part (FormatInt q +:+ String "." (ds +:+ u +:+ rest)) =
    Ok ((q * 10 ^ Z.of_nat n + f * 10 ^ Z.of_nat (n - String.length ds))%Z, rest).
Proof.
  intros Hu Hr Hq Hn Hds Hk Hf Hle. destruct (FormatInt_part q Hq) as (c & s & Hfq & Hc & Hp).
  destruct (unit_ends u _ rest Hu) as (He & Hdot & Hne). destruct Hu as (Hm & Hpos & Hd).
  assert (f < 2 ^ 63)%Z as Hf63.
  { assert (10 ^ Z.of_nat (String.length ds) <= 10 ^ 9)%Z by (apply Z.pow_le_mono_r; lia). lia. }
  assert (0 <= f * 10 ^ Z.of_nat (n - String.length ds))%Z as Hf0 by (apply Z.mul_nonneg_nonneg; lia).
  unfold duration_part. destruct (FormatInt q +:+ _) as [|c0 t0] eqn:E; [by rewrite Hfq in E|]. rewrite <- E.
  assert (c0 = c) as -> by (rewrite Hfq, app_cons in E; congruence). rewrite (digit_dot c Hc). cbn [negb].
  rewrite (leadingInt_digits _ _ 0 q) by (try done; lia).
  rewrite (leadingFraction_digits ds (u +:+ rest) 0 1 f) by (try done; lia).
  rewrite length_app_str, Hfq. cbn [String.length]. rewrite (proj2 (Nat.eqb_neq _ _)) by lia. cbn [negb andb].
  rewrite leadingUnit_unit by done. rewrite decide_False by done. rewrite Hm.
  rewrite (proj2 (Z.ltb_ge _ _)) by (apply Z.div_le_lower_bound; lia). rewrite (proj2 (Z.ltb_lt 0 f)) by lia.
  rewrite Z.mul_1_l, fraction_exact by (try done; lia). by rewrite (proj2 (Z.ltb_ge _ _)) by lia.
Qed.

(** ** Writing a fraction *)

Lemma div_pow_S v p : (v / 10 / 10 ^ Z.of_nat p = v / 10 ^ Z.of_nat (S p))%Z.
Proof. rewrite Z.div_div, Nat2Z.inj_succ, Z.pow_succ_r by (try apply Z.pow_nonzero; try apply Z.pow_pos_nonneg; lia). done. Qed.

Lemma mod_pow_S v p : (v mod 10 ^ Z.of_nat (S p) = (v / 10) mod 10 ^ Z.of_nat p * 10 + v mod 10)%Z.
Proof. rewrite Nat2Z.inj_succ, Z.pow_succ_r, Z.rem_mul_r by (try apply Z.pow_nonzero; try apply Z.pow_pos_nonneg; lia). lia. Qed.

Lemma fmtFrac_on prec : forall v buf, (0 <= v)%Z ->
  exists ds, fmtFrac_loop prec v true buf = (true, (v / 10 ^ Z.of_nat prec)%Z, ds +:+ buf) /\
    String.length ds = prec /\ parse_digits ds 0 = Some (v mod 10 ^ Z.of_nat prec)%Z.
Proof.
  induction prec as [|prec IH]; intros v buf Hv.
  - exists "". rewrite app_empty_l. simpl. by rewrite Z.div_1_r, Z.mod_1_r.
  - pose proof (Z.mod_pos_bound v 10 ltac:(lia)) as Hm. cbn [fmtFrac_loop orb].
    destruct (IH (v / 10)%Z (String (GoStrings.digit (v mod 10)) buf)) as (ds & -> & Hl & Hp); [apply Z.div_pos; lia|].
    exists (ds +:+ String (GoStrings.digit (v mod 10)) "").
    rewrite div_pow_S, app_assoc_str, app_cons, app_empty_l, length_app_str, Hl. simpl String.length.
    split; [done|]. split; [lia|]. rewrite parse_digits_app, Hp. cbn [mbind option_bind parse_digits].
    rewrite digit_between, chr_digit, mod_pow_S by done. f_equal. lia.
Qed.

Lemma fmtFrac_off prec : forall v buf, (0 <= v)%Z ->
  (v mod 10 ^ Z.of_nat prec = 0 /\ fmtFrac_loop prec v false buf = (false, v / 10 ^ Z.of_nat prec, buf))%Z \/
  exists ds f, fmtFrac_loop prec v false buf = (true, (v / 10 ^ Z.of_nat prec)%Z, ds +:+ buf) /\
    parse_digits ds 0 = Some f /\ String.length ds <= prec /\ (0 < f < 10 ^ Z.of_nat (String.length ds))%Z /\
    (f * 10 ^ Z.of_nat (prec - String.length ds) = v mod 10 ^ Z.of_nat prec)%Z.
Proof.
  induction prec as [|prec IH]; intros v buf Hv; [left; simpl; by rewrite Z.div_1_r, Z.mod_1_r|].
  pose proof (Z.mod_pos_bound v 10 ltac:(lia)) as Hm. cbn [fmtFrac_loop orb]. destruct (Z.eqb_spec (v mod 10) 0) as [H0|H0]; cbn [negb].
  - destruct (IH (v / 10)%Z buf) as [[Hz ->]|(ds & f & -> & Hp & Hl & Hf & Hv')]; [apply Z.div_pos; lia|left|right].
    + rewrite div_pow_S, mod_pow_S. split; [lia|done].
    + exists ds, f. rewrite div_pow_S, mod_pow_S. split; [done|]. split; [done|]. split; [lia|]. split; [done|].
      rewrite Nat.sub_succ_l, Nat2Z.inj_succ, Z.pow_succ_r by lia. lia.
  - right. destruct (fmtFrac_on prec (v / 10) (String (GoStrings.digit (v mod 10)) buf)) as (ds & -> & Hl & Hp);
      [apply Z.div_pos; lia|].
    exists (ds +:+ String (GoStrings.digit (v mod 10)) ""), (v mod 10 ^ Z.of_nat (S prec))%Z.
    rewrite div_pow_S, app_assoc_str, app_cons, app_empty_l, length_app_str, Hl. simpl String.length.
    rewrite Nat.add_1_r, Nat.sub_diag, Z.mul_1_r.
    pose proof (Z.mod_pos_bound v (10 ^ Z.of_nat (S prec)) ltac:(apply Z.pow_pos_nonneg; lia)) as Hb.
    pose proof (Z.mod_pos_bound (v / 10) (10 ^ Z.of_nat prec) ltac:(apply Z.pow_pos_nonneg; lia)) as Hb'.
    split; [done|]. split; [|split; [lia|split; [|done]]].
    + rewrite parse_digits_app, Hp. cbn [mbind option_bind parse_digits]. rewrite digit_between, chr_digit, mod_pow_S by done. f_equal. lia.
    + split; [|lia]. rewrite mod_pow_S. lia.
Qed.

(** A number written before a fraction reads as its nanoseconds with the fraction. *)
Lemma fmtFrac_part v n u rest :
  is_unit u (10 ^ Z.of_nat n) -> starts_part rest -> (0 <= v)%Z -> n <= 9 ->
  let '(buf, q) := fmtFrac (u +:+ rest) v n in
  q = (v / 10 ^ Z.of_nat n)%Z /\
  forall i, (0 <= i < 2 ^ 63)%Z -> (i * 10 ^ Z.of_nat n + v mod 10 ^ Z.of_nat n <= 2 ^ 63)%Z ->
    duration_part (fmtInt buf i) = Ok ((i * 10 ^ Z.of_nat n + v mod 10 ^ Z.of_nat n)%Z, rest).
Proof.
  intros Hu Hr Hv Hn. assert (0 < 10 ^ Z.of_nat n)%Z as Hpos by (apply Z.pow_pos_nonneg; lia).
  unfold fmtFrac, fmtInt. destruct (fmtFrac_off n v (u +:+ rest)) as [[Hz ->]|(ds & f & -> & Hp & Hl & Hf & Hv')]; [lia| |];
    (split; [done|]); intros i Hi Hle.
  - rewrite (part_whole _ u (10 ^ Z.of_nat n)) by (try done; lia). f_equal. f_equal. lia.
  - rewrite (part_fraction _ ds f n) by (try done; lia). f_equal. f_equal. lia.
Qed.

(** ** Reading a written duration *)

Lemma parts_step s v s' d :
  duration_part s = Ok (v, s') -> (0 <= d)%Z -> (0 <= v)%Z -> (d + v <= 2 ^ 63)%Z ->
  duration_parts (String.length s) d s = duration_parts (String.length s') (d + v)%Z s'.
Proof.
  intros Hp Hd Hv Hle. pose proof (duration_part_shorter _ _ _ Hp) as Hl.
  destruct s as [|c s]; [done|]. cbn [String.length] in *. cbn [duration_parts]. rewrite decide_False by done.
  rewrite Hp. cbn [mbind result_bind]. rewrite Z.mod_small by lia. rewrite (proj2 (Z.ltb_ge _ _)) by lia.
  apply duration_parts_fuel; lia.
Qed.

Lemma fmtInt_starts buf i : (0 <= i < 2 ^ 63)%Z -> exists c s, fmtInt buf i = String c s /\ between 48 57 c = true.
Proof.
  intros Hi. destruct (FormatInt_part i Hi) as (c & s & Hf & Hc & _). exists c, (s +:+ buf). unfold fmtInt. by rewrite Hf, app_cons.
Qed.

Lemma fmtInt_starts_part buf i : (0 <= i < 2 ^ 63)%Z -> starts_part (fmtInt buf i).
Proof. intros Hi. destruct (fmtInt_starts buf i Hi) as (c & s & -> & Hc). by apply digit_dot. Qed.

(** What [DurationString] writes for a duration without its sign. *)
Definition reads (b : string) (u : Z) : Prop :=
  duration_parts (String.length b) 0 b = Ok u /\ (exists c s, b = String c s /\ between 48 57 c = true).

Lemma reads_small v n u :
  is_unit u (10 ^ Z.of_nat n) -> (0 <= v < 10 ^ 9)%Z -> n <= 9 ->
  let '(buf, q) := fmtFrac u v n in reads (fmtInt buf q) v.
Proof.
  intros Hu Hv Hn. assert (0 < 10 ^ Z.of_nat n)%Z as Hpos by (apply Z.pow_pos_nonneg; lia).
  pose proof (fmtFrac_part v n u "" Hu I ltac:(lia) Hn) as H. rewrite app_empty_r in H. destruct (fmtFrac u v n) as [buf q].
  destruct H as [-> H]. pose proof (Z.div_mod v (10 ^ Z.of_nat n) ltac:(lia)) as Hdm.
  pose proof (Z.div_pos v _ ltac:(lia) Hpos) as Hq. assert (v / 10 ^ Z.of_nat n <= v)%Z as Hle by (apply Z.div_le_upper_bound; nia).
  split; [|apply fmtInt_starts; lia]. specialize (H (v / 10 ^ Z.of_nat n)%Z ltac:(lia) ltac:(lia)).
  rewrite (parts_step _ _ _ 0 H) by lia. cbn [String.length duration_parts]. rewrite decide_True by done. f_equal. lia.
Qed.

(** One more component in front. *)
Lemma reads_more c unit b u i :
  is_unit (String c "") unit -> reads b u -> (forall d, (0 <= d)%Z -> (d + u <= 2 ^ 63)%Z -> duration_parts (String.length b) d b = Ok (d + u)%Z) ->
  (0 <= i < 2 ^ 63)%Z -> (0 <= u)%Z -> (i * unit + u <= 2 ^ 63)%Z ->
  let b' := fmtInt (String c b) i in
  reads b' (i * unit + u) /\ (forall d, (0 <= d)%Z -> (d + (i * unit + u) <= 2 ^ 63)%Z -> duration_parts (String.length b') d b' = Ok (d + (i * unit + u))%Z).
Proof.
  intros Hu [_ (c0 & s0 & Hb & Hc0)] Hall Hi Hu0 Hle b'. pose proof Hu as (_ & Hpos & _).
  assert (duration_part b' = Ok ((i * unit)%Z, b)) as Hp.
  { apply (part_whole i (String c "") unit b); [done| |done|nia]. rewrite Hb. by apply digit_dot. }
  assert (forall d, (0 <= d)%Z -> (d + (i * unit + u) <= 2 ^ 63)%Z -> duration_parts (String.length b') d b' = Ok (d + (i * unit + u))%Z) as H.
  { intros d Hd Hd'. rewrite (parts_step _ _ _ d Hp) by nia. rewrite Hall by nia. f_equal. lia. }
  split; [|done]. split; [|by apply fmtInt_starts]. rewrite H by lia. done.
Qed.

Lemma is_unit_s : is_unit "s" (10 ^ Z.of_nat 9). Proof. done. Qed.
Lemma is_unit_m : is_unit "m" (60 * 10 ^ 9). Proof. done. Qed.
Lemma is_unit_h : is_unit "h" (3600 * 10 ^ 9). Proof. done. Qed.

(** A number that ends in seconds, after any hours and minutes. *)
Lemma reads_seconds u :
  (0 <= u <= 2 ^ 63)%Z ->
  let '(buf, q) := fmtFrac "s" u 9 in q = (u / 10 ^ 9)%Z /\
  forall i, (0 <= i < 60)%Z -> let b := fmtInt buf i in let v := (i * 10 ^ 9 + u mod 10 ^ 9)%Z in
    reads b v /\ forall d, (0 <= d)%Z -> (d + v <= 2 ^ 63)%Z -> duration_parts (String.length b) d b = Ok (d + v)%Z.
Proof.
  intros Hu. pose proof (fmtFrac_part u 9 "s" "" is_unit_s I ltac:(lia) ltac:(lia)) as H. rewrite app_empty_r in H.
  destruct (fmtFrac "s" u 9) as [buf q]. destruct H as [-> H]. split; [done|]. intros i Hi b v.
  pose proof (Z.mod_pos_bound u (10 ^ 9) ltac:(lia)) as Hm. specialize (H i ltac:(lia) ltac:(simpl; lia)).
  change (Z.of_nat 9) with 9%Z in H. fold b in H.
  assert (forall d, (0 <= d)%Z -> (d + v <= 2 ^ 63)%Z -> duration_parts (String.length b) d b = Ok (d + v)%Z) as Hall.
  { intros d Hd Hle. rewrite (parts_step _ _ _ d H) by lia. cbn [String.length duration_parts]. by rewrite decide_True. }
  split; [|done]. split; [by rewrite Hall by lia|apply fmtInt_starts; lia].
Qed.

Lemma reads_large u : (10 ^ 9 <= u <= 2 ^ 63)%Z ->
  reads (let '(buf, u) := fmtFrac "s" u 9 in
         let buf := fmtInt buf (u mod 60) in
         let u := (u / 60)%Z in
         if (0 <? u)%Z then
           let buf := fmtInt (String "m" buf) (u mod 60) in
           let u := (u / 60)%Z in
           if (0 <? u)%Z then fmtInt (String "h" buf) u else buf
         else buf) u.
Proof.
  intros Hu. pose proof (reads_seconds u ltac:(lia)) as H. destruct (fmtFrac "s" u 9) as [buf q]. destruct H as [-> H].
  pose proof (Z.div_mod u (10 ^ 9) ltac:(lia)) as Hu1. pose proof (Z.mod_pos_bound u (10 ^ 9) ltac:(lia)) as Hu2.
  set (q := (u / 10 ^ 9)%Z) in *. pose proof (Z.div_mod q 60 ltac:(lia)) as Hq1. pose proof (Z.mod_pos_bound q 60 ltac:(lia)) as Hq2.
  specialize (H (q mod 60)%Z Hq2) as [Hr1 Ha1]. cbv zeta. set (m := (q / 60)%Z) in *.
  assert (0 <= q)%Z as Hq0 by (apply Z.div_pos; lia). assert (0 <= m)%Z as Hm0 by (apply Z.div_pos; lia).
  destruct (Z.ltb_spec 0 m) as [Hm|Hm].
  2: { assert ((q mod 60 * 10 ^ 9 + u mod 10 ^ 9)%Z = u) as E by lia. rewrite E in Hr1. exact Hr1. }
  pose proof (Z.div_mod m 60 ltac:(lia)) as Hm1. pose proof (Z.mod_pos_bound m 60 ltac:(lia)) as Hm2.
  set (h := (m / 60)%Z) in *. assert (0 <= h)%Z as Hh0 by (apply Z.div_pos; lia).
  destruct (reads_more "m" _ _ _ (m mod 60) is_unit_m Hr1 Ha1) as [Hr2 Ha2]; [lia|lia|lia|].
  destruct (Z.ltb_spec 0 h) as [Hh|Hh].
  2: { assert ((m mod 60 * (60 * 10 ^ 9) + (q mod 60 * 10 ^ 9 + u mod 10 ^ 9))%Z = u) as E by lia. rewrite E in Hr2. exact Hr2. }
  destruct (reads_more "h" _ _ _ h is_unit_h Hr2 Ha2) as [Hr3 _]; [lia|lia|lia|].
  assert ((h * (3600 * 10 ^ 9) + (m mod 60 * (60 * 10 ^ 9) + (q mod 60 * 10 ^ 9 + u mod 10 ^ 9)))%Z = u) as E by lia. rewrite E in Hr3. exact Hr3.
Qed.

Lemma ParseDuration_reads b u (neg : bool) :
  reads b u -> (u <= if neg then 2 ^ 63 else 2 ^ 63 - 1)%Z -> b <> "0" ->
  ParseDuration (if neg then String "-" b else b) = Ok (if neg then (- u)%Z else u).
Proof.
  intros [Hd (c & s & -> & Hc)] Hu Hne. unfold ParseDuration. destruct neg.
  - cbn [is_char]. change (is_char "-" "-") with true. cbv iota. rewrite decide_False by done. rewrite decide_False by done.
    rewrite Hd. done.
  - assert (is_char "-" c = false /\ is_char "+" c = false) as [-> ->] by (split; apply is_char_false; intros <-; vm_compute in Hc; done).
    rewrite decide_False by done. rewrite decide_False by done. rewrite Hd. cbn [mbind result_bind].
    by rewrite (proj2 (Z.ltb_ge _ _)) by lia.
Qed.

Lemma reads_not_0 b u : reads b u -> b <> "0".
Proof. intros [H _] ->. by vm_compute in H. Qed.

(** Reading what was written gives the duration, for every int64. *)
Lemma ParseDuration_String d : int64 d -> ParseDuration (DurationString d) = Ok d.
Proof.
  intros Hd. unfold int64 in Hd. unfold DurationString.
  set (out := if (Z.abs d <? 10 ^ 9)%Z then _ else _).
  assert (reads out (Z.abs d) /\ out <> "0") as [Hr Hne].
  { subst out. destruct (Z.ltb_spec (Z.abs d) (10 ^ 9)) as [Hs|Hs].
    - assert (forall v n u, is_unit u (10 ^ Z.of_nat n) -> (0 <= v < 10 ^ 9)%Z -> n <= 9 ->
        let '(buf, q) := fmtFrac u v n in reads (fmtInt buf q) v /\ fmtInt buf q <> "0") as Hsm.
      { intros v n u Hu Hv Hn. pose proof (reads_small v n u Hu Hv Hn) as H. destruct (fmtFrac u v n) as [buf q].
        split; [done|]. by apply reads_not_0 in H. }
      destruct (Z.eqb_spec (Z.abs d) 0) as [->|Hz]; [split; [split; [by vm_compute|by exists "0"%char, "s"]|done]|].
      destruct (_ <? 10 ^ 3)%Z; [|destruct (_ <? 10 ^ 6)%Z].
      + apply (Hsm _ 0 "ns"); [done|lia|lia].
      + apply (Hsm _ 3 "µs"); [done|lia|lia].
      + apply (Hsm _ 6 "ms"); [done|lia|lia].
    - pose proof (reads_large (Z.abs d) ltac:(lia)) as H. split; [exact H|exact (reads_not_0 _ _ H)]. }
  destruct (Z.ltb_spec d 0) as [Hneg|Hpos].
  - rewrite (ParseDuration_reads out (Z.abs d) true) by (try done; lia). f_equal. lia.
  - rewrite (ParseDuration_reads out (Z.abs d) false) by (try done; lia). f_equal. lia.
Qed.

(** [Round] gives a nearest multiple, away from zero on a tie, inside the range. *)
Lemma Round_nearest d m :
  (0 < m)%Z -> (- 2 ^ 62 <= d < 2 ^ 62)%Z -> (m <= 2 ^ 62)%Z ->
  (m | Round d m)%Z /\ (2 * Z.abs (Round d m - d) <= m)%Z /\ ((2 * Z.abs (Round d m - d) = m)%Z -> (Z.abs d < Z.abs (Round d m))%Z).
Proof.
  intros Hm Hd Hm2. unfold Round. rewrite (proj2 (Z.leb_gt _ _)) by done.
  pose proof (Z.quot_rem d m ltac:(lia)) as Hq.
  destruct (Z.ltb_spec d 0) as [Hneg|Hpos].
  - pose proof (Z.rem_bound_pos_neg d m ltac:(lia) ltac:(lia)) as Hr. destruct (Z.ltb_spec (2 * - Z.rem d m) m).
    + split; [exists (Z.quot d m); lia|]. lia.
    + rewrite (proj2 (Z.leb_le _ _)) by lia. split; [exists (Z.quot d m - 1)%Z; lia|]. lia.
  - pose proof (Z.rem_bound_pos d m ltac:(lia) ltac:(lia)) as Hr. destruct (Z.ltb_spec (2 * Z.rem d m) m).
    + split; [exists (Z.quot d m); lia|]. lia.
    + rewrite (proj2 (Z.ltb_lt _ _)) by lia. split; [exists (Z.quot d m + 1)%Z; lia|]. lia.
Qed.
