(* ===== verification/Init.v ===== *)
(** * Setting up and showing the identity ([internal/cli/init.go], [identity.go])

    [opencom init] makes sure the key, the configuration and the friends file
    exist, starts the daemon and prints an invite; [opencom identity] shows
    and exports the identity; [opencom daemon start] ([daemon.go]) runs with it. *)
From S2P Require Import Prelude GoStrings Base64 Iox Sealed Identity Config Service.
From S2P Require Presence FriendsStore IpcServer IpcMethods.
#[local] Open Scope string_scope.
#[local] Open Scope list_scope.

Inductive InitErr :=
| IPaths (e : PathsErr) | IConfigDir | IStateDir | IKey (e : IdentityErr) | IConfig (e : ConfigErr) | IFriends (e : ConfigErr)
| IDaemon (msg : string).

(** The files, and the permissions of the private key's. *)
Record Files := mkFiles { fl_fs : gmap string bytes; fl_keymode : Z }.

(** What the system answers during a run: the two directories, whether the
    three files can be examined and read, the three writes. *)
Record Sys := mkSys {
  sy_windows : bool;
  sy_configDir : bool; sy_stateDir : bool;
  sy_statKey : bool; sy_readKey : bool; sy_readConfig : bool; sy_statFriends : bool;
  sy_osKey : Os; sy_osConfig : Os; sy_osFriends : Os }.

Section init.
Context `{Keys} (user : string).
Context (marshal : Config -> option bytes) (unmarshal : Config -> bytes -> option Config).

Definition ensureKeypair (sys : Sys) (path : string) (fresh : option PrivKey) (d : Files) : Files * result InitErr Keypair :=
  if negb (sy_statKey sys) then (d, Err (IKey EStat))
  else match fl_fs d !! path with
  | Some data => (d, map_err IKey (Identity.Load (sy_windows sys)
                       (Some (mkFile (fl_keymode d) (if sy_readKey sys then Some data else None)))))
  | None =>
      match Identity.Generate fresh with
      | Err e => (d, Err (IKey e))
      | Ok kp =>
          match Identity.Save (sy_osKey sys) path kp (fl_fs d) with
          | (fs, Some e) => (mkFiles fs (fl_keymode d), Err (IKey e))
          | (fs, None) => (mkFiles fs 384, Ok kp)                      (* 0600 *)
          end
      end
  end.

(** [runInit] up to the line with the identity. *)
Definition init_files (e : Env) (sys : Sys) (name : string) (fresh : option PrivKey) (d : Files)
  : Files * result InitErr (Keypair * Config) :=
  match DefaultPaths e with
  | Err x => (d, Err (IPaths x))
  | Ok paths =>
      if negb (sy_configDir sys) then (d, Err IConfigDir)
      else if negb (sy_stateDir sys) then (d, Err IStateDir)
      else match ensureKeypair sys (PrivateKey paths) fresh d with
      | (d, Err x) => (d, Err x)
      | (d, Ok kp) =>
          match ensureConfig user marshal unmarshal (sy_osConfig sys) (ConfigFile paths) name (sy_readConfig sys) (fl_fs d) with
          | (fs, Err x) => (mkFiles fs (fl_keymode d), Err (IConfig x))
          | (fs, Ok cfg) =>
              match ensureFriendsFile (sy_osFriends sys) (FriendsFile paths) (sy_statFriends sys) fs with
              | (fs, Some x) => (mkFiles fs (fl_keymode d), Err (IFriends x))
              | (fs, None) => (mkFiles fs (fl_keymode d), Ok (kp, cfg))
              end
          end
      end
  end.

(** The lines about the service. *)
Definition init_service (withService : bool) (build install : option LibErr) : list string :=
  if withService then
    match build with
    | Some x => ["✗ Service support unavailable: " +:+ le_text x]
    | None =>
        match install with
        | Some x => if isAlreadyInstalled install then ["✓ Service:    installed (will start at next login)"]
                    else ["✗ Service install failed: " +:+ le_text x]
        | None => ["✓ Service:    installed (will start at next login)"]
        end
    end
  else [].

(** The lines about the invite: [None] when the daemon cannot be dialled. *)
Definition init_invite (withService : bool) (create : option (result string string)) : list string :=
  match create with
  | None => [""; "Daemon is running but couldn't connect for invite generation."; "Try `opencom invite` manually."]
  | Some (Err msg) => ["✗ Could not generate invite: " +:+ msg]
  | Some (Ok code) =>
      [""; "  Invite code: " +:+ code +:+ " (valid 30 min)"; ""; "  Share this code with a friend. They run:";
       "    opencom add " +:+ code] ++
      (if withService then [] else [""; "  Tip: run `opencom service install` to keep the daemon running across reboots."])
  end.

(** [runInit]: the files, the lines and the error. [ensure] is the answer of
    [EnsureDaemonRunning]. *)
Definition runInit (e : Env) (sys : Sys) (name : string) (fresh : option PrivKey) (withService : bool)
    (ensure : option string) (build install : option LibErr) (create : option (result string string)) (d : Files)
  : Files * list string * option InitErr :=
  match init_files e sys name fresh d with
  | (d, Err x) => (d, [], Some x)
  | (d, Ok (kp, cfg)) =>
      let identity := "✓ Identity:   " +:+ ID_String (kp_PeerID kp) +:+ " (display: " +:+ Name (User cfg) +:+ ")" in
      match ensure with
      | Some msg =>
          (d, [identity; "✗ Daemon failed to start: " +:+ msg; "  Run `opencom daemon start --foreground` for diagnostics."],
           Some (IDaemon msg))
      | None =>
          (d, [identity; "✓ Daemon:     running"] ++ init_service withService build install ++ init_invite withService create, None)
      end
  end.

(** [newInitCmd]: the name is the flag or the argument. *)
Definition init_name (flag : string) (args : list string) : string :=
  match args with [a] => if decide (flag = "") then a else flag | _ => flag end.

(** ** [opencom identity] *)

(** [identity.Load] of the private key in [d]. *)
Definition load_key (sys : Sys) (path : string) (d : Files) : result IdentityErr Keypair :=
  Identity.Load (sy_windows sys)
    (if sy_statKey sys then mkFile (fl_keymode d) ∘ (fun data => if sy_readKey sys then Some data else None) <$> fl_fs d !! path
     else None).

(** The key and the configuration both commands load. *)
Definition load_identity (e : Env) (sys : Sys) (d : Files) : result InitErr (Keypair * Config) :=
  paths ← map_err IPaths (DefaultPaths e);
  kp ← map_err IKey (load_key sys (PrivateKey paths) d);
  match Config.Load user unmarshal (ConfigFile paths) (sy_readConfig sys) (fl_fs d) with
  | (_, Some x) => Err (IConfig x)
  | (cfg, None) => Ok (kp, cfg)
  end.

Definition identity_show (e : Env) (sys : Sys) (d : Files) : result InitErr (list string) :=
  '(kp, cfg) ← load_identity e sys d;
  let id := ID_String (kp_PeerID kp) in
  let short := if decide (12 < String.length id) then String.substring 0 12 id else id in
  Ok ["Display name : " +:+ Name (User cfg); "Peer ID      : " +:+ id; "Fingerprint  : " +:+ short +:+ "…"].

Definition identity_export (yaml_marshal : PublicIdentity -> option bytes) (e : Env) (sys : Sys) (dest : string) (o : Os) (d : Files)
  : Files * result InitErr string :=
  match load_identity e sys d with
  | Err x => (d, Err x)
  | Ok (kp, cfg) =>
      match Export kp (Name (User cfg)) with
      | Err x => (d, Err (IKey x))
      | Ok pub =>
          match WriteExport yaml_marshal o dest pub (fl_fs d) with
          | (fs, Some x) => (mkFiles fs (fl_keymode d), Err (IKey x))
          | (fs, None) => (mkFiles fs (fl_keymode d), Ok ("Wrote " +:+ dest))
          end
      end
  end.

(** ** Starting the daemon ([daemon.go]) *)

Inductive DaemonErr := DExclusive | DPaths (e : PathsErr) | DNoConfig | DConfig (e : ConfigErr) | DIdentity (e : IdentityErr) | DStateDir | DLog.

(** [runDaemonStart] down to [app.Run]: the identity and the configuration it
    runs with. [log] says whether the log file can be opened. *)
Definition runDaemonStart (e : Env) (sys : Sys) (log : bool) (d : Files) : result DaemonErr (Keypair * Config) :=
  paths ← map_err DPaths (DefaultPaths e);
  cfg ← match Config.Load user unmarshal (ConfigFile paths) (sy_readConfig sys) (fl_fs d) with
        | (_, Some ENotExist) => Err DNoConfig
        | (_, Some x) => Err (DConfig x)
        | (cfg, None) => Ok cfg
        end;
  kp ← map_err DIdentity (load_key sys (PrivateKey paths) d);
  if negb (sy_stateDir sys) then Err DStateDir else if negb log then Err DLog else Ok (kp, cfg).

(** [newDaemonStartCmd]: without a flag it runs in the foreground, and in the
    background it does the same, the parent having detached it. *)
Definition daemon_start (foreground background : bool) (e : Env) (sys : Sys) (log : bool) (d : Files) : result DaemonErr (Keypair * Config) :=
  if foreground && background then Err DExclusive else runDaemonStart e sys log d.
End init.

(** ** What [init] leaves on disk *)

(** A run that adds at most the file [path]. *)
Definition adds (path : string) (fs fs' : gmap string bytes) : Prop :=
  fs' = fs \/ fs !! path = None /\ exists data, fs' = <[path := data]> fs.

Lemma adds_keeps path fs fs' p data : adds path fs fs' -> fs !! p = Some data -> fs' !! p = Some data.
Proof. intros [->|[Hn [x ->]]] Hp; [done|]. rewrite lookup_insert_ne; [done|congruence]. Qed.
Lemma adds_other path fs fs' p : adds path fs fs' -> p <> path -> fs' !! p = fs !! p.
Proof. intros [->|[_ [x ->]]] Hp; [done|]. by rewrite lookup_insert_ne. Qed.

Section laws.
Context `{Keys} (user : string).
Context (marshal : Config -> option bytes) (unmarshal : Config -> bytes -> option Config).
Context (yaml_law : forall base cfg data, marshal cfg = Some data -> unmarshal base data = Some cfg) (key_law : priv_law).

(** A generated or loaded key pair is what its private key determines. *)
Definition pair_ok (kp : Keypair) : Prop :=
  PrivIsEd25519 (Priv kp) = true /\ IDFromPublicKey (GetPublic (Priv kp)) = Some (kp_PeerID kp) /\ Pub kp = GetPublic (Priv kp).

Lemma Generate_ok fresh kp : Generate fresh = Ok kp -> (forall sk, fresh = Some sk -> PrivIsEd25519 sk = true) -> pair_ok kp.
Proof.
  unfold Generate. intros (sk & Hf%of_option_Ok & (id & Hi%of_option_Ok & [= <-])%result_bind_inv)%result_bind_inv Hed.
  split; [by apply Hed|done].
Qed.

Lemma Load_pair windows mode data kp : pair_ok kp -> Z.land mode 63 = 0%Z -> MarshalPrivateKey (Priv kp) = Some data ->
  Identity.Load windows (Some (mkFile mode (Some data))) = Ok kp.
Proof.
  intros (He & Hi & Hp) Hm Hd. unfold Identity.Load. cbn [of_option mbind result_bind f_mode f_data].
  rewrite Hm, andb_false_r. destruct (key_law (Priv kp)) as (d & Hd' & Hu). assert (d = data) as -> by congruence.
  rewrite Hu. cbn [of_option mbind result_bind]. rewrite He. cbn [negb]. rewrite Hi. simpl. rewrite <- Hp. by destruct kp.
Qed.

(** A system in which existing files can be examined and read. *)
Definition readable (windows : bool) (sys : Sys) : Prop :=
  sy_windows sys = windows /\ sy_configDir sys = true /\ sy_stateDir sys = true /\ sy_statKey sys = true /\
  sy_readKey sys = true /\ sy_readConfig sys = true /\ sy_statFriends sys = true.

Lemma ensureKeypair_spec sys path fresh d d' r :
  os_fresh (sy_osKey sys) path (fl_fs d) -> ensureKeypair sys path fresh d = (d', r) ->
  adds path (fl_fs d) (fl_fs d') /\
  forall kp, r = Ok kp -> (forall sk, fresh = Some sk -> PrivIsEd25519 sk = true) -> is_Some (fl_fs d' !! path) /\
    forall fs sys' fresh', fs !! path = fl_fs d' !! path -> readable (sy_windows sys) sys' ->
      ensureKeypair sys' path fresh' (mkFiles fs (fl_keymode d')) = (mkFiles fs (fl_keymode d'), Ok kp).
Proof.
  intros Hf. unfold ensureKeypair. destruct (sy_statKey sys); simpl; [|by intros [= <- <-]; split; [left|]].
  destruct (fl_fs d !! path) as [data|] eqn:Hp.
  - intros [= <- <-]. split; [by left|]. intros kp Hl _. split; [by rewrite Hp|]. intros fs sys' fresh' Hfs (Hw & _ & _ & -> & Hr & _).
    simpl. rewrite Hfs, Hp, Hw, Hr. destruct (sy_readKey sys); [by rewrite Hl|]. exfalso.
    unfold Identity.Load in Hl. cbn in Hl. by destruct (negb (sy_windows sys) && _).
  - destruct (Generate fresh) as [kp|e] eqn:Hg; [|by intros [= <- <-]; split; [left|]].
    unfold Identity.Save. destruct (MarshalPrivateKey (Priv kp)) as [data|] eqn:Hm; [|by intros [= <- <-]; split; [left|]].
    destruct (awf_spec (sy_osKey sys) path data (fl_fs d) Hf) as [_ ->].
    destruct (AtomicWriteFile _ path data _).2 as [c|]; simpl; intros [= <- <-]; simpl; [by split; [left|]|].
    split; [right; split; [done|by exists data]|]. rewrite lookup_insert_eq. intros kp' [= <-] Hed. split; [done|].
    intros fs sys' fresh' Hfs (Hw & _ & _ & -> & Hr & _). simpl. rewrite Hfs, Hr, Load_pair with (kp := kp); [done|by eapply Generate_ok|done|done].
Qed.

Lemma ensureConfig_spec o path name readable fs fs' r :
  os_fresh o path fs -> ensureConfig user marshal unmarshal o path name readable fs = (fs', r) ->
  adds path fs fs' /\
  forall cfg, r = Ok cfg -> is_Some (fs' !! path) /\
    forall fs2, fs2 !! path = fs' !! path -> Config.Load user unmarshal path true fs2 = (cfg, None).
Proof.
  intros Hf. unfold ensureConfig, Config.Load. destruct (fs !! path) as [data|] eqn:Hp.
  - destruct readable; simpl; [|by intros [= <- <-]; split; [left|]].
    destruct (unmarshal _ data) as [c|] eqn:Hu; intros [= <- <-]; (split; [by left|]); [|done].
    intros cfg [= <-]. rewrite Hp. split; [done|]. intros fs2 ->. by rewrite Hu.
  - destruct (Config.Save _ _ _ _ _) as [fs1 [e|]] eqn:Hs; intros [= <- <-].
    + split; [|done]. unfold Config.Save in Hs. destruct (marshal _) as [data|]; [|by injection Hs as <- _; left].
      destruct (awf_spec o path data fs Hf) as [_ Hr]. rewrite Hr in Hs. destruct (AtomicWriteFile o path data fs).2; by simplify_eq; left.
    + apply Save_ok in Hs as (data & Hm & ->); [|done]. split; [right; split; [done|by exists data]|].
      intros cfg [= <-]. rewrite lookup_insert_eq. split; [done|]. intros fs2 ->. by rewrite (yaml_law _ _ _ Hm).
Qed.

Lemma ensureFriendsFile_spec o path statable fs fs' r :
  os_fresh o path fs -> ensureFriendsFile o path statable fs = (fs', r) ->
  adds path fs fs' /\ (r = None -> is_Some (fs' !! path)).
Proof.
  intros Hf. unfold ensureFriendsFile. destruct (fs !! path) as [data|] eqn:Hp.
  - intros [= <- <-]. rewrite Hp. split; [by left|done].
  - destruct statable; simpl; [|by intros [= <- <-]; split; [left|]].
    destruct (awf_spec o path (str_bytes ("[]" +:+ String "010" "")) fs Hf) as [_ ->].
    destruct (AtomicWriteFile _ _ _ _).2; simpl; intros [= <- <-]; [by split; [left|]|].
    rewrite lookup_insert_eq. split; [right; split; [done|by eexists]|done].
Qed.
(** The temporary files of the three writes are new. *)
Definition tmps_fresh (sys : Sys) (p : Paths) (fs : gmap string bytes) : Prop :=
  Forall (fun o => fs !! os_tmp o = None /\ os_tmp o ∉ [PrivateKey p; ConfigFile p; FriendsFile p])
    [sy_osKey sys; sy_osConfig sys; sy_osFriends sys].

Lemma init_paths_apart e p : DefaultPaths e = Ok p ->
  PrivateKey p <> ConfigFile p /\ PrivateKey p <> FriendsFile p /\ ConfigFile p <> FriendsFile p.
Proof.
  intros Hp. pose proof (paths_apart e p Hp) as Hnd. unfold written in Hnd. rewrite !NoDup_cons in Hnd. set_solver.
Qed.

Lemma adds_fresh path fs fs' o path' :
  adds path fs fs' -> fs !! os_tmp o = None -> os_tmp o <> path -> os_tmp o <> path' -> os_fresh o path' fs'.
Proof. intros Ha Hn Hp Hp'. split; [|done]. by rewrite (adds_other path fs). Qed.

Lemma adds_is_Some path fs fs' p : adds path fs fs' -> is_Some (fs !! p) -> is_Some (fs' !! p).
Proof. intros Ha [x Hx]. exists x. by eapply adds_keeps. Qed.

(** Existing files are kept, and no others than [l] are added. *)
Definition grows (l : list string) (fs fs' : gmap string bytes) : Prop :=
  (forall f data, fs !! f = Some data -> fs' !! f = Some data) /\ forall f, f ∉ l -> fs' !! f = fs !! f.

Lemma adds_grows l path fs fs' : path ∈ l -> adds path fs fs' -> grows l fs fs'.
Proof.
  intros Hl Ha. split; [intros; by eapply adds_keeps|]. intros f Hf. apply (adds_other path); [done|]. by intros ->.
Qed.

Lemma grows_trans l fs1 fs2 fs3 : grows l fs1 fs2 -> grows l fs2 fs3 -> grows l fs1 fs3.
Proof. intros [H1 H2] [H3 H4]. split; [eauto|]. intros f Hf. rewrite H4 by done. by apply H2. Qed.

(** A second run, on files that are there. *)
Lemma init_files_again e p sys' name fresh d kp cfg :
  DefaultPaths e = Ok p -> readable (sy_windows sys') sys' ->
  is_Some (fl_fs d !! PrivateKey p) -> ensureKeypair sys' (PrivateKey p) fresh d = (d, Ok kp) ->
  Config.Load user unmarshal (ConfigFile p) true (fl_fs d) = (cfg, None) -> is_Some (fl_fs d !! FriendsFile p) ->
  init_files user marshal unmarshal e sys' name fresh d = (d, Ok (kp, cfg)) /\
  load_identity user unmarshal e sys' d = Ok (kp, cfg) /\ runDaemonStart user unmarshal e sys' true d = Ok (kp, cfg).
Proof.
  intros Hp (_ & Hc & Hs & Hsk & Hrk & Hrc & Hsf) [y Hy] Hk Hl [x Hx].
  unfold init_files, load_identity, runDaemonStart, load_key. rewrite Hp, Hc, Hs, Hk, Hrc. simpl.
  unfold ensureConfig. rewrite Hl. unfold ensureFriendsFile. rewrite Hx, Hsf. split; [by destruct d|].
  unfold ensureKeypair in Hk. rewrite Hsk, Hrk, Hy in *. simpl in *.
  rewrite ?Hl. simpl. destruct (Identity.Load _ _); simpl in *; [|congruence]. rewrite ?Hl. split; congruence.
Qed.

End laws.

(** ** An exported identity *)

Section export.
Context `{KeyLaws} (user : string) (unmarshal : Config -> bytes -> option Config).
Context (yaml_marshal : PublicIdentity -> option bytes) (yaml_unmarshal : bytes -> option PublicIdentity).
Context (friends_marshal : list FriendsStore.Friend -> option bytes).
Context (Decode : string -> result string string) (export_error : IdentityErr -> string)
        (persist_error : FriendsStore.StoreErr -> string).
Context `{!IpcMethods.Params IpcMethods.FriendsAddParams}.
Context (export_law : yaml_law yaml_marshal yaml_unmarshal) (decode_law : forall pub id, IDFromPublicKey pub = Some id -> Decode (ID_String id) = Ok id).

Lemma Load_ok windows stat kp : Identity.Load windows stat = Ok kp -> pair_ok kp.
Proof.
  unfold Identity.Load. intros (info & _ & Hr)%result_bind_inv. destruct (_ && _); [done|].
  apply result_bind_inv in Hr as (data & _ & (priv & _ & Hr)%result_bind_inv). destruct (PrivIsEd25519 priv) eqn:He; [|done].
  by apply result_bind_inv in Hr as (id & Hi%of_option_Ok & [= <-]).
Qed.

(** What is exported is read back wherever the file is copied to. *)
Lemma export_reads kp name pub data path fs :
  pair_ok kp -> Export kp name = Ok pub -> yaml_marshal pub = Some data -> fs !! path = Some data ->
  ReadExport yaml_unmarshal path fs = Ok pub /\ pi_Name pub = name /\ pi_PeerID pub = ID_String (kp_PeerID kp) /\
  PublicIdentity_PubKey pub = Ok (Pub kp) /\ pi_RendezvousHint pub = "".
Proof.
  intros (_ & Hid & Hpub) He Hd Hp. unfold Export in He. apply result_bind_inv in He as (pb & Hm%of_option_Ok & [= <-]).
  assert (PublicIdentity_PubKey (mkPublicIdentity 1 name (ID_String (kp_PeerID kp)) (Base64.StdEncode pb) "") = Ok (Pub kp)) as Hk.
  { unfold PublicIdentity_PubKey. cbn [pi_PublicKey]. unfold Base64.StdDecode, Base64.StdEncode.
    rewrite Base64.Decode_Encode by apply _. simpl. by destruct (unmarshal_marshal (Pub kp) pb Hm) as [_ ->]. }
  split; [|done]. unfold ReadExport. rewrite Hp. simpl. destruct (export_law (mkPublicIdentity 1 name (ID_String (kp_PeerID kp)) (Base64.StdEncode pb) "")) as (d & Hd' & Hu).
  assert (d = data) as -> by congruence. rewrite Hu. simpl. rewrite Hk. simpl. rewrite Hpub, Hid. simpl.
  by rewrite decide_False by auto.
Qed.

(** C32: [opencom identity export] and [opencom friends add] meet: a file that
    the export reports written, copied to another machine under any name,
    makes [friends.add] there add, under the exporter's display name or the
    name given, a friend with the exporter's peer id and public key, unless the
    name or the peer id is taken or the store cannot be written. *)
Theorem exported_key_befriends e sys dest o d d' line :
  os_fresh o dest (fl_fs d) -> identity_export user unmarshal yaml_marshal e sys dest o d = (d', Ok line) ->
  exists kp cfg pub, load_identity user unmarshal e sys d = Ok (kp, cfg) /\ PublicIdentity_PubKey pub = Ok (Pub kp) /\
    forall st now o2 raw path as_name, let name := if decide (as_name = "") then Name (User cfg) else as_name in
      FriendsStore.store_ok (IpcMethods.p_store st) -> IpcMethods.p_files st !! path = fl_fs d' !! dest -> path <> "" -> name <> "" ->
      IpcMethods.read_params_opt (IpcMethods.mkFriendsAddParams "" "") raw = Ok (IpcMethods.mkFriendsAddParams path as_name) ->
      IpcMethods.p_friends st !! name = None -> (forall n g, IpcMethods.p_friends st !! n = Some g -> FriendsStore.PeerID g <> kp_PeerID kp) ->
      let '(st', r) := IpcMethods.FriendsAdd yaml_unmarshal friends_marshal Decode export_error persist_error now o2 raw st in
      IpcMethods.p_friends st' = <[name := FriendsStore.mkFriend name (kp_PeerID kp) (pi_PublicKey pub) now ""]> (IpcMethods.p_friends st) /\
      (IpcMethods.written friends_marshal o2 st st' -> r = Ok (IpcMethods.mkFriendsListEntry name (kp_PeerID kp) false None now)).
Proof.
  intros Hf. unfold identity_export. destruct (load_identity _ _ _ _ _) as [[kp cfg]|x] eqn:Hl; [|done].
  destruct (Export kp (Name (User cfg))) as [pub|x] eqn:He; [|done]. unfold WriteExport.
  destruct (yaml_marshal pub) as [data|] eqn:Hd; [|done]. destruct (awf_spec o dest data (fl_fs d) Hf) as [_ ->].
  destruct (AtomicWriteFile o dest data (fl_fs d)).2 as [c|]; simpl; [done|]. intros [= <- <-].
  assert (pair_ok kp) as Hkp.
  { unfold load_identity, load_key in Hl. apply result_bind_inv in Hl as (p & _ & (kp' & Hk%map_err_Ok & Hr)%result_bind_inv).
    apply Load_ok in Hk. destruct (Config.Load _ _ _ _ _) as [c [x|]]; [done|]. by injection Hr as <- <-. }
  exists kp, cfg, pub. split; [done|].
  destruct (export_reads kp _ pub data dest (<[dest:=data]> (fl_fs d)) Hkp He Hd ltac:(apply lookup_insert_eq)) as (_ & _ & _ & Hpk & _).
  split; [done|]. intros st now o2 raw path as_name.
  set (name := if decide (as_name = "") then Name (User cfg) else as_name). intros Hok Hfile Hne Hnn Hraw Hfree Hids. simpl in Hfile. rewrite lookup_insert_eq in Hfile.
  destruct (export_reads kp _ pub data path _ Hkp He Hd Hfile) as (Hre & Hname & Hpid & _ & Hhint).
  unfold IpcMethods.FriendsAdd. rewrite Hraw. simpl. unfold IpcMethods.add_friend. simpl. rewrite decide_False by done.
  rewrite Hre. simpl. destruct Hkp as (_ & Hid & _). rewrite Hpid, (decode_law _ _ Hid). simpl. rewrite Hname, Hhint.
  fold name. rewrite decide_False by done. set (f := FriendsStore.mkFriend _ _ _ _ _).
  destruct (IpcMethods.store_call_cases friends_marshal (FriendsStore.FAdd f) o2 st Hok) as (Hok' & _ & Hc).
  destruct (IpcMethods.store_call _ _ o2 st) as [st' r] eqn:Hs. simpl in Hok', Hc.
  destruct Hc as [(_ & Ha & ->)|(Hno & _)]; [|destruct Hno; split; [exact Hfree|exact Hids]].
  unfold IpcMethods.written. destruct (FriendsStore.persistLocked _ _ _ _).2 eqn:E; simpl; (split; [exact Ha|]); [|done].
  intros Hw. rewrite Hw in E. discriminate E.
Qed.
End export.

(** ** Witnesses *)

Definition demo_sys : Sys := mkSys false true true true true true true (os_ok "t1") (os_ok "t2") (os_ok "t3").
Definition demo_init (name : string) (fresh : option bytes) (d : Files) : Files * result InitErr (Keypair * Config) :=
  init_files (H := toy_keys) "root" demo_marshal demo_unmarshal demo_env demo_sys name fresh d.

Lemma demo_config_law base cfg data : demo_marshal cfg = Some data -> demo_unmarshal base data = Some cfg.
Proof. unfold demo_marshal. destruct (decide (cfg = demo_config)) as [->|]; [reflexivity|discriminate]. Qed.


(** Bob's configuration and Ann's key, exported and added on another machine. *)
Definition demo_disk : Files :=
  mkFiles (<["/Users/bob/Library/Application Support/opencom/priv.key" := ann_key]>
            {["/Users/bob/Library/Application Support/opencom/config.yaml" := [1%Z]]}) 384.
Definition demo_exported : Files * result InitErr string :=
  identity_export (H := toy_keys) "root" demo_unmarshal demo_yaml demo_env demo_sys "me.yaml" (os_ok "t") demo_disk.
Definition demo_data : bytes := default [] (fl_fs demo_exported.1 !! "me.yaml").
Definition demo_other : IpcMethods.Peers := IpcMethods.mkPeers FriendsStore.demo_store {["ann.yaml" := demo_data]} Presence.NewPresence.
Definition demo_added : IpcMethods.Peers * result IpcServer.RpcError IpcMethods.FriendsListEntry :=
  IpcMethods.FriendsAdd (H := toy_crypto) (Keys0 := toy_keys) decode_bytes (fun _ => Some [0%Z]) Ok (fun _ => "") (fun _ => "")
    (Params0 := IpcMethods.demo_params (IpcMethods.mkFriendsAddParams "ann.yaml" "ann")) 7 (os_ok "d/.tmp-1") (Some [1%Z]) demo_other.

Lemma demo_export_done : demo_exported.2 = Ok "Wrote me.yaml".
Proof. vm_compute. reflexivity. Qed.
Lemma demo_export_ok : demo_exported = (demo_exported.1, Ok "Wrote me.yaml").
Proof. rewrite <- demo_export_done. apply surjective_pairing. Qed.
Lemma demo_loaded : load_identity (H := toy_keys) "root" demo_unmarshal demo_env demo_sys demo_disk = Ok (ann_pair, demo_config).
Proof. vm_compute. reflexivity. Qed.
Lemma demo_written : bool_decide (is_Some (fl_fs demo_exported.1 !! "me.yaml")) = true.
Proof. vm_compute. reflexivity. Qed.
Lemma demo_copied : IpcMethods.p_files demo_other !! "ann.yaml" = fl_fs demo_exported.1 !! "me.yaml".
Proof.
  transitivity (Some demo_data); [apply lookup_singleton_eq|]. unfold demo_data.
  pose proof demo_written as [x Hx]%bool_decide_eq_true. rewrite Hx. reflexivity.
Qed.
Lemma demo_name_free : IpcMethods.p_friends demo_other !! "ann" = None.
Proof. apply (FriendsStore.abs_lookup_None FriendsStore.demo_store), (bool_decide_unpack _). by vm_compute. Qed.
Lemma demo_id_free n g : IpcMethods.p_friends demo_other !! n = Some g -> FriendsStore.PeerID g <> kp_PeerID ann_pair.
Proof.
  intros [Hg _]%(FriendsStore.abs_lookup _ _ _ FriendsStore.demo_store_ok).
  apply list_elem_of_In in Hg as [<-|[<-|[]]]; vm_compute; discriminate.
Qed.

Lemma exported_key_befriends_witness :
  exists pub, PublicIdentity_PubKey (H := toy_keys) pub = Ok ann_key /\
    IpcMethods.p_friends demo_added.1 !! "ann" = Some (FriendsStore.mkFriend "ann" (kp_PeerID ann_pair) (pi_PublicKey pub) 7 "").
Proof.
  destruct (exported_key_befriends (H := toy_key_laws) "root" demo_unmarshal demo_yaml decode_bytes (fun _ => Some [0%Z]) Ok (fun _ => "") (fun _ => "")
    (H0 := IpcMethods.demo_params (IpcMethods.mkFriendsAddParams "ann.yaml" "ann")) demo_yaml_law (fun _ _ _ => eq_refl)
    demo_env demo_sys "me.yaml" (os_ok "t") demo_disk demo_exported.1 "Wrote me.yaml" ltac:(split; [reflexivity|discriminate]) demo_export_ok)
    as (kp & cfg & pub & Hl & Hk & H).
  pose proof (eq_trans (eq_sym demo_loaded) Hl) as Hl'. injection Hl' as <- _.
  exists pub. split; [exact Hk|].
  specialize (H demo_other 7%Z (os_ok "d/.tmp-1") (Some [1%Z]) "ann.yaml" "ann" FriendsStore.demo_store_ok demo_copied
    ltac:(discriminate) ltac:(discriminate) ltac:(vm_compute; reflexivity) demo_name_free demo_id_free).
  unfold demo_added. destruct (IpcMethods.FriendsAdd _ _ _ _ _ _ _ _ _) as [st' r]. destruct H as [H _].
  cbn [fst]. rewrite H. rewrite (decide_False (P := "ann" = "")) by discriminate. rewrite lookup_insert_eq. reflexivity.
Defined.
