(* ===== verification/Commands.v ===== *)
(** * The commands ([internal/cli/friends.go], [invite.go], [add.go], [status.go], [daemon.go], [root.go], the table of [call.go])

    Each command is a client of the daemon that asks one thing and prints the
    answer: its request, its lines and its error. Tables are kept as rows of
    cells, which [text/tabwriter] aligns. *)
From S2P Require Import Prelude GoStrings Iox InviteCode Sealed Identity Discovery InviteManager IpcServer IpcMethods IpcInvites Duration Service.
From S2P Require InviteStore InviteUrl IpcCalls Config Version.
#[local] Open Scope string_scope.
#[local] Open Scope list_scope.

(** ** Requests and replies *)

Inductive Request :=
| RFriendsAdd (p : FriendsAddParams) | RFriendsList | RFriendsRemove (name : string) | RFriendsRename (p : FriendsRenameParams)
| RFriendsShow (name : string)
| RInviteCreate (p : InviteCreateParams) | RInviteList | RInviteRevoke (code : string) | RInviteRedeem (code : string)
| RCallsList | RStatusSummary | RShutdown | RDaemonStatus | RVersionCheck.

Record VersionCheckResult := mkVersionCheck { vc_Current : string; vc_Latest : string; vc_UpgradeAvailable : bool }.

Definition Reply (r : Request) : Type :=
  match r with
  | RFriendsAdd _ | RInviteRedeem _ => FriendsListEntry
  | RFriendsList => list FriendsListEntry
  | RFriendsShow _ => FriendsShowResult
  | RInviteCreate _ => InviteCreateResult
  | RInviteList => list InviteListEntry
  | RInviteRevoke _ => string
  | RCallsList => list IpcCalls.CallsListEntry
  | RStatusSummary => DaemonStatusSummaryResult
  | RDaemonStatus => DaemonStatusResult
  | RVersionCheck => VersionCheckResult
  | RFriendsRemove _ | RFriendsRename _ | RShutdown => ()
  end.

Inductive CmdErr := EToRequired | EConnecting (msg : string) | EReplied (msg : string) | EExclusive.
#[export] Instance CmdErr_eq_dec : EqDecision CmdErr.
Proof. solve_decision. Defined.

(** A printed line, or a row of a table. *)
Inductive Out := Line (s : string) | Row (cells : list string).

(** What a command did: its request, if it came to that, what it printed, and
    its error. *)
Definition Cmd : Type := option Request * list Out * option CmdErr.

(** ** Texts *)

(** [shortPeerID] and [shortenPeerID]. *)
Definition slice (i j : nat) (s : string) : string := String.substring i (j - i) s.
Definition shortPeerID (id : string) : string :=
  let n := String.length id in
  if decide (n <= 18) then id else slice 0 12 id +:+ "…" +:+ slice (n - 4) n id.
Definition shortenPeerID (s : string) : string :=
  let n := String.length s in
  if decide (12 < n) then slice 0 6 s +:+ "…" +:+ slice (n - 6) n s else s.

Definition second : Z := 10 ^ 9.

Definition reachabilitySummary (reach : string) (listenAddrs : list string) : string :=
  let hasCircuit := existsb (fun a => Contains a "/p2p-circuit/") listenAddrs in
  if decide (reach = "public") then "directly reachable"
  else if hasCircuit then "via relay"
  else if decide (reach = "private") then "LAN-only (no relay reservation yet — try again in ~30s)"
  else "checking...".

Section commands.
(** [dialDaemonOrStart] and [dialDaemon] with their errors, and the daemon's answers. *)
Context (start_dial dial : option string) (ask : forall r : Request, result string (Reply r)).
(** The clock, and the text of an instant in RFC 3339. *)
Context (now : Z) (rfc3339 : Z -> string).

(** The common shape of the commands. *)
Definition with_daemon (conn : option string) (r : Request) (print : Reply r -> list Out) : Cmd :=
  match conn with
  | Some e => (None, [], Some (EConnecting e))
  | None =>
      match ask r with
      | Err msg => (Some r, [], Some (EReplied msg))
      | Ok x => (Some r, print x, None)
      end
  end.

(** ** [friends.go] and [add.go] *)

Definition friends_add (path name : string) : Cmd :=
  with_daemon start_dial (RFriendsAdd (mkFriendsAddParams path name))
    (fun e => [Line ("Added " +:+ le_Name e +:+ " (" +:+ le_PeerID e +:+ ")")]).

Definition status_text (online : bool) : string := if online then "online" else "offline".
Definition last_seen_text (t : option Z) : string := match t with Some t => rfc3339 t | None => "never" end.

Definition friends_list : Cmd :=
  with_daemon start_dial RFriendsList (fun fs =>
    match fs with
    | [] => [Line "no friends yet — add one with `opencom friends add ./their.pub.key`"]
    | _ => Row ["NAME"; "STATUS"; "LAST SEEN"; "PEER ID"] ::
             ((fun f => Row [le_Name f; status_text (le_Online f); last_seen_text (le_LastSeen f); shortPeerID (le_PeerID f)]) <$> fs)
    end).

Definition friends_remove (name : string) : Cmd :=
  with_daemon start_dial (RFriendsRemove name) (fun _ => [Line ("Removed " +:+ name)]).

Definition friends_rename (name to : string) : Cmd :=
  if decide (to = "") then (None, [], Some EToRequired)
  else with_daemon start_dial (RFriendsRename (mkFriendsRenameParams name to)) (fun _ => [Line ("Renamed " +:+ name +:+ " -> " +:+ to)]).

Definition friends_show (name : string) : Cmd :=
  with_daemon start_dial (RFriendsShow name) (fun r =>
    [Line ("Name        : " +:+ sr_Name r); Line ("Peer ID     : " +:+ sr_PeerID r); Line ("Public key  : " +:+ sr_PublicKey r);
     Line ("Added at    : " +:+ rfc3339 (sr_AddedAt r)); Line ("Status      : " +:+ status_text (sr_Online r));
     Line ("Last seen   : " +:+ last_seen_text (sr_LastSeen r))]).

Definition add (code : string) : Cmd :=
  with_daemon start_dial (RInviteRedeem code) (fun e =>
    [Line ("✓ Added " +:+ le_Name e +:+ " (" +:+ shortenPeerID (le_PeerID e) +:+ ") as a friend.")]).

(** ** [invite.go] *)

Definition invite_params (ttl : Z) : InviteCreateParams := mkInviteCreateParams (if (0 <? ttl)%Z then DurationString ttl else "").

Definition invite (ttl : Z) : Cmd :=
  with_daemon start_dial (RInviteCreate (invite_params ttl)) (fun r =>
    let expires := "Expires in:  " +:+ DurationString (Round (ic_ExpiresAt r * second - now) minute) in
    (if decide (ic_DHTPublishWarning r = "") then
       [Line ("Invite code: " +:+ ic_Code r); Line ("Or URL:      " +:+ ic_URL r); Line expires; Line "";
        Line "Share this with a friend. They run:"; Line ("  opencom add " +:+ ic_Code r); Line "    or";
        Line ("  opencom add '" +:+ ic_URL r +:+ "'")]
     else
       [Line ("Invite URL:  " +:+ ic_URL r); Line expires; Line "";
        Line ("Note: short code (" +:+ ic_Code r +:+ ") couldn't be published to the DHT");
        Line ("      (" +:+ ic_DHTPublishWarning r +:+ ").");
        Line "      The URL form above is self-contained and works without DHT."; Line "";
        Line "Share the URL with a friend. They run:"; Line ("  opencom add '" +:+ ic_URL r +:+ "'")]) ++
    match ic_ReachableAddrs r with
    | [] => [Line ""; Line "⚠  No cross-network address yet — AutoRelay hasn't reserved a";
             Line "   relay slot, and your daemon has no directly-routable public";
             Line "   address. The URL above will only work for friends on the";
             Line "   same LAN (mDNS) until reachability improves.";
             Line "   Run `opencom status` in ~30s; if reachability shows";
             Line ("   " +:+ GoStrings.Quote "directly reachable" +:+ " or " +:+ GoStrings.Quote "via relay" +:+ ", re-run `opencom invite`");
             Line "   to get a cross-network-redeemable URL."]
    | _ => []
    end).

(** The time an invite has left, not below zero. *)
Definition expires_in (t : Z) : string := DurationString (Z.max 0 (Round (t - now) minute)).

Definition invite_status (e : InviteListEntry) : string :=
  if il_Consumed e then "consumed (" +:+ shortenPeerID (il_ConsumedBy e) +:+ ")" else if il_Active e then "active" else "expired".

Definition invite_list : Cmd :=
  with_daemon start_dial RInviteList (fun es =>
    match es with
    | [] => [Line "no invite codes"]
    | _ => Row ["CODE"; "EXPIRES IN"; "STATUS"] :: ((fun e => Row [il_Pretty e; expires_in (il_ExpiresAt e); invite_status e]) <$> es)
    end).

Definition invite_revoke (code : string) : Cmd :=
  with_daemon start_dial (RInviteRevoke code) (fun removed => [Line ("Revoked " +:+ removed)]).
(** ** The table of [call.go] *)

Definition mute_text (c : IpcCalls.CallsListEntry) : string :=
  if IpcCalls.cl_Muted c then "yes" else if IpcCalls.cl_PeerMuted c then "peer" else "no".
Definition or_dash (s : string) : string := if decide (s = "") then "-" else s.
Definition level_text (db : Z) : string := if (-100 <? db)%Z then FormatInt db +:+ " dB" else "-∞".

Definition call_row (c : IpcCalls.CallsListEntry) : Out :=
  Row [IpcCalls.cl_CallID c; IpcCalls.cl_State c; IpcCalls.cl_Direction c; IpcCalls.cl_Remote c; mute_text c;
       or_dash (IpcCalls.cl_AudioOK c); or_dash (IpcCalls.cl_MediaMode c); level_text (IpcCalls.cl_RxLevelDB c); level_text (IpcCalls.cl_TxLevelDB c)].

Definition call_list : Cmd :=
  with_daemon start_dial RCallsList (fun cs =>
    match cs with
    | [] => [Line "no active calls"]
    | _ => Row ["CALL ID"; "STATE"; "DIRECTION"; "REMOTE"; "MUTE"; "AUDIO"; "MEDIA"; "RX-LVL"; "TX-LVL"] :: (call_row <$> cs)
    end).

(** ** [daemon.go] *)

(** The service's state as [buildService] and [Status] give it. *)
Context (build : option LibErr) (status_ : LibStatus * option LibErr).

Definition service_running : bool :=
  match build, status_ with None, (StatusRunning, _) => true | _, _ => false end.

Definition daemon_stop : Cmd :=
  let warning :=
    if service_running
    then [Line "warning: opencom is installed as a service; the service manager may auto-restart the daemon.";
          Line "         To stop without restart, use `opencom service stop`."]
    else [] in
  let '(r, out, e) := with_daemon dial RShutdown (fun _ => [Line "daemon: stopping"]) in (r, warning ++ out, e).

Definition addrs_block (title : string) (pre : string) (l : list string) : list Out :=
  match l with [] => [] | _ => Line title :: ((fun a => Line (pre +:+ a)) <$> l) end.

Definition daemon_status : Cmd :=
  match dial with
  | Some _ => (None, [Line "daemon: not running"], None)
  | None =>
      with_daemon None RDaemonStatus (fun st =>
        [Line "daemon: running"; Line ("version : " +:+ ds_Version st); Line ("peer id : " +:+ ds_PeerID st);
         Line ("started : " +:+ rfc3339 (ds_StartedAt st));
         Line ("uptime  : " +:+ DurationString (Round (now - ds_StartedAt st) second))] ++
        (if decide (ds_Reachability st = "") then [] else [Line ("reach   : " +:+ ds_Reachability st)]) ++
        (match ds_Relays st with
         | [] => [Line "relays  : no reservations"]
         | rs => addrs_block "relays  :" "          reserved on " rs
         end) ++
        addrs_block "listen  :" "          " (ds_ListenAddrs st))
  end.

(** ** [status.go] *)

Definition service_line : list Out :=
  match build with
  | Some _ => []
  | None =>
      [Line match status_ with
            | (_, Some e) => if isNotInstalled (Some e) || le_notInstalled e then "Service         : not installed"
                             else "Service         : unknown (" +:+ le_text e +:+ ")"
            | (StatusRunning, None) => "Service         : installed (running)"
            | (StatusStopped, None) => "Service         : installed (stopped)"
            | (StatusUnknown, None) => "Service         : installed (state unknown)"
            end]
  end.

Definition friend_state (f : FriendsListEntry) : string :=
  if le_Online f then "online"
  else match le_LastSeen f with
       | Some t => "last seen " +:+ DurationString (Round (now - t) minute) +:+ " ago"
       | None => "offline"
       end.

Definition count (title : string) (n : nat) : Out := Line (title +:+ FormatInt (Z.of_nat n)).

Definition status : Cmd :=
  with_daemon start_dial RStatusSummary (fun r =>
    let id := su_Identity r in
    let active := filter (fun e => il_Active e = true) (su_Invites r) in
    [Line ("Identity        : " +:+ ds_PeerID id);
     Line ("Daemon          : running (" +:+ DurationString (Round (now - ds_StartedAt id) second) +:+ " uptime)");
     Line ("Reachability    : " +:+ reachabilitySummary (ds_Reachability id) (ds_ListenAddrs id))] ++
    service_line ++
    (count "Friends         : " (length (su_Friends r)) ::
       ((fun f => Line ("  - " +:+ (if decide (le_Name f = "") then "(unnamed)" else le_Name f) +:+ " (" +:+ friend_state f +:+ ")"))
          <$> su_Friends r)) ++
    [count "Active calls    : " (length (su_Calls r))] ++
    (count "Active invites  : " (length active) ::
       ((fun e => Line ("  - " +:+ il_Pretty e +:+ " (expires in " +:+ expires_in (il_ExpiresAt e) +:+ ")")) <$> active)) ++
    addrs_block "Listen          :" "  " (ds_ListenAddrs id)).

(** ** [root.go] *)

(** [maybePrintUpgradeAvailable]: the names of the command and its parents, the
    innermost first; the last is the binary's. *)
Definition maybePrintUpgradeAvailable (version : string) (chain : list string) : option Request * list Out :=
  if decide (version = "dev") then (None, [])
  else if bool_decide (head chain ∈ Some <$> ["upgrade"; "version"; "start"; "stop"; "status"]) then (None, [])
  else if bool_decide ("upgrade" ∈ chain) then (None, [])
  else match with_daemon dial RVersionCheck (fun res =>
         if vc_UpgradeAvailable res
         then [Line ("⚠ opencom v" +:+ vc_Latest res +:+ " is available (you have v" +:+ vc_Current res +:+ ") — run '" +:+
                     TrimSpace (default "opencom" (last chain)) +:+ " upgrade' to install")]
         else []) with
       | (r, out, _) => (r, out)
       end.
End commands.

(** ** The time to live of an invite *)

Section ttl.
#[local] Set Default Proof Using "Type".
Context `{Crypto, !Keys _, Dht} (unicode_upper : string -> string).
Context (rec_marshal : InviteRecord.Record_ -> option bytes) (store_marshal : Z -> list Entry -> option bytes).
Context {Multiaddr : Type} (MultiaddrString : Multiaddr -> string) (inv_error : InvErr -> string) (dht_error : DHTErr -> string).
Context `{!Params InviteCreateParams}.

(** The daemon reads the time to live that the command was given. *)
Lemma create_ttl_params ttl raw :
  int64 ttl -> read_params_opt (mkInviteCreateParams "") raw = Ok (invite_params ttl) ->
  create_ttl raw = Ok (if (0 <? ttl)%Z then ttl else 30 * minute)%Z.
Proof.
  intros Ht Hr. unfold create_ttl. rewrite Hr. unfold invite_params. simpl. destruct (Z.ltb_spec 0 ttl) as [Hp|Hp]; [|done].
  rewrite decide_False.
  - by rewrite ParseDuration_String.
  - intros E. pose proof (ParseDuration_String ttl Ht) as Hs. rewrite E in Hs. by vm_compute in Hs.
Qed.

(** What the command prints of the time left is right to half a minute, and a
    second for the reply's whole seconds. *)
Lemma expires_text now t :
  (- 2 ^ 61 <= t - now < 2 ^ 61)%Z ->
  exists v, ParseDuration (DurationString (Round (Unix t * second - now) minute)) = Ok v /\
    (Z.abs (v - (t - now)) <= 31 * second)%Z.
Proof.
  intros Hr. assert (t - second < Unix t * second <= t)%Z as Hu.
  { unfold Unix, second. pose proof (Z.div_mod t (10 ^ 9) ltac:(lia)). pose proof (Z.mod_pos_bound t (10 ^ 9) ltac:(lia)). lia. }
  revert Hu. generalize (Unix t * second)%Z. intros u Hu. unfold second in *.
  destruct (Round_nearest (u - now) minute) as (_ & Hn & _); [done|lia|done|]. unfold minute in *.
  exists (Round (u - now) (60 * 10 ^ 9)). split; [|lia]. apply ParseDuration_String. unfold int64. lia.
Qed.

End ttl.

(** ** Witness *)

(** Ann asks for five minutes. *)
Definition five_minutes : Params InviteCreateParams := demo_params (invite_params (5 * minute)).
Definition ann_invited := InviteCreate (H := toy_crypto) (H0 := toy_dht) invite_marshal no_marshal (@id string) (fun _ => "") (fun _ => "")
  (Params0 := five_minutes) ann None (plain_env (10 ^ 12)) 0 (Some ("000"%char, "068"%char, "050"%char, "020"%char, "199"%char))
  (Some (repeat 7%Z 24)) [] (Some [1%Z]) ∅ (empty_state "d/invites.json").
Definition ann_invite : InviteCreateResult := match ann_invited.2 with Ok r => r | Err _ => mkInviteCreate "" "" 0 "" [] end.
Definition demo_answers (r : Request) : result string (Reply r) :=
  match r return result string (Reply r) with RInviteCreate _ => Ok ann_invite | _ => Err "not asked" end.

