(* ===== verification/Views.v ===== *)
(** * What the terminal UI shows ([internal/cli/tui], the [View] methods)

    The texts of the panes, the dock, the footer and the modals, [Model.View],
    which lays them out, the QR code of an invite ([qr.go]), the clipboard, the
    settings modal's editor and [Run]. Lip Gloss, which colours, boxes and joins texts, is a
    parameter, as are Go's conversions between a string and its runes and the
    text of a date. *)
From S2P Require Import Prelude GoStrings.
From S2P Require IpcInvites.
From S2P Require Import CallSession IpcMethods TuiPanes Tui Duration.
#[local] Open Scope string_scope.
#[local] Open Scope list_scope.

(** ** QR codes ([qr.go]) *)

(** A cell of the text: both of its halves lit, one, or none. *)
Inductive Glyph := Full | Upper | Lower | Blank.
Definition glyph_text (g : Glyph) : string :=
  match g with Full => "█" | Upper => "▀" | Lower => "▄" | Blank => " " end.

Definition glyph (top bot : bool) : Glyph := if top && bot then Full else if top then Upper else if bot then Lower else Blank.

(** The cells of one row of text from two rows of the code; the second is
    missing below an odd last row. [None] is an index out of range. *)
Definition qr_row (top : list bool) (bot : option (list bool)) : option (list Glyph) :=
  mapM (fun '(c, t) => match bot with None => Some (glyph t false) | Some b => b' ← b !! c; Some (glyph t b') end) (imap pair top).

Fixpoint qr_rows (bm : list (list bool)) : option (list (list Glyph)) :=
  match bm with
  | [] => Some []
  | [top] => row ← qr_row top None; Some [row]
  | top :: bot :: bm => row ← qr_row top (Some bot); rest ← qr_rows bm; Some (row :: rest)
  end.

(** [strings.Repeat(" ", n)], for [n >= 0]. *)
Definition pad (n : Z) : string := foldr (fun _ s => String " " s) "" (seq 0 (Z.to_nat n)).

Definition nl : string := String "010" "".
Definition row_text (row : list Glyph) : string := foldr (fun g s => glyph_text g +:+ s) nl row.

(** [renderASCIIQR] of the bitmap of a payload: the text, or a panic. *)
Definition renderASCIIQR (bm : list (list bool)) : option string :=
  rows ← qr_rows bm; Some (foldr (fun r s => row_text r +:+ s) "" rows).

(** A bitmap whose rows are all of one width is drawn without a panic, two rows
    of modules to a row of text, and every module is the half of a cell it should
    be: the text is the code. The lower half below an odd last row is dark. *)
Definition lit (g : Glyph) (lower : bool) : bool :=
  match g with Full => true | Upper => negb lower | Lower => lower | Blank => false end.

Lemma lit_glyph t b lower : lit (glyph t b) lower = if lower then b else t.
Proof. by destruct t, b, lower. Qed.

(** [bot] says what the second row holds. *)
Lemma qr_row_lit top bot :
  (forall b, bot = Some b -> length b = length top) ->
  exists row, qr_row top bot = Some row /\ length row = length top /\
    forall c t, top !! c = Some t -> exists g, row !! c = Some g /\ lit g false = t /\
      lit g true = default false (b ← bot; b !! c).
Proof.
  intros Hb. unfold qr_row.
  set (cell := fun x : nat * bool => _).
  assert (Hcell : forall c t, top !! c = Some t -> cell (c, t) = Some (glyph t (default false (b ← bot; b !! c)))).
  { intros c t Ht. subst cell. simpl. destruct bot as [b|]; [|done]. simpl.
    destruct (lookup_lt_is_Some_2 b c) as [x Hx]; [rewrite (Hb b eq_refl); by eapply lookup_lt_Some|]. by rewrite Hx. }
  assert (Hall : Forall (fun x => is_Some (cell x)) (imap pair top)).
  { apply Forall_lookup_2. intros c [c' t] Hc. rewrite list_lookup_imap in Hc.
    destruct (top !! c) as [t'|] eqn:Ht; simplify_eq/=. rewrite (Hcell _ _ Ht). eauto. }
  apply mapM_is_Some_2 in Hall as [row Hrow]. exists row. split; [done|].
  apply mapM_Some in Hrow. split; [apply Forall2_length in Hrow; by rewrite <- Hrow, length_imap|].
  intros c t Ht. destruct (Forall2_lookup_l _ _ _ c (c, t) Hrow) as (g & Hg & Hcg).
  { rewrite list_lookup_imap, Ht. done. }
  rewrite (Hcell c t Ht) in Hcg. injection Hcg as <-. eexists. split; [exact Hg|]. by rewrite !lit_glyph.
Qed.

Definition module_shown (bm : list (list bool)) (rows : list (list Glyph)) : Prop :=
  forall r c row t, bm !! r = Some row -> row !! c = Some t ->
    exists cells g, rows !! Nat.div2 r = Some cells /\ cells !! c = Some g /\ lit g (Nat.odd r) = t.

Lemma qr_rows_shown w bm :
  Forall (fun row => length row = w) bm ->
  exists rows, qr_rows bm = Some rows /\ length rows = Nat.div2 (S (length bm)) /\
    Forall (fun cells => length cells = w) rows /\ module_shown bm rows.
Proof.
  induction bm as [[|top [|bot bm]] IH] using (well_founded_induction (well_founded_ltof _ length)); intros Hw.
  - exists []. split_and!; [done|done|constructor|]. intros r c row t Hr. done.
  - destruct (qr_row_lit top None) as (row & Hrow & Hlen & Hlit); [done|].
    apply Forall_cons in Hw as [Hw _]. simpl. rewrite Hrow. exists [row].
    split_and!; [done|done|constructor; [lia|done]|].
    intros [|r] c row' t Hr Ht; [|done]. simplify_eq/=. destruct (Hlit c t Ht) as (g & Hg & Hl & _). eauto 6.
  - apply Forall_cons in Hw as [Htop Hw]. apply Forall_cons in Hw as [Hbot Hw].
    destruct (qr_row_lit top (Some bot)) as (row & Hrow & Hlen & Hlit); [intros b [= <-]; lia|].
    destruct (IH bm) as (rows & Hrows & Hlen' & Hall & Hshown); [unfold ltof; simpl; lia|done|].
    cbn [qr_rows]. rewrite Hrow. cbn. rewrite Hrows. cbn. exists (row :: rows).
    split_and!; [done|cbn; by f_equal|constructor; [lia|done]|].
    intros [|[|r]] c row' t Hr Ht; simplify_eq/=.
    + destruct (Hlit c t Ht) as (g & Hg & Hl & _). eauto 6.
    + destruct (lookup_lt_is_Some_2 top c) as [u Hu]; [apply lookup_lt_Some in Ht; lia|].
      destruct (Hlit c u Hu) as (g & Hg & _ & Hl). exists row, g. split_and!; [done|done|].
      change (lit g true = t). rewrite Hl. simpl. by rewrite Ht.
    + apply (Hshown r c row' t Hr Ht).
Qed.

(** ** The editor ([modal_settings.go]) *)

(** [pickEditor]: [$EDITOR], [$VISUAL], or an editor that is installed. *)
Definition pickEditor (Getenv : string -> string) (installed : string -> bool) (windows : bool) : string :=
  match list_find (fun v => v <> "") (map Getenv ["EDITOR"; "VISUAL"]) with
  | Some (_, v) => v
  | None =>
      match list_find (fun cand => installed cand = true) ["vim"; "vi"; "nano"] with
      | Some (_, cand) => cand
      | None => if windows then "notepad" else "vi"
      end
  end.

Definition newSettingsModal (pick : string) (path editorOverride : string) : settingsModal :=
  mkSettings path (if decide (editorOverride = "") then pick else editorOverride).

(** ** The clipboard and the program ([clipboard.go], [tui.go]) *)

(** The library is initialised once, when the clipboard is first used; [None] is
    not yet, and the error is kept. *)
Definition ClipboardState : Type := option (option string).
Definition init_once (Init : option string) (c : ClipboardState) : option string := default Init c.

Definition clipboard_Read (Init : option string) (contents : string) (c : ClipboardState) : ClipboardState * result string string :=
  let err := init_once Init c in
  (Some err, match err with Some e => Err e | None => Ok contents end).

(** What is on the clipboard after the call, and its error. *)
Definition clipboard_Write (Init : option string) (s contents : string) (c : ClipboardState) : ClipboardState * string * option string :=
  let err := init_once Init c in
  (Some err, if err then contents else s, err).

(** [Run]: [None] is its panic without a dialler; otherwise the error and whether
    the client was closed. *)
Definition Run (dial : option (result string unit)) (program : option string) : option (option string * bool) :=
  match dial with
  | None => None
  | Some (Err e) => Some (Some ("dialling daemon: " +:+ e), false)
  | Some (Ok _) => Some (program, true)
  end.

(** ** The styles ([theme.go]) *)

Inductive Style := Saccent | Sdim | Sok | Swarn | Serr | Skey | Shead | SmodalBox.

(** [time.Time{}] in nanoseconds since 1970. *)
Definition zeroTime : Z := - 62135596800 * 10 ^ 9.

Section views.
Context (unicode_lower : string -> string) (ID_String : string -> string).
(** [Style.Render], [theme.box] at a content size, and the joins. *)
Context (render : Style -> string -> string) (box : Z -> Z -> string -> string).
Context (JoinHorizontal JoinVertical : list string -> string) (Width : string -> Z).
(** Runes of a string and back; the date of an instant; the clock. *)
Context (to_runes : string -> list Z) (of_runes : list Z -> string) (date : Z -> string) (now : Z).

(** ** The panes *)

Definition shown_name (f : FriendsListEntry) : string := if decide (le_Name f = "") then short_id (ID_String (le_PeerID f)) else le_Name f.

Definition friend_status (f : FriendsListEntry) : string :=
  if le_Online f then "online" else match le_LastSeen f with Some t => relTime (now - t) | None => "offline" end.

(** [padOrTrunc]: the string padded to a number of runes, or cut. *)
Definition padOrTrunc_string (s : string) (w : Z) : option string :=
  let rs := to_runes s in
  let n := Z.of_nat (length rs) in
  if decide (w < n)%Z then cut ← slice_to rs (w - 1); Some (of_runes cut +:+ "…")
  else Some (if decide (n < w)%Z then s +:+ pad (w - n) else s).

(** One row of the sidebar. *)
Definition row_marker (selected i : nat) : string := if decide (i = selected) then "▌ " else "  ".
Definition friend_row (selected i : nat) (f : FriendsListEntry) : option string :=
  name ← padOrTrunc_string (shown_name f) 12;
  Some (row_marker selected i +:+ (if le_Online f then "●" else "○") +:+ " " +:+ name +:+ " " +:+ friend_status f).
Definition friend_rows (selected : nat) (vis : list FriendsListEntry) : option (list string) :=
  mapM (fun '(i, f) => friend_row selected i f) (imap pair vis).

Definition friends_View (p : friendsPane) (width height : Z) (filterActive : bool) (filterValue : string) : option string :=
  let header := if filterActive then " /" +:+ filterValue +:+ "█" +:+ nl else "" in
  match visible unicode_lower p with
  | [] => Some (box width height (header +:+ render Sdim "No friends yet"))
  | vis =>
      rows ← friend_rows (fp_selected p) vis;
      Some (box width height (header +:+ foldr (fun r s => r +:+ nl +:+ s) "" rows))
  end.

Definition focus_View (friend : option FriendsListEntry) (width height : Z) : string :=
  match friend with
  | None =>
      box width height (render Sdim ("Press " +:+ render Skey "a" +:+ " to add a friend, or " +:+ render Skey "c" +:+ " to generate an invite to share."))
  | Some f =>
      let name := if decide (le_Name f = "") then short_id (ID_String (le_PeerID f)) +:+ " (no name set)" else le_Name f in
      box width height
        (name +:+ nl +:+ nl +:+ "peer id     " +:+ ID_String (le_PeerID f) +:+ nl +:+
         "status      " +:+ (if le_Online f then "online" else "offline") +:+ nl +:+
         (if decide (le_AddedAt f = zeroTime) then "" else "added       " +:+ date (le_AddedAt f) +:+ nl) +:+
         nl +:+ render Skey "enter" +:+ " call   " +:+ render Skey "r" +:+ " rename   " +:+ render Skey "x" +:+ " remove" +:+ nl)
  end.

(** [time.Since] of the start of a call; it saturates for the zero time. *)
Definition since (t : option Z) : Z := match t with Some t => now - t | None => 2 ^ 63 - 1 end.

Definition dock_body (d : callDockState) : string :=
  if decide (d_State d = "calling") then " " +:+ render Swarn "●" +:+ " Calling " +:+ d_Remote d +:+ "…"
  else if decide (d_State d = "ringing") then " " +:+ render Swarn "●" +:+ " Ringing — " +:+ d_Remote d
  else if decide (d_State d = "connecting") then " " +:+ render Swarn "●" +:+ " Connecting to " +:+ d_Remote d +:+ "…"
  else if decide (d_State d = "connected") then
    " " +:+ render Shead (d_Remote d) +:+ " " +:+ DurationString (Round (since (d_StartedAt d)) (10 ^ 9)) +:+ "   " +:+
    render Sdim (if decide (d_Mode d = "") then "—" else d_Mode d) +:+ "   rx " +:+ FormatInt (d_RxDB d) +:+ " dB   tx " +:+ FormatInt (d_TxDB d) +:+ " dB" +:+
    nl +:+ " " +:+ render Skey "m" +:+ " mute  " +:+ render Skey "h" +:+ " hangup  " +:+ render Skey "d" +:+ " diag  " +:+ render Skey "esc" +:+ " back"
  else if decide (d_State d = "ended") then " " +:+ render Sdim "●" +:+ " call ended  " +:+ render Sdim (d_Reason d)
  else "".
Definition dock_View (d : callDockState) (width height : Z) : string :=
  if decide (d_State d = "") then render Sdim " no active calls" else box width height (dock_body d).

Definition footer_keys : string :=
  Join [render Sdim "/" +:+ "search"; render Skey "a" +:+ " add"; render Skey "c" +:+ " code"; render Skey "s" +:+ " settings";
        render Skey "?" +:+ "help"; render Skey "q" +:+ " quit"] "  ".
Definition footer_indicator (s : statusFooterState) : string :=
  match f_Status s with
  | statusConnected => render Sok ("● connected to " +:+ f_Detail s)
  | statusRinging => render Swarn ("● ringing — " +:+ f_Detail s)
  | statusDaemonDown => render Serr "● daemon down"
  | statusNoRelay => render Swarn "⚠ no relay reservation"
  | statusError => render Serr ("✖ " +:+ f_Detail s)
  | statusIdle => render Sdim "● relay reserved"
  end.
Definition renderStatusFooter (s : statusFooterState) : string :=
  let ind := footer_indicator s in
  let used := (Width footer_keys + Width ind)%Z in
  if (f_Width s <=? 0)%Z || (f_Width s <=? used)%Z then footer_keys +:+ "  " +:+ ind
  else footer_keys +:+ pad (f_Width s - used) +:+ ind.

(** ** The modals *)

Definition key_hint (k what : string) : string := "[ " +:+ render Skey k +:+ " " +:+ what +:+ " ]".

(** The fields [Fingerprint] and [Verified] are never set. *)
Definition incoming_View (m : incomingModal) : string :=
  render SmodalBox
    (render Shead "Incoming call" +:+ nl +:+ nl +:+ render Shead (in_Caller m) +:+ nl +:+ render Sdim (in_PeerID m) +:+ nl +:+
     "fingerprint    " +:+ render Sdim "(unverified)" +:+ nl +:+ nl +:+
     key_hint "a" "accept" +:+ "   " +:+ key_hint "d" "decline" +:+ "   " +:+ key_hint "esc" "ignore").

Definition quit_View (m : quitModal) : string :=
  render SmodalBox
    ("You're on a call with " +:+ render Shead (q_remote m) +:+ "." +:+ nl +:+ nl +:+
     key_hint "d" "detach (call continues)" +:+ "   " +:+ key_hint "h" "hang up" +:+ "   " +:+ key_hint "esc" "cancel").

Definition settings_View (m : settingsModal) : string :=
  render SmodalBox
    ("Settings live in " +:+ se_path m +:+ "." +:+ nl +:+ "After editing, run `opencom daemon restart` to apply." +:+ nl +:+ nl +:+
     key_hint "o" "open in $EDITOR" +:+ "   " +:+ key_hint "esc" "close").

Definition addFriend_View (m : addFriendModal) : string :=
  let fname := match af_friend m with Some f => le_Name f | None => "" end in
  render SmodalBox
    (render Shead "Add friend" +:+ nl +:+ nl +:+
     match af_state m with
     | addStateNewPeer =>
         render Sok "✓" +:+ " found invite in clipboard" +:+ nl +:+ nl +:+ "Inviter:    " +:+ render Shead (af_inviter m) +:+ nl +:+
         "Code:       " +:+ af_parsed m +:+ nl +:+ nl +:+ key_hint "enter" "add" +:+ "   " +:+ key_hint "esc" "cancel"
     | addStateDuplicate =>
         render Swarn "⚠" +:+ " already a friend" +:+ nl +:+ nl +:+ "Clipboard contains an invite for " +:+ render Shead fname +:+ "." +:+ nl +:+
         "(added " +:+ date (match af_friend m with Some f => le_AddedAt f | None => zeroTime end) +:+ ")" +:+ nl +:+ nl +:+
         key_hint "enter" ("open " +:+ fname) +:+ "   " +:+ key_hint "esc" "close"
     | addStateEmpty =>
         "Paste an opencom:// URL or OPEN-XXXX code:" +:+ nl +:+ render Sdim (af_manualEntry m) +:+ "_" +:+ nl +:+ nl +:+
         match af_clipboardErr m with
         | Some e => render Swarn ("clipboard unavailable: " +:+ e)
         | None => render Sdim "clipboard checked — no invite found"
         end +:+ nl +:+ nl +:+ key_hint "enter" "add" +:+ "   " +:+ key_hint "esc" "cancel"
     end).

Definition invite_View (m : inviteModal) : string :=
  let r := default (IpcInvites.mkInviteCreate "" "" 0 "" []) (im_result m) in
  render SmodalBox
    (render Shead "Generate invite" +:+ nl +:+ nl +:+
     match im_state m with
     | inviteStateLoading => render Sdim "contacting daemon…"
     | inviteStateActive =>
         "code: " +:+ render Shead (IpcInvites.ic_Code r) +:+ nl +:+ "url:  " +:+ IpcInvites.ic_URL r +:+ nl +:+ nl +:+
         (if decide (im_qr m = "") then "" else im_qr m +:+ nl) +:+
         (if decide (IpcInvites.ic_DHTPublishWarning r = "") then "" else render Swarn "⚠" +:+ " " +:+ IpcInvites.ic_DHTPublishWarning r +:+ nl) +:+
         nl +:+ key_hint "u" "copy URL" +:+ "   " +:+ key_hint "k" "copy code" +:+ "   " +:+ key_hint "esc" "close"
     | inviteStateRedeemed => render Sok "✓" +:+ " redeemed by " +:+ render Shead (im_redeemer m)
     end).
Definition padLeft (s : string) (w : Z) : string :=
  let n := Z.of_nat (String.length s) in
  if decide (w <= n)%Z then s else pad (w - n) +:+ s.

Definition help_groups : list (string * list (string * string)) :=
  [("Global", [("/", "filter friends"); ("a", "add friend"); ("c", "generate invite"); ("s", "settings"); ("?", "this help"); ("q", "quit")]);
   ("Friends", [("↑/k", "select previous"); ("↓/j", "select next"); ("enter", "place call"); ("r", "rename"); ("x", "remove")]);
   ("In call", [("m", "toggle mute"); ("h", "hang up"); ("esc", "detach (call lives in daemon)")]);
   ("In modal", [("esc", "cancel / close"); ("enter", "confirm")])].

Definition help_item (kv : string * string) : string := "  " +:+ render Skey (padLeft (fst kv) 6) +:+ "  " +:+ snd kv +:+ nl.
Definition help_group (g : string * list (string * string)) : string :=
  render Saccent (fst g) +:+ nl +:+ foldr (fun kv s => help_item kv +:+ s) nl (snd g).
Definition help_View : string :=
  render SmodalBox
    (render Shead "Keybindings" +:+ nl +:+ nl +:+
     foldr (fun g s => help_group g +:+ s) (render Sdim "press ? or esc to close") help_groups).

Definition modal_View (m : modalView) : string :=
  match m with
  | MIncoming m => incoming_View m
  | MQuit m => quit_View m
  | MHelp => help_View
  | MSettings m => settings_View m
  | MAddFriend m => addFriend_View m
  | MInvite m => invite_View m
  end.

(** ** [Model.View] *)

(** The style of what a modal covers, and the widths of a rendered row and of
    the panel, on runes. *)
Context (dim : list Z -> list Z) (row_Width : list Z -> Z) (panel_Width : list (list Z) -> Z).

Definition lines (s : string) : list (list Z) := map to_runes (Split s "010").

Definition overlaid (m : Model) (bg fg : string) : option string :=
  out ← renderOverlay dim row_Width panel_Width (lines bg) (lines fg) (m_width m) (m_height m);
  Some (Join (map of_runes out) nl).

Definition View (m : Model) : option string :=
  match layout m with
  | None => Some ""
  | Some l =>
      left ← friends_View (m_friends m) (la_sidebarW l) (la_upperH l) (m_filtering m) (m_filterInput m);
      let right := focus_View (m_focus m) (la_focusW l) (la_upperH l) in
      let upper := JoinHorizontal [left; right] in
      let footer := renderStatusFooter (m_footer m) in
      let bg := if decide (0 < la_dockH l)%Z
                then JoinVertical [upper; dock_View (m_dock m) (m_width m) (la_dockH l); footer]
                else JoinVertical [upper; footer] in
      match m_modal m with
      | Some x => overlaid m bg (modal_View x)
      | None => Some bg
      end
  end.

(** ** What is on display *)

(** The name column never panics: it is cut or padded to 12. *)
Lemma padOrTrunc_string_total s w : (1 <= w)%Z -> is_Some (padOrTrunc_string s w).
Proof.
  intros Hw. unfold padOrTrunc_string. destruct (decide _); [|eauto].
  unfold slice_to. rewrite decide_True by lia. simpl. eauto.
Qed.

(** The row of a friend: the marker, whether it is online, its name and its
    status. *)
Definition row_of (marker name : string) (f : FriendsListEntry) : string :=
  marker +:+ (if le_Online f then "●" else "○") +:+ " " +:+ name +:+ " " +:+ friend_status f.

Lemma friend_row_total selected i f :
  exists name, padOrTrunc_string (shown_name f) 12 = Some name /\
    friend_row selected i f = Some (row_of (row_marker selected i) name f).
Proof.
  unfold friend_row. destruct (padOrTrunc_string_total (shown_name f) 12) as [name Hname]; [lia|].
  rewrite Hname. simpl. eauto.
Qed.

Lemma friend_rows_total selected vis :
  exists rows, friend_rows selected vis = Some rows /\ length rows = length vis /\
    forall i f, vis !! i = Some f -> exists name, padOrTrunc_string (shown_name f) 12 = Some name /\
      rows !! i = Some (row_of (row_marker selected i) name f).
Proof.
  unfold friend_rows. set (draw := fun x : nat * FriendsListEntry => _).
  assert (Hall : Forall (fun x => is_Some (draw x)) (imap pair vis)).
  { apply Forall_forall. intros [i f] _. subst draw. simpl. destruct (friend_row_total selected i f) as (? & _ & ->). eauto. }
  apply mapM_is_Some_2 in Hall as [rows Hrows]. exists rows. split; [done|]. apply mapM_Some in Hrows. split.
  - apply Forall2_length in Hrows. by rewrite <- Hrows, length_imap.
  - intros i f Hf. destruct (Forall2_lookup_l _ _ _ i (i, f) Hrows) as (row & Hrow & Hdraw).
    { by rewrite list_lookup_imap, Hf. }
    subst draw. simpl in Hdraw. destruct (friend_row_total selected i f) as (name & Hname & Hr).
    exists name. split; [done|]. congruence.
Qed.

Lemma friends_View_total p w h fa fv : is_Some (friends_View p w h fa fv).
Proof.
  unfold friends_View. destruct (visible unicode_lower p) as [|f vis] eqn:Hvis; [eauto|].
  destruct (friend_rows_total (fp_selected p) (f :: vis)) as (rows & -> & _). simpl. eauto.
Qed.

Lemma overlaid_total m bg fg :
  (0 <= m_width m)%Z -> (forall l, 0 <= row_Width l)%Z -> (forall l, 0 <= panel_Width l)%Z -> is_Some (overlaid m bg fg).
Proof.
  intros Hm Hrow Hpanel. unfold overlaid.
  destruct (renderOverlay_total dim row_Width panel_Width (lines bg) (lines fg) (m_width m) (m_height m)) as (out & -> & _); eauto.
Qed.

Lemma View_total m :
  (0 <= m_width m)%Z -> (forall l, 0 <= row_Width l)%Z -> (forall l, 0 <= panel_Width l)%Z -> is_Some (View m).
Proof.
  intros Hm Hrow Hpanel. unfold View. destruct (layout m) as [l|]; [|eauto].
  destruct (friends_View_total (m_friends m) (la_sidebarW l) (la_upperH l) (m_filtering m) (m_filterInput m)) as [left ->].
  simpl. destruct (m_modal m); [by apply overlaid_total|eauto].
Qed.

Section drawn.
Context (unicode_upper : string -> string) (qr : string -> option string).
Context (read_change : bytes -> option StateChange) (read_redemption : bytes -> option string).
Notation run := (run_msgs unicode_upper unicode_lower ID_String qr read_change read_redemption).

End drawn.
End views.

(** ** Witness *)

Definition demo_runes (s : string) : list Z := map chr (String.list_ascii_of_string s).
Definition demo_text (rs : list Z) : string := String.string_of_list_ascii (map of_chr rs).
Definition demo_render (st : Style) (s : string) : string := s.
Definition demo_box (w h : Z) (s : string) : string := s.
Definition demo_msgs_drawn : list (Surroundings * Msg) :=
  [(demo_w, WindowSizeMsg 80 24); (demo_w, friendsLoadedMsg demo_entries); (demo_w, key "j"); (demo_w, key "?")].
Definition demo_drawn : Model := demo_run (NewModel "cfg" "") demo_msgs_drawn.
Definition demo_View : Model -> option string :=
  View demo_lower demo_lower demo_render demo_box (fun l => Join l nl) (fun l => Join l nl) (fun s => Z.of_nat (String.length s))
    demo_runes demo_text (fun _ => "2026-01-01") 0
    id (fun l => Z.of_nat (length l)) (fun l => Z.of_nat (list_max (map length l))).

